(* ===== verification/_CoqProject ===== *)
-Q . S2P
Prelude.v
JsString.v
Regex.v
JsNum.v
Binary64.v
JsArray.v
Stemmer.v
Uri.v
Dom.v
Doctools.v
UCollections.v
SplitQuery.v
Search.v
SearchPage.v
WebComments.v
WebTemplate.v
UArrays.v
UFunctions.v
UEqual.v
UTypes.v
UObjects.v
UTemplate.v
UWrap.v
JqCallbacks.v
JqDeferred.v
JqPromises.v
JqClasses.v
SiteScripts.v
JqCore.v
JqEvents.v
JqDispatch.v
JqParam.v
JqAjax.v
JqHeaders.v
JqRequest.v
JqActive.v
JqData.v
JqEffects.v
DomForest.v
JqManip.v
JqManipEvents.v
JqAttr.v
JqQueue.v
SzTree.v
SzTokens.v
SzMatch.v
SzCompile.v
SzSelect.v
JqTraverse.v
