(* ===== verification/Prelude.v ===== *)
(** * The JavaScript of the documentation site, verified

    ** What the program is

    The repository ships a Spring Boot service and the Apache Cassandra 3.11.1
    distribution.  The JavaScript of the latter runs the documentation site under
    [src/apache-cassandra-3.11.1/doc/html/_static/]: the search of the manual
    (searchtools.js over the generated searchindex.js), the helpers of every page
    (doctools.js), the comment system (websupport.js), and the two libraries these
    use, underscore.js and jquery.js (1.11.3).  This development models that code.

    The parts call each other as follows.  A page loads doctools.js, which reads the
    query string and highlights the words of the query.  The search page hands the
    query to searchtools.js; [Search.query] splits it into words (splitQuery), stems
    them (the Porter stemmer), looks them up in the index, scores, sorts and displays
    the pages, and asks doctools.js to highlight the summaries; it uses [$u] and
    [jQuery.each].  websupport.js fetches comments, sorts them, renders them through
    its templates and turns clicks into requests and changes of the page, with
    jQuery's class methods and events.  Promises of jQuery are built on its callback
    lists, the events of a page on its event data.

    ** Files

    Language and shared parts:
    - Prelude: the errors, the state and error monad [M], tactics, the hint database
      [js], lemmas on lists.
    - JsString: strings as lists of UTF-16 code units with the methods the sources
      use.  Regex: regular expressions with the backtracking semantics of the
      language, including the order of attempts, captures and back-references.
      JsNum: the numbers and comparisons of the sources.  Binary64: the arithmetic of the
      language on rational numbers that are rounded to 53 binary digits.  JsArray: [sort] (stable,
      for consistent comparators) and objects as association lists in the order of
      their properties.  Uri: [encodeURIComponent] and [decodeURIComponent].
      Dom: the trees that highlighting works on.  DomForest (Forest): a document that
      changes, as a forest of trees with numbered nodes, and the operations of the
      document interface on it (appendChild, insertBefore, cloneNode and the others).

    The search (searchtools.js):
    - Stemmer (module Stemmer): [stemWord], its tables, its patterns and steps.
    - SplitQuery (Query): [splitChars] and [splitQuery].
    - Search (Search): [Scorer], the classification of the words of a query,
      [performObjectSearch], [performTermsSearch], the sort, [displayNextItem], item
      links and [makeSearchSummary].
    - SearchPage (Page): the object Search as a state with the events of a page: an
      index that arrives late, a queued query, the pulse.

    The page helpers (doctools.js): Doctools (Doc): URL texts, query parameters,
    highlighting, translations, navigation.

    The comments (websupport.js):
    - WebComments (Comments): sorting, inserting, voting, accepting, deleting,
      proposals, reply forms and re-sorting on the comment boxes of a page.
    - WebTemplate (Template): [renderTemplate], the comparator and its cookie.

    underscore.js:
    - UCollections (U): each to partition.  UArrays (A): the array functions over a
      class of strict equality.  UFunctions (F): partial, memoize, throttle, debounce
      and the small combinators, with time as an explicit clock.  UEqual (Eq):
      [isEqual] on a heap of objects that may be cyclic.  UTypes (T): the tests of types
      on that heap.  UObjects (O): property lists with a prototype.  UTemplate (Esc, Tpl):
      [escape], [unescape] and [template], which writes the source of a function.  UWrap
      (Wrap, Bind): wrappers, [chain], [mixin], and the functions that make functions.

    jquery.js:
    - JqCallbacks (Callbacks): [jQuery.Callbacks]; the list is part of a world in which
      its callbacks run, so a callback may use the list that calls it.
    - JqDeferred (Deferred): deferreds, [then], [promise] and [when] in a world of
      deferreds, with callbacks that run programs of the page.
    - JqPromises (Promises): the contract of a promise, proved against JqDeferred.
    - JqClasses (Classes): the class attribute.  JqCore (Core): sets, [each], [map],
      [grep], [merge], [makeArray] and [extend].
    - JqEvents (Events): the event data of an element: [jQuery.event.add], [remove],
      [on], [one], [off] and [cloneCopyEvent].
    - JqDispatch (Dispatch): event objects, [handlers], [dispatch] and [trigger].
    - JqParam (Param): [buildParams] and [jQuery.param].
    - JqData (Data): the cache behind [data], [_data], [removeData] and [_removeData].
    - JqQueue (Queue): function queues over the private data, with hooks that are
      callback lists, and the promises of queues.
    - JqEffects (Timers, Anim, Options): the list of timers with its tick; the frames,
      tweens and settlement of an animation; [speed], [genFx], [propFilter], tweeners.
    - JqManip (Manip): [buildFragment], [clone], [cleanData] and [domManip] with
      [append], [prepend], [before], [after], [replaceWith], their mirror images,
      [remove], [detach], [empty], [text], [html] and the four wrapping methods, over
      DomForest and the data of JqData; the events are the class [EventLayer], whose laws
      the facts about removal need.  JqManipEvents (EventStore): [jQuery.event.add] and
      [remove] of JqEvents on the data of JqData, with the counted [focusin] and [focusout]
      listeners of the document, as an instance of that class with its laws.
    - JqAttr (Access, Attr, Val): [access], [attr], [removeAttr] and [prop] of an element;
      [val] of fields, options, check boxes and select boxes.
    - JqTraverse (Traverse): [winnow], [filter], [not], [is], [find], the methods that
      walk the tree, [has], [closest], [index] and [add], against a selector engine that is
      the class [SelectorEngine]; its laws are discharged by SzCompile.
    - JqAjax (Ajax): [ajaxHandleResponses] and [ajaxConvert].  JqHeaders (Headers): the
      headers of a request and of its response, and addresses.  JqRequest (Requests):
      [jQuery.ajax], [jqXHR], prefilters and transports, whose functions of the page are
      programs of commands; it runs the callback lists of JqCallbacks.  JqActive (Active):
      the invariant of the requests under all programs.
    - The selector engine (Sizzle): SzTokens (Tokens) has the patterns of the syntax,
      [Expr.preFilter], [tokenize] and [toSelector]; SzTree (Tree) pages as trees with
      [contains], [getText], the orders of nodes and [uniqueSort]; SzMatch (Matchers)
      what is compiled, as data, its evaluation [eval] with the caches that the engine
      keeps on elements, and its meaning [sem] without them; SzCompile (Compiler) the
      filters and pseudos, [matcherFromTokens], [compile] with its cache,
      [Sizzle.matches] and [matchesSelector], and the [meaning] of a selector; SzSelect
      (Select) the finders, [select] and [Sizzle] with its shortcuts.

    Other scripts: SiteScripts (Theme, Javadoc): the version links and the menu of
    js/theme.js, and the table of javadoc/script.js.

    A method that changes a state is a function on a record or a computation of [M];
    a thrown exception is a value [Throw], and the store survives it.  Objects that
    several parts of the code hold are entries of a store (deferreds by number in
    JqDeferred, requests in JqRequest, arrays and hooks of queues in JqQueue, objects of the heap in UEqual, elements in JqDispatch) and not copies.
    The text of the page is a value wherever only its text matters.

    ** What the theorems show

    - Search: [performTermsSearch] finds exactly the pages that hold every term, with
      the score the weights give, for words that are no names of [Object.prototype] (for
      those that are, a lemma says what is thrown); the results are displayed in decreasing score, then
      by title; a query is cut into the maximal runs of word characters, and words are
      stemmed and classified as stated, except that no word is ever excluded; object
      search; the window of a summary; the stemmer never makes a word longer, and step
      2 replaces the longest suffix of its table.  A query made before the index is
      there runs once when it arrives.
    - Query strings: [$.getQueryParameters] reads back what [$.urlencode] and what
      [jQuery.param] write, the latter across two libraries and for nested data; the
      names of [Object.prototype] break it.
    - Highlighting keeps the text of the page.
    - Callback lists: the order and number of calls, memory and once, for callbacks
      that leave the list alone (a refinement of calling a list of functions in
      order); safety of [fire] under any use of the list by its callbacks.
    - Promises: settled at most once whatever the callbacks do; the contract of
      [resolve], [done] and [fail] as a refinement of a log of calls.
    - Events: the invariant of the event data under all sequences of [on], [one] and
      [off]; what [off] removes; that [off] undoes [on]; the meaning of the pattern
      built from namespaces without pattern syntax (what [RegExp] makes of others is the
      class [RegExpConstructor]); the queue of a dispatch, with its memo of selectors, as a
      reference definition; the order of the calls and where they stop, also when
      handlers throw; [one].
    - Data: the cache shared by all elements, whose numbers are reused, is a plain map
      from elements to objects; what is read back after a write.  The names [data] and
      [toJSON], which the library reserves in private objects, are kept out of private calls.
    - Manipulation: [append], [prepend], [before] and [after] put copies of their content at
      all targets but the last, which gets the content itself, and move nothing else
      ([insertion_spec]: through fragments, clones with data, the four callbacks, and the
      [tbody] of a table that gets a row); [remove] and [detach] take a tree out, with or
      without its data, and leave the data of all other nodes, with the handlers of
      [jQuery.event] ([removal_spec]).  The invariant that nodes have distinct numbers is kept.
    - Traversal: [parents], [next], [siblings] and the others give the nodes that their
      walk and the selector describe, in order and once each, and [closest] the first that
      fits, for every engine with the laws and for Sizzle.
    - Timers and animations: a tick treats the list of timers as a queue, whatever the
      timers start; an animation is settled once, by the first event that ends it, with
      every tween at the value that the last frame computes in rounded arithmetic, which is
      the end value where the arithmetic is exact, and its progress never decreases.
    - Queues: the queue of effects runs one function at a time, in order, each once, and
      resolves promises when it is empty; then nothing of it is left.
    - Ajax responses: the response that is chosen, and its conversion through the data
      types by direct converters and by pairs.
    - Attributes and values: an attribute and the choice of a select box are read back as
      they were set, whatever was there before.
    - Requests: each is announced as complete at most once and then stays as it is,
      ajaxStart and ajaxStop bracket them, and the counter covers all that are open, for
      every page that lets a request reach its transport; headers do not depend on case,
      and those of a response are read back.
    - Selectors: the tokens of a selector spell it; the compiler ends; a sequence of
      queries gives what the selectors mean, although combinators share results between
      elements, positions are counted on from where the last search stopped, and compiled
      functions are kept from query to query, and whatever other queries left in the caches
      of elements; errors of the syntax are thrown also after a positional
      pseudo; [:nth-child] as arithmetic, whatever earlier queries left in the caches; sorting nodes
      gives document order without repetitions, in both kinds of browsers;
      letting the browser find the seed of a selection does not change it.
    - Underscore: [isEqual] ends on every heap, cyclic or not, is sound for
      bisimilarity, and complete for functional bisimulations; throttle and debounce
      as transition systems with a clock; binary search, sorting by a criterion,
      [uniq] and [union]; each value passes one test of type; escaped text has none of the
      characters, and is read back; [template] writes a source from which the codes and
      texts are read back; a chain of calls is a nest of calls.
    - Comments: sorting keeps the tree, sorts every level and is idempotent; votes and
      ratings stay in agreement; templates without raw placeholders admit no markup.

    - The table of the javadoc shows exactly the rows and tabs of the chosen type.

    ** Bounds and fuel

    Recursion that is not structural has fuel, and a theorem or the definition shows
    what is enough: the length of the text for a regular expression and for
    [replace] loops, the length of a list for loops that shrink it, the height of a
    tree, the size of the heap for [isEqual] ([isEqual_terminates]), the depth of the
    target for the walk of a dispatch ([handlers_spec]), two nested calls for
    [jQuery.event.remove] on types with a name ([off_removes], [remove_namespace]).
    [tokenize] and [compile] take the length of the selector ([tokenize_covers],
    [compile_terminates]).  [remove] takes the size of the call stack instead of fuel, because it can exceed
    every size ([remove_trailing_dot]).  Calls of callbacks and programs of the page in
    JqCallbacks, JqDeferred and JqRequest can run for ever in the program too: their fuel ends in
    the error [Diverge], and the contracts state how much is enough for them.
    A tick of the timers ends after one round when the timers add none ([process_ends]).
    Numbers of the sources that are integers are [Z] or [nat]; [JsNum] has the
    comparisons that involve NaN; the numbers of an animation are rational numbers that
    every operation rounds to 53 digits, and its statement bounds the duration by 2^53.

    ** Not modelled

    - Case mapping of non-ASCII text is the class [UnicodeCase] with the laws that the
      code relies on; the digits of a printed number, the style sheet that hides
      elements ([hides]), the escaping of a text node ([text_html]) and the selector
      engine of a dispatch ([find]) are parameters; so is what the browser says of
      a page in SzCompile.
    - The prototype chain beyond [Object.prototype] and the own properties of the
      objects at hand; getters; sparse arrays; strings with more than 2^53 units.
    - [jQuery.extend] is modelled on trees, without aliasing between source and target.
    - Special events with hooks that run code of their own (submit and change in old
      browsers) and [preDispatch] hooks; triggering an event object that was made
      before; handlers that trigger events in turn.
    - Transports themselves (those of jQuery too) and the requests of websupport.js: they
      are programs, and their answers are events.  The merging of settings before a
      request; data types and headers named like a property of [Object.prototype];
      converters that throw a value that is false; progress of a request.  A prefilter
      that registers another for the type being inspected is not called in that round.
    - Style and positions; [removeProp], the hook that reads [tabIndex], [access] without a
      key, what a browser makes of an assigned property ([assign] for [value]), and names of
      attributes that it rejects; of effects the standard
      prefilter, the default tweener with its units, and [animate], [stop] and [finish]
      around the queue; the code of the page that runs in a frame.  HTML data attributes.
    - Of manipulation: the workarounds for old browsers (the model is of one in which all
      tests of [support] succeed, [focusinBubbles] apart, which may be either), functions given to [text] and [html], and documents
      other than the one of the page; the parser of html is a parameter, and so is the
      serialization.  Evaluated scripts are listed, not run.
    - Sorting with a comparator and array methods on other objects in wrappers of
      underscore.js; what [new Function] makes of a source; [parseHTML] and the
      document-ready promise.
    - Of Sizzle: running the set matchers of positional pseudos (they are compiled with the
      errors that this throws, and a selector that has one then compiles to [None]), the memo
      of tokens, which only repeats results, and the tests of old
      browsers.  What the browser finds by name, class, ID or selector is a parameter; it
      also answers the queries of [:has].  The run numbers of nested matchers are sums
      with random numbers: they are a parameter, and that no two are equal is the
      hypothesis of [session_meaning].
    - [jQuery.param] of a set of elements beyond its fields.
    - [loadIndex], the DOM nodes of a result, addContextElements and the wrapping of
      tables when a page is loaded: glue between the page and the functions modelled.
    - searchindex.js is data: the search theorems hold for every index.
    - The Java service, the Python tools of Cassandra and the generated HTML. *)

From stdpp Require Import base tactics list gmap sorting.
From Stdlib Require Import Sorted Permutation Lia.

#[export] Set Default Goal Selector "!".

(** ** The error and state monad of the JavaScript code *)

Declare Scope js_scope.
Delimit Scope js_scope with js.

(** What a JavaScript computation throws.  [Diverge] is not an exception of the
    language: it ends a computation of the model that has used up its fuel. *)
Inductive error : Type :=
  | TypeError
  | RangeError
  | URIError
  | UserError (tag : nat)
  | Diverge.

#[export] Instance error_eq_dec : EqDecision error.
Proof. solve_decision. Defined.

(** A completed call: a value, or an exception that unwinds it. *)
Inductive outcome (A : Type) : Type :=
  | Ok (a : A)
  | Throw (e : error).
Arguments Ok {A} a.
Arguments Throw {A} e.

(** Computations over a store [S]: the store survives an exception, as it
    does in JavaScript. *)
Definition M (S A : Type) : Type := S → outcome A * S.

#[export] Instance M_ret {S} : MRet (M S) := λ A a s, (Ok a, s).
#[export] Instance M_bind {S} : MBind (M S) := λ A B k m s,
  match m s with
  | (Ok a, s') => k a s'
  | (Throw e, s') => (Throw e, s')
  end.

Definition throw {S A} (e : error) : M S A := λ s, (Throw e, s).
Definition get {S} : M S S := λ s, (Ok s, s).
Definition put {S} (s : S) : M S unit := λ _, (Ok tt, s).
Definition modify {S} (f : S → S) : M S unit := λ s, (Ok tt, f s).

(** A function with a closure variable of type [L]: its body runs over the
    caller's store extended with the variable, which is dropped on return. *)
Definition with_local {S L A} (init : L) (body : M (S * L) A) : M S (A * L) := λ s,
  match body (s, init) with
  | (Ok a, (s', l)) => (Ok (a, l), s')
  | (Throw e, (s', _)) => (Throw e, s')
  end.

Definition outer {S L A} (m : M S A) : M (S * L) A := λ sl,
  match m sl.1 with (r, s') => (r, (s', sl.2)) end.
Definition modify_local {S L} (f : L → L) : M (S * L) unit := λ sl,
  (Ok tt, (sl.1, f sl.2)).
Definition get_local {S L} : M (S * L) L := λ sl, (Ok sl.2, sl).

(** Running code that has no store of its own. *)
Definition run_pure {A} (m : M unit A) : outcome A := (m tt).1.

Section monad_laws.
Context {S : Type}.

Lemma bind_ret {A B} (a : A) (k : A → M S B) s : (mret a ≫= k) s = k a s.
Proof. reflexivity. Qed.

Lemma bind_ok {A B} (m : M S A) (k : A → M S B) s a s' :
  m s = (Ok a, s') → (m ≫= k) s = k a s'.
Proof. intros H. unfold mbind, M_bind. by rewrite H. Qed.

Lemma bind_throw {A B} (m : M S A) (k : A → M S B) s e s' :
  m s = (Throw e, s') → (m ≫= k) s = (Throw e, s').
Proof. intros H. unfold mbind, M_bind. by rewrite H. Qed.

Lemma bind_assoc {A B C} (m : M S A) (k : A → M S B) (h : B → M S C) s :
  ((m ≫= k) ≫= h) s = (m ≫= (λ a, k a ≫= h)) s.
Proof. unfold mbind, M_bind. by destruct (m s) as [[] ?]. Qed.

Lemma bind_ok_inv {A B} (m : M S A) (k : A → M S B) s b s' :
  (m ≫= k) s = (Ok b, s') → ∃ a s1, m s = (Ok a, s1) ∧ k a s1 = (Ok b, s').
Proof. unfold mbind, M_bind. destruct (m s) as [[a|e] s1]; [eauto|done]. Qed.
End monad_laws.

(** ** Relations that computations keep *)

(** Every run of [m], however it ends, is a step of [R]. *)
Definition keeps {S A} (R : S → S → Prop) (m : M S A) : Prop := ∀ s, R s (m s).2.
Section keeps.
Context {S : Type}.
Implicit Types R : S → S → Prop.
Lemma keeps_seq {A B} R1 R2 R (m : M S A) (k : A → M S B) :
  (∀ s s', R1 s s' → R s s') → (∀ s1 s2 s3, R1 s1 s2 → R2 s2 s3 → R s1 s3) →
  keeps R1 m → (∀ a, keeps R2 (k a)) → keeps R (m ≫= k).
Proof.
  intros Hsub Htrans Hm Hk s. unfold mbind, M_bind. specialize (Hm s). destruct (m s) as [[a|e] s1]; cbn in *; [|by apply Hsub].
  eapply Htrans; [exact Hm|apply Hk].
Qed.
Lemma keeps_mono {A} R1 R2 (m : M S A) : (∀ s s', R1 s s' → R2 s s') → keeps R1 m → keeps R2 m.
Proof. intros Hsub Hm s. apply Hsub, Hm. Qed.

Section preorder.
Context R `{!PreOrder R}.
Lemma keeps_ret {A} (a : A) : keeps R (mret a).
Proof. intros s. cbn. reflexivity. Qed.
Lemma keeps_throw {A} e : keeps R (throw (A:=A) e).
Proof. intros s. cbn. reflexivity. Qed.
Lemma keeps_bind {A B} (m : M S A) (k : A → M S B) : keeps R m → (∀ a, keeps R (k a)) → keeps R (m ≫= k).
Proof. apply keeps_seq; [done|]. intros s1 s2 s3 H1 H2. by transitivity s2. Qed.
Lemma keeps_get {A} (k : S → M S A) : (∀ s, R s (k s s).2) → keeps R (get ≫= k).
Proof. intros Hk s. apply Hk. Qed.
Lemma keeps_modify (f : S → S) : (∀ s, R s (f s)) → keeps R (modify f).
Proof. done. Qed.
End preorder.
End keeps.

(** ** Tactics of the development *)

(** Case analysis on every scrutinee of the goal, closing absurd branches. *)
Ltac cases := repeat (case_match; simplify_eq/=; try done).
(** Split a boolean conjunction or disjunction in the context. *)
Ltac bools :=
  repeat match goal with
  | H : (_ && _) = true |- _ => apply andb_true_iff in H; destruct H
  | H : (_ || _) = false |- _ => apply orb_false_iff in H; destruct H
  | H : negb _ = true |- _ => apply negb_true_iff in H
  | H : negb _ = false |- _ => apply negb_false_iff in H
  end.

(** ** Lemmas on lists shared by the components *)

Create HintDb js.
Create Rewrite HintDb js.

Section lists.
Context {A : Type}.
Implicit Types l : list A.

Lemma take_drop_app3 (l : list A) (n k : nat) :
  take n l ++ take k (drop n l) ++ drop (n + k) l = l.
Proof. by rewrite <- drop_drop, take_drop, take_drop. Qed.

Lemma existsb_elem_of (p : A → bool) l : existsb p l = true ↔ ∃ x, x ∈ l ∧ p x = true.
Proof.
  rewrite existsb_exists. by setoid_rewrite <- list_elem_of_In.
Qed.

Lemma existsb_false (p : A → bool) l : existsb p l = false ↔ ∀ x, x ∈ l → p x = false.
Proof.
  induction l as [|y l IH]; simpl; [set_solver|].
  rewrite orb_false_iff, IH. set_solver.
Qed.

Lemma forallb_elem_of (p : A → bool) l : forallb p l = true ↔ ∀ x, x ∈ l → p x = true.
Proof.
  rewrite forallb_forall. by setoid_rewrite <- list_elem_of_In.
Qed.

Lemma last_app_singleton l x : last (l ++ [x]) = Some x.
Proof. by rewrite last_app. Qed.

Lemma removelast_take l : removelast l = take (length l - 1) l.
Proof.
  induction l as [|x l IH]; [done|]. simpl. rewrite Nat.sub_0_r.
  destruct l as [|y l]; [done|]. rewrite IH. simpl. by rewrite Nat.sub_0_r.
Qed.
End lists.

Lemma list_filter_fmap {A B} (f : A → B) (P : B → Prop) `{!∀ x, Decision (P x)} (l : list A) :
  filter P (f <$> l) = f <$> filter (λ x, P (f x)) l.
Proof.
  induction l as [|x l IH]; [done|]. rewrite fmap_cons, !filter_cons, IH. by case_decide.
Qed.

Lemma list_filter_all {A} (P : A → Prop) `{!∀ x, Decision (P x)} (l : list A) :
  (∀ x, x ∈ l → P x) → filter P l = l.
Proof.
  induction l as [|x l IH]; intros Hl; [done|]. rewrite filter_cons.
  rewrite decide_True by (apply Hl; by left). f_equal. apply IH. intros. apply Hl. by right.
Qed.

Lemma omap_ext_in {A B} (f g : A → option B) (l : list A) :
  (∀ x, x ∈ l → f x = g x) → omap f l = omap g l.
Proof.
  induction l as [|x l IH]; intros Hfg; [done|]. cbn [omap list_omap].
  rewrite Hfg by (by left). rewrite IH by (intros; apply Hfg; by right). done.
Qed.
Lemma omap_fmap_compose {A B C} (f : A → B) (g : B → option C) (l : list A) :
  omap g (f <$> l) = omap (λ x, g (f x)) l.
Proof. induction l as [|x l IH]; [done|]. rewrite fmap_cons. cbn [omap list_omap]. by rewrite IH. Qed.

Lemma omap_Some_all {A} (f : A → option A) (l : list A) : (∀ x, x ∈ l → f x = Some x) → omap f l = l.
Proof.
  induction l as [|x l IH]; intros Hf; [done|]. cbn [omap list_omap].
  rewrite Hf by (by left). f_equal. apply IH. intros; apply Hf; by right.
Qed.

Lemma omap_fmap_filter {A B} (f : A → option B) (g : A → B) (P : A → Prop)
    `{!∀ x, Decision (P x)} (l : list A) :
  (∀ x, x ∈ l → f x = if decide (P x) then Some (g x) else None) →
  omap f l = g <$> filter P l.
Proof.
  induction l as [|x l IH]; intros Hf; [done|]. cbn [omap list_omap]. rewrite filter_cons.
  rewrite Hf by (by left). rewrite IH by (intros; apply Hf; by right). by case_decide.
Qed.

Lemma StronglySorted_filter {A} (R : relation A) (P : A → Prop) `{!∀ x, Decision (P x)} l :
  StronglySorted R l → StronglySorted R (filter P l).
Proof.
  induction 1 as [|x l Hl IH Hx]; [constructor|]. rewrite filter_cons. case_decide; [|done].
  constructor; [done|]. apply Forall_forall. intros y [_ Hy]%list_elem_of_filter.
  by eapply Forall_forall in Hx.
Qed.

Lemma StronglySorted_impl_in {A} (R R' : relation A) l :
  (∀ x y, x ∈ l → y ∈ l → R x y → R' x y) → StronglySorted R l → StronglySorted R' l.
Proof.
  intros HR H. induction H as [|x l Hl IH Hx]; [constructor|]. constructor.
  - apply IH. intros y z Hy Hz. apply HR; by right.
  - rewrite Forall_forall in Hx |- *. intros y Hy. apply HR; [by left|by right|by apply Hx].
Qed.

Lemma StronglySorted_fmap_in {A B} (f : A → B) (R : relation B) l :
  StronglySorted (λ x y, R (f x) (f y)) l → StronglySorted R (f <$> l).
Proof.
  induction 1 as [|x l Hl IH Hx]; [constructor|]. rewrite fmap_cons. constructor; [done|].
  by apply Forall_fmap.
Qed.

Lemma StronglySorted_reverse {A} (R : relation A) l :
  StronglySorted R l → StronglySorted (flip R) (reverse l).
Proof.
  induction 1 as [|x l Hl IH Hx]; [constructor|]. rewrite reverse_cons.
  apply StronglySorted_app_2; [|done|by repeat constructor].
  intros y z Hy ->%list_elem_of_singleton. rewrite Forall_forall in Hx.
  apply Hx. by rewrite <- (reverse_Permutation l).
Qed.

#[export] Hint Rewrite @take_drop_app3 @last_app_singleton : js.
