(* ===== verification/JsString.v ===== *)
(** * Strings of JavaScript: sequences of 16-bit code units

    The operations of [String.prototype] that the sources use, with the
    clamping rules of the language: a position is an integer, a negative one
    counts from the end where the method says so, and nothing raises. *)

From stdpp Require Import base tactics list strings numbers sets gmap.
From Stdlib Require Import Ascii NArith ZArith Lia.
From S2P Require Import Prelude.

Abbreviation jsstr := (list N).

(** A string literal of the source (ASCII). *)
Fixpoint js (s : String.string) : jsstr :=
  match s with
  | String.EmptyString => []
  | String.String a s' => N_of_ascii a :: js s'
  end.

(** A one-character literal. *)
Definition chr (s : String.string) : N := default 0%N (head (js s)).

(** Every code unit is a 16-bit number. *)
Definition code_units (s : jsstr) : Prop := Forall (λ c, (c < 65536)%N) s.

Definition str_eqb (s t : jsstr) : bool := bool_decide (s = t).

Section operations.
Local Open Scope Z_scope.

Definition zlen {A} (s : list A) : Z := Z.of_nat (length s).

(** The code units from position [a] (inclusive) to [b] (exclusive). *)
Definition slice_nat {A} (s : list A) (a b : nat) : list A := take (b - a) (drop a s).

(** [String.prototype.slice] and [Array.prototype.slice]: negative positions
    count from the end. *)
Definition rel_index {A} (s : list A) (i : Z) : Z :=
  if i <? 0 then Z.max (zlen s + i) 0 else Z.min i (zlen s).
Definition slice {A} (s : list A) (a b : Z) : list A :=
  slice_nat s (Z.to_nat (rel_index s a)) (Z.to_nat (rel_index s b)).
Definition slice_from {A} (s : list A) (a : Z) : list A :=
  drop (Z.to_nat (rel_index s a)) s.

(** [substring(a, b)]: both positions are clamped to the string, and swapped
    when they are in the wrong order. *)
Definition substring (s : jsstr) (a b : Z) : jsstr :=
  let a' := Z.min (Z.max a 0) (zlen s) in
  let b' := Z.min (Z.max b 0) (zlen s) in
  slice_nat s (Z.to_nat (Z.min a' b')) (Z.to_nat (Z.max a' b')).
Definition substring_from (s : jsstr) (a : Z) : jsstr := substring s a (zlen s).

(** [substr(start, length)]. *)
Definition substr (s : jsstr) (start len : Z) : jsstr :=
  let a := Z.to_nat (rel_index s start) in
  take (Z.to_nat len) (drop a s).
Definition substr_from (s : jsstr) (start : Z) : jsstr :=
  drop (Z.to_nat (rel_index s start)) s.

Definition charAt (s : jsstr) (i : nat) : jsstr :=
  match s !! i with Some c => [c] | None => [] end.
End operations.

(** [indexOf]: the first position at which [t] occurs, [None] for -1. *)
Fixpoint prefixb (t s : jsstr) : bool :=
  match t, s with
  | [], _ => true
  | c :: t', d :: s' => N.eqb c d && prefixb t' s'
  | _ :: _, [] => false
  end.

Fixpoint index_of (s t : jsstr) : option nat :=
  if prefixb t s then Some 0 else
  match s with
  | [] => None
  | _ :: s' => S <$> index_of s' t
  end.

Definition indexOf (s t : jsstr) : Z :=
  match index_of s t with Some i => Z.of_nat i | None => (-1)%Z end.

Definition contains_str (s t : jsstr) : bool :=
  match index_of s t with Some _ => true | None => false end.

(** [indexOf(t, from)] for a non-negative [from]. *)
Definition indexOf_from (s t : jsstr) (from : nat) : Z :=
  match index_of (drop from s) t with
  | Some i => (Z.of_nat (Nat.min from (length s)) + Z.of_nat i)%Z
  | None => (-1)%Z
  end.

(** The last position of a code unit, [lastIndexOf] with a one-unit needle. *)
Fixpoint last_index_unit (s : jsstr) (c : N) : option nat :=
  match s with
  | [] => None
  | d :: s' =>
      match last_index_unit s' c with
      | Some i => Some (S i)
      | None => if N.eqb d c then Some 0 else None
      end
  end.
Definition lastIndexOf_unit (s : jsstr) (c : N) : Z :=
  match last_index_unit s c with Some i => Z.of_nat i | None => (-1)%Z end.

(** [split] on the code units satisfying [p] (a one-unit separator, or a
    regular expression matching one unit): never empty, empty pieces kept. *)
Fixpoint split_on (p : N → bool) (s : jsstr) : list jsstr :=
  match s with
  | [] => [[]]
  | c :: s' =>
      if p c then [] :: split_on p s' else
      match split_on p s' with
      | w :: ws => (c :: w) :: ws
      | [] => [[c]]
      end
  end.
Definition split_unit (c : N) : jsstr → list jsstr := split_on (N.eqb c).

(** [Array.prototype.join]. *)
Fixpoint join (sep : jsstr) (l : list jsstr) : jsstr :=
  match l with
  | [] => []
  | [s] => s
  | s :: l' => s ++ sep ++ join sep l'
  end.

(** Replacing every occurrence of one unit by another, [replace(/c/g, "d")]. *)
Definition replace_unit (c d : N) (s : jsstr) : jsstr :=
  (λ x, if N.eqb x c then d else x) <$> s.

(** Lexicographic order on code units, [<] on strings. *)
Fixpoint str_ltb (s t : jsstr) : bool :=
  match s, t with
  | _, [] => false
  | [], _ :: _ => true
  | c :: s', d :: t' => if N.eqb c d then str_ltb s' t' else N.ltb c d
  end.

(** ** Letter case

    Case mapping beyond ASCII is data of the Unicode standard and not of the
    sources: it is a parameter, an instance of this class.  [to_lower] agrees
    with ASCII on ASCII strings, is idempotent, and never produces an ASCII
    character that is not a letter where there was none (its only outputs below
    128 are the lower-case letters). *)
Definition ascii_lower_unit (c : N) : N :=
  if (65 <=? c)%N && (c <=? 90)%N then (c + 32)%N else c.
Definition ascii_upper_unit (c : N) : N :=
  if (97 <=? c)%N && (c <=? 122)%N then (c - 32)%N else c.
Definition is_ascii (s : jsstr) : Prop := Forall (λ c, (c < 128)%N) s.

Class UnicodeCase := {
  to_lower : jsstr → jsstr;
  to_lower_ascii : ∀ s, is_ascii s → to_lower s = ascii_lower_unit <$> s;
  to_lower_nonletter : ∀ s c, (c < 65)%N → c ∈ to_lower s → c ∈ s;
  to_lower_idemp : ∀ s, to_lower (to_lower s) = to_lower s;
}.

(** The instance that only knows ASCII, used to evaluate examples. *)
Lemma ascii_lower_nonletter c d : (c < 65)%N → ascii_lower_unit d = c → d = c.
Proof.
  unfold ascii_lower_unit. intros Hc <-. revert Hc.
  destruct ((65 <=? d)%N && (d <=? 90)%N) eqn:E; [|done].
  bools. rewrite N.leb_le in *. lia.
Qed.

Lemma ascii_lower_unit_idemp c : ascii_lower_unit (ascii_lower_unit c) = ascii_lower_unit c.
Proof.
  unfold ascii_lower_unit at 2 3.
  destruct ((65 <=? c)%N && (c <=? 90)%N) eqn:E; unfold ascii_lower_unit.
  - apply andb_true_iff in E as [H1 H2]. rewrite N.leb_le in *.
    destruct ((65 <=? c + 32)%N && (c + 32 <=? 90)%N) eqn:E'; [|done].
    bools. rewrite N.leb_le in *. lia.
  - by rewrite E.
Qed.

Program Definition ascii_case : UnicodeCase := {|
  to_lower := fmap ascii_lower_unit
|}.
Next Obligation. done. Qed.
Next Obligation.
  intros s c Hc (d & Hd & Hin)%list_elem_of_fmap.
  by rewrite (ascii_lower_nonletter c d) in Hin by done.
Qed.
Next Obligation.
  intros s. rewrite <- list_fmap_compose. apply list_fmap_ext. intros i c _.
  apply ascii_lower_unit_idemp.
Qed.

(** ** Laws of the operations *)

Lemma prefixb_spec t s : prefixb t s = true ↔ ∃ u, s = t ++ u.
Proof.
  revert s. induction t as [|c t IH]; intros s; simpl.
  - split; [by exists s | done].
  - destruct s as [|d s]; [split; [done | by intros (u & ?)] |].
    rewrite andb_true_iff, N.eqb_eq, IH. split.
    + by intros [-> (u & ->)]; exists u.
    + intros (u & [= -> ->]). eauto.
Qed.

Lemma prefixb_app t u : prefixb t (t ++ u) = true.
Proof. apply prefixb_spec. eauto. Qed.

Lemma index_of_Some s t i :
  index_of s t = Some i →
  s = take i s ++ t ++ drop (i + length t) s ∧ i ≤ length s.
Proof.
  revert i. induction s as [|c s IH]; intros i; simpl.
  - destruct (prefixb t []) eqn:E; [|done]. intros [= <-].
    apply prefixb_spec in E as (u & Hu). symmetry in Hu.
    apply app_eq_nil in Hu as [-> ->]. done.
  - destruct (prefixb t (c :: s)) eqn:E.
    + intros [= <-]. apply prefixb_spec in E as (u & Hu). rewrite Hu.
      rewrite take_0. simpl. rewrite drop_app_length. split; [done | lia].
    + intros (j & Hj & ->)%fmap_Some. apply IH in Hj as [Hj ?].
      simpl. split; [congruence | lia].
Qed.

Lemma index_of_None s t : index_of s t = None ↔ ∀ a b, s ≠ a ++ t ++ b.
Proof.
  induction s as [|c s IH]; simpl.
  - destruct (prefixb t []) eqn:E; split; try done.
    + apply prefixb_spec in E as (u & Hu). intros H. by destruct (H [] u).
    + intros _ a b Hab. symmetry in Hab. apply app_eq_nil in Hab as [-> Hab].
      apply app_eq_nil in Hab as [-> ->]. done.
  - destruct (prefixb t (c :: s)) eqn:E.
    + split; [done|]. apply prefixb_spec in E as (u & Hu).
      intros H. by destruct (H [] u).
    + rewrite fmap_None, IH. split.
      * intros H [|x a] b; simpl; intros Hab.
        -- assert (prefixb t (c :: s) = true) by (apply prefixb_spec; eauto). congruence.
        -- simplify_eq. by destruct (H a b).
      * intros H a b ->. by destruct (H (c :: a) b).
Qed.

Lemma contains_str_spec s t : contains_str s t = true ↔ ∃ a b, s = a ++ t ++ b.
Proof.
  unfold contains_str. destruct (index_of s t) as [i|] eqn:E.
  - split; [|done]. intros _. apply index_of_Some in E as [-> _]. eauto.
  - split; [done|]. intros (a & b & Hab).
    rewrite index_of_None in E. by destruct (E a b).
Qed.

Lemma split_on_ne p s : split_on p s ≠ [].
Proof. destruct s as [|c s]; simpl; [done|]. destruct (p c); [done|]. by destruct (split_on p s). Qed.

Lemma split_on_free p s : Forall (Forall (λ c, p c = false)) (split_on p s).
Proof.
  induction s as [|c s IH]; simpl; [by repeat constructor|].
  destruct (p c) eqn:Hc; [by constructor|].
  destruct (split_on p s) as [|w ws]; [by repeat constructor|].
  inversion IH; subst. repeat constructor; done.
Qed.

Lemma split_on_Forall (P : N → Prop) p s : Forall P s → Forall (Forall P) (split_on p s).
Proof.
  induction 1 as [|c s Hc Hs IH]; cbn [split_on]; [apply Forall_singleton; constructor|].
  destruct (p c); [by constructor; [constructor|]|].
  destruct (split_on p s) as [|w ws]; [by repeat constructor|].
  inversion IH; subst. by repeat constructor.
Qed.

Lemma join_Forall (P : N → Prop) sep l : Forall P sep → Forall (Forall P) l → Forall P (join sep l).
Proof.
  intros Hs. induction 1 as [|w l Hw Hl IH]; [constructor|]. destruct l as [|w' l]; [done|].
  cbn [join]. apply Forall_app; split; [done|]. by apply Forall_app.
Qed.

Lemma split_on_length p s : length (split_on p s) = S (length (filter p s)).
Proof.
  induction s as [|c s IH]; simpl; [done|].
  destruct (p c) eqn:Hc.
  - rewrite filter_cons_True by (by apply Is_true_true). simpl. by rewrite IH.
  - rewrite filter_cons_False by (rewrite Is_true_true; congruence).
    destruct (split_on p s) as [|w ws] eqn:E; [|done].
    by destruct (split_on_ne p s).
Qed.

Lemma join_split_unit c s : join [c] (split_unit c s) = s.
Proof.
  unfold split_unit. induction s as [|d s IH]; [done|]. simpl.
  destruct (N.eqb_spec c d) as [->|Hne].
  - destruct (split_on (N.eqb d) s) eqn:E; [by destruct (split_on_ne (N.eqb d) s)|].
    rewrite <- IH. done.
  - destruct (split_on (N.eqb c) s) as [|w ws] eqn:E; [by destruct (split_on_ne (N.eqb c) s)|].
    rewrite <- IH. by destruct ws.
Qed.

Lemma split_on_sep p a c b : p c = true → split_on p (a ++ c :: b) = split_on p a ++ split_on p b.
Proof.
  intros Hc. induction a as [|x a IH]; cbn; [by rewrite Hc|]. rewrite IH.
  destruct (p x); [done|]. pose proof (split_on_ne p a). by destruct (split_on p a).
Qed.
Lemma split_on_word p w : Forall (λ c, p c = false) w → split_on p w = [w].
Proof. induction 1 as [|c w Hc Hw IH]; [done|]. cbn. by rewrite Hc, IH. Qed.

Lemma absent_eqb c w : c ∉ w → Forall (λ d, N.eqb c d = false) w.
Proof. intros H. apply Forall_forall. intros d Hd. apply N.eqb_neq. by intros ->. Qed.

Lemma split_unit_word c w : c ∉ w → split_unit c w = [w].
Proof. intros H. by apply split_on_word, absent_eqb. Qed.
Lemma split_unit_sep c a b : split_unit c (a ++ c :: b) = split_unit c a ++ split_unit c b.
Proof. apply split_on_sep, N.eqb_refl. Qed.

Lemma join_cons sep w l : l ≠ [] → join sep (w :: l) = w ++ sep ++ join sep l.
Proof. by destruct l. Qed.

Lemma split_join_unit c l :
  l ≠ [] → Forall (λ w, c ∉ w) l → split_unit c (join [c] l) = l.
Proof.
  intros Hl H. induction H as [|w l Hin H IH]; [done|].
  destruct l as [|w' l]; [by apply split_unit_word|].
  rewrite join_cons by done. cbn [app]. by rewrite split_unit_sep, split_unit_word, IH.
Qed.

Lemma replace_unit_absent c d s : c ∉ s → replace_unit c d s = s.
Proof.
  unfold replace_unit. intros H. induction s as [|x s IH]; [done|]. simpl.
  destruct (N.eqb_spec x c); [set_solver|]. f_equal. apply IH. set_solver.
Qed.

Lemma replace_unit_gone c d s : c ≠ d → c ∉ replace_unit c d s.
Proof.
  unfold replace_unit. intros Hne (x & Hx & _)%list_elem_of_fmap.
  destruct (N.eqb_spec x c); congruence.
Qed.

Lemma replace_unit_app c d s t :
  replace_unit c d (s ++ t) = replace_unit c d s ++ replace_unit c d t.
Proof. apply fmap_app. Qed.

(** [<] on strings is a strict total order. *)
Lemma str_ltb_irrefl s : str_ltb s s = false.
Proof. induction s as [|c s IH]; simpl; [done|]. by rewrite N.eqb_refl. Qed.

Lemma str_ltb_trans s t u : str_ltb s t = true → str_ltb t u = true → str_ltb s u = true.
Proof.
  revert t u. induction s as [|c s IH]; intros [|d t] [|e u]; simpl; try done.
  destruct (N.eqb_spec c d) as [->|]; destruct (N.eqb_spec d e) as [->|]; try done.
  - by apply IH.
  - destruct (N.eqb_spec c e); [congruence|done].
  - rewrite !N.ltb_lt. intros. destruct (N.eqb_spec c e); [lia|]. apply N.ltb_lt. lia.
Qed.

Lemma str_ltb_total s t : str_ltb s t = false → str_ltb t s = false → s = t.
Proof.
  revert t. induction s as [|c s IH]; intros [|d t]; simpl; try done.
  destruct (N.eqb_spec c d) as [->|Hne].
  - rewrite N.eqb_refl. intros. f_equal. by apply IH.
  - rewrite (proj2 (N.eqb_neq d c)) by congruence.
    rewrite !N.ltb_ge. lia.
Qed.

Lemma str_ltb_asym s t : str_ltb s t = true → str_ltb t s = false.
Proof.
  intros H. destruct (str_ltb t s) eqn:E; [|done].
  pose proof (str_ltb_trans _ _ _ H E) as Hs. by rewrite str_ltb_irrefl in Hs.
Qed.

(** A natural number as text. *)
Fixpoint decimal_loop (fuel n : nat) : jsstr :=
  match fuel with
  | 0 => []
  | S k => (if n <? 10 then [] else decimal_loop k (n / 10)) ++ [N.of_nat (48 + n mod 10)]
  end.
Definition decimal (n : nat) : jsstr := decimal_loop (S n) n.

(** Between two positions of the text [slice] is [slice_nat]. *)
Lemma slice_of_nat {A} (s : list A) (a b : nat) : slice s (Z.of_nat a) (Z.of_nat b) = slice_nat s a b.
Proof.
  unfold slice, rel_index, zlen.
  destruct (Z.ltb_spec (Z.of_nat a) 0); [lia|]. destruct (Z.ltb_spec (Z.of_nat b) 0); [lia|].
  rewrite <- !Nat2Z.inj_min, !Nat2Z.id. unfold slice_nat.
  destruct (Nat.le_gt_cases (length s) a).
  - rewrite (drop_ge s a), (drop_ge s (a `min` length s)) by lia. by rewrite !take_nil.
  - rewrite (Nat.min_l a) by lia. destruct (Nat.le_gt_cases b (length s)); [by rewrite Nat.min_l by lia|].
    rewrite Nat.min_r by lia. rewrite !take_ge; [done|rewrite length_drop; lia..].
Qed.

#[export] Hint Resolve split_on_ne split_on_free str_ltb_irrefl str_ltb_asym : js.
#[export] Hint Rewrite prefixb_app join_split_unit replace_unit_app : js.
