(* ===== verification/Regex.v ===== *)
(** * Regular expressions of JavaScript

    The pattern language the sources use (character classes, sequence,
    alternation, lazy and greedy repetition, captures, back-references and
    anchors) with the backtracking semantics of ECMAScript: [run r st] lists the
    ways in which [r] matches at the state [st], in the order in which the
    backtracking matcher tries them, so the matcher's answer is the head of the
    list.  [exec], [test], [replace_first] and [replace_all] are the methods of
    the language built on it. *)

From stdpp Require Import base tactics list strings numbers sets gmap.
From Stdlib Require Import NArith Sorted Lia.
From S2P Require Import Prelude JsString.

Inductive regex : Type :=
  | RSet (p : N → bool)            (* one code unit of a class *)
  | REmpty
  | RSeq (r1 r2 : regex)
  | RAlt (r1 r2 : regex)
  | ROpt (greedy : bool) (r : regex)
  | RStar (greedy : bool) (r : regex)
  | RGroup (n : nat) (r : regex)
  | RBack (n : nat)
  | RBol                           (* ^ *)
  | REol                           (* $ *)
  | RNot (r : regex).              (* (?!r) *)

(** Notations close to the sources' patterns. *)
Definition cls (s : String.string) (c : N) : bool := existsb (N.eqb c) (js s).
Definition ncls (s : String.string) (c : N) : bool := negb (cls s c).
Definition in_range (a b : N) (c : N) : bool := (a <=? c)%N && (c <=? b)%N.
(** [.] matches every unit but the line terminators. *)
Definition is_line_term (c : N) : bool :=
  existsb (N.eqb c) [10; 13; 8232; 8233]%N.
Definition dot : regex := RSet (λ c, negb (is_line_term c)).
(** [\s]: white space and line terminators. *)
Definition is_space (c : N) : bool :=
  existsb (N.eqb c) [9; 10; 11; 12; 13; 32; 160; 5760; 8232; 8233; 8239; 8287; 12288; 65279]%N
  || in_range 8192 8202 c.
(** [\d] and [\w]. *)
Definition is_digit : N → bool := in_range 48 57.
Definition is_word (c : N) : bool :=
  in_range 48 57 c || in_range 65 90 c || in_range 97 122 c || N.eqb c 95.

Fixpoint lit_units (s : jsstr) : regex :=
  match s with
  | [] => REmpty
  | [c] => RSet (N.eqb c)
  | c :: s' => RSeq (RSet (N.eqb c)) (lit_units s')
  end.
Definition lit (s : String.string) : regex := lit_units (js s).
Fixpoint alts (l : list regex) : regex :=
  match l with
  | [] => RSet (λ _, false)
  | [r] => r
  | r :: l' => RAlt r (alts l')
  end.
Fixpoint seqs (l : list regex) : regex :=
  match l with
  | [] => REmpty
  | [r] => r
  | r :: l' => RSeq r (seqs l')
  end.
Definition star (r : regex) : regex := RStar true r.
Definition plus (r : regex) : regex := RSeq r (RStar true r).
Definition plus_lazy (r : regex) : regex := RSeq r (RStar false r).
Definition opt (r : regex) : regex := ROpt true r.

(** The capture groups of a pattern. *)
Fixpoint groups (r : regex) : list nat :=
  match r with
  | RSet _ | REmpty | RBack _ | RBol | REol => []
  | RSeq r1 r2 | RAlt r1 r2 => groups r1 ++ groups r2
  | ROpt _ r | RStar _ r | RNot r => groups r
  | RGroup n r => n :: groups r
  end.

(** A matcher state: how many units precede the position, the units after it,
    and the captures made so far. *)
Record mstate := MState {
  m_pos : nat;
  m_rest : jsstr;
  m_caps : gmap nat jsstr;
}.

Definition advance (k : nat) (st : mstate) : mstate :=
  MState (m_pos st + k) (drop k (m_rest st)) (m_caps st).
Definition clear_caps (ns : list nat) (st : mstate) : mstate :=
  MState (m_pos st) (m_rest st) (foldr delete (m_caps st) ns).
Definition set_cap (n : nat) (s : jsstr) (st : mstate) : mstate :=
  MState (m_pos st) (m_rest st) (<[n := s]> (m_caps st)).
Definition progressed (st st' : mstate) : bool := m_pos st <? m_pos st'.

(** The text between two states of one match. *)
Definition consumed (st st' : mstate) : jsstr :=
  take (m_pos st' - m_pos st) (m_rest st).

(** Iterations of a repetition: an iteration that consumes nothing fails, so
    the number of units left bounds their number. *)
Fixpoint repeat_run (greedy : bool) (body : mstate → list mstate)
    (fuel : nat) (st : mstate) : list mstate :=
  let more := match fuel with
    | 0 => []
    | S k => filter (λ st', Is_true (progressed st st')) (body st)
               ≫= repeat_run greedy body k
    end in
  if greedy then more ++ [st] else st :: more.

Fixpoint run (r : regex) (st : mstate) : list mstate :=
  match r with
  | REmpty => [st]
  | RSet p =>
      match m_rest st with
      | c :: _ => if p c then [advance 1 st] else []
      | [] => []
      end
  | RSeq r1 r2 => run r1 st ≫= run r2
  | RAlt r1 r2 => run r1 st ++ run r2 st
  | ROpt greedy r =>
      let more := filter (λ st', Is_true (progressed st st')) (run r (clear_caps (groups r) st)) in
      if greedy then more ++ [st] else st :: more
  | RStar greedy r =>
      repeat_run greedy (λ st, run r (clear_caps (groups r) st)) (length (m_rest st)) st
  | RGroup n r => (λ st', set_cap n (consumed st st') st') <$> run r st
  | RBack n =>
      match m_caps st !! n with
      | Some s => if prefixb s (m_rest st) then [advance (length s) st] else []
      | None => [st]
      end
  | RBol => if m_pos st =? 0 then [st] else []
  | REol => match m_rest st with [] => [st] | _ => [] end
  | RNot r => match run r st with [] => [st] | _ => [] end
  end.

(** What [exec] returns: the position, the matched text, the captures and the
    text that follows. *)
Record match_result := MatchResult {
  r_index : nat;
  r_text : jsstr;
  r_caps : gmap nat jsstr;
  r_after : jsstr;
}.

(** The attempt at one position. *)
Definition match_at (r : regex) (pos : nat) (rest : jsstr) : option match_result :=
  let st := MState pos rest ∅ in
  st' ← head (run r st);
  Some (MatchResult pos (consumed st st') (m_caps st') (m_rest st')).

(** The search from [pos] on: the leftmost position with a match. *)
Fixpoint search_from (r : regex) (pos : nat) (rest : jsstr) : option match_result :=
  match match_at r pos rest with
  | Some m => Some m
  | None =>
      match rest with
      | [] => None
      | _ :: rest' => search_from r (S pos) rest'
      end
  end.

Definition exec (r : regex) (s : jsstr) : option match_result := search_from r 0 s.
Definition test (r : regex) (s : jsstr) : bool :=
  match exec r s with Some _ => true | None => false end.

(** A capture of a result; an unset capture reads as [undefined], [None]. *)
Definition capture (m : match_result) (n : nat) : option jsstr := r_caps m !! n.
Definition capture_str (m : match_result) (n : nat) : jsstr := default [] (capture m n).

(** [s.replace(r, f)] for a pattern without the global flag. *)
Definition replace_first (r : regex) (f : match_result → jsstr) (s : jsstr) : jsstr :=
  match exec r s with
  | Some m => take (r_index m) s ++ f m ++ r_after m
  | None => s
  end.

(** The matches that a global replacement finds and the text between them: after
    an empty match the search resumes one unit further.  Each round moves the
    position, so the length of the string bounds the number of rounds. *)
Inductive piece : Type :=
  | Between (s : jsstr)
  | Hit (m : match_result).
Fixpoint pieces_loop (r : regex) (fuel pos : nat) (rest : jsstr) : list piece :=
  match fuel with
  | 0 => [Between rest]
  | S k =>
      match search_from r pos rest with
      | None => [Between rest]
      | Some m =>
          Between (take (r_index m - pos) rest) :: Hit m ::
          match r_text m with
          | [] =>
              match r_after m with
              | [] => []
              | c :: after => Between [c] :: pieces_loop r k (S (r_index m)) after
              end
          | t => pieces_loop r k (r_index m + length t) (r_after m)
          end
      end
  end.
Definition pieces (r : regex) (s : jsstr) : list piece := pieces_loop r (S (length s)) 0 s.

(** [s.replace(r, f)] with the global flag, for a function that returns, and for
    one that may throw. *)
Definition replace_all (r : regex) (f : match_result → jsstr) (s : jsstr) : jsstr :=
  pieces r s ≫= λ p, match p with Between t => t | Hit m => f m end.
Fixpoint replace_pieces (f : match_result → outcome jsstr) (ps : list piece) : outcome jsstr :=
  match ps with
  | [] => Ok []
  | Between t :: ps' =>
      match replace_pieces f ps' with Ok u => Ok (t ++ u) | Throw e => Throw e end
  | Hit m :: ps' =>
      match f m with
      | Throw e => Throw e
      | Ok t => match replace_pieces f ps' with Ok u => Ok (t ++ u) | Throw e => Throw e end
      end
  end.
Definition replace_all_throws (r : regex) (f : match_result → outcome jsstr) (s : jsstr)
    : outcome jsstr := replace_pieces f (pieces r s).

(** ** The matcher only moves forward *)

(** [st'] is reached from [st] by consuming [u]. *)
Definition steps_by (u : jsstr) (st st' : mstate) : Prop :=
  m_rest st = u ++ m_rest st' ∧ m_pos st' = m_pos st + length u.

Lemma steps_by_refl st : steps_by [] st st.
Proof. split; [done | simpl; lia]. Qed.

Lemma steps_by_trans u v st1 st2 st3 :
  steps_by u st1 st2 → steps_by v st2 st3 → steps_by (u ++ v) st1 st3.
Proof.
  intros [H1 H2] [H3 H4]. split.
  - rewrite H1, H3. by rewrite (assoc_L (++)).
  - rewrite length_app. lia.
Qed.

Lemma steps_by_advance u st v :
  m_rest st = u ++ v → steps_by u st (advance (length u) st).
Proof. intros H. split; simpl; [|done]. by rewrite H, drop_app_length. Qed.

Lemma steps_by_consumed u st st' : steps_by u st st' → consumed st st' = u.
Proof.
  intros [H1 H2]. unfold consumed. rewrite H1, H2.
  replace (m_pos st + length u - m_pos st) with (length u) by lia.
  apply take_app_length.
Qed.

#[export] Hint Resolve steps_by_refl steps_by_trans steps_by_advance : js.

Lemma repeat_run_0 g body st st' : st' ∈ repeat_run g body 0 st ↔ st' = st.
Proof. simpl. destruct g; apply list_elem_of_singleton. Qed.

Lemma repeat_run_S g body k st st' :
  st' ∈ repeat_run g body (S k) st ↔
  st' = st ∨ ∃ st1, st1 ∈ body st ∧ progressed st st1 = true ∧ st' ∈ repeat_run g body k st1.
Proof.
  simpl. transitivity (st' = st ∨ st' ∈ filter (λ st1, Is_true (progressed st st1)) (body st)
    ≫= repeat_run g body k).
  - destruct g; rewrite ?elem_of_app, ?list_elem_of_singleton, ?elem_of_cons; tauto.
  - rewrite list_elem_of_bind. setoid_rewrite list_elem_of_filter.
    setoid_rewrite Is_true_true. naive_solver.
Qed.

Definition moves_forward (body : mstate → list mstate) : Prop :=
  ∀ st st', st' ∈ body st → ∃ u, steps_by u st st'.

Lemma repeat_run_forward g body k :
  moves_forward body → moves_forward (repeat_run g body k).
Proof.
  intros Hb. induction k as [|k IH]; intros st st'.
  - intros ->%repeat_run_0. eauto with js.
  - intros [->|(st1 & [u Hu]%Hb & _ & [v Hv]%IH)]%repeat_run_S; eauto with js.
Qed.

Lemma run_forward r : moves_forward (run r).
Proof.
  induction r as [p| |r1 IH1 r2 IH2|r1 IH1 r2 IH2|g r IH|g r IH|n r IH|n| | |r IH];
    intros st st' H; simpl in H.
  - destruct (m_rest st) as [|c s] eqn:E; [set_solver|].
    destruct (p c); [|set_solver]. apply list_elem_of_singleton in H as ->.
    exists [c]. apply (steps_by_advance [c] st s). done.
  - apply list_elem_of_singleton in H as ->. eauto with js.
  - apply list_elem_of_bind in H as (st1 & H2 & H1).
    apply IH1 in H1 as [u ?]. apply IH2 in H2 as [v ?]. eauto with js.
  - apply elem_of_app in H as [H|H]; eauto.
  - assert (Hm : ∀ st', st' ∈ run r (clear_caps (groups r) st) → ∃ u, steps_by u st st').
    { intros st1 H1. apply IH in H1 as [u [? ?]]. by exists u. }
    destruct g; rewrite ?elem_of_app, ?elem_of_cons, ?list_elem_of_filter in H;
      destruct H as [H|H]; try (apply Hm; tauto);
      set_solver by eauto with js.
  - apply repeat_run_forward in H; [done|].
    intros st1 st2 H1. apply IH in H1 as [u [? ?]]. by exists u.
  - apply list_elem_of_fmap in H as (st1 & -> & H). apply IH in H as [u [? ?]].
    by exists u.
  - destruct (m_caps st !! n) as [s|] eqn:E.
    + destruct (prefixb s (m_rest st)) eqn:Hp; [|set_solver].
      apply list_elem_of_singleton in H as ->.
      apply prefixb_spec in Hp as [u Hu]. exists s. by eapply steps_by_advance.
    + apply list_elem_of_singleton in H as ->. eauto with js.
  - destruct (m_pos st =? 0); [|set_solver].
    apply list_elem_of_singleton in H as ->. eauto with js.
  - destruct (m_rest st) eqn:E; [|set_solver].
    apply list_elem_of_singleton in H as ->. eauto with js.
  - destruct (run r st); [|set_solver].
    apply list_elem_of_singleton in H as ->. eauto with js.
Qed.

(** ** The states a pattern reaches *)

Lemma run_set p st st' :
  st' ∈ run (RSet p) st ↔ ∃ c s, m_rest st = c :: s ∧ p c = true ∧ st' = advance 1 st.
Proof.
  simpl. destruct (m_rest st) as [|c s]; [rewrite elem_of_nil; naive_solver|].
  destruct (p c) eqn:Hc; rewrite ?list_elem_of_singleton, ?elem_of_nil; split.
  - intros ->. eauto.
  - by intros (? & ? & _ & _ & ->).
  - done.
  - intros (? & ? & [= <- <-] & ? & _). congruence.
Qed.

Lemma run_seq r1 r2 st st' :
  st' ∈ run (RSeq r1 r2) st ↔ ∃ st1, st1 ∈ run r1 st ∧ st' ∈ run r2 st1.
Proof. simpl. rewrite list_elem_of_bind. naive_solver. Qed.

Lemma run_alt r1 r2 st st' : st' ∈ run (RAlt r1 r2) st ↔ st' ∈ run r1 st ∨ st' ∈ run r2 st.
Proof. apply elem_of_app. Qed.

Lemma run_empty st st' : st' ∈ run REmpty st ↔ st' = st.
Proof. apply list_elem_of_singleton. Qed.

Lemma run_not r st st' : st' ∈ run (RNot r) st ↔ run r st = [] ∧ st' = st.
Proof. simpl. destruct (run r st); rewrite ?list_elem_of_singleton, ?elem_of_nil; naive_solver. Qed.

Lemma run_bol st st' : st' ∈ run RBol st ↔ m_pos st = 0 ∧ st' = st.
Proof.
  simpl. destruct (Nat.eqb_spec (m_pos st) 0); rewrite ?list_elem_of_singleton, ?elem_of_nil; naive_solver.
Qed.

Lemma run_eol st st' : st' ∈ run REol st ↔ m_rest st = [] ∧ st' = st.
Proof.
  simpl. destruct (m_rest st); rewrite ?list_elem_of_singleton; [naive_solver|].
  rewrite elem_of_nil. naive_solver.
Qed.

Lemma run_group n r st st' :
  st' ∈ run (RGroup n r) st ↔ ∃ st1, st1 ∈ run r st ∧ st' = set_cap n (consumed st st1) st1.
Proof. simpl. rewrite list_elem_of_fmap. naive_solver. Qed.

Lemma run_alts l st st' : st' ∈ run (alts l) st ↔ ∃ r, r ∈ l ∧ st' ∈ run r st.
Proof.
  induction l as [|r [|r' l] IH].
  - simpl. destruct (m_rest st); set_solver.
  - simpl. set_solver.
  - change (alts (r :: r' :: l)) with (RAlt r (alts (r' :: l))).
    rewrite run_alt, IH. set_solver.
Qed.

Lemma advance_advance a b st : advance b (advance a st) = advance (a + b) st.
Proof. unfold advance. simpl. rewrite drop_drop. f_equal. lia. Qed.

Lemma advance_0 st : advance 0 st = st.
Proof. destruct st. unfold advance. simpl. by rewrite Nat.add_0_r. Qed.

Lemma run_lit_units t st st' :
  st' ∈ run (lit_units t) st ↔ ∃ s, m_rest st = t ++ s ∧ st' = advance (length t) st.
Proof.
  revert st. induction t as [|c t IH]; intros st.
  - simpl. rewrite list_elem_of_singleton, advance_0. naive_solver.
  - destruct t as [|d t].
    + simpl lit_units. rewrite run_set. simpl. split.
      * intros (? & s & E & ->%N.eqb_eq & ->). eauto.
      * intros (s & E & ->). rewrite E. exists c, s. by rewrite N.eqb_refl.
    + change (lit_units (c :: d :: t)) with (RSeq (RSet (N.eqb c)) (lit_units (d :: t))).
      rewrite run_seq. setoid_rewrite run_set. setoid_rewrite IH. split.
      * intros (st1 & (c' & s & E & ->%N.eqb_eq & ->) & s' & E' & ->).
        simpl in E'. rewrite E in E'. simpl in E'. rewrite drop_0 in E'. subst.
        exists s'. by rewrite advance_advance.
      * intros (s & E & ->). exists (advance 1 st). split.
        -- exists c, ((d :: t) ++ s). rewrite N.eqb_refl. by rewrite E.
        -- exists s. simpl. rewrite E. by rewrite advance_advance.
Qed.

Lemma clear_caps_nil st : clear_caps [] st = st.
Proof. by destruct st. Qed.

(** A repeated class reaches the states behind every prefix of units of the
    class. *)
Lemma run_star_set g p st st' :
  st' ∈ run (RStar g (RSet p)) st ↔
  ∃ u s, m_rest st = u ++ s ∧ Forall (λ c, p c = true) u ∧ st' = advance (length u) st.
Proof.
  change (run (RStar g (RSet p)) st) with
    (repeat_run g (λ st, run (RSet p) (clear_caps [] st)) (length (m_rest st)) st).
  remember (length (m_rest st)) as k eqn:Hk. assert (Hlen : length (m_rest st) ≤ k) by lia. clear Hk.
  revert st Hlen. induction k as [|k IH]; intros st Hlen.
  - assert (E : m_rest st = []) by (by apply length_zero_iff_nil; lia).
    rewrite repeat_run_0, E. split.
    + intros ->. exists [], []. by rewrite advance_0.
    + intros (u & s & Eu & _ & ->). symmetry in Eu.
      apply app_eq_nil in Eu as [-> ->]. apply advance_0.
  - rewrite repeat_run_S. rewrite clear_caps_nil. setoid_rewrite run_set. split.
    + intros [->|(st1 & (c & s & E & Hc & ->) & _ & H)].
      * exists [], (m_rest st). by rewrite advance_0.
      * apply IH in H as (u & s' & Eu & Hu & ->).
        -- simpl in Eu. rewrite E in Eu. simpl in Eu. rewrite drop_0 in Eu. subst.
           exists (c :: u), s'. rewrite advance_advance. split; [done|]. by split; [constructor|].
        -- simpl. rewrite E in *. simpl in *. rewrite drop_0. lia.
    + intros ([|c u] & s & E & Hu & ->); [left; apply advance_0|right].
      inversion Hu; subst. exists (advance 1 st). split; [eauto 6|]. split.
      * unfold progressed. simpl. apply Nat.ltb_lt. lia.
      * apply IH.
        -- simpl. rewrite E in *. simpl in *. rewrite drop_0. lia.
        -- exists u, s. simpl. rewrite E. by rewrite advance_advance.
Qed.

(** A pattern of a regular language: from every state it reaches the states behind
    the words of [P], and sets no capture. *)
Definition eats (r : regex) (P : jsstr → Prop) : Prop := ∀ st st',
  st' ∈ run r st ↔ ∃ w s, m_rest st = w ++ s ∧ P w ∧ st' = advance (length w) st.

Lemma eats_iff r P Q : (∀ w, P w ↔ Q w) → eats r P → eats r Q.
Proof. intros HPQ Hr st st'. rewrite (Hr st st'). by setoid_rewrite HPQ. Qed.

Lemma eats_set p : eats (RSet p) (λ w, ∃ c, w = [c] ∧ p c = true).
Proof.
  intros st st'. rewrite run_set. split.
  - intros (c & s & E & Hc & ->). exists [c], s. eauto.
  - intros (w & s & E & (c & -> & Hc) & ->). by exists c, s.
Qed.

Lemma eats_empty : eats REmpty (λ w, w = []).
Proof.
  intros st st'. rewrite run_empty. split.
  - intros ->. exists [], (m_rest st). by rewrite advance_0.
  - intros (w & s & _ & -> & ->). apply advance_0.
Qed.

Lemma eats_lit t : eats (lit_units t) (λ w, w = t).
Proof.
  intros st st'. rewrite run_lit_units. split.
  - intros (s & E & ->). by exists t, s.
  - intros (w & s & E & -> & ->). eauto.
Qed.

Lemma eats_star g p : eats (RStar g (RSet p)) (Forall (λ c, p c = true)).
Proof. intros st st'. apply run_star_set. Qed.

Lemma eats_alt r1 r2 P1 P2 : eats r1 P1 → eats r2 P2 → eats (RAlt r1 r2) (λ w, P1 w ∨ P2 w).
Proof. intros H1 H2 st st'. rewrite run_alt, (H1 st st'), (H2 st st'). naive_solver. Qed.

Lemma advance_app u r p caps :
  advance (length u) (MState p (u ++ r) caps) = MState (p + length u) r caps.
Proof. unfold advance. simpl. by rewrite drop_app_length. Qed.

Lemma eats_seq r1 r2 P1 P2 :
  eats r1 P1 → eats r2 P2 → eats (RSeq r1 r2) (λ w, ∃ u v, w = u ++ v ∧ P1 u ∧ P2 v).
Proof.
  intros H1 H2 [p s caps] st'. rewrite run_seq. setoid_rewrite (H1 (MState p s caps)).
  setoid_rewrite (λ st1, H2 st1 st'). cbn [m_rest]. split.
  - intros (? & (u & s1 & -> & Hu & ->) & v & s2 & E & Hv & ->). rewrite advance_app in *.
    simpl in E. subst s1. exists (u ++ v), s2. rewrite <- (assoc_L (++)). split; [done|].
    split; [by exists u, v|]. rewrite (assoc_L (++)), !advance_app, length_app. f_equal. lia.
  - intros (w & s' & -> & (u & v & -> & Hu & Hv) & ->). eexists. split.
    + exists u, (v ++ s'). rewrite <- (assoc_L (++)). by repeat split.
    + exists v, s'. rewrite <- (assoc_L (++)), advance_app. simpl. split; [done|]. split; [done|].
      rewrite (assoc_L (++)), !advance_app, length_app. f_equal. lia.
Qed.

Lemma run_opt_mono g r st st' :
  st' ∈ run (ROpt g r) st ↔
  st' = st ∨ (progressed st st' = true ∧ st' ∈ run r (clear_caps (groups r) st)).
Proof.
  simpl. destruct g; rewrite ?elem_of_app, ?list_elem_of_singleton, ?elem_of_cons,
    list_elem_of_filter, Is_true_true; tauto.
Qed.

(** A pattern without groups leaves the captures alone. *)
Lemma repeat_run_caps g body k :
  (∀ st st', st' ∈ body st → m_caps st' = m_caps st) →
  ∀ st st', st' ∈ repeat_run g body k st → m_caps st' = m_caps st.
Proof.
  intros Hb. induction k as [|k IH]; intros st st'.
  - by intros ->%repeat_run_0.
  - intros [->|(st1 & H1 & _ & H2)]%repeat_run_S; [done|].
    rewrite (IH _ _ H2). by apply Hb.
Qed.

Lemma run_caps r st st' : groups r = [] → st' ∈ run r st → m_caps st' = m_caps st.
Proof.
  revert st st'. induction r as [p| |r1 IH1 r2 IH2|r1 IH1 r2 IH2|g r IH|g r IH|n r IH|n| | |r IH];
    intros st st' Hg H; simpl in Hg; try (apply app_eq_nil in Hg as [Hg1 Hg2]).
  - apply run_set in H as (? & ? & _ & _ & ->). done.
  - apply run_empty in H as ->. done.
  - apply run_seq in H as (st1 & H1 & H2). rewrite (IH2 st1 st'), (IH1 st st1); done.
  - apply run_alt in H as [H|H]; eauto.
  - apply run_opt_mono in H as [->|[_ H]]; [done|]. rewrite Hg, clear_caps_nil in H. eauto.
  - simpl in H. rewrite Hg in H. revert H. apply repeat_run_caps.
    intros st1 st2. rewrite clear_caps_nil. by apply IH.
  - done.
  - simpl in H. destruct (m_caps st !! n); [|set_solver].
    destruct (prefixb _ _); [|set_solver]. apply list_elem_of_singleton in H as ->. done.
  - by apply run_bol in H as [_ ->].
  - by apply run_eol in H as [_ ->].
  - by apply run_not in H as [_ ->].
Qed.

(** Patterns that match no empty text. *)
Fixpoint consuming (r : regex) : bool :=
  match r with
  | RSet _ => true
  | RSeq r1 r2 => consuming r1 || consuming r2
  | RAlt r1 r2 => consuming r1 && consuming r2
  | RGroup _ r => consuming r
  | _ => false
  end.
Lemma consuming_progress r st st' : consuming r = true → st' ∈ run r st → m_pos st < m_pos st'.
Proof.
  revert st st'. induction r as [p| |r1 IH1 r2 IH2|r1 IH1 r2 IH2|g r IH|g r IH|n r IH|n| | |r IH];
    intros st st' Hc Hin; try done; cbn [consuming] in Hc.
  - apply run_set in Hin as (c & s & _ & _ & ->). simpl. lia.
  - apply run_seq in Hin as (st1 & H1 & H2).
    pose proof (run_forward _ _ _ H1) as [u [_ Hu]]. pose proof (run_forward _ _ _ H2) as [v [_ Hv]].
    apply orb_true_iff in Hc as [Hc|Hc]; [specialize (IH1 _ _ Hc H1)|specialize (IH2 _ _ Hc H2)]; lia.
  - apply andb_true_iff in Hc as [Hc1 Hc2]. apply run_alt in Hin as [Hin|Hin]; eauto.
  - apply run_group in Hin as (st1 & Hin & ->). exact (IH _ _ Hc Hin).
Qed.

(** Captures are no longer than what was matched from the position [p] on. *)
Definition caps_within (p : nat) (st : mstate) : Prop :=
  p ≤ m_pos st ∧ ∀ n s, m_caps st !! n = Some s → length s ≤ m_pos st - p.
Lemma caps_within_clear p ns st : caps_within p st → caps_within p (clear_caps ns st).
Proof.
  intros [H1 H2]. split; [done|]. cbn. induction ns as [|n ns IH]; [done|]. cbn. intros k s.
  rewrite lookup_delete_Some. intros [_ Hk]. by eapply IH.
Qed.
Lemma caps_within_later p st st' : m_caps st' = m_caps st → m_pos st ≤ m_pos st' → caps_within p st → caps_within p st'.
Proof. intros Hc Hm [H1 H2]. split; [lia|]. rewrite Hc. intros n s Hs%H2. lia. Qed.
Lemma repeat_run_within p g body k :
  (∀ st st', caps_within p st → st' ∈ body st → caps_within p st') →
  ∀ st st', caps_within p st → st' ∈ repeat_run g body k st → caps_within p st'.
Proof.
  intros Hb. induction k as [|k IH]; intros st st' Hst; [by intros ->%repeat_run_0|].
  intros [->|(st1 & H1 & _ & H2)]%repeat_run_S; [done|]. eapply IH; [|done]. by eapply Hb.
Qed.
Lemma run_within p r st st' : caps_within p st → st' ∈ run r st → caps_within p st'.
Proof.
  revert st st'. induction r as [q| |r1 IH1 r2 IH2|r1 IH1 r2 IH2|g r IH|g r IH|n r IH|n| | |r IH]; intros st st' Hst H;
    pose proof (run_forward _ _ _ H) as [u [_ Hu]].
  - apply run_set in H as (c & s & _ & _ & ->). apply (caps_within_later p st); [done|cbn; lia|done].
  - apply run_empty in H as ->. done.
  - apply run_seq in H as (st1 & H1 & H2). eapply IH2; [|done]. by eapply IH1.
  - apply run_alt in H as [H|H]; [by eapply IH1|by eapply IH2].
  - cbn in H. assert (st' = st ∨ st' ∈ run r (clear_caps (groups r) st)) as [->|H'].
    { destruct g; rewrite ?elem_of_app, ?elem_of_cons, ?list_elem_of_filter, ?elem_of_nil in H; tauto. }
    + done.
    + eapply IH; [|done]. by apply caps_within_clear.
  - cbn in H. eapply repeat_run_within; [|done|done]. intros st1 st2 H1 H2. eapply IH; [|exact H2]. by apply caps_within_clear.
  - apply run_group in H as (st1 & H1 & ->). pose proof (IH _ _ Hst H1) as [Hp Hc]. destruct Hst as [Hp0 _].
    split; [done|]. cbn in *. intros k s. destruct (decide (k = n)) as [->|Hk].
    + rewrite lookup_insert_eq. intros [= <-]. unfold consumed. rewrite length_take. lia.
    + rewrite lookup_insert_ne by done. apply Hc.
  - cbn in H. destruct (m_caps st !! n) as [s|]; [destruct (prefixb s (m_rest st)); [|by apply elem_of_nil in H]|];
      apply list_elem_of_singleton in H as ->; (apply (caps_within_later p st); [done|cbn; lia|done]).
  - apply run_bol in H as [_ ->]. done.
  - apply run_eol in H as [_ ->]. done.
  - apply run_not in H as [_ ->]. done.
Qed.

(** ** What the methods answer *)

Lemma match_at_Some r pos rest m :
  match_at r pos rest = Some m →
  ∃ st', st' ∈ run r (MState pos rest ∅) ∧
    r_index m = pos ∧ r_caps m = m_caps st' ∧ r_after m = m_rest st' ∧
    steps_by (r_text m) (MState pos rest ∅) st'.
Proof.
  unfold match_at. intros (st' & Hh & [= <-])%bind_Some. exists st'. simpl.
  apply head_Some in Hh as [l Hl].
  assert (Hin : st' ∈ run r (MState pos rest ∅)) by (rewrite Hl; set_solver).
  split; [done|]. do 3 (split; [done|]).
  destruct (run_forward _ _ _ Hin) as [u Hu]. by rewrite (steps_by_consumed _ _ _ Hu).
Qed.

Lemma match_at_capture r pos rest m n : match_at r pos rest = Some m → length (capture_str m n) ≤ length (r_text m).
Proof.
  intros (st' & Hin & _ & Hc & _ & [_ Hu])%match_at_Some. unfold capture_str, capture. rewrite Hc.
  apply (run_within pos) in Hin as [_ Hw].
  - destruct (m_caps st' !! n) as [s|] eqn:E; [|cbn; lia]. apply Hw in E. cbn in *. lia.
  - split; [done|]. intros k s Hk. by cbn in Hk; rewrite lookup_empty in Hk.
Qed.

Lemma match_at_None r pos rest : match_at r pos rest = None ↔ run r (MState pos rest ∅) = [].
Proof. unfold match_at. destruct (run r (MState pos rest ∅)); simpl; split; done. Qed.

Lemma search_from_Some r pos rest m :
  search_from r pos rest = Some m →
  ∃ k, k ≤ length rest ∧ match_at r (pos + k) (drop k rest) = Some m ∧
    ∀ j, j < k → match_at r (pos + j) (drop j rest) = None.
Proof.
  revert pos. induction rest as [|c rest IH]; intros pos; simpl;
    destruct (match_at r pos _) as [m'|] eqn:E; try done.
  - intros [= ->]. exists 0. rewrite Nat.add_0_r, drop_0. split; [lia|]. split; [done|lia].
  - intros [= ->]. exists 0. rewrite Nat.add_0_r, drop_0. split; [lia|]. split; [done|lia].
  - intros (k & Hk & Hm & Hn)%IH. exists (S k). split; [lia|].
    replace (pos + S k) with (S pos + k) by lia. split; [done|].
    intros [|j] Hj.
    + by rewrite Nat.add_0_r, drop_0.
    + replace (pos + S j) with (S pos + j) by lia. apply Hn. lia.
Qed.

Lemma search_from_None r pos rest :
  search_from r pos rest = None ↔
  ∀ k, k ≤ length rest → run r (MState (pos + k) (drop k rest) ∅) = [].
Proof.
  revert pos. induction rest as [|c rest IH]; intros pos; simpl.
  - destruct (match_at r pos []) eqn:E; split; try done.
    + intros H. specialize (H 0). rewrite Nat.add_0_r in H.
      rewrite (proj2 (match_at_None r pos [])) in E; [done|]. apply H. lia.
    + intros _ k Hk. replace k with 0 by lia. rewrite Nat.add_0_r. by apply match_at_None.
  - destruct (match_at r pos (c :: rest)) eqn:E.
    + split; [done|]. intros H. specialize (H 0). rewrite Nat.add_0_r, drop_0 in H.
      rewrite (proj2 (match_at_None r pos (c :: rest))) in E; [done|]. apply H. lia.
    + rewrite IH. split.
      * intros H [|k] Hk; [rewrite Nat.add_0_r; by apply match_at_None|].
        replace (pos + S k) with (S pos + k) by lia. apply H. lia.
      * intros H k Hk. replace (S pos + k) with (pos + S k) by lia. apply (H (S k)). lia.
Qed.

Lemma exec_Some r s m :
  exec r s = Some m →
  ∃ st', st' ∈ run r (MState (r_index m) (drop (r_index m) s) ∅) ∧
    r_index m ≤ length s ∧ r_caps m = m_caps st' ∧ r_after m = m_rest st' ∧
    s = take (r_index m) s ++ r_text m ++ r_after m.
Proof.
  intros (k & Hk & (st' & Hin & Hi & Hc & Ha & [Hu _])%match_at_Some & _)%search_from_Some.
  simpl in *. rewrite Hi. exists st'. do 4 (split; [done|]).
  rewrite Ha, <- Hu. by rewrite take_drop.
Qed.

Lemma test_spec r s :
  test r s = true ↔ ∃ k st', k ≤ length s ∧ st' ∈ run r (MState k (drop k s) ∅).
Proof.
  unfold test, exec. destruct (search_from r 0 s) as [m|] eqn:E; split; try done.
  - intros _. apply exec_Some in E as (st' & ? & ? & _). eauto.
  - intros (k & st' & Hk & Hin). rewrite search_from_None in E.
    specialize (E k Hk). simpl in E. rewrite E in Hin. set_solver.
Qed.

Lemma test_exec r s : test r s = true ↔ is_Some (exec r s).
Proof. unfold test. destruct (exec r s); split; try done. Qed.

(** An anchored pattern is decided at position 0. *)
Lemma test_bol_spec r s :
  test (RSeq RBol r) s = true ↔ ∃ st', st' ∈ run r (MState 0 s ∅).
Proof.
  rewrite test_spec. split.
  - intros (k & st' & Hk & (st1 & [Hp ->]%run_bol & H)%run_seq). simpl in Hp. subst k.
    rewrite drop_0 in H. eauto.
  - intros [st' H]. exists 0, st'. split; [lia|]. rewrite drop_0. apply run_seq.
    eexists. by rewrite run_bol.
Qed.

Lemma exec_bol_Some r s m :
  exec (RSeq RBol r) s = Some m →
  ∃ st', st' ∈ run r (MState 0 s ∅) ∧ r_index m = 0 ∧
    r_caps m = m_caps st' ∧ r_after m = m_rest st' ∧ s = r_text m ++ r_after m.
Proof.
  intros (st' & (st1 & [Hp ->]%run_bol & H)%run_seq & _ & Hc & Ha & Hs)%exec_Some.
  simpl in Hp. rewrite Hp in *. rewrite drop_0 in H. rewrite take_0 in Hs. eauto 6.
Qed.

Lemma exec_bol_consuming r s m :
  consuming r = true → exec (RSeq RBol r) s = Some m → r_text m ≠ [].
Proof.
  intros Hc (k & Hk & (st' & Hin & _ & _ & _ & [_ Hu])%match_at_Some & _)%search_from_Some Ht.
  apply run_seq in Hin as (st1 & [_ ->]%run_bol & Hin). apply consuming_progress in Hin; [|done].
  rewrite Ht in Hu. simpl in *. lia.
Qed.

(** An anchored pattern that fails at position 0 fails. *)
Lemma exec_bol_None r s : run r (MState 0 s ∅) = [] → exec (RSeq RBol r) s = None.
Proof.
  intros Hr. apply search_from_None. intros k _. destruct k as [|k]; [|done].
  change (run r (MState 0 s ∅) ++ [] = []). by rewrite Hr.
Qed.

Lemma head_bind {A B} (P : B → Prop) (l : list A) (f : A → list B) y :
  (∀ x y, x ∈ l → head (f x) = Some y → P y) → head (l ≫= f) = Some y → P y.
Proof.
  induction l as [|x l IH]; intros Hf Hy; [done|]. cbn [mbind list_bind] in Hy.
  destruct (f x) as [|z zs] eqn:Ex.
  - apply IH; [|done]. intros x' y' Hx. apply Hf. by right.
  - apply (Hf x); [by left|]. by rewrite Ex.
Qed.

(** A greedy class goes as far as it can. *)
Lemma star_set_greedy p st :
  ∃ st' u, head (run (star (RSet p)) st) = Some st' ∧ steps_by u st st' ∧ Forall (λ c, p c = true) u ∧
    match m_rest st' with c :: _ => p c = false | [] => True end.
Proof.
  change (run (star (RSet p)) st) with
    (repeat_run true (λ st, run (RSet p) (clear_caps [] st)) (length (m_rest st)) st).
  remember (length (m_rest st)) as k eqn:Hk. assert (Hlen : length (m_rest st) ≤ k) by lia. clear Hk.
  revert st Hlen. induction k as [|k IH]; intros st Hlen.
  { exists st, []. cbn. split_and!; [done|apply steps_by_refl|done|]. by destruct (m_rest st); [|simpl in Hlen; lia]. }
  cbn [repeat_run]. rewrite clear_caps_nil. cbn [run]. destruct (m_rest st) as [|c s] eqn:E.
  { exists st, []. split_and!; [done|apply steps_by_refl|done|]. by rewrite E. }
  destruct (p c) eqn:Ec.
  2:{ exists st, []. split_and!; [done|apply steps_by_refl|done|]. by rewrite E. }
  rewrite filter_cons, decide_True by (apply Is_true_true, Nat.ltb_lt; simpl; lia).
  cbn [filter list_filter mbind list_bind app]. rewrite app_nil_r.
  destruct (IH (advance 1 st)) as (st' & u & Hh & Hs & Hu & Hr).
  { simpl. rewrite E. simpl in *. rewrite drop_0. lia. }
  exists st', (c :: u). split_and!; [|  |by constructor|done].
  - destruct (repeat_run _ _ k _); [done|]. done.
  - apply (steps_by_trans [c] u _ (advance 1 st)); [|done]. by apply (steps_by_advance [c] st s).
Qed.

Lemma replace_first_miss r f s : test r s = false → replace_first r f s = s.
Proof. unfold test, replace_first. by destruct (exec r s). Qed.

(** The pieces of a string make the string; every hit is a match. *)
Definition piece_text (p : piece) : jsstr :=
  match p with Between t => t | Hit m => r_text m end.

Lemma pieces_loop_spec r fuel pos rest :
  pieces_loop r fuel pos rest ≫= piece_text = rest ∧
  ∀ m, Hit m ∈ pieces_loop r fuel pos rest → ∃ pos' rest', match_at r pos' rest' = Some m.
Proof.
  revert pos rest. induction fuel as [|k IH]; intros pos rest; simpl.
  { rewrite app_nil_r. split; [done|]. by intros m [=]%list_elem_of_singleton. }
  destruct (search_from r pos rest) as [m|] eqn:E.
  2: { simpl. rewrite app_nil_r. split; [done|]. by intros m [=]%list_elem_of_singleton. }
  apply search_from_Some in E as (j & Hj & Hm & _).
  pose proof (match_at_Some _ _ _ _ Hm) as (st' & _ & Hi & _ & Ha & [Ht _]).
  simpl in Ht. rewrite <- Ha in Ht.
  rewrite !bind_cons. simpl piece_text. rewrite Hi.
  replace (pos + j - pos) with j by lia.
  assert (Hrest : take j rest ++ r_text m ++ r_after m = rest) by (by rewrite <- Ht, take_drop).
  destruct (r_text m) as [|c t] eqn:Et.
  - destruct (r_after m) as [|c after] eqn:Ea.
    + split; [by rewrite <- Hrest at 2; rewrite !app_nil_r|].
      intros m'. rewrite !elem_of_cons, elem_of_nil. intros [?|[[= ->]|[]]]; [done|eauto].
    + destruct (IH (S (pos + j)) after) as [IH1 IH2]. split.
      * rewrite bind_cons. simpl piece_text. rewrite IH1. by rewrite <- Hrest at 2.
      * intros m'. rewrite !elem_of_cons. intros [?|[[= ->]|[?|Hin]]]; [done|eauto|done|by apply IH2].
  - destruct (IH (pos + j + S (length t)) (r_after m)) as [IH1 IH2]. split.
    + rewrite IH1. by rewrite <- Hrest at 2.
    + intros m'. rewrite !elem_of_cons. intros [?|[[= ->]|Hin]]; [done|eauto|by apply IH2].
Qed.

Lemma pieces_text r s : pieces r s ≫= piece_text = s.
Proof. apply pieces_loop_spec. Qed.
Lemma pieces_hit r s m : Hit m ∈ pieces r s → ∃ pos rest, match_at r pos rest = Some m.
Proof. apply pieces_loop_spec. Qed.

Lemma replace_all_shorter r f s :
  (∀ pos rest m, match_at r pos rest = Some m → length (f m) ≤ length (r_text m)) → length (replace_all r f s) ≤ length s.
Proof.
  intros Hf. rewrite <- (pieces_text r s) at 2. unfold replace_all. pose proof (pieces_hit r s) as Hh.
  induction (pieces r s) as [|p ps IH]; [done|]. rewrite !bind_cons, !length_app.
  assert (IH' : length (ps ≫= λ p, match p with Between t => t | Hit m => f m end) ≤ length (ps ≫= piece_text)).
  { apply IH. intros m Hm. apply Hh. by right. }
  destruct p as [t|m]; cbn [piece_text]; [lia|]. destruct (Hh m) as (pos & rest & Hm); [by left|].
  specialize (Hf _ _ _ Hm). lia.
Qed.

Lemma replace_all_miss r f s : test r s = false → replace_all r f s = s.
Proof.
  unfold test, exec, replace_all, pieces. simpl.
  destruct (search_from r 0 s); [done|]. intros _. simpl. by rewrite app_nil_r.
Qed.

(** ** Priorities of a lazy repetition

    The states of a lazily repeated class come in the order of their
    positions, so the first one whose continuation succeeds is the nearest. *)

Definition pos_lt (st1 st2 : mstate) : Prop := m_pos st1 < m_pos st2.

Lemma lazy_star_sorted p st : StronglySorted pos_lt (run (RStar false (RSet p)) st).
Proof.
  change (run (RStar false (RSet p)) st) with
    (repeat_run false (λ st, run (RSet p) (clear_caps [] st)) (length (m_rest st)) st).
  generalize (length (m_rest st)). intros k. revert st.
  induction k as [|k IH]; intros st; [by repeat constructor|].
  cbn [repeat_run]. rewrite clear_caps_nil.
  assert (Hgt : Forall (pos_lt st) (filter (λ st', Is_true (progressed st st')) (run (RSet p) st)
    ≫= repeat_run false (λ st, run (RSet p) (clear_caps [] st)) k)).
  { apply Forall_forall. intros st2 (st1 & H2 & [H1 _]%list_elem_of_filter)%list_elem_of_bind.
    apply Is_true_true, Nat.ltb_lt in H1. apply repeat_run_forward in H2 as [u [_ Hu]].
    - unfold pos_lt. lia.
    - intros st3 st4 H3. apply run_forward in H3 as [v [? ?]]. by exists v. }
  constructor; [|done]. simpl. destruct (m_rest st) as [|c s]; [constructor|].
  destruct (p c); [|constructor].
  rewrite filter_cons. case_decide; [|constructor]. simpl. rewrite app_nil_r. apply IH.
Qed.

Lemma head_bind_sorted {A B} (R : A → A → Prop) (l : list A) (f : A → list B) x :
  StronglySorted R l → head (l ≫= f) = Some x →
  ∃ y, y ∈ l ∧ head (f y) = Some x ∧ ∀ z, z ∈ l → f z ≠ [] → z = y ∨ R y z.
Proof.
  induction 1 as [|y l Hl IH Hy]; simpl; [done|]. destruct (f y) as [|b bs] eqn:E; simpl.
  - intros (y' & Hin & Hh & Hz)%IH. exists y'. split; [by right|]. split; [done|].
    intros z [->|Hzin]%elem_of_cons Hne; [done|]. by apply Hz.
  - intros [= ->]. exists y. split; [by left|]. rewrite E. split; [done|].
    intros z [->|Hzin]%elem_of_cons _; [by left|right]. by eapply Forall_forall in Hzin.
Qed.
