(* ===== verification/JsNum.v ===== *)
(** * Numbers and strict equality of JavaScript

    The sources compute with integers (indices, scores, votes, delays), the two
    infinities, and [NaN]; an integer-valued double is an integer here, and the
    negative zero is a value of its own because [isEqual] tells it apart.
    [StrictEq] is [===]: symmetric and transitive, but not reflexive on [NaN]. *)

From stdpp Require Import base tactics list numbers sets gmap.
From Stdlib Require Import ZArith Lia.
From S2P Require Import Prelude.
From S2P Require Import JsString.

Inductive num : Type :=
  | NaN
  | PInf
  | NInf
  | NegZero
  | Int (z : Z).

#[export] Instance num_eq_dec : EqDecision num.
Proof. solve_decision. Defined.

(** The finite value of a number. *)
Definition num_fin (n : num) : option Z :=
  match n with
  | Int z => Some z
  | NegZero => Some 0%Z
  | _ => None
  end.

(** [a === b]. *)
Definition num_seq (a b : num) : bool :=
  match a, b with
  | NaN, _ | _, NaN => false
  | PInf, PInf | NInf, NInf => true
  | _, _ =>
      match num_fin a, num_fin b with
      | Some x, Some y => Z.eqb x y
      | _, _ => false
      end
  end.

(** [a < b]; every comparison with [NaN] is false. *)
Definition num_lt (a b : num) : bool :=
  match a, b with
  | NaN, _ | _, NaN => false
  | NInf, NInf => false
  | NInf, _ => true
  | _, NInf => false
  | PInf, _ => false
  | _, PInf => true
  | _, _ =>
      match num_fin a, num_fin b with
      | Some x, Some y => Z.ltb x y
      | _, _ => false
      end
  end.
Definition num_gt (a b : num) : bool := num_lt b a.

(** [===] on the elements of a collection. *)
Class StrictEq (A : Type) := seq_eq : A → A → bool.
Infix "===" := seq_eq (at level 70, no associativity) : js_scope.

Class StrictEqLaws (A : Type) `{StrictEq A} := {
  seq_sym : ∀ a b : A, seq_eq a b = seq_eq b a;
  seq_trans : ∀ a b c : A, seq_eq a b = true → seq_eq b c = true → seq_eq a c = true;
}.

#[export] Instance num_StrictEq : StrictEq num := num_seq.
#[export] Instance str_StrictEq : StrictEq jsstr := str_eqb.
#[export] Instance nat_StrictEq : StrictEq nat := Nat.eqb.

Arguments Z.eqb : simpl never.
Arguments Z.ltb : simpl never.

#[export] Instance num_StrictEqLaws : StrictEqLaws num.
Proof.
  split; unfold seq_eq, num_StrictEq.
  - intros [] []; simpl; try done; apply Z.eqb_sym.
  - intros [] [] []; simpl; try done; rewrite ?Z.eqb_eq; lia.
Qed.
#[export] Instance str_StrictEqLaws : StrictEqLaws jsstr.
Proof.
  split; unfold seq_eq, str_StrictEq, str_eqb.
  - intros a b. by apply bool_decide_ext.
  - intros a b c. rewrite !bool_decide_eq_true. congruence.
Qed.
#[export] Instance nat_StrictEqLaws : StrictEqLaws nat.
Proof.
  split; unfold seq_eq, nat_StrictEq.
  - intros. apply Nat.eqb_sym.
  - intros a b c. rewrite !Nat.eqb_eq. congruence.
Qed.

Lemma str_seq_spec (a b : jsstr) : seq_eq a b = true ↔ a = b.
Proof. unfold seq_eq, str_StrictEq, str_eqb. apply bool_decide_eq_true. Qed.

Section strict_eq.
Context {A : Type} `{StrictEqLaws A}.

Lemma seq_refl_l (a b : A) : seq_eq a b = true → seq_eq a a = true.
Proof. intros Hab. apply (seq_trans a b a); [done|]. by rewrite seq_sym. Qed.

(** Values that are strictly equal are equal to the same values. *)
Lemma seq_congr (a b c : A) : seq_eq a b = true → seq_eq a c = seq_eq b c.
Proof.
  intros Hab. destruct (seq_eq b c) eqn:E; [by apply (seq_trans a b c)|].
  destruct (seq_eq a c) eqn:E'; [|done]. rewrite <- E. symmetry.
  apply (seq_trans b a c); [by rewrite seq_sym|done].
Qed.
End strict_eq.

(** [<] on numbers is a strict order, total up to [===] on comparable numbers. *)
Lemma num_lt_irrefl a : num_lt a a = false.
Proof. destruct a; simpl; try done. apply Z.ltb_irrefl. Qed.

Lemma num_lt_trans a b c : num_lt a b = true → num_lt b c = true → num_lt a c = true.
Proof. destruct a, b, c; simpl; try done; rewrite ?Z.ltb_lt; lia. Qed.

Lemma num_lt_total a b :
  a ≠ NaN → b ≠ NaN → num_lt a b = false → num_lt b a = false → num_seq a b = true.
Proof. destruct a, b; simpl; try done; rewrite ?Z.ltb_ge, ?Z.eqb_eq; lia. Qed.

Lemma num_lt_asym a b : num_lt a b = true → num_lt b a = false.
Proof.
  intros H. destruct (num_lt b a) eqn:E; [|done].
  pose proof (num_lt_trans _ _ _ H E) as H'. by rewrite num_lt_irrefl in H'.
Qed.

Lemma num_le_trans a b c :
  b ≠ NaN → num_lt b a = false → num_lt c b = false → a ≠ NaN → c ≠ NaN → num_lt c a = false.
Proof.
  destruct a, b, c; simpl; try done; rewrite ?Z.ltb_ge; lia.
Qed.

#[export] Hint Resolve num_lt_irrefl num_lt_asym : js.
