(* ===== verification/Binary64.v ===== *)
(** * The arithmetic of numbers

    The numbers of the language are binary64: every sum, difference, product and quotient
    is the exact result rounded to the nearest number with 53 significant bits, ties to
    the even one, and no finer than [2 ^ -1074].  [round64] is that rounding on rational
    numbers, [fadd], [fsub], [fmul] and [fdiv] the operations.  What is above [2 ^ 1024]
    is a number here too (the language has an infinity), and the two zeros are one. *)

From stdpp Require Import base tactics numbers.
From Stdlib Require Import ZArith QArith Qround Qpower Lqa Lia.
From S2P Require Import Prelude.

Local Open Scope Q_scope.

Module Binary64.

(** The nearest integer, the even one of two. *)
Definition nearest (q : Q) : Z :=
  let f := Qfloor q in
  match (q - inject_Z f ?= 1 # 2)%Q with
  | Lt => f
  | Gt => f + 1
  | Eq => if Z.even f then f else f + 1
  end%Z.
(** The exponent of a positive number: [2 ^ e <= q < 2 ^ (e + 1)]. *)
Definition exponent (q : Q) : Z :=
  let e := (Z.log2 (Qnum q) - Z.log2 (Zpos (Qden q)))%Z in
  if Qle_bool (2 ^ e) q then e else (e - 1)%Z.
(** The exponent of the last bit that is kept. *)
Definition last_bit (q : Q) : Z := Z.max (exponent q - 52) (-1074).
Definition round_positive (q : Q) : Q := inject_Z (nearest (q / 2 ^ last_bit q)) * 2 ^ last_bit q.
Definition round64 (q : Q) : Q :=
  Qred match (q ?= 0)%Q with
       | Eq => 0
       | Gt => round_positive q
       | Lt => - round_positive (- q)
       end.
(** The numbers of the language. *)
Definition number64 (q : Q) : Prop := round64 q == q.

Definition fadd (x y : Q) : Q := round64 (x + y).
Definition fsub (x y : Q) : Q := round64 (x - y).
Definition fmul (x y : Q) : Q := round64 (x * y).
Definition fdiv (x y : Q) : Q := round64 (x / y).
End Binary64.

Module Binary64Facts.
Import Binary64.

Lemma pow2_pos e : 0 < 2 ^ e.
Proof. by apply Qpower_0_lt. Qed.
Lemma pow2_plus a b : 2 ^ (a + b) == 2 ^ a * 2 ^ b.
Proof. by apply Qpower_plus. Qed.
Lemma pow2_le a b : (a <= b)%Z → 2 ^ a <= 2 ^ b.
Proof. intros H. by apply Qpower_le_compat_l. Qed.
Lemma pow2_int n : (0 <= n)%Z → 2 ^ n == inject_Z (2 ^ n).
Proof. intros H. by rewrite Zpower_Qpower. Qed.

(** ** The nearest integer *)

Lemma nearest_bounds q : (Qfloor q <= nearest q <= Qfloor q + 1)%Z.
Proof. unfold nearest. destruct (_ ?= _); [destruct (Z.even _)| |]; lia. Qed.
Lemma nearest_int z q : q == inject_Z z → nearest q = z.
Proof.
  intros H. unfold nearest. assert (Qfloor q = z) as -> by (rewrite H; apply Qfloor_Z).
  assert ((q - inject_Z z ?= 1 # 2) = Lt) as ->; [|done]. apply (proj1 (Qlt_alt _ _)). rewrite H. lra.
Qed.
Lemma nearest_mono p q : p <= q → (nearest p <= nearest q)%Z.
Proof.
  intros H. pose proof (Qfloor_resp_le _ _ H) as Hf.
  destruct (decide (Qfloor p = Qfloor q)) as [E|]; [|pose proof (nearest_bounds p); pose proof (nearest_bounds q); lia].
  unfold nearest. rewrite E.
  destruct (Qcompare_spec (p - inject_Z (Qfloor q)) (1 # 2)), (Qcompare_spec (q - inject_Z (Qfloor q)) (1 # 2));
    try (destruct (Z.even _)); try lia; exfalso; lra.
Qed.
#[export] Instance nearest_proper : Proper (Qeq ==> eq) nearest.
Proof. intros p q H. apply Z.le_antisymm; apply nearest_mono; rewrite H; apply Qle_refl. Qed.

(** ** The exponent *)

Lemma exponent_spec q : 0 < q → 2 ^ exponent q <= q < 2 ^ (exponent q + 1).
Proof.
  intros Hq. destruct q as [n d]. unfold exponent. cbn [Qnum Qden].
  assert (0 < n)%Z as Hn by (unfold Qlt in Hq; cbn in Hq; lia).
  pose proof (Z.log2_spec n Hn) as [Hn1 Hn2]. pose proof (Z.log2_spec (Zpos d) eq_refl) as [Hd1 Hd2].
  pose proof (Z.log2_nonneg n) as Pn. pose proof (Z.log2_nonneg (Zpos d)) as Pd.
  set (a := Z.log2 n) in *. set (b := Z.log2 (Zpos d)) in *.
  assert (Hval : (n # d) == inject_Z n * / inject_Z (Zpos d)) by (rewrite (Qmake_Qdiv n d); reflexivity).
  rewrite Zle_Qle, <- pow2_int in Hn1, Hd1 by lia. rewrite Zlt_Qlt, <- pow2_int in Hn2, Hd2 by lia.
  assert (Hdp : 0 < inject_Z (Zpos d)) by done.
  assert (Hx : inject_Z n == (n # d) * inject_Z (Zpos d)) by (rewrite Hval; field; lra).
  set (x := n # d) in *. set (D := inject_Z (Zpos d)) in *.
  assert (Hb : 2 ^ (a - b) * 2 ^ b == 2 ^ a) by (rewrite <- pow2_plus; by replace (a - b + b)%Z with a by lia).
  assert (Hb1 : ∀ e, 2 ^ Z.succ e == 2 * 2 ^ e) by (intros e; unfold Z.succ; rewrite pow2_plus; change (2 ^ 1) with 2; ring).
  rewrite Hb1 in Hn2, Hd2. pose proof (pow2_pos b) as Pb. pose proof (pow2_pos (a - b)) as Pab.
  assert (Hup : x < 2 * 2 ^ (a - b)).
  { apply (Qmult_lt_r _ _ D); [done|]. rewrite <- Hx.
    apply Qlt_le_trans with (2 * 2 ^ a); [done|]. rewrite <- Hb. nra. }
  assert (Hlow : 2 ^ (a - b - 1) <= x).
  { apply (Qmult_le_r _ _ D); [done|]. rewrite <- Hx.
    assert (2 ^ (a - b) == 2 * 2 ^ (a - b - 1)) as E by (rewrite <- Hb1; unfold Z.succ; by replace (a - b - 1 + 1)%Z with (a - b)%Z by lia).
    apply Qle_trans with (2 ^ a); [|done]. rewrite <- Hb, E. pose proof (pow2_pos (a - b - 1)). nra. }
  destruct (Qle_bool _ _) eqn:E.
  - apply Qle_bool_iff in E. split; [done|]. change (a - b + 1)%Z with (Z.succ (a - b)). by rewrite Hb1.
  - split; [done|]. replace (a - b - 1 + 1)%Z with (a - b)%Z by lia.
    apply Qnot_le_lt. intros H. by apply Qle_bool_iff in H; rewrite H in E.
Qed.
Lemma exponent_mono p q : 0 < p → p <= q → (exponent p <= exponent q)%Z.
Proof.
  intros Hp H. destruct (exponent_spec p Hp) as [H1 _]. destruct (exponent_spec q ltac:(lra)) as [_ H2].
  destruct (decide (exponent p <= exponent q)%Z) as [|Hn]; [done|].
  pose proof (pow2_le (exponent q + 1) (exponent p) ltac:(lia)). lra.
Qed.

(** ** The rounding *)

(** A multiple of the last bit is not below or above what it is not below or above. *)
Lemma round_le_multiple q z k : q <= inject_Z z * 2 ^ k → inject_Z (nearest (q / 2 ^ k)) * 2 ^ k <= inject_Z z * 2 ^ k.
Proof.
  intros H. apply Qmult_le_compat_r; [|apply Qlt_le_weak, pow2_pos]. rewrite <- Zle_Qle.
  rewrite <- (nearest_int z (inject_Z z)) by done. apply nearest_mono.
  apply Qle_shift_div_r; [apply pow2_pos|done].
Qed.
Lemma round_ge_multiple q z k : inject_Z z * 2 ^ k <= q → inject_Z z * 2 ^ k <= inject_Z (nearest (q / 2 ^ k)) * 2 ^ k.
Proof.
  intros H. apply Qmult_le_compat_r; [|apply Qlt_le_weak, pow2_pos]. rewrite <- Zle_Qle.
  rewrite <- (nearest_int z (inject_Z z)) by done. apply nearest_mono.
  apply Qle_shift_div_l; [apply pow2_pos|done].
Qed.
Lemma pow2_multiple e k : (k <= e)%Z → 2 ^ e == inject_Z (2 ^ (e - k)) * 2 ^ k.
Proof.
  intros H. rewrite <- pow2_int, <- pow2_plus by lia. by replace (e - k + k)%Z with e by lia.
Qed.

Lemma round_positive_nonneg q : 0 < q → 0 <= round_positive q.
Proof.
  intros H. unfold round_positive. set (k := last_bit q).
  assert (0 == inject_Z 0 * 2 ^ k) as E by (unfold inject_Z; ring).
  rewrite E at 1. apply round_ge_multiple. rewrite <- E. lra.
Qed.
Lemma round_positive_mono p q : 0 < p → p <= q → round_positive p <= round_positive q.
Proof.
  intros Hp H. pose proof (exponent_mono p q Hp H) as He. unfold round_positive.
  destruct (decide (last_bit p = last_bit q)) as [->|Hn].
  - apply Qmult_le_compat_r; [|apply Qlt_le_weak, pow2_pos]. rewrite <- Zle_Qle. apply nearest_mono.
    unfold Qdiv. apply Qmult_le_compat_r; [done|]. apply Qinv_le_0_compat, Qlt_le_weak, pow2_pos.
  - assert (last_bit q = exponent q - 52 ∧ last_bit p < last_bit q ∧ exponent p < exponent q)%Z as (E & Hl & Hx)
      by (unfold last_bit in *; lia).
    apply Qle_trans with (2 ^ exponent q).
    + assert ((last_bit p <= exponent q)%Z) as Hk by lia. rewrite (pow2_multiple _ _ Hk). apply round_le_multiple.
      rewrite <- (pow2_multiple _ _ Hk). destruct (exponent_spec p Hp) as [_ H2].
      pose proof (pow2_le (exponent p + 1) (exponent q) ltac:(lia)). lra.
    + assert ((last_bit q <= exponent q)%Z) as Hk by lia. rewrite (pow2_multiple _ _ Hk) at 1.
      apply round_ge_multiple. rewrite <- (pow2_multiple _ _ Hk). apply exponent_spec. lra.
Qed.

Lemma round_mono p q : p <= q → round64 p <= round64 q.
Proof.
  intros H. unfold round64. rewrite !Qred_correct.
  destruct (Qcompare_spec p 0) as [Ep|Hp|Hp], (Qcompare_spec q 0) as [Eq|Hq|Hq]; try (exfalso; lra).
  - lra.
  - apply round_positive_nonneg. done.
  - pose proof (round_positive_nonneg (- p) ltac:(lra)). lra.
  - pose proof (round_positive_mono (- q) (- p) ltac:(lra) ltac:(lra)). lra.
  - pose proof (round_positive_nonneg (- p) ltac:(lra)). pose proof (round_positive_nonneg q Hq). lra.
  - apply round_positive_mono; done.
Qed.
#[export] Instance round_proper : Proper (Qeq ==> eq) round64.
Proof.
  intros p q H. unfold round64. apply Qred_complete.
  assert (round64 p == round64 q) as E by (apply Qle_antisym; apply round_mono; rewrite H; apply Qle_refl).
  unfold round64 in E. by rewrite !Qred_correct in E.
Qed.
Lemma round_0 : round64 0 = 0.
Proof. reflexivity. Qed.
Lemma round_1 : round64 1 = 1.
Proof. reflexivity. Qed.
Lemma round_opp q : round64 (- q) == - round64 q.
Proof.
  unfold round64. rewrite !Qred_correct.
  destruct (Qcompare_spec q 0) as [E|H|H], (Qcompare_spec (- q) 0) as [E'|H'|H']; try (exfalso; lra); try lra.
  assert (round64 (- - q) = round64 q) as R by (apply round_proper; ring).
  revert R. unfold round64. 
  destruct (Qcompare_spec (- - q) 0) as [E2|H2|H2]; try (exfalso; lra).
  destruct (Qcompare_spec q 0) as [E3|H3|H3]; try (exfalso; lra).
  intros R. rewrite <- (Qred_correct (round_positive q)), <- R, Qred_correct. ring.
Qed.

(** ** Numbers that the rounding keeps *)

Lemma pow2_lt_inv a b : 2 ^ a < 2 ^ b → (a < b)%Z.
Proof. intros H. apply Z.nle_gt. intros Hn. pose proof (pow2_le b a Hn). lra. Qed.

Lemma round_positive_dyadic m k : (0 < m < 2 ^ 53)%Z → (-1074 <= k)%Z →
  round_positive (inject_Z m * 2 ^ k) == inject_Z m * 2 ^ k.
Proof.
  intros [Hm1 Hm2] Hk. set (q := inject_Z m * 2 ^ k).
  assert (0 < inject_Z m) by (change 0 with (inject_Z 0); by rewrite <- Zlt_Qlt).
  pose proof (pow2_pos k) as Pk. assert (0 < q) as Hq by (unfold q; nra).
  destruct (exponent_spec q Hq) as [He _].
  assert (exponent q < 53 + k)%Z as Hx.
  { apply pow2_lt_inv. apply Qle_lt_trans with q; [done|]. rewrite pow2_plus.
    change (2 ^ 53) with (inject_Z (2 ^ 53)). unfold q. rewrite Zlt_Qlt in Hm2. nra. }
  assert (last_bit q <= k)%Z as Hl by (unfold last_bit; lia).
  unfold round_positive. set (l := last_bit q) in *.
  assert (q / 2 ^ l == inject_Z (m * 2 ^ (k - l))) as E.
  { unfold q. rewrite (pow2_multiple k l Hl), inject_Z_mult. field. pose proof (pow2_pos l). lra. }
  rewrite (nearest_int _ _ E), inject_Z_mult, <- Qmult_assoc, <- (pow2_multiple k l Hl). reflexivity.
Qed.
Lemma round_dyadic_lt m k : (Z.abs m < 2 ^ 53)%Z → (-1074 <= k)%Z → number64 (inject_Z m * 2 ^ k).
Proof.
  intros Hm Hk. unfold number64. pose proof (pow2_pos k) as Pk.
  assert (∀ n, (0 < n < 2 ^ 53)%Z → round64 (inject_Z n * 2 ^ k) == inject_Z n * 2 ^ k) as Hpos.
  { intros n Hn. pose proof (round_positive_dyadic n k Hn Hk) as R.
    assert (0 < inject_Z n) by (change 0 with (inject_Z 0); rewrite <- Zlt_Qlt; lia).
    unfold round64. rewrite Qred_correct. destruct (Qcompare_spec (inject_Z n * 2 ^ k) 0); [nra|nra|done]. }
  destruct (Z.lt_trichotomy m 0) as [Hn|[->|Hp]].
  - specialize (Hpos (- m)%Z ltac:(lia)). rewrite inject_Z_opp in Hpos.
    rewrite (round_proper _ (- (- inject_Z m * 2 ^ k))) by ring. rewrite round_opp, Hpos. ring.
  - rewrite (round_proper _ 0) by (unfold inject_Z; ring). unfold inject_Z. change (round64 0) with 0. ring.
  - apply Hpos. lia.
Qed.
Lemma number64_proper p q : p == q → number64 p → number64 q.
Proof. unfold number64. intros E H. rewrite <- (round_proper _ _ E). by rewrite H. Qed.
Lemma round_dyadic m k : (Z.abs m <= 2 ^ 53)%Z → (-1074 <= k)%Z → number64 (inject_Z m * 2 ^ k).
Proof.
  intros Hm Hk. destruct (decide (Z.abs m = 2 ^ 53)%Z) as [E|]; [|apply round_dyadic_lt; lia].
  apply (number64_proper (inject_Z (m / 2) * 2 ^ (k + 1))).
  - rewrite pow2_plus. change (2 ^ 1) with (inject_Z 2). rewrite Qmult_comm, <- Qmult_assoc, <- inject_Z_mult.
    assert (2 * (m / 2) = m)%Z as -> by (destruct (Z.abs_eq_cases m (2 ^ 53)) as [->| ->]; [done|reflexivity|reflexivity]).
    ring.
  - apply round_dyadic_lt; [|lia]. destruct (Z.abs_eq_cases m (2 ^ 53)) as [->| ->]; done.
Qed.
Lemma round_int z : (Z.abs z <= 2 ^ 53)%Z → number64 (inject_Z z).
Proof.
  intros H. apply (number64_proper (inject_Z z * 2 ^ 0)); [change (2 ^ 0) with 1; ring|by apply round_dyadic].
Qed.

(** What is rounded is a number. *)
Lemma round_positive_number q : 0 < q → number64 (round_positive q).
Proof.
  intros Hq. unfold round_positive. apply round_dyadic; [|unfold last_bit; lia].
  assert (0 <= nearest (q / 2 ^ last_bit q) <= 2 ^ 53)%Z; [|lia].
  pose proof (pow2_pos (last_bit q)) as Pl.
  rewrite <- (nearest_int 0 0) at 1 by done. rewrite <- (nearest_int (2 ^ 53) (inject_Z (2 ^ 53))) by done.
  split; apply nearest_mono.
  - apply Qle_shift_div_l; [done|]. lra.
  - apply Qle_shift_div_r; [done|]. destruct (exponent_spec q Hq) as [_ H].
    assert (exponent q + 1 <= 53 + last_bit q)%Z as Hl by (unfold last_bit; lia).
    apply Qlt_le_weak. apply Qlt_le_trans with (2 ^ (exponent q + 1)); [done|].
    apply Qle_trans with (2 ^ (53 + last_bit q)); [by apply pow2_le|]. rewrite pow2_plus. apply Qle_refl.
Qed.
Lemma round_number q : number64 (round64 q).
Proof.
  apply (number64_proper (match (q ?= 0)%Q with Eq => 0 | Gt => round_positive q | Lt => - round_positive (- q) end)).
  { unfold round64. by rewrite Qred_correct. }
  destruct (Qcompare_spec q 0) as [E|H|H].
  - reflexivity.
  - pose proof (round_positive_number (- q) ltac:(lra)) as R. unfold number64 in *. by rewrite round_opp, R.
  - by apply round_positive_number.
Qed.
Lemma round_round q : round64 (round64 q) = round64 q.
Proof.
  pose proof (round_number q) as H. unfold number64 in H.
  assert (∀ p, Qred (round64 p) = round64 p) as R by (intros p; unfold round64; apply Qred_complete, Qred_correct).
  apply Qred_complete in H. by rewrite !R in H.
Qed.
Lemma fmul_1 q : fmul (round64 q) 1 = round64 q.
Proof. unfold fmul. rewrite Qmult_1_r. apply round_round. Qed.
End Binary64Facts.
