(* ===== verification/JsArray.v ===== *)
(** * Arrays and objects of JavaScript

    [js_sort] is [Array.prototype.sort] with a comparator: the language requires
    a stable sort, so for a consistent comparator the result is determined, and
    [stable_sort_unique] shows that it is.  Objects used as maps are association
    lists in insertion order. *)

From stdpp Require Import base tactics list numbers sets gmap.
From Stdlib Require Import ZArith Sorted Permutation Lia.
From S2P Require Import Prelude.
From S2P Require Import JsString.

Section sort.
Context {A : Type} (cmp : A → A → Z).
Implicit Types l : list A.

Fixpoint js_insert (x : A) (l : list A) : list A :=
  match l with
  | [] => [x]
  | y :: l' => if Z.leb (cmp x y) 0 then x :: y :: l' else y :: js_insert x l'
  end.
Definition js_sort (l : list A) : list A := foldr js_insert [] l.

(** The order a comparator induces; it is consistent on the values satisfying
    [P] (the values an array holds) when it is a total preorder there. *)
Definition cmp_le (x y : A) : Prop := (cmp x y ≤ 0)%Z.
Class Consistent (P : A → Prop) : Prop := {
  cmp_total : ∀ x y, P x → P y → (cmp x y ≤ 0)%Z ∨ (cmp y x ≤ 0)%Z;
  cmp_trans : ∀ x y z, P x → P y → P z →
    (cmp x y ≤ 0)%Z → (cmp y z ≤ 0)%Z → (cmp x z ≤ 0)%Z;
}.

Lemma js_insert_perm x l : js_insert x l ≡ₚ x :: l.
Proof.
  induction l as [|y l IH]; simpl; [done|]. destruct (Z.leb_spec (cmp x y) 0); [done|].
  rewrite IH. apply Permutation_swap.
Qed.

Lemma js_sort_perm l : js_sort l ≡ₚ l.
Proof. induction l as [|x l IH]; simpl; [done|]. by rewrite js_insert_perm, IH. Qed.

(** Elements that compare equal keep their order. *)
Definition cmp_eqv (x y : A) : bool := Z.leb (cmp x y) 0 && Z.leb (cmp y x) 0.
Definition stable (P : A → Prop) (l l' : list A) : Prop :=
  ∀ x, P x → filter (λ y, Is_true (cmp_eqv x y)) l' = filter (λ y, Is_true (cmp_eqv x y)) l.

Lemma cmp_eqv_true x y : Is_true (cmp_eqv x y) ↔ (cmp x y ≤ 0)%Z ∧ (cmp y x ≤ 0)%Z.
Proof. unfold cmp_eqv. by rewrite Is_true_true, andb_true_iff, !Z.leb_le. Qed.

Context (P : A → Prop) `{Consistent P}.

Lemma js_insert_sorted x l :
  P x → Forall P l → StronglySorted cmp_le l → StronglySorted cmp_le (js_insert x l).
Proof.
  intros Hx HP Hl. induction Hl as [|y l Hl IH Hy]; simpl; [by repeat constructor|].
  apply Forall_cons in HP as [HPy HP].
  destruct (Z.leb_spec (cmp x y) 0) as [Hle|Hgt].
  - constructor; [by constructor|]. constructor; [done|].
    rewrite Forall_forall in Hy, HP |- *. intros z Hz.
    apply (cmp_trans x y z); try done; [by apply HP | by apply Hy].
  - constructor; [by apply IH|]. rewrite js_insert_perm. constructor; [|done].
    unfold cmp_le. destruct (cmp_total x y); [done..|lia|done].
Qed.

Lemma js_sort_sorted l : Forall P l → StronglySorted cmp_le (js_sort l).
Proof.
  induction 1 as [|x l Hx HP IH]; simpl; [constructor|]. apply js_insert_sorted; [done| |done].
  by rewrite js_sort_perm.
Qed.

Lemma cmp_refl x : P x → (cmp x x ≤ 0)%Z.
Proof. intros Hx. by destruct (cmp_total x x). Qed.

Lemma js_insert_stable x l : P x → Forall P l → stable P (x :: l) (js_insert x l).
Proof.
  intros Hx HP z Hz. induction HP as [|y l Hy HP IH]; [done|]. simpl js_insert.
  destruct (Z.leb_spec (cmp x y) 0) as [Hle|Hgt]; [done|].
  rewrite !filter_cons in *. rewrite IH.
  destruct (decide (Is_true (cmp_eqv z x))) as [Hzx|]; [|done].
  destruct (decide (Is_true (cmp_eqv z y))) as [Hzy|]; [|done].
  exfalso. rewrite cmp_eqv_true in *.
  assert (cmp x y ≤ 0)%Z by (apply (cmp_trans x z y); tauto). lia.
Qed.

Lemma js_sort_stable l : Forall P l → stable P l (js_sort l).
Proof.
  induction 1 as [|x l Hx HP IH]; simpl; [done|]. intros z Hz.
  rewrite (js_insert_stable x (js_sort l) Hx), !filter_cons; [by rewrite IH| |done].
  by rewrite js_sort_perm.
Qed.

(** An array in order stays as it is. *)
Lemma js_sort_id l : StronglySorted cmp_le l → js_sort l = l.
Proof.
  induction 1 as [|x l Hl IH Hx]; simpl; [done|]. rewrite IH. destruct l as [|y l]; [done|].
  simpl. apply Forall_cons in Hx as [Hx _]. by rewrite (proj2 (Z.leb_le _ _)).
Qed.

(** A sorted, stable rearrangement is determined, whatever the algorithm. *)
Lemma stable_sort_unique l l1 l2 :
  Forall P l1 → StronglySorted cmp_le l1 → StronglySorted cmp_le l2 →
  stable P l l1 → stable P l l2 → l1 ≡ₚ l2 → l1 = l2.
Proof.
  intros HP H1 H2 S1 S2. assert (HS : ∀ x, P x → filter (λ y, Is_true (cmp_eqv x y)) l1 =
    filter (λ y, Is_true (cmp_eqv x y)) l2) by (intros x Hx; by rewrite S1, S2).
  clear S1 S2. revert l2 H2 HS. induction H1 as [|x l1 H1 IH Hx]; intros l2 H2 HS Hp.
  - by apply Permutation_nil in Hp.
  - destruct H2 as [|y l2 H2 Hy]; [by apply Permutation_sym, Permutation_nil_cons in Hp|].
    pose proof HP as HP'. rewrite Hp in HP'.
    apply Forall_cons in HP as [HPx HP]. apply Forall_cons in HP' as [HPy _].
    assert (Hxy : (cmp x y ≤ 0)%Z).
    { assert (Hin : y ∈ x :: l1) by (rewrite Hp; by left).
      apply elem_of_cons in Hin as [->|Hin]; [by apply cmp_refl|]. by eapply Forall_forall in Hx. }
    assert (Hyx : (cmp y x ≤ 0)%Z).
    { assert (Hin : x ∈ y :: l2) by (rewrite <- Hp; by left).
      apply elem_of_cons in Hin as [->|Hin]; [by apply cmp_refl|]. by eapply Forall_forall in Hy. }
    assert (E : x = y).
    { specialize (HS x HPx). rewrite !filter_cons in HS.
      rewrite !decide_True in HS; [by injection HS|by apply cmp_eqv_true|].
      apply cmp_eqv_true. by split; apply cmp_refl. }
    subst y. f_equal. apply IH; [done|done| |by apply Permutation_cons_inv in Hp].
    intros z Hz. specialize (HS z Hz). rewrite !filter_cons in HS.
    by case_decide; [injection HS|].
Qed.
End sort.

Arguments Consistent {A} cmp P.

(** A comparator that is consistent on the elements that occur is enough: the
    sort only compares those. *)
(** Sorted lists: what is contained with multiplicity is a subsequence. *)
Lemma sorted_sublist {A} `{EqDecision A} (R : A → A → Prop) (l1 l2 : list A) :
  (∀ x y, R x y → R y x → x = y) → StronglySorted R l1 → StronglySorted R l2 →
  l1 ⊆+ l2 ↔ l1 `sublist_of` l2.
Proof.
  intros Hanti Hs1 Hs2. split; [|apply sublist_submseteq].
  revert l1 Hs1. induction Hs2 as [|x l2 Hs2 IH Hx]; intros l1 Hs1 H.
  { apply submseteq_nil_r in H as ->. constructor. }
  destruct Hs1 as [|y l1 Hs1 Hy]; [apply sublist_nil_l|]. destruct (decide (y = x)) as [->|Hne].
  - apply sublist_skip, IH; [done|]. by apply (submseteq_app_inv_l _ _ [x]).
  - apply sublist_cons, IH; [by constructor|].
    apply submseteq_cons_r in H as [H|(l' & Hp & Hl')]; [done|]. destruct Hne.
    assert (Hx1 : x ∈ y :: l1) by (rewrite Hp; by left).
    assert (Hy2 : y ∈ x :: l2).
    { assert (y ∈ x :: l') as [->|Hin]%elem_of_cons by (rewrite <- Hp; by left); [by left|].
      right. by eapply elem_of_submseteq. }
    apply elem_of_cons in Hx1 as [->|Hx1]; [done|]. apply elem_of_cons in Hy2 as [->|Hy2]; [done|].
    rewrite ->Forall_forall in Hx, Hy. apply Hanti; [by apply Hy|by apply Hx].
Qed.

Lemma js_insert_ext {A} (cmp cmp' : A → A → Z) x l :
  (∀ y, y ∈ l → cmp x y = cmp' x y) → js_insert cmp x l = js_insert cmp' x l.
Proof.
  induction l as [|y l IH]; intros H; simpl; [done|]. rewrite (H y) by set_solver.
  destruct (Z.leb _ _); [done|]. f_equal. apply IH. set_solver.
Qed.

(** ** Objects as ordered maps from names *)

Section objects.
Context {B : Type}.
Implicit Types o : list (jsstr * B).

Fixpoint obj_get (k : jsstr) (o : list (jsstr * B)) : option B :=
  match o with
  | [] => None
  | (k', v) :: o' => if str_eqb k k' then Some v else obj_get k o'
  end.
Definition obj_has (k : jsstr) (o : list (jsstr * B)) : bool :=
  match obj_get k o with Some _ => true | None => false end.
(** Assignment: in place when the property exists, at the end otherwise. *)
Fixpoint obj_set (k : jsstr) (v : B) (o : list (jsstr * B)) : list (jsstr * B) :=
  match o with
  | [] => [(k, v)]
  | (k', v') :: o' => if str_eqb k k' then (k', v) :: o' else (k', v') :: obj_set k v o'
  end.
(** [delete]. *)
Definition obj_delete (k : jsstr) (o : list (jsstr * B)) : list (jsstr * B) :=
  base.filter (λ kv, kv.1 ≠ k) o.
Definition obj_keys o : list jsstr := o.*1.
(** A property is listed once. *)
Definition obj_wf o : Prop := NoDup (obj_keys o).

Lemma str_eqb_spec k k' : reflect (k = k') (str_eqb k k').
Proof. apply bool_decide_reflect. Qed.

Lemma obj_get_set k k' v o :
  obj_get k (obj_set k' v o) = if decide (k = k') then Some v else obj_get k o.
Proof.
  induction o as [|[k1 v1] o IH]; simpl.
  - destruct (str_eqb_spec k k'); case_decide; congruence.
  - destruct (str_eqb_spec k' k1); simpl; destruct (str_eqb_spec k k1);
      rewrite ?IH; case_decide; try congruence.
Qed.

Lemma obj_set_set k v v' o : obj_set k v (obj_set k v' o) = obj_set k v o.
Proof.
  induction o as [|[k1 v1] o IH]; simpl.
  - destruct (str_eqb_spec k k); done.
  - destruct (str_eqb_spec k k1); simpl.
    + destruct (str_eqb_spec k k1); done.
    + destruct (str_eqb_spec k k1); [done|]. by rewrite IH.
Qed.

Lemma obj_set_ne k v o : obj_set k v o ≠ [].
Proof. destruct o as [|[k1 v1] o]; simpl; [done|]. by destruct (str_eqb k k1). Qed.

Lemma obj_set_same k v o : obj_get k o = Some v → obj_set k v o = o.
Proof.
  induction o as [|[k1 v1] o IH]; simpl; [done|].
  destruct (str_eqb_spec k k1); [by intros [= ->]|]. intros H. by rewrite IH.
Qed.

Lemma obj_get_None k o : obj_get k o = None ↔ k ∉ obj_keys o.
Proof.
  unfold obj_keys. induction o as [|[k1 v1] o IH]; simpl; [split; [set_solver|done]|].
  destruct (str_eqb_spec k k1) as [->|].
  - split; [done|set_solver].
  - rewrite IH. set_solver.
Qed.

Lemma obj_get_elem k v o : obj_wf o → obj_get k o = Some v ↔ (k, v) ∈ o.
Proof.
  unfold obj_wf, obj_keys. induction o as [|[k1 v1] o IH]; simpl; intros Hwf.
  - split; [done|set_solver].
  - apply NoDup_cons in Hwf as [Hn Hwf]. destruct (str_eqb_spec k k1) as [->|Hne].
    + split.
      * intros [= ->]. by left.
      * intros [[= ->]|Hin]%elem_of_cons; [done|]. destruct Hn.
        apply list_elem_of_fmap. by exists (k1, v).
    + rewrite IH by done. rewrite elem_of_cons. naive_solver.
Qed.

Lemma obj_set_keys k v o :
  obj_keys (obj_set k v o) = if obj_has k o then obj_keys o else obj_keys o ++ [k].
Proof.
  unfold obj_keys, obj_has. induction o as [|[k1 v1] o IH]; simpl; [done|].
  destruct (str_eqb_spec k k1) as [->|]; [done|].
  rewrite !fmap_cons, IH. by destruct (obj_get k o).
Qed.

Lemma obj_set_wf k v o : obj_wf o → obj_wf (obj_set k v o).
Proof.
  unfold obj_wf. intros Hwf. rewrite obj_set_keys. unfold obj_has.
  destruct (obj_get k o) eqn:E; [done|]. apply obj_get_None in E.
  apply NoDup_app. split; [done|]. split; [set_solver|apply NoDup_singleton].
Qed.

Lemma obj_get_delete k k' o :
  obj_get k (obj_delete k' o) = if decide (k = k') then None else obj_get k o.
Proof.
  unfold obj_delete. induction o as [|[k1 v1] o IH]; [by case_decide|]. rewrite filter_cons. simpl.
  destruct (decide (k1 = k')) as [->|Hne].
  - rewrite decide_False by (intros H; by apply H). rewrite IH.
    destruct (str_eqb_spec k k') as [->|]; [by rewrite !decide_True|by rewrite !decide_False].
  - rewrite decide_True by done. simpl. rewrite IH.
    destruct (str_eqb_spec k k1) as [->|]; [by rewrite decide_False|done].
Qed.

Lemma obj_delete_absent k o : obj_get k o = None → obj_delete k o = o.
Proof.
  intros H%obj_get_None. apply list_filter_all. intros [k1 v1] Hin Heq. simpl in Heq. subst k1.
  apply H. by apply (list_elem_of_fmap_2 fst _ (k, v1)).
Qed.

Lemma obj_delete_set k v o : obj_get k o = None → obj_delete k (obj_set k v o) = o.
Proof.
  intros H. rewrite <- (obj_delete_absent k o H) at 2. unfold obj_delete. clear H.
  induction o as [|[k1 v1] o IH]; simpl.
  - rewrite filter_cons, decide_False by (intros Hx; by apply Hx). done.
  - destruct (str_eqb_spec k k1) as [->|Hne].
    + rewrite !filter_cons, !decide_False by (intros Hx; by apply Hx). done.
    + rewrite !filter_cons, IH. done.
Qed.

Lemma obj_delete_wf k o : obj_wf o → obj_wf (obj_delete k o).
Proof.
  unfold obj_wf, obj_keys, obj_delete. induction o as [|[k1 v1] o IH]; [done|].
  rewrite fmap_cons, filter_cons, NoDup_cons. intros [Hn Hnd]. case_decide; [|by apply IH].
  rewrite fmap_cons, NoDup_cons. split; [|by apply IH]. contradict Hn.
  apply list_elem_of_fmap in Hn as (kv & -> & [_ Hin]%list_elem_of_filter).
  by apply list_elem_of_fmap_2.
Qed.

Lemma obj_get_keys k o : is_Some (obj_get k o) ↔ k ∈ obj_keys o.
Proof.
  rewrite <- not_eq_None_Some, obj_get_None. split; [|by intros ? ?]. intros H.
  destruct (decide (k ∈ obj_keys o)); [done|by destruct H].
Qed.

Lemma obj_has_true k o : obj_has k o = true ↔ k ∈ obj_keys o.
Proof.
  unfold obj_has. destruct (obj_get k o) eqn:E.
  - split; [|done]. intros _. destruct (decide (k ∈ obj_keys o)) as [|Hn]; [done|].
    apply obj_get_None in Hn. congruence.
  - apply obj_get_None in E. split; done.
Qed.
End objects.

#[export] Hint Resolve js_sort_perm obj_set_wf : js.
