(* ===== verification/Stemmer.v ===== *)
(** * The Porter stemmer of searchtools.js

    [Stemmer] builds its patterns from strings, so the patterns are [regex]
    values here, named as in the source; [stemWord] is the composition of the
    steps the source numbers 1a to 5. *)

From stdpp Require Import base tactics list strings numbers sets gmap.
From Stdlib Require Import NArith Sorted Lia.
From S2P Require Import Prelude.
From S2P Require Import JsString.
From S2P Require Import Regex.

Module Stemmer.

(** ** The tables and the patterns *)

Definition step2list : list (jsstr * jsstr) := prod_map js js <$> [
  ("ational", "ate"); ("tional", "tion"); ("enci", "ence"); ("anci", "ance");
  ("izer", "ize"); ("bli", "ble"); ("alli", "al"); ("entli", "ent"); ("eli", "e");
  ("ousli", "ous"); ("ization", "ize"); ("ation", "ate"); ("ator", "ate");
  ("alism", "al"); ("iveness", "ive"); ("fulness", "ful"); ("ousness", "ous");
  ("aliti", "al"); ("iviti", "ive"); ("biliti", "ble"); ("logi", "log") ]%string.

Definition step3list : list (jsstr * jsstr) := prod_map js js <$> [
  ("icate", "ic"); ("ative", ""); ("alize", "al"); ("iciti", "ic");
  ("ical", "ic"); ("ful", ""); ("ness", "") ]%string.

(** Reading a property of a table; a missing one is [undefined], which
    concatenation turns into text. *)
Definition table_get (table : list (jsstr * jsstr)) (k : jsstr) : jsstr :=
  match list_find (λ p, p.1 = k) table with
  | Some (_, p) => p.2
  | None => js "undefined"
  end.

Definition c_cls : N → bool := ncls "aeiou".     (* consonant *)
Definition v_cls : N → bool := cls "aeiouy".     (* vowel *)
Definition C_re : regex := RSeq (RSet c_cls) (star (RSet (ncls "aeiouy"))).
Definition V_re : regex := RSeq (RSet v_cls) (star (RSet (cls "aeiou"))).

Definition mgr0 : regex := seqs [RBol; opt (RGroup 1 C_re); V_re; C_re].
Definition meq1 : regex :=
  seqs [RBol; opt (RGroup 1 C_re); V_re; C_re; opt (RGroup 2 V_re); REol].
Definition mgr1 : regex := seqs [RBol; opt (RGroup 1 C_re); V_re; C_re; V_re; C_re].
Definition s_v : regex := seqs [RBol; opt (RGroup 1 C_re); RSet v_cls].

(** [(.+?)], the stem that every suffix pattern captures first. *)
Definition stem_group : regex := RGroup 1 (plus_lazy dot).
(** [/.$/] replaced by nothing. *)
Definition last_char : regex := seqs [dot; REol].
Definition drop_last (w : jsstr) : jsstr := replace_first last_char (λ _, []) w.
(** ["^" + C + v + "[^aeiouwxy]$"] *)
Definition cvc : regex := seqs [RBol; C_re; RSet v_cls; RSet (ncls "aeiouwxy"); REol].

(** ** The steps *)

Definition re_1a : regex :=
  seqs [RBol; stem_group; RGroup 2 (alts [lit "ss"; lit "i"]); lit "es"; REol].
Definition re2_1a : regex :=
  seqs [RBol; stem_group; RGroup 2 (RSet (ncls "s")); lit "s"; REol].
Definition dollar12 (m : match_result) : jsstr := capture_str m 1 ++ capture_str m 2.

Definition step1a (w : jsstr) : jsstr :=
  if test re_1a w then replace_first re_1a dollar12 w
  else if test re2_1a w then replace_first re2_1a dollar12 w
  else w.

Definition re_1b : regex := seqs [RBol; stem_group; lit "eed"; REol].
Definition re2_1b : regex :=
  seqs [RBol; stem_group; RGroup 2 (alts [lit "ed"; lit "ing"]); REol].
Definition at_bl_iz : regex := seqs [RGroup 1 (alts [lit "at"; lit "bl"; lit "iz"]); REol].
Definition double_cons : regex := seqs [RGroup 1 (RSet (ncls "aeiouylsz")); RBack 1; REol].

(** What follows the removal of [ed] or [ing]. *)
Definition tidy1b (w : jsstr) : jsstr :=
  if test at_bl_iz w then w ++ js "e"
  else if test double_cons w then drop_last w
  else if test cvc w then w ++ js "e"
  else w.

Definition step1b (w : jsstr) : jsstr :=
  match exec re_1b w with
  | Some fp => if test mgr0 (capture_str fp 1) then drop_last w else w
  | None =>
      match exec re2_1b w with
      | Some fp =>
          let stem := capture_str fp 1 in
          if test s_v stem then tidy1b stem else w
      | None => w
      end
  end.

Definition re_1c : regex := seqs [RBol; stem_group; lit "y"; REol].
Definition step1c (w : jsstr) : jsstr :=
  match exec re_1c w with
  | Some fp =>
      let stem := capture_str fp 1 in
      if test s_v stem then stem ++ js "i" else w
  | None => w
  end.

(** A suffix pattern with its alternatives in the source's order. *)
Definition suffix_re (sufs : list jsstr) : regex :=
  seqs [RBol; stem_group; RGroup 2 (alts (lit_units <$> sufs)); REol].

Definition sufs2 : list jsstr := js <$> [
  "ational"; "tional"; "enci"; "anci"; "izer"; "bli"; "alli"; "entli"; "eli";
  "ousli"; "ization"; "ation"; "ator"; "alism"; "iveness"; "fulness"; "ousness";
  "aliti"; "iviti"; "biliti"; "logi" ]%string.
Definition step2 (w : jsstr) : jsstr :=
  match exec (suffix_re sufs2) w with
  | Some fp =>
      let stem := capture_str fp 1 in
      let suffix := capture_str fp 2 in
      if test mgr0 stem then stem ++ table_get step2list suffix else w
  | None => w
  end.

Definition sufs3 : list jsstr := js <$> [
  "icate"; "ative"; "alize"; "iciti"; "ical"; "ful"; "ness" ]%string.
Definition step3 (w : jsstr) : jsstr :=
  match exec (suffix_re sufs3) w with
  | Some fp =>
      let stem := capture_str fp 1 in
      let suffix := capture_str fp 2 in
      if test mgr0 stem then stem ++ table_get step3list suffix else w
  | None => w
  end.

Definition sufs4 : list jsstr := js <$> [
  "al"; "ance"; "ence"; "er"; "ic"; "able"; "ible"; "ant"; "ement"; "ment"; "ent";
  "ou"; "ism"; "ate"; "iti"; "ous"; "ive"; "ize" ]%string.
Definition re2_4 : regex :=
  seqs [RBol; stem_group; RGroup 2 (alts [lit "s"; lit "t"]); RGroup 3 (lit "ion"); REol].
Definition step4 (w : jsstr) : jsstr :=
  match exec (suffix_re sufs4) w with
  | Some fp =>
      let stem := capture_str fp 1 in
      if test mgr1 stem then stem else w
  | None =>
      match exec re2_4 w with
      | Some fp =>
          let stem := capture_str fp 1 ++ capture_str fp 2 in
          if test mgr1 stem then stem else w
      | None => w
      end
  end.

Definition re_5 : regex := seqs [RBol; stem_group; lit "e"; REol].
Definition ll_end : regex := seqs [lit "ll"; REol].
Definition step5_e (w : jsstr) : jsstr :=
  match exec re_5 w with
  | Some fp =>
      let stem := capture_str fp 1 in
      if test mgr1 stem || (test meq1 stem && negb (test cvc stem)) then stem else w
  | None => w
  end.
Definition step5 (w : jsstr) : jsstr :=
  let w1 := step5_e w in
  if test ll_end w1 && test mgr1 w1 then drop_last w1 else w1.

Definition stem_steps (w : jsstr) : jsstr :=
  step5 (step4 (step3 (step2 (step1c (step1b (step1a w)))))).

Definition stemWord (w : jsstr) : jsstr :=
  if length w <? 3 then w else
  let firstch := substr w 0 1 in
  let w1 := if str_eqb firstch (js "y")
            then (ascii_upper_unit <$> firstch) ++ substr_from w 1 else w in
  let w2 := stem_steps w1 in
  if str_eqb firstch (js "y")
  then (ascii_lower_unit <$> firstch) ++ substr_from w2 1 else w2.

Example stem_caresses : stemWord (js "caresses") = js "caress". Proof. vm_compute. done. Qed.
Example stem_relational : stemWord (js "relational") = js "relat". Proof. vm_compute. done. Qed.
Example stem_hopping : stemWord (js "hopping") = js "hop". Proof. vm_compute. done. Qed.
Example stem_yes : stemWord (js "yesterdays") = js "yesterdai". Proof. vm_compute. done. Qed.

(** ** Shrinking: the first unit stays and the length does not grow *)

Definition shrinks (w w' : jsstr) : Prop :=
  ∃ x t t', w = x :: t ∧ w' = x :: t' ∧ length t' ≤ length t.

Lemma shrinks_refl w : w ≠ [] → shrinks w w.
Proof. destruct w as [|x t]; [done|]. intros _. by exists x, t, t. Qed.

Lemma shrinks_trans w1 w2 w3 : shrinks w1 w2 → shrinks w2 w3 → shrinks w1 w3.
Proof.
  intros (x & t1 & t2 & -> & -> & H1) (y & t2' & t3 & [= <- <-] & -> & H2).
  exists x, t1, t3. split; [done|]. split; [done|lia].
Qed.

Lemma shrinks_stem stem suf r :
  stem ≠ [] → length r ≤ length suf → shrinks (stem ++ suf) (stem ++ r).
Proof.
  destruct stem as [|x t]; [done|]. intros _ H. exists x, (t ++ suf), (t ++ r).
  split; [done|]. split; [done|]. rewrite !length_app. lia.
Qed.

Lemma shrinks_ne w w' : shrinks w w' → w' ≠ [].
Proof. by intros (x & t & t' & _ & -> & _). Qed.

Lemma shrinks_length w w' : shrinks w w' → length w' ≤ length w.
Proof. intros (x & t & t' & -> & -> & H). simpl. lia. Qed.

Lemma shrinks_head w w' : shrinks w w' → head w' = head w.
Proof. by intros (x & t & t' & -> & -> & H). Qed.

#[local] Hint Resolve shrinks_refl shrinks_ne : core.

(** ** What a suffix pattern captures *)

(** The states behind a captured stem: the stem is a non-empty prefix. *)
Lemma stem_group_run w st :
  st ∈ run stem_group (MState 0 w ∅) ↔
  ∃ stem suf, w = stem ++ suf ∧ stem ≠ [] ∧
    Forall (λ c, is_line_term c = false) stem ∧
    st = MState (length stem) suf {[1 := stem]}.
Proof.
  unfold stem_group, plus_lazy. rewrite run_group. setoid_rewrite run_seq.
  setoid_rewrite run_star_set. unfold dot. setoid_rewrite run_set. split.
  - intros (st1 & (st2 & (c & s & E & Hc & ->) & u & s' & E' & Hu & ->) & ->).
    simpl in E, E'. subst w. simpl in E'. rewrite drop_0 in E'. subst s.
    exists (c :: u), s'. split; [done|]. split; [done|]. split.
    + constructor; [by apply negb_true_iff|].
      eapply Forall_impl; [done|]. intros d Hd. by apply negb_true_iff.
    + unfold set_cap, consumed, advance. simpl. f_equal.
      * by rewrite drop_0, drop_app_length.
      * rewrite <- insert_empty. f_equal. f_equal. apply take_app_length.
  - intros ([|c u] & suf & -> & Hne & Hl & ->); [done|]. inversion Hl; subst.
    eexists. split.
    + eexists. split; [exists c, (u ++ suf); split; [done|]; split; [by apply negb_true_iff|done]|].
      exists u, suf. simpl. rewrite drop_0. split; [done|]. split; [|done].
      eapply Forall_impl; [done|]. intros d Hd. by apply negb_true_iff.
    + unfold set_cap, consumed, advance. simpl. f_equal.
      * by rewrite drop_0, drop_app_length.
      * rewrite <- insert_empty. f_equal. f_equal. symmetry. apply take_app_length.
Qed.

Lemma stem_exec T w m :
  exec (RSeq RBol (RSeq stem_group T)) w = Some m →
  ∃ stem suf st, w = stem ++ suf ∧ stem ≠ [] ∧
    st ∈ run T (MState (length stem) suf {[1 := stem]}) ∧
    r_index m = 0 ∧ r_caps m = m_caps st ∧ r_after m = m_rest st.
Proof.
  intros (st & (st1 & (stem & suf & -> & Hne & _ & ->)%stem_group_run & Hst)%run_seq
    & Hi & Hc & Ha & _)%exec_bol_Some.
  by exists stem, suf, st.
Qed.

(** A literal suffix at the end of the word. *)
Lemma run_lit_eol t st st' :
  st' ∈ run (RSeq (lit_units t) REol) st ↔ m_rest st = t ∧ st' = advance (length t) st.
Proof.
  rewrite run_seq. setoid_rewrite run_lit_units. setoid_rewrite run_eol. split.
  - intros (st1 & (s & E & ->) & E' & ->). simpl in E'. rewrite E in *.
    rewrite drop_app_length in E'. subst s. by rewrite app_nil_r.
  - intros (E & ->). eexists. split; [exists []; by rewrite app_nil_r|].
    simpl. rewrite E. split; [|done]. by rewrite drop_all.
Qed.

Lemma lit_exec t w m :
  exec (seqs [RBol; stem_group; lit_units t; REol]) w = Some m →
  w = capture_str m 1 ++ t ∧ capture_str m 1 ≠ [].
Proof.
  intros (stem & suf & st & -> & Hne & [E ->]%run_lit_eol & _ & Hc & _)%stem_exec.
  simpl in E, Hc. subst suf. unfold capture_str, capture. rewrite Hc.
  by rewrite lookup_singleton_eq.
Qed.

(** A captured alternative at the end of the word. *)
Lemma run_group_lits_eol sufs st st' :
  st' ∈ run (RSeq (RGroup 2 (alts (lit_units <$> sufs))) REol) st ↔
  m_rest st ∈ sufs ∧
  st' = MState (m_pos st + length (m_rest st)) [] (<[2 := m_rest st]> (m_caps st)).
Proof.
  rewrite run_seq. setoid_rewrite run_group. setoid_rewrite run_alts.
  setoid_rewrite run_eol. split.
  - intros (st1 & (st2 & (r & (t & -> & Ht)%list_elem_of_fmap &
      (s & E & ->)%run_lit_units) & ->) & E' & ->).
    simpl in E'. rewrite E, drop_app_length in E'. subst s. rewrite app_nil_r in E.
    rewrite E. split; [done|]. unfold set_cap, consumed, advance. simpl.
    rewrite E, drop_all. f_equal. f_equal.
    rewrite Nat.add_comm, Nat.add_sub. apply take_ge. lia.
  - intros [Hin ->]. eexists. split.
    + eexists. split; [|done]. exists (lit_units (m_rest st)). split.
      * apply list_elem_of_fmap. eauto.
      * apply run_lit_units. exists []. by rewrite app_nil_r.
    + simpl. rewrite drop_all. split; [done|]. unfold set_cap, consumed, advance. simpl.
      rewrite drop_all. f_equal. f_equal. rewrite Nat.add_comm, Nat.add_sub. symmetry.
      apply take_ge. lia.
Qed.

Lemma suffix_exec sufs w m :
  exec (suffix_re sufs) w = Some m →
  w = capture_str m 1 ++ capture_str m 2 ∧ capture_str m 1 ≠ [] ∧ capture_str m 2 ∈ sufs.
Proof.
  intros (stem & suf & st & -> & Hne & [E ->]%run_group_lits_eol & _ & Hc & _)%stem_exec.
  simpl in *. unfold capture_str, capture. rewrite Hc.
  rewrite lookup_insert_eq, lookup_insert_ne, lookup_singleton_eq by done. done.
Qed.

(** ** Every step shrinks *)

Lemma drop_last_shrinks w : 2 ≤ length w → shrinks w (drop_last w).
Proof.
  intros Hlen. assert (Hw : w ≠ []) by (by intros ->; simpl in Hlen; lia).
  unfold drop_last, replace_first. destruct (exec last_char w) as [m|] eqn:E; [|by auto].
  destruct (exec_Some _ _ _ E) as (st & Hst & Hi & _ & Ha & Hw').
  apply run_seq in Hst as (st1 & (c & s & E1 & _ & ->)%run_set & [E2 ->]%run_eol).
  simpl in *. rewrite E1 in E2. simpl in E2. rewrite drop_0 in E2. subst s.
  rewrite Ha, E1. simpl. rewrite app_nil_r.
  rewrite <- (take_drop (r_index m) w) at 1. rewrite E1.
  rewrite <- (app_nil_r (take (r_index m) w)) at 2.
  apply shrinks_stem; [|simpl; lia].
  intros Ht. apply (f_equal length) in Ht. rewrite length_take in Ht.
  apply (f_equal length) in E1. rewrite length_drop in E1. simpl in *. lia.
Qed.

(** Step 1a: both of its patterns keep the stem and the second group. *)
Lemma run_group_then_lit r t st st' :
  groups r = [] →
  st' ∈ run (RSeq (RGroup 2 r) (RSeq (lit_units t) REol)) st →
  ∃ u, m_rest st = u ++ t ∧ m_rest st' = [] ∧ m_caps st' = <[2 := u]> (m_caps st).
Proof.
  intros Hg (st1 & (st2 & H2 & ->)%run_group & [E ->]%run_lit_eol)%run_seq.
  simpl in E. destruct (run_forward _ _ _ H2) as [u Hu]. exists u.
  rewrite (steps_by_consumed _ _ _ Hu). destruct Hu as [Hu _].
  split; [congruence|]. simpl. rewrite E, drop_all, (run_caps _ _ _ Hg H2). done.
Qed.

Lemma dollar12_shrinks r t w m :
  groups r = [] →
  exec (seqs [RBol; stem_group; RGroup 2 r; lit_units t; REol]) w = Some m →
  shrinks w (replace_first (seqs [RBol; stem_group; RGroup 2 r; lit_units t; REol]) dollar12 w).
Proof.
  intros Hg E. unfold replace_first. rewrite E.
  apply stem_exec in E as (stem & suf & st & -> & Hne & H & Hi & Hc & Ha).
  apply run_group_then_lit in H as (u & Eu & Er & Ec); [|done]. simpl in Eu, Ec. subst suf.
  rewrite Hi, Ha, Er, take_0, app_nil_r. simpl. unfold dollar12, capture_str, capture.
  rewrite Hc, Ec, lookup_insert_eq, lookup_insert_ne, lookup_singleton_eq by done. simpl.
  apply shrinks_stem; [done|]. rewrite length_app. lia.
Qed.

Lemma step1a_shrinks w : w ≠ [] → shrinks w (step1a w).
Proof.
  intros Hw. unfold step1a.
  destruct (test re_1a w) eqn:E; [|destruct (test re2_1a w) eqn:E2]; [..|by auto].
  - apply test_exec in E as [m E]. by apply (dollar12_shrinks _ (js "es") w m).
  - apply test_exec in E2 as [m E2]. by apply (dollar12_shrinks _ (js "s") w m).
Qed.

Lemma test_min_length r w n :
  (∀ st st', st' ∈ run r st → n ≤ length (m_rest st)) → test r w = true → n ≤ length w.
Proof.
  intros Hr (k & st' & Hk & H)%test_spec. apply Hr in H. simpl in H.
  rewrite length_drop in H. lia.
Qed.

Lemma double_cons_length w : test double_cons w = true → 2 ≤ length w.
Proof.
  apply test_min_length. intros st st' H.
  apply run_seq in H as (st1 & (st2 & (c & s & E & Hc & ->)%run_set & ->)%run_group & H).
  apply run_seq in H as (st3 & H & _). simpl in H. rewrite lookup_insert_eq in H.
  unfold consumed in H. simpl in H. rewrite E in H. simpl in H.
  rewrite Nat.add_comm, Nat.add_sub in H. simpl in H. rewrite E. simpl.
  destruct s as [|d s]; [simpl in H; by apply not_elem_of_nil in H|]. simpl. lia.
Qed.

Lemma ll_end_length w : test ll_end w = true → 2 ≤ length w.
Proof.
  apply test_min_length. intros st st' [E ->]%run_lit_eol. rewrite E. done.
Qed.

Lemma tidy1b_shrinks stem suf : stem ≠ [] → suf ≠ [] → shrinks (stem ++ suf) (tidy1b stem).
Proof.
  intros Hs Hf. assert (H0 : shrinks (stem ++ suf) (stem ++ [])).
  { apply shrinks_stem; [done|]. simpl. lia. }
  assert (He : shrinks (stem ++ suf) (stem ++ js "e")).
  { apply shrinks_stem; [done|]. destruct suf; [done|]. simpl. lia. }
  rewrite app_nil_r in H0. unfold tidy1b.
  destruct (test at_bl_iz stem); [done|]. destruct (test double_cons stem) eqn:E.
  - apply (shrinks_trans _ stem); [done|]. by apply drop_last_shrinks, double_cons_length.
  - by destruct (test cvc stem).
Qed.

Lemma step1b_shrinks w : w ≠ [] → shrinks w (step1b w).
Proof.
  intros Hw. unfold step1b. destruct (exec re_1b w) as [fp|] eqn:E.
  - apply (lit_exec (js "eed")) in E as [E Hne].
    destruct (test mgr0 _); [|by auto]. apply drop_last_shrinks. rewrite E, length_app.
    simpl. lia.
  - destruct (exec re2_1b w) as [fp|] eqn:E2; [|by auto].
    apply (suffix_exec [js "ed"; js "ing"]) in E2 as (Ew & Hne & Hin).
    destruct (test s_v _); [|by auto]. rewrite Ew at 1. apply tidy1b_shrinks; [done|].
    intros Hs. rewrite Hs in Hin. set_solver.
Qed.

Lemma step1c_shrinks w : w ≠ [] → shrinks w (step1c w).
Proof.
  intros Hw. unfold step1c. destruct (exec re_1c w) as [fp|] eqn:E; [|by auto].
  apply (lit_exec (js "y")) in E as [E Hne]. destruct (test s_v _); [|by auto].
  rewrite E at 1. by apply shrinks_stem.
Qed.

(** The tables map every suffix of their pattern to one that is not longer. *)
Definition table_short (table : list (jsstr * jsstr)) (sufs : list jsstr) : bool :=
  forallb (λ s, length (table_get table s) <=? length s) sufs.

Lemma table_short_get table sufs s :
  table_short table sufs = true → s ∈ sufs → length (table_get table s) ≤ length s.
Proof. intros H Hin. apply Nat.leb_le. revert s Hin. by apply forallb_elem_of. Qed.

Lemma step2_shrinks w : w ≠ [] → shrinks w (step2 w).
Proof.
  intros Hw. unfold step2. destruct (exec _ w) as [fp|] eqn:E; [|by auto].
  apply suffix_exec in E as (E & Hne & Hin). destruct (test mgr0 _); [|by auto].
  rewrite E at 1. apply shrinks_stem; [done|].
  apply (table_short_get _ sufs2); [vm_compute; done|done].
Qed.

Lemma step3_shrinks w : w ≠ [] → shrinks w (step3 w).
Proof.
  intros Hw. unfold step3. destruct (exec _ w) as [fp|] eqn:E; [|by auto].
  apply suffix_exec in E as (E & Hne & Hin). destruct (test mgr0 _); [|by auto].
  rewrite E at 1. apply shrinks_stem; [done|].
  apply (table_short_get _ sufs3); [vm_compute; done|done].
Qed.

Lemma shrinks_prefix stem suf : stem ≠ [] → shrinks (stem ++ suf) stem.
Proof. intros H. rewrite <- (app_nil_r stem) at 2. apply shrinks_stem; [done|simpl; lia]. Qed.

Lemma re2_4_exec w m :
  exec re2_4 w = Some m →
  w = (capture_str m 1 ++ capture_str m 2) ++ js "ion" ∧ capture_str m 1 ≠ [].
Proof.
  intros (stem & suf & st & -> & Hne & H & _ & Hc & _)%stem_exec.
  apply run_seq in H as (st1 & (st2 & H2 & ->)%run_group & H).
  apply run_seq in H as (st3 & (st4 & (s & E & ->)%(run_lit_units (js "ion")) & ->)%run_group & H).
  apply run_eol in H as [E' ->]. simpl in E, E', Hc.
  destruct (run_forward _ _ _ H2) as [u Hu].
  pose proof (run_caps (alts [lit "s"; lit "t"]) _ st2 eq_refl H2) as Hcaps. simpl in Hcaps.
  rewrite (steps_by_consumed _ _ _ Hu) in Hc. rewrite Hcaps in Hc.
  destruct Hu as [Hu _]. simpl in Hu. rewrite E in E', Hu. simpl in E'. rewrite drop_0 in E'.
  subst s. unfold capture_str, capture. rewrite Hc, Hu. simpl.
  rewrite (lookup_insert_ne _ 3 1), (lookup_insert_ne _ 3 2), lookup_insert_eq,
    lookup_insert_ne, lookup_singleton_eq by done. simpl.
  by rewrite <- (assoc_L (++)).
Qed.

Lemma step4_shrinks w : w ≠ [] → shrinks w (step4 w).
Proof.
  intros Hw. unfold step4. destruct (exec (suffix_re sufs4) w) as [fp|] eqn:E.
  - apply suffix_exec in E as (E & Hne & _). destruct (test mgr1 _); [|by auto].
    rewrite E at 1. by apply shrinks_prefix.
  - destruct (exec re2_4 w) as [fp|] eqn:E2; [|by auto].
    apply re2_4_exec in E2 as [E2 Hne]. destruct (test mgr1 _); [|by auto].
    rewrite E2 at 1. apply shrinks_prefix. by intros [? ?]%app_eq_nil.
Qed.

Lemma step5_shrinks w : w ≠ [] → shrinks w (step5 w).
Proof.
  intros Hw. unfold step5. set (w1 := step5_e w).
  assert (H1 : shrinks w w1).
  { subst w1. unfold step5_e. destruct (exec re_5 w) as [fp|] eqn:E; [|by auto].
    apply (lit_exec (js "e")) in E as [E Hne]. case_match; [|by auto].
    rewrite E at 1. by apply shrinks_prefix. }
  destruct (test ll_end w1) eqn:E; simpl; [|done].
  destruct (test mgr1 w1); simpl; [|done].
  apply (shrinks_trans _ w1); [done|]. by apply drop_last_shrinks, ll_end_length.
Qed.

Lemma stem_steps_shrinks w : w ≠ [] → shrinks w (stem_steps w).
Proof.
  intros Hw. unfold stem_steps.
  assert (Hstep : ∀ (f : jsstr → jsstr) v, (∀ u, u ≠ [] → shrinks u (f u)) →
    shrinks w v → shrinks w (f v)) by eauto using shrinks_trans.
  repeat first [ apply step5_shrinks | apply Hstep; [intros; eauto using
    step1a_shrinks, step1b_shrinks, step1c_shrinks, step2_shrinks, step3_shrinks,
    step4_shrinks, step5_shrinks|] ]; auto.
Qed.

Lemma stemWord_shrinks w : w ≠ [] → shrinks w (stemWord w).
Proof.
  intros Hw. unfold stemWord. destruct (length w <? 3); [by auto|].
  destruct w as [|x w]; [done|].
  assert (Hsub : ∀ v : jsstr, substr_from v 1 = drop 1 v).
  { intros v. unfold substr_from, rel_index, zlen. simpl.
    destruct v as [|y v]; [done|]. f_equal. simpl length. lia. }
  assert (Hfst : substr (x :: w) 0 1 = [x]).
  { unfold substr, rel_index, zlen. simpl length. rewrite Z.min_l by lia. done. }
  rewrite Hfst. unfold str_eqb. case_bool_decide as Hy.
  - assert (Hx : x = 121%N) by (vm_compute in Hy; congruence). subst x.
    rewrite !Hsub. change (drop 1 (121%N :: w)) with w.
    change (shrinks (121%N :: w) (121%N :: drop 1 (stem_steps (89%N :: w)))).
    destruct (stem_steps_shrinks (89%N :: w)) as (x & t & t' & [= <- <-] & -> & Hl); [done|].
    simpl. rewrite drop_0. by exists 121%N, w, t'.
  - by apply stem_steps_shrinks.
Qed.

(** ** The measure patterns, as scans

    [sub_seq ps w]: [w] contains units satisfying the classes [ps], in this
    order.  The measure patterns of the stemmer decide exactly such scans:
    Porter's [m > 0] is "a vowel, then a consonant". *)

Fixpoint sub_seq (ps : list (N → bool)) (w : jsstr) : bool :=
  match ps, w with
  | [], _ => true
  | _, [] => false
  | p :: ps', c :: w' => if p c then sub_seq ps' w' else sub_seq ps w'
  end.

Lemma sub_seq_nil w : sub_seq [] w = true.
Proof. by destruct w. Qed.
#[local] Hint Resolve sub_seq_nil : core.

(** The scan stops at the first unit of each class. *)
Lemma sub_seq_inv p ps w :
  sub_seq (p :: ps) w = true →
  ∃ a x w', w = a ++ x :: w' ∧ Forall (λ c, p c = false) a ∧ p x = true ∧ sub_seq ps w' = true.
Proof.
  induction w as [|c w IH]; simpl; [done|]. destruct (p c) eqn:Hc.
  - intros H. by exists [], c, w.
  - intros (a & x & w' & -> & Ha & Hx & Hw)%IH. exists (c :: a), x, w'.
    split; [done|]. by split; [constructor|].
Qed.

Lemma sub_seq_app ps a w : sub_seq ps w = true → sub_seq ps (a ++ w) = true.
Proof.
  revert a w. induction ps as [|p ps IH]; intros a w H; [by destruct (a ++ w)|].
  apply sub_seq_inv in H as (b & x & w' & -> & _ & Hx & Hw).
  rewrite (assoc_L (++)). generalize (a ++ b). clear a b. intros a.
  induction a as [|c a IHa]; simpl.
  - by rewrite Hx.
  - destruct (p c); [|done]. replace (a ++ x :: w') with ((a ++ [x]) ++ w').
    + by apply IH.
    + by rewrite <- (assoc_L (++)).
Qed.

Lemma sub_seq_intro p ps a x w :
  p x = true → sub_seq ps w = true → sub_seq (p :: ps) (a ++ x :: w) = true.
Proof. intros Hx Hw. apply (sub_seq_app (p :: ps)). simpl. by rewrite Hx. Qed.

(** A block is a unit of one class followed by units of another. *)
Lemma run_block p q st st' :
  st' ∈ run (RSeq (RSet p) (star (RSet q))) st ↔
  ∃ x u s, m_rest st = x :: u ++ s ∧ p x = true ∧ Forall (λ c, q c = true) u ∧
    st' = advance (S (length u)) st.
Proof.
  unfold star. rewrite run_seq. setoid_rewrite run_set. setoid_rewrite run_star_set. split.
  - intros (st1 & (x & s & E & Hx & ->) & u & s' & E' & Hu & ->). simpl in E'.
    rewrite E in E'. simpl in E'. rewrite drop_0 in E'. subst s. rewrite advance_advance.
    by exists x, u, s'.
  - intros (x & u & s & E & Hx & Hu & ->). eexists. split; [eauto|].
    exists u, s. simpl. rewrite E, advance_advance. simpl. by rewrite drop_0.
Qed.

Lemma run_opt_block n p q st st' :
  st' ∈ run (opt (RGroup n (RSeq (RSet p) (star (RSet q))))) st →
  ∃ u, m_rest st = u ++ m_rest st'.
Proof. intros [u [H _]]%run_forward. eauto. Qed.

(** The optional block in front of the first unit outside [q]. *)
Lemma run_opt_block_intro p q a x s :
  (∀ c, q c = true → p c = true) → Forall (λ c, q c = true) a →
  ∃ st, st ∈ run (opt (RGroup 1 (RSeq (RSet p) (star (RSet q))))) (MState 0 (a ++ x :: s) ∅) ∧
    m_rest st = x :: s.
Proof.
  intros Hpq Ha. unfold opt. destruct a as [|y a].
  - eexists. split; [by apply run_opt_mono; left|done].
  - inversion Ha; subst. eexists. split.
    + apply run_opt_mono. right. split; [|apply run_group; eexists; split; [|done]].
      2: { apply run_block. exists y, a, (x :: s). eauto. }
      done.
    + simpl. by rewrite drop_app_length.
Qed.

Lemma vowel_split c : v_cls c = negb (ncls "aeiouy" c).
Proof. unfold v_cls, ncls. by rewrite negb_involutive. Qed.
Lemma cons_of_strict c : ncls "aeiouy" c = true → c_cls c = true.
Proof.
  unfold c_cls, ncls, cls. rewrite !negb_true_iff, !existsb_false.
  intros H x Hx. apply H. revert Hx. clear. vm_compute js. set_solver.
Qed.

(** The shape shared by the measure patterns: an optional consonant block,
    then the rest [T] of the pattern from the first vowel on. *)
Lemma test_measure T ps w :
  (∀ st, (∃ st', st' ∈ run T st) → sub_seq (v_cls :: ps) (m_rest st) = true) →
  (∀ st x s, m_rest st = x :: s → v_cls x = true → sub_seq ps s = true →
    ∃ st', st' ∈ run T st) →
  test (RSeq RBol (RSeq (opt (RGroup 1 C_re)) T)) w = sub_seq (v_cls :: ps) w.
Proof.
  intros Hfwd Hbwd. apply eq_bool_prop_intro. rewrite !Is_true_true, test_bol_spec. split.
  - intros (st' & (st1 & H1 & H2)%run_seq). apply run_opt_block in H1 as [u Hu].
    simpl in Hu. rewrite Hu. apply sub_seq_app, Hfwd. eauto.
  - intros (a & x & s & -> & Ha & Hx & Hs)%sub_seq_inv.
    destruct (run_opt_block_intro c_cls (ncls "aeiouy") a x s) as (st & Hst & Er).
    + apply cons_of_strict.
    + eapply Forall_impl; [done|]. intros c. simpl. rewrite vowel_split.
      by rewrite negb_false_iff.
    + destruct (Hbwd st x s) as [st' H']; [done..|].
      exists st'. apply run_seq. eauto.
Qed.

(** The vowel block followed by a consonant. *)
Lemma run_V_then T p ps st :
  (∃ st', st' ∈ run (RSeq V_re T) st) →
  (∀ st1, (∃ st', st' ∈ run T st1) → sub_seq (p :: ps) (m_rest st1) = true) →
  sub_seq (v_cls :: p :: ps) (m_rest st) = true.
Proof.
  intros (st' & (st1 & (x & u & s & E & Hx & _ & ->)%run_block & H)%run_seq) HT.
  rewrite E. apply (sub_seq_intro v_cls (p :: ps) [] x); [done|]. apply sub_seq_app.
  assert (Hs : sub_seq (p :: ps) (m_rest (advance (S (length u)) st)) = true) by eauto.
  simpl m_rest in Hs. rewrite E in Hs. simpl drop in Hs. by rewrite drop_app_length in Hs.
Qed.

Lemma run_C_then T p ps st :
  (∃ st', st' ∈ run (RSeq C_re T) st) →
  (∀ st1, (∃ st', st' ∈ run T st1) → sub_seq (p :: ps) (m_rest st1) = true) →
  sub_seq (c_cls :: p :: ps) (m_rest st) = true.
Proof.
  intros (st' & (st1 & (x & u & s & E & Hx & _ & ->)%run_block & H)%run_seq) HT.
  rewrite E. apply (sub_seq_intro c_cls (p :: ps) [] x); [done|]. apply sub_seq_app.
  assert (Hs : sub_seq (p :: ps) (m_rest (advance (S (length u)) st)) = true) by eauto.
  simpl m_rest in Hs. rewrite E in Hs. simpl drop in Hs. by rewrite drop_app_length in Hs.
Qed.

Lemma run_C_last st : (∃ st', st' ∈ run C_re st) → sub_seq [c_cls] (m_rest st) = true.
Proof.
  intros (st' & (x & u & s & E & Hx & _ & ->)%run_block). rewrite E.
  apply (sub_seq_intro c_cls [] []); auto.
Qed.

(** The other direction: the block that reaches the next unit of the scan. *)
Lemma run_V_reach st x a y s :
  m_rest st = x :: a ++ y :: s → v_cls x = true → Forall (λ c, c_cls c = false) a →
  ∃ st1, st1 ∈ run V_re st ∧ m_rest st1 = y :: s.
Proof.
  intros E Hx Ha. eexists. split.
  - apply run_block. exists x, a, (y :: s). split; [done|]. split; [done|]. split; [|done].
    eapply Forall_impl; [done|]. intros c. simpl. unfold c_cls, ncls. by rewrite negb_false_iff.
  - simpl. rewrite E. simpl. apply drop_app_length.
Qed.

Lemma run_C_reach st x a y s :
  m_rest st = x :: a ++ y :: s → c_cls x = true → Forall (λ c, v_cls c = false) a →
  ∃ st1, st1 ∈ run C_re st ∧ m_rest st1 = y :: s.
Proof.
  intros E Hx Ha. eexists. split.
  - apply run_block. exists x, a, (y :: s). split; [done|]. split; [done|]. split; [|done].
    eapply Forall_impl; [done|]. intros c. simpl. rewrite vowel_split. by rewrite negb_false_iff.
  - simpl. rewrite E. simpl. apply drop_app_length.
Qed.

Lemma run_C_start st x s : m_rest st = x :: s → c_cls x = true → ∃ st1, st1 ∈ run C_re st.
Proof.
  intros E Hx. eexists. apply run_block. exists x, [], s. by repeat (split; [done|]).
Qed.

Lemma mgr0_scan w : test mgr0 w = sub_seq [v_cls; c_cls] w.
Proof.
  apply (test_measure (RSeq V_re C_re)).
  - intros st H. eapply run_V_then; [done|]. apply run_C_last.
  - intros st x s E Hx (a & y & t & -> & Ha & Hy & _)%sub_seq_inv.
    destruct (run_V_reach st x a y t) as (st1 & H1 & E1); [done..|].
    destruct (run_C_start st1 y t) as (st2 & H2); [done..|].
    exists st2. apply run_seq. eauto.
Qed.

Lemma mgr1_scan w : test mgr1 w = sub_seq [v_cls; c_cls; v_cls; c_cls] w.
Proof.
  apply (test_measure (RSeq V_re (RSeq C_re (RSeq V_re C_re)))).
  - intros st H. eapply run_V_then; [done|]. intros st1 H1. eapply run_C_then; [done|].
    intros st2 H2. eapply run_V_then; [done|]. apply run_C_last.
  - intros st x s E Hx (a & y & t & -> & Ha & Hy & Ht)%sub_seq_inv.
    apply sub_seq_inv in Ht as (b & z & t' & -> & Hb & Hz & Ht).
    apply sub_seq_inv in Ht as (d & e & t'' & -> & Hd & He & _).
    destruct (run_V_reach st x a y (b ++ z :: d ++ e :: t'')) as (st1 & H1 & E1); [done..|].
    destruct (run_C_reach st1 y b z (d ++ e :: t'')) as (st2 & H2 & E2); [done..|].
    destruct (run_V_reach st2 z d e t'') as (st3 & H3 & E3); [done..|].
    destruct (run_C_start st3 e t'') as (st4 & H4); [done..|].
    exists st4. repeat (apply run_seq; eexists; split; [done|]). done.
Qed.

Lemma s_v_scan w : test s_v w = sub_seq [v_cls] w.
Proof.
  apply (test_measure (RSet v_cls)).
  - intros st (st' & (x & s & E & Hx & ->)%run_set). rewrite E.
    apply (sub_seq_intro v_cls [] []); auto.
  - intros st x s E Hx _. eexists. apply run_set. eauto.
Qed.

(** ** The suffix that a pattern captures is the longest one *)

Lemma stem_group_sorted st : StronglySorted pos_lt (run stem_group st).
Proof.
  assert (Hf : ∀ l, StronglySorted pos_lt l →
    StronglySorted pos_lt ((λ st', set_cap 1 (consumed st st') st') <$> l)).
  { induction 1 as [|y l Hl IH Hy]; [constructor|]. simpl. constructor; [done|].
    apply Forall_fmap. eapply Forall_impl; [done|]. done. }
  assert (Hd : run dot st = [] ∨ run dot st = [advance 1 st]).
  { simpl. destruct (m_rest st) as [|c s]; [by left|]. destruct (negb _); auto. }
  change (run stem_group st) with
    ((λ st', set_cap 1 (consumed st st') st') <$> (run dot st ≫= run (RStar false dot))).
  apply Hf. destruct Hd as [-> | ->]; [constructor|].
  cbn [mbind list_bind]. rewrite app_nil_r. apply lazy_star_sorted.
Qed.

Lemma suffix_exec_longest sufs stem suf :
  stem ≠ [] → Forall (λ c, is_line_term c = false) stem → suf ∈ sufs →
  (∀ stem' suf', stem ++ suf = stem' ++ suf' → stem' ≠ [] → suf' ∈ sufs →
    length suf' ≤ length suf) →
  ∃ m, exec (suffix_re sufs) (stem ++ suf) = Some m ∧
    capture_str m 1 = stem ∧ capture_str m 2 = suf.
Proof.
  intros Hne Hlt Hin Hmax. set (w := stem ++ suf).
  set (T := RSeq (RGroup 2 (alts (lit_units <$> sufs))) REol).
  assert (Hst : MState (length stem) suf {[1 := stem]} ∈ run stem_group (MState 0 w ∅)).
  { apply stem_group_run. by exists stem, suf. }
  assert (HT : run T (MState (length stem) suf {[1 := stem]}) ≠ []).
  { intros HT. eapply not_elem_of_nil. rewrite <- HT. by apply run_group_lits_eol. }
  destruct (exec (suffix_re sufs) w) as [m|] eqn:E.
  2: { unfold exec in E. rewrite search_from_None in E. specialize (E 0 ltac:(lia)).
    rewrite drop_0 in E. destruct (run T _) as [|st' l] eqn:ET; [done|].
    exfalso. apply (not_elem_of_nil st'). rewrite <- E. apply run_seq. eexists. split; [by apply run_bol|].
    apply run_seq. eexists. split; [exact Hst|]. fold T. rewrite ET. by left. }
  exists m. split; [done|]. pose proof E as E'.
  apply search_from_Some in E as (k & _ & (st' & Hh & [= <-])%bind_Some & _).
  assert (k = 0) as ->.
  { apply head_Some in Hh as [l Hl]. assert (H : st' ∈ run (suffix_re sufs) (MState (0 + k) (drop k w) ∅)).
    { rewrite Hl. by left. }
    by apply run_seq in H as (? & [? _]%run_bol & _). }
  rewrite drop_0 in Hh. change (run (suffix_re sufs) (MState (0 + 0) w ∅)) with
    ([MState 0 w ∅] ≫= run (RSeq stem_group T)) in Hh.
  cbn [mbind list_bind] in Hh. rewrite app_nil_r in Hh.
  change (run (RSeq stem_group T) (MState 0 w ∅)) with
    (run stem_group (MState 0 w ∅) ≫= run T) in Hh.
  apply (head_bind_sorted pos_lt) in Hh as (st1 & Hst1 & Hh & Hz); [|apply stem_group_sorted].
  apply stem_group_run in Hst1 as (stem' & suf' & Ew & Hne' & _ & ->).
  apply head_Some in Hh as [l Hl].
  assert (Hst' : st' ∈ run T (MState (length stem') suf' {[1 := stem']})) by (rewrite Hl; by left).
  apply run_group_lits_eol in Hst' as [Hin' ->]. simpl in *.
  assert (Hle : length suf' ≤ length suf) by (by apply (Hmax stem')).
  assert (length stem' ≤ length stem).
  { destruct (Hz _ Hst HT) as [Hs|Hs]; [by inversion Hs; lia|unfold pos_lt in Hs; simpl in Hs; lia]. }
  assert (length suf' = length suf).
  { apply (f_equal length) in Ew. unfold w in Ew. rewrite !length_app in Ew. lia. }
  apply app_inj_2 in Ew as [<- <-]; [|done].
  unfold capture_str, capture. simpl.
  by rewrite lookup_insert_eq, lookup_insert_ne, lookup_singleton_eq.
Qed.

(** ** The properties of the stemmer *)

(** C39: [stemWord] never makes a word longer and keeps its first unit, so the
    stem of a word is never empty. *)
Theorem stemWord_bounds w : head (stemWord w) = head w ∧ length (stemWord w) ≤ length w.
Proof.
  destruct w as [|x w]; [done|]. assert (H : shrinks (x :: w) (stemWord (x :: w))).
  { by apply stemWord_shrinks. }
  split; [by apply shrinks_head|by apply shrinks_length].
Qed.

(** The patterns [mgr0], [mgr1] and [s_v], run by backtracking, decide the
    linear scans "vowel, then consonant" (measure above 0), "vowel, consonant,
    vowel, consonant" (measure above 1) and "has a vowel". *)
Theorem measure_patterns_scan w :
  test mgr0 w = sub_seq [v_cls; c_cls] w ∧
  test mgr1 w = sub_seq [v_cls; c_cls; v_cls; c_cls] w ∧
  test s_v w = sub_seq [v_cls] w.
Proof. auto using mgr0_scan, mgr1_scan, s_v_scan. Qed.

(** Step 2 rewrites the longest of its suffixes that leaves a stem, by the
    table [step2list], exactly when the stem has a positive measure. *)
Theorem step2_longest stem suf :
  stem ≠ [] → Forall (λ c, is_line_term c = false) stem → suf ∈ sufs2 →
  (∀ stem' suf', stem ++ suf = stem' ++ suf' → stem' ≠ [] → suf' ∈ sufs2 →
    length suf' ≤ length suf) →
  step2 (stem ++ suf) =
    if sub_seq [v_cls; c_cls] stem then stem ++ table_get step2list suf else stem ++ suf.
Proof.
  intros Hne Hlt Hin Hmax. unfold step2.
  destruct (suffix_exec_longest sufs2 stem suf) as (m & -> & H1 & H2); [done..|].
  by rewrite H1, H2, mgr0_scan.
Qed.

Lemma step2_longest_witness :
  step2 (js "relational") = js "relate".
Proof.
  change (js "relational") with (js "rel" ++ js "ational").
  rewrite (step2_longest (js "rel") (js "ational")).
  - vm_compute. reflexivity.
  - discriminate.
  - repeat constructor.
  - apply list_elem_of_In. vm_compute. tauto.
  - intros stem' suf' _ _ H. apply list_elem_of_In in H.
    assert (Hall : forallb (λ s, length s <=? 7) sufs2 = true) by (vm_compute; reflexivity).
    apply Nat.leb_le. exact (proj1 (forallb_forall _ _) Hall suf' H).
Defined.

End Stemmer.
