(* ===== verification/Uri.v ===== *)
(** * [encodeURIComponent] and [decodeURIComponent]

    The two functions of the language that doctools.js binds to [$.urlencode] and
    wraps in [$.urldecode]: percent-encoding of the UTF-8 form of a UTF-16
    string, with [URIError] on a lone surrogate and on malformed input. *)

From stdpp Require Import base tactics list strings numbers sets gmap.
From Stdlib Require Import NArith ZArith Zify Lia.
From S2P Require Import Prelude.
From S2P Require Import JsString.

Module Uri.
Local Open Scope N_scope.

(** Units that are not escaped: letters, digits and [-_.!~*'()]. *)
Definition unreserved (c : N) : bool :=
  ((65 <=? c) && (c <=? 90)) || ((97 <=? c) && (c <=? 122)) || ((48 <=? c) && (c <=? 57))
  || existsb (N.eqb c) [45; 95; 46; 33; 126; 42; 39; 40; 41].

Definition hex_digit (n : N) : N := if n <? 10 then 48 + n else 55 + n.
Definition hex_val (c : N) : option N :=
  if (48 <=? c) && (c <=? 57) then Some (c - 48)
  else if (65 <=? c) && (c <=? 70) then Some (c - 55)
  else if (97 <=? c) && (c <=? 102) then Some (c - 87)
  else None.

(** One octet, as [%XY]. *)
Definition pct (b : N) : jsstr := [37; hex_digit (b / 16); hex_digit (b mod 16)].

Definition utf8 (v : N) : list N :=
  if v <? 128 then [v]
  else if v <? 2048 then [192 + v / 64; 128 + v mod 64]
  else if v <? 65536 then [224 + v / 4096; 128 + (v / 64) mod 64; 128 + v mod 64]
  else [240 + v / 262144; 128 + (v / 4096) mod 64; 128 + (v / 64) mod 64; 128 + v mod 64].

Definition is_high (c : N) : bool := (55296 <=? c) && (c <=? 56319).
Definition is_low (c : N) : bool := (56320 <=? c) && (c <=? 57343).

(** The code points of a string; a lone surrogate is an error. *)
Fixpoint code_points (s : jsstr) : option (list N) :=
  match s with
  | [] => Some []
  | c :: s' =>
      if is_low c then None
      else if is_high c then
        match s' with
        | d :: s'' =>
            if is_low d
            then (λ vs, (c - 55296) * 1024 + (d - 56320) + 65536 :: vs) <$> code_points s''
            else None
        | [] => None
        end
      else (λ vs, c :: vs) <$> code_points s'
  end.

Definition encode_point (v : N) : jsstr :=
  if (v <? 128) && unreserved v then [v] else utf8 v ≫= pct.

Definition encodeURIComponent (s : jsstr) : outcome jsstr :=
  match code_points s with
  | Some vs => Ok (vs ≫= encode_point)
  | None => Throw URIError
  end.

(** ** Decoding *)

Definition octet (s : jsstr) : option (N * jsstr) :=
  match s with
  | 37 :: h :: l :: s' =>
      match hex_val h, hex_val l with
      | Some a, Some b => Some (16 * a + b, s')
      | _, _ => None
      end
  | _ => None
  end.

(** [n] continuation octets, added to the value read so far. *)
Fixpoint continuation (n : nat) (acc : N) (s : jsstr) : option (N * jsstr) :=
  match n with
  | O => Some (acc, s)
  | S n' =>
      match octet s with
      | Some (b, s') =>
          if (128 <=? b) && (b <? 192) then continuation n' (acc * 64 + (b - 128)) s' else None
      | None => None
      end
  end.

Definition is_scalar (v : N) : bool := negb ((55296 <=? v) && (v <=? 57343)) && (v <=? 1114111).

(** The code point whose first octet is [b]: overlong forms, surrogates and
    values beyond U+10FFFF are refused. *)
Definition check_point (lo : N) (p : option (N * jsstr)) : option (N * jsstr) :=
  match p with
  | Some (v, r) => if (lo <=? v) && is_scalar v then Some (v, r) else None
  | None => None
  end.
Definition decode_lead (b : N) (r : jsstr) : option (N * jsstr) :=
  if b <? 128 then Some (b, r)
  else if (192 <=? b) && (b <? 224) then check_point 128 (continuation 1 (b - 192) r)
  else if (224 <=? b) && (b <? 240) then check_point 2048 (continuation 2 (b - 224) r)
  else if (240 <=? b) && (b <? 248) then check_point 65536 (continuation 3 (b - 240) r)
  else None.

(** The code point at the front of the string, escaped or not. *)
Definition decode_point (s : jsstr) : option (N * jsstr) :=
  match s with
  | [] => None
  | c :: s' =>
      if negb (c =? 37) then Some (c, s') else
      match octet s with
      | None => None
      | Some (b, r) => decode_lead b r
      end
  end.

Definition to_units (v : N) : jsstr :=
  if v <? 65536 then [v]
  else [55296 + (v - 65536) / 1024; 56320 + (v - 65536) mod 1024].

(** Every round consumes a unit, so the length of the string is fuel enough. *)
Fixpoint decode_loop (fuel : nat) (s : jsstr) : outcome jsstr :=
  match s, fuel with
  | [], _ => Ok []
  | _, O => Throw URIError
  | _, S k =>
      match decode_point s with
      | Some (v, r) =>
          match decode_loop k r with
          | Ok t => Ok (to_units v ++ t)
          | Throw e => Throw e
          end
      | None => Throw URIError
      end
  end.
Definition decodeURIComponent (s : jsstr) : outcome jsstr := decode_loop (length s) s.

(** ** Decoding undoes encoding *)

Ltac Zify.zify_post_hook ::= Z.to_euclidean_division_equations.

Lemma hex_val_digit n : n < 16 → hex_val (hex_digit n) = Some n.
Proof.
  intros Hn. unfold hex_val, hex_digit. destruct (N.ltb_spec n 10) as [H|H].
  - rewrite (proj2 (N.leb_le 48 (48 + n))), (proj2 (N.leb_le (48 + n) 57)) by lia.
    simpl. f_equal. lia.
  - replace ((48 <=? 55 + n) && (55 + n <=? 57)) with false.
    2: { symmetry. apply andb_false_intro2, N.leb_gt. lia. }
    rewrite (proj2 (N.leb_le 65 (55 + n))), (proj2 (N.leb_le (55 + n) 70)) by lia.
    simpl. f_equal. lia.
Qed.

Lemma octet_pct b s : b < 256 → octet (pct b ++ s) = Some (b, s).
Proof.
  intros Hb. unfold pct. simpl. rewrite !hex_val_digit by lia. f_equal. f_equal. lia.
Qed.

Lemma continuation_pct n acc b s :
  b < 64 → continuation (S n) acc (pct (128 + b) ++ s) = continuation n (acc * 64 + b) s.
Proof.
  intros Hb. cbn [continuation]. rewrite octet_pct by lia.
  rewrite (proj2 (N.leb_le _ _)), (proj2 (N.ltb_lt _ _)) by lia. simpl.
  f_equal. lia.
Qed.

Lemma decode_point_pct b s : b < 256 → decode_point (pct b ++ s) = decode_lead b s.
Proof.
  intros Hb. change (decode_point (pct b ++ s)) with
    (match octet (pct b ++ s) with None => None | Some (b, r) => decode_lead b r end).
  by rewrite octet_pct.
Qed.

Ltac decide_ineq :=
  repeat match goal with
  | |- context [N.ltb ?a ?b] =>
      first [ rewrite (proj2 (N.ltb_lt a b)) by lia | rewrite (proj2 (N.ltb_ge a b)) by lia ]
  | |- context [N.leb ?a ?b] =>
      first [ rewrite (proj2 (N.leb_le a b)) by lia | rewrite (proj2 (N.leb_gt a b)) by lia ]
  end; cbn [andb negb].

Lemma decode_utf8 v s :
  is_scalar v = true → decode_point ((utf8 v ≫= pct) ++ s) = Some (v, s).
Proof.
  intros Hv. assert (Hmax : v ≤ 1114111).
  { unfold is_scalar in Hv. bools. by apply N.leb_le. }
  unfold utf8. destruct (N.ltb_spec v 128); [|destruct (N.ltb_spec v 2048);
    [|destruct (N.ltb_spec v 65536)]]; cbn [mbind list_bind]; rewrite ?app_nil_r;
    rewrite <- ?(assoc_L (++)), decode_point_pct by lia; unfold decode_lead; decide_ineq;
    [done|..]; rewrite !continuation_pct by lia; cbn [continuation check_point].
  - replace ((192 + v / 64 - 192) * 64 + v mod 64) with v by lia. rewrite Hv. by decide_ineq.
  - replace (((224 + v / 4096 - 224) * 64 + (v / 64) mod 64) * 64 + v mod 64) with v by lia.
    rewrite Hv. by decide_ineq.
  - replace ((((240 + v / 262144 - 240) * 64 + (v / 4096) mod 64) * 64 + (v / 64) mod 64) * 64
      + v mod 64) with v by lia. rewrite Hv. by decide_ineq.
Qed.

Lemma unreserved_not_pct v : unreserved v = true → (v =? 37) = false.
Proof. intros H. destruct (N.eqb_spec v 37) as [->|]; [vm_compute in H; done|done]. Qed.

Lemma decode_encode_point v s :
  is_scalar v = true → decode_point (encode_point v ++ s) = Some (v, s).
Proof.
  intros Hv. unfold encode_point. destruct (_ && _) eqn:E; [|by apply decode_utf8].
  bools. simpl. by rewrite unreserved_not_pct.
Qed.

Lemma code_points_units s vs :
  code_units s → code_points s = Some vs →
  Forall (λ v, is_scalar v = true) vs ∧ (vs ≫= to_units) = s.
Proof.
  unfold code_units. remember (length s) as n eqn:Hn. assert (Hle : (length s ≤ n)%nat) by lia.
  clear Hn. revert s vs Hle. induction n as [|n IH]; intros [|c s] vs Hle Hc; simpl;
    try (intros [= <-]; by split; [constructor|]); simpl in Hle; [lia|].
  apply Forall_cons in Hc as [Hc Hs]. destruct (is_low c) eqn:El; [done|].
  destruct (is_high c) eqn:Eh.
  - destruct s as [|d s]; [done|]. destruct (is_low d) eqn:Ed; [|done].
    apply Forall_cons in Hs as [Hd Hs]. simpl in Hle.
    intros (vs' & Hv & ->)%fmap_Some. destruct (IH s vs') as [H1 H2]; [lia|done|done|].
    unfold is_high, is_low in *. bools. rewrite ?N.leb_le in *. split.
    + constructor; [|done]. unfold is_scalar.
      rewrite (proj2 (N.leb_le _ 1114111)) by lia.
      rewrite (proj2 (N.leb_gt _ 57343)) by lia. by rewrite andb_false_r.
    + rewrite bind_cons, H2. unfold to_units. rewrite (proj2 (N.ltb_ge _ _)) by lia. simpl.
      f_equal; [lia|]. f_equal. lia.
  - intros (vs' & Hv & ->)%fmap_Some. destruct (IH s vs') as [H1 H2]; [lia|done|done|].
    unfold is_high, is_low in *. split.
    + constructor; [|done]. unfold is_scalar. rewrite (proj2 (N.leb_le _ 1114111)) by lia.
      rewrite andb_true_r, negb_true_iff, andb_false_iff.
      rewrite !andb_false_iff, !N.leb_gt in *. lia.
    + rewrite bind_cons, H2. unfold to_units. by rewrite (proj2 (N.ltb_lt _ _)) by lia.
Qed.

Lemma encode_point_ne v : encode_point v ≠ [].
Proof.
  unfold encode_point. destruct (_ && _); [done|]. unfold utf8.
  by repeat destruct (_ <? _).
Qed.

(** A text made of pieces that decode to one code point each. *)
Lemma decode_loop_pieces {A} (enc : A → jsstr) (val : A → N) (xs : list A) fuel :
  Forall (λ x, enc x ≠ [] ∧ ∀ s, decode_point (enc x ++ s) = Some (val x, s)) xs →
  (length (xs ≫= enc) ≤ fuel)%nat →
  decode_loop fuel (xs ≫= enc) = Ok (xs ≫= (λ x, to_units (val x))).
Proof.
  intros Hxs. revert fuel. induction Hxs as [|x xs [Hne Hd] Hxs IH]; intros fuel Hf.
  - by destruct fuel.
  - rewrite !bind_cons in *. rewrite length_app in Hf. specialize (Hd (xs ≫= enc)).
    assert (Hl : (0 < length (enc x))%nat) by (destruct (enc x); [done|simpl; lia]).
    destruct (enc x ++ (xs ≫= enc)) as [|c t] eqn:E; [by apply app_eq_nil in E as [E _]|].
    destruct fuel as [|fuel]; [lia|]. cbn [decode_loop]. rewrite Hd, IH by lia. done.
Qed.

Lemma decode_loop_encode vs fuel :
  Forall (λ v, is_scalar v = true) vs → (length (vs ≫= encode_point) ≤ fuel)%nat →
  decode_loop fuel (vs ≫= encode_point) = Ok (vs ≫= to_units).
Proof.
  intros Hvs Hf. apply (decode_loop_pieces encode_point (λ v, v)); [|done].
  eapply Forall_impl; [exact Hvs|]. intros v Hv. split; [apply encode_point_ne|].
  intros s. by apply decode_encode_point.
Qed.

(** [encodeURIComponent] leaves only ASCII units, none of which is a space, a
    plus or an ampersand. *)
Lemma encode_fails s : code_points s = None ↔ encodeURIComponent s = Throw URIError.
Proof. unfold encodeURIComponent. destruct (code_points s); split; done. Qed.

Lemma decode_encode s t :
  code_units s → encodeURIComponent s = Ok t → decodeURIComponent t = Ok s.
Proof.
  unfold encodeURIComponent, decodeURIComponent. intros Hs.
  destruct (code_points s) as [vs|] eqn:E; [|done]. intros [= <-].
  destruct (code_points_units s vs Hs E) as [Hv Hu]. by rewrite decode_loop_encode, Hu.
Qed.

End Uri.
