(* ===== verification/Dom.v ===== *)
(** * The document tree

    The part of the browser's document that the sources read and write: element
    nodes with a tag, class names and children, text nodes, and other nodes
    (comments), which have no children. *)

From stdpp Require Import base tactics list strings numbers sets gmap.
From Stdlib Require Import NArith ZArith Lia.
From S2P Require Import Prelude.
From S2P Require Import JsString.

Inductive node : Type :=
  | Text (nodeValue : jsstr)
  | Elem (tagName : jsstr) (classes : list jsstr) (childNodes : list node)
  | Other.

Section node_ind.
Variable P : node → Prop.
Hypothesis HText : ∀ s, P (Text s).
Hypothesis HElem : ∀ tag cs kids, Forall P kids → P (Elem tag cs kids).
Hypothesis HOther : P Other.

(** Induction with a hypothesis for every child. *)
Fixpoint node_nested_ind (n : node) : P n :=
  match n with
  | Text s => HText s
  | Elem tag cs kids =>
      HElem tag cs kids
        ((fix go (l : list node) : Forall P l :=
            match l with
            | [] => Forall_nil_2 P
            | n' :: l' => Forall_cons_2 P n' l' (node_nested_ind n') (go l')
            end) kids)
  | Other => HOther
  end.
End node_ind.

(** [textContent]. *)
Fixpoint text_content (n : node) : jsstr :=
  match n with
  | Text s => s
  | Elem _ _ kids => kids ≫= text_content
  | Other => []
  end.

(** The number of levels of a tree: the fuel of a recursion into children. *)
Fixpoint height (n : node) : nat :=
  match n with
  | Elem _ _ kids => S (foldr (λ k h, Nat.max (height k) h) 0 kids)
  | _ => 0
  end.

Lemma height_child k kids tag cs : k ∈ kids → height k < height (Elem tag cs kids).
Proof.
  simpl. induction kids as [|k' kids IH]; [set_solver|]. intros [->|H]%elem_of_cons; simpl; [lia|].
  specialize (IH H). lia.
Qed.

Lemma text_content_elem tag cs kids : text_content (Elem tag cs kids) = kids ≫= text_content.
Proof. reflexivity. Qed.
