(* ===== verification/Doctools.v ===== *)
(** * doctools.js: query parameters, highlighting, translations, navigation *)

From stdpp Require Import base tactics list strings numbers sets gmap.
From Stdlib Require Import NArith ZArith Lia.
From S2P Require Import Prelude.
From S2P Require Import JsString.
From S2P Require Import Regex.
From S2P Require Import JsNum.
From S2P Require Import JsArray.
From S2P Require Import Uri.
From S2P Require Import Dom.

Module Doc.

(** ** URL parameters *)

Definition plus_to_space (s : jsstr) : jsstr := replace_unit (chr "+") (chr " ") s.
Definition urldecode (x : jsstr) : outcome jsstr :=
  match Uri.decodeURIComponent x with
  | Ok s => Ok (plus_to_space s)
  | Throw e => Throw e
  end.
Definition urlencode : jsstr → outcome jsstr := Uri.encodeURIComponent.

(** The names every object literal inherits from [Object.prototype]: they are
    [in] it without having been assigned. *)
Definition object_prototype : list jsstr := js <$> [
  "constructor"; "toString"; "toLocaleString"; "valueOf"; "hasOwnProperty";
  "isPrototypeOf"; "propertyIsEnumerable"; "__proto__"; "__defineGetter__";
  "__defineSetter__"; "__lookupGetter__"; "__lookupSetter__" ]%string.
Definition inherited (k : jsstr) : bool := bool_decide (k ∈ object_prototype).

(** One round of the loop over [parts]; a missing value is [undefined], which
    [decodeURIComponent] reads as the text "undefined". *)
Definition query_part (result : list (jsstr * list jsstr)) (part : jsstr)
    : outcome (list (jsstr * list jsstr)) :=
  let tmp := take 2 (split_unit (chr "=") part) in
  match urldecode (default [] (tmp !! 0)) with
  | Throw e => Throw e
  | Ok key =>
      match urldecode (default (js "undefined") (tmp !! 1)) with
      | Throw e => Throw e
      | Ok value =>
          match obj_get key result with
          | Some vs => Ok (obj_set key (vs ++ [value]) result)
          | None =>
              if inherited key then Throw TypeError
              else Ok (obj_set key [value] result)
          end
      end
  end.

Fixpoint query_parts (parts : list jsstr) (result : list (jsstr * list jsstr))
    : outcome (list (jsstr * list jsstr)) :=
  match parts with
  | [] => Ok result
  | p :: ps =>
      match query_part result p with
      | Ok result' => query_parts ps result'
      | Throw e => Throw e
      end
  end.

Definition getQueryParameters (s : jsstr) : outcome (list (jsstr * list jsstr)) :=
  let parts := split_unit (chr "&") (substr_from s (indexOf s (js "?") + 1)) in
  query_parts parts [].

Example query_ex :
  getQueryParameters (js "?q=a%20b&x=1&q=c%2Bd&y") =
    Ok [(js "q", [js "a b"; js "c d"]); (js "x", [js "1"]); (js "y", [js "undefined"])].
Proof. vm_compute. reflexivity. Qed.

(** [split(/\s+/)]: the pieces between the runs of white space; an empty piece
    is kept at the ends only. *)
Definition split_ws (s : jsstr) : list jsstr :=
  match split_on is_space s with
  | [] => []
  | [w] => [w]
  | w :: ws =>
      w :: base.filter (λ v, v ≠ []) (removelast ws) ++ [List.last ws []]
  end.

(** ** Highlighting *)

Section highlight.
Context `{UnicodeCase}.
Variables (text className : jsstr).

(** The position of [text] in a text node whose parent has the given classes,
    when it is to be wrapped. *)
Definition hl_pos (parent_classes : list jsstr) (val : jsstr) : option nat :=
  match index_of (to_lower val) text with
  | Some pos => if bool_decide (className ∈ parent_classes) then None else Some pos
  | None => None
  end.

Definition hl_span (val : jsstr) (pos : nat) : node :=
  Elem (js "span") [className] [Text (substr val (Z.of_nat pos) (zlen text))].

(** [jQuery.each(node.childNodes, ...)]: the number of rounds is the length of
    the live list when the loop starts ([rounds]); wrapping a text node puts two
    more nodes behind it, which the next rounds visit. *)
Fixpoint hl_kids (highlight_elem : node → node) (parent_classes : list jsstr)
    (rounds : nat) (kids : list node) : list node :=
  match rounds, kids with
  | 0, _ => kids
  | _, [] => []
  | S r, Text val :: rest =>
      match hl_pos parent_classes val with
      | Some pos =>
          Text (substr val 0 (Z.of_nat pos)) ::
          hl_kids highlight_elem parent_classes r
            (hl_span val pos :: Text (substr_from val (Z.of_nat pos + zlen text)) :: rest)
      | None => Text val :: hl_kids highlight_elem parent_classes r rest
      end
  | S r, n :: rest => highlight_elem n :: hl_kids highlight_elem parent_classes r rest
  end.

Definition skipped_tag (tag : jsstr) : bool :=
  bool_decide (tag ∈ js <$> ["button"; "select"; "textarea"]%string).

(** [highlight(node)] on an element; [fuel] bounds the depth. *)
Fixpoint highlight (fuel : nat) (n : node) : node :=
  match fuel, n with
  | S k, Elem tag cs kids =>
      if skipped_tag tag then n
      else Elem tag cs (hl_kids (highlight k) cs (length kids) kids)
  | _, _ => n
  end.

Definition highlightText (n : node) : node := highlight (S (height n)) n.

(** ** The text of the document is never changed *)

Lemma substr_parts val pos :
  substr val 0 (Z.of_nat pos) ++ substr val (Z.of_nat pos) (zlen text) ++
  substr_from val (Z.of_nat pos + zlen text) = val.
Proof.
  unfold substr, substr_from, rel_index, zlen. simpl.
  destruct (Z.ltb_spec (Z.of_nat pos) 0); [lia|].
  destruct (Z.ltb_spec (Z.of_nat pos + Z.of_nat (length text)) 0); [lia|].
  rewrite !Nat2Z.id, Z.min_l by lia. simpl. rewrite drop_0.
  destruct (Nat.le_gt_cases pos (length val)) as [Hp|Hp].
  - rewrite (Z.min_l (Z.of_nat pos)), Nat2Z.id by lia.
    destruct (Nat.le_gt_cases (pos + length text) (length val)) as [Ht|Ht].
    + rewrite Z.min_l by lia. rewrite <- Nat2Z.inj_add, Nat2Z.id. apply take_drop_app3.
    + rewrite Z.min_r by lia. rewrite Nat2Z.id, (drop_ge val (length val)) by lia.
      rewrite app_nil_r, (take_ge (drop pos val)) by (rewrite length_drop; lia).
      apply take_drop.
  - rewrite (Z.min_r (Z.of_nat pos)), Z.min_r by lia. rewrite !Nat2Z.id.
    rewrite !drop_ge by lia. rewrite take_ge by lia. by rewrite take_nil, !app_nil_r.
Qed.

Lemma hl_kids_text f cs rounds kids :
  (∀ n, text_content (f n) = text_content n) →
  hl_kids f cs rounds kids ≫= text_content = kids ≫= text_content.
Proof.
  intros Hf. revert kids. induction rounds as [|r IH]; intros kids; [done|].
  destruct kids as [|[val|tag cs' ks|] rest]; [done|..].
  - cbn [hl_kids]. destruct (hl_pos cs val) as [pos|]; rewrite !bind_cons, IH.
    + rewrite !bind_cons. unfold hl_span. rewrite text_content_elem, !bind_cons.
      cbn [text_content mbind list_bind]. rewrite app_nil_r, !(assoc_L (++)).
      rewrite <- (assoc_L (++) (substr val 0 _)). by rewrite substr_parts.
    + done.
  - cbn [hl_kids]. by rewrite !bind_cons, Hf, IH.
  - cbn [hl_kids]. by rewrite !bind_cons, Hf, IH.
Qed.

Lemma highlight_text fuel n : text_content (highlight fuel n) = text_content n.
Proof.
  revert n. induction fuel as [|k IH]; intros [val|tag cs kids|]; try done.
  cbn [highlight]. destruct (skipped_tag tag); [done|].
  rewrite !text_content_elem. by apply hl_kids_text.
Qed.

(** More fuel than the depth of the tree changes nothing. *)
Lemma highlight_span fuel val pos : highlight fuel (hl_span val pos) = hl_span val pos.
Proof.
  destruct fuel as [|k]; [done|]. unfold hl_span. cbn [highlight].
  destruct (skipped_tag _); [done|]. f_equal. cbn [length hl_kids].
  unfold hl_pos. rewrite bool_decide_true by (by left). by destruct (index_of _ _).
Qed.

Lemma hl_kids_ext f g cs rounds kids :
  (∀ n, n ∈ kids → f n = g n) → (∀ val pos, f (hl_span val pos) = g (hl_span val pos)) →
  hl_kids f cs rounds kids = hl_kids g cs rounds kids.
Proof.
  intros Hfg Hs. assert (Hc : ∀ n, n ∈ kids ∨ (∃ v p, n = hl_span v p) ∨ (∃ v, n = Text v) →
    (∃ v, n = Text v) ∨ f n = g n) by naive_solver.
  assert (H0 : Forall (λ n, (∃ v, n = Text v) ∨ f n = g n) kids).
  { apply Forall_forall. intros n Hn. right. by apply Hfg. }
  clear Hc Hfg. revert kids H0. induction rounds as [|r IH]; intros kids Hk; [done|].
  destruct Hk as [|n rest Hn Hk]; [done|]. destruct n as [val|tag cs' ks|]; cbn [hl_kids].
  - destruct (hl_pos cs val) as [pos|]; f_equal; apply IH; [|done].
    constructor; [by right|]. constructor; [left; eauto|done].
  - f_equal; [by destruct Hn as [[? ?]|]|by apply IH].
  - f_equal; [by destruct Hn as [[? ?]|]|by apply IH].
Qed.

Lemma highlight_fuel n : ∀ k1 k2, height n < k1 → height n < k2 → highlight k1 n = highlight k2 n.
Proof.
  induction n as [val|tag cs kids IH|] using node_nested_ind; intros [|k1] [|k2] H1 H2;
    try lia; try done.
  cbn [highlight]. destruct (skipped_tag tag); [done|]. f_equal. apply hl_kids_ext.
  - intros n Hn. pose proof (height_child n kids tag cs Hn).
    rewrite Forall_forall in IH. apply IH; [done|lia|lia].
  - intros val pos. by rewrite !highlight_span.
Qed.
End highlight.

(** C38: highlighting a term never changes the text of the page: whatever the
    tree, the term and the case mapping, the text content stays the same. *)
Theorem highlightText_preserves_text `{UnicodeCase} (text className : jsstr) (n : node) :
  text_content (highlightText text className n) = text_content n.
Proof. apply highlight_text. Qed.

(** A text node in front of the last sibling hides it: after the wrap, the
    loop's captured length is used up by the new nodes, and the sibling (here any
    node at all) is left as it was, with its occurrences unmarked. *)
Theorem highlight_skips_sibling `{UnicodeCase} (text className tag : jsstr)
    (cs : list jsstr) (val : jsstr) (pos : nat) (sibling : node) :
  skipped_tag tag = false → hl_pos text className cs val = Some pos →
  highlightText text className (Elem tag cs [Text val; sibling]) =
    Elem tag cs [Text (substr val 0 (Z.of_nat pos)); hl_span text className val pos;
                 Text (substr_from val (Z.of_nat pos + zlen text)); sibling].
Proof.
  intros Ht Hp. unfold highlightText. cbn [highlight]. rewrite Ht. f_equal.
  cbn [length hl_kids]. rewrite Hp. f_equal.
  change (hl_kids text className (highlight text className (height (Elem tag cs [Text val; sibling])))
    cs 1 (hl_span text className val pos ::
      [Text (substr_from val (Z.of_nat pos + zlen text)); sibling])) with
    (highlight text className (height (Elem tag cs [Text val; sibling]))
       (hl_span text className val pos) ::
     [Text (substr_from val (Z.of_nat pos + zlen text)); sibling]).
  by rewrite highlight_span.
Qed.

Lemma highlight_skips_sibling_witness :
  @highlightText ascii_case (js "x") (js "hl") (Elem (js "p") [] [Text (js "axb"); Elem (js "b") [] [Text (js "x")]]) =
    Elem (js "p") [] [Text (js "a"); Elem (js "span") [js "hl"] [Text (js "x")]; Text (js "b");
                      Elem (js "b") [] [Text (js "x")]].
Proof.
  exact (@highlight_skips_sibling ascii_case (js "x") (js "hl") (js "p") [] (js "axb") 1
    (Elem (js "b") [] [Text (js "x")]) eq_refl eq_refl).
Defined.

(** ** Decoding undoes encoding, up to the plus signs *)

Lemma urldecode_urlencode s t :
  code_units s → urlencode s = Ok t → urldecode t = Ok (plus_to_space s).
Proof. intros Hs Ht. unfold urldecode. by rewrite (Uri.decode_encode s t Hs Ht). Qed.

(** [$.urldecode] inverts [$.urlencode] exactly on the strings without a plus
    sign: an encoded plus is decoded to a plus and then replaced by a space. *)
Theorem urldecode_inverts_iff (s t : jsstr) :
  code_units s → urlencode s = Ok t → (urldecode t = Ok s ↔ chr "+" ∉ s).
Proof.
  intros Hs Ht. rewrite (urldecode_urlencode s t Hs Ht). split.
  - intros [= E] Hin. rewrite <- E in Hin. revert Hin.
    by apply replace_unit_gone.
  - intros Hin. f_equal. by apply replace_unit_absent.
Qed.

Lemma urldecode_inverts_iff_witness :
  urldecode (js "a%2Bb") = Ok (js "a+b") ↔ chr "+" ∉ js "a+b".
Proof.
  apply (urldecode_inverts_iff (js "a+b") (js "a%2Bb")).
  - apply Forall_forall. intros c Hc. apply list_elem_of_In in Hc. simpl in Hc.
    decompose [or] Hc; subst; try done.
  - vm_compute. reflexivity.
Defined.

(** An encoded text holds none of the separators of a query string. *)
Definition query_safe (c : N) : bool :=
  negb (existsb (N.eqb c) (js "&=?+ ")).

Lemma hex_digit_safe n : (n < 16)%N → query_safe (Uri.hex_digit n) = true.
Proof.
  intros Hn. assert (Hall : forallb (λ k, query_safe (Uri.hex_digit (N.of_nat k))) (seq 0 16) = true)
    by (vm_compute; done).
  rewrite forallb_elem_of in Hall. specialize (Hall (N.to_nat n)).
  rewrite N2Nat.id in Hall. apply Hall, elem_of_seq. lia.
Qed.

Lemma unreserved_safe c : Uri.unreserved c = true → query_safe c = true.
Proof.
  intros H. unfold query_safe. apply negb_true_iff, existsb_false. intros d Hd.
  destruct (N.eqb_spec c d) as [->|]; [|done]. exfalso. revert Hd H.
  intros Hd. apply list_elem_of_In in Hd. simpl in Hd.
  decompose [or] Hd; subst; try done; vm_compute; done.
Qed.

Lemma utf8_octets v : Uri.is_scalar v = true → Forall (λ b, (b < 256)%N) (Uri.utf8 v).
Proof.
  intros Hv. assert (Hmax : (v ≤ 1114111)%N).
  { unfold Uri.is_scalar in Hv. bools. by apply N.leb_le. }
  unfold Uri.utf8. repeat match goal with |- context [N.ltb ?a ?b] => destruct (N.ltb_spec a b) end;
    repeat constructor; lia.
Qed.

Lemma encode_point_safe v :
  Uri.is_scalar v = true → Forall (λ c, query_safe c = true) (Uri.encode_point v).
Proof.
  intros Hv. unfold Uri.encode_point. destruct (_ && _) eqn:E.
  - bools. repeat constructor. by apply unreserved_safe.
  - induction (utf8_octets v Hv) as [|b l Hb Hl IH]; [constructor|].
    rewrite bind_cons. apply Forall_app. split; [|done]. repeat constructor; apply hex_digit_safe; lia.
Qed.

Lemma urlencode_safe s t :
  code_units s → urlencode s = Ok t → Forall (λ c, query_safe c = true) t.
Proof.
  unfold urlencode, Uri.encodeURIComponent. intros Hs. destruct (Uri.code_points s) as [vs|] eqn:E; [|done].
  intros [= <-]. destruct (Uri.code_points_units s vs Hs E) as [Hv _]. clear E.
  induction Hv as [|v vs Hv Hvs IH]; [constructor|].
  rewrite bind_cons. apply Forall_app. split; [by apply encode_point_safe|done].
Qed.

Lemma query_safe_not_in t d :
  Forall (λ c, query_safe c = true) t → query_safe d = false → d ∉ t.
Proof. intros Ht Hd Hin. rewrite Forall_forall in Ht. rewrite Ht in Hd; done. Qed.

(** A part of a query string that reads as a parameter: its two texts hold no
    separator and decode to the name and the value. *)
Definition reads_as (kv : jsstr * jsstr) (e : jsstr) : Prop :=
  ∃ ek ev, e = ek ++ chr "=" :: ev ∧
    ((chr "=" ∉ ek) ∧ (chr "&" ∉ ek)) ∧ ((chr "=" ∉ ev) ∧ (chr "&" ∉ ev)) ∧
    urldecode ek = Ok (plus_to_space kv.1) ∧ urldecode ev = Ok (plus_to_space kv.2).

Definition add_param (r : list (jsstr * list jsstr)) (kv : jsstr * jsstr) : list (jsstr * list jsstr) :=
  obj_set (plus_to_space kv.1) (default [] (obj_get (plus_to_space kv.1) r) ++ [plus_to_space kv.2]) r.

Lemma query_part_reads r kv e :
  reads_as kv e → inherited (plus_to_space kv.1) = false →
  query_part r e = Ok (add_param r kv).
Proof.
  intros (ek & ev & -> & [Hke _] & [Hve _] & Ek & Ev) Hi.
  unfold query_part. change (ek ++ chr "=" :: ev) with (join [chr "="] [ek; ev]).
  rewrite split_join_unit by (done || by repeat constructor). cbn [take lookup list_lookup default].
  simpl. rewrite Ek, Ev, Hi. unfold add_param. by destruct (obj_get _ r).
Qed.

Lemma query_parts_reads kvs es r :
  Forall2 reads_as kvs es → Forall (λ kv, inherited (plus_to_space kv.1) = false) kvs →
  query_parts es r = Ok (foldl add_param r kvs).
Proof.
  intros H. revert r. induction H as [|kv e kvs es He H IH]; intros r Hi; [done|].
  apply Forall_cons in Hi as [Hk Hi]. cbn [query_parts]. rewrite (query_part_reads r kv e) by done.
  by apply IH.
Qed.

Lemma foldl_add_param kvs k r :
  default [] (obj_get k (foldl add_param r kvs)) =
    default [] (obj_get k r) ++
    (snd <$> base.filter (λ kv, kv.1 = k) (prod_map plus_to_space plus_to_space <$> kvs)).
Proof.
  revert r. induction kvs as [|[k' v'] kvs IH]; intros r; simpl; [by rewrite app_nil_r|].
  rewrite IH. unfold add_param at 1. simpl. rewrite obj_get_set, filter_cons. simpl.
  destruct (decide (plus_to_space k' = k)) as [<-|Hne].
  - rewrite decide_True by done. simpl. by rewrite <- (assoc_L (++)).
  - by rewrite decide_False by done.
Qed.

(** Reading back a query string: every name gets the list of its values. *)
Lemma getQueryParameters_reads kvs es :
  kvs ≠ [] → Forall2 reads_as kvs es →
  Forall (λ kv, inherited (plus_to_space kv.1) = false) kvs →
  ∃ r, getQueryParameters (chr "?" :: join [chr "&"] es) = Ok r ∧
    ∀ k, default [] (obj_get k r) =
      snd <$> base.filter (λ kv, kv.1 = k) (prod_map plus_to_space plus_to_space <$> kvs).
Proof.
  intros Hne He Hi. exists (foldl add_param [] kvs). split; [|intros k; apply foldl_add_param].
  unfold getQueryParameters.
  replace (substr_from (chr "?" :: join [chr "&"] es)
    (indexOf (chr "?" :: join [chr "&"] es) (js "?") + 1)) with (join [chr "&"] es).
  - rewrite split_join_unit; [by apply query_parts_reads| |].
    + intros ->. by inversion He; subst.
    + clear Hne Hi. induction He as [|kv e kvs es H He IH]; constructor; [|done].
      destruct H as (ek & ev & -> & [_ Hk] & [_ Hv] & _).
      intros [H|[H|H]%elem_of_cons]%elem_of_app; [done|vm_compute in H; done|done].
  - unfold substr_from, rel_index, zlen, indexOf. simpl.
    rewrite Z.min_l by lia. done.
Qed.

(** The parts [$.urlencode] makes. *)
Definition encoded (kv : (jsstr * jsstr)) (e : jsstr) : Prop :=
  ∃ ek ev, code_units kv.1 ∧ code_units kv.2 ∧
    urlencode kv.1 = Ok ek ∧ urlencode kv.2 = Ok ev ∧ e = ek ++ chr "=" :: ev.

Lemma encoded_reads kv e : encoded kv e → reads_as kv e.
Proof.
  intros (ek & ev & Hk & Hv & Ek & Ev & ->). exists ek, ev.
  pose proof (urlencode_safe _ _ Hk Ek) as Sk. pose proof (urlencode_safe _ _ Hv Ev) as Sv.
  split; [done|]. split; [by split; eapply query_safe_not_in|].
  split; [by split; eapply query_safe_not_in|]. split; by apply urldecode_urlencode.
Qed.

(** Reading back the query string built from a list of encoded parameters
    gives every parameter the list of its values, in their order (a plus sign
    reads as a space), provided no name is inherited from [Object.prototype]. *)
Theorem getQueryParameters_roundtrip (kvs : list (jsstr * jsstr)) (es : list jsstr) :
  kvs ≠ [] → Forall2 encoded kvs es →
  Forall (λ kv, inherited (plus_to_space kv.1) = false) kvs →
  ∃ r, getQueryParameters (chr "?" :: join [chr "&"] es) = Ok r ∧
    ∀ k, default [] (obj_get k r) =
      snd <$> base.filter (λ kv, kv.1 = k) (prod_map plus_to_space plus_to_space <$> kvs).
Proof.
  intros Hne He. apply getQueryParameters_reads; [done|].
  eapply Forall2_impl; [exact He|apply encoded_reads].
Qed.

Lemma getQueryParameters_roundtrip_witness :
  ∃ r, getQueryParameters (js "?q=a%20b&q=c") = Ok r ∧
    ∀ k, default [] (obj_get k r) =
      snd <$> base.filter (λ kv, kv.1 = k) (prod_map plus_to_space plus_to_space <$>
        [(js "q", js "a b"); (js "q", js "c")]).
Proof.
  apply (getQueryParameters_roundtrip [(js "q", js "a b"); (js "q", js "c")]
           [js "q=a%20b"; js "q=c"]).
  - discriminate.
  - constructor; [|constructor; [|constructor]].
    + exists (js "q"), (js "a%20b"). split_and!; try reflexivity; repeat constructor.
    + exists (js "q"), (js "c"). split_and!; try reflexivity; repeat constructor.
  - repeat constructor.
Defined.

(** a parameter named like a property of [Object.prototype] makes the whole
    page script fail: [key in result] holds although nothing was stored. *)
Theorem getQueryParameters_inherited (name : jsstr) :
  name ∈ object_prototype →
  getQueryParameters (chr "?" :: name ++ js "=1") = Throw TypeError.
Proof.
  intros H. apply list_elem_of_In in H. simpl in H.
  repeat (destruct H as [<-|H]; [vm_compute; reflexivity|]). done.
Qed.

Lemma getQueryParameters_inherited_witness :
  getQueryParameters (js "?toString=1") = Throw TypeError.
Proof.
  apply (getQueryParameters_inherited (js "toString")).
  apply list_elem_of_In. vm_compute. tauto.
Defined.

(** ** Translations *)

Inductive translation : Type :=
  | TrStr (s : jsstr)
  | TrArr (l : list jsstr).

Record i18n := I18n {
  TRANSLATIONS : list (jsstr * translation);
  PLURAL_EXPR : Z → nat;
  LOCALE : jsstr;
}.

Definition default_i18n : i18n := I18n [] (λ n, if Z.eqb n 1 then 0 else 1) (js "unknown").

(** [gettext]; [None] is [undefined] (an empty list of forms, or a name inherited
    from [Object.prototype], which is an object without a property 0). *)
Definition gettext (d : i18n) (string : jsstr) : option jsstr :=
  match obj_get string (TRANSLATIONS d) with
  | None => if inherited string then None else Some string
  | Some (TrStr s) => Some s
  | Some (TrArr l) => head l
  end.

(** [ngettext] reads [Documentation.PLURALEXPR], a name no code defines (the
    function is [PLURAL_EXPR]): calling it throws. *)
Definition ngettext (d : i18n) (singular plural : jsstr) (n : Z) : outcome jsstr :=
  match obj_get singular (TRANSLATIONS d) with
  | None =>
      if inherited singular then Throw TypeError
      else Ok (if Z.eqb n 1 then singular else plural)
  | Some _ => Throw TypeError
  end.

Record catalog := Catalog {
  messages : list (jsstr * translation);
  plural_expr : Z → nat;
  locale : jsstr;
}.

(** [addTranslations]: the catalog's expression is compiled by [new Function], so
    it comes as a function. *)
Definition addTranslations (c : catalog) (d : i18n) : i18n :=
  I18n (foldl (λ t m, obj_set m.1 m.2 t) (TRANSLATIONS d) (messages c))
       (plural_expr c) (locale c).

Lemma foldl_obj_set_get {B} (ms : list (jsstr * B)) k v t :
  NoDup ms.*1 → (k, v) ∈ ms → obj_get k (foldl (λ t m, obj_set m.1 m.2 t) t ms) = Some v.
Proof.
  revert t. induction ms as [|[k1 v1] ms IH]; intros t Hnd Hin; [by apply not_elem_of_nil in Hin|].
  apply NoDup_cons in Hnd as [Hn Hnd]. apply elem_of_cons in Hin as [[= -> ->]|Hin]; [|by apply IH].
  simpl. clear IH Hnd. assert (Hk : ∀ t, obj_get k1 t = Some v1 →
    obj_get k1 (foldl (λ t m, obj_set m.1 m.2 t) t ms) = Some v1).
  { clear t. induction ms as [|[k2 v2] ms IH]; intros t Ht; [done|]. simpl. apply IH.
    - simpl in Hn. set_solver.
    - rewrite obj_get_set, decide_False; [done|]. simpl in Hn. set_solver. }
  apply Hk. by rewrite obj_get_set, decide_True.
Qed.

(** Once a catalog is installed, every plural message it translates makes
    [ngettext] throw, while [gettext] returns the translation. *)
Theorem ngettext_translated_throws (c : catalog) (d : i18n) (k plural : jsstr) v n :
  NoDup (messages c).*1 → (k, v) ∈ messages c →
  ngettext (addTranslations c d) k plural n = Throw TypeError ∧
  gettext (addTranslations c d) k = match v with TrStr s => Some s | TrArr l => head l end.
Proof.
  intros Hnd Hin. unfold ngettext, gettext, addTranslations. simpl.
  rewrite (foldl_obj_set_get _ k v) by done. split; [done|]. by destruct v.
Qed.

Lemma ngettext_translated_throws_witness :
  let c := Catalog [(js "page", TrArr [js "Seite"; js "Seiten"])] (λ n, if Z.eqb n 1 then 0 else 1) (js "de") in
  ngettext (addTranslations c default_i18n) (js "page") (js "pages") 2 = Throw TypeError ∧
  gettext (addTranslations c default_i18n) (js "page") = Some (js "Seite").
Proof.
  refine (ngettext_translated_throws (Catalog [(js "page", TrArr [js "Seite"; js "Seiten"])]
    (λ n, if Z.eqb n 1 then 0 else 1) (js "de")) default_i18n (js "page") (js "pages")
    (TrArr [js "Seite"; js "Seiten"]) 2 _ _).
  - apply NoDup_singleton.
  - by left.
Defined.

(** ** Navigation *)

Definition makeURL (URL_ROOT relativeURL : jsstr) : jsstr := URL_ROOT ++ js "/" ++ relativeURL.

(** [getCurrentURL]: one part of the path is dropped for every ".." of the root. *)
Definition getCurrentURL (pathname URL_ROOT : jsstr) : jsstr :=
  let parts := split_unit (chr "/") pathname in
  let parts := foldl (λ ps r, if str_eqb r (js "..") then removelast ps else ps) parts
                 (split_unit (chr "/") URL_ROOT) in
  let url := join (js "/") parts in
  substring pathname (lastIndexOf_unit url (chr "/") + 1) (zlen pathname - 1).

(** The key handler: where the page goes, if anywhere.  The case of the left
    arrow has no [break], so it falls through to the right arrow's. *)
Definition keyup (activeElementType : jsstr) (keyCode : Z) (prevHref nextHref : option jsstr)
    : option jsstr :=
  let truthy (h : option jsstr) := match h with Some [] => None | _ => h end in
  if bool_decide (activeElementType ∈ js <$> ["TEXTAREA"; "INPUT"; "SELECT"]%string) then None
  else if Z.eqb keyCode 37 then
    match truthy prevHref with
    | Some h => Some h
    | None => truthy nextHref
    end
  else if Z.eqb keyCode 39 then truthy nextHref
  else None.

(** The image of a toggle button, plus or minus. *)
Definition toggle_src (src : jsstr) : jsstr :=
  if str_eqb (substr_from src (-9)) (js "minus.png")
  then substr src 0 (zlen src - 9) ++ js "plus.png"
  else substr src 0 (zlen src - 8) ++ js "minus.png".

Lemma substr_prefix (s t : jsstr) : substr (s ++ t) 0 (zlen (s ++ t) - zlen t) = s.
Proof.
  unfold substr, rel_index, zlen. simpl. rewrite Z.min_l by lia. simpl. rewrite drop_0, length_app.
  rewrite Nat2Z.inj_add, Z.add_simpl_r, Nat2Z.id. apply take_app_length.
Qed.

Lemma substr_suffix (s t : jsstr) : t ≠ [] → substr_from (s ++ t) (- zlen t) = t.
Proof.
  intros Ht. unfold substr_from, rel_index, zlen. rewrite length_app.
  destruct t as [|c t]; [done|]. destruct (Z.ltb_spec (- Z.of_nat (length (c :: t))) 0); [|simpl in *; lia].
  rewrite Z.max_l by lia. replace (Z.to_nat _) with (length s) by lia. apply drop_app_length.
Qed.

(** Clicking a toggle button twice restores its image. *)
Theorem toggle_src_involutive (base : jsstr) :
  toggle_src (toggle_src (base ++ js "minus.png")) = base ++ js "minus.png" ∧
  toggle_src (base ++ js "minus.png") = base ++ js "plus.png".
Proof.
  assert (H1 : toggle_src (base ++ js "minus.png") = base ++ js "plus.png").
  { unfold toggle_src. change (-9)%Z with (- zlen (js "minus.png"))%Z.
    rewrite substr_suffix by done. change 9%Z with (zlen (js "minus.png")).
    by rewrite substr_prefix. }
  rewrite H1. split; [|done]. unfold toggle_src.
  destruct (str_eqb_spec (substr_from (base ++ js "plus.png") (-9)) (js "minus.png")) as [E|_].
  - exfalso. unfold substr_from in E. apply (f_equal reverse) in E. revert E.
    unfold rel_index, zlen. rewrite length_app. simpl (length (js _)).
    destruct (Z.ltb_spec (-9) 0); [|lia].
    rewrite drop_app_le by lia. rewrite reverse_app. vm_compute (reverse (js _)). discriminate.
  - change 8%Z with (zlen (js "plus.png")). by rewrite substr_prefix.
Qed.

(** On a page without a "previous" link the left arrow key follows the "next"
    link, like the right arrow key. *)
Theorem keyup_left_falls_through (activeElementType : jsstr) (next : option jsstr) :
  keyup activeElementType 37 None next = keyup activeElementType 39 None next.
Proof. unfold keyup. by case_bool_decide. Qed.

(** ** Recognising the browser *)

Definition version_re (n : nat) : regex := RGroup n (plus (RSet (λ c, is_word c || N.eqb c 46))).
Definition sep_re : regex := RSet (λ c, N.eqb c 32 || N.eqb c 47).
Definition re_chrome : regex := seqs [RGroup 1 (lit "chrome"); sep_re; version_re 2].
Definition re_webkit : regex := seqs [RGroup 1 (lit "webkit"); sep_re; version_re 2].
Definition re_opera : regex :=
  seqs [RGroup 1 (lit "opera"); alts [seqs [star dot; lit "version"]; REmpty]; sep_re; version_re 2].
Definition re_msie : regex := seqs [RGroup 1 (lit "msie"); lit " "; version_re 2].
Definition re_mozilla : regex :=
  seqs [RGroup 1 (lit "mozilla");
        alts [seqs [RStar false dot; lit " rv:"; version_re 2]; REmpty]].

Definition uaMatch `{UnicodeCase} (ua : jsstr) : jsstr * jsstr :=
  let ua := to_lower ua in
  let found :=
    match exec re_chrome ua with Some m => Some m | None =>
    match exec re_webkit ua with Some m => Some m | None =>
    match exec re_opera ua with Some m => Some m | None =>
    match exec re_msie ua with Some m => Some m | None =>
      if (indexOf ua (js "compatible") <? 0)%Z then exec re_mozilla ua else None
    end end end end in
  match found with
  | Some m => (capture_str m 1, match capture_str m 2 with [] => js "0" | v => v end)
  | None => ([], js "0")
  end.

Example uaMatch_firefox :
  @uaMatch ascii_case (js "Mozilla/5.0 (X11; Linux; rv:60.0) Gecko/20100101 Firefox/60.0") =
    (js "mozilla", js "60.0").
Proof. vm_compute. reflexivity. Qed.

(** ** Highlighting the terms of the page's address *)

(** [highlightSearchWords] on the body: one pass per term. *)
Definition highlightSearchWords `{UnicodeCase} (params : list (jsstr * list jsstr)) (body : node) : node :=
  let terms := match obj_get (js "highlight") params with
               | Some (v :: _) => split_ws v
               | _ => []
               end in
  foldl (λ b term, highlightText (to_lower term) (js "highlighted") b) body terms.

Lemma highlightSearchWords_text `{UnicodeCase} params body :
  text_content (highlightSearchWords params body) = text_content body.
Proof.
  unfold highlightSearchWords. generalize (match obj_get (js "highlight") params with
    | Some (v :: _) => split_ws v | _ => [] end). intros terms. revert body.
  induction terms as [|t terms IH]; intros body; simpl; [done|].
  rewrite IH. apply highlight_text.
Qed.

(** [hideSearchWords]: the class is removed, the spans stay. *)
Fixpoint hideSearchWords (n : node) : node :=
  match n with
  | Elem tag cs kids =>
      Elem tag (if str_eqb tag (js "span") then base.filter (λ c, c ≠ js "highlighted") cs else cs)
        (hideSearchWords <$> kids)
  | _ => n
  end.

End Doc.
