(* ===== verification/UCollections.v ===== *)
(** * Collection functions of underscore.js

    A callback is a computation over the caller's store [S], so the order of
    the calls, the early exits and the exceptions are part of the model.  The
    test [obj.length === +obj.length] of the source separates the array-likes
    ([CArray]) from the other objects ([CObject], own properties in order). *)

From stdpp Require Import base tactics list numbers sets gmap sorting.
From Stdlib Require Import ZArith Sorted Permutation Lia.
From S2P Require Import Prelude.
From S2P Require Import JsString.
From S2P Require Import JsNum.
From S2P Require Import JsArray.

Inductive key : Type :=
  | KIdx (i : nat)
  | KName (s : jsstr).

Inductive coll (A : Type) : Type :=
  | CNull
  | CArray (l : list A)
  | CObject (ps : list (jsstr * A)).
Arguments CNull {A}.
Arguments CArray {A} l.
Arguments CObject {A} ps.

Module U.

(** [keys || obj]: what an index loop of the source visits, in order. *)
Definition entries {A} (obj : coll A) : list (A * key) :=
  match obj with
  | CNull => []
  | CArray l => imap (λ i v, (v, KIdx i)) l
  | CObject ps => (λ p : jsstr * A, (p.2, KName p.1)) <$> ps
  end.

(** [_.values]: the values of an object, the elements of an array. *)
Definition values {A} (obj : coll A) : list A :=
  match obj with
  | CNull => []
  | CArray l => l
  | CObject ps => ps.*2
  end.

Section monadic.
Context {S A : Type}.
Implicit Types obj : coll A.

Fixpoint each_loop (iteratee : A → key → M S unit) (es : list (A * key)) : M S unit :=
  match es with
  | [] => mret tt
  | (v, k) :: es' => iteratee v k ≫= λ _, each_loop iteratee es'
  end.
Definition each (obj : coll A) (iteratee : A → key → M S unit) : M S (coll A) :=
  match obj with
  | CNull => mret obj
  | _ => each_loop iteratee (entries obj) ≫= λ _, mret obj
  end.

Fixpoint map_loop {B} (iteratee : A → key → M S B) (es : list (A * key)) : M S (list B) :=
  match es with
  | [] => mret []
  | (v, k) :: es' =>
      iteratee v k ≫= λ b, map_loop iteratee es' ≫= λ bs, mret (b :: bs)
  end.
Definition map {B} (obj : coll A) (iteratee : A → key → M S B) : M S (list B) :=
  map_loop iteratee (entries obj).

Fixpoint reduce_loop {B} (iteratee : B → A → key → M S B) (es : list (A * key)) (memo : B)
    : M S B :=
  match es with
  | [] => mret memo
  | (v, k) :: es' => iteratee memo v k ≫= reduce_loop iteratee es'
  end.
Definition reduce {B} (obj : coll A) (iteratee : B → A → key → M S B) (memo : B) : M S B :=
  reduce_loop iteratee (entries obj) memo.
(** Without an initial value the first element is the memo. *)
Definition reduce1 (obj : coll A) (iteratee : A → A → key → M S A) : M S A :=
  match entries obj with
  | [] => throw TypeError
  | (v, _) :: es' => reduce_loop iteratee es' v
  end.

(** [while (index--)]: the entries from the last one down. *)
Definition reduceRight {B} (obj : coll A) (iteratee : B → A → key → M S B) (memo : B) : M S B :=
  reduce_loop iteratee (reverse (entries obj)) memo.
Definition reduceRight1 (obj : coll A) (iteratee : A → A → key → M S A) : M S A :=
  match reverse (entries obj) with
  | [] => throw TypeError
  | (v, _) :: es' => reduce_loop iteratee es' v
  end.

Fixpoint every_loop (predicate : A → key → M S bool) (es : list (A * key)) : M S bool :=
  match es with
  | [] => mret true
  | (v, k) :: es' =>
      predicate v k ≫= λ b : bool, if b then every_loop predicate es' else mret false
  end.
Definition every (obj : coll A) (predicate : A → key → M S bool) : M S bool :=
  match obj with
  | CNull => mret true
  | _ => every_loop predicate (entries obj)
  end.

Fixpoint some_loop (predicate : A → key → M S bool) (es : list (A * key)) : M S bool :=
  match es with
  | [] => mret false
  | (v, k) :: es' =>
      predicate v k ≫= λ b : bool, if b then mret true else some_loop predicate es'
  end.
Definition some (obj : coll A) (predicate : A → key → M S bool) : M S bool :=
  match obj with
  | CNull => mret false
  | _ => some_loop predicate (entries obj)
  end.

Definition negate (predicate : A → key → M S bool) : A → key → M S bool :=
  λ v k, predicate v k ≫= λ b : bool, mret (negb b).
End monadic.

(** The functions whose body assigns a closure variable from a callback. *)
Section closures.
Context {S A : Type}.
Implicit Types obj : coll A.

Definition find (obj : coll A) (predicate : A → key → M S bool) : M S (option A) :=
  with_local (L := option A) None (some (S := S * option A) obj (λ v k,
    outer (predicate v k) ≫= λ b : bool,
    if b then modify_local (λ _, Some v) ≫= λ _, mret true else mret false))
  ≫= λ r : _ * _, mret r.2.

Definition filter (obj : coll A) (predicate : A → key → M S bool) : M S (list A) :=
  with_local (L := list A) [] (each (S := S * list A) obj (λ v k,
    outer (predicate v k) ≫= λ b : bool,
    if b then modify_local (λ results, results ++ [v]) else mret tt))
  ≫= λ r : _ * _, mret r.2.

Definition reject (obj : coll A) (predicate : A → key → M S bool) : M S (list A) :=
  filter obj (negate predicate).

Definition partition (obj : coll A) (predicate : A → key → M S bool)
    : M S (list A * list A) :=
  with_local (L := list A * list A) ([], []) (each (S := S * (list A * list A)) obj (λ v k,
    outer (predicate v k) ≫= λ b : bool,
    modify_local (λ pf, if b then (pf.1 ++ [v], pf.2) else (pf.1, pf.2 ++ [v]))))
  ≫= λ r : _ * _, mret r.2.

(** [group(behavior)]: the aggregates differ in what they do with a key. *)
Definition group {R} (behavior : list (jsstr * R) → A → jsstr → list (jsstr * R))
    (obj : coll A) (iteratee : A → key → M S jsstr) : M S (list (jsstr * R)) :=
  with_local (L := list (jsstr * R)) [] (each (S := S * list (jsstr * R)) obj (λ v k,
    outer (iteratee v k) ≫= λ key : jsstr, modify_local (λ result, behavior result v key)))
  ≫= λ r : _ * _, mret r.2.

Definition groupBy : coll A → (A → key → M S jsstr) → M S (list (jsstr * list A)) :=
  group (λ result value key,
    match obj_get key result with
    | Some vs => obj_set key (vs ++ [value]) result
    | None => obj_set key [value] result
    end).
Definition indexBy : coll A → (A → key → M S jsstr) → M S (list (jsstr * A)) :=
  group (λ result value key, obj_set key value result).
Definition countBy : coll A → (A → key → M S jsstr) → M S (list (jsstr * nat)) :=
  group (λ result value key,
    match obj_get key result with
    | Some n => obj_set key (n + 1) result
    | None => obj_set key 1 result
    end).
End closures.

(** ** Searching *)

(** [_.indexOf] without its [isSorted] argument: the loop on [i]. *)
Fixpoint index_loop {A} `{StrictEq A} (l : list A) (item : A) (i : nat) : Z :=
  match l with
  | [] => (-1)%Z
  | v :: l' => if seq_eq v item then Z.of_nat i else index_loop l' item (S i)
  end.
Definition indexOf {A} `{StrictEq A} (array : list A) (item : A) : Z := index_loop array item 0.

Definition contains {A} `{StrictEq A} (obj : coll A) (target : A) : bool :=
  match obj with
  | CNull => false
  | _ => (indexOf (values obj) target >=? 0)%Z
  end.

(** ** Extremes *)

(** [_.max(obj)] on numbers. *)
Definition max (obj : coll num) : num :=
  foldl (λ result value, if num_gt value result then value else result) NInf (values obj).
Definition min (obj : coll num) : num :=
  foldl (λ result value, if num_lt value result then value else result) PInf (values obj).

(** [_.max(obj, iteratee)]: [result] starts at [-Infinity] ([None]); [is_ninf]
    is the test [result === -Infinity] on a value of the collection. *)
Definition max_by {A} (is_ninf : A → bool) (obj : coll A) (iteratee : A → key → num)
    : option A :=
  (foldl (λ st e,
     let '(result, lastComputed) := st in
     let computed := iteratee e.1 e.2 in
     let none := match result with None => true | Some r => is_ninf r end in
     if num_gt computed lastComputed || (num_seq computed NInf && none)
     then (Some e.1, computed) else st) (None, NInf) (entries obj)).1.
Definition min_by {A} (is_pinf : A → bool) (obj : coll A) (iteratee : A → key → num)
    : option A :=
  (foldl (λ st e,
     let '(result, lastComputed) := st in
     let computed := iteratee e.1 e.2 in
     let none := match result with None => true | Some r => is_pinf r end in
     if num_lt computed lastComputed || (num_seq computed PInf && none)
     then (Some e.1, computed) else st) (None, PInf) (entries obj)).1.

(** ** Random rearrangement *)

(** [_.random(min, max)], where [Math.random()] is the fraction [n / d] of
    [0, 1). *)
Definition random (min max n d : Z) : Z := (min + (n * (max - min + 1)) / d)%Z.

(** [_.shuffle]: [draw i] is what [_.random(0, i)] returns; the result array
    starts with holes. *)
Fixpoint shuffle_loop {A} (draw : nat → nat) (set : list A) (index : nat)
    (shuffled : list (option A)) : list (option A) :=
  match set with
  | [] => shuffled
  | v :: set' =>
      let rand := draw index in
      let shuffled1 :=
        if rand =? index then shuffled
        else <[index := default None (shuffled !! rand)]> shuffled in
      shuffle_loop draw set' (S index) (<[rand := Some v]> shuffled1)
  end.
Definition shuffle {A} (draw : nat → nat) (obj : coll A) : list (option A) :=
  let set := values obj in
  shuffle_loop draw set 0 (replicate (length set) None).

(** ** Ordering *)

(** A criterion is a number or [undefined]; [undefined] sorts last. *)
Record sorting_item (A : Type) := SortItem {
  si_value : A;
  si_index : nat;
  si_criteria : option num;
}.
Arguments SortItem {A}.
Arguments si_value {A}.
Arguments si_index {A}.
Arguments si_criteria {A}.

Definition crit_seq (a b : option num) : bool :=
  match a, b with
  | None, None => true
  | Some x, Some y => num_seq x y
  | _, _ => false
  end.
Definition crit_lt (a b : option num) : bool :=
  match a, b with
  | Some x, Some y => num_lt x y
  | _, _ => false
  end.
Definition is_undef {A} (a : option A) : bool := match a with None => true | _ => false end.

Definition sortBy_cmp {A} (left right : sorting_item A) : Z :=
  let a := si_criteria left in
  let b := si_criteria right in
  let by_index := (Z.of_nat (si_index left) - Z.of_nat (si_index right))%Z in
  if negb (crit_seq a b) then
    if crit_lt b a || is_undef a then 1%Z
    else if crit_lt a b || is_undef b then (-1)%Z
    else by_index
  else by_index.

Definition sortBy {A} (obj : coll A) (iteratee : A → key → option num) : list A :=
  si_value <$> js_sort sortBy_cmp
    (imap (λ i e, SortItem e.1 i (iteratee e.1 e.2)) (entries obj)).

(** [_.sortedIndex]: [mid] is [low + high >>> 1] on 32-bit unsigned integers;
    [less v] is [iteratee(array[mid]) < value]. *)
Definition mid_index (low high : nat) : nat :=
  Z.to_nat (Z.shiftr ((Z.of_nat low + Z.of_nat high) mod 2 ^ 32) 1).
Fixpoint sortedIndex_loop {A} (less : A → bool) (array : list A) (fuel low high : nat)
    : option nat :=
  match fuel with
  | 0 => None
  | S k =>
      if low <? high then
        let mid := mid_index low high in
        if match array !! mid with Some v => less v | None => false end
        then sortedIndex_loop less array k (mid + 1) high
        else sortedIndex_loop less array k low mid
      else Some low
  end.
Definition sortedIndex {A} (less : A → bool) (array : list A) : option nat :=
  sortedIndex_loop less array (S (length array)) 0 (length array).

Definition toArray {A} (obj : coll A) : list A := values obj.
Definition size {A} (obj : coll A) : nat :=
  match obj with
  | CNull => 0
  | CArray l => length l
  | CObject ps => length ps
  end.

End U.

(** ** Loops over pure callbacks *)

Section pure.
Context {S A : Type}.
Implicit Types obj : coll A.

(** What [each] does when the callback only updates the closure variable. *)
Lemma each_loop_local {L B} (g : A → key → B) (h : A → B → L → L)
    (es : list (A * key)) (s : S) (l : L) :
  U.each_loop (λ v k, outer (mret (g v k)) ≫= λ b, modify_local (h v b)) es (s, l) =
    (Ok tt, (s, foldl (λ l e, h e.1 (g e.1 e.2) l) l es)).
Proof. revert l. induction es as [|[v k] es IH]; intros l; [done|]. apply IH. Qed.

Lemma each_local {L B} (g : A → key → B) (h : A → B → L → L) obj (s : S) (l : L) :
  U.each obj (λ v k, outer (mret (g v k)) ≫= λ b, modify_local (h v b)) (s, l) =
    (Ok obj, (s, foldl (λ l e, h e.1 (g e.1 e.2) l) l (U.entries obj))).
Proof.
  destruct obj; [done|..]; unfold U.each;
    rewrite (bind_ok _ _ _ _ _ (each_loop_local g h _ s l)); done.
Qed.

Lemma each_loop_ext {St} (f g : A → key → M St unit) es s :
  (∀ v k s, f v k s = g v k s) → U.each_loop f es s = U.each_loop g es s.
Proof.
  intros Hfg. revert s. induction es as [|[v k] es IH]; intros s; [done|]. simpl.
  unfold mbind, M_bind. rewrite Hfg. destruct (g v k s) as [[] ?]; [apply IH|done].
Qed.

Lemma each_ext {St} (f g : A → key → M St unit) obj s :
  (∀ v k s, f v k s = g v k s) → U.each obj f s = U.each obj g s.
Proof.
  intros Hfg. destruct obj; [done|..]; unfold U.each, mbind, M_bind;
    by rewrite (each_loop_ext f g) by done.
Qed.

Lemma values_entries obj : (U.entries obj).*1 = U.values obj.
Proof.
  destruct obj as [|l|ps]; simpl; [done|..].
  - rewrite fmap_imap.
    assert (H : ∀ (f : nat → A → A), (∀ i v, f i v = v) → imap f l = l).
    { intros f. revert f. induction l as [|v l IH]; intros f Hf; simpl; [done|].
      rewrite Hf, IH; [done|]. intros. apply Hf. }
    by apply H.
  - rewrite <- list_fmap_compose. by apply list_fmap_ext.
Qed.

Lemma map_pure {B} obj (f : A → key → B) (s : S) :
  U.map obj (λ v k, mret (f v k)) s = (Ok ((λ e, f e.1 e.2) <$> U.entries obj), s).
Proof.
  unfold U.map. generalize (U.entries obj). intros es.
  induction es as [|[v k] es IH]; [done|]. simpl. unfold mbind, M_bind, mret, M_ret in *.
  by rewrite IH.
Qed.

Lemma every_pure obj (f : A → key → bool) (s : S) :
  U.every obj (λ v k, mret (f v k)) s = (Ok (forallb (λ e, f e.1 e.2) (U.entries obj)), s).
Proof.
  assert (H : ∀ es, U.every_loop (λ v k, mret (f v k)) es s =
    (Ok (forallb (λ e, f e.1 e.2) es), s)).
  { induction es as [|[v k] es IH]; [done|]. simpl. unfold mbind, M_bind, mret, M_ret in *.
    by destruct (f v k). }
  destruct obj; [done|apply H|apply H].
Qed.

Lemma some_pure obj (f : A → key → bool) (s : S) :
  U.some obj (λ v k, mret (f v k)) s = (Ok (existsb (λ e, f e.1 e.2) (U.entries obj)), s).
Proof.
  assert (H : ∀ es, U.some_loop (λ v k, mret (f v k)) es s =
    (Ok (existsb (λ e, f e.1 e.2) es), s)).
  { induction es as [|[v k] es IH]; [done|]. simpl. unfold mbind, M_bind, mret, M_ret in *.
    by destruct (f v k). }
  destruct obj; [done|apply H|apply H].
Qed.

Lemma foldl_filter {B} (p : A * key → bool) (g : A * key → B) (l : list B) es :
  foldl (λ l e, if p e then l ++ [g e] else l) l es =
    l ++ (g <$> base.filter (λ e, Is_true (p e)) es).
Proof.
  revert l. induction es as [|e es IH]; intros l; simpl; [by rewrite app_nil_r|].
  rewrite filter_cons. destruct (p e) eqn:E.
  - rewrite decide_True by (by apply Is_true_true). rewrite IH, <- (assoc_L (++)). done.
  - rewrite decide_False by (rewrite Is_true_true; congruence). apply IH.
Qed.

Lemma filter_pure obj (f : A → key → bool) (s : S) :
  U.filter obj (λ v k, mret (f v k)) s =
    (Ok (fst <$> base.filter (λ e, Is_true (f e.1 e.2)) (U.entries obj)), s).
Proof.
  unfold U.filter, with_local. unfold mbind at 1, M_bind at 1.
  rewrite (each_ext (St := S * list A) _ (λ v k, outer (mret (f v k)) ≫= λ b : bool,
    modify_local (λ results, if b then results ++ [v] else results))).
  - rewrite (each_local (L := list A) f (λ v b results, if b then results ++ [v] else results)).
    by rewrite (foldl_filter (λ e, f e.1 e.2) fst []).
  - intros v k [s' l]. unfold mbind, M_bind, outer, mret, M_ret, modify_local. simpl.
    by destruct (f v k).
Qed.

Lemma find_pure obj (f : A → key → bool) (s : S) :
  U.find obj (λ v k, mret (f v k)) s =
    (Ok (fst <$> head (base.filter (λ e, Is_true (f e.1 e.2)) (U.entries obj))), s).
Proof.
  assert (H : ∀ es, U.some_loop (S := S * option A) (λ v k,
      outer (mret (f v k)) ≫= λ b : bool,
      if b then modify_local (λ _, Some v) ≫= λ _, mret true else mret false) es (s, None) =
    (Ok (existsb (λ e, f e.1 e.2) es),
     (s, fst <$> head (base.filter (λ e, Is_true (f e.1 e.2)) es)))).
  { induction es as [|[v k] es IH]; [done|]. simpl. rewrite filter_cons. simpl.
    unfold mbind, M_bind, outer, mret, M_ret, modify_local in *. simpl in *.
    destruct (f v k); simpl; [done|]. rewrite IH. done. }
  unfold U.find, with_local. unfold mbind at 1, M_bind at 1.
  destruct obj; [done|..]; unfold U.some; by rewrite H.
Qed.

Lemma reduce_pure {B} obj (f : B → A → key → B) memo (s : S) :
  U.reduce obj (λ b v k, mret (f b v k)) memo s =
    (Ok (foldl (λ b e, f b e.1 e.2) memo (U.entries obj)), s).
Proof.
  unfold U.reduce. generalize (U.entries obj). intros es. revert memo.
  induction es as [|[v k] es IH]; intros memo; [done|]. apply IH.
Qed.
End pure.

(** ** Quantifiers *)

Lemma some_loop_every_loop {S A} (p : A → key → M S bool) es s :
  U.some_loop p es s =
    match U.every_loop (U.negate p) es s with
    | (Ok b, s') => (Ok (negb b), s')
    | (Throw e, s') => (Throw e, s')
    end.
Proof.
  revert s. induction es as [|[v k] es IH]; intros s; [done|].
  simpl. unfold U.negate, mbind, M_bind. destruct (p v k s) as [[[]|e] s']; [done|apply IH|done].
Qed.

(** [_.some] is the dual of [_.every] for any callback: the same calls in
    the same order, the same early exit, the same store and exception. *)
Theorem some_every_dual {S A} (obj : coll A) (p : A → key → M S bool) s :
  U.some obj p s =
    match U.every obj (U.negate p) s with
    | (Ok b, s') => (Ok (negb b), s')
    | (Throw e, s') => (Throw e, s')
    end.
Proof. destruct obj; [done|apply some_loop_every_loop|apply some_loop_every_loop]. Qed.

(** ** Extremes *)

(** The maximum found by a scan that starts at [r]. *)
Lemma foldl_max_spec (l : list num) (r : num) :
  r ≠ NaN →
  let m := foldl (λ result value, if num_gt value result then value else result) r l in
  m ≠ NaN ∧ (m = r ∨ m ∈ l) ∧ num_lt m r = false ∧ ∀ v, v ∈ l → num_lt m v = false.
Proof.
  revert r. induction l as [|v l IH]; intros r Hr; simpl.
  - split; [done|]. split; [by left|]. split; [apply num_lt_irrefl|]. set_solver.
  - change (num_gt v r) with (num_lt r v). destruct (num_lt r v) eqn:E.
    + assert (Hv : v ≠ NaN) by (intros ->; by destruct r).
      destruct (IH v Hv) as (H1 & H2 & H3 & H4). revert H1 H2 H3 H4.
      generalize (foldl (λ result value, if num_gt value result then value else result) v l).
      intros m H1 H2 H3 H4. rewrite elem_of_cons. split; [done|]. split; [naive_solver|].
      split; [|by intros w [->|Hw]%elem_of_cons; [|apply H4]].
      destruct (num_lt m r) eqn:E'; [|done]. by rewrite (num_lt_trans _ _ _ E' E) in H3.
    + destruct (IH r Hr) as (H1 & H2 & H3 & H4). revert H1 H2 H3 H4.
      generalize (foldl (λ result value, if num_gt value result then value else result) r l).
      intros m H1 H2 H3 H4. rewrite elem_of_cons. split; [done|]. split; [naive_solver|].
      split; [done|]. intros w [->|Hw]%elem_of_cons; [|by apply H4].
      destruct (decide (v = NaN)) as [->|Hv]; [by destruct m|]. by apply (num_le_trans v r).
Qed.

(** [_.max] of a collection of numbers is never [NaN], is not below any
    element, and is an element (or [-Infinity] when there is nothing above it):
    [NaN] elements are ignored. *)
Theorem max_spec (obj : coll num) :
  U.max obj ≠ NaN ∧ (U.max obj = NInf ∨ U.max obj ∈ U.values obj) ∧
  ∀ v, v ∈ U.values obj → num_lt (U.max obj) v = false.
Proof.
  destruct (foldl_max_spec (U.values obj) NInf) as (H1 & H2 & _ & H4); [done|].
  by split; [|split].
Qed.

(** ** Random rearrangement *)

Lemma random_bounds (min max n d : Z) :
  (min ≤ max)%Z → (0 ≤ n < d)%Z → (min ≤ U.random min max n d ≤ max)%Z.
Proof.
  intros Hm Hn. unfold U.random.
  assert (0 ≤ n * (max - min + 1) / d)%Z by (apply Z.div_pos; nia).
  assert (n * (max - min + 1) / d < max - min + 1)%Z by (apply Z.div_lt_upper_bound; nia).
  lia.
Qed.

Lemma shuffle_loop_perm {A} (draw : nat → nat) (todo done_ : list A) :
  (∀ i, draw i ≤ i) →
  U.shuffle_loop draw todo (length done_)
    ((Some <$> done_) ++ replicate (length todo) None) ≡ₚ Some <$> (done_ ++ todo).
Proof.
  intros Hd. revert done_. induction todo as [|v todo IH]; intros done_.
  - simpl. by rewrite !app_nil_r.
  - simpl U.shuffle_loop. set (i := length done_). specialize (Hd i) as Hdi.
    (* the new prefix: [v] put at [draw i], what was there moved to the end *)
    set (new := match done_ !! draw i with
                | Some x => <[draw i := v]> done_ ++ [x]
                | None => done_ ++ [v]
                end).
    assert (Hlen : length new = S i).
    { unfold new. destruct (done_ !! draw i); rewrite length_app, ?length_insert; simpl; lia. }
    assert (Hperm : new ≡ₚ done_ ++ [v]).
    { unfold new. destruct (done_ !! draw i) as [x|] eqn:E; [|done].
      rewrite <- (take_drop_middle done_ (draw i) x E) at 2.
      rewrite insert_take_drop by (by apply lookup_lt_Some in E).
      rewrite <- !(assoc_L (++)). apply Permutation_app_head. simpl.
      rewrite Permutation_app_comm. simpl. rewrite (Permutation_app_comm _ [v]). simpl.
      apply Permutation_swap. }
    transitivity (U.shuffle_loop draw todo (length new)
      ((Some <$> new) ++ replicate (length todo) None)).
    + rewrite Hlen. apply reflexive_eq. f_equal. unfold new.
      destruct (Nat.eqb_spec (draw i) i) as [Heq|Hne].
      * rewrite Heq. rewrite (lookup_ge_None_2 done_ i) by done.
        rewrite fmap_app, <- (assoc_L (++)). simpl.
        rewrite insert_app_r_alt by (rewrite length_fmap; done).
        rewrite length_fmap. fold i. by rewrite Nat.sub_diag.
      * destruct (lookup_lt_is_Some_2 done_ (draw i)) as [x Hx]; [unfold i in *; lia|].
        rewrite Hx. rewrite lookup_app_l by (rewrite length_fmap; unfold i in *; lia).
        rewrite list_lookup_fmap, Hx. simpl.
        rewrite insert_app_r_alt by (rewrite length_fmap; done).
        rewrite length_fmap. fold i. rewrite Nat.sub_diag. simpl.
        rewrite insert_app_l by (rewrite length_fmap; unfold i in *; lia).
        rewrite fmap_app, list_fmap_insert, <- (assoc_L (++)). done.
    + rewrite IH. apply fmap_Permutation. rewrite Hperm. by rewrite <- (assoc_L (++)).
Qed.

(** [_.shuffle] fills every hole of its result and returns a rearrangement
    of the collection, whatever the draws of [_.random(0, index)]. *)
Theorem shuffle_permutation {A} (draw : nat → nat) (obj : coll A) :
  (∀ i, draw i ≤ i) → U.shuffle draw obj ≡ₚ Some <$> U.values obj.
Proof. intros Hd. apply (shuffle_loop_perm draw (U.values obj) [] Hd). Qed.

Lemma shuffle_permutation_witness :
  U.shuffle (λ i, i / 2) (CArray [4; 5; 6]) ≡ₚ Some <$> [4; 5; 6].
Proof.
  apply (shuffle_permutation (λ i, i / 2) (CArray [4; 5; 6])).
  intros i. destruct i; [reflexivity|]. apply Nat.lt_le_incl, Nat.div_lt; lia.
Defined.

(** ** Searching *)

Section searching.
Context {A : Type} `{StrictEqLaws A}.

Lemma index_loop_bound (l : list A) item i :
  (U.index_loop l item i = -1 ∨ Z.of_nat i ≤ U.index_loop l item i < Z.of_nat i + Z.of_nat (length l))%Z.
Proof.
  revert i. induction l as [|v l IH]; intros i; simpl; [by left|].
  destruct (seq_eq v item); [right; lia|]. destruct (IH (S i)); [by left|right; lia].
Qed.

Lemma index_loop_found (l : list A) item i j :
  U.index_loop l item i = Z.of_nat (i + j) →
  (∃ v, l !! j = Some v ∧ seq_eq v item = true) ∧
  ∀ k v, k < j → l !! k = Some v → seq_eq v item = false.
Proof.
  revert i j. induction l as [|v l IH]; intros i j; simpl; [lia|].
  destruct (seq_eq v item) eqn:E.
  - intros Hj. assert (j = 0) as -> by lia. split; [eauto|lia].
  - intros Hj. destruct j as [|j].
    + destruct (index_loop_bound l item (S i)); lia.
    + destruct (IH (S i) j) as [H1 H2]; [rewrite Hj; lia|]. split; [done|].
      intros [|k] w Hk Hw; simpl in Hw; [congruence|]. apply (H2 k w); [lia|done].
Qed.

Lemma index_loop_none (l : list A) item i :
  U.index_loop l item i = (-1)%Z ↔ ∀ v, v ∈ l → seq_eq v item = false.
Proof.
  revert i. induction l as [|v l IH]; intros i; simpl; [set_solver|].
  destruct (seq_eq v item) eqn:E.
  - split; [lia|]. intros Hv. specialize (Hv v). rewrite E in Hv. discriminate Hv. by left.
  - rewrite IH. set_solver.
Qed.

Lemma indexOf_none (l : list A) item :
  U.indexOf l item = (-1)%Z ↔ ∀ v, v ∈ l → seq_eq v item = false.
Proof. apply index_loop_none. Qed.

Lemma indexOf_found (l : list A) item j :
  U.indexOf l item = Z.of_nat j →
  (∃ v, l !! j = Some v ∧ seq_eq v item = true) ∧
  ∀ k v, k < j → l !! k = Some v → seq_eq v item = false.
Proof. apply (index_loop_found l item 0). Qed.

Lemma indexOf_dec (l : list A) item :
  U.indexOf l item = (-1)%Z ∨ ∃ j, j < length l ∧ U.indexOf l item = Z.of_nat j.
Proof.
  unfold U.indexOf. destruct (index_loop_bound l item 0) as [->|Hb]; [by left|right].
  exists (Z.to_nat (U.index_loop l item 0)). lia.
Qed.

Lemma indexOf_pos (l : list A) item :
  (U.indexOf l item >=? 0)%Z = existsb (λ v, seq_eq v item) l.
Proof.
  destruct (existsb (λ v, seq_eq v item) l) eqn:E.
  - apply existsb_elem_of in E as (v & Hv & Hs).
    destruct (indexOf_dec l item) as [Hn|(j & _ & ->)]; [|apply Z.geb_le; lia].
    rewrite indexOf_none in Hn. by rewrite Hn in Hs by done.
  - rewrite existsb_false in E. apply (proj2 (indexOf_none l item)) in E. by rewrite E.
Qed.

Lemma contains_spec (obj : coll A) target :
  U.contains obj target = existsb (λ v, seq_eq v target) (U.values obj).
Proof. destruct obj; [done|apply indexOf_pos|apply indexOf_pos]. Qed.
End searching.

Lemma contains_str_elem (l : list jsstr) w : U.contains (CArray l) w = true ↔ w ∈ l.
Proof.
  rewrite contains_spec, existsb_elem_of. setoid_rewrite str_seq_spec. naive_solver.
Qed.

(** ** Grouping *)

Section grouping.
Context {S A : Type}.

Lemma group_pure {R} (behavior : list (jsstr * R) → A → jsstr → list (jsstr * R))
    (obj : coll A) (f : A → key → jsstr) (s : S) :
  U.group behavior obj (λ v k, mret (f v k)) s =
    (Ok (foldl (λ r e, behavior r e.1 (f e.1 e.2)) [] (U.entries obj)), s).
Proof.
  unfold U.group, with_local. unfold mbind at 1, M_bind at 1.
  rewrite (each_local (L := list (jsstr * R)) f (λ v k r, behavior r v k)). done.
Qed.

Implicit Types es : list (A * key).

(** The entries whose key is [k], in order. *)
Definition with_key (f : A → key → jsstr) (k : jsstr) (es : list (A * key)) : list A :=
  fst <$> base.filter (λ e, f e.1 e.2 = k) es.

Lemma with_key_snoc f k es e :
  with_key f k (es ++ [e]) =
    if decide (f e.1 e.2 = k) then with_key f k es ++ [e.1] else with_key f k es.
Proof.
  unfold with_key. rewrite filter_app, fmap_app, filter_cons, filter_nil.
  case_decide; [done|]. by rewrite app_nil_r.
Qed.

Lemma groupBy_fold f es :
  let r := foldl (λ r e,
    match obj_get (f e.1 e.2) r with
    | Some vs => obj_set (f e.1 e.2) (vs ++ [e.1]) r
    | None => obj_set (f e.1 e.2) [e.1] r
    end) [] es in
  obj_wf r ∧ ∀ k, default [] (obj_get k r) = with_key f k es ∧
    (is_Some (obj_get k r) ↔ with_key f k es ≠ []).
Proof.
  simpl. induction es as [|e es IH] using rev_ind.
  { split; [constructor|]. intros k. split; [done|]. split; [by intros []|done]. }
  rewrite foldl_app. simpl. set (r := foldl _ [] es) in *. destruct IH as [Hwf IH].
  split.
  - destruct (obj_get _ r); by apply obj_set_wf.
  - intros k. rewrite with_key_snoc. destruct (IH k) as [H1 H2].
    assert (E : match obj_get (f e.1 e.2) r with
      | Some vs => obj_set (f e.1 e.2) (vs ++ [e.1]) r
      | None => obj_set (f e.1 e.2) [e.1] r end =
      obj_set (f e.1 e.2) (default [] (obj_get (f e.1 e.2) r) ++ [e.1]) r).
    { destruct (obj_get (f e.1 e.2) r); reflexivity. }
    rewrite E, obj_get_set. destruct (decide (k = f e.1 e.2)) as [->|Hne].
    + rewrite decide_True by done. simpl. rewrite H1. split; [done|].
      split; [|eauto]. intros _ Hn. apply (f_equal length) in Hn.
      rewrite length_app in Hn. simpl in Hn. lia.
    + by rewrite decide_False by done.
Qed.

Lemma countBy_fold f es :
  let r := foldl (λ r e,
    match obj_get (f e.1 e.2) r with
    | Some n => obj_set (f e.1 e.2) (n + 1) r
    | None => obj_set (f e.1 e.2) 1 r
    end) [] es in
  obj_wf r ∧ ∀ k, default 0 (obj_get k r) = length (with_key f k es) ∧
    (is_Some (obj_get k r) ↔ with_key f k es ≠ []).
Proof.
  simpl. induction es as [|e es IH] using rev_ind.
  { split; [constructor|]. intros k. split; [done|]. split; [by intros []|done]. }
  rewrite foldl_app. simpl. set (r := foldl _ [] es) in *. destruct IH as [Hwf IH].
  split.
  - destruct (obj_get _ r); by apply obj_set_wf.
  - intros k. rewrite with_key_snoc. destruct (IH k) as [H1 H2].
    assert (E : match obj_get (f e.1 e.2) r with
      | Some n => obj_set (f e.1 e.2) (n + 1) r
      | None => obj_set (f e.1 e.2) 1 r end =
      obj_set (f e.1 e.2) (default 0 (obj_get (f e.1 e.2) r) + 1) r).
    { destruct (obj_get (f e.1 e.2) r); reflexivity. }
    rewrite E, obj_get_set. destruct (decide (k = f e.1 e.2)) as [->|Hne].
    + rewrite decide_True by done. simpl. rewrite H1, length_app. split; [done|].
      split; [|eauto]. intros _ Hn. apply (f_equal length) in Hn.
      rewrite length_app in Hn. simpl in Hn. lia.
    + by rewrite decide_False by done.
Qed.
End grouping.

(** [_.groupBy] puts every element under its key, in order, with one property
    per key that occurs; [_.countBy] has the same properties and counts the
    groups. *)
Theorem groupBy_countBy_spec {S A} (obj : coll A) (f : A → key → jsstr) (s : S) :
  ∃ groups counts,
    U.groupBy obj (λ v k, mret (f v k)) s = (Ok groups, s) ∧
    U.countBy obj (λ v k, mret (f v k)) s = (Ok counts, s) ∧
    obj_wf groups ∧ obj_wf counts ∧
    ∀ k, let g := with_key f k (U.entries obj) in
      obj_get k groups = (if decide (g = []) then None else Some g) ∧
      obj_get k counts = (if decide (g = []) then None else Some (length g)).
Proof.
  unfold U.groupBy, U.countBy. rewrite !group_pure. eexists _, _. split; [done|]. split; [done|].
  destruct (groupBy_fold f (U.entries obj)) as [W1 G1].
  destruct (countBy_fold f (U.entries obj)) as [W2 G2]. split; [done|]. split; [done|].
  intros k. simpl. destruct (G1 k) as [H1 I1]. destruct (G2 k) as [H2 I2]. split.
  - destruct (obj_get k _) as [g|]; simpl in *.
    + subst g. rewrite decide_False; [done|]. apply I1. eauto.
    + by rewrite <- H1.
  - destruct (obj_get k (foldl _ [] (U.entries obj))) as [n|] eqn:E in H2, I2 |- *; simpl in *.
    + subst n. rewrite decide_False; [done|]. apply I2. eauto.
    + rewrite decide_True; [done|]. destruct (with_key f k (U.entries obj)); [done|].
      simpl in H2. lia.
Qed.

(** ** Ordering *)

Definition crit_ok {A} (i : U.sorting_item A) : Prop := U.si_criteria i ≠ Some NaN.

(** The comparator of [sortBy] orders by criterion, [undefined] last, and by
    position among equal criteria. *)
Definition crit_le (a b : option num) : bool :=
  match a, b with
  | _, None => true
  | None, Some _ => false
  | Some x, Some y => negb (num_lt y x)
  end.

Lemma sortBy_cmp_le {A} (x y : U.sorting_item A) :
  crit_ok x → crit_ok y →
  (U.sortBy_cmp x y ≤ 0)%Z ↔
    crit_le (U.si_criteria x) (U.si_criteria y) = true ∧
    (crit_le (U.si_criteria y) (U.si_criteria x) = true → U.si_index x ≤ U.si_index y).
Proof.
  unfold crit_ok, U.sortBy_cmp. intros Hx Hy.
  destruct (U.si_criteria x) as [a|], (U.si_criteria y) as [b|]; simpl; try naive_solver lia.
  - assert (Ha : a ≠ NaN) by congruence. assert (Hb : b ≠ NaN) by congruence.
    destruct (num_seq a b) eqn:E; simpl.
    + assert (num_lt a b = false ∧ num_lt b a = false) as [-> ->]; [|naive_solver lia].
      revert E. destruct a, b; simpl; try done; rewrite Z.eqb_eq, !Z.ltb_ge; lia.
    + destruct (num_lt b a) eqn:E1; simpl; [naive_solver lia|].
      destruct (num_lt a b) eqn:E2; simpl; [naive_solver lia|].
      by rewrite num_lt_total in E.
Qed.

#[export] Instance sortBy_consistent {A} : Consistent (A := U.sorting_item A) U.sortBy_cmp crit_ok.
Proof.
  split.
  - intros x y Hx Hy. rewrite !sortBy_cmp_le by done. unfold crit_ok in *.
    destruct (U.si_criteria x) as [a|], (U.si_criteria y) as [b|]; simpl;
      [|naive_solver lia|naive_solver lia|].
    + destruct (num_lt a b) eqn:E; [rewrite (num_lt_asym _ _ E); naive_solver|].
      destruct (num_lt b a) eqn:E'; [naive_solver|]. simpl. naive_solver lia.
    + destruct (decide (U.si_index x ≤ U.si_index y)); [left|right]; split; try done; lia.
  - intros x y z Hx Hy Hz. rewrite !sortBy_cmp_le by done. unfold crit_ok in *.
    destruct (U.si_criteria x) as [a|], (U.si_criteria y) as [b|], (U.si_criteria z) as [c|];
      simpl; try naive_solver lia.
    rewrite !negb_true_iff. intros [H1 I1] [H2 I2].
    assert (a ≠ NaN ∧ b ≠ NaN ∧ c ≠ NaN) as (Na&Nb&Nc) by (split_and!; congruence).
    split; [by apply (num_le_trans a b c)|]. intros Hca.
    transitivity (U.si_index y); [apply I1|apply I2];
      [by apply (num_le_trans b c a)|by apply (num_le_trans c a b)].
Qed.

Lemma imap_si_value {A} (l : list A) (f : nat → A → U.sorting_item A) :
  (∀ i v, U.si_value (f i v) = v) → U.si_value <$> imap f l = l.
Proof.
  revert f. induction l as [|v l IH]; intros f Hf; [done|]. simpl.
  rewrite Hf, IH; [done|]. intros. apply Hf.
Qed.

(** The items [sortBy] builds: the values with their positions and criteria. *)
Definition sort_items {A} (l : list A) (crit : A → option num) : list (U.sorting_item A) :=
  imap (λ i v, U.SortItem v i (crit v)) l.

Lemma sortBy_items {A} (l : list A) (crit : A → option num) :
  U.sortBy (CArray l) (λ v _, crit v) = U.si_value <$> js_sort U.sortBy_cmp (sort_items l crit).
Proof.
  unfold U.sortBy, sort_items, U.entries. f_equal. f_equal.
  assert (H : ∀ (f : nat → nat) (g : nat → nat),
    imap (λ i (e : A * key), U.SortItem e.1 (f i) (crit e.1)) (imap (λ i v, (v, KIdx (g i))) l)
      = imap (λ i v, U.SortItem v (f i) (crit v)) l); [|apply (H id id)].
  induction l as [|v l IH]; intros f g; [done|]. simpl. f_equal. apply (IH (f ∘ S) (g ∘ S)).
Qed.

Lemma sort_items_elem {A} (l : list A) crit i :
  i ∈ sort_items l crit →
  U.si_criteria i = crit (U.si_value i) ∧ l !! U.si_index i = Some (U.si_value i).
Proof. intros (j & v & -> & Hj)%elem_of_lookup_imap. done. Qed.

Lemma sort_items_index {A} (l : list A) crit :
  StronglySorted (λ x y, U.si_index x < U.si_index y) (sort_items l crit).
Proof.
  unfold sort_items. assert (H : ∀ f : nat → nat, (∀ i j, i < j → f i < f j) →
    StronglySorted (λ x y, U.si_index x < U.si_index y)
      (imap (λ i v, U.SortItem v (f i) (crit v)) l)); [|by apply (H id)].
  induction l as [|v l IH]; intros f Hf; simpl; [constructor|]. constructor.
  - apply (IH (f ∘ S)). intros i j Hij. apply Hf. lia.
  - apply Forall_forall. intros x (j & w & -> & _)%elem_of_lookup_imap. simpl. apply Hf. lia.
Qed.

Lemma sort_items_ok {A} (l : list A) crit :
  (∀ v, v ∈ l → crit v ≠ Some NaN) → Forall crit_ok (sort_items l crit).
Proof.
  intros Hc. apply Forall_forall. intros i [E Hi]%sort_items_elem. unfold crit_ok. rewrite E.
  apply Hc. by eapply list_elem_of_lookup_2.
Qed.

(** The elements whose criterion is equivalent to [c]. *)
Definition crit_same (c d : option num) : Prop := crit_le c d = true ∧ crit_le d c = true.
#[export] Instance crit_same_dec c d : Decision (crit_same c d).
Proof. unfold crit_same. apply _. Defined.

Lemma crit_le_same c a b :
  a ≠ Some NaN → b ≠ Some NaN → c ≠ Some NaN → crit_same c a → crit_same c b →
  crit_le a b = true.
Proof.
  unfold crit_same. destruct a as [a|], b as [b|], c as [c|]; simpl; try naive_solver.
  intros Ha Hb Hc [H1 H2] [H3 H4]. rewrite !negb_true_iff in *.
  apply (num_le_trans a c b); congruence.
Qed.

(** [_.sortBy] returns a rearrangement of the array on which the criteria
    are in order, [undefined] last, and elements of equivalent criteria keep the
    order they had in the array. *)
Theorem sortBy_spec {A} (l : list A) (crit : A → option num) :
  (∀ v, v ∈ l → crit v ≠ Some NaN) →
  let r := U.sortBy (CArray l) (λ v _, crit v) in
  r ≡ₚ l ∧ StronglySorted (λ v w, crit_le (crit v) (crit w) = true) r ∧
  ∀ c, c ≠ Some NaN →
    base.filter (λ v, crit_same c (crit v)) r = base.filter (λ v, crit_same c (crit v)) l.
Proof.
  intros Hc. simpl. rewrite sortBy_items. set (items := sort_items l crit).
  pose proof (sort_items_ok l crit Hc) as Hok. fold items in Hok.
  pose proof (js_sort_perm U.sortBy_cmp items) as Hp.
  pose proof (js_sort_sorted U.sortBy_cmp crit_ok items Hok) as Hs.
  set (sorted := js_sort U.sortBy_cmp items) in *.
  assert (Hin : ∀ x, x ∈ sorted → crit_ok x ∧ U.si_criteria x = crit (U.si_value x) ∧
    l !! U.si_index x = Some (U.si_value x)).
  { intros x Hx. rewrite Hp in Hx. split; [by eapply Forall_forall in Hok|].
    by apply sort_items_elem. }
  assert (Hl : U.si_value <$> items = l) by (by apply imap_si_value). split_and!.
  - rewrite Hp. by rewrite Hl.
  - apply StronglySorted_fmap_in. eapply StronglySorted_impl_in; [|exact Hs].
    intros x y (Hx & Ex & _)%Hin (Hy & Ey & _)%Hin Hle.
    apply sortBy_cmp_le in Hle; [|done|done]. rewrite <- Ex, <- Ey. apply Hle.
  - intros c Hcn. rewrite <- Hl. rewrite !list_filter_fmap. f_equal.
    apply (StronglySorted_unique_strong (λ x y, U.si_index x ≤ U.si_index y)).
    + intros x y [_ Hx]%list_elem_of_filter [_ Hy]%list_elem_of_filter ??.
      apply Hin in Hx as (_ & Ex & Lx). apply sort_items_elem in Hy as [Ey Ly].
      destruct x as [v i cx], y as [w j cy]; simpl in *.
      assert (i = j) as <- by lia. congruence.
    + eapply StronglySorted_impl_in; [|by apply StronglySorted_filter; exact Hs].
      intros x y [Cx Hx]%list_elem_of_filter [Cy Hy]%list_elem_of_filter Hle.
      apply Hin in Hx as (Hx & Ex & _). apply Hin in Hy as (Hy & Ey & _).
      apply sortBy_cmp_le in Hle as [_ Hle]; [|done|done]. apply Hle. rewrite Ex, Ey.
      apply (crit_le_same c); [rewrite <- Ey; apply Hy|rewrite <- Ex; apply Hx|done..].
    + eapply StronglySorted_impl_in; [|apply StronglySorted_filter, sort_items_index].
      simpl. lia.
    + by rewrite Hp.
Qed.

Lemma sortBy_spec_witness :
  let r := U.sortBy (CArray [3%Z; 1%Z; 2%Z; 1%Z]) (λ v _, Some (Int v)) in
  r ≡ₚ [3%Z; 1%Z; 2%Z; 1%Z] ∧
  StronglySorted (λ v w, crit_le (Some (Int v)) (Some (Int w)) = true) r ∧
  ∀ c, c ≠ Some NaN →
    base.filter (λ v, crit_same c (Some (Int v))) r =
    base.filter (λ v, crit_same c (Some (Int v))) [3%Z; 1%Z; 2%Z; 1%Z].
Proof. apply (sortBy_spec [3%Z; 1%Z; 2%Z; 1%Z] (λ v, Some (Int v))). discriminate. Defined.

(** ** Binary search *)

Lemma mid_index_bounds low high :
  low < high → high < 2 ^ 31 → low ≤ U.mid_index low high < high.
Proof.
  intros Hl Hh. unfold U.mid_index. rewrite Z.mod_small.
  - rewrite Z.shiftr_div_pow2 by lia. change (2 ^ 1)%Z with 2%Z.
    pose proof (Z.div_mod (Z.of_nat low + Z.of_nat high) 2 ltac:(lia)).
    pose proof (Z.mod_pos_bound (Z.of_nat low + Z.of_nat high) 2 ltac:(lia)). lia.
  - assert (Z.of_nat high < 2 ^ 31)%Z; [|lia].
    change (2 ^ 31)%Z with (Z.of_nat 2 ^ Z.of_nat 31)%Z. rewrite <- Nat2Z.inj_pow. lia.
Qed.

Section binary_search.
Context {A : Type} (less : A → bool) (array : list A).
(** The array is sorted with respect to the test: [less] holds on a prefix. *)
Context (Hsorted : ∀ i j v w, i ≤ j → array !! i = Some v → array !! j = Some w →
  less w = true → less v = true).

Definition split_point (i : nat) : Prop :=
  i ≤ length array ∧
  (∀ j v, j < i → array !! j = Some v → less v = true) ∧
  (∀ j v, i ≤ j → array !! j = Some v → less v = false).

Lemma sortedIndex_loop_spec fuel low high :
  low ≤ high → high ≤ length array → length array < 2 ^ 31 → high - low < fuel →
  (∀ j v, j < low → array !! j = Some v → less v = true) →
  (∀ j v, high ≤ j → array !! j = Some v → less v = false) →
  ∃ i, U.sortedIndex_loop less array fuel low high = Some i ∧ split_point i.
Proof.
  revert low high. induction fuel as [|fuel IH]; intros low high Hl Hh H31 Hf Hlow Hhigh; [lia|].
  simpl. destruct (Nat.ltb_spec low high) as [Hlt|Hge].
  - destruct (mid_index_bounds low high) as [Hm1 Hm2]; [done|lia|].
    destruct (lookup_lt_is_Some_2 array (U.mid_index low high)) as [v Hv]; [lia|].
    rewrite Hv. destruct (less v) eqn:E.
    + apply IH; [lia|done|done|lia| |done].
      intros j w Hj Hw. apply (Hsorted j (U.mid_index low high) w v); [lia|done|done|done].
    + apply IH; [lia|lia|done|lia|done|].
      intros j w Hj Hw. destruct (less w) eqn:E'; [|done].
      rewrite (Hsorted (U.mid_index low high) j v w) in E; done.
  - exists low. split; [done|]. split; [lia|]. split; [done|].
    intros j v Hj. apply Hhigh. lia.
Qed.
End binary_search.

(** On an array sorted for the criterion, of less than 2^31 elements,
    [_.sortedIndex] ends and returns the insertion point: every element before
    it is less than the value and no element from it on is. *)
Theorem sortedIndex_spec {A} (less : A → bool) (array : list A) :
  (∀ i j v w, i ≤ j → array !! i = Some v → array !! j = Some w →
    less w = true → less v = true) →
  length array < 2 ^ 31 →
  ∃ i, U.sortedIndex less array = Some i ∧ split_point less array i.
Proof.
  intros Hs H31. apply sortedIndex_loop_spec; [done|lia|lia|done|lia|lia|].
  intros j v Hj Hv. apply lookup_lt_Some in Hv. lia.
Qed.

Lemma sortedIndex_spec_witness :
  ∃ i, U.sortedIndex (λ v, v <? 5) [1; 4; 7] = Some i ∧ split_point (λ v, v <? 5) [1; 4; 7] i.
Proof.
  apply (sortedIndex_spec (λ v, v <? 5) [1; 4; 7]).
  - intros [|[|[|i]]] [|[|[|j]]] v w Hij Hv Hw; simpl in *; simplify_eq; try done; try lia.
  - simpl length. apply Nat.lt_trans with (2 ^ 2); [cbn; lia|]. apply Nat.pow_lt_mono_r; lia.
Defined.
