(* ===== verification/SplitQuery.v ===== *)
(** * Splitting a query into words: searchtools.js

    The table [splitChars] of the code units that separate words, and the scan
    [splitQuery] that cuts a query at them. *)

From stdpp Require Import base tactics list strings numbers sets gmap.
From Stdlib Require Import NArith ZArith Lia.
From S2P Require Import Prelude.
From S2P Require Import JsString.

Module Query.

Definition singles : list N := [
  96; 180; 187; 191; 215; 247; 749; 885; 903; 907; 909; 930; 1014; 1648;
  1748; 1809; 2416; 2473; 2481; 2526; 2601; 2609; 2612; 2615; 2653; 2702;
  2706; 2729; 2737; 2740; 2857; 2865; 2868; 2910; 2928; 2948; 2961; 2971;
  2973; 3085; 3089; 3113; 3124; 3213; 3217; 3241; 3252; 3295; 3341; 3345;
  3369; 3506; 3516; 3633; 3715; 3721; 3736; 3744; 3748; 3750; 3756; 3761;
  3781; 3912; 4239; 4347; 4681; 4695; 4697; 4745; 4785; 4799; 4801; 4823;
  4881; 5760; 5901; 5997; 6313; 7405; 8024; 8026; 8028; 8030; 8117; 8125;
  8133; 8181; 8468; 8485; 8487; 8489; 8494; 8527; 11311; 11359; 11687;
  11695; 11703; 11711; 11719; 11727; 11735; 12448; 12539; 43010; 43014;
  43019; 43587; 43696; 43713; 64286; 64297; 64311; 64317; 64319; 64322;
  64325; 65141 ]%N.

Definition ranges : list (N * N) := [
  (0, 47); (58, 64); (91, 94); (123, 169); (171, 177); (182, 184);
  (706, 709); (722, 735); (741, 747); (751, 879); (888, 889); (894, 901);
  (1154, 1161); (1318, 1328); (1367, 1368); (1370, 1376); (1416, 1487);
  (1515, 1519); (1523, 1568); (1611, 1631); (1642, 1645); (1750, 1764);
  (1767, 1773); (1789, 1790); (1792, 1807); (1840, 1868); (1958, 1968);
  (1970, 1983); (2027, 2035); (2038, 2041); (2043, 2047); (2070, 2073);
  (2075, 2083); (2085, 2087); (2089, 2307); (2362, 2364); (2366, 2383);
  (2385, 2391); (2402, 2405); (2419, 2424); (2432, 2436); (2445, 2446);
  (2449, 2450); (2483, 2485); (2490, 2492); (2494, 2509); (2511, 2523);
  (2530, 2533); (2546, 2547); (2554, 2564); (2571, 2574); (2577, 2578);
  (2618, 2648); (2655, 2661); (2672, 2673); (2677, 2692); (2746, 2748);
  (2750, 2767); (2769, 2783); (2786, 2789); (2800, 2820); (2829, 2830);
  (2833, 2834); (2874, 2876); (2878, 2907); (2914, 2917); (2930, 2946);
  (2955, 2957); (2966, 2968); (2976, 2978); (2981, 2983); (2987, 2989);
  (3002, 3023); (3025, 3045); (3059, 3076); (3130, 3132); (3134, 3159);
  (3162, 3167); (3170, 3173); (3184, 3191); (3199, 3204); (3258, 3260);
  (3262, 3293); (3298, 3301); (3312, 3332); (3386, 3388); (3390, 3423);
  (3426, 3429); (3446, 3449); (3456, 3460); (3479, 3481); (3518, 3519);
  (3527, 3584); (3636, 3647); (3655, 3663); (3674, 3712); (3717, 3718);
  (3723, 3724); (3726, 3731); (3752, 3753); (3764, 3772); (3774, 3775);
  (3783, 3791); (3802, 3803); (3806, 3839); (3841, 3871); (3892, 3903);
  (3949, 3975); (3980, 4095); (4139, 4158); (4170, 4175); (4182, 4185);
  (4190, 4192); (4194, 4196); (4199, 4205); (4209, 4212); (4226, 4237);
  (4250, 4255); (4294, 4303); (4349, 4351); (4686, 4687); (4702, 4703);
  (4750, 4751); (4790, 4791); (4806, 4807); (4886, 4887); (4955, 4968);
  (4989, 4991); (5008, 5023); (5109, 5120); (5741, 5742); (5787, 5791);
  (5867, 5869); (5873, 5887); (5906, 5919); (5938, 5951); (5970, 5983);
  (6001, 6015); (6068, 6102); (6104, 6107); (6109, 6111); (6122, 6127);
  (6138, 6159); (6170, 6175); (6264, 6271); (6315, 6319); (6390, 6399);
  (6429, 6469); (6510, 6511); (6517, 6527); (6572, 6592); (6600, 6607);
  (6619, 6655); (6679, 6687); (6741, 6783); (6794, 6799); (6810, 6822);
  (6824, 6916); (6964, 6980); (6988, 6991); (7002, 7042); (7073, 7085);
  (7098, 7167); (7204, 7231); (7242, 7244); (7294, 7400); (7410, 7423);
  (7616, 7679); (7958, 7959); (7966, 7967); (8006, 8007); (8014, 8015);
  (8062, 8063); (8127, 8129); (8141, 8143); (8148, 8149); (8156, 8159);
  (8173, 8177); (8189, 8303); (8306, 8307); (8314, 8318); (8330, 8335);
  (8341, 8449); (8451, 8454); (8456, 8457); (8470, 8472); (8478, 8483);
  (8506, 8507); (8512, 8516); (8522, 8525); (8586, 9311); (9372, 9449);
  (9472, 10101); (10132, 11263); (11493, 11498); (11503, 11516);
  (11518, 11519); (11558, 11567); (11622, 11630); (11632, 11647);
  (11671, 11679); (11743, 11822); (11824, 12292); (12296, 12320);
  (12330, 12336); (12342, 12343); (12349, 12352); (12439, 12444);
  (12544, 12548); (12590, 12592); (12687, 12689); (12694, 12703);
  (12728, 12783); (12800, 12831); (12842, 12880); (12896, 12927);
  (12938, 12976); (12992, 13311); (19894, 19967); (40908, 40959);
  (42125, 42191); (42238, 42239); (42509, 42511); (42540, 42559);
  (42592, 42593); (42607, 42622); (42648, 42655); (42736, 42774);
  (42784, 42785); (42889, 42890); (42893, 43002); (43043, 43055);
  (43062, 43071); (43124, 43137); (43188, 43215); (43226, 43249);
  (43256, 43258); (43260, 43263); (43302, 43311); (43335, 43359);
  (43389, 43395); (43443, 43470); (43482, 43519); (43561, 43583);
  (43596, 43599); (43610, 43615); (43639, 43641); (43643, 43647);
  (43698, 43700); (43703, 43704); (43710, 43711); (43715, 43738);
  (43742, 43967); (44003, 44015); (44026, 44031); (55204, 55215);
  (55239, 55242); (55292, 55295); (57344, 63743); (64046, 64047);
  (64110, 64111); (64218, 64255); (64263, 64274); (64280, 64284);
  (64434, 64466); (64830, 64847); (64912, 64913); (64968, 65007);
  (65020, 65135); (65277, 65295); (65306, 65312); (65339, 65344);
  (65371, 65381); (65471, 65473); (65480, 65481); (65488, 65489);
  (65496, 65497) ]%N.

(** The table holds [true] at every single and at every member of a range, and
    nothing elsewhere. *)
Definition splitChars (c : N) : bool :=
  existsb (N.eqb c) singles || existsb (λ r, (r.1 <=? c)%N && (c <=? r.2)%N) ranges.

(** The loop of [splitQuery]: [start] is the position of the open word, if any
    ([-1] in the source), [i] the position of the unit read. *)
Fixpoint splitQuery_loop (query : jsstr) (rest : jsstr) (i : nat) (start : option nat)
    (result : list jsstr) : list jsstr * option nat :=
  match rest with
  | [] => (result, start)
  | c :: rest' =>
      if splitChars c then
        match start with
        | Some st => splitQuery_loop query rest' (S i) None
                       (result ++ [slice query (Z.of_nat st) (Z.of_nat i)])
        | None => splitQuery_loop query rest' (S i) None result
        end
      else
        match start with
        | None => splitQuery_loop query rest' (S i) (Some i) result
        | Some st => splitQuery_loop query rest' (S i) (Some st) result
        end
  end.

Definition splitQuery (query : jsstr) : list jsstr :=
  match splitQuery_loop query query 0 None [] with
  | (result, Some st) => result ++ [slice_from query (Z.of_nat st)]
  | (result, None) => result
  end.

Example splitQuery_ex : splitQuery (js "  foo-bar, baz") = [js "foo"; js "bar"; js "baz"].
Proof. vm_compute. reflexivity. Qed.

(** ** Agreement with the reference: cut everywhere, drop the empty pieces *)

Definition nonempty (w : jsstr) : bool := match w with [] => false | _ => true end.
Definition words (s : jsstr) : list jsstr :=
  base.filter (λ w, Is_true (nonempty w)) (split_on splitChars s).

Lemma words_sep c s : splitChars c = true → words (c :: s) = words s.
Proof. intros H. unfold words. simpl. rewrite H. by rewrite filter_cons_False by (simpl; tauto). Qed.

(** The word open at the front of [s]: its units up to the next separator. *)
Lemma words_open w s :
  Forall (λ c, splitChars c = false) w → w ≠ [] →
  words (w ++ s) =
    match s with
    | [] => [w]
    | c :: s' => if splitChars c then w :: words s' else words (w ++ s)
    end.
Proof.
  intros Hw Hne. destruct s as [|c s].
  - rewrite app_nil_r. unfold words.
    assert (E : split_on splitChars w = [w]).
    { clear Hne. induction Hw as [|d w Hd Hw IH]; [done|]. simpl. by rewrite Hd, IH. }
    rewrite E. rewrite filter_cons_True by (by destruct w). done.
  - destruct (splitChars c) eqn:Hc; [|done]. unfold words.
    assert (E : split_on splitChars (w ++ c :: s) = w :: split_on splitChars s).
    { clear Hne. induction Hw as [|d w Hd Hw IH]; simpl; [by rewrite Hc|]. by rewrite Hd, IH. }
    rewrite E. rewrite filter_cons_True by (by destruct w). done.
Qed.

(** The invariant of the scan: what is done, and the word that is open. *)
Lemma splitQuery_loop_spec query pre w rest result :
  query = pre ++ w ++ rest → Forall (λ c, splitChars c = false) w →
  (let '(result', start') := splitQuery_loop query rest (length pre + length w)
       (match w with [] => None | _ => Some (length pre) end) result in
   match start' with
   | Some st => result' ++ [slice_from query (Z.of_nat st)]
   | None => result'
   end) = result ++ words (w ++ rest).
Proof.
  revert pre w result. induction rest as [|c rest IH]; intros pre w result Hq Hw; simpl.
  - destruct w as [|d w].
    + unfold words. simpl. by rewrite app_nil_r.
    + rewrite words_open by done. f_equal. f_equal. unfold slice_from, rel_index, zlen.
      rewrite app_nil_r in Hq. subst query. rewrite length_app.
      destruct (Z.ltb_spec (Z.of_nat (length pre)) 0); [lia|].
      rewrite Z.min_l by lia. rewrite Nat2Z.id. by rewrite drop_app_length.
  - destruct (splitChars c) eqn:Hc.
    + assert (Hq' : query = (pre ++ w ++ [c]) ++ [] ++ rest).
      { rewrite Hq. simpl. by rewrite <- !(assoc_L (++)). }
      assert (Hl : length (pre ++ w ++ [c]) + length (@nil N) = S (length pre + length w)).
      { rewrite !length_app. simpl. lia. }
      destruct w as [|d w].
      * specialize (IH (pre ++ [c]) [] result). simpl in IH, Hl, Hq' |- *.
        rewrite Hl in IH. rewrite IH by done. by rewrite words_sep.
      * specialize (IH (pre ++ (d :: w) ++ [c]) [] (result ++ [d :: w]) Hq' (Forall_nil_2 _)).
        rewrite Hl in IH. cbn beta iota in IH.
        replace (slice query (Z.of_nat (length pre)) (Z.of_nat (length pre + length (d :: w))))
          with (d :: w).
        -- rewrite IH. rewrite (words_open (d :: w)) by done. rewrite Hc.
           by rewrite <- (assoc_L (++)).
        -- unfold slice, rel_index, zlen, slice_nat. subst query. rewrite !length_app.
           destruct (Z.ltb_spec (Z.of_nat (length pre)) 0); [lia|].
           destruct (Z.ltb_spec (Z.of_nat (length pre + length (d :: w))) 0); [lia|].
           rewrite !Z.min_l by lia. rewrite !Nat2Z.id, drop_app_length.
           replace (length pre + length (d :: w) - length pre) with (length (d :: w)) by lia.
           by rewrite take_app_length.
    + assert (Hq' : query = pre ++ (w ++ [c]) ++ rest).
      { rewrite Hq. by rewrite <- !(assoc_L (++)). }
      specialize (IH pre (w ++ [c]) result Hq').
      assert (Hl : length pre + length (w ++ [c]) = S (length pre + length w)).
      { rewrite length_app. simpl. lia. }
      rewrite Hl in IH. rewrite <- (assoc_L (++)) in IH. simpl in IH.
      destruct w as [|d w]; simpl in *.
      * rewrite Nat.add_0_r in *. apply IH. by repeat constructor.
      * apply IH. inversion Hw; subst. constructor; [done|]. apply Forall_app. by repeat constructor.
Qed.

Lemma splitQuery_words query : splitQuery query = words query.
Proof.
  pose proof (splitQuery_loop_spec query [] [] query [] eq_refl (Forall_nil_2 _)) as H.
  simpl in H. unfold splitQuery. rewrite <- H.
  destruct (splitQuery_loop query query 0 None []) as [r [st|]]; done.
Qed.

Lemma splitQuery_word query w :
  w ∈ splitQuery query → w ≠ [] ∧ Forall (λ c, splitChars c = false) w.
Proof.
  rewrite splitQuery_words. unfold words. intros [Hn Hin]%list_elem_of_filter.
  split; [by intros ->|]. revert w Hn Hin.
  pose proof (split_on_free splitChars query) as H. rewrite Forall_forall in H. eauto.
Qed.

(** C9: the scan of [splitQuery] returns exactly the non-empty pieces between the
    separators, in order: it agrees with cutting the query at every unit of the
    table and dropping the empty pieces; no word is empty or holds a separator. *)
Theorem splitQuery_spec query :
  splitQuery query =
    base.filter (λ w, Is_true (nonempty w)) (split_on splitChars query) ∧
  Forall (λ w, w ≠ [] ∧ Forall (λ c, splitChars c = false) w) (splitQuery query).
Proof.
  split; [apply splitQuery_words|]. apply Forall_forall. apply splitQuery_word.
Qed.

End Query.
