(* ===== verification/Search.v ===== *)
(** * The full-text search of searchtools.js

    [Search.query] splits, stems and classifies the words of a query, looks them
    up as object names and as terms of the index, sorts the results and displays
    them one by one.  The index is the data of searchindex.js. *)

From stdpp Require Import base tactics list strings numbers sets gmap sorting.
From Stdlib Require Import NArith ZArith Sorted Permutation Lia.
From S2P Require Import Prelude.
From S2P Require Import JsString.
From S2P Require Import Regex.
From S2P Require Import JsNum.
From S2P Require Import JsArray.
From S2P Require Import UCollections.
From S2P Require Import Doctools.
From S2P Require Import Stemmer.
From S2P Require Import SplitQuery.

Module Search.

(** ** Data *)

(** The files of a term: one number, or an array of numbers. *)
Inductive posting : Type :=
  | PSingle (file : nat)
  | PArray (files : list nat).

(** [objects[prefix][name]]: file, object type, priority, anchor. *)
Record object_entry := ObjectEntry {
  o_file : nat;
  o_type : nat;
  o_prio : Z;
  o_anchor : jsstr;
}.

Record index := Index {
  filenames : list jsstr;
  titles : list jsstr;
  terms : list (jsstr * posting);
  titleterms : list (jsstr * posting);
  objects : list (jsstr * list (jsstr * object_entry));
  (** [objnames[type]]: domain, name, description. *)
  objnames : list (nat * (jsstr * jsstr * jsstr));
}.

(** A result: [filename, title, anchor, descr, score]. *)
Record result := Result {
  r_filename : jsstr;
  r_title : jsstr;
r_anchor : jsstr;
r_descr : option jsstr;
r_score : num;
}.

(** [Scorer]: the weights, and the custom scoring function when there is one. *)
Module Scorer.
Definition objNameMatch : Z := 11.
Definition objPartialMatch : Z := 6.
Definition objPrio (prio : Z) : option Z :=
  if Z.eqb prio 0 then Some 15%Z
  else if Z.eqb prio 1 then Some 5%Z
  else if Z.eqb prio 2 then Some (-5)%Z
  else None.
Definition objPrioDefault : Z := 0.
Definition title : Z := 15.
Definition term : Z := 5.
End Scorer.

Definition stopwords : list jsstr := js <$> [
"a"; "and"; "are"; "as"; "at"; "be"; "but"; "by"; "for"; "if"; "in"; "into"; "is"; "it";
  "near"; "no"; "not"; "of"; "on"; "or"; "such"; "that"; "the"; "their"; "then"; "there";
  "these"; "they"; "this"; "to"; "was"; "will"; "with" ]%string.

(** A number out of range reads [undefined], which concatenates as text. *)
Definition str_at (l : list jsstr) (i : nat) : jsstr := default (js "undefined") (l !! i).

Section search.
Context `{UnicodeCase}.

(** ** Classifying the words of a query *)

Record classified := Classified {
  searchterms : list jsstr;
  excluded : list jsstr;
  hlterms : list jsstr;
  objectterms : list jsstr;
}.

(** [/^\d+$/] *)
Definition number_re : regex := seqs [RBol; plus (RSet is_digit); REol].

(** The two leading words of the loop body that skip a word. *)
Definition skip_word (w : jsstr) : bool :=
  negb (Z.eqb (U.indexOf stopwords (to_lower w)) (-1)) || test number_re w || str_eqb w [].

Definition push_new (l : list jsstr) (w : jsstr) : list jsstr :=
  if U.contains (CArray l) w then l else l ++ [w].

Definition classify_word (c : classified) (w : jsstr) : classified :=
  let objectterms' :=
    if str_eqb w [] then objectterms c else objectterms c ++ [to_lower w] in
  if skip_word w then Classified (searchterms c) (excluded c) (hlterms c) objectterms'
  else
    let word := Stemmer.stemWord (to_lower w) in
    if str_eqb (charAt word 0) (js "-")
    then Classified (searchterms c) (push_new (excluded c) (substr_from word 1)) (hlterms c)
           objectterms'
    else Classified (push_new (searchterms c) word) (excluded c) (hlterms c ++ [to_lower w])
           objectterms'.

Definition classify (query : jsstr) : classified :=
  foldl classify_word (Classified [] [] [] []) (Query.splitQuery query).

(** ** Object names *)

Definition last_part (fullname : jsstr) : jsstr :=
  List.last (split_unit (chr ".") fullname) [].

Definition name_score (fullname object : jsstr) : Z :=
  if str_eqb fullname object || str_eqb (last_part fullname) object then Scorer.objNameMatch
  else if contains_str (last_part fullname) object then Scorer.objPartialMatch
  else 0%Z.

(** One name of one prefix; [in_word] is the translation of ", in ". *)
Definition object_result (ix : index) (in_word : jsstr) (object : jsstr) (otherterms : list jsstr)
    (prefix name : jsstr) (m : object_entry) : outcome (option result) :=
  let fullname := match prefix with [] => [] | _ => prefix ++ js "." end ++ name in
  if contains_str (to_lower fullname) object then
    match snd <$> list_find (λ p : nat * (jsstr * jsstr * jsstr), p.1 = o_type m) (objnames ix) with
    | None => Throw TypeError
    | Some (_, (domain, objtype, objname)) =>
        let title := str_at (titles ix) (o_file m) in
        let haystack :=
          to_lower (prefix ++ js " " ++ name ++ js " " ++ objname ++ js " " ++ title) in
        if forallb (contains_str haystack) otherterms then
          let descr := objname ++ in_word ++ title in
          let anchor :=
            if str_eqb (o_anchor m) [] then fullname
            else if str_eqb (o_anchor m) (js "-") then objtype ++ js "-" ++ fullname
            else o_anchor m in
          let score :=
            (name_score fullname object +
             match Scorer.objPrio (o_prio m) with
             | Some s => s
             | None => Scorer.objPrioDefault
             end)%Z in
          Ok (Some (Result (str_at (filenames ix) (o_file m)) fullname (js "#" ++ anchor)
                      (Some descr) (Int score)))
        else Ok None
    end
  else Ok None.

(** The two nested loops over [objects]. *)
Fixpoint object_names (ix : index) (in_word object : jsstr) (otherterms : list jsstr)
    (prefix : jsstr) (names : list (jsstr * object_entry)) : outcome (list result) :=
  match names with
  | [] => Ok []
  | (name, m) :: names' =>
      match object_result ix in_word object otherterms prefix name m with
      | Throw e => Throw e
      | Ok r =>
          match object_names ix in_word object otherterms prefix names' with
          | Throw e => Throw e
          | Ok rs => Ok (option_list r ++ rs)
          end
      end
  end.
Fixpoint object_prefixes (ix : index) (in_word object : jsstr) (otherterms : list jsstr)
    (objs : list (jsstr * list (jsstr * object_entry))) : outcome (list result) :=
  match objs with
  | [] => Ok []
  | (prefix, names) :: objs' =>
      match object_names ix in_word object otherterms prefix names with
      | Throw e => Throw e
      | Ok rs =>
          match object_prefixes ix in_word object otherterms objs' with
          | Throw e => Throw e
          | Ok rs' => Ok (rs ++ rs')
          end
      end
  end.
Definition performObjectSearch (ix : index) (in_word object : jsstr) (otherterms : list jsstr)
    : outcome (list result) :=
  object_prefixes ix in_word object otherterms (objects ix).
End search.

(** ** Full-text terms *)

(** What [terms[word]] is: the posting of the word, or the function that objects inherit
    from [Object.prototype] under that name ([terms.constructor]).  The word [__proto__],
    whose value is no function, is not modelled. *)
Inductive property := Own (p : posting) | Native (name : jsstr).
Definition lookup_word (word : jsstr) (table : list (jsstr * posting)) : option property :=
  match obj_get word table with
  | Some p => Some (Own p)
  | None => if Doc.inherited word then Some (Native word) else None
  end.

(** What [fileMap] and [scoreMap] hold: the words found for a file, and the score
    of every word in a file.  Their names are file numbers; in [fileMap] there are also the
    texts of functions, kept in [funMap] under the names of the functions. *)
Record term_maps := TermMaps {
  fileMap : gmap nat (list jsstr);
  scoreMap : gmap nat (list (jsstr * num));
  funMap : list (jsstr * list jsstr);
}.

(** The two lookups of a word, with their scores. *)
Definition lookups (ix : index) (word : jsstr) : list (option property * num) :=
  [ (lookup_word word (terms ix), Int Scorer.term);
    (lookup_word word (titleterms ix), Int Scorer.title) ].

(** A member of [files]: [concat] copies the files of a posting, and takes a function as one
    member. *)
Inductive file_ref := File (file : nat) | FunText (name : jsstr).
Definition posting_files (p : posting) : list nat :=
  match p with PSingle f => [f] | PArray fs => fs end.
Definition concat_files (p : property) : list file_ref :=
  match p with Own p => File <$> posting_files p | Native name => [FunText name] end.
(** The files that get a score.  A function has a length but no members: its scores go to a
    file called undefined, which is never looked up. *)
Definition scored_files (p : property) : list nat :=
  match p with Own p => posting_files p | Native _ => [] end.

(** The callback of [$u.each]: [files] grows, and every file gets the score. *)
Definition each_lookup (word : jsstr) (o : option property * num)
    : M (list file_ref * gmap nat (list (jsstr * num))) unit :=
  match o.1 with
  | None => mret tt
  | Some p =>
      modify (λ st,
        (st.1 ++ concat_files p,
         foldl (λ sm file, <[file := obj_set word o.2 (default [] (sm !! file))]> sm)
           st.2 (scored_files p)))
  end.

Definition add_word (word : jsstr) (fm : gmap nat (list jsstr)) (file : nat)
    : gmap nat (list jsstr) :=
  <[file := default [] (fm !! file) ++ [word]]> fm.
Definition add_ref (word : jsstr) (m : gmap nat (list jsstr) * list (jsstr * list jsstr)) (r : file_ref)
    : gmap nat (list jsstr) * list (jsstr * list jsstr) :=
  match r with
  | File file => (add_word word m.1 file, m.2)
  | FunText name => (m.1, obj_set name (default [] (obj_get name m.2) ++ [word]) m.2)
  end.

(** One required word; [None] is the [break] of the loop. *)
Definition term_step (ix : index) (word : jsstr) (tm : term_maps) : option term_maps :=
  let os := lookups ix word in
  match run_pure (U.every (CArray os) (λ (o : option property * num) _, mret (U.is_undef o.1))) with
  | Ok false =>
      let '(_, (files, sm)) :=
        U.each (CArray os) (λ o _, each_lookup word o) ([], scoreMap tm) in
      let '(fm, funs) := foldl (add_ref word) (fileMap tm, funMap tm) files in
      Some (TermMaps fm sm funs)
  | _ => None
  end.

Fixpoint term_loop (ix : index) (words : list jsstr) (tm : term_maps) : term_maps :=
  match words with
  | [] => tm
  | w :: ws =>
      match term_step ix w tm with
      | Some tm' => term_loop ix ws tm'
      | None => tm
      end
  end.

(** A value that [for (file in fileMap)] compares: the property name of a file is
    a string, the members of a posting are numbers. *)
Inductive file_value : Type :=
  | FNum (n : nat)
  | FName (n : nat).
#[export] Instance file_value_seq : StrictEq file_value := λ a b,
  match a, b with
  | FNum x, FNum y | FName x, FName y => Nat.eqb x y
  | _, _ => false
  end.

(** [terms[e] == file]: a number equals the name it converts to; an array is
    converted to the text of its members, so only an array of one member can
    equal the name of a file.  An inherited function equals no name of a file, and
    [_.contains] finds nothing in it. *)
Definition loose_eq (p : option posting) (file : nat) : bool :=
  match p with
  | Some (PSingle n) => Nat.eqb n file
  | Some (PArray [n]) => Nat.eqb n file
  | _ => false
  end.
(** [$u.contains(terms[e] || [], file)]. *)
Definition posting_contains (p : option posting) (file : nat) : bool :=
  match p with
  | Some (PArray l) => U.contains (CArray (FNum <$> l)) (FName file)
  | Some (PSingle 0) | None => U.contains (CArray []) (FName file)
  | Some (PSingle (S _)) => U.contains (CObject []) (FName file)
  end.

Definition is_excluded (ix : index) (file : nat) (e : jsstr) : bool :=
  loose_eq (obj_get e (terms ix)) file || loose_eq (obj_get e (titleterms ix)) file
  || posting_contains (obj_get e (terms ix)) file
  || posting_contains (obj_get e (titleterms ix)) file.

(** The names of [fileMap] in the order of [for ... in]: ascending numbers. *)
Definition file_keys (fm : gmap nat (list jsstr)) : list nat :=
  merge_sort Nat.le (elements (dom fm)).

(** [scoreMap[file][w]]; a missing score is [undefined], which no comparison
    prefers, like [NaN]. *)
Definition word_score (tm : term_maps) (file : nat) (w : jsstr) : num :=
  default NaN (obj_get w (default [] (scoreMap tm !! file))).

Definition file_result (ix : index) (searchterms excluded : list jsstr) (tm : term_maps)
    (file : nat) : option result :=
  let ws := default [] (fileMap tm !! file) in
  if negb (length ws =? length searchterms) then None
  else if existsb (is_excluded ix file) excluded then None
  else
    let scores := match run_pure (U.map (CArray ws) (λ w _, mret (word_score tm file w))) with
                  | Ok l => l
                  | Throw _ => []
                  end in
    Some (Result (str_at (filenames ix) file) (str_at (titles ix) file) [] None
            (U.max (CArray scores))).

(** The text of a function among the names of [fileMap] has no scores: reading them throws,
    when it has as many words as required and is not the text of an excluded word's value. *)
Definition excludes_fun (ix : index) (name e : jsstr) : bool :=
  let is_fun p := match p with Some (Native n) => str_eqb n name | _ => false end in
  is_fun (lookup_word e (terms ix)) || is_fun (lookup_word e (titleterms ix)).
Definition fun_throws (ix : index) (searchterms excluded : list jsstr) (f : jsstr * list jsstr) : bool :=
  (length f.2 =? length searchterms) && negb (existsb (excludes_fun ix f.1) excluded).

Definition performTermsSearch (ix : index) (searchterms excluded : list jsstr) : outcome (list result) :=
  let tm := term_loop ix searchterms (TermMaps ∅ ∅ []) in
  if existsb (fun_throws ix searchterms excluded) (funMap tm) then Throw TypeError
  else Ok (omap (file_result ix searchterms excluded tm) (file_keys (fileMap tm))).

(** ** Sorting and displaying *)

Section display.
Context `{UnicodeCase}.

Definition result_cmp (a b : result) : Z :=
  if num_gt (r_score a) (r_score b) then 1%Z
  else if num_lt (r_score a) (r_score b) then (-1)%Z
  else
    let left := to_lower (r_title a) in
    let right := to_lower (r_title b) in
    if str_ltb right left then (-1)%Z else if str_ltb left right then 1%Z else 0%Z.

(** [objectterms] one by one, each with the others as required words. *)
Fixpoint object_results (ix : index) (in_word : jsstr) (before after : list jsstr)
    : outcome (list result) :=
  match after with
  | [] => Ok []
  | o :: after' =>
      match performObjectSearch ix in_word o (before ++ after') with
      | Throw e => Throw e
      | Ok rs =>
          match object_results ix in_word (before ++ [o]) after' with
          | Throw e => Throw e
          | Ok rs' => Ok (rs ++ rs')
          end
      end
  end.

(** [Search.query] up to the display: the sorted results.  [score] is
    [Scorer.score] when the page defines it. *)
Definition query_results (ix : index) (in_word : jsstr) (score : option (result → num))
    (query : jsstr) : outcome (list result) :=
  let c := classify query in
  match object_results ix in_word [] (objectterms c) with
  | Throw e => Throw e
  | Ok objs =>
      match performTermsSearch ix (searchterms c) (excluded c) with
      | Throw e => Throw e
      | Ok rs =>
          let results := objs ++ rs in
          let results := match score with
                         | None => results
                         | Some f => (λ r, Result (r_filename r) (r_title r) (r_anchor r) (r_descr r) (f r))
                                       <$> results
                         end in
          Ok (js_sort result_cmp results)
      end
  end.

(** The options of the page and the link of a result. *)
Record doc_options := DocOptions {
  URL_ROOT : jsstr;
  FILE_SUFFIX : jsstr;
  HAS_SOURCE : bool;
}.

(** [dirname.match(/\/index\/$/)] *)
Definition index_dir_re : regex := seqs [lit "/index/"; REol].
Definition item_href (opts : doc_options) (highlightstring : jsstr) (item : result) : jsstr :=
  if str_eqb (FILE_SUFFIX opts) [] then
    let dirname := r_filename item ++ js "/" in
    let dirname :=
      if test index_dir_re dirname then substring dirname 0 (zlen dirname - 6)
      else if str_eqb dirname (js "index/") then [] else dirname in
    URL_ROOT opts ++ dirname ++ highlightstring ++ r_anchor item
  else r_filename item ++ FILE_SUFFIX opts ++ highlightstring ++ r_anchor item.

(** [displayNextItem]: one call takes the last result and shows it; the call
    after the last one writes the final status. *)
Record display := Display {
  d_results : list result;
  d_output : list result;
  d_status : option nat;      (* the number of results, once finished *)
}.
Definition displayNextItem (resultCount : nat) (d : display) : display :=
  match last (d_results d) with
  | Some item => Display (removelast (d_results d)) (d_output d ++ [item]) (d_status d)
  | None => Display [] (d_output d) (Some resultCount)
  end.
Definition display_all (results : list result) : display :=
  Nat.iter (S (length results)) (displayNextItem (length results)) (Display results [] None).

(** ** The summary of a page *)

Definition trim_left (s : jsstr) : jsstr :=
  (fix go s := match s with c :: s' => if is_space c then go s' else s | [] => [] end) s.
(** [$.trim]. *)
Definition trim (s : jsstr) : jsstr := reverse (trim_left (reverse (trim_left s))).

Definition summary_start (text : jsstr) (keywords : list jsstr) : Z :=
  let textLower := to_lower text in
  let start := foldl (λ start k,
    let i := indexOf textLower (to_lower k) in
    if (i >? -1)%Z then i else start) 0%Z keywords in
  Z.max (start - 120) 0.

Definition summary_excerpt (text : jsstr) (keywords : list jsstr) : jsstr :=
  let start := summary_start text keywords in
  (if (start >? 0)%Z then js "..." else []) ++ trim (substr text start 240) ++
  (if Z.eqb (start + 240 - zlen text) 0 then [] else js "...").
End display.


(** ** The classification of a query *)

Section classify_facts.
Context `{UnicodeCase}.

Lemma charAt_0 (s : jsstr) : charAt s 0 = match head s with Some c => [c] | None => [] end.
Proof. by destruct s. Qed.

Lemma push_new_elem l w x : x ∈ push_new l w ↔ x ∈ l ∨ x = w.
Proof.
  unfold push_new. destruct (U.contains (CArray l) w) eqn:E.
  - apply contains_str_elem in E. naive_solver.
  - by rewrite elem_of_app, list_elem_of_singleton.
Qed.

Lemma push_new_NoDup l w : NoDup l → NoDup (push_new l w).
Proof.
  unfold push_new. intros Hl. destruct (U.contains (CArray l) w) eqn:E; [done|].
  apply NoDup_app. split; [done|]. split; [|apply NoDup_singleton].
  intros x Hx ->%list_elem_of_singleton. apply contains_str_elem in Hx. congruence.
Qed.

(** [-] is one of the separators of [splitQuery], lower-casing produces none,
    and the stemmer keeps the first unit. *)
Lemma stem_no_minus q w :
  w ∈ Query.splitQuery q →
  str_eqb (charAt (Stemmer.stemWord (to_lower w)) 0) (js "-") = false.
Proof.
  intros [_ Hw]%Query.splitQuery_word. unfold str_eqb. apply bool_decide_eq_false. rewrite charAt_0.
  assert (Hh : head (Stemmer.stemWord (to_lower w)) = head (to_lower w)).
  { destruct (to_lower w) as [|c u] eqn:E; [done|].
    apply Stemmer.shrinks_head, Stemmer.stemWord_shrinks. done. }
  rewrite Hh. destruct (to_lower w) as [|c u] eqn:E; [done|]. simpl. intros [= ->].
  assert (Hin : 45%N ∈ w).
  { apply (to_lower_nonletter w 45%N); [lia|]. rewrite E. by left. }
  rewrite Forall_forall in Hw. specialize (Hw _ Hin). vm_compute in Hw. done.
Qed.

(** What the loop keeps of the words read so far. *)
Definition kept (ws : list jsstr) : list jsstr :=
  base.filter (λ w, Is_true (negb (skip_word w))) ws.
Record classified_as (ws : list jsstr) (c : classified) : Prop := ClassifiedAs {
  ca_search : ∀ t, t ∈ searchterms c ↔ ∃ w, w ∈ kept ws ∧ t = Stemmer.stemWord (to_lower w);
  ca_nodup : NoDup (searchterms c);
  ca_excluded : excluded c = [];
  ca_hl : hlterms c = to_lower <$> kept ws;
  ca_obj : objectterms c = to_lower <$> ws;
}.

Lemma classify_word_step q ws w c :
  w ∈ Query.splitQuery q → classified_as ws c →
  classified_as (ws ++ [w]) (classify_word c w).
Proof.
  intros Hw [Hs Hn He Hh Ho]. pose proof (Query.splitQuery_word _ _ Hw) as [Hne _].
  unfold classify_word. rewrite (stem_no_minus q) by done.
  assert (Hw0 : str_eqb w [] = false) by (by apply bool_decide_eq_false).
  rewrite Hw0.
  assert (Hk : kept (ws ++ [w]) = if skip_word w then kept ws else kept ws ++ [w]).
  { unfold kept. rewrite filter_app, filter_cons, filter_nil.
    destruct (skip_word w); simpl; [by rewrite app_nil_r|done]. }
  destruct (skip_word w); split; simpl; rewrite ?Hk, ?fmap_app, ?Ho, ?Hh; try done.
  - intros t. rewrite push_new_elem, Hs. split.
    + intros [(v & Hv & ->)| ->]; eexists; (split; [apply elem_of_app|done]); [by left|].
      right. by apply list_elem_of_singleton.
    + intros (v & [Hv|Hv]%elem_of_app & ->); [left; by eexists|right].
      by apply list_elem_of_singleton in Hv as ->.
  - by apply push_new_NoDup.
Qed.

Lemma classify_words query : classified_as (Query.splitQuery query) (classify query).
Proof.
  unfold classify.
  assert (Hg : ∀ l ws c, (∀ w, w ∈ l → w ∈ Query.splitQuery query) → classified_as ws c →
    classified_as (ws ++ l) (foldl classify_word c l)).
  { induction l as [|w l IH]; intros ws c Hl Hc; simpl; [by rewrite app_nil_r|].
    replace (ws ++ w :: l) with ((ws ++ [w]) ++ l) by (by rewrite <- (assoc_L (++))).
    apply IH; [intros; apply Hl; by right|].
    eapply classify_word_step; [apply Hl; by left|done]. }
  apply (Hg _ []); [done|]. split; simpl; try done; [|constructor].
  intros t. unfold kept. rewrite filter_nil. split; [intros []%elem_of_nil|].
  intros (? & []%elem_of_nil & _).
Qed.
End classify_facts.

(** C8: the words of a query are classified as follows: every word is an object
    term; the words that are neither stop words nor numbers are highlighted, and
    their stems, without repetition, are the required terms; the list of excluded
    terms is always empty, because [splitQuery] cuts at the minus sign that would
    mark an excluded word. *)
Theorem classify_spec `{UnicodeCase} (query : jsstr) :
  let c := classify query in
  let required := base.filter (λ w, Is_true (negb (skip_word w))) (Query.splitQuery query) in
  objectterms c = to_lower <$> Query.splitQuery query ∧
  hlterms c = to_lower <$> required ∧
  (∀ t, t ∈ searchterms c ↔ ∃ w, w ∈ required ∧ t = Stemmer.stemWord (to_lower w)) ∧
  NoDup (searchterms c) ∧
  excluded c = [].
Proof. destruct (classify_words query); auto. Qed.

(** ** The full-text search finds the files of all words *)

(** The files of a word: those of its posting in the texts, then those of its
    posting in the titles. *)
Definition lookup_files (o : option posting) : list nat := from_option posting_files [] o.
Definition text_files (ix : index) (w : jsstr) : list nat := lookup_files (obj_get w (terms ix)).
Definition title_files (ix : index) (w : jsstr) : list nat :=
  lookup_files (obj_get w (titleterms ix)).
Definition word_files (ix : index) (w : jsstr) : list nat := text_files ix w ++ title_files ix w.

(** What the index generator promises: no file twice in a posting, and a word of
    the title of a file is not listed again for its text. *)
Definition postings_ok (ix : index) (w : jsstr) : Prop := NoDup (word_files ix w).
(** A word that is also no name of [Object.prototype]. *)
Definition searchable (ix : index) (w : jsstr) : Prop := postings_ok ix w ∧ Doc.inherited w = false.

Lemma add_words_lookup w files fm f :
  NoDup files →
  foldl (add_word w) fm files !! f =
    if decide (f ∈ files) then Some (default [] (fm !! f) ++ [w]) else fm !! f.
Proof.
  revert fm. induction files as [|g files IH]; intros fm Hn; cbn [foldl].
  - rewrite decide_False; [done|apply not_elem_of_nil].
  - apply NoDup_cons in Hn as [Hg Hn]. rewrite IH by done. unfold add_word.
    destruct (decide (f = g)) as [->|Hne].
    + rewrite (decide_False (P := g ∈ files)), lookup_insert_eq by done.
      rewrite decide_True; [done|by left].
    + rewrite lookup_insert_ne by done. apply decide_ext.
      rewrite elem_of_cons. naive_solver.
Qed.

Definition set_score (w : jsstr) (sc : num) (sm : gmap nat (list (jsstr * num))) (file : nat) :=
  <[file := obj_set w sc (default [] (sm !! file))]> sm.

Lemma set_scores_get w sc files sm f w' :
  obj_get w' (default [] (foldl (set_score w sc) sm files !! f)) =
    if decide (w' = w ∧ f ∈ files) then Some sc else obj_get w' (default [] (sm !! f)).
Proof.
  revert sm. induction files as [|g files IH]; intros sm; cbn [foldl].
  - rewrite decide_False; [done|]. by intros [_ []%elem_of_nil].
  - rewrite IH. unfold set_score. destruct (decide (f = g)) as [->|Hne].
    + rewrite lookup_insert_eq. simpl. rewrite obj_get_set.
      destruct (decide (w' = w)) as [->|].
      * rewrite (decide_True (P := w = w ∧ g ∈ g :: files)) by (split; [done|by left]).
        by case_decide.
      * rewrite !decide_False by tauto. done.
    + rewrite lookup_insert_ne by done. apply decide_ext. rewrite elem_of_cons. tauto.
Qed.

Lemma add_refs_docs w files fm funs :
  foldl (add_ref w) (fm, funs) (File <$> files) = (foldl (add_word w) fm files, funs).
Proof. revert fm. induction files as [|f files IH]; intros fm; [done|]. apply IH. Qed.

Lemma term_step_eq ix w tm :
  Doc.inherited w = false →
  term_step ix w tm =
    match obj_get w (terms ix), obj_get w (titleterms ix) with
    | None, None => None
    | _, _ =>
        Some (TermMaps (foldl (add_word w) (fileMap tm) (word_files ix w))
          (foldl (set_score w (Int Scorer.title))
            (foldl (set_score w (Int Scorer.term)) (scoreMap tm) (text_files ix w))
            (title_files ix w)) (funMap tm))
    end.
Proof.
  intros Hw. unfold term_step, word_files, text_files, title_files, lookups, lookup_word, set_score. rewrite Hw.
  pose proof (λ l sm, f_equal (λ '(fm, funs), Some (TermMaps fm sm funs)) (add_refs_docs w l (fileMap tm) (funMap tm)))
    as E. cbv beta iota in E.
  destruct (obj_get w (terms ix)) as [p|], (obj_get w (titleterms ix)) as [q|]; cbn; rewrite <- ?E, ?fmap_app, ?app_nil_r;
    reflexivity.
Qed.

(** The score of a word in a file. *)
Definition text_score (ix : index) (w : jsstr) (f : nat) : num :=
  Int (if decide (f ∈ title_files ix w) then Scorer.title else Scorer.term).

(** The maps after the words [ws]. *)
Record maps_of (ix : index) (ws : list jsstr) (tm : term_maps) : Prop := MapsOf {
  mo_files : ∀ f, default [] (fileMap tm !! f) = base.filter (λ w, f ∈ word_files ix w) ws;
  mo_some : ∀ f, fileMap tm !! f ≠ Some [];
  mo_scores : ∀ f w, w ∈ ws → f ∈ word_files ix w → word_score tm f w = text_score ix w f;
  mo_funs : funMap tm = [];
}.

Lemma term_step_maps ix ws w tm tm' :
  searchable ix w → maps_of ix ws tm → term_step ix w tm = Some tm' →
  maps_of ix (ws ++ [w]) tm'.
Proof.
  intros [Hok Hw] [Hf Hs Hsc Hfun] Ht. rewrite term_step_eq in Ht by done.
  assert (Htm : tm' = TermMaps (foldl (add_word w) (fileMap tm) (word_files ix w))
          (foldl (set_score w (Int Scorer.title))
            (foldl (set_score w (Int Scorer.term)) (scoreMap tm) (text_files ix w))
            (title_files ix w)) (funMap tm)) by (by repeat case_match; simplify_eq).
  subst tm'. clear Ht. split; simpl; [| | |done].
  - intros f. rewrite add_words_lookup, filter_app, filter_cons, filter_nil by done.
    rewrite <- Hf. case_decide; simpl; [done|by rewrite app_nil_r].
  - intros f. rewrite add_words_lookup by done. case_decide; [|done].
    intros [= E]. by apply app_eq_nil in E as [_ ?].
  - intros f w' Hw' Hin. unfold word_score, text_score in *. simpl. rewrite !set_scores_get.
    unfold word_files in Hin. rewrite elem_of_app in Hin.
    destruct (decide (w' = w)) as [->|Hne].
    + destruct (decide (f ∈ title_files ix w)); [by rewrite decide_True|].
      rewrite decide_False by tauto. rewrite decide_True by tauto. done.
    + rewrite !decide_False by tauto. apply Hsc; [|by apply elem_of_app].
      apply elem_of_app in Hw' as [|Hw']; [done|]. by apply list_elem_of_singleton in Hw'.
Qed.

Lemma term_loop_maps ix words ws tm :
  (∀ w, w ∈ words → searchable ix w) → maps_of ix ws tm →
  ∃ read rest, words = read ++ rest ∧ maps_of ix (ws ++ read) (term_loop ix words tm) ∧
    (rest = [] ∨ ∃ w, w ∈ rest ∧ word_files ix w = []).
Proof.
  revert ws tm. induction words as [|w words IH]; intros ws tm Hok Hm; simpl.
  - exists [], []. rewrite (app_nil_r ws). split; [done|]. split; [done|by left].
  - destruct (term_step ix w tm) as [tm'|] eqn:E.
    + destruct (IH (ws ++ [w]) tm') as (read & rest & -> & Hr & Hrest).
      { intros; apply Hok; by right. }
      { eapply term_step_maps; [apply Hok; by left|done..]. }
      exists (w :: read), rest. rewrite <- (assoc_L (++)) in Hr. split; [done|]. by split.
    + exists [], (w :: words). rewrite (app_nil_r ws). split; [done|]. split; [done|]. right.
      exists w. split; [by left|]. rewrite term_step_eq in E by (apply Hok; by left). unfold word_files, text_files,
        title_files. by destruct (obj_get w (terms ix)), (obj_get w (titleterms ix)).
Qed.


Lemma valid_words ix (words : list jsstr) f :
  length (base.filter (λ w, f ∈ word_files ix w) words) = length words ↔
  ∀ w, w ∈ words → f ∈ word_files ix w.
Proof.
  induction words as [|w words IH]; [split; [by intros _ w []%elem_of_nil|done]|].
  rewrite filter_cons. pose proof (length_filter (λ w, f ∈ word_files ix w) words).
  split.
  - case_decide; simpl; [|lia]. intros [= Hl] v [->|Hv]%elem_of_cons; [done|]. by apply IH.
  - intros Hall. rewrite decide_True by (apply Hall; by left). simpl. f_equal. apply IH.
    intros; apply Hall; by right.
Qed.

(** The score of a file: that of the title when a word is in it. *)
Definition file_score (ix : index) (words : list jsstr) (f : nat) : num :=
  Int (if existsb (λ w, bool_decide (f ∈ title_files ix w)) words
       then Scorer.title else Scorer.term).

Lemma max_text_scores ix words f :
  words ≠ [] →
  U.max (CArray ((λ w, text_score ix w f) <$> words)) = file_score ix words f.
Proof.
  intros Hne. unfold U.max, file_score. simpl U.values.
  set (mx := foldl (λ result value, if num_gt value result then value else result)).
  assert (Hg : ∀ (l : list jsstr) (b : bool),
    mx (Int (if b then Scorer.title else Scorer.term)) ((λ w, text_score ix w f) <$> l) =
    Int (if b || existsb (λ w, bool_decide (f ∈ title_files ix w)) l
         then Scorer.title else Scorer.term)).
  { unfold mx, text_score. induction l as [|w l IH]; intros b; [by destruct b|].
    rewrite fmap_cons. cbn [foldl existsb].
    destruct (decide (f ∈ title_files ix w));
      [rewrite (bool_decide_eq_true_2 (f ∈ title_files ix w)) by done|
       rewrite (bool_decide_eq_false_2 (f ∈ title_files ix w)) by done];
      destruct b; cbn [orb].
    - apply (IH true).
    - apply (IH true).
    - apply (IH true).
    - apply (IH false). }
  destruct words as [|w words]; [done|]. rewrite fmap_cons. unfold mx. cbn [foldl existsb].
  unfold text_score at 2. destruct (decide (f ∈ title_files ix w)).
  - rewrite (bool_decide_eq_true_2 (f ∈ title_files ix w)) by done. apply (Hg words true).
  - rewrite (bool_decide_eq_false_2 (f ∈ title_files ix w)) by done. apply (Hg words false).
Qed.

(** A file is a result when it has all the words and no excluded one. *)
Definition matches (ix : index) (searchterms excluded : list jsstr) (f : nat) : Prop :=
  searchterms ≠ [] ∧ Forall (λ w, f ∈ word_files ix w) searchterms ∧
  Forall (λ e, is_excluded ix f e = false) excluded.
#[export] Instance matches_dec ix ss es f : Decision (matches ix ss es f).
Proof. unfold matches. apply _. Defined.

Lemma file_keys_spec fm :
  StronglySorted lt (file_keys fm) ∧ ∀ f, f ∈ file_keys fm ↔ is_Some (fm !! f).
Proof.
  unfold file_keys. set (l := elements (dom fm)).
  assert (Hp : merge_sort Nat.le l ≡ₚ l) by apply (merge_sort_Permutation _).
  assert (Hs : StronglySorted Nat.le (merge_sort Nat.le l)) by (apply StronglySorted_merge_sort; apply _).
  split.
  - assert (Hn : NoDup (merge_sort Nat.le l)) by (rewrite Hp; apply NoDup_elements).
    revert Hs Hn. generalize (merge_sort Nat.le l). intros k Hs.
    induction Hs as [|x k Hs IH Hx]; [constructor|]. intros [Hx' Hn]%NoDup_cons.
    constructor; [by apply IH|]. rewrite Forall_forall in Hx |- *. intros y Hy.
    specialize (Hx y Hy). assert (x ≠ y) by (by intros ->). unfold Nat.le in *. lia.
  - intros f. rewrite Hp. unfold l. by rewrite elem_of_elements, elem_of_dom.
Qed.


Lemma empty_maps ix : maps_of ix [] (TermMaps ∅ ∅ []).
Proof.
  split; simpl; [intros; by rewrite lookup_empty|intros; by rewrite lookup_empty| |done].
  by intros f' w []%elem_of_nil.
Qed.

Lemma matches_key ix ss es f :
  (∀ w, w ∈ ss → searchable ix w) → matches ix ss es f →
  is_Some (fileMap (term_loop ix ss (TermMaps ∅ ∅ [])) !! f).
Proof.
  intros Hok (Hne & Hall & _). rewrite Forall_forall in Hall.
  destruct (term_loop_maps ix ss [] (TermMaps ∅ ∅ [])) as (read & rest & Hss & [Hf _ _ _] & Hrest);
    [done|apply empty_maps|].
  destruct Hrest as [->|(w & Hw & Hnil)].
  - rewrite app_nil_r in Hss. subst read. specialize (Hf f). rewrite app_nil_l in Hf.
    rewrite list_filter_all in Hf by done. destruct (fileMap _ !! f); [by eexists|].
    simpl in Hf. by subst ss.
  - assert (Hin : f ∈ word_files ix w) by (apply Hall; rewrite Hss; apply elem_of_app; by right).
    rewrite Hnil in Hin. by apply elem_of_nil in Hin.
Qed.

Lemma file_result_eq ix ss es f :
  (∀ w, w ∈ ss → searchable ix w) →
  let tm := term_loop ix ss (TermMaps ∅ ∅ []) in
  f ∈ file_keys (fileMap tm) →
  file_result ix ss es tm f =
    if decide (matches ix ss es f)
    then Some (Result (str_at (filenames ix) f) (str_at (titles ix) f) [] None (file_score ix ss f))
    else None.
Proof.
  intros Hok tm [ws Hws]%file_keys_spec.
  destruct (term_loop_maps ix ss [] (TermMaps ∅ ∅ [])) as (read & rest & Hss & [Hf Hne Hsc _] & Hrest);
    [done|apply empty_maps|].
  fold tm in Hf, Hne, Hsc. clearbody tm. rewrite app_nil_l in Hf, Hsc.
  unfold file_result. rewrite Hf.
  pose proof (length_filter (λ w, f ∈ word_files ix w) read) as Hle.
  destruct Hrest as [->|(w & Hw & Hnil)].
  - rewrite app_nil_r in Hss. subst read. destruct (Nat.eqb_spec
      (length (base.filter (λ w, f ∈ word_files ix w) ss)) (length ss)) as [Hl|Hl]; cbn [negb].
    + pose proof (proj1 (valid_words ix ss f) Hl) as Hall.
      assert (Hfilter : base.filter (λ w, f ∈ word_files ix w) ss = ss)
        by (apply list_filter_all; intros; by apply Hall).
      rewrite Hfilter. unfold run_pure. rewrite map_pure. simpl.
      destruct (existsb (is_excluded ix f) es) eqn:Ex.
      * rewrite decide_False; [done|]. intros (_ & _ & He). rewrite Forall_forall in He.
        apply existsb_elem_of in Ex as (e & Hin & He'). by rewrite He in He'.
      * assert (Hsse : ss ≠ []).
        { intros ->. specialize (Hf f). rewrite Hws in Hf. simpl in Hf. subst ws.
          by destruct (Hne f). }
        rewrite decide_True.
        -- f_equal. f_equal. rewrite <- max_text_scores by done. f_equal. f_equal.
           transitivity (word_score tm f <$> (U.entries (CArray ss)).*1);
             [by rewrite <- list_fmap_compose|].
           rewrite values_entries. apply list_fmap_ext. intros i w Hi%list_elem_of_lookup_2.
           apply Hsc; [done|by apply Hall].
        -- split; [done|]. split; [by apply Forall_forall|]. apply Forall_forall.
           intros e He. by apply existsb_false with (x := e) in Ex.
    + rewrite decide_False; [done|]. intros (_ & Hall & _). apply Hl, valid_words.
      by apply Forall_forall.
  - assert (length read < length ss).
    { rewrite Hss, length_app. destruct rest; [by apply elem_of_nil in Hw|simpl; lia]. }
    rewrite (proj2 (Nat.eqb_neq _ _)) by lia. simpl. rewrite decide_False; [done|].
    intros (_ & Hall & _). rewrite Forall_forall in Hall.
    assert (Hin : f ∈ word_files ix w) by (apply Hall; rewrite Hss; apply elem_of_app; by right).
    rewrite Hnil in Hin. by apply elem_of_nil in Hin.
Qed.




Definition sample_index : index := {|
  filenames := [js "intro"; js "cql"; js "faq"];
  titles := [js "Introduction"; js "The CQL language"; js "Questions"];
  terms := [(js "tabl", PArray [0; 1; 2]); (js "node", PArray [0; 2])];
  titleterms := [(js "languag", PSingle 1)];
  objects := [];
  objnames := [];
|}.


(** A word that objects inherit a function for makes the search throw, as soon as the page
    has no word of that name in its titles: the search of the shipped index for
    [constructor] does. *)
Lemma inherited_word_throws (ix : index) (w : jsstr) :
  Doc.inherited w = true → w ≠ js "__proto__" → obj_get w (terms ix) ≠ None → obj_get w (titleterms ix) = None →
  performTermsSearch ix [w] [] = Throw TypeError.
Proof.
  intros Hw _ Ht Htt. destruct (obj_get w (terms ix)) as [p|] eqn:Hp; [|done].
  assert (E : ∃ fm sm, term_step ix w (TermMaps ∅ ∅ []) = Some (TermMaps fm sm [(w, [w])])).
  { do 2 eexists. unfold term_step, lookups, lookup_word. rewrite Hp, Htt, Hw.
    pose proof (f_equal (λ '(fm, funs), Some (TermMaps fm (foldl (set_score w (Int Scorer.term)) ∅ (posting_files p)) funs))
      (foldl_app (add_ref w) (File <$> posting_files p) [FunText w] (∅, []))) as E.
    rewrite add_refs_docs in E. exact E. }
  destruct E as (fm & sm & E). unfold performTermsSearch, term_loop. rewrite E. cbn.
  done.
Qed.

(** A file is excluded by a word only when the word's posting in the texts, or
    in the titles, is that single file: [_.contains] compares the property name of
    the file, a string, with the numbers of an array and never finds it, so a
    word that occurs in several files excludes none of them. *)
Theorem is_excluded_spec (ix : index) (f : nat) (e : jsstr) :
  is_excluded ix f e = true ↔
    text_files ix e = [f] ∨ title_files ix e = [f].
Proof.
  assert (Hno : ∀ l : list nat, U.contains (CArray (FNum <$> l)) (FName f) = false).
  { intros l. unfold U.contains, U.indexOf. simpl. generalize 0%nat.
    induction l as [|n l IH]; intros k; [done|]. simpl. apply IH. }
  assert (Hc : ∀ p, posting_contains p f = false).
  { intros [[[|n]|l]|]; [done..|apply Hno|done]. }
  assert (Hl : ∀ p, loose_eq p f = true ↔ lookup_files p = [f]).
  { intros [[n|[|n [|m l]]]|]; simpl; try done; rewrite Nat.eqb_eq; naive_solver. }
  unfold is_excluded, text_files, title_files. rewrite !Hc, !orb_false_r, orb_true_iff, !Hl. done.
Qed.

(** ** The display *)

Section display_facts.
Context `{UnicodeCase}.

Definition has_score (r : result) : Prop := r_score r ≠ NaN.
Definition title_key (r : result) : jsstr := to_lower (r_title r).
(** [a] may be shown before [b]. *)
Definition shown_before (a b : result) : Prop :=
  num_lt (r_score a) (r_score b) = false ∧
  (num_lt (r_score b) (r_score a) = false → str_ltb (title_key b) (title_key a) = false).

Lemma result_cmp_le a b : (result_cmp a b ≤ 0)%Z ↔ shown_before b a.
Proof.
  unfold result_cmp, shown_before, title_key. change (num_gt (r_score a) (r_score b)) with
    (num_lt (r_score b) (r_score a)).
  destruct (num_lt (r_score b) (r_score a)) eqn:E; [split; [lia|by intros []]|].
  destruct (num_lt (r_score a) (r_score b)) eqn:E'; [split; [done|lia]|].
  destruct (str_ltb (to_lower (r_title b)) (to_lower (r_title a))) eqn:T.
  - rewrite str_ltb_asym by done. split; [done|lia].
  - destruct (str_ltb (to_lower (r_title a)) (to_lower (r_title b))).
    + split; [lia|]. intros [_ Hf]. by specialize (Hf eq_refl).
    + split; [done|lia].
Qed.

Lemma str_le_trans s t u : str_ltb t s = false → str_ltb u t = false → str_ltb u s = false.
Proof.
  intros H1 H2. destruct (str_ltb u s) eqn:E; [|done].
  destruct (str_ltb s t) eqn:E1.
  - by rewrite (str_ltb_trans _ _ _ E E1) in H2.
  - rewrite (str_ltb_total _ _ E1 H1) in E. congruence.
Qed.

#[export] Instance result_cmp_consistent : Consistent result_cmp has_score.
Proof.
  split.
  - intros x y _ _. rewrite !result_cmp_le. unfold shown_before.
    destruct (num_lt (r_score x) (r_score y)) eqn:E1.
    { left. split; [by apply num_lt_asym|done]. }
    destruct (num_lt (r_score y) (r_score x)) eqn:E2; [right; by split|].
    destruct (str_ltb (title_key x) (title_key y)) eqn:E3; [right|left]; split; try done.
    intros _. by apply str_ltb_asym.
  - unfold has_score. intros x y z Hx Hy Hz. rewrite !result_cmp_le. unfold shown_before.
    intros [H1 H2] [H3 H4]. assert (Hyx : num_lt (r_score z) (r_score x) = false).
    { by apply (num_le_trans _ (r_score y)). }
    split; [done|]. intros Hxz.
    assert (num_lt (r_score x) (r_score y) = false) by (by apply (num_le_trans _ (r_score z))).
    assert (num_lt (r_score y) (r_score z) = false) by (by apply (num_le_trans _ (r_score x))).
    apply (str_le_trans _ (title_key y)); auto.
Qed.

Lemma displayNextItem_snoc n l x out st :
  displayNextItem n (Display (l ++ [x]) out st) = Display l (out ++ [x]) st.
Proof. unfold displayNextItem. simpl. by rewrite last_snoc, removelast_last. Qed.

Lemma display_iter n l out :
  Nat.iter (S (length l)) (displayNextItem n) (Display l out None) =
    Display [] (out ++ reverse l) (Some n).
Proof.
  revert out. induction l as [|x l IH] using rev_ind; intros out.
  - simpl. unfold reverse. simpl. by rewrite app_nil_r.
  - rewrite length_app, Nat.add_comm. cbn [length Nat.add]. rewrite Nat.iter_succ_r.
    rewrite displayNextItem_snoc, IH, reverse_snoc. by rewrite <- (assoc_L (++)).
Qed.
End display_facts.

(** C7: displaying a list of scored results shows every result once and then the
    number of results, in one call per result and a last one; the order is by
    decreasing score and, for equal scores, alphabetical in the lower-cased
    titles. *)
Theorem display_order `{UnicodeCase} (results : list result) :
  Forall has_score results →
  let d := display_all (js_sort result_cmp results) in
  d_results d = [] ∧ d_status d = Some (length results) ∧ d_output d ≡ₚ results ∧
  StronglySorted shown_before (d_output d).
Proof.
  intros Hs. unfold display_all. rewrite display_iter. simpl.
  split; [done|]. split; [by rewrite js_sort_perm|].
  split; [by rewrite reverse_Permutation, js_sort_perm|].
  eapply StronglySorted_impl_in; [|apply StronglySorted_reverse, (js_sort_sorted _ has_score _ Hs)].
  intros a b _ _ Hab. by apply result_cmp_le.
Qed.

Lemma display_order_witness :
  let a := Result (js "a") (js "Alpha") [] None (Int 5) in
  let b := Result (js "b") (js "beta") [] None (Int 15) in
  let c := Result (js "c") (js "Beta") [] None (Int 5) in
  let d := display_all (js_sort (result_cmp (H := ascii_case)) [a; c; b]) in
  d_status d = Some 3 ∧ d_output d = [b; a; c].
Proof.
  split; [|vm_compute; reflexivity].
  apply (display_order (H := ascii_case) [
    Result (js "a") (js "Alpha") [] None (Int 5); Result (js "c") (js "Beta") [] None (Int 5);
    Result (js "b") (js "beta") [] None (Int 15)]).
  by repeat constructor.
Defined.

(** ** Object names *)

Section object_facts.
Context `{UnicodeCase}.

(** The entries of [objects] in the order of the two loops. *)
Definition object_entries (ix : index) : list (jsstr * (jsstr * object_entry)) :=
  objects ix ≫= λ pn, (λ nm, (pn.1, nm)) <$> pn.2.
Definition full_name (prefix name : jsstr) : jsstr :=
  match prefix with [] => [] | _ => prefix ++ js "." end ++ name.
Definition known_type (ix : index) (t : nat) : bool :=
  existsb (λ p : nat * (jsstr * jsstr * jsstr), bool_decide (p.1 = t)) (objnames ix).

(** The outcome of a loop over entries: the first exception ends it. *)
Fixpoint collect (os : list (outcome (option result))) : outcome (list result) :=
  match os with
  | [] => Ok []
  | Throw e :: _ => Throw e
  | Ok r :: os' =>
      match collect os' with Ok rs => Ok (option_list r ++ rs) | Throw e => Throw e end
  end.

Lemma collect_app a b :
  collect (a ++ b) =
    match collect a with
    | Throw e => Throw e
    | Ok rs => match collect b with Ok rs' => Ok (rs ++ rs') | Throw e => Throw e end
    end.
Proof.
  induction a as [|[r|e] a IH]; simpl; [by destruct (collect b)| |done].
  rewrite IH. destruct (collect a); [|done]. destruct (collect b); [|done].
  by rewrite (assoc_L (++)).
Qed.

Lemma object_search_collect ix in_word object others :
  performObjectSearch ix in_word object others =
    collect ((λ e, object_result ix in_word object others e.1 e.2.1 e.2.2) <$> object_entries ix).
Proof.
  unfold performObjectSearch, object_entries. induction (objects ix) as [|[p ns] objs IH]; [done|].
  rewrite bind_cons, fmap_app, collect_app. simpl. rewrite IH.
  assert (Hn : object_names ix in_word object others p ns =
    collect ((λ e, object_result ix in_word object others e.1 e.2.1 e.2.2) <$>
      ((λ nm, (p, nm)) <$> ns))).
  { clear IH. induction ns as [|[n m] ns IH]; [done|]. rewrite !fmap_cons. simpl. rewrite IH.
    by destruct (object_result _ _ _ _ _ _ _). }
  by rewrite Hn.
Qed.

Lemma collect_ok os :
  (∀ o, o ∈ os → ∃ r, o = Ok r) →
  ∃ rs, collect os = Ok rs ∧ ∀ r, r ∈ rs ↔ Ok (Some r) ∈ os.
Proof.
  induction os as [|o os IH]; intros Hok.
  - exists []. split; [done|]. intros r. by rewrite !elem_of_nil.
  - destruct (Hok o) as [r' ->]; [by left|]. destruct IH as (rs & Hrs & Hin).
    { intros; apply Hok; by right. }
    exists (option_list r' ++ rs). simpl. rewrite Hrs. split; [done|]. intros r.
    rewrite elem_of_app, elem_of_cons, Hin. destruct r' as [r'|]; simpl.
    + rewrite list_elem_of_singleton. naive_solver.
    + rewrite elem_of_nil. naive_solver.
Qed.

Lemma objname_known ix t :
  known_type ix t = true →
  ∃ dn, snd <$> list_find (λ p : nat * (jsstr * jsstr * jsstr), p.1 = t) (objnames ix) = Some (t, dn).
Proof.
  unfold known_type. induction (objnames ix) as [|[t' dn] l IH]; [done|]. simpl.
  case_bool_decide as Ht; simpl in Ht.
  - intros _. exists dn. rewrite decide_True by done. simpl. by subst.
  - intros (dn' & Hd)%IH. exists dn'. rewrite decide_False by done.
    destruct (list_find _ l) as [[i q]|]; [|done]. simpl in *. done.
Qed.

Lemma object_result_ok ix in_word object others prefix name m :
  known_type ix (o_type m) = true →
  ∃ o, object_result ix in_word object others prefix name m = Ok o.
Proof.
  intros (dn & Hd)%objname_known. unfold object_result. destruct (contains_str _ _); [|by eexists].
  rewrite Hd. destruct dn as [[d t] n]. destruct (forallb _ _); by eexists.
Qed.

Lemma object_result_found ix in_word object others prefix name m r :
  object_result ix in_word object others prefix name m = Ok (Some r) →
  r_title r = full_name prefix name ∧
  contains_str (to_lower (full_name prefix name)) object = true ∧
  ∃ sc, r_score r = Int sc ∧ (-5 ≤ sc ≤ 26)%Z.
Proof.
  unfold object_result. fold (full_name prefix name).
  destruct (contains_str _ object) eqn:E; [|done].
  destruct (snd <$> _) as [[t [[d ty] n]]|]; [|done]. destruct (forallb _ others); [|done].
  intros [= <-]. simpl. split; [done|]. split; [done|]. eexists. split; [done|].
  unfold name_score, Scorer.objPrio, Scorer.objNameMatch, Scorer.objPartialMatch,
    Scorer.objPrioDefault.
  repeat case_match; simplify_eq; lia.
Qed.

Lemma object_result_others ix in_word object others prefix name m r o :
  object_result ix in_word object others prefix name m = Ok (Some r) → o ∈ others →
  ∃ objname, contains_str (to_lower (prefix ++ js " " ++ name ++ js " " ++ objname ++
    js " " ++ str_at (titles ix) (o_file m))) o = true.
Proof.
  unfold object_result. destruct (contains_str _ object); [|done].
  destruct (snd <$> _) as [[t [[d ty] n]]|]; [|done].
  destruct (forallb _ others) eqn:E; [|done]. intros _ Ho. exists n.
  rewrite forallb_elem_of in E. by apply E.
Qed.
End object_facts.

(** When every object type of the index has a name, looking an object up
    succeeds; it returns the results of exactly the entries that match, a result
    carries the full name of its entry, which contains the word looked up (in
    lower case), every other word of the query occurs in the entry's prefix, name,
    type or page title, and the score is between -5 and 26. *)
Theorem performObjectSearch_spec `{UnicodeCase} (ix : index) (in_word object : jsstr)
    (others : list jsstr) :
  (∀ prefix name m, (prefix, (name, m)) ∈ object_entries ix → known_type ix (o_type m) = true) →
  ∃ rs, performObjectSearch ix in_word object others = Ok rs ∧
    (∀ r, r ∈ rs ↔ ∃ prefix name m, (prefix, (name, m)) ∈ object_entries ix ∧
      object_result ix in_word object others prefix name m = Ok (Some r)) ∧
    (∀ r, r ∈ rs → contains_str (to_lower (r_title r)) object = true ∧
      ∃ sc, r_score r = Int sc ∧ (-5 ≤ sc ≤ 26)%Z) ∧
    (∀ r o, r ∈ rs → o ∈ others → ∃ prefix name m objname,
      (prefix, (name, m)) ∈ object_entries ix ∧ r_title r = full_name prefix name ∧
      contains_str (to_lower (prefix ++ js " " ++ name ++ js " " ++ objname ++
        js " " ++ str_at (titles ix) (o_file m))) o = true).
Proof.
  intros Hk. rewrite object_search_collect.
  destruct (collect_ok ((λ e, object_result ix in_word object others e.1 e.2.1 e.2.2) <$>
    object_entries ix)) as (rs & -> & Hin).
  { intros o ([p [n m]] & -> & Hin)%list_elem_of_fmap. by apply object_result_ok, (Hk p n). }
  exists rs. split; [done|]. assert (Hrs : ∀ r, r ∈ rs ↔ ∃ prefix name m,
    (prefix, (name, m)) ∈ object_entries ix ∧
    object_result ix in_word object others prefix name m = Ok (Some r)).
  { intros r. rewrite Hin, list_elem_of_fmap. split.
    - intros ([p [n m]] & Hr & Hp). by exists p, n, m.
    - intros (p & n & m & Hp & Hr). by exists (p, (n, m)). }
  split; [done|]. split.
  - intros r (p & n & m & _ & Hr)%Hrs. destruct (object_result_found _ _ _ _ _ _ _ _ Hr)
      as (-> & ? & ?). done.
  - intros r o (p & n & m & Hp & Hr)%Hrs Ho.
    destruct (object_result_others _ _ _ _ _ _ _ _ _ Hr Ho) as (n' & Hc).
    destruct (object_result_found _ _ _ _ _ _ _ _ Hr) as (? & _). by exists p, n, m, n'.
Qed.

Definition object_index : index := {|
  filenames := [js "cql"]; titles := [js "CQL"]; terms := []; titleterms := [];
  objects := [(js "cassandra", [(js "cluster", ObjectEntry 0 0 1 [])])];
  objnames := [(0, (js "py", js "class", js "Python class"))];
|}.

Lemma performObjectSearch_spec_witness :
  ∃ rs, performObjectSearch (H := ascii_case) object_index (js ", in ") (js "cluster") [] = Ok rs ∧
    ∀ r, r ∈ rs → contains_str (@to_lower ascii_case (r_title r)) (js "cluster") = true.
Proof.
  destruct (performObjectSearch_spec (H := ascii_case) object_index (js ", in ") (js "cluster") [])
    as (rs & Hrs & _ & Hs & _).
  - intros p n m Hin. apply list_elem_of_singleton in Hin.
    assert (Hm : m = ObjectEntry 0 0 1 []) by congruence. subst m. vm_compute. reflexivity.
  - exists rs. split; [exact Hrs|]. intros r Hr. exact (proj1 (Hs r Hr)).
Defined.

(** ** Summaries *)

Section summary_facts.
Context `{UnicodeCase}.

Lemma trim_left_length s : length (trim_left s) ≤ length s.
Proof.
  induction s as [|c s IH]; [done|]. change (length (trim_left (c :: s)) ≤ S (length s)).
  unfold trim_left in *. destruct (is_space c); [lia|done].
Qed.

Lemma trim_length s : length (trim s) ≤ length s.
Proof.
  unfold trim. rewrite length_reverse. etransitivity; [apply trim_left_length|].
  rewrite length_reverse. apply trim_left_length.
Qed.

Lemma summary_start_nonneg text ks : (0 ≤ summary_start text ks)%Z.
Proof. unfold summary_start. apply Z.le_max_r. Qed.

Lemma summary_start_last text ks k i :
  index_of (to_lower text) (to_lower k) = Some i →
  summary_start text (ks ++ [k]) = Z.max (Z.of_nat i - 120) 0.
Proof.
  intros Hi. unfold summary_start. rewrite foldl_app. simpl.
  unfold indexOf at 1. rewrite Hi. rewrite (proj2 (Z.gtb_lt _ _)) by lia.
  unfold indexOf. by rewrite Hi.
Qed.

Lemma substr_skip {A} (s a b : list A) (start : Z) :
  s = a ++ b → (0 ≤ start)%Z → Z.to_nat start ≤ length a →
  drop (Z.to_nat (rel_index s start)) s = drop (Z.to_nat start) a ++ b.
Proof.
  intros -> H0 Hl. unfold rel_index, zlen. rewrite (proj2 (Z.ltb_ge _ _)) by lia.
  rewrite length_app. rewrite Z.min_l by lia. by rewrite drop_app_le by lia.
Qed.
End summary_facts.

(** The excerpt shown for a page has at most 246 code units, and when the last
    of the keywords occurs in the (lower-cased) page and has at most 120 units,
    the window of the excerpt contains its first occurrence. *)
Theorem summary_window `{UnicodeCase} (text : jsstr) (ks : list jsstr) (k : jsstr) :
  contains_str (to_lower text) (to_lower k) = true → length (to_lower k) ≤ 120 →
  length (summary_excerpt text (ks ++ [k])) ≤ 246 ∧
  contains_str (substr (to_lower text) (summary_start text (ks ++ [k])) 240) (to_lower k) = true.
Proof.
  intros Hc Hk. split.
  - unfold summary_excerpt. rewrite !length_app. pose proof (trim_length
      (substr text (summary_start text (ks ++ [k])) 240)) as Ht.
    assert (length (substr text (summary_start text (ks ++ [k])) 240) ≤ 240).
    { unfold substr. rewrite length_take. lia. }
    repeat case_match; simpl; lia.
  - unfold contains_str in Hc. destruct (index_of (to_lower text) (to_lower k)) as [i|] eqn:Hi;
      [|done]. rewrite (summary_start_last _ _ _ i Hi).
    apply index_of_Some in Hi as [Ht Hl]. set (s := to_lower text) in *.
    apply contains_str_spec. unfold substr.
    rewrite (substr_skip s (take i s) (to_lower k ++ drop (i + length (to_lower k)) s));
      [|done|lia|rewrite length_take; lia].
    set (pre := drop (Z.to_nat (Z.max (Z.of_nat i - 120) 0)) (take i s)).
    assert (Hpre : length pre ≤ 120) by (unfold pre; rewrite length_drop, length_take; lia).
    exists pre, (take (240 - length pre - length (to_lower k)) (drop (i + length (to_lower k)) s)).
    change (Z.to_nat 240) with 240. rewrite take_app, take_app.
    rewrite (take_ge pre) by lia. rewrite (take_ge (to_lower k)) by lia. done.
Qed.

Lemma summary_window_witness :
  contains_str (substr (@to_lower ascii_case (js "The Gossip protocol"))
    (summary_start (H := ascii_case) (js "The Gossip protocol") ([] ++ [js "gossip"])) 240)
    (@to_lower ascii_case (js "gossip")) = true.
Proof.
  apply (summary_window (H := ascii_case) (js "The Gossip protocol") [] (js "gossip")).
  - vm_compute. reflexivity.
  - vm_compute. lia.
Defined.

(** A page shorter than the excerpt is shown whole, and yet ends with an
    ellipsis: the test is that the window does not end exactly at the end of the
    text, not that text is left. *)
Theorem summary_short_page `{UnicodeCase} (text : jsstr) (ks : list jsstr) :
  length text < 240 → summary_start text ks = 0%Z →
  summary_excerpt text ks = trim text ++ js "...".
Proof.
  intros Hl Hs. unfold summary_excerpt. rewrite Hs. change (0 >? 0)%Z with false. simpl.
  rewrite (proj2 (Z.eqb_neq (0 + 240 - zlen text) 0)) by (unfold zlen; lia).
  unfold substr, rel_index, zlen. rewrite (proj2 (Z.ltb_ge 0 0)) by lia.
  rewrite Z.min_l by lia. simpl. rewrite drop_0, take_ge by lia. done.
Qed.

Lemma summary_short_page_witness :
  summary_excerpt (H := ascii_case) (js "A short page.") [js "short"] = js "A short page....".
Proof.
  apply (summary_short_page (H := ascii_case) (js "A short page.") [js "short"]).
  - vm_compute. lia.
  - vm_compute. reflexivity.
Defined.

End Search.
