(* ===== verification/SearchPage.v ===== *)
(** * The search page of searchtools.js

    The state of the object [Search] while a page waits for its index: the query
    that was deferred, the animation of the dots, and the displays in progress.
    The callbacks of timers and of the sliding results are events of their own. *)

From stdpp Require Import base tactics list strings numbers sets gmap.
From Stdlib Require Import NArith ZArith Lia.
From S2P Require Import Prelude.
From S2P Require Import JsString.
From S2P Require Import JsNum.
From S2P Require Import JsArray.
From S2P Require Import Doctools.
From S2P Require Import Search.

Module Page.

(** ** State *)

Record page := MkPage {
  _index : option Search.index;
  _queued_query : option jsstr;
  _pulse_status : Z;
  (** Pending calls of [pulse] and the number of dots it last wrote. *)
  timers : nat;
  dots : nat;
  (** The displays of the queries run so far, with their numbers of results. *)
  displays : list (nat * Search.display);
  (** The calls of [Search.query], oldest first. *)
  queries : list jsstr;
}.

Definition initial : page := MkPage None None (-1) 0 0 [] [].

Definition with_index i p := MkPage i (_queued_query p) (_pulse_status p) (timers p) (dots p)
  (displays p) (queries p).
Definition with_queued q p := MkPage (_index p) q (_pulse_status p) (timers p) (dots p)
  (displays p) (queries p).
Definition with_status s p := MkPage (_index p) (_queued_query p) s (timers p) (dots p)
  (displays p) (queries p).
Definition with_timers n p := MkPage (_index p) (_queued_query p) (_pulse_status p) n (dots p)
  (displays p) (queries p).
Definition with_dots n p := MkPage (_index p) (_queued_query p) (_pulse_status p) (timers p) n
  (displays p) (queries p).
Definition with_displays ds p := MkPage (_index p) (_queued_query p) (_pulse_status p) (timers p)
  (dots p) ds (queries p).
Definition with_queries qs p := MkPage (_index p) (_queued_query p) (_pulse_status p) (timers p)
  (dots p) (displays p) qs.

(** ** Operations *)

Definition hasIndex (p : page) : bool := match _index p with Some _ => true | None => false end.
Definition deferQuery (q : jsstr) : M page unit := modify (with_queued (Some q)).
Definition stopPulse : M page unit := modify (with_status 0).

(** One call of [pulse]: it schedules the next one while the status is not
    negative. *)
Definition pulse : M page unit := modify (λ p,
  let st := Z.rem (_pulse_status p + 1) 4 in
  with_timers (if (st >? -1)%Z then S (timers p) else timers p)
    (with_dots (Z.to_nat st) (with_status st p))).
Definition startPulse : M page unit :=
  get ≫= λ p : page, if (_pulse_status p >=? 0)%Z then mret tt else pulse.

Section page.
Context `{UnicodeCase} (in_word : jsstr) (score : option (Search.result → num)).

(** The link parameter that makes the target page highlight the words. *)
Definition highlightstring (hlterms : list jsstr) : outcome jsstr :=
  match Doc.urlencode (join (js " ") hlterms) with
  | Ok s => Ok (js "?highlight=" ++ s)
  | Throw e => Throw e
  end.

(** One call of [displayNextItem] for the [k]-th display; the last one stops
    the pulse. *)
Definition display_step (k : nat) : M page unit := get ≫= λ p : page,
  match displays p !! k with
  | None => mret tt
  | Some (n, d) =>
      let d' := Search.displayNextItem n d in
      modify (with_displays (<[k := (n, d')]> (displays p))) ≫= λ _,
      match Search.d_results d with [] => stopPulse | _ => mret tt end
  end.

Definition query (q : jsstr) : M page unit :=
  modify (λ p, with_queries (queries p ++ [q]) p) ≫= λ _,
  match highlightstring (Search.hlterms (Search.classify q)) with
  | Throw e => throw e
  | Ok _ =>
      get ≫= λ p : page,
      match _index p with
      | None => throw TypeError
      | Some ix =>
          match Search.query_results ix in_word score q with
          | Throw e => throw e
          | Ok results =>
              modify (with_displays
                (displays p ++ [(length results, Search.Display results [] None)])) ≫= λ _,
              display_step (length (displays p))
          end
      end
  end.

Definition setIndex (ix : Search.index) : M page unit :=
  modify (with_index (Some ix)) ≫= λ _,
  get ≫= λ p : page,
  match _queued_query p with
  | Some q => modify (with_queued None) ≫= λ _, query q
  | None => mret tt
  end.

Definition performSearch (q : jsstr) : M page unit :=
  startPulse ≫= λ _,
  get ≫= λ p : page,
  if hasIndex p then query q else deferQuery q.

(** [init]: the query of the page's address. *)
Definition init (search : jsstr) : M page unit :=
  match Doc.getQueryParameters search with
  | Throw e => throw e
  | Ok params =>
      match obj_get (js "q") params with
      | Some (q :: _) => performSearch q
      | _ => mret tt
      end
  end.

(** ** Events *)

Inductive event : Type :=
  | Loaded (ix : Search.index)
  | Searched (q : jsstr)
  | Pulsed
  | Slid (k : nat).

(** An exception ends the event it occurs in, and nothing else. *)
Definition handle (e : event) (p : page) : page :=
  match e with
  | Loaded ix => (setIndex ix p).2
  | Searched q => (performSearch q p).2
  | Pulsed => match timers p with 0 => p | S n => (pulse (with_timers n p)).2 end
  | Slid k =>
      (* a display whose last call was made waits for nothing *)
      match displays p !! k with
      | Some (_, Search.Display _ _ None) => (display_step k p).2
      | _ => p
      end
  end.
Definition run (es : list event) (p : page) : page := foldl (λ p e, handle e p) p es.

Definition searches (es : list event) : list jsstr :=
  omap (λ e, match e with Searched q => Some q | _ => None end) es.
Definition loads (es : list event) : list Search.index :=
  omap (λ e, match e with Loaded ix => Some ix | _ => None end) es.
End page.

(** ** What a query changes *)

Record effect (p p' : page) (qs : list jsstr) : Prop := Effect {
  ef_index : _index p' = _index p;
  ef_queued : _queued_query p' = _queued_query p;
  ef_timers : timers p' = timers p;
  ef_status : _pulse_status p' = _pulse_status p ∨ _pulse_status p' = 0%Z;
  ef_queries : queries p' = queries p ++ qs;
}.

Section facts.
Context `{UnicodeCase} (in_word : jsstr) (score : option (Search.result → num)).
Local Abbreviation query := (query in_word score).
Local Abbreviation handle := (handle in_word score).
Local Abbreviation run := (run in_word score).

Lemma effect_refl p : effect p p [].
Proof. split; auto. by rewrite app_nil_r. Qed.

Lemma effect_trans p1 p2 p3 qs qs' : effect p1 p2 qs → effect p2 p3 qs' → effect p1 p3 (qs ++ qs').
Proof.
  intros [A1 A2 A3 A4 A5] [B1 B2 B3 B4 B5]. split; try congruence.
  - destruct B4 as [->|B4]; auto.
  - by rewrite B5, A5, (assoc_L (++)).
Qed.

Lemma display_step_effect k p : effect p (display_step k p).2 [].
Proof.
  unfold display_step, mbind, M_bind, get. destruct (displays p !! k) as [[n d]|]; simpl;
    [|apply effect_refl].
  destruct (Search.d_results d); simpl; split; simpl; rewrite ?app_nil_r; auto.
Qed.

Lemma query_effect q p : effect p (query q p).2 [q].
Proof.
  unfold query, mbind, M_bind, modify, throw, get. set (p1 := with_queries _ p).
  assert (H1 : effect p p1 [q]) by (split; auto).
  destruct (highlightstring _) as [hl|e]; simpl; [|done].
  destruct (_index p) as [ix|]; simpl; [|done].
  destruct (Search.query_results _ _ _ _) as [rs|e]; simpl; [|done].
  apply (effect_trans _ p1 _ [q] []); [done|].
  refine (effect_trans _ _ _ [] [] _ (display_step_effect _ _)).
  split; simpl; rewrite ?app_nil_r; auto.
Qed.

(** Either nothing was ever searched for, or the pulse runs. *)
Definition pulse_inv (p : page) : Prop :=
  (timers p = 0 ∧ _pulse_status p = (-1)%Z ∧ _queued_query p = None ∧ displays p = []) ∨
  (timers p = 1 ∧ (0 ≤ _pulse_status p ≤ 3)%Z).
Definition started (p : page) : Prop := timers p = 1 ∧ (0 ≤ _pulse_status p ≤ 3)%Z.

Lemma effect_started p p' qs : effect p p' qs → started p → started p'.
Proof. intros [_ _ Ht Hs _] [H1 H2]. split; [congruence|]. destruct Hs as [->| ->]; lia. Qed.

Lemma pulse_started p :
  timers p = 0 → (-1 ≤ _pulse_status p ≤ 3)%Z → started (pulse p).2.
Proof.
  intros Ht Hs. unfold pulse, started. simpl.
  pose proof (Z.rem_bound_pos (_pulse_status p + 1) 4). rewrite Ht.
  rewrite (proj2 (Z.gtb_lt _ _)) by lia. split; [done|lia].
Qed.

Lemma startPulse_started p : pulse_inv p →
  started (startPulse p).2 ∧ (startPulse p).1 = Ok tt ∧
  _index (startPulse p).2 = _index p ∧ queries (startPulse p).2 = queries p ∧
  _queued_query (startPulse p).2 = _queued_query p.
Proof.
  unfold startPulse, mbind, M_bind, get. intros [(H1 & H2 & H3 & H4)|[H1 H2]].
  - rewrite H2. split; [|done]. apply pulse_started; [done|]. lia.
  - rewrite Z.geb_leb, (proj2 (Z.leb_le _ _)) by lia. done.
Qed.

Lemma performSearch_cases q p : pulse_inv p →
  started (performSearch in_word score q p).2 ∧
  match _index p with
  | Some _ => queries (performSearch in_word score q p).2 = queries p ++ [q] ∧
      _queued_query (performSearch in_word score q p).2 = _queued_query p
  | None => queries (performSearch in_word score q p).2 = queries p ∧
      _queued_query (performSearch in_word score q p).2 = Some q
  end ∧ _index (performSearch in_word score q p).2 = _index p.
Proof.
  intros Hp. destruct (startPulse_started p Hp) as (Hs & Ho & Hi & Hq & Hd).
  unfold performSearch. destruct (startPulse p) as [r p1] eqn:E. simpl in *. subst r.
  rewrite (bind_ok _ _ _ _ _ E). unfold mbind, M_bind, get, hasIndex.
  rewrite Hi. destruct (_index p) as [ix|].
  - pose proof (query_effect q p1) as He. split; [by eapply effect_started|].
    destruct He as [A1 A2 _ _ A5]. rewrite A5, Hq, A2, A1. done.
  - simpl. rewrite Hi. auto.
Qed.

Lemma setIndex_cases ix p :
  _index (setIndex in_word score ix p).2 = Some ix ∧
  _queued_query (setIndex in_word score ix p).2 = None ∧
  queries (setIndex in_word score ix p).2 = queries p ++ option_list (_queued_query p) ∧
  (started p → started (setIndex in_word score ix p).2) ∧
  (_queued_query p = None → displays (setIndex in_word score ix p).2 = displays p ∧
    timers (setIndex in_word score ix p).2 = timers p ∧
    _pulse_status (setIndex in_word score ix p).2 = _pulse_status p).
Proof.
  unfold setIndex, mbind, M_bind, modify, get.
  cbv beta iota. change (_queued_query (with_index (Some ix) p)) with (_queued_query p).
  destruct (_queued_query p) as [q|] eqn:E; simpl.
  - pose proof (query_effect q (with_queued None (with_index (Some ix) p))) as He.
    destruct He as [A1 A2 A3 A4 A5] eqn:E'. rewrite A1, A2, A5. simpl. split_and!; try done.
    intros Hs. by refine (effect_started _ _ _ He _).
  - rewrite app_nil_r. by split_and!.
Qed.

Lemma handle_pulse_inv e p : pulse_inv p → pulse_inv (handle e p) ∧
  (∀ q, e = Searched q → started (handle e p)) ∧ (started p → started (handle e p)).
Proof.
  intros Hp. assert (Hgo : ∀ p', started p' → pulse_inv p') by (intros p' ?; by right).
  destruct e as [ix|q| |k]; simpl.
  - destruct (setIndex_cases ix p) as (_ & Hq & _ & Hs & Hn). split_and!; [|done|done].
    destruct Hp as [(H1 & H2 & H3 & H4)|Hp]; [|by apply Hgo, Hs]. left.
    destruct (Hn H3) as (-> & -> & ->). done.
  - destruct (performSearch_cases q p Hp) as (Hs & _). split_and!; auto.
  - destruct Hp as [(H1 & H2 & H3 & H4)|[H1 H2]].
    + rewrite H1. split_and!; [by left|done|intros [? _]; lia].
    + rewrite H1. assert (Hs : started (pulse (with_timers 0 p)).2).
      { apply pulse_started; simpl; [done|lia]. }
      by split_and!; auto.
  - assert (Hk : started p → started (handle (Slid k) p)).
    { intros Hs. simpl. destruct (displays p !! k) as [[n [l o [m|]]]|]; [done| |done].
      by eapply effect_started; [apply display_step_effect|]. }
    split_and!; [|done|done]. destruct Hp as [(H1 & H2 & H3 & H4)|Hp]; [|by apply Hgo, Hk].
    rewrite H4. left. by split_and!.
Qed.

Lemma run_snoc es e p : run (es ++ [e]) p = handle e (run es p).
Proof. unfold Page.run. by rewrite foldl_app. Qed.

Lemma searches_snoc es e :
  searches (es ++ [e]) = searches es ++ match e with Searched q => [q] | _ => [] end.
Proof. unfold searches. rewrite omap_app. by destruct e. Qed.
Lemma loads_snoc es e :
  loads (es ++ [e]) = loads es ++ match e with Loaded ix => [ix] | _ => [] end.
Proof. unfold loads. rewrite omap_app. by destruct e. Qed.

Lemma run_pulse_inv es :
  pulse_inv (run es initial) ∧ (searches es ≠ [] → started (run es initial)).
Proof.
  induction es as [|e es [IH1 IH2]] using rev_ind; [split; [by left|done]|].
  rewrite run_snoc, searches_snoc. destruct (handle_pulse_inv e _ IH1) as (H1 & H2 & H3).
  split; [done|]. intros Hs. destruct e as [|q| |]; try (apply H3, IH2; by rewrite app_nil_r in Hs).
  by apply (H2 q).
Qed.

(** Before the index arrives the last query waits; afterwards each runs at once. *)
Lemma run_waiting es :
  loads es = [] →
  _index (run es initial) = None ∧ queries (run es initial) = [] ∧
  _queued_query (run es initial) = last (searches es).
Proof.
  induction es as [|e es IH] using rev_ind; [done|]. rewrite loads_snoc, searches_snoc, run_snoc.
  intros [Hl He]%app_eq_nil. destruct (IH Hl) as (H1 & H2 & H3).
  destruct (run_pulse_inv es) as [Hp _].
  destruct e as [ix|q| |k]; [done|..]; simpl.
  - destruct (performSearch_cases q _ Hp) as (_ & Hc & Hi). rewrite H1 in Hc.
    destruct Hc as [-> ->]. by rewrite Hi, last_snoc.
  - rewrite app_nil_r. by destruct (timers _).
  - rewrite app_nil_r. destruct (displays _ !! k) as [[n [l o [m|]]]|]; [done| |done].
    destruct (display_step_effect k (run es initial)) as [-> -> _ _ ->].
    by rewrite app_nil_r.
Qed.

Lemma run_loaded es p ix :
  loads es = [] → pulse_inv p → _index p = Some ix → _queued_query p = None →
  queries (run es p) = queries p ++ searches es ∧ _index (run es p) = Some ix ∧
  _queued_query (run es p) = None ∧ pulse_inv (run es p).
Proof.
  intros Hl Hp Hi Hq. revert Hl. induction es as [|e es IH] using rev_ind.
  { intros _. simpl. by rewrite app_nil_r. }
  rewrite loads_snoc, searches_snoc, run_snoc.
  intros [Hl He]%app_eq_nil. destruct (IH Hl) as (H1 & H2 & H3 & H4).
  destruct (handle_pulse_inv e _ H4) as (H5 & _).
  destruct e as [ix'|q| |k]; [done|..]; (split_and!; [| | |done]); simpl;
    rewrite ?app_nil_r; try (by destruct (timers (run es p))).
  all: try (destruct (performSearch_cases q _ H4) as (_ & Hc & Hi'); rewrite H2 in Hc;
    destruct Hc as [Hc1 Hc2]; rewrite ?Hc1, ?Hc2, ?Hi', ?H1, ?(assoc_L (++)); done).
  all: destruct (displays (run es p) !! k) as [[n [l o [m|]]]|]; try done.
  all: destruct (display_step_effect k (run es p)) as [A1 A2 _ _ A5];
    by rewrite ?A1, ?A2, ?A5, ?app_nil_r.
Qed.
End facts.

(** C12: while the index is not loaded only the last query asked for is remembered;
    the arrival of the index runs that query, exactly once, and every later query
    runs when it is asked for, in order. *)
Theorem deferred_query_runs_once `{UnicodeCase} (in_word : jsstr)
    (score : option (Search.result → num)) (before after : list event) (ix : Search.index) :
  loads before = [] → loads after = [] →
  queries (run in_word score (before ++ Loaded ix :: after) initial) =
    option_list (last (searches before)) ++ searches after.
Proof.
  intros Hb Ha. unfold run. rewrite foldl_app. cbn [foldl].
  change (foldl _ initial before) with (run in_word score before initial).
  destruct (run_waiting in_word score before Hb) as (H1 & H2 & H3).
  destruct (run_pulse_inv in_word score before) as [Hp _].
  set (p := run in_word score before initial) in *.
  destruct (handle_pulse_inv in_word score (Loaded ix) p Hp) as (Hp' & _).
  destruct (setIndex_cases in_word score ix p) as (Hi & Hq & Hqs & _).
  destruct (run_loaded in_word score after _ ix Ha Hp' Hi Hq) as (Hr & _).
  change (foldl _ _ after) with (run in_word score after (handle in_word score (Loaded ix) p)).
  rewrite Hr. simpl. by rewrite Hqs, H2, H3.
Qed.

Lemma deferred_query_runs_once_witness :
  queries (run (H := ascii_case) (js ", in ") None
    [Searched (js "node"); Searched (js "table"); Pulsed;
     Loaded Search.sample_index; Searched (js "language")] initial) =
  [js "table"; js "language"].
Proof.
  apply (deferred_query_runs_once (H := ascii_case) (js ", in ") None
    [Searched (js "node"); Searched (js "table"); Pulsed] [Searched (js "language")]
    Search.sample_index); reflexivity.
Defined.

(** Once a search has started there is always exactly one pending call of
    [pulse], whatever happens afterwards: two animations never run side by side,
    and none ever ends, since [stopPulse] sets the status to 0 and the loop goes
    on while the status is above -1. *)
Theorem pulse_never_stops `{UnicodeCase} (in_word : jsstr)
    (score : option (Search.result → num)) (es : list event) :
  let p := run in_word score es initial in
  (searches es = [] → loads es = [] → p = initial) ∧
  (searches es ≠ [] → timers p = 1 ∧ (0 ≤ _pulse_status p ≤ 3)%Z).
Proof.
  split; [|apply run_pulse_inv]. revert es. apply (rev_ind (λ es, searches es = [] → loads es = [] →
    run in_word score es initial = initial)); [done|].
  intros e es IH. rewrite searches_snoc, loads_snoc, run_snoc.
  intros [Hs He]%app_eq_nil [Hl He']%app_eq_nil. rewrite IH by done. by destruct e.
Qed.

Lemma pulse_never_stops_witness :
  timers (run (H := ascii_case) (js ", in ") None
    [Searched (js "node"); Pulsed; Loaded Search.sample_index; Slid 0; Pulsed] initial) = 1.
Proof.
  apply (pulse_never_stops (H := ascii_case) (js ", in ") None
    [Searched (js "node"); Pulsed; Loaded Search.sample_index; Slid 0; Pulsed]).
  discriminate.
Defined.

End Page.
