(* ===== verification/WebComments.v ===== *)
(** * The comment system of websupport.js

    The comments of a page: sorting a tree of comments, the lists of the page
    that show them, inserting, voting, accepting and deleting.  A list element of
    the page is an [item]; the data that [div.data('comment')] attaches to an
    element is part of it.  What the server sends is an argument. *)

From stdpp Require Import base tactics list strings numbers sets gmap.
From Stdlib Require Import NArith ZArith Sorted Permutation Lia.
From S2P Require Import Prelude.
From S2P Require Import JsString.
From S2P Require Import JsNum.
From S2P Require Import JsArray.

Module Comments.

(** ** Comments *)

(** A comment without its children; empty text stands for a missing one. *)
Record cdata := CData {
  id : jsstr;
  node : jsstr;
  parent : jsstr;
  rating : Z;
  age : Z;
  vote : Z;
  displayed : bool;
  username : jsstr;
  text : jsstr;
  proposal_diff : jsstr;
}.

Inductive comment : Type :=
  | Comment (data : cdata) (children : list comment).
Definition data_of (c : comment) : cdata := match c with Comment d _ => d end.
Definition children_of (c : comment) : list comment := match c with Comment _ cs => cs end.

(** The levels of a tree: the fuel of the recursion into children. *)
Fixpoint depth (c : comment) : nat :=
  match c with Comment _ cs => S (foldr (λ k h, Nat.max (depth k) h) 0 cs) end.
Definition depths (cs : list comment) : nat := foldr (λ k h, Nat.max (depth k) h) 0 cs.

(** ** The comparator *)

(** [a[i]] as a number.  The sort options of the page name the numbers [rating] and [age];
    under a name that no comment has the difference is [NaN].  A cookie that names one of the
    texts of a comment is not modelled: the source subtracts texts that spell numbers, such
    as ids, as these numbers. *)
Definition attr (i : jsstr) (d : cdata) : option Z :=
  if str_eqb i (js "rating") then Some (rating d)
  else if str_eqb i (js "age") then Some (age d)
  else if str_eqb i (js "vote") then Some (vote d)
  else None.
Definition minus (a b : option Z) : num :=
  match a, b with Some x, Some y => Int (x - y) | _, _ => NaN end.

(** [setComparator]: [comp] for the value of [by]. *)
Definition comp (by_ : jsstr) (a b : cdata) : num :=
  if str_eqb (substring by_ 0 3) (js "asc")
  then let i := substring_from by_ 3 in minus (attr i a) (attr i b)
  else minus (attr by_ b) (attr by_ a).

(** A comparator that returns [NaN] counts as returning 0. *)
Definition sort_value (n : num) : Z := match n with Int z => z | _ => 0%Z end.
Definition comment_cmp (by_ : jsstr) (a b : comment) : Z :=
  sort_value (comp by_ (data_of a) (data_of b)).

(** [sortComments], with the levels of the tree as fuel. *)
Fixpoint sort_levels (by_ : jsstr) (fuel : nat) (cs : list comment) : list comment :=
  match fuel with
  | 0 => cs
  | S k =>
      (λ c, match c with Comment d kids => Comment d (sort_levels by_ k kids) end)
        <$> js_sort (comment_cmp by_) cs
  end.
Definition sortComments (by_ : jsstr) (cs : list comment) : list comment :=
  sort_levels by_ (depths cs) cs.

(** ** The lists of the page *)

Record options := Options {
  voting : bool;
  moderator : bool;
  opt_username : jsstr;
}.

(** The element of a comment: its data and what is visible of it. *)
Record cdiv := CDiv {
  d_data : cdata;
  d_rating : jsstr;     (* the text of the rating *)
  d_moderate : bool;    (* the class of comments not yet accepted *)
  uv : bool; uu : bool; (* the arrow up, and the pressed one *)
  dv : bool; du : bool; (* the arrow down, and the pressed one *)
  rl : bool; cr : bool; (* the links that open and close the reply form *)
  sp : bool; hp : bool; (* the links that show and hide the proposal *)
  dc : bool;            (* the link that deletes *)
  cm : bool;            (* the moderation link *)
}.

Inductive item : Type :=
  | ICom (div : cdiv) (kids : list item)
  | IPending                      (* "Your comment will show up once ..." *)
  | IReply (reply_to : jsstr)     (* an open reply form *)
  | INoComments                   (* "No comments yet." *)
  | IEmptied.                     (* the list element of a deleted comment *)

Definition is_empty (s : jsstr) : bool := match s with [] => true | _ => false end.

Section page.
(** The style sheet: whether an element of a class starts hidden. *)
Variable hides : jsstr → bool.
Variable opts : options.
Definition shown (classes : list String.string) : bool :=
  forallb (λ c, negb (hides (js c))) classes.

Definition points (digits : Z → jsstr) (n : Z) : jsstr :=
  digits n ++ js " point" ++ (if Z.eqb n 1 then [] else js "s").
(** How a number is written in decimal. *)
Variable digits : Z → jsstr.

(** [createCommentDiv]; [None] is the notice of a comment not yet accepted. *)
Definition createCommentDiv (d : cdata) : option cdiv :=
  if negb (displayed d) && negb (moderator opts) then None
  else
    let voted := negb (Z.eqb (vote d) 0) in
    let up := Z.eqb (vote d) 1 in
    let known := moderator opts || negb (str_eqb (text d) (js "[deleted]")) in
    Some {|
      d_data := d;
      d_rating := points digits (rating d);
      d_moderate := negb (displayed d);
      uv := if voted && up then false else shown ["vote"];
      uu := if voted && up then true else shown ["un"; "vote"];
      dv := if voted && negb up then false else shown ["vote"];
      du := if voted && negb up then true else shown ["un"; "vote"];
      rl := if known then true else shown ["reply"; "hidden"];
      cr := shown ["close-reply"];
      sp := if known && negb (is_empty (proposal_diff d)) then true else shown ["show-proposal"];
      hp := shown ["hide-proposal"];
      dc := if known && (moderator opts || str_eqb (opt_username opts) (username d))
            then true else shown ["delete-comment"; "hidden"];
      cm := if known && (moderator opts && negb (displayed d))
            then true else shown ["moderation"; "hidden"];
    |}.

(** [appendComments]: what it adds to a list; the children of a pending comment
    go to no list. *)
Fixpoint comment_item (c : comment) : item :=
  match c with
  | Comment d kids =>
      match createCommentDiv d with
      | Some div => ICom div (comment_item <$> kids)
      | None => IPending
      end
  end.
Definition appendComments (cs : list comment) (ul : list item) : list item :=
  ul ++ (comment_item <$> cs).

(** [getChildren]: the recursive form rebuilds the trees, the other one reads
    the data of the elements of the list itself. *)
Fixpoint item_comment (i : item) : option comment :=
  match i with
  | ICom div kids => Some (Comment (d_data div) (omap item_comment kids))
  | _ => None
  end.
Definition getChildren_rec (ul : list item) : list comment := omap item_comment ul.
Definition item_data (i : item) : option cdata :=
  match i with ICom div _ => Some (d_data div) | _ => None end.
Definition getChildren (ul : list item) : list cdata := omap item_data ul.

(** One list of [handleReSort], once [by] is set. *)
Definition resort (by_ : jsstr) (ul : list item) : list item :=
  appendComments (sortComments by_ (getChildren_rec ul)) [].

(** [insertComment], in the list it found: before the first sibling that does
    not come first, or at the end. *)
Fixpoint insert_item (by_ : jsstr) (d : cdata) (li : item) (ul : list item) : list item :=
  match ul with
  | [] => [li]
  | i :: ul' =>
      match item_data i with
      | Some s =>
          if match comp by_ d s with Int z => Z.leb z 0 | _ => false end
          then li :: ul else i :: insert_item by_ d li ul'
      | None => i :: insert_item by_ d li ul'
      end
  end.
Definition insertComment (by_ : jsstr) (d : cdata) (ul : list item) : list item :=
  insert_item by_ d (comment_item (Comment d [])) ul.
End page.

(** ** Changes of a comment *)

Definition with_vote (r v : Z) (d : cdata) : cdata :=
  CData (id d) (node d) (parent d) r (age d) v (displayed d) (username d) (text d) (proposal_diff d).
Definition with_deleted (d : cdata) : cdata :=
  CData (id d) (node d) (parent d) (rating d) (age d) (vote d) (displayed d)
    (js "[deleted]") (js "[deleted]") (proposal_diff d).
Definition with_data (d : cdata) (r : jsstr) (v : cdiv) : cdiv :=
  CDiv d r (d_moderate v) (uv v) (uu v) (dv v) (du v) (rl v) (cr v) (sp v) (hp v) (dc v) (cm v).

(** Showing or hiding the arrow whose id starts with [c0] and [c1]. *)
Definition set_arrow (c0 c1 : jsstr) (b : bool) (v : cdiv) : cdiv :=
  if str_eqb c0 (js "u") then
    if str_eqb c1 (js "v") then
      CDiv (d_data v) (d_rating v) (d_moderate v) b (uu v) (dv v) (du v) (rl v) (cr v) (sp v)
        (hp v) (dc v) (cm v)
    else if str_eqb c1 (js "u") then
      CDiv (d_data v) (d_rating v) (d_moderate v) (uv v) b (dv v) (du v) (rl v) (cr v) (sp v)
        (hp v) (dc v) (cm v)
    else v
  else if str_eqb c0 (js "d") then
    if str_eqb c1 (js "v") then
      CDiv (d_data v) (d_rating v) (d_moderate v) (uv v) (uu v) b (du v) (rl v) (cr v) (sp v)
        (hp v) (dc v) (cm v)
    else if str_eqb c1 (js "u") then
      CDiv (d_data v) (d_rating v) (d_moderate v) (uv v) (uu v) (dv v) b (rl v) (cr v) (sp v)
        (hp v) (dc v) (cm v)
    else v
  else v.

(** The value a click on the link [link_id] votes for. *)
Definition vote_value (link_id : jsstr) : Z :=
  if str_eqb (charAt link_id 1) (js "u") then 0
  else if str_eqb (charAt link_id 0) (js "u") then 1 else -1.

(** [handleVote] on the element of the comment voted on. *)
Definition vote_div (digits : Z → jsstr) (link_id : jsstr) (v : cdiv) : cdiv :=
  let value := vote_value link_id in
  let c0 := charAt link_id 0 in
  let c1 := charAt link_id 1 in
  let v1 := set_arrow c0 c1 false v in
  let v2 := set_arrow c0 (if str_eqb c1 (js "u") then js "v" else js "u") true v1 in
  let data := d_data v2 in
  let v3 :=
    if negb (Z.eqb value 0) && Z.eqb (vote data) (value * -1) then
      let other := if Z.eqb value 1 then js "d" else js "u" in
      set_arrow other (js "v") true (set_arrow other (js "u") false v2)
    else v2 in
  let r := (rating data + (if Z.eqb (vote data) 0 then value else value - vote data))%Z in
  with_data (with_vote r value data) (points digits r) v3.

(** [acceptComment] and the two modes of [deleteComment], once the server agreed. *)
Definition accept_div (v : cdiv) : cdiv :=
  CDiv (d_data v) (d_rating v) false (uv v) (uu v) (dv v) (du v) (rl v) (cr v) (sp v) (hp v)
    (dc v) false.
Definition mark_deleted (v : cdiv) : cdiv :=
  CDiv (with_deleted (d_data v)) (d_rating v) (d_moderate v) (uv v) (uu v) (dv v) (du v)
    false false false false false false.

(** [showProposal] and [hideProposal], and the links of the reply form. *)
Definition set_proposal (b : bool) (v : cdiv) : cdiv :=
  CDiv (d_data v) (d_rating v) (d_moderate v) (uv v) (uu v) (dv v) (du v) (rl v) (cr v)
    (negb b) b (dc v) (cm v).
Definition set_reply (b : bool) (v : cdiv) : cdiv :=
  CDiv (d_data v) (d_rating v) (d_moderate v) (uv v) (uu v) (dv v) (du v) (negb b) b
    (sp v) (hp v) (dc v) (cm v).

(** ** The page *)

(** Updating the first element that [g] applies to. *)
Definition upd_first {A} (g : A → option A) : list A → option (list A) :=
  fix go l :=
    match l with
    | [] => None
    | x :: l' => match g x with Some y => Some (y :: l') | None => cons x <$> go l' end
    end.
(** The element [cd<cid>], and the list [cl<cid>] of the answers to a comment. *)
Fixpoint upd_com (cid : jsstr) (f : cdiv → list item → item) (i : item) : option item :=
  match i with
  | ICom v kids =>
      if str_eqb (id (d_data v)) cid then Some (f v kids)
      else ICom v <$> upd_first (upd_com cid f) kids
  | _ => None
  end.

Record box := Box {
  b_id : jsstr;           (* the list is [cl<b_id>] *)
  b_empty : bool;         (* [data('empty')] *)
  b_items : list item;
}.
Record wpage := WPage {
  p_by : jsstr;
  p_boxes : list box;
  p_posted : list (jsstr * Z);   (* the votes sent to the server *)
  p_errors : list jsstr;
}.
Definition with_boxes (bs : list box) (p : wpage) : wpage :=
  WPage (p_by p) bs (p_posted p) (p_errors p).
Definition showError (m : jsstr) (p : wpage) : wpage :=
  WPage (p_by p) (p_boxes p) (p_posted p) (p_errors p ++ [m]).

(** The element [cd<cid>] of the page; a page without it is left alone. *)
Definition on_com (cid : jsstr) (f : cdiv → list item → item) (bs : list box) : option (list box) :=
  upd_first (λ b, Box (b_id b) (b_empty b) <$> upd_first (upd_com cid f) (b_items b)) bs.
Definition change_div (cid : jsstr) (f : cdiv → cdiv) (p : wpage) : wpage :=
  match on_com cid (λ v kids, ICom (f v) kids) (p_boxes p) with
  | Some bs => with_boxes bs p
  | None => p
  end.
(** The list [cl<target>], of a box or of a comment. *)
Definition on_list (target : jsstr) (f : list item → list item) (bs : list box) : option (list box) :=
  match upd_first (λ b, if str_eqb (b_id b) target then Some (Box (b_id b) (b_empty b) (f (b_items b)))
                        else None) bs with
  | Some bs' => Some bs'
  | None => on_com target (λ v kids, ICom v (f kids)) bs
  end.

Section handlers.
Variable hides : jsstr → bool.
Variable opts : options.
Variable digits : Z → jsstr.

(** The [success] callback of [getComments]. *)
Definition show_comments (bid : jsstr) (cs : list comment) (p : wpage) : wpage :=
  with_boxes ((λ b,
    if str_eqb (b_id b) bid then
      match cs with
      | [] => Box bid true [INoComments]
      | _ => Box bid false
               (appendComments hides opts digits (sortComments (p_by p) cs) (b_items b))
      end
    else b) <$> p_boxes p) p.

(** The [success] callback of [addComment] for the list [cl<target>]. *)
Definition add_comment (target : jsstr) (d : cdata) (p : wpage) : wpage :=
  let bs := (λ b, if str_eqb (b_id b) target && b_empty b then Box (b_id b) false [] else b)
              <$> p_boxes p in
  match on_list (if is_empty (node d) then parent d else node d)
          (insertComment hides opts digits (p_by p) d) bs with
  | Some bs' => with_boxes bs' p
  | None => with_boxes bs p
  end.

(** [handleVote]; without the element of the comment the data is [undefined]. *)
Definition handleVote (link_id : jsstr) : M wpage unit :=
  if negb (voting opts) then modify (showError (js "You'll need to login to vote."))
  else if is_empty link_id then mret tt
  else
    get ≫= λ p : wpage,
    match on_com (substring_from link_id 2) (λ v kids, ICom (vote_div digits link_id v) kids)
            (p_boxes p) with
    | None => throw TypeError
    | Some bs =>
        put (WPage (p_by p) bs
               (p_posted p ++ [(substring_from link_id 2, vote_value link_id)]) (p_errors p))
    end.

Definition acceptComment (cid : jsstr) : wpage → wpage := change_div cid accept_div.
(** [answer] is what the server sends: [delete] in the moderator mode. *)
Definition deleteComment (cid answer : jsstr) (p : wpage) : wpage :=
  if str_eqb answer (js "delete") then
    match on_com cid (λ _ _, IEmptied) (p_boxes p) with
    | Some bs => with_boxes bs p
    | None => p
    end
  else change_div cid mark_deleted p.

Definition showProposal (cid : jsstr) : wpage → wpage := change_div cid (set_proposal true).
Definition hideProposal (cid : jsstr) : wpage → wpage := change_div cid (set_proposal false).
Definition openReply (cid : jsstr) (p : wpage) : wpage :=
  match on_com cid (λ v kids, ICom (set_reply true v) (IReply cid :: kids)) (p_boxes p) with
  | Some bs => with_boxes bs p
  | None => p
  end.
(** The reply form is removed once it slid up; its list element stays. *)
Definition remove_reply (cid : jsstr) (kids : list item) : list item :=
  default kids (upd_first (λ i, match i with
    | IReply c => if str_eqb c cid then Some IEmptied else None
    | _ => None
    end) kids).
Definition closeReply (cid : jsstr) (p : wpage) : wpage :=
  match on_com cid (λ v kids, ICom (set_reply false v) (remove_reply cid kids)) (p_boxes p) with
  | Some bs => with_boxes bs p
  | None => p
  end.

(** [handleReSort] for the link whose classes are [classes]. *)
Definition chosen_by (classes : list jsstr) (by_ : jsstr) : jsstr :=
  foldl (λ b c, if str_eqb c (js "sort-option") then b else substring_from c 2) by_ classes.
Definition handleReSort (classes : list jsstr) (p : wpage) : wpage :=
  let by' := chosen_by classes (p_by p) in
  WPage by' ((λ b, Box (b_id b) (b_empty b) (resort hides opts digits by' (b_items b)))
    <$> p_boxes p) (p_posted p) (p_errors p).
End handlers.

(** ** Sorting a tree *)

Section comment_ind.
Variable P : comment → Prop.
Hypothesis HC : ∀ d kids, Forall P kids → P (Comment d kids).

(** Induction with a hypothesis for every child. *)
Fixpoint comment_nested_ind (c : comment) : P c :=
  match c with
  | Comment d kids =>
      HC d kids
        ((fix go (l : list comment) : Forall P l :=
            match l with
            | [] => Forall_nil_2 P
            | c' :: l' => Forall_cons_2 P c' l' (comment_nested_ind c') (go l')
            end) kids)
  end.
End comment_ind.

(** The same comments, with the answers to each in any order. *)
Inductive same_tree : comment → comment → Prop :=
  | same_comment d kids kids1 kids2 :
      kids ≡ₚ kids1 → Forall2 same_tree kids1 kids2 →
      same_tree (Comment d kids) (Comment d kids2).
Definition same_forest (cs cs' : list comment) : Prop :=
  ∃ cs1, cs ≡ₚ cs1 ∧ Forall2 same_tree cs1 cs'.

(** Sorted at every level. *)
Definition sorted_list (by_ : jsstr) : list comment → Prop :=
  StronglySorted (cmp_le (comment_cmp by_)).
Inductive sorted_tree (by_ : jsstr) : comment → Prop :=
  | sorted_comment d kids :
      sorted_list by_ kids → Forall (sorted_tree by_) kids → sorted_tree by_ (Comment d kids).

Section sorting.
Variable by_ : jsstr.

(** The order of the comparator: by one number, ascending or descending. *)
Definition sort_key (d : cdata) : Z :=
  if str_eqb (substring by_ 0 3) (js "asc")
  then default 0%Z (attr (substring_from by_ 3) d)
  else (- default 0 (attr by_ d))%Z.

Lemma attr_uniform i d d' : attr i d = None ↔ attr i d' = None.
Proof. unfold attr. repeat case_match; done. Qed.

Lemma comp_key a b : sort_value (comp by_ a b) = (sort_key a - sort_key b)%Z.
Proof.
  unfold comp, sort_key. destruct (str_eqb _ _).
  - pose proof (attr_uniform (substring_from by_ 3) a b) as Hu. revert Hu.
    destruct (attr _ a), (attr _ b); simpl; try done; intros [Hu Hu'];
      [by specialize (Hu' eq_refl)|by specialize (Hu eq_refl)].
  - pose proof (attr_uniform by_ a b) as Hu. revert Hu.
    destruct (attr _ a), (attr _ b); simpl; intros [Hu Hu'];
      [lia|by specialize (Hu' eq_refl)|by specialize (Hu eq_refl)|done].
Qed.

Lemma comment_cmp_key a b :
  comment_cmp by_ a b = (sort_key (data_of a) - sort_key (data_of b))%Z.
Proof. apply comp_key. Qed.

#[export] Instance comment_cmp_consistent : Consistent (comment_cmp by_) (λ _, True).
Proof. split; intros *; rewrite !comment_cmp_key; lia. Qed.

Lemma depth_in c cs : c ∈ cs → depth c ≤ depths cs.
Proof.
  unfold depths. induction cs as [|c' cs IH]; [by intros ?%elem_of_nil|].
  intros [->|Hc]%elem_of_cons; simpl; [lia|]. specialize (IH Hc). lia.
Qed.
Lemma depths_le cs n : (∀ c, c ∈ cs → depth c ≤ n) → depths cs ≤ n.
Proof.
  unfold depths. induction cs as [|c cs IH]; intros Hn; simpl; [lia|].
  assert (depth c ≤ n) by (apply Hn; by left). apply Nat.max_lub; [done|].
  apply IH. intros; apply Hn; by right.
Qed.

Lemma js_sort_in (cs : list comment) c : c ∈ js_sort (comment_cmp by_) cs → c ∈ cs.
Proof. by rewrite js_sort_perm. Qed.

Lemma sort_levels_fuel n m cs :
  depths cs ≤ n → depths cs ≤ m → sort_levels by_ n cs = sort_levels by_ m cs.
Proof.
  revert m cs. induction n as [|n IH]; intros m cs Hn Hm.
  - destruct cs as [|[d kids] cs]; [by destruct m|simpl in Hn; lia].
  - destruct m as [|m]; [destruct cs as [|[d kids] cs]; [done|simpl in Hm; lia]|].
    simpl. apply list_fmap_ext. intros i [d kids] Hi%list_elem_of_lookup_2.
    apply js_sort_in, depth_in in Hi. change (S (depths kids) ≤ depths cs) in Hi.
    f_equal. apply IH; lia.
Qed.

(** The equation of the source: sort the list, then every list of answers. *)
Definition sort_answers (c : comment) : comment :=
  Comment (data_of c) (sortComments by_ (children_of c)).

Lemma sortComments_eq cs : sortComments by_ cs = sort_answers <$> js_sort (comment_cmp by_) cs.
Proof.
  unfold sortComments at 1. destruct (depths cs) as [|n] eqn:E.
  - destruct cs as [|[d kids] cs]; [done|]. simpl in E. lia.
  - simpl. apply list_fmap_ext. intros i [d kids] Hi%list_elem_of_lookup_2.
    apply js_sort_in, depth_in in Hi. change (S (depths kids) ≤ depths cs) in Hi.
    unfold sort_answers, sortComments. simpl. f_equal. apply sort_levels_fuel; lia.
Qed.

Lemma sorted_answers cs : sorted_list by_ cs → sorted_list by_ (sort_answers <$> cs).
Proof.
  intros Hs. apply StronglySorted_fmap_in. eapply StronglySorted_impl_in; [|exact Hs].
  intros x y _ _ H. exact H.
Qed.

Lemma sortComments_sorted cs : sorted_list by_ (sortComments by_ cs).
Proof.
  rewrite sortComments_eq. apply sorted_answers, (js_sort_sorted _ (λ _, True)).
  by apply Forall_true.
Qed.

Lemma sort_answers_tree c : same_tree c (sort_answers c) ∧ sorted_tree by_ (sort_answers c).
Proof.
  induction c as [d kids IH] using comment_nested_ind. unfold sort_answers. simpl. split.
  - apply (same_comment d kids (js_sort (comment_cmp by_) kids)); [by rewrite js_sort_perm|].
    rewrite sortComments_eq. apply Forall2_fmap_r, Forall_Forall2_diag.
    rewrite js_sort_perm. eapply Forall_impl; [exact IH|]. by intros c [].
  - constructor; [apply sortComments_sorted|]. rewrite sortComments_eq. apply Forall_fmap.
    rewrite js_sort_perm. eapply Forall_impl; [exact IH|]. by intros c [].
Qed.

Lemma sort_answers_idem c : sort_answers (sort_answers c) = sort_answers c.
Proof.
  induction c as [d kids IH] using comment_nested_ind. unfold sort_answers. simpl. f_equal.
  rewrite (sortComments_eq (sortComments by_ kids)).
  rewrite js_sort_id by apply sortComments_sorted. rewrite sortComments_eq.
  rewrite <- list_fmap_compose. apply list_fmap_ext.
  intros i c Hi%list_elem_of_lookup_2. apply js_sort_in in Hi.
  rewrite Forall_forall in IH. by apply IH.
Qed.
End sorting.

(** C30: [sortComments] keeps every comment below the same parent and its data
    unchanged, leaves every list of answers sorted by the comparator, and changes
    nothing when applied again.  The comparator is that of a sort option that names a number
    of the comments, as those of the page do, or a property that they have not. *)
Theorem sortComments_spec (by_ : jsstr) (cs : list comment) :
  same_forest cs (sortComments by_ cs) ∧
  sorted_list by_ (sortComments by_ cs) ∧ Forall (sorted_tree by_) (sortComments by_ cs) ∧
  sortComments by_ (sortComments by_ cs) = sortComments by_ cs.
Proof.
  split_and!.
  - exists (js_sort (comment_cmp by_) cs). split; [by rewrite js_sort_perm|].
    rewrite sortComments_eq. apply Forall2_fmap_r, Forall_Forall2_diag, Forall_forall.
    intros c _. apply sort_answers_tree.
  - apply sortComments_sorted.
  - rewrite sortComments_eq. apply Forall_fmap, Forall_forall. intros c _. apply sort_answers_tree.
  - rewrite (sortComments_eq _ (sortComments by_ cs)), js_sort_id by apply sortComments_sorted.
    rewrite sortComments_eq, <- list_fmap_compose. apply list_fmap_ext.
    intros i c _. apply sort_answers_idem.
Qed.

(** ** Inserting and sorting again *)

Section lists_of_page.
Variable hides : jsstr → bool.
Variable opts : options.
Variable digits : Z → jsstr.
Local Abbreviation item_of := (comment_item hides opts digits).

(** Whether a comment gets an element of its own. *)
Definition visible (d : cdata) : bool := displayed d || moderator opts.

Lemma createCommentDiv_None d : createCommentDiv hides opts digits d = None ↔ visible d = false.
Proof.
  unfold createCommentDiv, visible. destruct (displayed d), (moderator opts); simpl; done.
Qed.
Lemma createCommentDiv_data d v : createCommentDiv hides opts digits d = Some v → d_data v = d.
Proof. unfold createCommentDiv. destruct (_ && _); [done|]. by intros [= <-]. Qed.

(** What a list shows of a tree. *)
Fixpoint shown_tree (c : comment) : option comment :=
  match c with
  | Comment d kids => if visible d then Some (Comment d (omap shown_tree kids)) else None
  end.

Lemma comment_item_tree c : item_comment (item_of c) = shown_tree c.
Proof.
  induction c as [d kids IH] using comment_nested_ind. rewrite Forall_forall in IH.
  cbn [comment_item shown_tree].
  destruct (createCommentDiv hides opts digits d) as [v|] eqn:E; cbn [item_comment].
  - rewrite (createCommentDiv_data _ _ E). destruct (visible d) eqn:Hv.
    + rewrite omap_fmap_compose.
      f_equal. f_equal. by apply omap_ext_in.
    + apply createCommentDiv_None in Hv. congruence.
  - apply createCommentDiv_None in E. by rewrite E.
Qed.

(** Every comment of the tree has an element of its own. *)
Inductive all_visible : comment → Prop :=
  | visible_comment d kids :
      visible d = true → Forall all_visible kids → all_visible (Comment d kids).

Lemma shown_tree_all c : all_visible c → shown_tree c = Some c.
Proof.
  induction c as [d kids IH] using comment_nested_ind. intros Hc. inversion Hc; subst.
  simpl. rewrite H1. f_equal. f_equal. rewrite Forall_forall in *. apply omap_Some_all. auto.
Qed.

Lemma sort_answers_visible by_ c : all_visible c → all_visible (sort_answers by_ c).
Proof.
  induction c as [d kids IH] using comment_nested_ind. intros Hc. inversion Hc; subst.
  unfold sort_answers. simpl. constructor; [done|]. rewrite sortComments_eq.
  apply Forall_fmap. rewrite js_sort_perm. rewrite Forall_forall in *. intros c Hin.
  apply IH; auto.
Qed.

(** The data an element shows is that of a comment with an element. *)
Definition well_shown (ul : list item) : Prop := Forall all_visible (getChildren_rec ul).

Lemma getChildren_append cs ul :
  getChildren_rec (appendComments hides opts digits cs ul) =
    getChildren_rec ul ++ omap shown_tree cs.
Proof.
  unfold getChildren_rec, appendComments. rewrite omap_app. f_equal.
  rewrite omap_fmap_compose. apply omap_ext_in. intros c _. apply comment_item_tree.
Qed.

(** Inserting among the data of the siblings. *)
Fixpoint insert_data (by_ : jsstr) (d : cdata) (l : list cdata) : list cdata :=
  match l with
  | [] => [d]
  | s :: l' => if match comp by_ d s with Int z => Z.leb z 0 | _ => false end
               then d :: l else s :: insert_data by_ d l'
  end.

Lemma insert_item_some by_ d li ul :
  item_data li = Some d →
  getChildren (insert_item by_ d li ul) = insert_data by_ d (getChildren ul).
Proof.
  intros Hli. unfold getChildren. induction ul as [|i ul IH]; simpl; [by rewrite Hli|].
  destruct (item_data i) as [s|] eqn:Ei; cbn [omap list_omap insert_data].
  - destruct (match comp by_ d s with Int z => Z.leb z 0 | _ => false end);
      cbn [omap list_omap]; by rewrite ?Hli, ?Ei, ?IH.
  - by rewrite Ei, IH.
Qed.
Lemma insert_item_none by_ d li ul :
  item_data li = None → getChildren (insert_item by_ d li ul) = getChildren ul.
Proof.
  intros Hli. unfold getChildren. induction ul as [|i ul IH]; simpl; [by rewrite Hli|].
  destruct (item_data i) as [s|] eqn:Ei; cbn [omap list_omap].
  - destruct (match comp by_ d s with Int z => Z.leb z 0 | _ => false end);
      cbn [omap list_omap]; by rewrite ?Hli, ?Ei, ?IH.
  - by rewrite Ei, IH.
Qed.
Lemma insert_item_in by_ d li ul : li ∈ insert_item by_ d li ul.
Proof.
  induction ul as [|i ul IH]; simpl; [by left|]. destruct (item_data i) as [s|]; [|by right].
  destruct (match comp by_ d s with Int z => Z.leb z 0 | _ => false end); [by left|by right].
Qed.

Definition sorted_data (by_ : jsstr) : list cdata → Prop :=
  StronglySorted (λ a b, (sort_value (comp by_ a b) ≤ 0)%Z).

Lemma insert_data_perm by_ d l : insert_data by_ d l ≡ₚ d :: l.
Proof.
  induction l as [|s l IH]; simpl; [done|].
  destruct (match comp by_ d s with Int z => Z.leb z 0 | _ => false end); [done|].
  rewrite IH. apply Permutation_swap.
Qed.

Lemma comp_value by_ a b : comp by_ a b = Int (sort_key by_ a - sort_key by_ b)%Z ∨
  (comp by_ a b = NaN ∧ sort_key by_ a = sort_key by_ b).
Proof.
  unfold comp, sort_key. destruct (str_eqb _ _).
  - pose proof (attr_uniform (substring_from by_ 3) a b) as [Hu Hu'].
    destruct (attr _ a), (attr _ b); simpl; auto;
      [by specialize (Hu' eq_refl)|by specialize (Hu eq_refl)].
  - pose proof (attr_uniform by_ a b) as [Hu Hu'].
    destruct (attr _ a), (attr _ b); simpl; auto;
      [left; f_equal; lia|by specialize (Hu' eq_refl)|by specialize (Hu eq_refl)].
Qed.

Lemma insert_data_sorted by_ d l : sorted_data by_ l → sorted_data by_ (insert_data by_ d l).
Proof.
  induction 1 as [|s l Hl IH Hs]; simpl; [by repeat constructor|].
  assert (Hle : ∀ x y, (sort_value (comp by_ x y) ≤ 0)%Z ↔ (sort_key by_ x ≤ sort_key by_ y)%Z).
  { intros x y. rewrite comp_key. lia. }
  assert (Hkeep : (sort_key by_ s ≤ sort_key by_ d)%Z → sorted_data by_ (s :: insert_data by_ d l)).
  { intros Hsd. constructor; [exact IH|]. rewrite insert_data_perm. constructor; [by apply Hle|done]. }
  destruct (comp_value by_ d s) as [->|[-> Heq]]; [|apply Hkeep; lia].
  destruct (Z.leb_spec (sort_key by_ d - sort_key by_ s) 0); [|apply Hkeep; lia].
  constructor; [by constructor|]. constructor; [apply Hle; lia|].
  eapply Forall_impl; [exact Hs|]. intros x Hx%Hle. apply Hle. lia.
Qed.
End lists_of_page.

(** Inserting a new comment into a list in order keeps it in order: the list
    then shows the new comment and what it showed before; a comment still to be
    accepted changes nothing but for the notice it leaves. *)
Theorem insertComment_sorted (hides : jsstr → bool) (opts : options) (digits : Z → jsstr)
    (by_ : jsstr) (d : cdata) (ul : list item) :
  sorted_data by_ (getChildren ul) →
  let ul' := insertComment hides opts digits by_ d ul in
  sorted_data by_ (getChildren ul') ∧
  if visible opts d then getChildren ul' ≡ₚ d :: getChildren ul
  else getChildren ul' = getChildren ul ∧ IPending ∈ ul'.
Proof.
  intros Hs. unfold insertComment. cbn [comment_item fmap list_fmap].
  destruct (createCommentDiv hides opts digits d) as [v|] eqn:E.
  - rewrite insert_item_some by (simpl; by rewrite (createCommentDiv_data _ _ _ _ _ E)).
    destruct (visible opts d) eqn:Hv.
    + split; [by apply insert_data_sorted|apply insert_data_perm].
    + apply (createCommentDiv_None hides opts digits) in Hv. congruence.
  - rewrite insert_item_none by done. apply createCommentDiv_None in E. rewrite E.
    split; [done|]. split; [done|apply insert_item_in].
Qed.

(** Choosing another order rebuilds a list from the comments that have an
    element: the same trees, sorted at every level; what the rest of the list held,
    such as the notice of a comment still to be accepted or an open reply form, is
    lost. *)
Theorem resort_comments (hides : jsstr → bool) (opts : options) (digits : Z → jsstr)
    (by_ : jsstr) (ul : list item) :
  well_shown opts ul →
  let ul' := resort hides opts digits by_ ul in
  same_forest (getChildren_rec ul) (getChildren_rec ul') ∧
  sorted_list by_ (getChildren_rec ul') ∧ Forall (sorted_tree by_) (getChildren_rec ul') ∧
  ∀ i, i ∈ ul' → is_Some (item_comment i).
Proof.
  intros Hw. cbn zeta. unfold resort. set (cs := getChildren_rec ul) in *.
  assert (Hv : Forall (all_visible opts) (sortComments by_ cs)).
  { rewrite sortComments_eq. apply Forall_fmap. rewrite js_sort_perm.
    eapply Forall_impl; [exact Hw|]. intros c. apply sort_answers_visible. }
  rewrite Forall_forall in Hv.
  assert (Hg : getChildren_rec (appendComments hides opts digits (sortComments by_ cs) []) =
    sortComments by_ cs).
  { rewrite getChildren_append. simpl. apply omap_Some_all. intros c Hc.
    by apply shown_tree_all, Hv. }
  rewrite Hg. split_and!.
  - exists (js_sort (comment_cmp by_) cs). split; [by rewrite js_sort_perm|].
    rewrite sortComments_eq. apply Forall2_fmap_r, Forall_Forall2_diag, Forall_forall.
    intros c _. apply sort_answers_tree.
  - apply sortComments_sorted.
  - rewrite sortComments_eq. apply Forall_fmap, Forall_forall. intros c _. apply sort_answers_tree.
  - intros i (c & -> & Hc)%list_elem_of_fmap. rewrite comment_item_tree, shown_tree_all by auto.
    by eexists.
Qed.

Definition sample (cid : String.string) (r a : Z) (disp : bool) : cdata :=
  CData (js cid) (js "n1") [] r a 0 disp (js "ann") (js "text") [].
Definition sample_options (m : bool) : options := Options true m (js "bob").
Definition sample_hides (c : jsstr) : bool := str_eqb c (js "un") || str_eqb c (js "hidden").
Definition sample_digits (z : Z) : jsstr := if Z.eqb z 1 then js "1" else js "some".
Definition sample_list : list item :=
  appendComments sample_hides (sample_options false) sample_digits
    [Comment (sample "1" 7 10 true) []; Comment (sample "2" 3 20 true) []] [].

Lemma insertComment_sorted_witness :
  let ul' := insertComment sample_hides (sample_options false) sample_digits (js "rating")
    (sample "3" 5 30 true) sample_list in
  sorted_data (js "rating") (getChildren ul') ∧
  getChildren ul' ≡ₚ sample "3" 5 30 true :: getChildren sample_list.
Proof.
  apply (insertComment_sorted sample_hides (sample_options false) sample_digits (js "rating")
    (sample "3" 5 30 true) sample_list).
  repeat constructor; vm_compute; discriminate.
Defined.

Lemma resort_comments_witness :
  let ul' := resort sample_hides (sample_options false) sample_digits (js "ascage") sample_list in
  same_forest (getChildren_rec sample_list) (getChildren_rec ul') ∧
  sorted_list (js "ascage") (getChildren_rec ul').
Proof.
  destruct (resort_comments sample_hides (sample_options false) sample_digits (js "ascage")
    sample_list) as (H1 & H2 & _); [|exact (conj H1 H2)].
  repeat constructor.
Defined.

(** ** Voting *)

(** The arrows agree with the vote: of each pair exactly one is visible. *)
Definition arrows_ok (v : cdiv) : Prop :=
  (vote (d_data v) = -1 ∨ vote (d_data v) = 0 ∨ vote (d_data v) = 1)%Z ∧
  uu v = Z.eqb (vote (d_data v)) 1 ∧ uv v = negb (Z.eqb (vote (d_data v)) 1) ∧
  du v = Z.eqb (vote (d_data v)) (-1) ∧ dv v = negb (Z.eqb (vote (d_data v)) (-1)).

(** The four links of a comment and whether they are visible. *)
Inductive arrow := Up | UnUp | Down | UnDown.
Definition arrow_id (a : arrow) (cid : jsstr) : jsstr :=
  match a with Up => js "uv" | UnUp => js "uu" | Down => js "dv" | UnDown => js "du" end ++ cid.
Definition arrow_shown (a : arrow) (v : cdiv) : bool :=
  match a with Up => uv v | UnUp => uu v | Down => dv v | UnDown => du v end.
Definition arrow_value (a : arrow) : Z :=
  match a with Up => 1 | Down => -1 | _ => 0 end.

(** A user can click the arrows that are visible; the votes sent are recorded. *)
Inductive vote_step (digits : Z → jsstr) : cdiv * list Z → cdiv * list Z → Prop :=
  | click a v sent :
      arrow_shown a v = true →
      vote_step digits (v, sent)
        (vote_div digits (arrow_id a (id (d_data v))) v,
         sent ++ [vote_value (arrow_id a (id (d_data v)))]).

Section voting.
Variable digits : Z → jsstr.

Lemma arrow_vote a cid : vote_value (arrow_id a cid) = arrow_value a.
Proof. by destruct a. Qed.

Lemma vote_div_ok a v :
  arrows_ok v → arrow_shown a v = true →
  let v' := vote_div digits (arrow_id a (id (d_data v))) v in
  arrows_ok v' ∧ vote (d_data v') = arrow_value a ∧
  (rating (d_data v') - vote (d_data v') = rating (d_data v) - vote (d_data v))%Z ∧
  d_rating v' = points digits (rating (d_data v')).
Proof.
  destruct v as [d r m u1 u2 d1 d2 b1 b2 b3 b4 b5 b6]. unfold arrows_ok. simpl.
  intros (Hv & -> & -> & -> & ->).
  assert (H0 : ∀ c0 c1, charAt ([c0; c1] ++ id d) 0 = [c0]) by done.
  assert (H1 : ∀ c0 c1, charAt ([c0; c1] ++ id d) 1 = [c1]) by done.
  destruct Hv as [Hv|[Hv|Hv]]; destruct a; simpl; rewrite Hv; try discriminate; intros _;
    unfold vote_div, vote_value; simpl; rewrite ?Hv; simpl; rewrite ?Hv;
    (split_and!; [auto|done..| |done]); lia.
Qed.

Lemma vote_steps_ok v sent v' sent' :
  rtc (vote_step digits) (v, sent) (v', sent') → arrows_ok v →
  arrows_ok v' ∧
  (rating (d_data v') - vote (d_data v') = rating (d_data v) - vote (d_data v))%Z ∧
  ∃ new, sent' = sent ++ new ∧ vote (d_data v') = default (vote (d_data v)) (last new) ∧
    (new = [] → v' = v) ∧ (new ≠ [] → d_rating v' = points digits (rating (d_data v'))).
Proof.
  intros Hr. remember (v, sent) as x eqn:Hx. remember (v', sent') as y eqn:Hy.
  revert v sent Hx. induction Hr as [x|x1 x2 x3 Hs Hr IH]; intros v sent Hx Hok.
  - simplify_eq. split_and!; [done|done|]. exists []. rewrite app_nil_r. by split_and!.
  - destruct Hs as [a v0 sent0 Ha]. simplify_eq.
    destruct (vote_div_ok a v Hok Ha) as (Hok' & Hvote & Hdiff & Htext).
    destruct (IH eq_refl _ _ eq_refl Hok') as (H1 & H2 & new & -> & H3 & H4 & H5).
    split_and!; [done|congruence|].
    exists (vote_value (arrow_id a (id (d_data v))) :: new). rewrite <- (assoc_L (++)).
    split_and!; [done| |done|].
    + rewrite H3. destruct new as [|z new]; [by rewrite Hvote, arrow_vote|].
      match goal with |- context [last (?x :: z :: new)] =>
        change (last (x :: z :: new)) with (last (z :: new)) end.
      destruct (last (z :: new)) eqn:E; [done|]. by apply last_None in E.
    + intros _. destruct new as [|z new]; [|by apply H5]. by rewrite H4.
Qed.
End voting.

Lemma createCommentDiv_arrows hides opts digits d v :
  hides (js "vote") = false → hides (js "un") = true →
  (vote d = -1 ∨ vote d = 0 ∨ vote d = 1)%Z →
  createCommentDiv hides opts digits d = Some v → arrows_ok v.
Proof.
  intros Hvote Hun Hv. unfold createCommentDiv, shown. cbn [forallb]. rewrite Hvote, Hun.
  destruct (_ && _); [done|]. intros [= <-]. unfold arrows_ok. simpl.
  destruct Hv as [->|[->| ->]]; simpl; auto.
Qed.

(** C31: whatever visible arrows a user clicks on a new element, its arrows show
    exactly the last vote sent, the rating is that of the other users plus this
    vote, and the text of the rating agrees. *)
Theorem voting_invariant (hides : jsstr → bool) (opts : options) (digits : Z → jsstr)
    (d : cdata) (v v' : cdiv) (sent : list Z) :
  hides (js "vote") = false → hides (js "un") = true →
  (vote d = -1 ∨ vote d = 0 ∨ vote d = 1)%Z →
  createCommentDiv hides opts digits d = Some v →
  rtc (vote_step digits) (v, []) (v', sent) →
  arrows_ok v' ∧ vote (d_data v') = default (vote d) (last sent) ∧
  rating (d_data v') = (rating d - vote d + vote (d_data v'))%Z ∧
  d_rating v' = points digits (rating (d_data v')).
Proof.
  intros Hvote Hun Hd Hv Hr.
  destruct (vote_steps_ok digits _ _ _ _ Hr) as (H1 & H2 & new & -> & H3 & H4 & H5).
  { by eapply createCommentDiv_arrows. }
  pose proof (createCommentDiv_data _ _ _ _ _ Hv) as Hdata. rewrite Hdata in *.
  split_and!; [done|done|lia|]. simpl. destruct new as [|z new]; [|by apply H5].
  rewrite H4 by done. revert Hv. unfold createCommentDiv. destruct (_ && _); [done|].
  by intros [= <-].
Qed.

Definition sample_div : cdiv :=
  CDiv (sample "1" 7 10 true) (js "some points") false true false true false true true true true
    false false.

Lemma voting_invariant_witness :
  ∃ v v', createCommentDiv sample_hides (sample_options false) sample_digits
      (sample "1" 7 10 true) = Some v ∧
    rtc (vote_step sample_digits) (v, []) (v', [1; -1]%Z) ∧
    arrows_ok v' ∧ rating (d_data v') = 6%Z.
Proof.
  exists sample_div, (vote_div sample_digits (js "dv1") (vote_div sample_digits (js "uv1") sample_div)).
  split; [reflexivity|].
  assert (Hr : rtc (vote_step sample_digits) (sample_div, [])
    (vote_div sample_digits (js "dv1") (vote_div sample_digits (js "uv1") sample_div), [1; -1]%Z)).
  { eapply rtc_l; [exact (click sample_digits Up sample_div [] eq_refl)|].
    eapply rtc_l; [|apply rtc_refl].
    exact (click sample_digits Down (vote_div sample_digits (js "uv1") sample_div) [1%Z] eq_refl). }
  split; [exact Hr|].
  destruct (voting_invariant sample_hides (sample_options false) sample_digits
    (sample "1" 7 10 true) sample_div _ [1; -1]%Z eq_refl eq_refl (or_intror (or_introl eq_refl))
    eq_refl Hr) as (H1 & _ & H3 & _).
  split; [exact H1|exact H3].
Defined.

(** Accepting a comment is forgotten by the page: [acceptComment] removes the
    moderation link and class from the element but not from its data, so choosing
    another order shows the comment as not accepted again. *)
Theorem accept_lost_by_resort (hides : jsstr → bool) (opts : options) (digits : Z → jsstr)
    (by_ : jsstr) (v : cdiv) :
  moderator opts = true → displayed (d_data v) = false →
  d_moderate (accept_div v) = false ∧ cm (accept_div v) = false ∧
  ∃ v', resort hides opts digits by_ [ICom (accept_div v) []] = [ICom v' []] ∧
    d_data v' = d_data v ∧ d_moderate v' = true ∧ cm v' = true.
Proof.
  intros Hm Hd. split; [done|]. split; [done|].
  unfold resort, getChildren_rec. simpl. unfold sortComments. simpl.
  unfold appendComments. simpl. unfold createCommentDiv. rewrite Hm, Hd. simpl.
  by eexists.
Qed.

Definition pending_div : cdiv :=
  CDiv (sample "1" 7 10 false) (js "some points") true true false true false true true true true
    true true.

Lemma accept_lost_by_resort_witness :
  ∃ v, createCommentDiv sample_hides (sample_options true) sample_digits
      (sample "1" 7 10 false) = Some v ∧
    ∃ v', resort sample_hides (sample_options true) sample_digits (js "rating")
        [ICom (accept_div v) []] = [ICom v' []] ∧ cm v' = true.
Proof.
  exists pending_div. split; [reflexivity|].
  destruct (accept_lost_by_resort sample_hides (sample_options true) sample_digits (js "rating")
    pending_div eq_refl eq_refl) as (_ & _ & v' & H1 & _ & _ & H4).
  exists v'. exact (conj H1 H4).
Defined.

End Comments.
