(* ===== verification/WebTemplate.v ===== *)
(** * Templates, cookies and text areas of websupport.js

    [renderTemplate] fills the placeholders of a template from a context object;
    [initComparator] reads the [sortBy] cookie; [autogrow.resize] sizes a text
    area.  Writing text as HTML is done by the browser: it is a parameter. *)

From stdpp Require Import base tactics list strings numbers sets gmap.
From Stdlib Require Import NArith ZArith Lia.
From S2P Require Import Prelude.
From S2P Require Import JsString.
From S2P Require Import Regex.
From S2P Require Import JsArray.
From S2P Require Import Uri.

Module Template.

(** ** Context values *)

(** [VPrim] is a number, a text or a boolean, with its truth and its text. *)
Inductive value : Type :=
  | VUndefined
  | VNull
  | VPrim (truthy : bool) (shown : jsstr)
  | VObj (props : list (jsstr * value)).

Definition value_text (v : value) : jsstr :=
  match v with
  | VUndefined => js "undefined"
  | VNull => js "null"
  | VPrim _ s => s
  | VObj _ => js "[object Object]"
  end.
(** [v] or the empty text, when [v] is not true. *)
Definition or_empty (v : value) : jsstr :=
  match v with
  | VPrim true _ | VObj _ => value_text v
  | _ => []
  end.

(** [cur[k]] for the objects of a context: own properties only. *)
Definition get_prop (cur : value) (k : jsstr) : outcome value :=
  match cur with
  | VUndefined | VNull => Throw TypeError
  | VPrim _ _ => Ok VUndefined
  | VObj ps => Ok (default VUndefined (obj_get k ps))
  end.
Fixpoint get_path (cur : value) (path : list jsstr) : outcome value :=
  match path with
  | [] => Ok cur
  | k :: ks => match get_prop cur k with Ok v => get_path v ks | Throw e => Throw e end
  end.

(** The pattern of a placeholder: [<], a mark, a path of names, the mark, [>]. *)
Definition template_re : regex :=
  seqs [lit "<"; RGroup 1 (RSet (cls "%#"));
        RGroup 2 (star (RSet (λ c, is_word c || N.eqb c (chr ".")))); RBack 1; lit ">"].

Section render.
(** [esc.text(s).html()]. *)
Variable text_html : jsstr → jsstr.

Definition handle (context : value) (ph : jsstr) (escape : bool) : outcome jsstr :=
  match get_path context (split_unit (chr ".") ph) with
  | Throw e => Throw e
  | Ok cur => Ok (if escape then text_html (or_empty cur) else value_text cur)
  end.
Definition renderTemplate (template : jsstr) (context : value) : outcome jsstr :=
  replace_all_throws template_re
    (λ m, handle context (capture_str m 2) (str_eqb (capture_str m 1) (js "%"))) template.
End render.

(** The start of [commentTemplate], rendered. *)
Example render_ex :
  renderTemplate (λ s, s) (js "<div id=_cd<%id%>_><%time.delta%></div><#text#>")
    (VObj [(js "id", VPrim true (js "7")); (js "time", VObj [(js "delta", VPrim true (js "1 day"))]);
           (js "text", VPrim true (js "<b>"))]) =
  Ok (js "<div id=_cd7_>1 day</div><b>").
Proof. vm_compute. reflexivity. Qed.

(** ** The cookie *)

(** [escape] and [unescape], the legacy functions of the language. *)
Definition escape_plain (c : N) : bool :=
  ((65 <=? c) && (c <=? 90) || (97 <=? c) && (c <=? 122) || (48 <=? c) && (c <=? 57))%N
  || existsb (N.eqb c) [64; 42; 95; 43; 45; 46; 47]%N.
Definition escape_unit (c : N) : jsstr :=
  if escape_plain c then [c]
  else if (c <? 256)%N then Uri.pct c
  else [37; 117; Uri.hex_digit (c / 4096); Uri.hex_digit (c / 256 mod 16);
        Uri.hex_digit (c / 16 mod 16); Uri.hex_digit (c mod 16)]%N.
Definition escape (s : jsstr) : jsstr := s ≫= escape_unit.

Definition hex2 (a b : N) : option N :=
  match Uri.hex_val a, Uri.hex_val b with Some x, Some y => Some (x * 16 + y)%N | _, _ => None end.
Definition hex4 (a b c d : N) : option N :=
  match hex2 a b, hex2 c d with Some x, Some y => Some (x * 256 + y)%N | _, _ => None end.
(** One unit or escape sequence read from the front. *)
Definition unescape_step (s : jsstr) : option (N * jsstr) :=
  match s with
  | [] => None
  | c :: s1 =>
      if negb (N.eqb c 37) then Some (c, s1)
      else
        match s1 with
        | u :: a :: b :: c' :: d :: s2 =>
            match (if N.eqb u 117 then hex4 a b c' d else None) with
            | Some v => Some (v, s2)
            | None => match hex2 u a with Some v => Some (v, b :: c' :: d :: s2) | None => Some (c, s1) end
            end
        | u :: a :: s2 => match hex2 u a with Some v => Some (v, s2) | None => Some (c, s1) end
        | _ => Some (c, s1)
        end
  end.
Fixpoint unescape_loop (fuel : nat) (s : jsstr) : jsstr :=
  match fuel with
  | 0 => []
  | S k => match unescape_step s with Some (c, s') => c :: unescape_loop k s' | None => [] end
  end.
(** Every step reads a unit, so the length is enough fuel. *)
Definition unescape (s : jsstr) : jsstr := unescape_loop (length s) s.

(** [initComparator]: the value of [by] for the page's cookies. *)
Definition initComparator (cookie : jsstr) : jsstr :=
  if (zlen cookie >? 0)%Z then
    let start := indexOf cookie (js "sortBy=") in
    if negb (Z.eqb start (-1)) then
      let start := (start + 7)%Z in
      let end_ := indexOf_from cookie (js ";") (Z.to_nat start) in
      if Z.eqb end_ (-1) then unescape (substring cookie start (zlen cookie))
      else js "rating"
    else js "rating"
  else js "rating".

(** The cookie that [handleReSort] stores, up to its expiration date. *)
Definition sort_cookie (by_ : jsstr) : jsstr := js "sortBy=" ++ escape by_.

(** ** Text areas *)

(** [autogrow.resize]: the height for a text area with at least one column. *)
Definition line_rows (columns : Z) (line : jsstr) : Z :=
  let rows := ((zlen line + columns - 1) / columns)%Z in if Z.eqb rows 0 then 1 else rows.
Definition line_count (columns : Z) (value : jsstr) : Z :=
  foldl (λ n line, (n + line_rows columns line)%Z) 0%Z (split_unit 10%N value).
Definition resize (lineHeight columns : Z) (value : jsstr) : Z :=
  (lineHeight * (line_count columns value + 1))%Z.

(** The comment whose box the page's address asks to open. *)
Definition open_anchor (hash : jsstr) : option jsstr :=
  if str_eqb (substring hash 0 9) (js "#comment-") then Some (substring_from hash 9) else None.

(** The label of the link that opens a box of [count] comments. *)
Definition box_title (digits : Z → jsstr) (count : Z) : jsstr :=
  digits count ++ js " comment" ++ (if Z.eqb count 1 then [] else js "s").

(** ** Data cannot add markup to a template *)

(** The angle brackets of a text, in order. *)
Definition bracket (c : N) : bool := N.eqb c (chr "<") || N.eqb c (chr ">").
Definition markup (s : jsstr) : jsstr := base.filter (λ c, Is_true (bracket c)) s.

Lemma markup_app s t : markup (s ++ t) = markup s ++ markup t.
Proof. apply filter_app. Qed.

(** A match of the pattern starts with [<] and the mark it captures. *)
Lemma template_match pos rest m :
  match_at template_re pos rest = Some m →
  ∃ c t, r_text m = chr "<" :: c :: t ∧ capture_str m 1 = [c] ∧ cls "%#" c = true.
Proof.
  intros (st' & Hin & _ & Hc & _ & [Hr _])%match_at_Some. unfold template_re in Hin.
  change (st' ∈ run (RSeq (lit "<") (RSeq (RGroup 1 (RSet (cls "%#")))
    (RSeq (RGroup 2 (star (RSet (λ c, is_word c || N.eqb c (chr "."))))) (RSeq (RBack 1) (lit ">")))))
    (MState pos rest ∅)) in Hin.
  apply run_seq in Hin as (st1 & (s1 & E1 & ->)%run_lit_units & Hin).
  apply run_seq in Hin as (st2 & (st2' & (c & s2 & E2 & Hcls & ->)%run_set & ->)%run_group & Hin).
  apply run_seq in Hin as (st3 & (st3' & H3 & ->)%run_group & Hin).
  pose proof (run_caps (star (RSet _)) _ _ eq_refl H3) as Hcaps.
  pose proof (run_forward _ _ _ H3) as [u3 [F3 _]].
  pose proof (run_caps (RSeq (RBack 1) (lit ">")) _ _ eq_refl Hin) as Hcaps'.
  pose proof (run_forward _ _ _ Hin) as [u4 [F4 _]].
  simpl in *. subst rest. simpl in E2. rewrite drop_0 in E2. subst s1.
  simpl in *. rewrite drop_0 in F3. subst s2. rewrite F4 in Hr.
  exists c, (u3 ++ u4). split; [|split; [|done]].
  - apply (app_inv_tail (m_rest st')). rewrite <- Hr. simpl. by rewrite <- (assoc_L (++)).
  - unfold capture_str, capture. rewrite Hc, Hcaps'. rewrite lookup_insert_ne by done.
    rewrite Hcaps. rewrite lookup_insert_eq. simpl. unfold consumed. simpl.
    by replace (pos + 1 + 1 - (pos + 1)) with 1 by lia.
Qed.

Lemma replace_pieces_markup (f g : match_result → outcome jsstr) ps o o' :
  (∀ m s, Hit m ∈ ps → f m = Ok s → markup s = []) →
  (∀ m s, Hit m ∈ ps → g m = Ok s → markup s = []) →
  replace_pieces f ps = Ok o → replace_pieces g ps = Ok o' → markup o = markup o'.
Proof.
  revert o o'. induction ps as [|[t|m] ps IH]; intros o o' Hf Hg; simpl.
  - by intros [= <-] [= <-].
  - destruct (replace_pieces f ps) as [u|]; [|done]. destruct (replace_pieces g ps) as [u'|]; [|done].
    intros [= <-] [= <-]. rewrite !markup_app. f_equal.
    apply IH; [intros; eapply Hf; [by right|done]|intros; eapply Hg; [by right|done]|done|done].
  - destruct (f m) as [s|] eqn:Ef; [|done]. destruct (g m) as [s'|] eqn:Eg; [|done].
    destruct (replace_pieces f ps) as [u|]; [|done]. destruct (replace_pieces g ps) as [u'|]; [|done].
    intros [= <-] [= <-]. rewrite !markup_app, (Hf m s), (Hg m s') by (done || by left). simpl.
    apply IH; [intros; eapply Hf; [by right|done]|intros; eapply Hg; [by right|done]|done|done].
Qed.

Lemma escaped_hits template m :
  contains_str template (js "<#") = false → Hit m ∈ pieces template_re template →
  capture_str m 1 = js "%".
Proof.
  intros Hno Hm. pose proof (pieces_hit _ _ _ Hm) as (pos & rest & Hat).
  destruct (template_match _ _ _ Hat) as (c & t & Ht & -> & Hc).
  unfold cls in Hc. apply existsb_elem_of in Hc as (d & Hd & ->%N.eqb_eq).
  apply elem_of_cons in Hd as [->|Hd]; [done|]. apply list_elem_of_singleton in Hd as ->.
  exfalso. assert (Hin : contains_str template (js "<#") = true); [|congruence].
  apply contains_str_spec. apply list_elem_of_split in Hm as (l1 & l2 & Hps).
  rewrite <- (pieces_text template_re template), Hps, bind_app, bind_cons. simpl piece_text.
  rewrite Ht. exists (l1 ≫= piece_text), (t ++ (l2 ≫= piece_text)). done.
Qed.

(** C34: in a template without unescaped placeholders no data can add markup: the
    angle brackets of the page it renders to are the same for every context. *)
Theorem render_no_injection (text_html : jsstr → jsstr) (template : jsstr)
    (context context' : value) (out out' : jsstr) :
  (∀ s, markup (text_html s) = []) →
  contains_str template (js "<#") = false →
  renderTemplate text_html template context = Ok out →
  renderTemplate text_html template context' = Ok out' →
  markup out = markup out'.
Proof.
  intros Hesc Hno. unfold renderTemplate, replace_all_throws. apply replace_pieces_markup;
    intros m s Hm; rewrite (escaped_hits _ _ Hno Hm); unfold handle; simpl;
    destruct (get_path _ _); try done; intros [= <-]; apply Hesc.
Qed.

(** The serialisation of text nodes: ampersands and angle brackets are escaped. *)
Definition sample_text_html (s : jsstr) : jsstr :=
  s ≫= λ c, if N.eqb c (chr "<") then js "&lt;" else if N.eqb c (chr ">") then js "&gt;"
            else if N.eqb c (chr "&") then js "&amp;" else [c].
Lemma sample_text_html_markup s : markup (sample_text_html s) = [].
Proof.
  unfold sample_text_html. induction s as [|c s IH]; [done|].
  rewrite bind_cons, markup_app, IH, app_nil_r. unfold markup.
  destruct (N.eqb_spec c (chr "<")) as [->|H1]; [done|].
  destruct (N.eqb_spec c (chr ">")) as [->|H2]; [done|].
  destruct (N.eqb_spec c (chr "&")) as [->|H3]; [done|].
  rewrite filter_cons, filter_nil. unfold bracket.
  rewrite (proj2 (N.eqb_neq _ _) H1), (proj2 (N.eqb_neq _ _) H2). reflexivity.
Qed.

Lemma render_no_injection_witness :
  let t := js "<span><%username%></span>" in
  ∃ out, renderTemplate sample_text_html t (VObj [(js "username", VPrim true (js "<img>"))]) = Ok out ∧
    markup out = markup (js "<span>ann</span>").
Proof.
  eexists. split; [vm_compute; reflexivity|].
  apply (render_no_injection sample_text_html (js "<span><%username%></span>")
    (VObj [(js "username", VPrim true (js "<img>"))])
    (VObj [(js "username", VPrim true (js "ann"))])).
  - exact sample_text_html_markup.
  - vm_compute. reflexivity.
  - vm_compute. reflexivity.
  - vm_compute. reflexivity.
Defined.

(** ** The cookie survives a round trip *)

Ltac Zify.zify_post_hook ::= Z.to_euclidean_division_equations.

Lemma hex_digit_not_u n : (n < 16)%N → Uri.hex_digit n ≠ 117%N.
Proof. intros Hn. unfold Uri.hex_digit. destruct (N.ltb_spec n 10); lia. Qed.

Lemma hex2_digits a b : (a < 16)%N → (b < 16)%N →
  hex2 (Uri.hex_digit a) (Uri.hex_digit b) = Some (a * 16 + b)%N.
Proof. intros Ha Hb. unfold hex2. by rewrite !Uri.hex_val_digit. Qed.

Lemma unescape_step_escape c s :
  (c < 65536)%N → unescape_step (escape_unit c ++ s) = Some (c, s).
Proof.
  intros Hc. unfold escape_unit. destruct (escape_plain c) eqn:Hp.
  - simpl. destruct (N.eqb_spec c 37) as [->|]; [by vm_compute in Hp|done].
  - destruct (N.ltb_spec c 256) as [Hlt|Hge].
    + unfold Uri.pct. cbn [app unescape_step N.eqb Pos.eqb negb].
      assert (Hd : Uri.hex_digit (c / 16) ≠ 117%N) by (apply hex_digit_not_u; lia).
      rewrite (proj2 (N.eqb_neq _ _) Hd). rewrite hex2_digits by lia.
      assert (Hv : (c / 16 * 16 + c mod 16 = c)%N) by lia. rewrite Hv.
      by destruct s as [|x [|y [|z s]]].
    + cbn [app unescape_step N.eqb Pos.eqb negb]. unfold hex4.
      rewrite !hex2_digits by lia. f_equal. f_equal. lia.
Qed.

Lemma escape_unit_ne c : escape_unit c ≠ [].
Proof. unfold escape_unit. destruct (escape_plain c); [done|]. by destruct (c <? 256)%N. Qed.

Lemma unescape_loop_escape s fuel :
  code_units s → length (escape s) ≤ fuel → unescape_loop fuel (escape s) = s.
Proof.
  intros Hs. revert fuel. induction Hs as [|c s Hc Hs IH]; intros fuel Hf; [by destruct fuel|].
  unfold escape in *. rewrite bind_cons in *. rewrite length_app in Hf.
  pose proof (escape_unit_ne c) as Hne. destruct fuel as [|fuel];
    [destruct (escape_unit c); [done|simpl in Hf; lia]|].
  cbn [unescape_loop]. rewrite unescape_step_escape by done. f_equal. apply IH.
  destruct (escape_unit c); [done|simpl in Hf; lia].
Qed.

Lemma escape_no_semicolon s : (59 ∉ escape s)%N.
Proof.
  unfold escape. intros (c & Hin & _)%list_elem_of_bind. unfold escape_unit in Hin.
  destruct (escape_plain c) eqn:Hp.
  - apply list_elem_of_singleton in Hin as <-. by vm_compute in Hp.
  - assert (Hh : ∀ n, Uri.hex_digit n ≠ 59%N).
    { intros n. unfold Uri.hex_digit. destruct (N.ltb_spec n 10); lia. }
    destruct (N.ltb_spec c 256).
    + unfold Uri.pct in Hin. rewrite !elem_of_cons, elem_of_nil in Hin.
      destruct Hin as [?|[?|[?|[]]]]; [done|..]; by eapply Hh; symmetry.
    + rewrite !elem_of_cons, elem_of_nil in Hin.
      destruct Hin as [?|[?|[?|[?|[?|[?|[]]]]]]]; [done|done|..];
        by eapply Hh; symmetry.
Qed.


Lemma indexOf_from_none (s : jsstr) (k : nat) :
  (59%N ∉ drop k s) → indexOf_from s (js ";") k = (-1)%Z.
Proof.
  intros Hn. unfold indexOf_from. destruct (index_of (drop k s) (js ";")) as [i|] eqn:E; [|done].
  apply index_of_Some in E as [E _]. destruct Hn. rewrite E. apply elem_of_app. right.
  by left.
Qed.

Lemma indexOf_from_some (s : jsstr) (k : nat) :
  59%N ∈ drop k s → indexOf_from s (js ";") k ≠ (-1)%Z.
Proof.
  intros Hin. unfold indexOf_from. destruct (index_of (drop k s) (js ";")) as [i|] eqn:E; [lia|].
  rewrite index_of_None in E. apply list_elem_of_split in Hin as (a & b & Hab).
  by destruct (E a b).
Qed.

(** The preferred order survives in a cookie that is read back as the last of
    the page's cookies; when another cookie follows it, it is ignored. *)
Theorem sort_cookie_roundtrip (pre by_ rest : jsstr) :
  code_units by_ →
  index_of (pre ++ sort_cookie by_ ++ rest) (js "sortBy=") = Some (length pre) →
  (rest = [] → initComparator (pre ++ sort_cookie by_ ++ rest) = by_) ∧
  (head rest = Some (chr ";") → initComparator (pre ++ sort_cookie by_ ++ rest) = js "rating").
Proof.
  intros Hb Hi. unfold initComparator, indexOf. rewrite Hi.
  assert (Hlen : zlen (pre ++ sort_cookie by_ ++ rest) =
    (Z.of_nat (length pre) + 7 + zlen (escape by_ ++ rest))%Z).
  { unfold zlen, sort_cookie. rewrite !length_app. simpl length. lia. }
  assert (Hdrop : drop (length pre + 7) (pre ++ sort_cookie by_ ++ rest) = escape by_ ++ rest).
  { rewrite <- drop_drop, drop_app_length. done. }
  rewrite (proj2 (Z.gtb_lt _ _)) by (unfold zlen in *; lia).
  rewrite (proj2 (Z.eqb_neq _ _)) by lia. cbn [negb].
  replace (Z.to_nat (Z.of_nat (length pre) + 7)) with (length pre + 7) by lia. split.
  - intros ->. rewrite indexOf_from_none by (rewrite Hdrop, app_nil_r; apply escape_no_semicolon).
    rewrite Z.eqb_refl. unfold substring. rewrite Hlen.
    replace (Z.min _ _) with (Z.of_nat (length pre) + 7)%Z by (unfold zlen; lia).
    unfold slice_nat. replace (Z.to_nat (Z.of_nat (length pre) + 7)) with (length pre + 7) by lia.
    rewrite Hdrop, app_nil_r. rewrite take_ge by (unfold zlen; lia).
    apply unescape_loop_escape; [done|lia].
  - destruct rest as [|c rest]; [done|]. intros [= ->].
    rewrite (proj2 (Z.eqb_neq _ _)); [done|]. apply indexOf_from_some. rewrite Hdrop.
    apply elem_of_app. right. by left.
Qed.

Lemma sort_cookie_roundtrip_witness :
  initComparator (js "theme=dark; sortBy=ascage") = js "ascage" ∧
  initComparator (js "sortBy=ascage; theme=dark") = js "rating".
Proof.
  split.
  - apply (sort_cookie_roundtrip (js "theme=dark; ") (js "ascage") []).
    + repeat constructor.
    + vm_compute. reflexivity.
    + reflexivity.
  - apply (sort_cookie_roundtrip [] (js "ascage") (js "; theme=dark")).
    + repeat constructor.
    + vm_compute. reflexivity.
    + reflexivity.
Defined.

(** ** Text areas *)

Lemma line_rows_fits columns line :
  (0 < columns)%Z → (1 ≤ line_rows columns line)%Z ∧ (zlen line ≤ columns * line_rows columns line)%Z.
Proof.
  intros Hc. unfold line_rows. pose proof (Z.div_mod (zlen line + columns - 1) columns).
  pose proof (Z.mod_pos_bound (zlen line + columns - 1) columns).
  assert (0 ≤ zlen line)%Z by (unfold zlen; lia).
  destruct (Z.eqb_spec ((zlen line + columns - 1) / columns) 0) as [E|E]; [rewrite E in *; nia|].
  split; [|nia]. assert (0 ≤ (zlen line + columns - 1) / columns)%Z by (apply Z.div_pos; lia). lia.
Qed.

End Template.
