(* ===== verification/UArrays.v ===== *)
(** * Array functions of underscore.js

    Positions and counts are integers, as in the source; an argument that may be
    left out is an [option].  The set-like functions compare with [===]. *)

From stdpp Require Import base tactics list strings numbers sets gmap.
From Stdlib Require Import ZArith Sorted Permutation Lia.
From S2P Require Import Prelude.
From S2P Require Import JsString.
From S2P Require Import JsNum.
From S2P Require Import JsArray.
From S2P Require Import UCollections.

Module A.

(** ** Ends of an array *)

(** The call with a count; without one the functions return one element. *)
Definition first {T} (array : list T) (n : Z) : list T :=
  if (n <? 0)%Z then [] else slice array 0 n.
Definition first1 {T} (array : list T) : option T := array !! 0.
Definition initial {T} (array : list T) (n : option Z) : list T :=
  slice array 0 (Z.max 0 (zlen array - default 1%Z n)).
Definition last {T} (array : list T) (n : Z) : list T :=
  slice_from array (Z.max (zlen array - n) 0).
Definition last1 {T} (array : list T) : option T := array !! (length array - 1).
Definition rest {T} (array : list T) (n : option Z) : list T :=
  slice_from array (default 1%Z n).

(** ** Nested arrays *)

Inductive tree (T : Type) : Type :=
  | Leaf (v : T)
  | Arr (elements : list (tree T)).
Arguments Leaf {T} v.
Arguments Arr {T} elements.

Definition is_array {T} (t : tree T) : bool := match t with Arr _ => true | Leaf _ => false end.
Definition elements_of {T} (t : tree T) : list (tree T) :=
  match t with Arr l => l | Leaf _ => [] end.

(** [flatten(input, shallow, strict, output)]: [output] is the array it extends. *)
Fixpoint flatten_deep {T} (strict : bool) (output : list (tree T)) (t : tree T)
    : list (tree T) :=
  match t with
  | Leaf v => if strict then output else output ++ [Leaf v]
  | Arr l => foldl (flatten_deep strict) output l
  end.
Definition flatten_shallow {T} (strict : bool) (output : list (tree T)) (t : tree T)
    : list (tree T) :=
  match t with
  | Leaf v => if strict then output else output ++ [Leaf v]
  | Arr l => output ++ l
  end.
Definition flatten_into {T} (input : list (tree T)) (shallow strict : bool)
    (output : list (tree T)) : list (tree T) :=
  if shallow && forallb is_array input then output ++ (input ≫= elements_of)
  else if shallow then foldl (flatten_shallow strict) output input
  else foldl (flatten_deep strict) output input.
Definition flatten {T} (array : list (tree T)) (shallow : bool) : list (tree T) :=
  flatten_into array shallow false [].

(** Arrays of plain values as arguments, and back. *)
Definition of_array {T} (l : list T) : tree T := Arr (Leaf <$> l).
Definition leaves {T} (l : list (tree T)) : list T :=
  omap (λ t, match t with Leaf v => Some v | Arr _ => None end) l.

(** ** Arrays as sets *)

Section sets.
Context {T : Type} `{StrictEq T}.

(** [compact]: the true values, [truthy] being the conversion to a boolean. *)
Definition compact (truthy : T → bool) (array : list T) : list T :=
  match run_pure (U.filter (CArray array) (λ v _, mret (truthy v))) with
  | Ok l => l
  | Throw _ => []
  end.

(** [uniq] of an unsorted array, of a sorted one ([seen] is the previous
    element), and by a computed value. *)
Definition uniq (array : list T) : list T :=
  foldl (λ result value, if (U.indexOf result value <? 0)%Z then result ++ [value] else result)
    [] array.
Definition uniq_by {K} `{StrictEq K} (iteratee : T → K) (array : list T) : list T :=
  (foldl (λ sr value,
    let computed := iteratee value in
    if (U.indexOf sr.1 computed <? 0)%Z then (sr.1 ++ [computed], sr.2 ++ [value]) else sr)
    ([], []) array).2.
Fixpoint uniq_sorted_loop (array : list T) (seen : option T) : list T :=
  match array with
  | [] => []
  | value :: array' =>
      let new := match seen with None => true | Some s => negb (seq_eq s value) end in
      (if new then [value] else []) ++ uniq_sorted_loop array' (Some value)
  end.
Definition uniq_sorted (array : list T) : list T := uniq_sorted_loop array None.

Definition union (arrays : list (list T)) : list T :=
  uniq (leaves (flatten_into (of_array <$> arrays) true true [])).

Definition intersection (array : list T) (others : list (list T)) : list T :=
  foldl (λ result item,
    if U.contains (CArray result) item then result
    else if forallb (λ a, U.contains (CArray a) item) others then result ++ [item]
    else result) [] array.

Definition difference (array : list T) (others : list (list T)) : list T :=
  let rest := leaves (flatten_into (of_array <$> others) true true []) in
  match run_pure (U.filter (CArray array) (λ v _, mret (negb (U.contains (CArray rest) v)))) with
  | Ok l => l
  | Throw _ => []
  end.
Definition without (array : list T) (values : list T) : list T := difference array [values].

(** ** Positions *)

(** The scan from position [i] on. *)
Definition indexOf_at (array : list T) (item : T) (i : nat) : Z :=
  U.index_loop (drop i array) item i.
(** [indexOf(array, item, isSorted)] for a number, a start position. *)
Definition indexOf_start (array : list T) (item : T) (start : Z) : Z :=
  if Z.eqb start 0 then indexOf_at array item 0
  else indexOf_at array item
    (Z.to_nat (if (start <? 0)%Z then Z.max 0 (zlen array + start) else start)).
(** For [true]: the binary search; [less] is [<] on the elements. *)
Definition indexOf_sorted (less : T → T → bool) (array : list T) (item : T) : option Z :=
  match U.sortedIndex (λ v, less v item) array with
  | None => None
  | Some i =>
      Some (match array !! i with
            | Some v => if seq_eq v item then Z.of_nat i else (-1)%Z
            | None => (-1)%Z
            end)
  end.

(** The loop [while (--idx >= 0)]. *)
Fixpoint last_loop (array : list T) (item : T) (idx : nat) : Z :=
  match idx with
  | 0 => (-1)%Z
  | S k =>
      match array !! k with
      | Some v => if seq_eq v item then Z.of_nat k else last_loop array item k
      | None => last_loop array item k
      end
  end.
Definition lastIndexOf (array : list T) (item : T) (from : option Z) : Z :=
  let idx := match from with
    | None => zlen array
    | Some f => if (f <? 0)%Z then (zlen array + f + 1)%Z else Z.min (zlen array) (f + 1)
    end in
  last_loop array item (Z.to_nat idx).
End sets.

(** ** Parallel arrays *)

(** The longest array is found with [_.max(arguments, 'length')]. *)
Definition zip {T} (arrays : list (list T)) : list (list (option T)) :=
  match arrays with
  | [] => []
  | _ =>
      let length := match U.max_by (λ _, false) (CArray arrays) (λ a _, Int (zlen a)) with
                    | Some a => length a
                    | None => 0
                    end in
      (λ i, (λ a, a !! i) <$> arrays) <$> seq 0 length
  end.

(** [object] for two parallel arrays, and for an array of pairs. *)
Definition object {B} (ks : list jsstr) (values : list B) : list (jsstr * option B) :=
  foldl (λ result ik, obj_set ik.2 (values !! ik.1) result) [] (imap pair ks).
Definition object_pairs {B} (l : list (jsstr * B)) : list (jsstr * B) :=
  foldl (λ result p, obj_set p.1 p.2 result) [] l.

(** [range(start, stop, step)]: a step of 0 counts as 1; [Array(length)] throws
    when the length is not a 32-bit number. *)
Definition ceil_div (a b : Z) : Z := (- (- a / b))%Z.
Fixpoint range_loop (n : nat) (start step : Z) : list Z :=
  match n with 0 => [] | S k => start :: range_loop k (start + step)%Z step end.
Definition range (start stop step : Z) : outcome (list Z) :=
  let step := if Z.eqb step 0 then 1%Z else step in
  let length := Z.max (ceil_div (stop - start) step) 0 in
  if (length <? 2 ^ 32)%Z then Ok (range_loop (Z.to_nat length) start step) else Throw RangeError.
Definition range1 (stop : Z) : outcome (list Z) := range 0 stop 1.

Example flatten_ex :
  flatten [Leaf 1; Arr [Leaf 2; Arr [Leaf 3]]] false = [Leaf 1; Leaf 2; Leaf 3] ∧
  flatten [Leaf 1; Arr [Leaf 2; Arr [Leaf 3]]] true = [Leaf 1; Leaf 2; Arr [Leaf 3]].
Proof. split; reflexivity. Qed.
Example zip_ex : zip [[1; 2]; [3]] = [[Some 1; Some 3]; [Some 2; None]].
Proof. reflexivity. Qed.
Example range_ex : range 0 10 3 = Ok [0; 3; 6; 9]%Z ∧ range 0 (-3) (-1) = Ok [0; -1; -2]%Z.
Proof. split; reflexivity. Qed.
Example lastIndexOf_ex : lastIndexOf [1; 2; 1; 2] 2 (Some 2%Z) = 1%Z ∧ lastIndexOf [1; 2; 1] 1 (Some (-2)%Z) = 0%Z.
Proof. split; reflexivity. Qed.

(** ** Ends of an array *)

Lemma slice_0 {T} (l : list T) (n : Z) : (0 ≤ n)%Z → slice l 0 n = take (Z.to_nat n) l.
Proof.
  intros Hn. unfold slice, slice_nat, rel_index, zlen.
  rewrite (proj2 (Z.ltb_ge 0 0)), (proj2 (Z.ltb_ge n 0)) by lia.
  rewrite (Z.min_l 0) by lia. simpl. rewrite Nat.sub_0_r, drop_0.
  destruct (decide (n ≤ Z.of_nat (length l))%Z).
  - by rewrite Z.min_l by lia.
  - rewrite Z.min_r by lia. rewrite !take_ge by lia. done.
Qed.
Lemma slice_from_nonneg {T} (l : list T) (n : Z) :
  (0 ≤ n)%Z → slice_from l n = drop (Z.to_nat n) l.
Proof.
  intros Hn. unfold slice_from, rel_index, zlen. rewrite (proj2 (Z.ltb_ge n 0)) by lia.
  destruct (decide (n ≤ Z.of_nat (length l))%Z).
  - by rewrite Z.min_l by lia.
  - rewrite Z.min_r by lia. rewrite !drop_ge by lia. done.
Qed.

(** For a count that is not negative, the first [n] elements and the rest after
    [n] make the array, and so do the initial part without the last [n] and the
    last [n]. *)
Theorem ends_split {T} (array : list T) (n : Z) :
  (0 ≤ n)%Z →
  first array n ++ rest array (Some n) = array ∧
  initial array (Some n) ++ last array n = array ∧
  length (first array n) = Nat.min (Z.to_nat n) (length array) ∧
  length (last array n) = Nat.min (Z.to_nat n) (length array).
Proof.
  intros Hn. unfold first, rest, initial, last. rewrite (proj2 (Z.ltb_ge n 0)) by lia. simpl.
  rewrite !slice_0, !slice_from_nonneg by lia. rewrite take_drop. split; [done|].
  replace (Z.max 0 (zlen array - n)) with (Z.max (zlen array - n) 0) by lia.
  rewrite take_drop. split; [done|]. rewrite length_take, length_drop. unfold zlen. lia.
Qed.

Lemma ends_split_witness :
  first [1; 2; 3] 2 ++ rest [1; 2; 3] (Some 2%Z) = [1; 2; 3] ∧
  initial [1; 2; 3] (Some 2%Z) ++ last [1; 2; 3] 2 = [1; 2; 3].
Proof. destruct (ends_split [1; 2; 3] 2) as (H1 & H2 & _); [lia|exact (conj H1 H2)]. Defined.

(** ** Flattening *)

Section tree_ind.
Context {T : Type} (P : tree T → Prop).
Hypothesis HL : ∀ v, P (Leaf v).
Hypothesis HA : ∀ l, Forall P l → P (Arr l).
Fixpoint tree_nested_ind (t : tree T) : P t :=
  match t with
  | Leaf v => HL v
  | Arr l =>
      HA l ((fix go (l : list (tree T)) : Forall P l :=
               match l with
               | [] => Forall_nil_2 P
               | t' :: l' => Forall_cons_2 P t' l' (tree_nested_ind t') (go l')
               end) l)
  end.
End tree_ind.

(** The values of a nested array from left to right. *)
Fixpoint frontier {T} (t : tree T) : list T :=
  match t with Leaf v => [v] | Arr l => l ≫= frontier end.

Lemma flatten_deep_frontier {T} (output : list (tree T)) t :
  flatten_deep false output t = output ++ (Leaf <$> frontier t).
Proof.
  revert output. induction t as [v|l IH] using tree_nested_ind; intros output; [done|].
  cbn [flatten_deep frontier]. revert output.
  induction IH as [|t l Ht Hl IH]; intros output; cbn [foldl]; [by rewrite app_nil_r|].
  rewrite IH, Ht, bind_cons, fmap_app. by rewrite (assoc_L (++)).
Qed.

Lemma foldl_app_bind {X Y} (f : X → list Y) (l : list X) (output : list Y) :
  foldl (λ o x, o ++ f x) output l = output ++ (l ≫= f).
Proof.
  revert output. induction l as [|x l IH]; intros output; cbn [foldl]; [by rewrite app_nil_r|].
  by rewrite IH, bind_cons, (assoc_L (++)).
Qed.

Lemma flatten_shallow_all {T} (input : list (tree T)) output :
  flatten_into input true false output =
    output ++ (input ≫= λ t, match t with Arr l => l | Leaf v => [Leaf v] end).
Proof.
  unfold flatten_into. simpl. destruct (forallb is_array input) eqn:E.
  - f_equal. rewrite forallb_elem_of in E. induction input as [|t input IH]; [done|].
    rewrite !bind_cons. rewrite IH by (intros; apply E; by right).
    destruct t; [|done]. discriminate (E (Leaf v)). by left.
  - rewrite <- foldl_app_bind. revert output. induction input as [|t input IH]; [done|].
    intros output. clear E. cbn [foldl]. assert (Hg : ∀ l o,
      foldl (flatten_shallow false) o l =
      foldl (λ o (x : tree T), o ++ match x with Arr l => l | Leaf v => [Leaf v] end) o l).
    { induction l as [|x l IHl]; intros o; [done|]. cbn [foldl]. rewrite IHl. by destruct x. }
    rewrite Hg. by destruct t.
Qed.

(** Flattening a nested array gives its values from left to right with no array
    left; one level of flattening replaces every element that is an array by its
    elements and keeps the others, on both paths of the code. *)
Theorem flatten_spec {T} (array : list (tree T)) :
  flatten array false = Leaf <$> (array ≫= frontier) ∧
  flatten array true = (array ≫= λ t, match t with Arr l => l | Leaf v => [Leaf v] end).
Proof.
  split; [|apply (flatten_shallow_all array [])]. unfold flatten, flatten_into. simpl.
  change (foldl (flatten_deep false) [] array) with (flatten_deep false [] (Arr array)).
  by rewrite flatten_deep_frontier.
Qed.

(** The arguments of [union] and [difference]. *)
Lemma flatten_arrays {T} (arrays : list (list T)) :
  leaves (flatten_into (of_array <$> arrays) true true []) = mjoin arrays.
Proof.
  unfold flatten_into. assert (Hall : forallb is_array (of_array <$> arrays) = true).
  { by induction arrays. }
  rewrite Hall. simpl. unfold leaves. induction arrays as [|a arrays IH]; [done|].
  rewrite fmap_cons, bind_cons, omap_app, IH by (by induction arrays). simpl. f_equal.
  clear. induction a as [|v a IH]; [done|]. cbn. by f_equal.
Qed.

(** ** Set functions *)

Section set_facts.
Context {T : Type} `{StrictEqLaws T}.

(** [v] is in [l] up to [===]. *)
Definition occurs (v : T) (l : list T) : bool := existsb (λ w, seq_eq w v) l.

Lemma occurs_true v l : occurs v l = true ↔ ∃ w, w ∈ l ∧ seq_eq w v = true.
Proof. apply existsb_elem_of. Qed.
Lemma contains_occurs l v : U.contains (CArray l) v = occurs v l.
Proof. apply contains_spec. Qed.
Lemma indexOf_neg l v : (U.indexOf l v <? 0)%Z = negb (occurs v l).
Proof.
  unfold occurs. rewrite <- indexOf_pos. rewrite Z.geb_leb, Z.leb_antisym, negb_involutive. done.
Qed.
Lemma occurs_app v l l' : occurs v (l ++ l') = occurs v l || occurs v l'.
Proof. apply existsb_app. Qed.
Lemma occurs_congr v w l : seq_eq v w = true → occurs v l = occurs w l.
Proof.
  intros Hvw. unfold occurs. induction l as [|x l IH]; [done|]. simpl. f_equal; [|done].
  rewrite (seq_sym x v), (seq_sym x w). by apply seq_congr.
Qed.

(** No two elements at different positions are equal. *)
Definition distinct (l : list T) : Prop :=
  ∀ i j v w, i < j → l !! i = Some v → l !! j = Some w → seq_eq v w = false.

Lemma distinct_snoc l v : distinct l → occurs v l = false → distinct (l ++ [v]).
Proof.
  intros Hl Hv i j x y Hij Hx Hy. apply lookup_app_Some in Hy as [Hy|[Hj Hy]].
  - apply (Hl i j); [done| |done]. rewrite lookup_app_l in Hx; [done|].
    apply lookup_lt_Some in Hy. lia.
  - assert (j = length l) as -> by (apply lookup_lt_Some in Hy; simpl in Hy; lia).
    rewrite Nat.sub_diag in Hy. injection Hy as ->. rewrite lookup_app_l in Hx by done.
    unfold occurs in Hv. rewrite existsb_false in Hv. apply Hv. by eapply list_elem_of_lookup_2.
Qed.

(** What a scan that keeps the new values leaves: [keep] is a further test. *)
Lemma scan_spec (keep : T → bool) (l : list T) (acc : list T) :
  (∀ v w, seq_eq v w = true → keep v = keep w) →
  let r := foldl (λ result v, if occurs v result then result
                              else if keep v then result ++ [v] else result) acc l in
  distinct acc →
  distinct r ∧ (∀ v, occurs v r = occurs v acc || (keep v && occurs v l)) ∧
  ∃ new, r = acc ++ new ∧ new `sublist_of` l.
Proof.
  intros Hk. revert acc. induction l as [|v l IH]; intros acc; cbn [foldl].
  { intros Hd. split; [done|]. split; [intros v; by rewrite andb_false_r, orb_false_r|].
    exists []. by rewrite app_nil_r. }
  intros Hd. set (acc' := if occurs v acc then acc else if keep v then acc ++ [v] else acc).
  assert (Hd' : distinct acc').
  { unfold acc'. destruct (occurs v acc) eqn:E; [done|]. destruct (keep v); [|done].
    by apply distinct_snoc. }
  destruct (IH acc' Hd') as (H1 & H2 & new & H3 & H4). split; [done|]. split.
  - intros w. rewrite H2. cbn [occurs existsb]. fold (occurs w l).
    destruct (seq_eq v w) eqn:Evw.
    + rewrite <- (occurs_congr v w acc Evw), <- (occurs_congr v w acc' Evw),
        <- (occurs_congr v w l Evw), <- (Hk v w Evw).
      unfold acc'. destruct (occurs v acc) eqn:E; [by rewrite E|].
      destruct (keep v) eqn:Ek; [|by rewrite E].
      rewrite occurs_app, E. cbn [occurs existsb orb andb].
      by rewrite (seq_refl_l v w Evw).
    + unfold acc'. destruct (occurs v acc) eqn:E; [done|]. destruct (keep v); [|done].
      rewrite occurs_app. cbn [occurs existsb]. by rewrite Evw, !orb_false_r.
  - fold acc'. rewrite H3. unfold acc'. destruct (occurs v acc).
    { exists new. split; [done|]. by apply sublist_cons. }
    destruct (keep v); [|exists new; split; [done|by apply sublist_cons]].
    exists (v :: new). rewrite <- (assoc_L (++)). split; [done|]. by apply sublist_skip.
Qed.

Lemma foldl_ext_acc {X Y} (f g : X → Y → X) (l : list Y) (x : X) :
  (∀ a b, f a b = g a b) → foldl f x l = foldl g x l.
Proof.
  intros Hfg. revert x. induction l as [|y l IH]; intros x; [done|]. cbn [foldl].
  by rewrite Hfg, IH.
Qed.

Lemma uniq_scan (array : list T) :
  uniq array = foldl (λ result v, if occurs v result then result
    else if true then result ++ [v] else result) [] array.
Proof. apply foldl_ext_acc. intros a b. rewrite indexOf_neg. by destruct (occurs b a). Qed.

Lemma distinct_nil : distinct [].
Proof. intros i j v w _ Hv. by rewrite lookup_nil in Hv. Qed.

Lemma difference_filter (array : list T) others :
  difference array others =
    base.filter (λ v, Is_true (negb (occurs v (mjoin others)))) array.
Proof.
  unfold difference. rewrite flatten_arrays. unfold run_pure. rewrite filter_pure. cbn [fst].
  transitivity (base.filter (λ v, Is_true (negb (U.contains (CArray (mjoin others)) v)))
    (U.entries (CArray array)).*1); [by rewrite list_filter_fmap|].
  rewrite values_entries. cbn [U.values].
  apply list_filter_iff. intros v. by rewrite contains_occurs.
Qed.
End set_facts.

(** [_.uniq] keeps, in order, elements of the array no two of which are
    strictly equal, and loses none: a value occurs in the result exactly when it
    occurs in the array; [_.union] does this to the arrays joined. *)
Theorem uniq_union_spec {T} `{StrictEqLaws T} (array : list T) (arrays : list (list T)) :
  distinct (uniq array) ∧ uniq array `sublist_of` array ∧
  (∀ v, occurs v (uniq array) = occurs v array) ∧
  union arrays = uniq (mjoin arrays).
Proof.
  rewrite uniq_scan. destruct (scan_spec (λ _, true) array []) as (H1 & H2 & new & H3 & H4);
    [done|apply distinct_nil|].
  split; [done|]. split; [by rewrite H3|]. split; [intros v; by rewrite H2|].
  unfold union. by rewrite flatten_arrays.
Qed.

(** [_.difference] is the array without the values that occur in the others;
    [_.intersection] keeps, without repetition, the values of the array that occur
    in all the others. *)
Theorem difference_intersection_spec {T} `{StrictEqLaws T} (array : list T) (others : list (list T)) :
  difference array others =
    base.filter (λ v, Is_true (negb (existsb (occurs v) others))) array ∧
  distinct (intersection array others) ∧
  ∀ v, occurs v (intersection array others) = occurs v array && forallb (occurs v) others.
Proof.
  split.
  { rewrite difference_filter. apply list_filter_iff. intros v. f_equiv. f_equal.
    induction others as [|o others IH]; [done|]. simpl. by rewrite occurs_app, IH. }
  assert (Hs : intersection array others = foldl (λ result v, if occurs v result then result
    else if forallb (occurs v) others then result ++ [v] else result) [] array).
  { apply foldl_ext_acc. intros a b. rewrite contains_occurs. destruct (occurs b a); [done|].
    assert (Hf : forallb (λ a0 : list T, U.contains (CArray a0) b) others = forallb (occurs b) others).
    { induction others as [|o others IH]; [done|]. cbn [forallb]. by rewrite contains_occurs, IH. }
    by rewrite Hf. }
  rewrite Hs. destruct (scan_spec (λ v, forallb (occurs v) others) array []) as (H1 & H2 & _);
    [|apply distinct_nil|].
  - intros v w Hvw. clear Hs. induction others as [|o others IH]; [done|]. cbn [forallb].
    by rewrite (occurs_congr v w o Hvw), IH.
  - split; [done|]. intros v. rewrite H2. apply andb_comm.
Qed.

Lemma uniq_union_spec_witness :
  distinct (uniq [Int 1; NegZero; Int 0; Int 1]) ∧
  uniq [Int 1; NegZero; Int 0; Int 1] = [Int 1; NegZero].
Proof.
  split; [|reflexivity].
  apply (uniq_union_spec [Int 1; NegZero; Int 0; Int 1] []).
Defined.

Lemma difference_intersection_spec_witness :
  distinct (intersection [3; 1; 3; 2] [[3; 2]; [2; 3; 5]]) ∧
  intersection [3; 1; 3; 2] [[3; 2]; [2; 3; 5]] = [3; 2].
Proof.
  split; [|reflexivity].
  apply (difference_intersection_spec [3; 1; 3; 2] [[3; 2]; [2; 3; 5]]).
Defined.

(** ** Sorted arrays of numbers *)

(** Sorted for [<], without [NaN]. *)
Definition sorted_nums (l : list num) : Prop :=
  Forall (λ n, n ≠ NaN) l ∧ StronglySorted (λ a b, num_lt b a = false) l.

Lemma StronglySorted_lookup {T} (R : relation T) (l : list T) i j v w :
  StronglySorted R l → i < j → l !! i = Some v → l !! j = Some w → R v w.
Proof.
  intros Hs. revert i j. induction Hs as [|x l Hl IH Hx]; intros i j Hij Hv Hw; [done|].
  destruct j as [|j]; [lia|]. simpl in Hw. destruct i as [|i]; simpl in Hv.
  - injection Hv as ->. rewrite Forall_forall in Hx. apply Hx. by eapply list_elem_of_lookup_2.
  - apply (IH i j); [lia|done|done].
Qed.

Lemma num_seq_lt a b : num_seq a b = true → num_lt a b = false.
Proof. destruct a, b; simpl; try done; rewrite ?Z.eqb_eq, ?Z.ltb_ge; lia. Qed.

Lemma indexOf_first (l : list num) item i v :
  l !! i = Some v → seq_eq v item = true → (∀ k w, k < i → l !! k = Some w → seq_eq w item = false) →
  U.indexOf l item = Z.of_nat i.
Proof.
  intros Hv Hs Hk. destruct (indexOf_dec l item) as [Hn|(j & Hj & Hf)].
  - rewrite indexOf_none in Hn. rewrite (Hn v) in Hs; [done|]. by eapply list_elem_of_lookup_2.
  - rewrite Hf. f_equal. apply indexOf_found in Hf as [(w & Hw & Hws) Hlt].
    destruct (lt_eq_lt_dec j i) as [[Hji|]|Hij]; [|done|].
    + by rewrite (Hk j w) in Hws.
    + by rewrite (Hlt i v) in Hs.
Qed.

(** On a sorted array of fewer than 2^31 numbers the binary search that
    [_.indexOf] makes when it is told so returns what the scan returns. *)
Theorem indexOf_sorted_agrees (array : list num) (item : num) :
  sorted_nums array → item ≠ NaN → length array < 2 ^ 31 →
  indexOf_sorted num_lt array item = Some (U.indexOf array item).
Proof.
  intros [Hn Hs] Hitem H31. rewrite Forall_forall in Hn. unfold indexOf_sorted.
  assert (Hin : ∀ i v, array !! i = Some v → v ≠ NaN).
  { intros i v Hv. apply Hn. by eapply list_elem_of_lookup_2. }
  destruct (sortedIndex_loop_spec (λ v, num_lt v item) array) with (fuel := S (length array))
    (low := 0) (high := length array) as (i & Hi & Hle & Hlow & Hhigh);
    [|lia|done|done|lia|lia| |].
  { intros i j v w Hij Hv Hw Hlt. destruct (decide (i = j)) as [->|]; [congruence|].
    pose proof (StronglySorted_lookup _ array i j v w Hs ltac:(lia) Hv Hw) as Hvw.
    pose proof (Hin i v Hv). pose proof (Hin j w Hw).
    clear -Hvw Hlt Hitem H H0. destruct v, w, item; simpl in *; try done;
      rewrite ?Z.ltb_lt, ?Z.ltb_ge in *; lia. }
  { intros j v Hj Hv. apply lookup_lt_Some in Hv. lia. }
  unfold U.sortedIndex. rewrite Hi. f_equal.
  assert (Hbefore : ∀ k w, k < i → array !! k = Some w → seq_eq w item = false).
  { intros k w Hk Hw. specialize (Hlow k w Hk Hw). destruct (seq_eq w item) eqn:E; [|done].
    by rewrite (num_seq_lt w item) in Hlow. }
  destruct (array !! i) as [v|] eqn:Ev.
  - destruct (seq_eq v item) eqn:E; [symmetry; by apply (indexOf_first array item i v)|].
    symmetry. apply indexOf_none. intros w (k & Hk)%list_elem_of_lookup_1.
    destruct (decide (k < i)); [by apply (Hbefore k)|]. destruct (decide (k = i)) as [->|];
      [congruence|].
    destruct (seq_eq w item) eqn:Ew; [|done].
    pose proof (StronglySorted_lookup _ array i k v w Hs ltac:(lia) Ev Hk) as H. simpl in H.
    specialize (Hhigh i v ltac:(lia) Ev).
    assert (num_lt item v = false).
    { clear -H Ew. unfold seq_eq, num_StrictEq in Ew. destruct v, w, item; simpl in *; try done;
        rewrite ?Z.eqb_eq, ?Z.ltb_ge in *; lia. }
    assert (Hse : num_seq v item = true) by (apply num_lt_total; eauto).
    unfold seq_eq, num_StrictEq in E. congruence.
  - symmetry. apply indexOf_none. intros w (k & Hk)%list_elem_of_lookup_1.
    apply (Hbefore k); [|done]. apply lookup_ge_None in Ev. apply lookup_lt_Some in Hk. lia.
Qed.

Lemma indexOf_sorted_agrees_witness :
  indexOf_sorted num_lt [Int 1; Int 4; Int 4; Int 9] (Int 4) = Some 1%Z.
Proof.
  apply (indexOf_sorted_agrees [Int 1; Int 4; Int 4; Int 9] (Int 4)).
  - split; [by repeat constructor|by repeat constructor].
  - discriminate.
  - simpl length. apply Nat.lt_trans with (2 ^ 3); [cbn; lia|]. apply Nat.pow_lt_mono_r; lia.
Defined.

(** On a sorted array of numbers the fast path of [_.uniq], which compares
    neighbours only, gives the result of the general one. *)
Theorem uniq_sorted_agrees (array : list num) :
  sorted_nums array → uniq_sorted array = uniq array.
Proof.
  intros [Hn Hs]. unfold uniq_sorted, uniq.
  (* [seen] is the last element read, and the largest one kept *)
  assert (Hg : ∀ (l acc : list num) (seen : option num),
    Forall (λ n, n ≠ NaN) l → StronglySorted (λ a b, num_lt b a = false) l →
    match seen with
    | None => acc = []
    | Some s => s ≠ NaN ∧ (∃ w, w ∈ acc ∧ seq_eq w s = true) ∧
        (∀ w, w ∈ acc → num_lt s w = false ∧ w ≠ NaN) ∧ ∀ v, v ∈ l → num_lt v s = false
    end →
    foldl (λ result value, if (U.indexOf result value <? 0)%Z then result ++ [value] else result)
      acc l = acc ++ uniq_sorted_loop l seen); [|symmetry; by apply (Hg array [] None)].
  clear. induction l as [|v l IH]; intros acc seen Hn Hs Hseen; cbn [foldl uniq_sorted_loop];
    [by rewrite app_nil_r|].
  apply Forall_cons in Hn as [Hv Hn]. apply StronglySorted_inv in Hs as [Hs Hvl].
  rewrite Forall_forall in Hvl. rewrite indexOf_neg.
  assert (Hocc : occurs v acc = match seen with None => false | Some s => seq_eq s v end).
  { destruct seen as [s|]; [|by subst acc]. destruct Hseen as (Hsn & (w0 & Hw0 & Hse) & Hmax & Hmin).
    destruct (seq_eq s v) eqn:Esv.
    - apply occurs_true. exists w0. split; [done|]. by apply (seq_trans w0 s v).
    - apply existsb_false. intros w Hw. destruct (seq_eq w v) eqn:Ewv; [|done].
      destruct (Hmax w Hw) as [Hsw Hwn]. rewrite <- Esv. symmetry.
      assert (num_lt s v = false).
      { clear -Hsw Ewv. unfold seq_eq, num_StrictEq in Ewv. destruct s, v, w; simpl in *; try done;
          rewrite ?Z.eqb_eq, ?Z.ltb_ge in *; lia. }
      apply num_lt_total; [done|done|done|]. apply Hmin. by left. }
  rewrite Hocc. set (b := match seen with None => false | Some s => seq_eq s v end) in *.
  replace (match seen with None => true | Some s => negb (seq_eq s v) end) with (negb b)
    by (unfold b; by destruct seen).
  assert (Hvv : seq_eq v v = true) by (unfold seq_eq, num_StrictEq; clear -Hv; destruct v; simpl;
    rewrite ?Z.eqb_refl; done).
  rewrite (IH (if negb b then acc ++ [v] else acc) (Some v)); [|done|done|].
  { destruct b; simpl; [done|]. by rewrite <- (assoc_L (++)). }
  split; [done|]. destruct b eqn:Eb; simpl.
  - apply occurs_true in Hocc as (w & Hw & Hws). split; [by exists w|]. split; [|done].
    destruct seen as [s|]; [|done]. destruct Hseen as (Hsn & _ & Hmax & Hmin).
    intros x Hx. destruct (Hmax x Hx) as [H1 H2]. split; [|done].
    clear -H1 Eb. subst b. unfold seq_eq, num_StrictEq in Eb. destruct s, v, x; simpl in *; try done;
      rewrite ?Z.eqb_eq, ?Z.ltb_ge in *; lia.
  - split; [exists v; split; [apply elem_of_app; right; by left|done]|]. split; [|done].
    intros x [Hx|Hx%list_elem_of_singleton]%elem_of_app.
    + destruct seen as [s|]; [|subst acc; by apply elem_of_nil in Hx]. destruct Hseen as (Hsn & _ & Hmax & Hmin).
      destruct (Hmax x Hx) as [H1 H2]. split; [|done].
      apply (num_le_trans x s v); [done|done| |done|done]. apply Hmin. by left.
    + subst x. split; [apply num_lt_irrefl|done].
Qed.

Lemma uniq_sorted_agrees_witness :
  uniq_sorted [Int 1; Int 1; Int 2] = uniq [Int 1; Int 1; Int 2].
Proof. apply uniq_sorted_agrees. split; by repeat constructor. Defined.

(** ** Positions from the end, progressions, objects *)

(** Where the scan of [lastIndexOf] starts. *)
Definition last_bound {T} (array : list T) (from : option Z) : Z :=
  match from with
  | None => zlen array
  | Some f => if (f <? 0)%Z then (zlen array + f + 1)%Z else Z.min (zlen array) (f + 1)
  end.

Lemma last_loop_spec {T} `{StrictEq T} (array : list T) item n :
  n ≤ length array →
  (last_loop array item n = (-1)%Z ∧
    ∀ k v, k < n → array !! k = Some v → seq_eq v item = false) ∨
  (∃ j v, last_loop array item n = Z.of_nat j ∧ j < n ∧ array !! j = Some v ∧ seq_eq v item = true ∧
    ∀ k w, j < k < n → array !! k = Some w → seq_eq w item = false).
Proof.
  induction n as [|n IH]; intros Hn; simpl; [left; split; [done|lia]|].
  destruct (lookup_lt_is_Some_2 array n) as [v Hv]; [lia|]. rewrite Hv.
  destruct (seq_eq v item) eqn:E.
  - right. exists n, v. split_and!; [done|lia|done|done|lia].
  - destruct IH as [[H1 H2]|(j & w & H1 & H2 & H3 & H4 & H5)]; [lia|left|right].
    + split; [done|]. intros k x Hk Hx. destruct (decide (k = n)) as [->|]; [congruence|].
      apply (H2 k); [lia|done].
    + exists j, w. split_and!; [done|lia|done|done|]. intros k x Hk Hx.
      destruct (decide (k = n)) as [->|]; [congruence|]. apply (H5 k); [lia|done].
Qed.

(** [_.lastIndexOf] returns the last position before the bound that its [from]
    argument sets whose element is strictly equal to the item, and -1 when there is
    none. *)
Theorem lastIndexOf_spec {T} `{StrictEq T} (array : list T) (item : T) (from : option Z) :
  let bound := Z.to_nat (last_bound array from) in
  (lastIndexOf array item from = (-1)%Z ∧
    ∀ k v, k < bound → array !! k = Some v → seq_eq v item = false) ∨
  (∃ j v, lastIndexOf array item from = Z.of_nat j ∧ j < bound ∧ array !! j = Some v ∧
    seq_eq v item = true ∧ ∀ k w, j < k < bound → array !! k = Some w → seq_eq w item = false).
Proof.
  apply (last_loop_spec array item). unfold last_bound, zlen.
  destruct from as [f|]; [|lia]. destruct (Z.ltb_spec f 0); lia.
Qed.

Lemma range_loop_lookup n start step i :
  range_loop n start step !! i = if decide (i < n) then Some (start + Z.of_nat i * step)%Z else None.
Proof.
  revert start i. induction n as [|n IH]; intros start i; cbn [range_loop].
  { rewrite lookup_nil, decide_False by lia. done. }
  destruct i as [|i].
  - rewrite decide_True by lia. simpl. f_equal. lia.
  - change (range_loop n (start + step) step !! i = if decide (S i < S n)
      then Some (start + Z.of_nat (S i) * step)%Z else None). rewrite IH. destruct (decide (i < n)); [rewrite decide_True by lia; f_equal; lia|].
    by rewrite decide_False by lia.
Qed.

Lemma ceil_div_lt a b (i : Z) :
  b ≠ 0%Z → (i < ceil_div a b)%Z ↔ if (0 <? b)%Z then (i * b < a)%Z else (a < i * b)%Z.
Proof.
  intros Hb. unfold ceil_div. pose proof (Z.div_mod (- a) b Hb) as Hd.
  destruct (Z.ltb_spec 0 b) as [Hp|Hp].
  - pose proof (Z.mod_pos_bound (- a) b Hp). split; intros; nia.
  - pose proof (Z.mod_neg_bound (- a) b ltac:(lia)). split; intros; nia.
Qed.

(** [_.range] returns the terms of the arithmetic progression that lie before
    the end, all of them and in order, for steps of both signs; it throws only when
    the length is no 32-bit number. *)
Theorem range_spec (start stop step : Z) :
  let d := if Z.eqb step 0 then 1%Z else step in
  match range start stop step with
  | Ok l =>
      ∀ i : nat, l !! i =
        if (if 0 <? d then start + Z.of_nat i * d <? stop else stop <? start + Z.of_nat i * d)%Z
        then Some (start + Z.of_nat i * d)%Z else None
  | Throw e => e = RangeError ∧ (2 ^ 32 ≤ ceil_div (stop - start) d)%Z
  end.
Proof.
  unfold range. set (d := if Z.eqb step 0 then 1%Z else step).
  assert (Hd : d ≠ 0%Z) by (unfold d; destruct (Z.eqb_spec step 0); lia).
  destruct (Z.ltb_spec (Z.max (ceil_div (stop - start) d) 0) (2 ^ 32)) as [Hl|Hl]; [|split; [done|]].
  - intros i. rewrite range_loop_lookup.
    pose proof (ceil_div_lt (stop - start) d (Z.of_nat i) Hd) as Hc.
    assert (Hi : i < Z.to_nat (Z.max (ceil_div (stop - start) d) 0) ↔
      (Z.of_nat i < ceil_div (stop - start) d)%Z) by lia.
    destruct (0 <? d)%Z.
    + destruct (Z.ltb_spec (start + Z.of_nat i * d) stop).
      * by rewrite decide_True by (apply Hi, Hc; lia).
      * rewrite decide_False; [done|]. rewrite Hi, Hc. lia.
    + destruct (Z.ltb_spec stop (start + Z.of_nat i * d)).
      * by rewrite decide_True by (apply Hi, Hc; lia).
      * rewrite decide_False; [done|]. rewrite Hi, Hc. lia.
  - assert (0 < 2 ^ 32)%Z by lia. lia.
Qed.

(** Building an object from pairs keeps one property per name, the value being
    that of the last pair with this name. *)
Theorem object_last_wins {B} (l : list (jsstr * B)) (k : jsstr) :
  obj_wf (object_pairs l) ∧
  obj_get k (object_pairs l) = snd <$> list.last (base.filter (λ p, p.1 = k) l).
Proof.
  unfold object_pairs. induction l as [|[k' v] l IH] using rev_ind.
  { split; [constructor|done]. }
  rewrite foldl_app. destruct IH as [IH1 IH2]. split; [by apply obj_set_wf|]. simpl.
  rewrite obj_get_set, IH2, filter_app, filter_cons, filter_nil. simpl.
  destruct (decide (k = k')) as [->|].
  - rewrite decide_True by done. by rewrite last_app.
  - rewrite decide_False by done. by rewrite app_nil_r.
Qed.

End A.
