(* ===== verification/UFunctions.v ===== *)
(** * Function wrappers of underscore.js

    [throttle], [debounce], [after], [before] and [memoize] return functions with
    closure variables: each is a record of these variables and one step per call
    or timer.  Times are milliseconds; the wrapped function is seen through the
    log of its calls and does not call the wrapper itself. *)

From stdpp Require Import base tactics list strings numbers sets gmap.
From Stdlib Require Import ZArith Sorted Permutation Lia.
From S2P Require Import Prelude.
From S2P Require Import JsString.
From S2P Require Import JsNum.
From S2P Require Import JsArray.

Module F.

(** ** Throttle *)

Section throttle.
Context {Arg : Type}.
Variable wait : Z.
Variables leading trailing : bool.   (* [options.x !== false] *)

Record tstate := TState {
  previous : Z;
  t_timeout : option Z;              (* when the pending timer is due *)
  t_args : option Arg;
  t_log : list (Z * option Arg);     (* the calls of [func] *)
}.
Definition throttle : tstate := TState 0 None None [].

(** The function returned, called at time [now] with [a]. *)
Definition throttled (now : Z) (a : Arg) (s : tstate) : tstate :=
  let previous := if Z.eqb (previous s) 0 && negb leading then now else previous s in
  let remaining := (wait - (now - previous))%Z in
  if (remaining <=? 0)%Z || (remaining >? wait)%Z then
    TState now None None (t_log s ++ [(now, Some a)])
  else
    match t_timeout s with
    | None =>
        if trailing then TState previous (Some (now + remaining)%Z) (Some a) (t_log s)
        else TState previous None (Some a) (t_log s)
    | Some due => TState previous (Some due) (Some a) (t_log s)
    end.
(** The timer. *)
Definition t_later (now : Z) (s : tstate) : tstate :=
  TState (if leading then now else 0) None None (t_log s ++ [(now, t_args s)]).

(** Events in time: the clock does not go back, a timer does not fire early. *)
Inductive tstep : Z * tstate * list Arg → Z * tstate * list Arg → Prop :=
  | t_call clock s calls now a :
      (clock ≤ now)%Z → tstep (clock, s, calls) (now, throttled now a s, calls ++ [a])
  | t_fire clock s calls now due :
      (clock ≤ now)%Z → t_timeout s = Some due → (due ≤ now)%Z →
      tstep (clock, s, calls) (now, t_later now s, calls).
End throttle.
Arguments tstate : clear implicits.

(** ** Debounce *)

Section debounce.
Context {Arg : Type}.
Variable wait : Z.
Variable immediate : bool.

Record dstate := DState {
  d_timeout : option Z;
  d_args : option Arg;
  timestamp : Z;
  d_log : list (Z * option Arg);
}.
Definition debounce : dstate := DState None None 0 [].

Definition debounced (now : Z) (a : Arg) (s : dstate) : dstate :=
  let callNow := immediate && match d_timeout s with None => true | Some _ => false end in
  let timeout := match d_timeout s with None => Some (now + wait)%Z | t => t end in
  if callNow then DState timeout None now (d_log s ++ [(now, Some a)])
  else DState timeout (Some a) now (d_log s).
Definition d_later (now : Z) (s : dstate) : dstate :=
  let last := (now - timestamp s)%Z in
  if (last <? wait)%Z && (last >? 0)%Z then
    DState (Some (now + (wait - last))%Z) (d_args s) (timestamp s) (d_log s)
  else if immediate then DState None (d_args s) (timestamp s) (d_log s)
  else DState None None (timestamp s) (d_log s ++ [(now, d_args s)]).

Inductive dstep : Z * dstate * list (Z * Arg) → Z * dstate * list (Z * Arg) → Prop :=
  | d_call clock s calls now a :
      (clock ≤ now)%Z → dstep (clock, s, calls) (now, debounced now a s, calls ++ [(now, a)])
  | d_fire clock s calls now due :
      (clock ≤ now)%Z → d_timeout s = Some due → (due ≤ now)%Z →
      dstep (clock, s, calls) (now, d_later now s, calls).
End debounce.
Arguments dstate : clear implicits.

(** ** Counted calls *)

(** One call of [after(times, func)]: the new count and whether [func] runs. *)
Definition after (times : Z) : Z * bool := ((times - 1)%Z, (times - 1 <? 1)%Z).

(** [before(times, func)]: the count and [memo]. *)
Definition before {S A B} (func : A → M S B) (a : A) : M (S * (Z * option B)) (option B) :=
  λ '(s, (times, memo)),
    let times' := (times - 1)%Z in
    if (times' >? 0)%Z then
      match func a s with
      | (Ok b, s') => (Ok (Some b), (s', (times', Some b)))
      | (Throw e, s') => (Throw e, (s', (times', memo)))
      end
    else (Ok memo, (s, (times', memo))).
Definition once_times : Z := 2.

(** [memoize(func, hasher)]: the cache is an object of own properties. *)
Definition memoize {S A B} (func : A → M S B) (hasher : A → jsstr) (a : A)
    : M (S * list (jsstr * B)) B :=
  λ '(s, cache),
    match obj_get (hasher a) cache with
    | Some b => (Ok b, (s, cache))
    | None =>
        match func a s with
        | (Ok b, s') => (Ok b, (s', obj_set (hasher a) b cache))
        | (Throw e, s') => (Throw e, (s', cache))
        end
    end.

(** ** Arguments and composition *)

(** [partial]: [None] is the placeholder; a missing argument is [undefined]. *)
Fixpoint fill {A} (bound : list (option A)) (args : list A) : list (option A) * list A :=
  match bound with
  | [] => ([], args)
  | Some a :: bound' => let '(l, r) := fill bound' args in (Some a :: l, r)
  | None :: bound' => let '(l, r) := fill bound' (tail args) in (head args :: l, r)
  end.
Definition partial {A} (boundArgs : list (option A)) (args : list A) : list (option A) :=
  let '(l, r) := fill boundArgs args in l ++ (Some <$> r).

(** [compose]: the last function takes the arguments, the others its result. *)
Definition compose {A} (fs : list (A → A)) (last : A → A) (a : A) : A :=
  foldr (λ f r, f r) (last a) fs.
(** [wrap(func, wrapper)] is [partial(wrapper, func)]. *)
Definition wrap {A} (func : A) (args : list A) : list (option A) := partial [Some func] args.
(** [times(n, iteratee)]: [Array(Math.max(0, n))], filled in order. *)
Fixpoint times_loop {S A} (iteratee : nat → M S A) (i n : nat) : M S (list A) :=
  match n with
  | 0 => mret []
  | Datatypes.S k => iteratee i ≫= λ v, times_loop iteratee (Datatypes.S i) k ≫= λ vs, mret (v :: vs)
  end.
Definition times {S A} (n : Z) (iteratee : nat → M S A) : M S (list A) :=
  times_loop iteratee 0 (Z.to_nat (Z.max 0 n)).
(** [uniqueId]: the counter and the identifier. *)
Definition uniqueId (digits : Z → jsstr) (prefix : jsstr) : M Z jsstr := λ idCounter,
  let id := (idCounter + 1)%Z in (Ok (prefix ++ digits id), id).

(** ** The rate of a throttled function *)

(** Consecutive calls are at least [wait] apart. *)
Definition spaced {X} (wait : Z) (l : list (Z * X)) : Prop :=
  ∀ i x y, l !! i = Some x → l !! S i = Some y → (x.1 + wait ≤ y.1)%Z.

Lemma spaced_snoc {X} wait (l : list (Z * X)) t a :
  spaced wait l → (∀ x, last l = Some x → (x.1 + wait ≤ t)%Z) → spaced wait (l ++ [(t, a)]).
Proof.
  intros Hl Ht i x y Hx Hy. apply lookup_app_Some in Hy as [Hy|[Hi Hy]].
  - apply (Hl i); [|done]. rewrite lookup_app_l in Hx; [done|]. apply lookup_lt_Some in Hy. lia.
  - assert (E : S i = length l) by (apply lookup_lt_Some in Hy; simpl in Hy; lia).
    rewrite E, Nat.sub_diag in Hy. injection Hy as <-. simpl. apply Ht.
    rewrite last_lookup, <- E. simpl. rewrite lookup_app_l in Hx; [done|lia].
Qed.

Section throttle_facts.
Context {Arg : Type}.
Variable wait : Z.
Variables leading trailing : bool.

Record tinv (clock : Z) (s : tstate Arg) (calls : list Arg) : Prop := TInv {
  ti_clock : (0 < clock)%Z;
  ti_spaced : spaced wait (t_log s);
  ti_last : ∀ x, last (t_log s) = Some x → (x.1 ≤ clock)%Z ∧
    (previous s ≠ 0%Z → (x.1 ≤ previous s)%Z);
  ti_zero : previous s = 0%Z → if leading then t_log s = [] else t_timeout s = None;
  ti_previous : (0 ≤ previous s ≤ clock)%Z;
  ti_timeout : ∀ due, t_timeout s = Some due →
    due = (previous s + wait)%Z ∧ t_args s = last calls;
  ti_done : trailing = true → t_timeout s = None → calls ≠ [] →
    ∃ t, last (t_log s) = Some (t, last calls);
}.

Lemma throttled_inv clock s calls now a :
  (clock ≤ now)%Z → tinv clock s calls →
  tinv now (throttled wait leading trailing now a s) (calls ++ [a]).
Proof.
  intros Hnow [H0 H1 H2 Hz H3 H4 H5]. unfold throttled.
  set (p := if Z.eqb (previous s) 0 && negb leading then now else previous s).
  assert (Hp : (0 ≤ p ≤ now)%Z) by (unfold p; destruct (_ && _); lia).
  assert (Hp0 : p = 0%Z → leading = true ∧ previous s = 0%Z).
  { unfold p. destruct (Z.eqb_spec (previous s) 0), leading; simpl; intros; split; lia || done. }
  assert (Hlast : ∀ x, last (t_log s) = Some x → (x.1 ≤ p)%Z).
  { intros x Hx. destruct (H2 x Hx) as (A1 & A2). unfold p.
    destruct (Z.eqb_spec (previous s) 0) as [E|E]; simpl; [|by apply A2].
    specialize (Hz E). destruct leading; simpl; [by rewrite Hz in Hx|lia]. }
  destruct ((wait - (now - p) <=? 0)%Z || (wait - (now - p) >? wait)%Z) eqn:Ex.
  - assert (Hge : (p + wait ≤ now)%Z).
    { apply orb_true_iff in Ex as [Ex%Z.leb_le|Ex%Z.gtb_lt]; lia. }
    split; simpl; try lia.
    + apply spaced_snoc; [done|]. intros x Hx. specialize (Hlast x Hx). lia.
    + intros x. rewrite last_snoc. intros [= <-]. simpl. lia.
    + done.
    + intros _ _ _. exists now. by rewrite !last_snoc.
  - apply orb_false_iff in Ex as [Ex%Z.leb_gt _].
    assert (Hl : ∀ x, last (t_log s) = Some x → (x.1 ≤ now)%Z ∧ (p ≠ 0%Z → (x.1 ≤ p)%Z)).
    { intros x Hx. specialize (Hlast x Hx). destruct (H2 x Hx). lia. }
    assert (Hzero : ∀ t, t_timeout s = None ∨ t = t_timeout s →
      p = 0%Z → if leading then t_log s = [] else t = None).
    { intros t _ E. destruct (Hp0 E) as [Hlead E']. specialize (Hz E'). by rewrite Hlead in *. }
    destruct (t_timeout s) as [due|] eqn:Et.
    + assert (Hpp : p = previous s).
      { unfold p. destruct (Z.eqb_spec (previous s) 0) as [E|E]; [|done].
        specialize (Hz E). by destruct leading. }
      destruct (H4 due eq_refl) as [-> Hargs]. split; simpl; try done.
      * lia.
      * by apply Hzero; right.
      * intros due [= <-]. by rewrite last_snoc, Hpp.
    + destruct trailing eqn:Etr; split; simpl; try done; try lia.
      * by apply Hzero; left.
      * intros due [= <-]. rewrite last_snoc. split; [lia|done].
      * by apply Hzero; left.
      * intros E. congruence.
Qed.

Lemma t_later_inv clock s calls now due :
  (clock ≤ now)%Z → t_timeout s = Some due → (due ≤ now)%Z → tinv clock s calls →
  tinv now (t_later leading now s) calls.
Proof.
  intros Hnow Ht Hdue [H0 H1 H2 Hz H3 H4 H5]. destruct (H4 due Ht) as [-> Hargs].
  assert (Hgap : ∀ x, last (t_log s) = Some x → (x.1 + wait ≤ now)%Z).
  { intros x Hx. destruct (H2 x Hx) as [A1 A2]. destruct (decide (previous s = 0%Z)) as [E|E].
    - specialize (Hz E). destruct leading; [by rewrite Hz in Hx|congruence].
    - specialize (A2 E). lia. }
  unfold t_later. split; simpl; try lia.
  - by apply spaced_snoc.
  - intros x. rewrite last_snoc. intros [= <-]. simpl. destruct leading; lia.
  - destruct leading; [lia|done].
  - destruct leading; lia.
  - done.
  - intros _ _ Hc. exists now. by rewrite last_snoc, Hargs.
Qed.

Lemma tinv_steps x y :
  rtc (tstep wait leading trailing) x y →
  tinv x.1.1 x.1.2 x.2 → tinv y.1.1 y.1.2 y.2.
Proof.
  induction 1 as [|x y z Hs _ IH]; [done|]. intros Hx. apply IH. clear IH.
  destruct Hs; simpl in *; [by eapply throttled_inv|by eapply (t_later_inv clock)].
Qed.
End throttle_facts.

(** C35: however often a throttled function is called, the calls of the wrapped
    function are at least [wait] milliseconds apart; and when trailing calls are
    not disabled and no timer is pending, the last of them had the arguments of
    the last call, so no final call is lost. *)
Theorem throttle_spec {Arg} (wait : Z) (leading trailing : bool) (clock now : Z)
    (s : tstate Arg) (calls : list Arg) :
  (0 < clock)%Z →
  rtc (tstep wait leading trailing) (clock, throttle, []) (now, s, calls) →
  spaced wait (t_log s) ∧
  (trailing = true → t_timeout s = None → calls ≠ [] →
    ∃ t, last (t_log s) = Some (t, last calls)).
Proof.
  intros Hc Hr. apply tinv_steps in Hr; [by destruct Hr|].
  split; simpl; try done; try lia; by destruct leading.
Qed.

Lemma throttle_spec_witness :
  ∃ s, rtc (tstep 10 true true) (100%Z, throttle, []) (110%Z, s, [1; 2]) ∧
    spaced 10 (t_log s) ∧ t_log s = [(100%Z, Some 1); (110%Z, Some 2)].
Proof.
  exists (t_later true 110 (throttled 10 true true 104 2 (throttled 10 true true 100 1 throttle))).
  assert (Hr : rtc (tstep 10 true true) (100%Z, throttle, []) (110%Z, t_later true 110
    (throttled 10 true true 104 2 (throttled 10 true true 100 1 throttle)), [1; 2])).
  { eapply rtc_l; [apply (t_call 10 true true 100 throttle [] 100 1); lia|].
    eapply rtc_l; [apply (t_call 10 true true 100 _ [1] 104 2); lia|].
    eapply rtc_l; [|apply rtc_refl].
    apply (t_fire 10 true true 104 _ [1; 2] 110 110); [lia|reflexivity|lia]. }
  split; [exact Hr|]. split; [|reflexivity].
  apply (throttle_spec 10 true true 100 110 _ [1; 2]); [lia|exact Hr].
Defined.

(** ** The quiet time of a debounced function *)

Section debounce_facts.
Context {Arg : Type}.
Variable wait : Z.
Hypothesis Hwait : (0 < wait)%Z.

(** The invariant of the trailing form: the calls made so far, with the one
    whose arguments are kept. *)
Record dinv (clock : Z) (s : dstate Arg) (calls : list (Z * Arg)) : Prop := DInv {
  di_calls : ∀ c, c ∈ calls → (c.1 ≤ timestamp s)%Z;
  di_last : calls ≠ [] → (∃ a, last calls = Some (timestamp s, a)) ∧ (timestamp s ≤ clock)%Z;
  di_timeout : d_timeout s ≠ None → calls ≠ [] ∧ d_args s = snd <$> last calls;
  di_done : calls ≠ [] → d_timeout s = None →
    ∃ t, last (d_log s) = Some (t, snd <$> last calls);
  di_log : ∀ t o, (t, o) ∈ d_log s → ∃ c, c ∈ calls ∧ o = Some c.2 ∧
    ((c.1 + wait ≤ t)%Z ∨ c.1 = t) ∧ ∀ c', c' ∈ calls → (c'.1 ≤ c.1)%Z ∨ (t ≤ c'.1)%Z;
}.

Lemma debounced_inv clock s calls now a :
  (clock ≤ now)%Z → dinv clock s calls → (∀ c, c ∈ calls → (c.1 ≤ clock)%Z) →
  (∀ t o, (t, o) ∈ d_log s → (t ≤ clock)%Z) →
  dinv now (debounced wait false now a s) (calls ++ [(now, a)]).
Proof.
  intros Hnow [H1 H2 H3 H4 H5] Hc Hl. unfold debounced. simpl. split; simpl.
  - intros c [Hin| ->%list_elem_of_singleton]%elem_of_app; [|done]. specialize (Hc c Hin). lia.
  - intros _. split; [|lia]. exists a. by rewrite last_snoc.
  - intros _. rewrite last_snoc. split; [|done]. by destruct calls.
  - intros _. by destruct (d_timeout s).
  - intros t o Hin. destruct (H5 t o Hin) as (c & A1 & A2 & A3 & A4). exists c.
    rewrite elem_of_app. split; [by left|]. split_and!; [done|done|].
    intros c' [Hin'| ->%list_elem_of_singleton]%elem_of_app; [by apply A4|]. right. simpl.
    specialize (Hl t o Hin). lia.
Qed.

Lemma d_later_inv clock s calls now due :
  (clock ≤ now)%Z → d_timeout s = Some due → (due ≤ now)%Z → dinv clock s calls →
  dinv now (d_later wait false now s) calls.
Proof.
  intros Hnow Ht Hdue [H1 H2 H3 H4 H5].
  destruct H3 as [Hne Hargs]; [by rewrite Ht|]. destruct (H2 Hne) as [[a Ha] Hts].
  unfold d_later. set (l := (now - timestamp s)%Z).
  destruct ((l <? wait)%Z && (l >? 0)%Z) eqn:E.
  - split; simpl; try done. intros _. split; [by exists a|lia].
  - split; simpl; try done.
    + intros _. split; [by exists a|lia].
    + intros _ _. exists now. by rewrite last_snoc, Hargs.
    + intros t o [Hin|Hin%list_elem_of_singleton]%elem_of_app; [by apply H5|].
      injection Hin as -> ->. exists (timestamp s, a). rewrite Hargs, Ha. simpl.
      split; [by apply last_Some_elem_of in Ha|]. split; [done|]. split.
      * apply andb_false_iff in E as [E%Z.ltb_ge|E]; [left; lia|right].
        rewrite Z.gtb_ltb in E. apply Z.ltb_ge in E. unfold l in E. lia.
      * intros c' Hc'. left. by apply H1.
Qed.

Definition dwhole (x : Z * dstate Arg * list (Z * Arg)) : Prop :=
  dinv x.1.1 x.1.2 x.2 ∧ (∀ c, c ∈ x.2 → (c.1 ≤ x.1.1)%Z) ∧
  (∀ t o, (t, o) ∈ d_log x.1.2 → (t ≤ x.1.1)%Z).

Lemma dstep_whole x y : dstep wait false x y → dwhole x → dwhole y.
Proof.
  intros Hs (H1 & H2 & H3). destruct Hs as [clock s calls now a Hn|clock s calls now due Hn Ht Hd];
    unfold dwhole in *; simpl in *.
  - split; [by eapply debounced_inv|]. split.
    + intros c [Hc| ->%list_elem_of_singleton]%elem_of_app; [|simpl; lia]. specialize (H2 c Hc). lia.
    + intros t o Hin. unfold debounced in Hin. simpl in Hin. specialize (H3 t o Hin). lia.
  - split; [by eapply (d_later_inv clock)|]. split.
    + intros c Hc. specialize (H2 c Hc). lia.
    + intros t o. unfold d_later. destruct (_ && _); simpl.
      * intros Hin. specialize (H3 t o Hin). lia.
      * intros [Hin|Hin%list_elem_of_singleton]%elem_of_app; [|by simplify_eq].
        specialize (H3 t o Hin). lia.
Qed.
End debounce_facts.

(** C36: a debounced function of the trailing form runs the wrapped function only
    with the arguments of a call that was followed by no other call before, and
    [wait] milliseconds after this call, or at the very millisecond of the call;
    once no timer is pending it has run with the arguments of the last call. *)
Theorem debounce_spec {Arg} (wait : Z) (clock now : Z) (s : dstate Arg) (calls : list (Z * Arg)) :
  (0 < wait)%Z →
  rtc (dstep wait false) (clock, debounce, []) (now, s, calls) →
  (∀ t o, (t, o) ∈ d_log s → ∃ c, c ∈ calls ∧ o = Some c.2 ∧
    ((c.1 + wait ≤ t)%Z ∨ c.1 = t) ∧ ∀ c', c' ∈ calls → (c'.1 ≤ c.1)%Z ∨ (t ≤ c'.1)%Z) ∧
  (calls ≠ [] → d_timeout s = None → ∃ t, last (d_log s) = Some (t, snd <$> last calls)).
Proof.
  intros Hw Hr.
  assert (Hg : ∀ x y : Z * dstate Arg * list (Z * Arg),
    rtc (dstep wait false) x y → dwhole wait x → dwhole wait y).
  { induction 1; [done|]. eauto using dstep_whole. }
  apply Hg in Hr as ([_ _ _ H4 H5] & _); [done|].
  unfold dwhole. simpl. split_and!; [|by intros c ?%elem_of_nil|by intros t o ?%elem_of_nil].
  split; simpl; try done; [by intros c ?%elem_of_nil|by intros t o ?%elem_of_nil].
Qed.

Definition two_calls : dstate nat :=
  d_later 10 false 10 (debounced 10 false 10 2 (debounced 10 false 0 1 debounce)).
Lemma two_calls_run :
  rtc (dstep 10 false) (0%Z, debounce, []) (10%Z, two_calls, [(0%Z, 1); (10%Z, 2)]).
Proof.
  eapply rtc_l; [apply (d_call 10 false 0 debounce [] 0 1); lia|].
  eapply rtc_l; [apply (d_call 10 false 0 _ [(0%Z, 1)] 10 2); lia|].
  eapply rtc_l; [|apply rtc_refl].
  apply (d_fire 10 false 10 _ [(0%Z, 1); (10%Z, 2)] 10 10); [lia|reflexivity|lia].
Defined.

Lemma debounce_spec_witness :
  d_log two_calls = [(10%Z, Some 2)] ∧
  ∃ c, c ∈ [(0%Z, 1); (10%Z, 2)] ∧ Some 2 = Some c.2 ∧ ((c.1 + 10 ≤ 10)%Z ∨ c.1 = 10%Z) ∧
    ∀ c', c' ∈ [(0%Z, 1); (10%Z, 2)] → (c'.1 ≤ c.1)%Z ∨ (10 ≤ c'.1)%Z.
Proof.
  split; [reflexivity|].
  apply (debounce_spec 10 0 10 two_calls [(0%Z, 1); (10%Z, 2)]); [lia|exact two_calls_run|by left].
Defined.

(** The wrapped function can run at the very millisecond of a call: when the
    timer fires in the millisecond of the last call, the test [last > 0] fails and
    the call is not waited for. *)
Theorem debounce_no_wait {Arg} (wait now : Z) (a b : Arg) :
  (0 < wait)%Z →
  let s := debounced wait false (now + wait) b (debounced wait false now a debounce) in
  d_timeout s = Some (now + wait)%Z ∧ timestamp s = (now + wait)%Z ∧
  d_log (d_later wait false (now + wait) s) = [((now + wait)%Z, Some b)].
Proof.
  intros Hw. simpl. split; [done|]. split; [done|]. unfold d_later. simpl.
  rewrite Z.sub_diag. by rewrite andb_false_r.
Qed.

Lemma debounce_no_wait_witness :
  d_log (d_later 10 false 10 (debounced 10 false 10 2 (debounced 10 false 0 1 debounce))) =
    [(10%Z, Some 2)].
Proof. apply (debounce_no_wait 10 0 1 2). lia. Defined.

(** ** Counted and memoized calls *)

(** Successive calls of [before]. *)
Fixpoint calls {S A B L} (f : A → M (S * L) B) (l : list A) (s : S * L) : S * L :=
  match l with [] => s | a :: l' => calls f l' (f a s).2 end.

Lemma before_calls {S A B} (g : A → B) (run : A → S → S) (n : Z) memo l (s : S) :
  calls (before (λ a s, (Ok (g a), run a s))) l (s, (n, memo)) =
    (foldl (λ s a, run a s) s (take (Z.to_nat (n - 1)) l),
     ((n - Z.of_nat (length l))%Z,
      match last (take (Z.to_nat (n - 1)) l) with Some a => Some (g a) | None => memo end)).
Proof.
  revert n memo s. induction l as [|a l IH]; intros n memo s.
  - simpl. rewrite take_nil. simpl. repeat f_equal. lia.
  - cbn [calls before]. destruct (Z.gtb_spec (n - 1) 0) as [H|H]; simpl snd; rewrite IH.
    + replace (Z.to_nat (n - 1)) with (Datatypes.S (Z.to_nat (n - 1 - 1))) by lia.
      cbn [take length foldl]. rewrite last_cons. f_equal. f_equal; [lia|].
      by destruct (last (take (Z.to_nat (n - 1 - 1)) l)).
    + replace (Z.to_nat (n - 1)) with 0 by lia. replace (Z.to_nat (n - 1 - 1)) with 0 by lia. simpl.
      f_equal. f_equal. lia.
Qed.

(** A function wrapped by [before(times)] runs for the first [times - 1] calls
    and never again, and the later calls return the result of the last run; [once]
    is [before(2)]: one run. *)
Theorem before_runs {S A B} (g : A → B) (run : A → S → S) (n : Z) (l : list A) (s : S) (a : A) :
  let '(s', (n', memo)) := calls (before (λ a s, (Ok (g a), run a s))) l (s, (n, None)) in
  s' = foldl (λ s a, run a s) s (take (Z.to_nat (n - 1)) l) ∧
  ((n ≤ Z.of_nat (length l) + 1)%Z →
    before (λ a s, (Ok (g a), run a s)) a (s', (n', memo)) =
      (Ok (g <$> last (take (Z.to_nat (n - 1)) l)), (s', ((n' - 1)%Z, memo)))).
Proof.
  rewrite before_calls. split; [done|]. intros Hn. unfold before.
  destruct (Z.gtb_spec (n - Z.of_nat (length l) - 1) 0); [lia|].
  by destruct (last (take (Z.to_nat (n - 1)) l)).
Qed.

(** What a memoized function keeps: results of [func] at the arguments with the
    name of a property. *)
Definition cache_ok {A B} (g : A → B) (hasher : A → jsstr) (cache : list (jsstr * B)) : Prop :=
  ∀ k b, obj_get k cache = Some b → ∃ a, hasher a = k ∧ b = g a.

(** When the hasher tells apart the arguments with different results, the
    memoized function returns the results of the function, runs it once for every
    new hash, and stops running it once the hash is in the cache. *)
Theorem memoize_spec {S A B} (g : A → B) (run : A → S → S) (hasher : A → jsstr)
    (cache : list (jsstr * B)) (s : S) (a : A) :
  (∀ a a', hasher a = hasher a' → g a = g a') → cache_ok g hasher cache →
  let '(r, (s', cache')) := memoize (λ a s, (Ok (g a), run a s)) hasher a (s, cache) in
  r = Ok (g a) ∧ cache_ok g hasher cache' ∧ is_Some (obj_get (hasher a) cache') ∧
  s' = if obj_has (hasher a) cache then s else run a s.
Proof.
  intros Hh Hc. unfold memoize, obj_has. destruct (obj_get (hasher a) cache) as [b|] eqn:E.
  - destruct (Hc _ _ E) as (a' & Ha & ->). rewrite (Hh a' a Ha). by rewrite E.
  - split; [done|]. split.
    + intros k b. rewrite obj_get_set. case_decide as Hk; [|by apply Hc].
      intros [= <-]. by exists a.
    + rewrite obj_get_set, decide_True by done. done.
Qed.

Lemma memoize_spec_witness :
  (memoize (λ a s, (Ok (a * 2), a :: s)) (λ a : nat, [N.of_nat a]) 4 ([], [([4%N], 8)])) =
    (Ok 8, ([], [([4%N], 8)])).
Proof.
  pose proof (memoize_spec (λ a, a * 2) (λ a s, a :: s) (λ a : nat, [N.of_nat a]) [([4%N], 8)]
    [] 4) as H.
  destruct H as (H1 & _ & _ & H2).
  - intros a a' [= Ha]. apply Nat2N.inj in Ha. by subst.
  - intros k b. simpl. destruct (str_eqb_spec k [4%N]) as [->|]; [|discriminate].
    intros [= <-]. by exists 4.
  - reflexivity.
Defined.

(** ** Arguments *)

(** A bound list without placeholders is put in front of the arguments. *)
Lemma partial_bound {A} (bound args : list A) :
  partial (Some <$> bound) args = Some <$> (bound ++ args).
Proof.
  unfold partial. assert (Hf : fill (Some <$> bound) args = (Some <$> bound, args)).
  { induction bound as [|b bound IH]; [done|]. rewrite fmap_cons. simpl. by rewrite IH. }
  by rewrite Hf, fmap_app.
Qed.

(** What stands in the places of the placeholders. *)
Definition holes {A} (bound l : list (option A)) : list (option A) :=
  zip l bound ≫= λ p, match p.2 with None => [p.1] | Some _ => [] end.

Lemma fill_spec {A} (bound : list (option A)) (args : list A) :
  length (base.filter (λ b, b = None) bound) ≤ length args →
  let '(l, r) := fill bound args in
  length l = length bound ∧ (∀ i a, bound !! i = Some (Some a) → l !! i = Some (Some a)) ∧
  holes bound l ++ (Some <$> r) = Some <$> args.
Proof.
  unfold holes. revert args. induction bound as [|[b|] bound IH]; intros args Hn; simpl.
  - split; [done|]. split; [|done]. intros i a Hi. by rewrite lookup_nil in Hi.
  - rewrite filter_cons, decide_False in Hn by done. specialize (IH args Hn).
    destruct (fill bound args) as [l r]. destruct IH as (H1 & H2 & H3). simpl. split; [lia|].
    split; [|done]. intros [|i] a Hi; [done|]. by apply H2.
  - rewrite filter_cons, decide_True in Hn by done. simpl in Hn.
    destruct args as [|a args]; simpl in *; [lia|]. specialize (IH args ltac:(lia)).
    destruct (fill bound args) as [l r]. destruct IH as (H1 & H2 & H3). simpl. split; [lia|].
    split; [|by f_equal]. intros [|i] a' Hi; [done|]. by apply H2.
Qed.

(** With enough arguments, a partial application keeps the bound arguments in
    their places, fills the placeholders from the left with the arguments of the
    call and appends the others: no argument is lost or moved. *)
Theorem partial_fills {A} (bound : list (option A)) (args : list A) :
  length (base.filter (λ b, b = None) bound) ≤ length args →
  ∃ l r, partial bound args = l ++ r ∧ length l = length bound ∧
    (∀ i a, bound !! i = Some (Some a) → l !! i = Some (Some a)) ∧
    holes bound l ++ r = Some <$> args.
Proof.
  intros Hn. pose proof (fill_spec bound args Hn) as H. unfold partial.
  destruct (fill bound args) as [l r]. by exists l, (Some <$> r).
Qed.

Lemma partial_fills_witness :
  ∃ l r, partial [Some 1; None; Some 3] [2; 4] = l ++ r ∧ length l = 3.
Proof.
  destruct (partial_fills [Some 1; None; Some 3] [2; 4]) as (l & r & H1 & H2 & _); [apply Nat.leb_le; vm_compute; reflexivity|].
  exists l, r. exact (conj H1 H2).
Defined.

End F.
