(* ===== verification/UEqual.v ===== *)
(** * Deep comparison of underscore.js

    [isEqual] compares values through references, so the objects live in a heap;
    two stacks of references detect cycles.  Wrapped values ([_.chain]) are not
    values of the model. *)

From stdpp Require Import base tactics list strings numbers sets gmap.
From Stdlib Require Import ZArith Lia.
From S2P Require Import Prelude.
From S2P Require Import JsString.
From S2P Require Import JsNum.
From S2P Require Import JsArray.

Module Eq.

(** ** Values and objects *)

Inductive val : Type :=
  | VUndefined
  | VNull
  | VBool (b : bool)
  | VNum (n : num)
  | VStr (s : jsstr)
  | VRef (l : nat).

(** What an object is besides its constructor: the wrappers of primitive values,
    dates, regular expressions (as text), functions, arrays, other objects. *)
Inductive body : Type :=
  | OStr (s : jsstr)
  | ONum (n : num)
  | OBool (b : bool)
  | ODate (ms : num)
  | ORegExp (source : jsstr)
  | OFunction
  | OArray (elements : list val)
  | OObject (props : list (jsstr * val)).

(** [ctor] is [None] when there is no property [constructor]. *)
Record object := MkObject {
  ctor : option nat;
  o_body : body;
}.
Abbreviation heap := (list object).

(** [===] on values. *)
Definition val_seq (a b : val) : bool :=
  match a, b with
  | VUndefined, VUndefined | VNull, VNull => true
  | VBool x, VBool y => Bool.eqb x y
  | VNum x, VNum y => num_seq x y
  | VStr x, VStr y => str_eqb x y
  | VRef x, VRef y => Nat.eqb x y
  | _, _ => false
  end.
Definition is_nullish (a : val) : bool :=
  match a with VUndefined | VNull => true | _ => false end.
(** [a !== 0 || 1 / a === 1 / b] for identical values. *)
Definition same_zero (a b : val) : bool :=
  match a, b with
  | VNum (Int 0), VNum NegZero | VNum NegZero, VNum (Int 0) => false
  | _, _ => true
  end.

(** [toString.call(a)] and the primitive content it stands for. *)
Inductive class : Type :=
  | CString (s : jsstr)
  | CNumber (n : num)
  | CBoolean (b : bool)
  | CDate (ms : num)
  | CRegExp (source : jsstr)
  | CFunction
  | CArr (l : nat) (elements : list val)
  | CObj (l : nat) (props : list (jsstr * val))
  | CNone.
Definition class_of (h : heap) (a : val) : class :=
  match a with
  | VStr s => CString s
  | VNum n => CNumber n
  | VBool b => CBoolean b
  | VRef l =>
      match o_body <$> h !! l with
      | Some (OStr s) => CString s
      | Some (ONum n) => CNumber n
      | Some (OBool b) => CBoolean b
      | Some (ODate ms) => CDate ms
      | Some (ORegExp s) => CRegExp s
      | Some OFunction => CFunction
      | Some (OArray l') => CArr l l'
      | Some (OObject ps) => CObj l ps
      | None => CNone
      end
  | _ => CNone
  end.

(** [egal]: numbers of the class [Number]. *)
Definition num_egal (x y : num) : bool :=
  match x, y with
  | NaN, _ => match y with NaN => true | _ => false end
  | Int 0, _ => match y with Int 0 => true | _ => false end
  | NegZero, _ => match y with NegZero => true | _ => false end
  | _, _ => num_seq x y
  end.

Section eq.
Variable h : heap.
(** Constructors that are instances of themselves, such as [Object]. *)
Variable own_instance : nat → bool.

Definition ctor_of (l : nat) : option nat := h !! l ≫= ctor.
Definition ctors_differ (la lb : nat) : bool :=
  match ctor_of la, ctor_of lb with
  | Some x, Some y => negb (Nat.eqb x y) && negb (own_instance x && own_instance y)
  | _, _ => false
  end.

(** The search of the stacks, the last pair first: what it returns if [a] is
    there. *)
Fixpoint find_stack (stack : list (nat * nat)) (a b : nat) : option bool :=
  match stack with
  | [] => None
  | (x, y) :: stack' => if Nat.eqb x a then Some (Nat.eqb y b) else find_stack stack' a b
  end.

(** The two loops that compare members, from the last to the first: [eqv] is
    [eq] with the stacks.  [None] is a lack of fuel. *)
Fixpoint all_members (eqv : val → val → option bool) (ps : list (val * val)) : option bool :=
  match ps with
  | [] => Some true
  | (x, y) :: ps' =>
      match eqv x y with
      | Some true => all_members eqv ps'
      | r => r
      end
  end.
Fixpoint all_props (eqv : val → val → option bool) (ps qs : list (jsstr * val)) : option bool :=
  match ps with
  | [] => Some true
  | (k, x) :: ps' =>
      match obj_get k qs with
      | None => Some false
      | Some y =>
          match eqv x y with
          | Some true => all_props eqv ps' qs
          | r => r
          end
      end
  end.

(** [eq(a, b, aStack, bStack)]; the head of [stack] is the last pair pushed. *)
Fixpoint eq (fuel : nat) (a b : val) (stack : list (nat * nat)) : option bool :=
  if val_seq a b then Some (same_zero a b)
  else if is_nullish a || is_nullish b then Some false
  else
    match class_of h a, class_of h b with
    | CRegExp x, CRegExp y | CString x, CString y => Some (str_eqb x y)
    | CNumber x, CNumber y => Some (num_egal x y)
    | CDate x, CDate y => Some (num_seq x y)
    | CBoolean x, CBoolean y => Some (Bool.eqb x y)
    | CArr la xs, CArr lb ys =>
        match find_stack stack la lb with
        | Some r => Some r
        | None =>
            if ctors_differ la lb then Some false
            else if negb (length xs =? length ys) then Some false
            else
              match fuel with
              | 0 => None
              | S k => all_members (λ x y, eq k x y ((la, lb) :: stack)) (reverse (zip xs ys))
              end
        end
    | CObj la ps, CObj lb qs =>
        match find_stack stack la lb with
        | Some r => Some r
        | None =>
            if ctors_differ la lb then Some false
            else if negb (length ps =? length qs) then Some false
            else
              match fuel with
              | 0 => None
              | S k => all_props (λ x y, eq k x y ((la, lb) :: stack)) (reverse ps) qs
              end
        end
    | _, _ => Some false
    end.

(** A comparison nests at most once per object of the heap. *)
Definition isEqual (a b : val) : option bool := eq (length h) a b [].
End eq.

(** A cycle: [a.self = a] and a copy of it. *)
Example isEqual_cycle :
  let h := [MkObject None (OObject [(js "self", VRef 0); (js "v", VNum (Int 1))]);
            MkObject None (OObject [(js "v", VNum (Int 1)); (js "self", VRef 1)])] in
  isEqual h (λ _, false) (VRef 0) (VRef 1) = Some true.
Proof. reflexivity. Qed.
Example isEqual_zero : isEqual [] (λ _, false) (VNum (Int 0)) (VNum NegZero) = Some false.
Proof. reflexivity. Qed.

(** ** The comparison ends *)

Section termination.
Variable h : heap.
Variable own_instance : nat → bool.
Local Abbreviation eq := (eq h own_instance).

Lemma class_arr a l xs : class_of h a = CArr l xs → a = VRef l ∧ o_body <$> h !! l = Some (OArray xs).
Proof. destruct a as [| | | | |l']; simpl; try done. repeat case_match; intros [= -> ->]; by subst. Qed.
Lemma class_obj a l ps : class_of h a = CObj l ps → a = VRef l ∧ o_body <$> h !! l = Some (OObject ps).
Proof. destruct a as [| | | | |l']; simpl; try done. repeat case_match; intros [= -> ->]; by subst. Qed.
Lemma in_heap l b : o_body <$> h !! l = Some b → l < length h.
Proof. intros (o & Ho & _)%fmap_Some. by apply lookup_lt_Some in Ho. Qed.

(** The objects being compared are different objects of the heap. *)
Definition stack_ok (stack : list (nat * nat)) : Prop :=
  NoDup stack.*1 ∧ Forall (λ l, l < length h) stack.*1.

Lemma find_stack_None stack a b : find_stack stack a b = None ↔ a ∉ stack.*1.
Proof.
  induction stack as [|[x y] stack IH]; simpl; [split; [set_solver|done]|].
  destruct (Nat.eqb_spec x a) as [->|]; [split; [done|set_solver]|]. rewrite IH. set_solver.
Qed.

Lemma stack_bound stack : stack_ok stack → length stack ≤ length h.
Proof.
  intros [Hn Hf]. rewrite <- (length_fmap fst).
  rewrite <- (length_seq (length h) 0). apply submseteq_length, NoDup_submseteq; [done|].
  intros l Hl. rewrite Forall_forall in Hf. apply elem_of_seq. specialize (Hf l Hl). lia.
Qed.

Lemma stack_ok_push stack la lb b :
  stack_ok stack → o_body <$> h !! la = Some b → find_stack stack la lb = None →
  stack_ok ((la, lb) :: stack).
Proof.
  intros [Hn Hf] Hb Hs%find_stack_None. split; simpl; constructor; try done. by eapply in_heap.
Qed.

Lemma all_members_total eqv ps :
  (∀ x y, eqv x y ≠ None) → all_members eqv ps ≠ None.
Proof.
  intros He. induction ps as [|[x y] ps IH]; simpl; [done|].
  specialize (He x y). destruct (eqv x y) as [[]|]; done.
Qed.
Lemma all_props_total eqv ps qs :
  (∀ x y, eqv x y ≠ None) → all_props eqv ps qs ≠ None.
Proof.
  intros He. induction ps as [|[k x] ps IH]; simpl; [done|].
  destruct (obj_get k qs) as [y|]; [|done]. specialize (He x y). by destruct (eqv x y) as [[]|].
Qed.

Lemma eq_total fuel a b stack :
  stack_ok stack → length h ≤ fuel + length stack → eq fuel a b stack ≠ None.
Proof.
  revert a b stack. induction fuel as [|k IH]; intros a b stack Hs Hf; simpl;
    (destruct (val_seq a b); [done|]); (destruct (is_nullish a || is_nullish b); [done|]);
    destruct (class_of h a) as [| | | | | |la xs|la ps|] eqn:Ea;
    destruct (class_of h b) as [| | | | | |lb ys|lb qs|] eqn:Eb; try done;
    (destruct (find_stack stack la lb) eqn:Ef; [done|]);
    (destruct (ctors_differ h own_instance la lb); [done|]);
    (destruct (negb _); [done|]).
  - apply class_arr in Ea as [-> Ea]. pose proof (stack_ok_push _ _ _ _ Hs Ea Ef) as Hp.
    apply stack_bound in Hp. simpl in Hp. lia.
  - apply class_obj in Ea as [-> Ea]. pose proof (stack_ok_push _ _ _ _ Hs Ea Ef) as Hp.
    apply stack_bound in Hp. simpl in Hp. lia.
  - apply class_arr in Ea as [-> Ea]. pose proof (stack_ok_push _ _ _ _ Hs Ea Ef) as Hp.
    apply all_members_total. intros x y. apply IH; [done|simpl; lia].
  - apply class_obj in Ea as [-> Ea]. pose proof (stack_ok_push _ _ _ _ Hs Ea Ef) as Hp.
    apply all_props_total. intros x y. apply IH; [done|simpl; lia].
Qed.
End termination.

(** C28: [_.isEqual] ends on every heap, cyclic or not: with as many levels of
    recursion as the heap has objects it returns an answer. *)
Theorem isEqual_terminates (h : heap) (own_instance : nat → bool) (a b : val) :
  ∃ r, isEqual h own_instance a b = Some r.
Proof.
  destruct (isEqual h own_instance a b) as [r|] eqn:E; [by exists r|]. exfalso. revert E.
  apply eq_total; [|simpl; lia]. split; constructor.
Qed.

(** ** Equality means bisimilarity *)

Section bisimulation.
Variable h : heap.
Variable own_instance : nat → bool.
Local Abbreviation eq := (eq h own_instance).

(** Equal by content: strings, numbers, booleans, dates, regular expressions. *)
Definition prim_equal (a b : val) : bool :=
  match class_of h a, class_of h b with
  | CRegExp x, CRegExp y | CString x, CString y => str_eqb x y
  | CNumber x, CNumber y => num_egal x y
  | CDate x, CDate y => num_seq x y
  | CBoolean x, CBoolean y => Bool.eqb x y
  | _, _ => false
  end.
(** Identical, equal by content, or a pair of references in [R]. *)
Definition linked (R : list (nat * nat)) (a b : val) : Prop :=
  (val_seq a b = true ∧ same_zero a b = true) ∨ prim_equal a b = true ∨
  ∃ la lb, a = VRef la ∧ b = VRef lb ∧ (la, lb) ∈ R.
(** Two objects with the same shape and linked members. *)
Definition alike (R : list (nat * nat)) (p : nat * nat) : Prop :=
  ctors_differ h own_instance p.1 p.2 = false ∧
  match o_body <$> h !! p.1, o_body <$> h !! p.2 with
  | Some (OArray xs), Some (OArray ys) =>
      length xs = length ys ∧ ∀ x y, (x, y) ∈ zip xs ys → linked R x y
  | Some (OObject ps), Some (OObject qs) =>
      length ps = length qs ∧
      ∀ k x, (k, x) ∈ ps → ∃ y, obj_get k qs = Some y ∧ linked R x y
  | _, _ => False
  end.
Definition bisimulation (R : list (nat * nat)) : Prop := ∀ p, p ∈ R → alike R p.

Lemma linked_mono R R' a b : (∀ p, p ∈ R → p ∈ R') → linked R a b → linked R' a b.
Proof.
  intros HR [H|[H|(la & lb & H1 & H2 & Hin)]]; [by left|by right; left|].
  right. right. exists la, lb. split_and!; [done|done|by apply HR].
Qed.
Lemma alike_mono R R' p : (∀ p, p ∈ R → p ∈ R') → alike R p → alike R' p.
Proof.
  intros HR [Hc H]. split; [done|]. destruct (o_body <$> h !! p.1) as [[]|]; try done;
    destruct (o_body <$> h !! p.2) as [[]|]; try done; destruct H as [Hl H]; (split; [done|]).
  - intros x y Hxy. eapply linked_mono; [exact HR|]. by apply H.
  - intros k x Hk. destruct (H k x Hk) as (y & Hy & Hl'). exists y. split; [done|].
    by eapply linked_mono.
Qed.

(** Inclusions between lists built by [++] and [::]. *)
Ltac membership := intros ?; repeat first [rewrite elem_of_app | rewrite elem_of_cons]; tauto.

(** Pairs that suffice beside those of the stack. *)
Definition covered (st R : list (nat * nat)) : Prop := ∀ p, p ∈ R → alike (R ++ st) p.

Lemma covered_app st R1 R2 : covered st R1 → covered st R2 → covered st (R1 ++ R2).
Proof.
  intros H1 H2 p [Hp|Hp]%elem_of_app; [eapply alike_mono, (H1 p Hp)|eapply alike_mono, (H2 p Hp)];
    intros q; rewrite !elem_of_app; tauto.
Qed.

Lemma all_members_sound (eqv : val → val → option bool) st ps :
  (∀ x y, eqv x y = Some true → ∃ R, linked (R ++ st) x y ∧ covered st R) →
  all_members eqv ps = Some true →
  ∃ R, (∀ x y, (x, y) ∈ ps → linked (R ++ st) x y) ∧ covered st R.
Proof.
  intros He. induction ps as [|[x y] ps IH]; simpl.
  - intros _. exists []. split; [by intros x y ?%elem_of_nil|by intros p ?%elem_of_nil].
  - destruct (eqv x y) as [[]|] eqn:E; try done. intros H.
    destruct (He x y E) as (R1 & L1 & C1). destruct (IH H) as (R2 & L2 & C2).
    exists (R1 ++ R2). split; [|by apply covered_app].
    intros x' y' [[= -> ->]|Hin]%elem_of_cons.
    + eapply linked_mono, L1. intros p. rewrite !elem_of_app. tauto.
    + eapply linked_mono, (L2 x' y' Hin). intros p. rewrite !elem_of_app. tauto.
Qed.
Lemma all_props_sound (eqv : val → val → option bool) st ps qs :
  (∀ x y, eqv x y = Some true → ∃ R, linked (R ++ st) x y ∧ covered st R) →
  all_props eqv ps qs = Some true →
  ∃ R, (∀ k x, (k, x) ∈ ps → ∃ y, obj_get k qs = Some y ∧ linked (R ++ st) x y) ∧ covered st R.
Proof.
  intros He. induction ps as [|[k x] ps IH]; simpl.
  - intros _. exists []. split; [by intros k x ?%elem_of_nil|by intros p ?%elem_of_nil].
  - destruct (obj_get k qs) as [y|] eqn:Ek; [|done].
    destruct (eqv x y) as [[]|] eqn:E; try done. intros H.
    destruct (He x y E) as (R1 & L1 & C1). destruct (IH H) as (R2 & L2 & C2).
    exists (R1 ++ R2). split; [|by apply covered_app].
    intros k' x' [[= -> ->]|Hin]%elem_of_cons.
    + exists y. split; [done|]. eapply linked_mono, L1. intros p. rewrite !elem_of_app. tauto.
    + destruct (L2 k' x' Hin) as (y' & Hy & Hl). exists y'. split; [done|].
      eapply linked_mono, Hl. intros p. rewrite !elem_of_app. tauto.
Qed.

Lemma find_stack_true st la lb : find_stack st la lb = Some true → (la, lb) ∈ st.
Proof.
  induction st as [|[x y] st IH]; simpl; [done|]. destruct (Nat.eqb_spec x la) as [->|].
  - intros [= ->%Nat.eqb_eq]. by left.
  - intros H. right. by apply IH.
Qed.

Lemma push_covered la lb st R :
  covered ((la, lb) :: st) R → alike (((la, lb) :: R) ++ st) (la, lb) →
  covered st ((la, lb) :: R).
Proof.
  intros HC Ha p [->|Hp]%elem_of_cons; [done|]. eapply alike_mono, (HC p Hp).
  membership.
Qed.

Lemma eq_sound fuel a b st :
  eq fuel a b st = Some true → ∃ R, linked (R ++ st) a b ∧ covered st R.
Proof.
  revert a b st. induction fuel as [|k IH]; intros a b st; simpl;
    (destruct (val_seq a b) eqn:Es;
      [intros [= Hz]; exists []; split; [by left|by intros p ?%elem_of_nil]|]);
    (destruct (is_nullish a || is_nullish b); [done|]); intros H;
    (destruct (prim_equal a b) eqn:Ep;
      [exists []; split; [right; by left|by intros p ?%elem_of_nil]|]);
    unfold prim_equal in Ep;
    destruct (class_of h a) as [| | | | | |la xs|la ps|] eqn:Ea;
    destruct (class_of h b) as [| | | | | |lb ys|lb qs|] eqn:Eb; try congruence;
    (destruct (find_stack st la lb) as [r|] eqn:Ef;
      [injection H as ->; apply find_stack_true in Ef; exists [];
       split; [right; right; exists la, lb|by intros p ?%elem_of_nil]|]);
    try (destruct (ctors_differ h own_instance la lb) eqn:Ec; [done|]);
    try (destruct (_ =? _) eqn:El; simpl in H; [apply Nat.eqb_eq in El|done]); try done.
  all: try (apply class_arr in Ea as [-> Ea]; apply class_arr in Eb as [-> Eb]).
  all: try (apply class_obj in Ea as [-> Ea]; apply class_obj in Eb as [-> Eb]).
  all: try done.
  - apply (all_members_sound _ ((la, lb) :: st)) in H as (R & HL & HC); [|intros x y; apply IH].
    exists ((la, lb) :: R). split; [right; right; exists la, lb; split_and!; [done|done|by left]|].
    apply push_covered; [done|]. split; [done|]. simpl. rewrite Ea, Eb. split; [done|].
    intros x y Hxy. eapply linked_mono; [|apply HL; by rewrite elem_of_reverse].
    membership.
  - apply (all_props_sound _ ((la, lb) :: st)) in H as (R & HL & HC); [|intros x y; apply IH].
    exists ((la, lb) :: R). split; [right; right; exists la, lb; split_and!; [done|done|by left]|].
    apply push_covered; [done|]. split; [done|]. simpl. rewrite Ea, Eb. split; [done|].
    intros k' x Hkx. destruct (HL k' x) as (y & Hy & Hl); [by rewrite elem_of_reverse|].
    exists y. split; [done|]. eapply linked_mono, Hl.
    membership.
Qed.
End bisimulation.

(** C27: values that [_.isEqual] declares equal are bisimilar: there is a relation
    on objects that links them and under which linked objects have the same shape,
    compatible constructors and linked members. *)
Theorem isEqual_sound (h : heap) (own_instance : nat → bool) (a b : val) :
  isEqual h own_instance a b = Some true →
  ∃ R, bisimulation h own_instance R ∧ linked h R a b.
Proof.
  intros (R & HL & HC)%eq_sound. exists R. rewrite app_nil_r in HL. split; [|done].
  intros p Hp. specialize (HC p Hp). by rewrite app_nil_r in HC.
Qed.

Definition cycle_heap : heap :=
  [MkObject None (OObject [(js "self", VRef 0); (js "v", VNum (Int 1))]);
   MkObject None (OObject [(js "v", VNum (Int 1)); (js "self", VRef 1)])].

Lemma isEqual_sound_witness :
  ∃ R, bisimulation cycle_heap (λ _, false) R ∧ linked cycle_heap R (VRef 0) (VRef 1).
Proof. apply (isEqual_sound cycle_heap (λ _, false) (VRef 0) (VRef 1)). reflexivity. Defined.

Section completeness.
Variable h : heap.
Variable own_instance : nat → bool.
Local Abbreviation eq := (eq h own_instance).
Variable R : list (nat * nat).
Hypothesis Hbisim : bisimulation h own_instance R.
Hypothesis Hfun : ∀ a b b', (a, b) ∈ R → (a, b') ∈ R → b = b'.

Lemma all_members_not_false (eqv : val → val → option bool) ps :
  (∀ x y, (x, y) ∈ ps → eqv x y ≠ Some false) → all_members eqv ps ≠ Some false.
Proof.
  induction ps as [|[x y] ps IH]; intros He; simpl; [done|].
  assert (Hxy : eqv x y ≠ Some false) by (apply He; by left).
  destruct (eqv x y) as [[]|]; [|done|done]. apply IH. intros; apply He; by right.
Qed.
Lemma all_props_not_false (eqv : val → val → option bool) ps qs :
  (∀ k x, (k, x) ∈ ps → ∃ y, obj_get k qs = Some y ∧ eqv x y ≠ Some false) →
  all_props eqv ps qs ≠ Some false.
Proof.
  induction ps as [|[k x] ps IH]; intros He; simpl; [done|].
  destruct (He k x) as (y & -> & Hxy); [by left|].
  destruct (eqv x y) as [[]|]; [|done|done]. apply IH. intros; apply He; by right.
Qed.

Lemma find_stack_in st la lb :
  (∀ p, p ∈ st → p ∈ R) → (la, lb) ∈ R → find_stack st la lb ≠ Some false.
Proof.
  induction st as [|[x y] st IH]; simpl; intros Hst Hab; [done|].
  destruct (Nat.eqb_spec x la) as [->|].
  - rewrite (Hfun la y lb); [by rewrite Nat.eqb_refl|apply Hst; by left|done].
  - apply IH; [|done]. intros; apply Hst; by right.
Qed.

Lemma num_egal_same x y : num_egal x y = true → num_seq x y = true → same_zero (VNum x) (VNum y) = true.
Proof. by destruct x as [| | | |[]], y as [| | | |[]]. Qed.

Lemma eq_linked fuel a b st :
  (∀ p, p ∈ st → p ∈ R) → linked h R a b → eq fuel a b st ≠ Some false.
Proof.
  revert a b st. induction fuel as [|k IH]; intros a b st Hst HL; simpl;
    destruct HL as [[-> ->]|[Hp|(la & lb & -> & -> & Hab)]]; try done.
  1,3: (destruct (val_seq a b) eqn:Es;
    [intros [= Hz]; unfold prim_equal in Hp;
     destruct a as [| |x|x|x|x], b as [| |y|y|y|y]; try discriminate Hz; try discriminate Es;
     simpl in Hp, Es; by rewrite (num_egal_same x y Hp Es) in Hz|];
    unfold prim_equal in Hp;
    destruct (is_nullish a || is_nullish b) eqn:En;
    [destruct a as [| |x|x|x|x], b as [| |y|y|y|y]; try done; simpl in Hp; by repeat case_match|];
    destruct (class_of h a); try done; destruct (class_of h b); try done; by rewrite Hp).
  all: destruct (val_seq (VRef la) (VRef lb)); [done|]; simpl;
    destruct (Hbisim _ Hab) as [Hc Hshape]; cbn [fst snd] in Hc, Hshape;
    pose proof (find_stack_in st la lb Hst Hab) as Hf;
    destruct (o_body <$> h !! la) as [[| | | | | |xs|ps]|]; try done;
    destruct (o_body <$> h !! lb) as [[| | | | | |ys|qs]|]; try done;
    destruct Hshape as [Hlen Hm];
    (destruct (find_stack st la lb) as [r|]; [done|]);
    rewrite Hc, Hlen, Nat.eqb_refl; simpl; try done.
  - apply all_members_not_false. intros x y Hxy. rewrite elem_of_reverse in Hxy. apply IH; [|by apply Hm].
    intros p [->|Hp]%elem_of_cons; [done|by apply Hst].
  - apply all_props_not_false. intros k' x Hx. rewrite elem_of_reverse in Hx.
    destruct (Hm k' x Hx) as (y & Hy & HL). exists y. split; [done|]. apply IH; [|done].
    intros p [->|Hp]%elem_of_cons; [done|by apply Hst].
Qed.
End completeness.

(** C29: conversely, when a bisimulation that is a function on the objects of the
    first value links the two values, [_.isEqual] declares them equal. *)
Theorem isEqual_complete (h : heap) (own_instance : nat → bool) (R : list (nat * nat)) (a b : val) :
  bisimulation h own_instance R → (∀ x y y', (x, y) ∈ R → (x, y') ∈ R → y = y') →
  linked h R a b → isEqual h own_instance a b = Some true.
Proof.
  intros Hb Hf HL. unfold isEqual.
  pose proof (eq_linked h own_instance R Hb Hf (length h) a b [] ltac:(by intros p ?%elem_of_nil) HL) as Hn.
  pose proof (eq_total h own_instance (length h) a b []) as Ht.
  destruct (eq h own_instance (length h) a b []) as [[]|]; [done|done|].
  exfalso. apply Ht; [split; constructor|simpl; lia|done].
Qed.

Lemma isEqual_complete_witness :
  isEqual cycle_heap (λ _, false) (VRef 0) (VRef 1) = Some true.
Proof.
  apply (isEqual_complete cycle_heap (λ _, false) [(0, 1)]).
  - intros p ->%list_elem_of_singleton. split; [reflexivity|]. simpl. split; [reflexivity|].
    intros k x [[= -> ->]|[[= -> ->]|Hx]%elem_of_cons]%elem_of_cons.
    + exists (VRef 1). split; [reflexivity|]. right. right. exists 0, 1. split_and!; [done|done|by left].
    + exists (VNum (Int 1)). split; [reflexivity|]. left. split; reflexivity.
    + by apply elem_of_nil in Hx.
  - intros x y y' Hy%list_elem_of_singleton Hy'%list_elem_of_singleton. congruence.
  - right. right. exists 0, 1. split_and!; [done|done|by left].
Defined.

End Eq.
