(* ===== verification/UTypes.v ===== *)
(** * Type tests of underscore.js

    On the values and the heap of objects of [isEqual]: [class_of] is what
    [toString.call] tells of a value. *)

From stdpp Require Import base tactics list strings numbers sets gmap.
From Stdlib Require Import ZArith Lia.
From S2P Require Import Prelude.
From S2P Require Import JsString.
From S2P Require Import JsNum.
From S2P Require Import JsArray.
From S2P Require Import UEqual.

Module T.
Import Eq.

Section tests.
Variable h : heap.

Definition isString (obj : val) : bool := match class_of h obj with CString _ => true | _ => false end.
Definition isNumber (obj : val) : bool := match class_of h obj with CNumber _ => true | _ => false end.
Definition isDate (obj : val) : bool := match class_of h obj with CDate _ => true | _ => false end.
Definition isRegExp (obj : val) : bool := match class_of h obj with CRegExp _ => true | _ => false end.
Definition isFunction (obj : val) : bool := match class_of h obj with CFunction => true | _ => false end.
Definition isArray (obj : val) : bool := match class_of h obj with CArr _ _ => true | _ => false end.
Definition isBoolean (obj : val) : bool :=
  val_seq obj (VBool true) || val_seq obj (VBool false)
  || match class_of h obj with CBoolean _ => true | _ => false end.
Definition isNull (obj : val) : bool := val_seq obj VNull.
Definition isUndefined (obj : val) : bool := val_seq obj VUndefined.
(** [typeof]: a function or an object; the type of [null] is object too. *)
Definition isObject (obj : val) : bool := match obj with VRef _ => true | _ => false end.

(** [+obj] for a value of the class [Number]. *)
Definition unary_plus (obj : val) : val :=
  match class_of h obj with CNumber n => VNum n | _ => VNum NaN end.
Definition isNaN (obj : val) : bool := isNumber obj && negb (val_seq obj (unary_plus obj)).

(** The own properties of an object that [for ... in] visits: the names of an
    array and of a text are its indices. *)
Definition own_props (obj : val) : list (jsstr * val) :=
  match class_of h obj with CObj _ ps => ps | _ => [] end.
(** The own names of a value; [length] is one of an array and of a text. *)
Context (index_name : nat → jsstr).
Definition own_names (obj : val) : list jsstr :=
  match class_of h obj with
  | CObj _ ps => ps.*1
  | CArr _ els => (index_name <$> seq 0 (length els)) ++ [js "length"]
  | CString s => (index_name <$> seq 0 (length s)) ++ [js "length"]
  | _ => []
  end.
Definition has (obj : val) (key : jsstr) : bool :=
  negb (is_nullish obj) && bool_decide (key ∈ own_names obj).
Definition isElement (obj : val) : bool :=
  match obj_get (js "nodeType") (own_props obj) with
  | Some v => val_seq v (VNum (Int 1))
  | None => false
  end.
Definition isEmpty (obj : val) : bool :=
  if is_nullish obj then true
  else match class_of h obj with
       | CArr _ els => length els =? 0
       | CString s => length s =? 0
       | _ => negb (existsb (λ p, has obj p.1) (own_props obj))
       end.
End tests.

(** ** The tests agree with each other *)

Section facts.
Variable h : heap.

(** The values of the heap. *)
Definition on_heap (obj : val) : Prop := match obj with VRef l => l < length h | _ => True end.

(** The tests of a value, in one list; the last one is any other object. *)
Definition other_object (obj : val) : bool :=
  match class_of h obj with CObj _ _ => true | _ => false end.
Definition tests : list (val → bool) :=
  [isUndefined; isNull; isBoolean h; isNumber h; isString h; isDate h; isRegExp h; isFunction h; isArray h;
   other_object].

(** Every value passes exactly one of the tests. *)
Lemma exactly_one_test obj : on_heap obj → length (filter (λ t, Is_true (t obj)) tests) = 1.
Proof.
  intros Ho. destruct obj as [| |[]|n|s|l]; [reflexivity..|].
  simpl in Ho. apply lookup_lt_is_Some_2 in Ho as [o Ho].
  unfold tests. rewrite !filter_cons.
  unfold isUndefined, isNull, isBoolean, isNumber, isString, isDate, isRegExp, isFunction, isArray, other_object, class_of.
  rewrite Ho. by destruct o as [c []].
Qed.

(** [isNaN] holds of NaN among the numbers, and of every Number object, whatever
    its number is: an object is never equal to its own number. *)
Lemma isNaN_spec obj :
  isNaN h obj = true ↔ obj = VNum NaN ∨ ∃ l n, obj = VRef l ∧ o_body <$> h !! l = Some (ONum n).
Proof.
  unfold isNaN, isNumber, unary_plus. split.
  - destruct obj as [| |b|n|s|l]; try done.
    + simpl. destruct n as [| | | |z]; try done; [by left|]. simpl. by rewrite Z.eqb_refl.
    + unfold class_of. destruct (o_body <$> h !! l) as [[]|] eqn:E; try done. eauto.
  - intros [->|(l & n & -> & E)]; [done|]. unfold class_of. by rewrite E.
Qed.

(** An object without properties of its own is empty, and only such objects are. *)
Lemma isEmpty_object index_name l ps c :
  h !! l = Some (MkObject c (OObject ps)) → isEmpty h index_name (VRef l) = true ↔ ps = [].
Proof.
  intros Hl. unfold isEmpty, own_props, class_of. simpl. rewrite Hl. simpl. split.
  - destruct ps as [|[k v] ps]; [done|]. simpl. unfold has, own_names, class_of. rewrite Hl. simpl.
    rewrite bool_decide_true by (by left). done.
  - by intros ->.
Qed.
End facts.
End T.
