(* ===== verification/UObjects.v ===== *)
(** * Object functions of underscore.js

    An object has its own properties and the enumerable ones it inherits; the
    names of [Object.prototype] itself are not modelled.  [for ... in] visits the
    own properties, then the inherited ones they do not hide. *)

From stdpp Require Import base tactics list strings numbers sets gmap.
From Stdlib Require Import ZArith Lia.
From S2P Require Import Prelude.
From S2P Require Import JsString.
From S2P Require Import JsNum.
From S2P Require Import JsArray.
From S2P Require Import UCollections.
From S2P Require Import UArrays.

Module O.

Section objects.
Context {V : Type} (is_undefined : V → bool).

Record jsobj := JsObj {
  own : list (jsstr * V);
  proto : list (jsstr * V);
}.
Definition plain (ps : list (jsstr * V)) : jsobj := JsObj ps [].

Definition has (o : jsobj) (k : jsstr) : bool := obj_has k (own o).
(** [o[k]] and [k in o]. *)
Definition get (o : jsobj) (k : jsstr) : option V :=
  match obj_get k (own o) with Some v => Some v | None => obj_get k (proto o) end.
Definition in_ (k : jsstr) (o : jsobj) : bool := obj_has k (own o) || obj_has k (proto o).
(** The visits of [for (k in o)]. *)
Definition for_in (o : jsobj) : list (jsstr * V) :=
  own o ++ base.filter (λ p, Is_true (negb (obj_has p.1 (own o)))) (proto o).

Definition keys (o : jsobj) : list jsstr := obj_keys (own o).
Definition values (o : jsobj) : list V := (own o).*2.
Definition pairs (o : jsobj) : list (jsstr * V) :=
  omap (λ k, (λ v, (k, v)) <$> obj_get k (own o)) (keys o).

Definition assign (o : jsobj) (p : jsstr * V) : jsobj := JsObj (obj_set p.1 p.2 (own o)) (proto o).
(** [extend]: the own properties of the sources, one source after the other. *)
Definition extend (o : jsobj) (sources : list jsobj) : jsobj :=
  foldl (λ o source, foldl (λ o p, if has source p.1 then assign o p else o) o (for_in source))
    o sources.
(** [defaults]: every visible property of the sources that reads as undefined. *)
Definition defaults (o : jsobj) (sources : list jsobj) : jsobj :=
  foldl (λ o source,
    foldl (λ o p, if match get o p.1 with None => true | Some v => is_undefined v end
                  then assign o p else o) o (for_in source))
    o sources.

Definition pick_fn (o : jsobj) (f : V → jsstr → bool) : jsobj :=
  foldl (λ r p, if f p.2 p.1 then assign r p else r) (plain []) (for_in o).
Definition pick (o : jsobj) (ks : list jsstr) : jsobj :=
  foldl (λ r k, match get o k with Some v => assign r (k, v) | None => r end) (plain []) ks.
Definition omit_fn (o : jsobj) (f : V → jsstr → bool) : jsobj := pick_fn o (λ v k, negb (f v k)).
Definition omit (o : jsobj) (ks : list jsstr) : jsobj :=
  pick_fn o (λ _ k, negb (U.contains (CArray ks) k)).
Definition clone (o : jsobj) : jsobj := extend (plain []) [o].
Definition isEmpty (o : jsobj) : bool := negb (existsb (λ p, has o p.1) (for_in o)).

(** [matches(attrs)]: [None] is [null] or [undefined]. *)
Definition matches `{StrictEq V} (attrs : jsobj) (o : option jsobj) : bool :=
  match o with
  | None => length (own attrs) =? 0
  | Some o =>
      forallb (λ p, match get o p.1 with
                    | Some v => seq_eq p.2 v && in_ p.1 o
                    | None => false
                    end) (own attrs)
  end.
Definition where_ `{StrictEq V} (l : list jsobj) (attrs : jsobj) : list jsobj :=
  match run_pure (U.filter (CArray l) (λ o _, mret (matches attrs (Some o)))) with
  | Ok r => r
  | Throw _ => []
  end.
Definition findWhere `{StrictEq V} (l : list jsobj) (attrs : jsobj) : option jsobj :=
  match run_pure (U.find (CArray l) (λ o _, mret (matches attrs (Some o)))) with
  | Ok r => r
  | Throw _ => None
  end.
Definition pluck (l : list jsobj) (k : jsstr) : list (option V) :=
  match run_pure (U.map (CArray l) (λ o _, mret (get o k))) with
  | Ok r => r
  | Throw _ => []
  end.
End objects.
Arguments jsobj : clear implicits.
Arguments JsObj {V}.

(** [invert]: the values, as names, with the names as values. *)
Definition invert (o : jsobj jsstr) : jsobj jsstr :=
  plain (foldl (λ r k, match obj_get k (own o) with
                       | Some v => obj_set v k r
                       | None => r
                       end) [] (keys o)).

(** ** Lookups after the loops *)

Section lookups.
Context {V : Type} (is_undefined : V → bool).
Implicit Types o : jsobj V.

(** A name is listed once, among the own properties and among the inherited ones. *)
Definition wf o : Prop := obj_wf (own o) ∧ obj_wf (proto o).

Lemma obj_get_app k (l l' : list (jsstr * V)) :
  obj_get k (l ++ l') = match obj_get k l with Some v => Some v | None => obj_get k l' end.
Proof. induction l as [|[k1 v1] l IH]; simpl; [done|]. by destruct (str_eqb k k1). Qed.

Lemma obj_get_filter k (l : list (jsstr * V)) (c : jsstr → bool) :
  obj_get k (base.filter (λ p, Is_true (c p.1)) l) = if c k then obj_get k l else None.
Proof.
  induction l as [|[k1 v1] l IH]; [by destruct (c k)|]. rewrite filter_cons. simpl.
  destruct (c k1) eqn:E; simpl; destruct (str_eqb_spec k k1) as [->|]; rewrite ?IH, ?E; done.
Qed.

Lemma for_in_get o k : obj_get k (for_in o) = get o k.
Proof.
  unfold for_in, get. rewrite obj_get_app, (obj_get_filter k _ (λ k, negb (obj_has k (own o)))).
  destruct (obj_get k (own o)) eqn:E; [done|]. unfold obj_has. by rewrite E.
Qed.

Lemma for_in_wf o : wf o → obj_wf (for_in o).
Proof.
  intros [H1 H2]. unfold for_in, obj_wf, obj_keys in *. rewrite fmap_app. apply NoDup_app.
  split; [done|]. split.
  - intros k Hk (p & -> & [Hp _]%list_elem_of_filter)%list_elem_of_fmap.
    apply Is_true_true, negb_true_iff in Hp. apply not_true_iff_false in Hp. apply Hp.
    by apply obj_has_true.
  - revert H2. induction (proto o) as [|p l IH]; [done|]. rewrite fmap_cons. intros [Hp Hl]%NoDup_cons.
    rewrite filter_cons. case_decide; [|by apply IH]. rewrite fmap_cons. constructor; [|by apply IH].
    intros (q & Hq & [_ Hin]%list_elem_of_filter)%list_elem_of_fmap. apply Hp.
    rewrite Hq. by apply list_elem_of_fmap_2.
Qed.

Lemma assign_own o p : own (assign o p) = obj_set p.1 p.2 (own o).
Proof. done. Qed.

(** A loop that assigns the properties of [l] that satisfy a test. *)
Lemma assign_loop (c : jsstr * V → bool) (l : list (jsstr * V)) o k :
  obj_wf l →
  obj_get k (own (foldl (λ r p, if c p then assign r p else r) o l)) =
    match obj_get k l with
    | Some v => if c (k, v) then Some v else obj_get k (own o)
    | None => obj_get k (own o)
    end.
Proof.
  unfold obj_wf, obj_keys. revert o. induction l as [|[k1 v1] l IH]; intros o Hl; [done|].
  rewrite fmap_cons in Hl. apply NoDup_cons in Hl as [Hn Hl]. cbn [foldl obj_get]. rewrite IH by done.
  destruct (str_eqb_spec k k1) as [->|Hne].
  - rewrite (proj2 (obj_get_None k1 l)) by done. destruct (c (k1, v1)); [|done].
    simpl. by rewrite obj_get_set, decide_True.
  - destruct (c (k1, v1)); [|done]. simpl. by rewrite obj_get_set, decide_False.
Qed.
Lemma assign_loop_proto (c : jsobj V → jsstr * V → bool) (l : list (jsstr * V)) o :
  proto (foldl (λ r p, if c r p then assign r p else r) o l) = proto o.
Proof.
  revert o. induction l as [|p l IH]; intros o; [done|]. cbn [foldl]. rewrite IH.
  by destruct (c o p).
Qed.

Lemma extend_own o sources k :
  Forall wf sources →
  obj_get k (own (extend o sources)) =
    foldl (λ r s, match obj_get k (own s) with Some v => Some v | None => r end)
      (obj_get k (own o)) sources.
Proof.
  intros Hs. revert o. induction Hs as [|s sources Hw Hs IH]; intros o; [done|].
  cbn [foldl extend]. unfold extend in IH. rewrite IH. f_equal.
  rewrite (assign_loop (λ p, has s p.1)) by (by apply for_in_wf). rewrite for_in_get.
  unfold get, has, obj_has. simpl. destruct (obj_get k (own s)); [done|].
  by destruct (obj_get k (proto s)).
Qed.

(** [a] if it reads as a value, else [b] if there is one. *)
Definition or_else (a b : option V) : option V :=
  match a with
  | Some v => if is_undefined v then match b with Some w => Some w | None => a end else a
  | None => b
  end.

Lemma default_loop (l : list (jsstr * V)) o k :
  obj_wf l →
  get (foldl (λ o p, if match get o p.1 with None => true | Some v => is_undefined v end
                     then assign o p else o) o l) k = or_else (get o k) (obj_get k l).
Proof.
  unfold obj_wf, obj_keys. revert o. induction l as [|[k1 v1] l IH]; intros o Hl.
  { simpl. unfold or_else. destruct (get o k) as [v|]; [|done]. by destruct (is_undefined v). }
  rewrite fmap_cons in Hl. apply NoDup_cons in Hl as [Hn Hl]. cbn [foldl obj_get fst]. rewrite IH by done.
  set (b := match get o k1 with None => true | Some v => is_undefined v end).
  destruct (str_eqb_spec k k1) as [->|Hne].
  - rewrite (proj2 (obj_get_None k1 l)) by done. unfold b.
    assert (Ha : get (assign o (k1, v1)) k1 = Some v1).
    { unfold get. simpl. by rewrite obj_get_set, decide_True. }
    destruct (get o k1) as [v|] eqn:E; [destruct (is_undefined v) eqn:Eu|].
    + rewrite Ha. unfold or_else. rewrite Eu. by destruct (is_undefined v1).
    + rewrite E. unfold or_else. by rewrite Eu.
    + rewrite Ha. unfold or_else. by destruct (is_undefined v1).
  - f_equal. destruct b; [|done]. unfold get. simpl. by rewrite obj_get_set, decide_False.
Qed.

Lemma defaults_get o sources k :
  Forall wf sources →
  get (defaults is_undefined o sources) k =
    foldl (λ r s, or_else r (get s k)) (get o k) sources.
Proof.
  intros Hs. revert o. induction Hs as [|s sources Hw Hs IH]; intros o; [done|].
  cbn [foldl defaults]. unfold defaults in IH. rewrite IH. f_equal.
  rewrite default_loop by (by apply for_in_wf). by rewrite for_in_get.
Qed.

Lemma pick_get o ks k : get (pick o ks) k = if decide (k ∈ ks) then get o k else None.
Proof.
  unfold pick. assert (Hg : ∀ r, proto r = [] →
    get (foldl (λ r k, match get o k with Some v => assign r (k, v) | None => r end) r ks) k =
    if decide (k ∈ ks) then match get o k with Some v => Some v | None => get r k end else get r k).
  { induction ks as [|k1 ks IH]; intros r Hr.
    { rewrite decide_False by apply not_elem_of_nil. done. }
    cbn [foldl]. rewrite IH by (by destruct (get o k1)).
    assert (Hr1 : get (match get o k1 with Some v => assign r (k1, v) | None => r end) k =
      if decide (k = k1) then match get o k with Some v => Some v | None => get r k end else get r k).
    { destruct (decide (k = k1)) as [->|Hne].
      - destruct (get o k1); [|done]. unfold get. simpl. by rewrite obj_get_set, decide_True.
      - destruct (get o k1); [|done]. unfold get. simpl. by rewrite obj_get_set, decide_False. }
    rewrite Hr1. destruct (decide (k = k1)) as [->|Hne].
    - rewrite (decide_True (P := k1 ∈ k1 :: ks)) by (by left).
      destruct (decide (k1 ∈ ks)); by destruct (get o k1).
    - destruct (decide (k ∈ ks)) as [Hin|Hin].
      + rewrite decide_True by (by right). done.
      + rewrite decide_False by (rewrite elem_of_cons; tauto). done. }
  rewrite Hg by done. destruct (decide (k ∈ ks)); [|done]. by destruct (get o k).
Qed.

Lemma pick_fn_get o f k : wf o →
  get (pick_fn o f) k = match get o k with Some v => if f v k then Some v else None | None => None end.
Proof.
  intros Hw. unfold get at 1, pick_fn.
  rewrite (assign_loop (λ p, f p.2 p.1)) by (by apply for_in_wf). rewrite for_in_get.
  rewrite (assign_loop_proto (λ _ p, f p.2 p.1)). simpl.
  destruct (get o k) as [v|]; [|done]. by destruct (f v k).
Qed.
End lookups.

(** After [_.extend] a name has the value of the last source that owns it;
    after [_.defaults] it has the first value, of the object or of a source, that
    is not undefined. *)
Theorem extend_defaults_spec {V} (is_undefined : V → bool) (o : jsobj V) (sources : list (jsobj V))
    (k : jsstr) :
  Forall wf sources →
  obj_get k (own (extend o sources)) =
    foldl (λ r s, match obj_get k (own s) with Some v => Some v | None => r end)
      (obj_get k (own o)) sources ∧
  get (defaults is_undefined o sources) k =
    foldl (λ r s, or_else is_undefined r (get s k)) (get o k) sources.
Proof. split; [by apply extend_own|by apply defaults_get]. Qed.

Lemma extend_defaults_spec_witness :
  let a := plain [(js "x", 1); (js "y", 0)] in
  let b := plain [(js "y", 2); (js "z", 3)] in
  get (extend a [b]) (js "y") = Some 2 ∧
  get (defaults (λ n, n =? 0) a [b]) (js "y") = Some 2.
Proof.
  destruct (extend_defaults_spec (λ n, n =? 0) (plain [(js "x", 1); (js "y", 0)])
    [plain [(js "y", 2); (js "z", 3)]] (js "y")) as [H1 H2].
  - constructor; [|constructor]. split; (eapply bool_decide_unpack; vm_compute; exact I).
  - split; [vm_compute; reflexivity|exact H2].
Defined.

(** [_.pick] and [_.omit] with the same names split an object: a visible
    property is in exactly one of the two, with its value. *)
Theorem pick_omit_split {V} (o : jsobj V) (ks : list jsstr) (k : jsstr) :
  wf o →
  get (pick o ks) k = (if decide (k ∈ ks) then get o k else None) ∧
  get (omit o ks) k = (if decide (k ∈ ks) then None else get o k).
Proof.
  intros Hw. split; [apply pick_get|]. unfold omit. rewrite pick_fn_get by done.
  destruct (decide (k ∈ ks)) as [Hin|Hin].
  - apply contains_str_elem in Hin. rewrite Hin. by destruct (get o k).
  - destruct (U.contains (CArray ks) k) eqn:E; [by apply contains_str_elem in E|].
    by destruct (get o k).
Qed.

Lemma pick_omit_split_witness :
  get (omit (plain [(js "x", 1); (js "y", 2)]) [js "x"]) (js "y") = Some 2.
Proof.
  apply (pick_omit_split (plain [(js "x", 1); (js "y", 2)]) [js "x"] (js "y")).
  split; (eapply bool_decide_unpack; vm_compute; exact I).
Defined.

(** ** Inverting *)

Definition swap (p : jsstr * jsstr) : jsstr * jsstr := (p.2, p.1).

Lemma obj_set_new {B} k (v : B) l : k ∉ obj_keys l → obj_set k v l = l ++ [(k, v)].
Proof.
  unfold obj_keys. induction l as [|[k1 v1] l IH]; intros Hk; [done|]. simpl.
  rewrite fmap_cons in Hk. destruct (str_eqb_spec k k1) as [->|]; [destruct Hk; by left|].
  f_equal. apply IH. intros Hin. apply Hk. by right.
Qed.

Lemma invert_swap (l : list (jsstr * jsstr)) :
  obj_wf l → NoDup l.*2 → own (invert (plain l)) = swap <$> l.
Proof.
  intros Hl Hv. unfold invert, keys, plain. simpl.
  assert (Hg : ∀ done rest, l = done ++ rest →
    foldl (λ r k, match obj_get k l with Some v => obj_set v k r | None => r end)
      (swap <$> done) (obj_keys rest) = swap <$> l); [|by apply (Hg [] l)].
  intros done rest. revert done. induction rest as [|[k v] rest IH]; intros done Hd.
  - rewrite app_nil_r in Hd. by subst.
  - unfold obj_keys. rewrite fmap_cons. cbn [foldl fst].
    rewrite (proj2 (obj_get_elem k v l Hl)) by (rewrite Hd; apply elem_of_app; right; by left).
    rewrite obj_set_new.
    + replace ((swap <$> done) ++ [(v, k)]) with (swap <$> (done ++ [(k, v)])) by (by rewrite fmap_app).
      apply IH. by rewrite Hd, <- (assoc_L (++)).
    + unfold obj_keys. rewrite <- list_fmap_compose. intros (p & Hp & Hin)%list_elem_of_fmap.
      simpl in Hp. rewrite Hd, fmap_app, fmap_cons in Hv. apply NoDup_app in Hv as (_ & Hv & _).
      apply (Hv p.2); [by apply list_elem_of_fmap_2|]. rewrite <- Hp. by left.
Qed.

(** When the values are distinct names, inverting an object twice gives back its
    properties, in the same order. *)
Theorem invert_involutive (l : list (jsstr * jsstr)) :
  obj_wf l → NoDup l.*2 → own (invert (invert (plain l))) = l.
Proof.
  intros Hl Hv.
  assert (E : invert (plain l) = plain (swap <$> l)).
  { unfold invert at 1, plain. f_equal. by apply invert_swap. }
  rewrite E, invert_swap.
  - rewrite <- list_fmap_compose. rewrite <- (list_fmap_id l) at 2. apply list_fmap_ext. by intros i [k v] _.
  - unfold obj_wf, obj_keys. by rewrite <- list_fmap_compose.
  - rewrite <- list_fmap_compose. exact Hl.
Qed.

Lemma invert_involutive_witness :
  own (invert (invert (plain [(js "&", js "&amp;"); (js "<", js "&lt;")]))) =
    [(js "&", js "&amp;"); (js "<", js "&lt;")].
Proof. apply invert_involutive; (eapply bool_decide_unpack; vm_compute; exact I). Defined.

End O.
