(* ===== verification/UTemplate.v ===== *)
(** * Escaping and templates of underscore.js

    [escape] and [unescape] are made by [createEscaper] from a map of texts;
    [template] writes the source of a function from a text with delimited code.
    The functions that scan a text with a regular expression are related to
    scanners without one: [subst] for the escapers, [erb] for the delimiters.
    Compiling the source of a template is the engine's: it is a parameter. *)

From stdpp Require Import base tactics list strings numbers sets gmap.
From Stdlib Require Import NArith Lia.
From S2P Require Import Prelude.
From S2P Require Import JsString.
From S2P Require Import Regex.
From S2P Require Import JsArray.
From S2P Require Import UObjects.
From S2P Require Import Uri.

Module Esc.

(** The entities, in the order of the source; [unescapeMap] is the inverse map. *)
Definition escapeMap : O.jsobj jsstr := O.plain
  [(js "&", js "&amp;"); (js "<", js "&lt;"); (js ">", js "&gt;");
   ([34%N], js "&quot;"); (js "'", js "&#x27;"); (js "`", js "&#x60;")].
Definition unescapeMap : O.jsobj jsstr := O.invert escapeMap.

(** [map[match]], written into a text. *)
Definition replacement (map : O.jsobj jsstr) (m : match_result) : jsstr :=
  default (js "undefined") (O.get map (r_text m)).
(** The pattern that [RegExp(source)] reads when no key has a special unit. *)
Definition source (map : O.jsobj jsstr) : regex := alts (lit_units <$> O.keys map).
(** [None] is [null] or [undefined]. *)
Definition createEscaper (map : O.jsobj jsstr) (string : option jsstr) : jsstr :=
  let string := default [] string in
  if test (source map) string then replace_all (source map) (replacement map) string else string.
Definition escape : option jsstr → jsstr := createEscaper escapeMap.
Definition unescape : option jsstr → jsstr := createEscaper unescapeMap.

(** The units that have a meaning in a pattern: no key has one. *)
Definition special (c : N) : bool := cls "\^$.*+?()[]{}|/" c.

(** ** The reference: one pass over the text

    At each unit the first key that the rest of the text begins with is replaced
    and skipped; the other units stay. *)
Fixpoint subst (map : list (jsstr * jsstr)) (skip : nat) (s : jsstr) : jsstr :=
  match s with
  | [] => []
  | c :: s' =>
      match skip with
      | S k => subst map k s'
      | 0 =>
          match List.find (λ p, prefixb p.1 s) map with
          | Some (k, v) => v ++ subst map (length k - 1) s'
          | None => c :: subst map 0 s'
          end
      end
  end.
End Esc.

Module EscFacts.
Import Esc.

Lemma keys_plain : Forall (λ k, existsb special k = false) (O.keys escapeMap ++ O.keys unescapeMap).
Proof. by repeat constructor. Qed.

Lemma subst_skip map k s : subst map k s = subst map 0 (drop k s).
Proof. revert k. induction s as [|c s IH]; intros [|k]; [done..|]. simpl subst at 1. by rewrite IH. Qed.

(** ** The matcher of an alternation of texts *)

Lemma run_lit t st : run (lit_units t) st = if prefixb t (m_rest st) then [advance (length t) st] else [].
Proof.
  revert st. induction t as [|c t IH]; intros st.
  - simpl. by rewrite advance_0.
  - destruct t as [|d t].
    + simpl. destruct (m_rest st) as [|x rest]; [done|]. simpl. destruct (N.eqb c x); [|done]. done.
    + change (run (lit_units (c :: d :: t)) st) with (run (RSet (N.eqb c)) st ≫= run (lit_units (d :: t))).
      simpl run. destruct (m_rest st) as [|x rest] eqn:E; [done|].
      cbn [prefixb]. destruct (N.eqb c x) eqn:Ex; simpl.
      * rewrite app_nil_r, IH. simpl m_rest. rewrite E. simpl drop. rewrite drop_0.
        destruct (prefixb (d :: t) rest) eqn:Ep; cbn [prefixb] in Ep; rewrite Ep; [|done].
        by rewrite advance_advance.
      * done.
Qed.

Lemma run_alts_list l st : run (alts l) st = l ≫= λ r, run r st.
Proof.
  induction l as [|r l IH].
  - simpl. by destruct (m_rest st).
  - destruct l as [|r' l]; [simpl; by rewrite app_nil_r|].
    change (run (alts (r :: r' :: l)) st) with (run r st ++ run (alts (r' :: l)) st).
    by rewrite IH.
Qed.

Definition alts_run (ks : list jsstr) (st : mstate) : list mstate :=
  (lit_units <$> ks) ≫= λ r, run r st.

Lemma head_keys ks st :
  head (alts_run ks st) = (λ k, advance (length k) st) <$> List.find (λ k, prefixb k (m_rest st)) ks.
Proof.
  unfold alts_run. induction ks as [|k ks IH]; [done|]. rewrite fmap_cons, bind_cons, run_lit. simpl.
  by destruct (prefixb k (m_rest st)).
Qed.

Lemma match_keys ks pos rest :
  match_at (alts (lit_units <$> ks)) pos rest =
    (λ k, MatchResult pos k ∅ (drop (length k) rest)) <$> List.find (λ k, prefixb k rest) ks.
Proof.
  unfold match_at. rewrite run_alts_list. fold (alts_run ks (MState pos rest ∅)). rewrite head_keys. cbn [m_rest].
  destruct (List.find _ ks) as [k|] eqn:E; [|done]. simpl. f_equal.
  apply List.find_some in E as [_ [u ->]%prefixb_spec].
  unfold consumed. cbn [m_pos m_rest m_caps advance].
  replace (pos + length k - pos) with (length k) by lia. by rewrite take_app_length.
Qed.

(** ** A global replacement of an alternation is one pass over the text *)

Lemma find_key (map : list (jsstr * jsstr)) (s : jsstr) :
  List.find (λ k, prefixb k s) map.*1 = fst <$> List.find (λ p, prefixb p.1 s) map.
Proof. induction map as [|[k v] l IH]; [done|]. simpl. by destruct (prefixb k s). Qed.

Section replacement.
Context (map : list (jsstr * jsstr)) (f : match_result → jsstr).
Hypothesis Hkeys : Forall (λ p, p.1 ≠ []) map.
Hypothesis Hf : ∀ m v, (r_text m, v) ∈ map → f m = v.
Local Abbreviation r := (alts (lit_units <$> map.*1)).

Lemma search_keys pos rest :
  match search_from r pos rest with
  | None => subst map 0 rest = rest
  | Some m => r_text m ≠ [] ∧ length (r_after m) < length rest ∧
      subst map 0 rest = take (r_index m - pos) rest ++ f m ++ subst map 0 (r_after m) ∧ pos ≤ r_index m
  end.
Proof.
  revert pos. induction rest as [|c rest IH]; intros pos; simpl; rewrite match_keys, find_key.
  - destruct (List.find _ map) as [[k v]|] eqn:E; simpl; [|done].
    apply List.find_some in E as [Hin Hp]. rewrite Forall_forall in Hkeys.
    apply list_elem_of_In in Hin. destruct k; [by destruct (Hkeys _ Hin)|done].
  - destruct (List.find _ map) as [[k v]|] eqn:E; simpl.
    + pose proof E as [Hin Hp]%List.find_some. apply list_elem_of_In in Hin.
      pose proof (proj1 (Forall_forall _ _) Hkeys _ Hin) as Hk. simpl in Hk, Hp.
      destruct k as [|d k]; [done|]. split; [done|]. split; [simpl; rewrite length_drop; lia|].
      split; [|done]. rewrite Nat.sub_diag, (Hf _ v) by done. cbn [take app length drop].
      by rewrite Nat.sub_succ, Nat.sub_0_r, subst_skip.
    + specialize (IH (S pos)). destruct (search_from r (S pos) rest) as [m|].
      * destruct IH as (H1 & H2 & H3 & H4). split; [done|]. split; [lia|]. split; [|lia].
        rewrite H3. by replace (r_index m - pos) with (S (r_index m - S pos)) by lia.
      * by rewrite IH.
Qed.

Lemma pieces_keys fuel pos rest :
  length rest < fuel →
  (pieces_loop r fuel pos rest ≫= λ p, match p with Between t => t | Hit m => f m end) = subst map 0 rest.
Proof.
  revert pos rest. induction fuel as [|fuel IH]; intros pos rest Hl; [lia|].
  cbn [pieces_loop]. pose proof (search_keys pos rest) as Hs.
  destruct (search_from r pos rest) as [m|].
  - destruct Hs as (H1 & H2 & -> & H4). rewrite !bind_cons.
    destruct (r_text m) eqn:Et; [done|]. by rewrite IH by lia.
  - rewrite Hs. simpl. by rewrite app_nil_r.
Qed.

Lemma replace_all_keys s : replace_all r f s = subst map 0 s.
Proof. apply pieces_keys. lia. Qed.
End replacement.

Lemma createEscaper_subst map s :
  O.proto map = [] → obj_wf (O.own map) → Forall (λ p, p.1 ≠ []) (O.own map) →
  createEscaper map (Some s) = subst (O.own map) 0 s.
Proof.
  intros Hp Hwf Hk. unfold createEscaper. simpl. rewrite <- (replace_all_keys _ (replacement map)); [|done|].
  - destruct (test (source map) s) eqn:Et; [done|]. symmetry. by apply replace_all_miss.
  - intros m v Hin. unfold replacement, O.get. by rewrite (proj2 (obj_get_elem _ v _ Hwf) Hin).
Qed.

(** A map whose keys are single units replaces unit by unit. *)
Definition unit_key (p : jsstr * jsstr) : bool := length p.1 =? 1.

Lemma find_unit map c s :
  forallb unit_key map = true →
  List.find (λ p, prefixb p.1 (c :: s)) map = (λ v, ([c], v)) <$> obj_get [c] map.
Proof.
  induction map as [|[k v] map IH]; [done|]. simpl. rewrite andb_true_iff. intros [Hk Hm].
  destruct k as [|d [|? ?]]; try done. simpl. unfold str_eqb. rewrite andb_true_r.
  destruct (N.eqb_spec d c) as [->|Hd]; [by rewrite bool_decide_true|].
  rewrite bool_decide_false by congruence. by apply IH.
Qed.

Lemma subst_units map s :
  forallb unit_key map = true → subst map 0 s = s ≫= λ c, default [c] (obj_get [c] map).
Proof.
  intros Hm. induction s as [|c s IH]; [done|]. simpl subst. rewrite (find_unit map c s Hm), bind_cons, <- IH.
  by destruct (obj_get [c] map).
Qed.

(** ** The two maps of the source *)

Definition escape_unit (c : N) : jsstr := default [c] (obj_get [c] (O.own escapeMap)).

Lemma unescapeMap_own :
  O.own unescapeMap = [(js "&amp;", js "&"); (js "&lt;", js "<"); (js "&gt;", js ">");
                       (js "&quot;", [34%N]); (js "&#x27;", js "'"); (js "&#x60;", js "`")].
Proof. reflexivity. Qed.

Lemma escape_wf : obj_wf (O.own escapeMap).
Proof. apply (bool_decide_unpack _). by vm_compute. Qed.
Lemma unescape_wf : obj_wf (O.own unescapeMap).
Proof. apply (bool_decide_unpack _). by vm_compute. Qed.

Lemma escape_bind s : escape (Some s) = s ≫= escape_unit.
Proof.
  unfold escape. rewrite createEscaper_subst; [by apply subst_units|done|apply escape_wf|by repeat constructor].
Qed.

Lemma unescape_subst s : unescape (Some s) = subst (O.own unescapeMap) 0 s.
Proof. apply createEscaper_subst; [done|apply unescape_wf|by repeat constructor]. Qed.

(** A unit stands for itself, or it is one of the keys and its entity begins with
    an ampersand and has no unit that is escaped after it. *)
Definition entities : list jsstr := (O.own escapeMap).*2.
Definition markup (c : N) : bool := existsb (N.eqb c) (js "<>'`" ++ [34%N]).

Lemma escape_unit_cases c :
  (escape_unit c = [c] ∧ markup c = false ∧ c ≠ 38%N) ∨
  (c, escape_unit c) ∈ ((λ p, (default 0%N (head p.1), p.2)) <$> O.own escapeMap).
Proof.
  unfold escape_unit. destruct (obj_get [c] (O.own escapeMap)) as [v|] eqn:E.
  - right. apply (obj_get_elem _ _ _ escape_wf) in E. apply list_elem_of_fmap. by exists ([c], v).
  - left. split; [done|]. apply obj_get_None in E.
    assert (Hn : ∀ d, [d] ∈ obj_keys (O.own escapeMap) → c ≠ d) by (intros d Hd ->; done).
    split; [|apply Hn; apply (bool_decide_unpack _); by vm_compute].
    unfold markup. apply not_true_iff_false. rewrite existsb_exists. intros (d & Hd%list_elem_of_In & ->%N.eqb_eq).
    refine (Hn d _ eq_refl). clear E Hn. revert d Hd. apply Forall_forall. apply (bool_decide_unpack _). by vm_compute.
Qed.

(** What every entity of the map satisfies, by evaluation. *)
Definition entity_ok (p : N * jsstr) : bool :=
  match p.2 with
  | d :: e => N.eqb d 38 && forallb (λ x, negb (N.eqb x 38) && negb (markup x)) e
  | [] => false
  end && (bool_decide (p.2 ∈ entities)).

Lemma entities_ok p : p ∈ ((λ p, (default 0%N (head p.1), p.2)) <$> O.own escapeMap) → entity_ok p = true.
Proof. revert p. apply Forall_forall. by repeat constructor. Qed.

(** The text that escape returns has no unit of the markup (angle brackets,
    quotes and the back quote), and each ampersand in it begins one of the six
    entities: nothing in an escaped text can open a tag, end an attribute's value
    or be read as any other entity. *)
Theorem escape_safe s :
  (∀ c, c ∈ escape s → markup c = false) ∧
  (∀ a b, escape s = a ++ 38%N :: b → ∃ e, e ∈ entities ∧ prefixb e (38%N :: b) = true).
Proof.
  destruct s as [s|]; [|split; [by intros c Hc%elem_of_nil|by intros [|??] b]].
  rewrite escape_bind. induction s as [|c s [IH1 IH2]]; [split; [by intros c Hc%elem_of_nil|by intros [|??] b]|].
  rewrite bind_cons. destruct (escape_unit_cases c) as [(-> & Hm & H38)|Hin].
  - split.
    + intros d [->|Hd]%elem_of_cons; [done|by apply IH1].
    + intros [|x a] b [= Hx Hb]; [done|by apply (IH2 a)].
  - apply entities_ok in Hin. unfold entity_ok in Hin. simpl in Hin.
    apply andb_true_iff in Hin as [He Hent%bool_decide_eq_true].
    destruct (escape_unit c) as [|d e] eqn:Ee; [done|].
    apply andb_true_iff in He as [->%N.eqb_eq He]. rewrite forallb_forall in He.
    assert (Hn : ∀ x, x ∈ e → x ≠ 38%N ∧ markup x = false).
    { intros x Hx%list_elem_of_In%He. apply andb_true_iff in Hx as [?%negb_true_iff%N.eqb_neq ?%negb_true_iff]. done. }
    split.
    + intros x. rewrite elem_of_app, elem_of_cons. intros [[->|Hx]|Hx]; [done|by apply Hn|by apply IH1].
    + intros [|x a] b Hb; simpl in Hb; [injection Hb as Hb|injection Hb as _ Hb].
      * exists (38%N :: e). split; [done|]. rewrite <- Hb. apply prefixb_app.
      * apply app_eq_inv in Hb as [(l & -> & Hl)|(l & -> & Hl)].
        -- destruct l as [|y l]; [by apply (IH2 []); rewrite Hl|]. injection Hl as <- Hl.
           destruct (Hn 38%N) as [? _]; [set_solver|done].
        -- by apply (IH2 l).
Qed.

Lemma find_other c s :
  c ≠ 38%N → List.find (λ p, prefixb p.1 (c :: s)) (O.own unescapeMap) = None.
Proof.
  intros Hc%not_eq_sym%N.eqb_neq. destruct (List.find _ _) as [p|] eqn:E; [|done].
  apply List.find_some in E as [Hp%list_elem_of_In Hs].
  assert (Hh : Forall (λ p, head p.1 = Some 38%N) (O.own unescapeMap)) by (by repeat constructor).
  rewrite Forall_forall in Hh. specialize (Hh p Hp). destruct p as [[|d k] v]; [done|].
  injection Hh as ->. cbn [fst prefixb] in Hs. by rewrite Hc in Hs.
Qed.

Lemma find_entity p t :
  p ∈ O.own escapeMap →
  List.find (λ q, prefixb q.1 (p.2 ++ t)) (O.own unescapeMap) = Some (p.2, p.1).
Proof.
  intros Hp. unfold escapeMap in Hp. simpl O.own in Hp.
  repeat (apply elem_of_cons in Hp as [->|Hp]; [reflexivity|]). by apply elem_of_nil in Hp.
Qed.

(** Unescape undoes escape on every text. *)
Theorem unescape_escape s : unescape (Some (escape (Some s))) = s.
Proof.
  rewrite unescape_subst, escape_bind.
  induction s as [|c s IH]; [done|]. rewrite bind_cons.
  destruct (escape_unit_cases c) as [(-> & _ & H38)|Hin].
  - cbn [app subst]. by rewrite find_other, IH.
  - pose proof Hin as He%entities_ok. apply list_elem_of_fmap in Hin as ([k v] & [= Hc Hv] & Hp).
    pose proof (find_entity (k, v) (s ≫= escape_unit) Hp) as Hf. simpl in Hc. cbn [fst snd] in Hf. rewrite Hv.
    assert (Hk : k = [c] ∧ v ≠ []).
    { split; [|by intros ->; rewrite Hv in He]. rewrite Hc.
      assert (Hu : Forall (λ p, p.1 = [default 0%N (head p.1)]) (O.own escapeMap)) by (by repeat constructor).
      rewrite Forall_forall in Hu. exact (Hu _ Hp). }
    destruct Hk as [-> Hne]. destruct v as [|d e]; [done|]. cbn [app] in *. cbn [subst].
    rewrite Hf. cbn [app length]. rewrite subst_skip. replace (S (length e) - 1) with (length e) by lia. by rewrite drop_app_length, IH.
Qed.

End EscFacts.

Module Tpl.

(** ** The text of a template inside a string literal *)

Definition escapes : O.jsobj jsstr := O.plain
  [(js "'", js "'"); (js "\", js "\"); ([13%N], js "r"); ([10%N], js "n");
   ([8232%N], js "u2028"); ([8233%N], js "u2029")].
Definition escaper : regex :=
  alts (lit_units <$> [js "\"; js "'"; [13%N]; [10%N]; [8232%N]; [8233%N]]).
Definition escapeChar (m : match_result) : jsstr :=
  js "\" ++ default (js "undefined") (O.get escapes (r_text m)).
Definition literal (s : jsstr) : jsstr := replace_all escaper escapeChar s.

(** ** Settings *)

(** A setting is [undefined], another value that is not true, a pattern or a text. *)
Inductive setting : Type :=
  | SUndefined
  | SFalsy
  | SPattern (r : regex)
  | SName (s : jsstr).
Definition undefined_setting (v : setting) : bool :=
  match v with SUndefined => true | _ => false end.

Definition any : regex := RSet (λ _, true).
(** An opening delimiter, the shortest code of one unit or more, the closing one. *)
Definition delimited (start : jsstr) : regex :=
  seqs [lit_units start; RGroup 1 (plus_lazy any); lit "%>"].
Definition templateSettings : O.jsobj setting := O.plain
  [(js "evaluate", SPattern (delimited (js "<%")));
   (js "interpolate", SPattern (delimited (js "<%=")));
   (js "escape", SPattern (delimited (js "<%-")))].
Definition noMatch : regex := RSeq (RGroup 1 dot) RBol.

(** [(v || noMatch).source]: a text has no [source], and [join] writes nothing for it. *)
Definition source_of (v : option setting) : regex :=
  match v with
  | Some (SPattern r) => r
  | Some (SName (_ :: _)) => REmpty
  | _ => noMatch
  end.

(** A pattern placed after [k] other groups: the groups are numbered anew, the
    back-references of its text are not. *)
Fixpoint shift (k : nat) (r : regex) : regex :=
  match r with
  | RSet p => RSet p
  | REmpty => REmpty
  | RSeq r1 r2 => RSeq (shift k r1) (shift k r2)
  | RAlt r1 r2 => RAlt (shift k r1) (shift k r2)
  | ROpt g r => ROpt g (shift k r)
  | RStar g r => RStar g (shift k r)
  | RGroup n r => RGroup (k + n) (shift k r)
  | RBack n => RBack n
  | RBol => RBol
  | REol => REol
  | RNot r => RNot (shift k r)
  end.
(** The alternation of the three patterns and the end of the text. *)
Definition matcher (settings : O.jsobj setting) : regex :=
  let e := source_of (O.get settings (js "escape")) in
  let i := source_of (O.get settings (js "interpolate")) in
  let v := source_of (O.get settings (js "evaluate")) in
  alts [e; shift (length (groups e)) i; shift (length (groups e) + length (groups i)) v; REol].

(** ** The source of the compiled function *)

Definition nl : jsstr := [10%N].

(** What [replace] gives its callback after the match: the captures of all groups of the
    pattern, in order, then the offset and the text.  The callback names the first four
    of them escape, interpolate, evaluate and offset: they are that when the patterns of
    the settings have one group each, as the comment on the settings asks for, and else
    shifted.  An index that has been added to an undefined offset is not a number. *)
Inductive value : Type :=
  | VUndefined
  | VText (s : jsstr)
  | VNumber (n : nat)
  | VNaN.
Definition arguments (r : regex) (text : jsstr) (m : match_result) : list value :=
  ((λ n, match capture m n with Some s => VText s | None => VUndefined end) <$> seq 1 (length (groups r)))
    ++ [VNumber (r_index m); VText text].
Definition argument (args : list value) (n : nat) : value := default VUndefined (args !! n).
(** A value that is true, as the text it adds to the source. *)
Definition code (v : value) : option jsstr :=
  match v with
  | VText ((_ :: _) as s) => Some s
  | VNumber (S n) => Some (decimal (S n))
  | _ => None
  end.
(** [offset + match.length]. *)
Definition plus_length (offset : value) (n : nat) : value :=
  match offset with
  | VNumber m => VNumber (m + n)
  | VText s => VText (s ++ decimal n)
  | VUndefined | VNaN => VNaN
  end.
(** The text that the code of a match adds. *)
Definition escape_code (c : jsstr) : jsstr :=
  js "'+" ++ nl ++ js "((__t=(" ++ c ++ js "))==null?'':_.escape(__t))+" ++ nl ++ js "'".
Definition interpolate_code (c : jsstr) : jsstr :=
  js "'+" ++ nl ++ js "((__t=(" ++ c ++ js "))==null?'':__t)+" ++ nl ++ js "'".
Definition evaluate_code (c : jsstr) : jsstr :=
  js "';" ++ nl ++ c ++ nl ++ js "__p+='".

Section on_match.
(** The number that a text stands for, cut to an integer: the positions of [slice]. *)
Context (to_integer : jsstr → Z).
Definition position (v : value) : Z :=
  match v with
  | VNumber n => Z.of_nat n
  | VText s => to_integer s
  | VUndefined | VNaN => 0%Z
  end.
Definition slice_between (text : jsstr) (index offset : value) : jsstr :=
  match offset with
  | VUndefined => slice_from text (position index)
  | _ => slice text (position index) (position offset)
  end.
Definition on_match (r : regex) (text : jsstr) (st : value * jsstr) (m : match_result) : value * jsstr :=
  let (index, source) := st in
  let args := arguments r text m in
  let offset := argument args 3 in
  let source := source ++ literal (slice_between text index offset) in
  let index := plus_length offset (length (r_text m)) in
  let source :=
    match code (argument args 0) with
    | Some c => source ++ escape_code c
    | None =>
        match code (argument args 1) with
        | Some c => source ++ interpolate_code c
        | None =>
            match code (argument args 2) with
            | Some c => source ++ evaluate_code c
            | None => source
            end
        end
    end in
  (index, source).
Definition hits (ps : list piece) : list match_result :=
  omap (λ p, match p with Hit m => Some m | Between _ => None end) ps.
Definition statements (settings : O.jsobj setting) (text : jsstr) : jsstr :=
  let r := matcher settings in
  (foldl (on_match r text) (VNumber 0, js "__p+='") (hits (pieces r text))).2 ++ js "';" ++ nl.
End on_match.

Section template.
(** The integer and the pattern of a text, and [new Function(argument, '_', source)]. *)
Context {Fn : Type} (to_integer : jsstr → Z) (pattern_text : regex → jsstr)
  (new_function : jsstr → jsstr → outcome Fn).

Definition variable (settings : O.jsobj setting) : option jsstr :=
  match O.get settings (js "variable") with
  | Some (SPattern r) => Some (pattern_text r)
  | Some (SName ((_ :: _) as s)) => Some s
  | _ => None
  end.
Definition full_source (settings : O.jsobj setting) (text : jsstr) : jsstr :=
  let source := statements to_integer settings text in
  let source := match variable settings with
                | None => js "with(obj||{}){" ++ nl ++ source ++ js "}" ++ nl
                | Some _ => source
                end in
  js "var __t,__p='',__j=Array.prototype.join,print=function(){__p+=__j.call(arguments,'');};" ++ nl
    ++ source ++ js "return __p;" ++ nl.

(** The compiled template, with its source for precompilation; the error of a
    source that does not compile carries that source. *)
Record compiled := Compiled { render : Fn; c_source : jsstr }.
Inductive result : Type :=
  | Template (t : compiled)
  | Thrown (e : error) (source : jsstr).
Definition template (text : jsstr) (settings oldSettings : option (O.jsobj setting)) : result :=
  let settings := match settings with Some s => Some s | None => oldSettings end in
  let settings := O.defaults undefined_setting (O.plain [])
    (match settings with Some s => [s] | None => [] end ++ [templateSettings]) in
  let argument := default (js "obj") (variable settings) in
  let source := full_source settings text in
  match new_function argument source with
  | Throw e => Thrown e source
  | Ok f => Template (Compiled f (js "function(" ++ argument ++ js "){" ++ nl ++ source ++ js "}"))
  end.
End template.

(** ** What the source says, read back

    [read_literal] reads a string literal in single quotes after its opening
    quote, as the language does: the text, and what follows the closing quote
    (a backslash before a digit, which is not written, is not read). *)
Definition single_escape (d : N) : N :=
  if N.eqb d (chr "n") then 10%N else if N.eqb d (chr "r") then 13%N
  else if N.eqb d (chr "t") then 9%N else if N.eqb d (chr "b") then 8%N
  else if N.eqb d (chr "v") then 11%N else if N.eqb d (chr "f") then 12%N else d.
Definition cons_to {A B} (c : A) (r : option (list A * B)) : option (list A * B) :=
  match r with Some (t, rest) => Some (c :: t, rest) | None => None end.
Fixpoint read_literal (s : jsstr) : option (jsstr * jsstr) :=
  match s with
  | [] => None
  | c :: s1 =>
      if N.eqb c 39 then Some ([], s1)
      else if N.eqb c 92 then
        match s1 with
        | [] => None
        | d :: s2 =>
            if N.eqb d (chr "u") then
              match s2 with
              | a :: b :: e :: f :: s3 =>
                  match Uri.hex_val a, Uri.hex_val b, Uri.hex_val e, Uri.hex_val f with
                  | Some a, Some b, Some e, Some f =>
                      cons_to (4096 * a + 256 * b + 16 * e + f)%N (read_literal s3)
                  | _, _, _, _ => None
                  end
              | _ => None
              end
            else if N.eqb d (chr "x") then
              match s2 with
              | a :: b :: s3 =>
                  match Uri.hex_val a, Uri.hex_val b with
                  | Some a, Some b => cons_to (16 * a + b)%N (read_literal s3)
                  | _, _ => None
                  end
              | _ => None
              end
            else if is_line_term d then read_literal s2
            else if is_digit d then None
            else cons_to (single_escape d) (read_literal s2)
        end
      else if is_line_term c then None
      else cons_to c (read_literal s1)
  end.

(** A template: a text, then codes with a text after each. *)
Inductive kind : Type := Escape | Interpolate | Evaluate.
#[export] Instance kind_eq_dec : EqDecision kind.
Proof. solve_decision. Defined.
Definition tpl : Type := jsstr * list (kind * jsstr * jsstr).

Definition code_text (k : kind) (c : jsstr) : jsstr :=
  match k with
  | Escape => escape_code c
  | Interpolate => interpolate_code c
  | Evaluate => evaluate_code c
  end.
(** The text that ends a code of each kind in the source. *)
Definition ending (k : kind) : jsstr :=
  match k with
  | Evaluate => nl ++ js "__p+='"
  | _ => js "))==null?'':"
  end.
Fixpoint read_body (fuel : nat) (s : jsstr) : option tpl :=
  match fuel, read_literal s with
  | S n, Some (t, s1) =>
      let next k c rest :=
        match read_body n rest with Some (t', l) => Some (t, (k, c, t') :: l) | None => None end in
      let expression := js "+" ++ nl ++ js "((__t=(" in
      if str_eqb s1 (js ";" ++ nl) then Some (t, [])
      else if prefixb expression s1 then
        let s2 := drop (length expression) s1 in
        match index_of s2 (ending Escape) with
        | None => None
        | Some i =>
            let c := take i s2 in
            let s3 := drop (i + length (ending Escape)) s2 in
            let escaped := js "_.escape(__t))+" ++ nl ++ js "'" in
            let plain := js "__t)+" ++ nl ++ js "'" in
            if prefixb escaped s3 then next Escape c (drop (length escaped) s3)
            else if prefixb plain s3 then next Interpolate c (drop (length plain) s3)
            else None
        end
      else if prefixb (js ";" ++ nl) s1 then
        let s2 := drop 2 s1 in
        match index_of s2 (ending Evaluate) with
        | None => None
        | Some i => next Evaluate (take i s2) (drop (i + length (ending Evaluate)) s2)
        end
      else None
  | _, _ => None
  end.
Definition read_statements (s : jsstr) : option tpl :=
  let start := js "__p+='" in
  if prefixb start s then read_body (length s) (drop (length start) s) else None.

(** The template that a list of matches makes of a text. *)
Definition captured (m : match_result) (n : nat) : option jsstr :=
  match capture m n with Some ((_ :: _) as s) => Some s | _ => None end.
Definition code_of (m : match_result) : option (kind * jsstr) :=
  match captured m 1 with
  | Some c => Some (Escape, c)
  | None =>
      match captured m 2 with
      | Some c => Some (Interpolate, c)
      | None => (λ c, (Evaluate, c)) <$> captured m 3
      end
  end.
(** Settings whose three patterns have one group each. *)
Definition one_group (settings : O.jsobj setting) : Prop :=
  ∀ k, k ∈ [js "escape"; js "interpolate"; js "evaluate"] → groups (source_of (O.get settings k)) = [1].
Fixpoint segments (text : jsstr) (index : nat) (ms : list match_result) : tpl :=
  match ms with
  | [] => ([], [])
  | m :: ms' =>
      let (t, l) := segments text (r_index m + length (r_text m)) ms' in
      let s := slice_nat text index (r_index m) in
      match code_of m with
      | Some (k, c) => (s, (k, c, t) :: l)
      | None => (s ++ t, l)
      end
  end.
Definition parsed (settings : O.jsobj setting) (text : jsstr) : tpl :=
  segments text 0 (hits (pieces (matcher settings) text)).

(** ** The default delimiters without a regular expression

    A code has one unit or more and ends at the nearest closing delimiter. *)
Definition close (s : jsstr) : option (jsstr * jsstr) :=
  match s with
  | [] => None
  | c :: s' => (λ i, (c :: take i s', drop (i + 2) s')) <$> index_of s' (js "%>")
  end.
Definition opening (k : kind) : jsstr :=
  match k with Escape => js "<%-" | Interpolate => js "<%=" | Evaluate => js "<%" end.
Definition delim (k : kind) (s : jsstr) : option (jsstr * jsstr) :=
  if prefixb (opening k) s then close (drop (length (opening k)) s) else None.
Definition erb (s : jsstr) : option (kind * jsstr * jsstr) :=
  match delim Escape s with
  | Some (c, r) => Some (Escape, c, r)
  | None =>
      match delim Interpolate s with
      | Some (c, r) => Some (Interpolate, c, r)
      | None => match delim Evaluate s with Some (c, r) => Some (Evaluate, c, r) | None => None end
      end
  end.
Fixpoint erb_scan (skip : nat) (s : jsstr) : tpl :=
  match s with
  | [] => ([], [])
  | u :: s' =>
      match skip with
      | S k => erb_scan k s'
      | 0 =>
          match erb s with
          | Some (k, c, rest) =>
              let (t, l) := erb_scan (length s' - length rest) s' in ([], (k, c, t) :: l)
          | None => let (t, l) := erb_scan 0 s' in (u :: t, l)
          end
      end
  end.
(** A template written with the default delimiters. *)
Definition unparse (x : tpl) : jsstr :=
  x.1 ++ (x.2 ≫= λ '(k, c, t), opening k ++ c ++ js "%>" ++ t).
End Tpl.

Module TplFacts.
Import Tpl.

(** ** Literals *)

Definition literal_map : list (jsstr * jsstr) :=
  [(js "\", js "\\"); (js "'", js "\'"); ([13%N], js "\r"); ([10%N], js "\n");
   ([8232%N], js "\u2028"); ([8233%N], js "\u2029")].
Definition literal_unit (c : N) : jsstr := default [c] (obj_get [c] literal_map).

Lemma literal_bind s : literal s = s ≫= literal_unit.
Proof.
  unfold literal.
  change escaper with (alts (lit_units <$> literal_map.*1)).
  rewrite EscFacts.replace_all_keys with (map := literal_map).
  - by apply EscFacts.subst_units.
  - by repeat constructor.
  - intros m v Hin. unfold escapeChar. 
    assert (H : Forall (λ p, js "\" ++ default (js "undefined") (O.get escapes p.1) = p.2) literal_map)
      by (by repeat constructor).
    rewrite Forall_forall in H. exact (H _ Hin).
Qed.

Lemma literal_app a b : literal (a ++ b) = literal a ++ literal b.
Proof. by rewrite !literal_bind, bind_app. Qed.

Lemma read_unit c s : read_literal (literal_unit c ++ s) = cons_to c (read_literal s).
Proof.
  unfold literal_unit. destruct (obj_get [c] literal_map) as [v|] eqn:E.
  - assert (Hwf : obj_wf literal_map) by (apply (bool_decide_unpack _); by vm_compute).
    apply (obj_get_elem _ _ _ Hwf) in E.
    repeat (apply elem_of_cons in E as [E|E]; [injection E as -> ->; reflexivity|]). by apply elem_of_nil in E.
  - apply obj_get_None in E.
    assert (Hn : ∀ d, [d] ∈ obj_keys literal_map → c ≠ d) by (intros d Hd ->; done).
    assert (H39 : c ≠ 39%N) by (apply Hn; apply (bool_decide_unpack _); by vm_compute).
    assert (H92 : c ≠ 92%N) by (apply Hn; apply (bool_decide_unpack _); by vm_compute).
    simpl. apply N.eqb_neq in H39 as ->, H92 as ->.
    replace (is_line_term c) with false; [done|]. symmetry. apply not_true_iff_false.
    unfold is_line_term. rewrite existsb_exists. intros (d & Hd%list_elem_of_In & ->%N.eqb_eq).
    refine (Hn d _ eq_refl). clear E Hn. revert d Hd. apply Forall_forall.
    apply (bool_decide_unpack _). by vm_compute.
Qed.

(** The text that template writes between the quotes of a string literal is
    read by the language as the original text, and the literal ends at the quote
    that follows it, whatever comes next: no text can leave its literal. *)
Lemma literal_read s rest : read_literal (literal s ++ js "'" ++ rest) = Some (s, rest).
Proof.
  rewrite literal_bind. induction s as [|c s IH]; [done|].
  rewrite bind_cons, <- app_assoc, read_unit, IH. done.
Qed.

(** ** The statements spell the template, and are read back as it *)

Fixpoint write_codes (l : list (kind * jsstr * jsstr)) : jsstr :=
  match l with
  | [] => []
  | (k, c, t) :: l' => code_text k c ++ literal t ++ write_codes l'
  end.
Definition write (x : tpl) : jsstr := literal x.1 ++ write_codes x.2.

Section written.
Context (to_integer : jsstr → Z).
Local Abbreviation on_match := (on_match to_integer).
Local Abbreviation statements := (statements to_integer).

Lemma groups_shift k r : length (groups (shift k r)) = length (groups r).
Proof. induction r; simpl; rewrite ?length_app; congruence. Qed.
Lemma matcher_groups settings : one_group settings → length (groups (matcher settings)) = 3.
Proof.
  intros H. unfold matcher. simpl. rewrite !length_app, !groups_shift, !H by set_solver. done.
Qed.
Lemma code_capture m n :
  code (match capture m n with Some s => VText s | None => VUndefined end) = captured m n.
Proof. unfold captured. by destruct (capture m n). Qed.

Lemma on_match_write r text ms index src : length (groups r) = 3 →
  (foldl (on_match r text) (VNumber index, src) ms).2 = src ++ write (segments text index ms).
Proof.
  intros Hg. revert index src. induction ms as [|m ms IH]; intros index src.
  - change (write (segments text index [])) with (literal [] ++ []). by rewrite literal_bind, !app_nil_r.
  - cbn [foldl segments]. unfold on_match at 2, arguments. rewrite Hg. cbn [seq fmap list_fmap app].
    unfold argument. cbn [lookup list_lookup default from_option]. unfold id.
    rewrite !code_capture. unfold slice_between. cbn [position plus_length]. rewrite slice_of_nat, IH. unfold code_of.
    destruct (segments text (r_index m + length (r_text m)) ms) as [t l].
    unfold write. cbn [fst snd].
    destruct (captured m 1); [|destruct (captured m 2); [|destruct (captured m 3)]];
      cbn [fmap option_fmap option_map fst snd write_codes code_text];
      rewrite ?literal_app, <- ?(assoc_L (++)); done.
Qed.

Lemma statements_write settings text : one_group settings →
  statements settings text = js "__p+='" ++ write (parsed settings text) ++ js "';" ++ nl.
Proof. intros Hg. unfold Tpl.statements. by rewrite on_match_write, <- (assoc_L (++)) by by apply matcher_groups. Qed.
End written.

(** A code that does not run into the text that ends it. *)
Definition closed (k : kind) (c : jsstr) : bool :=
  bool_decide (index_of (c ++ ending k) (ending k) = Some (length c)).

Lemma prefixb_short t s u : length t ≤ length s → prefixb t (s ++ u) = prefixb t s.
Proof.
  revert s. induction t as [|c t IH]; intros [|d s]; simpl; intros Hl; [done..|lia|].
  by rewrite IH by lia.
Qed.

Lemma index_of_app s t u i : index_of s t = Some i → index_of (s ++ u) t = Some i.
Proof.
  revert i. induction s as [|c s IH]; intros i H.
  - simpl in *. destruct (prefixb t []) eqn:E; [|done]. injection H as <-.
    apply prefixb_spec in E as [v Hv]. symmetry in Hv. apply app_eq_nil in Hv as [-> _]. by destruct u.
  - pose proof (index_of_Some _ _ _ H) as [Hs Hi].
    assert (Hl : length t ≤ length (c :: s)) by (rewrite Hs, !length_app; lia).
    cbn [index_of]. change ((c :: s) ++ u) with (c :: (s ++ u)). cbn [index_of].
    rewrite app_comm_cons, prefixb_short by done. cbn [index_of] in H.
    destruct (prefixb t (c :: s)); [done|].
    destruct (index_of s t) as [j|]; [|done]. injection H as <-. by rewrite (IH j).
Qed.

Lemma closed_cut k c rest :
  closed k c = true →
  index_of (c ++ ending k ++ rest) (ending k) = Some (length c)
  ∧ take (length c) (c ++ ending k ++ rest) = c
  ∧ drop (length c + length (ending k)) (c ++ ending k ++ rest) = rest.
Proof.
  intros Hc%bool_decide_eq_true. split; [by rewrite (assoc_L (++)); apply index_of_app|].
  split; [by rewrite take_app_length|].
  by rewrite (assoc_L (++)), <- length_app, drop_app_length.
Qed.

Definition codes_closed (x : tpl) : Prop := Forall (λ p, closed p.1.1 p.1.2 = true) x.2.

(** The codes of the source, as [read_body] takes them apart. *)
Lemma escape_code_app c rest :
  escape_code c ++ rest = js "'" ++ (js "+" ++ nl ++ js "((__t=(") ++ c ++ ending Escape
    ++ (js "_.escape(__t))+" ++ nl ++ js "'") ++ rest.
Proof.
  change (escape_code c) with (js "'" ++ (js "+" ++ nl ++ js "((__t=(") ++ c ++ ending Escape
    ++ (js "_.escape(__t))+" ++ nl ++ js "'")). by rewrite <- !(assoc_L (++)).
Qed.
Lemma interpolate_code_app c rest :
  interpolate_code c ++ rest = js "'" ++ (js "+" ++ nl ++ js "((__t=(") ++ c ++ ending Escape
    ++ (js "__t)+" ++ nl ++ js "'") ++ rest.
Proof.
  change (interpolate_code c) with (js "'" ++ (js "+" ++ nl ++ js "((__t=(") ++ c ++ ending Escape
    ++ (js "__t)+" ++ nl ++ js "'")). by rewrite <- !(assoc_L (++)).
Qed.
Lemma evaluate_code_app c rest :
  evaluate_code c ++ rest = js "'" ++ (js ";" ++ nl) ++ c ++ ending Evaluate ++ rest.
Proof.
  change (evaluate_code c) with (js "'" ++ (js ";" ++ nl) ++ c ++ ending Evaluate).
  by rewrite <- !(assoc_L (++)).
Qed.

Lemma str_eqb_ne a b : a ≠ b → str_eqb a b = false.
Proof. apply bool_decide_eq_false_2. Qed.

Lemma read_body_write l t fuel :
  Forall (λ p, closed p.1.1 p.1.2 = true) l →
  length l < fuel → read_body fuel (literal t ++ write_codes l ++ js "';" ++ nl) = Some (t, l).
Proof.
  revert t fuel. induction l as [|[[k c] t'] l IH]; intros t fuel Hl Hf; destruct fuel as [|fuel]; try lia.
  - cbn [write_codes read_body app]. change (js "';" ++ nl) with (js "'" ++ js ";" ++ nl).
    rewrite literal_read. done.
  - apply Forall_cons in Hl as [Hc Hl]. cbn [fst snd] in Hc. simpl in Hf.
    assert (IH' := IH t' fuel Hl ltac:(lia)). clear IH.
    cbn [write_codes]. rewrite <- !(assoc_L (++)). revert IH'.
    generalize (literal t' ++ write_codes l ++ js "';" ++ nl). intros rest IH.
    destruct k; cbn [code_text].
    + rewrite escape_code_app. cbn [read_body]. rewrite literal_read, str_eqb_ne by done.
      rewrite prefixb_app, drop_app_length. destruct (closed_cut _ _ ((js "_.escape(__t))+" ++ nl ++ js "'") ++ rest) Hc)
        as (-> & -> & ->). by rewrite prefixb_app, drop_app_length, IH.
    + rewrite interpolate_code_app. cbn [read_body]. rewrite literal_read, str_eqb_ne by done.
      rewrite prefixb_app, drop_app_length. destruct (closed_cut _ _ ((js "__t)+" ++ nl ++ js "'") ++ rest) Hc)
        as (H1 & H2 & H3). change (ending Interpolate) with (ending Escape) in H1, H2, H3. rewrite H1, H2, H3.
      change (prefixb (js "_.escape(__t))+" ++ nl ++ js "'") ((js "__t)+" ++ nl ++ js "'") ++ rest)) with false.
      cbv iota. by rewrite prefixb_app, drop_app_length, IH.
    + rewrite evaluate_code_app. cbn [read_body]. rewrite literal_read, str_eqb_ne.
      2: { destruct c; [|done]. done. }
      destruct (closed_cut _ _ rest Hc) as (H1 & H2 & H3).
      change (prefixb (js "+" ++ nl ++ js "((__t=(") ((js ";" ++ nl) ++ c ++ ending Evaluate ++ rest)) with false.
      cbv iota. rewrite prefixb_app. change 2 with (length (js ";" ++ nl)). by rewrite drop_app_length, H1, H2, H3, IH.
Qed.

(** C40: the statements that template writes are read back as the template: when no
    code contains the text that ends it in the source, the literals, the codes
    and their kinds are exactly those that the delimiters cut out of the text, in
    the same order, whatever the settings are whose patterns for escape, interpolate and
    evaluate have one group each (patterns with other numbers of groups shift the
    arguments of the callback). *)
Theorem statements_read_back to_integer settings text :
  one_group settings → codes_closed (parsed settings text) →
  read_statements (statements to_integer settings text) = Some (parsed settings text).
Proof.
  intros Hg Hc. rewrite statements_write by done. unfold read_statements. rewrite prefixb_app, drop_app_length.
  destruct (parsed settings text) as [t l]. unfold write. cbn [fst snd]. rewrite <- (assoc_L (++)).
  apply read_body_write; [exact Hc|]. rewrite !length_app. simpl. 
  assert (H : length l ≤ length (write_codes l)); [|lia].
  clear. induction l as [|[[k c] t'] l IH]; [done|]. simpl. rewrite !length_app.
  destruct k; simpl; lia.
Qed.

(** ** The default delimiters *)

Lemma repeat_any body p s caps :
  (∀ p s, body (MState p s caps) = match s with _ :: s' => [MState (p + 1) s' caps] | [] => [] end) →
  repeat_run false body (length s) (MState p s caps) =
    (λ i, MState (p + i) (drop i s) caps) <$> seq 0 (S (length s)).
Proof.
  intros Hb. revert p. induction s as [|c s IH]; intros p.
  - simpl. by rewrite Nat.add_0_r.
  - cbn [length repeat_run]. rewrite Hb.
    rewrite filter_cons, decide_True; [|unfold progressed; apply Is_true_true, Nat.ltb_lt; simpl; lia].
    rewrite bind_cons, app_nil_r, IH.
    change (seq 0 (S (S (length s)))) with (0 :: seq 1 (S (length s))). rewrite fmap_cons, Nat.add_0_r, drop_0.
    f_equal. rewrite <- fmap_S_seq, <- list_fmap_compose. apply list_fmap_ext. intros _ i _. simpl.
    f_equal. lia.
Qed.
Lemma star_any p s caps :
  run (RStar false any) (MState p s caps) =
    (λ i, MState (p + i) (drop i s) caps) <$> seq 0 (S (length s)).
Proof.
  apply (repeat_any (λ st, run any (clear_caps [] st))). intros q [|c s']; [done|].
  rewrite clear_caps_nil. cbn. unfold advance. cbn. by rewrite drop_0.
Qed.

(** The head of a search through the tails of a text. *)
Lemma head_tails {B} (h : nat → B) t s :
  head (seq 0 (S (length s)) ≫= λ i, if prefixb t (drop i s) then [h i] else []) = h <$> index_of s t.
Proof.
  revert h. induction s as [|c s IH]; intros h.
  - simpl. by destruct (prefixb t []).
  - change (seq 0 (S (length (c :: s)))) with (0 :: seq 1 (S (length s))). rewrite bind_cons. cbn [index_of drop].
    destruct (prefixb t (c :: s)); [done|]. simpl app. rewrite <- fmap_S_seq, list_fmap_bind.
    etrans; [apply (IH (λ i, h (S i)))|]. by destruct (index_of s t).
Qed.

Lemma head_run_delim n start pos rest :
  head (run (seqs [lit_units start; RGroup n (plus_lazy any); lit "%>"]) (MState pos rest ∅)) =
    if prefixb start rest then
      (λ '(c, r), MState (pos + length start + length c + 2) r {[n := c]}) <$> close (drop (length start) rest)
    else None.
Proof.
  change (run _ _) with (run (lit_units start) (MState pos rest ∅) ≫= λ st,
    run (RGroup n (plus_lazy any)) st ≫= run (lit_units (js "%>"))).
  rewrite EscFacts.run_lit. cbn [m_rest]. destruct (prefixb start rest) eqn:Ep; [|done].
  rewrite bind_cons, app_nil_r. unfold advance. cbn [m_pos m_rest m_caps]. generalize (drop (length start) rest).
  intros s. change (run (RGroup n (plus_lazy any))) with
    (λ st, (λ st', set_cap n (consumed st st') st') <$> (run any st ≫= run (RStar false any))). cbv beta.
  cbn [run any m_rest]. destruct s as [|c s]; [done|].
  rewrite bind_cons, app_nil_r. unfold advance. cbn [m_pos m_rest m_caps drop]. rewrite drop_0.
  change (repeat_run _ _ _ _) with (run (RStar false any) (MState (pos + length start + 1) s ∅)).
  rewrite star_any, <- list_fmap_compose, list_fmap_bind.
  etrans; [|etrans; [apply (head_tails (λ i, MState (pos + length start + S i + 2) (drop (i + 2) s)
    {[n := c :: take i s]}) (js "%>") s)|]].
  - f_equal. apply list_bind_ext; [|done]. intros i. cbn [compose].
    rewrite EscFacts.run_lit. unfold consumed, set_cap, advance. cbn [m_pos m_rest m_caps].
    replace (pos + length start + 1 + i - (pos + length start)) with (S i) by lia.
    destruct (prefixb (js "%>") (drop i s)); [|done]. do 2 f_equal; [simpl; lia|by rewrite drop_drop].
  - unfold close. destruct (index_of s (js "%>")) as [i|] eqn:E; [|done]. simpl.
    apply index_of_Some in E as [_ Hi]. do 2 f_equal. rewrite length_take. lia.
Qed.

(** The text of a code with its delimiters, and its group. *)
Definition group_of (k : kind) : nat :=
  match k with Escape => 1 | Interpolate => 2 | Evaluate => 3 end.

Lemma delim_text k s c r : delim k s = Some (c, r) → s = (opening k ++ c ++ js "%>") ++ r ∧ c ≠ [].
Proof.
  unfold delim. destruct (prefixb (opening k) s) eqn:Ep; [|done].
  apply prefixb_spec in Ep as [u ->]. rewrite drop_app_length. unfold close.
  destruct u as [|d u]; [done|]. destruct (index_of u (js "%>")) as [i|] eqn:E; [|done].
  intros [= <- <-]. split; [|done]. apply index_of_Some in E as [Hu _].
  rewrite <- !(assoc_L (++)). f_equal. simpl. f_equal. exact Hu.
Qed.

Definition default_delims (k : kind) : regex :=
  seqs [lit_units (opening k); RGroup (group_of k) (plus_lazy any); lit "%>"].
Lemma matcher_default :
  matcher templateSettings = alts [default_delims Escape; default_delims Interpolate; default_delims Evaluate; REol].
Proof. reflexivity. Qed.

Lemma head_app_none {A} (l l' : list A) : head l = None → head (l ++ l') = head l'.
Proof. by destruct l. Qed.
Lemma head_app_some {A} (l l' : list A) x : head l = Some x → head (l ++ l') = Some x.
Proof. by destruct l. Qed.

Lemma head_delim k pos rest :
  head (run (default_delims k) (MState pos rest ∅)) =
    (λ '(c, r), MState (pos + length (opening k) + length c + 2) r {[group_of k := c]}) <$> delim k rest.
Proof.
  unfold default_delims. rewrite head_run_delim. unfold delim. by destruct (prefixb (opening k) rest).
Qed.

(** The matcher of the default settings is [erb], or the end of the text. *)
Lemma match_default pos rest :
  match_at (matcher templateSettings) pos rest =
    match erb rest with
    | Some (k, c, r) => Some (MatchResult pos (opening k ++ c ++ js "%>") {[group_of k := c]} r)
    | None => match rest with [] => Some (MatchResult pos [] ∅ []) | _ => None end
    end.
Proof.
  assert (Hd : ∀ k c r (l : list mstate), delim k rest = Some (c, r) →
    head l = (λ '(c, r), MState (pos + length (opening k) + length c + 2) r {[group_of k := c]}) <$> delim k rest →
    (st' ← head l; Some (MatchResult pos (consumed (MState pos rest ∅) st') (m_caps st') (m_rest st'))) =
    Some (MatchResult pos (opening k ++ c ++ js "%>") {[group_of k := c]} r)).
  { intros k c r l Ek ->. rewrite Ek. simpl. do 2 f_equal. unfold consumed. cbn [m_pos m_rest].
    apply delim_text in Ek as [-> _]. apply take_app_length'. rewrite !length_app. simpl. lia. }
  unfold match_at. rewrite matcher_default. unfold erb.
  change (run (alts [default_delims Escape; default_delims Interpolate; default_delims Evaluate; REol]) (MState pos rest ∅))
    with (run (default_delims Escape) (MState pos rest ∅) ++ run (default_delims Interpolate) (MState pos rest ∅) ++
      run (default_delims Evaluate) (MState pos rest ∅) ++ run REol (MState pos rest ∅)).
  pose proof (head_delim Escape pos rest) as H1. pose proof (head_delim Interpolate pos rest) as H2.
  pose proof (head_delim Evaluate pos rest) as H3.
  destruct (delim Escape rest) as [[c r]|] eqn:E1.
  { apply Hd; [done|]. rewrite E1. by apply head_app_some. }
  rewrite head_app_none by done. destruct (delim Interpolate rest) as [[c r]|] eqn:E2.
  { apply Hd; [done|]. rewrite E2. by apply head_app_some. }
  rewrite head_app_none by done. destruct (delim Evaluate rest) as [[c r]|] eqn:E3.
  { apply Hd; [done|]. rewrite E3. by apply head_app_some. }
  rewrite head_app_none by done. destruct rest; [|done]. simpl. unfold consumed. cbn [m_pos m_rest m_caps].
  by rewrite Nat.sub_diag.
Qed.

Lemma code_of_default pos t k c r :
  c ≠ [] → code_of (MatchResult pos t {[group_of k := c]} r) = Some (k, c).
Proof. destruct c; [done|]. by destruct k. Qed.
Lemma code_of_none pos t r : code_of (MatchResult pos t ∅ r) = None.
Proof. done. Qed.

Lemma erb_scan_skip k s : erb_scan k s = erb_scan 0 (drop k s).
Proof. revert k. induction s as [|c s IH]; intros [|k]; [done..|]. cbn [drop erb_scan]. by rewrite IH. Qed.

Lemma erb_text s k c r : erb s = Some (k, c, r) → s = (opening k ++ c ++ js "%>") ++ r ∧ c ≠ [].
Proof.
  unfold erb. destruct (delim Escape s) as [[c' r']|] eqn:E1; [intros [= <- <- <-]; by apply delim_text|].
  destruct (delim Interpolate s) as [[c' r']|] eqn:E2; [intros [= <- <- <-]; by apply delim_text|].
  destruct (delim Evaluate s) as [[c' r']|] eqn:E3; [intros [= <- <- <-]; by apply delim_text|done].
Qed.

(** One round of [erb_scan], at a text or at a code. *)
Lemma erb_scan_code s k c r :
  erb s = Some (k, c, r) → erb_scan 0 s = ([], (k, c, (erb_scan 0 r).1) :: (erb_scan 0 r).2).
Proof.
  intros E. pose proof (erb_text _ _ _ _ E) as [Hs _]. destruct s as [|u s]; [by destruct k|].
  cbn [erb_scan]. rewrite E, erb_scan_skip.
  assert (Hr : drop (length s - length r) s = r).
  { assert (∃ v, s = v ++ r) as [v ->].
    { exists (tail (opening k) ++ c ++ js "%>"). destruct k; by injection Hs. }
    rewrite length_app, Nat.add_sub. apply drop_app_length. }
  rewrite Hr. by destruct (erb_scan 0 r).
Qed.

Lemma search_default pos rest :
  ∃ m j, search_from (matcher templateSettings) pos rest = Some m ∧ r_index m = pos + j ∧
    ((∃ k c, code_of m = Some (k, c) ∧ r_text m = opening k ++ c ++ js "%>" ∧ c ≠ [] ∧
        rest = take j rest ++ r_text m ++ r_after m ∧ j ≤ length rest ∧
        erb_scan 0 rest = (take j rest, (k, c, (erb_scan 0 (r_after m)).1) :: (erb_scan 0 (r_after m)).2))
     ∨ (code_of m = None ∧ r_text m = [] ∧ r_after m = [] ∧ j = length rest ∧ erb_scan 0 rest = (rest, []))).
Proof.
  revert pos. induction rest as [|u rest IH]; intros pos.
  - exists (MatchResult pos [] ∅ []), 0. cbn [search_from]. rewrite match_default. simpl.
    split; [done|]. split; [simpl; lia|]. right. by rewrite code_of_none.
  - cbn [search_from]. rewrite match_default. destruct (erb (u :: rest)) as [[[k c] r]|] eqn:E.
    + eexists _, 0. split; [done|]. split; [simpl; lia|]. left. exists k, c.
      pose proof (erb_text _ _ _ _ E) as [Hs Hc]. rewrite code_of_default by done. cbn [r_text r_after take app].
      rewrite <- Hs. do 4 (split; [done|]). split; [simpl; lia|]. by apply erb_scan_code.
    + destruct (IH (S pos)) as (m & j & Hm & Hi & H). exists m, (S j). rewrite Hm.
      split; [done|]. split; [lia|].
      assert (Hscan : erb_scan 0 (u :: rest) = (u :: (erb_scan 0 rest).1, (erb_scan 0 rest).2)).
      { cbn [erb_scan]. rewrite E. by destruct (erb_scan 0 rest). }
      rewrite Hscan. destruct H as [(k & c & H1 & H2 & H3 & H4 & H5 & H6)|(H1 & H2 & H3 & -> & H5)].
      * left. exists k, c. rewrite H6. cbn [take app fst snd length]. rewrite <- H4. do 4 (split; [done|]).
        split; [lia|done].
      * right. by rewrite H5.
Qed.

Lemma segments_default fuel pre rest :
  length rest < fuel →
  segments (pre ++ rest) (length pre)
    (hits (pieces_loop (matcher templateSettings) fuel (length pre) rest)) = erb_scan 0 rest.
Proof.
  revert pre rest. induction fuel as [|fuel IH]; intros pre rest Hf; [lia|].
  cbn [pieces_loop]. destruct (search_default (length pre) rest) as (m & j & -> & Hi & H).
  assert (Hslice : slice_nat (pre ++ rest) (length pre) (r_index m) = take j rest).
  { unfold slice_nat. rewrite Hi, drop_app_length. f_equal. lia. }
  destruct H as [(k & c & H1 & H2 & H3 & H4 & H5 & H6)|(H1 & H2 & H3 & -> & H5)].
  - assert (Hne : r_text m ≠ []) by (rewrite H2; by destruct k).
    destruct (r_text m) as [|d t] eqn:Et; [done|]. rewrite <- Et in *. clear Hne.
    assert (Hp : pre ++ rest = (pre ++ take j rest ++ r_text m) ++ r_after m)
      by (rewrite H4 at 1; by rewrite !(assoc_L (++))).
    assert (Hl : r_index m + length (r_text m) = length (pre ++ take j rest ++ r_text m))
      by (rewrite !length_app, length_take; lia).
    cbn [hits omap list_omap segments]. fold (hits). rewrite H1, Hslice, Hl, Hp, H6.
    change (omap _ ?x) with (hits x). rewrite IH; [by destruct (erb_scan 0 (r_after m))|].
    assert (length rest = length (take j rest ++ r_text m ++ r_after m)) as Hlen by (by rewrite <- H4).
    rewrite !length_app, Et in Hlen. simpl in Hlen. lia.
  - rewrite H2, H3. cbn [hits omap list_omap segments]. rewrite H1, Hslice, H5, firstn_all. by rewrite app_nil_r.
Qed.

Lemma parsed_default text : parsed templateSettings text = erb_scan 0 text.
Proof. apply (segments_default (S (length text)) [] text). lia. Qed.

Lemma unparse_erb s : unparse (erb_scan 0 s) = s.
Proof.
  induction s as [s IH] using (induction_ltof1 _ length).
  destruct (search_default 0 s) as (m & j & _ & _ & [(k & c & _ & H2 & H3 & H4 & H5 & H6)|(_ & _ & _ & _ & H)]).
  - rewrite H6. unfold unparse. cbn [fst snd]. rewrite bind_cons. 
    specialize (IH (r_after m)). unfold unparse in IH. rewrite <- !(assoc_L (++)).
    rewrite IH; [by rewrite H4 at 2; rewrite H2, <- !(assoc_L (++))|].
    unfold ltof. rewrite H4, H2, !length_app. destruct k; simpl; lia.
  - rewrite H. apply app_nil_r.
Qed.

(** The source of a template with the default settings. *)
Definition default_source (text : jsstr) : jsstr :=
  js "var __t,__p='',__j=Array.prototype.join,print=function(){__p+=__j.call(arguments,'');};" ++ nl
    ++ js "with(obj||{}){" ++ nl
    ++ js "__p+='" ++ write (erb_scan 0 text) ++ js "';" ++ nl ++ js "}" ++ nl
    ++ js "return __p;" ++ nl.

Lemma default_one_group : one_group templateSettings.
Proof. intros k Hk. repeat (apply elem_of_cons in Hk as [->|Hk]; [reflexivity|]). by apply elem_of_nil in Hk. Qed.
Lemma default_settings :
  O.defaults undefined_setting (O.plain []) [templateSettings] = templateSettings.
Proof. reflexivity. Qed.

(** Without settings, template compiles the source that spells the codes and
    the texts that the scanner [erb] cuts out of the text, with the data as the
    scope; nothing of the text is lost or reordered, since writing the delimiters
    back around the codes gives the text; an error of the compilation carries the
    source, and a compiled template shows it as a function of [obj]. *)
Theorem default_template {Fn} to_integer pattern_text (new_function : jsstr → jsstr → outcome Fn) text :
  template to_integer pattern_text new_function text None None =
    match new_function (js "obj") (default_source text) with
    | Throw e => Thrown e (default_source text)
    | Ok f => Template (Compiled f (js "function(obj){" ++ nl ++ default_source text ++ js "}"))
    end
  ∧ unparse (erb_scan 0 text) = text.
Proof.
  split; [|apply unparse_erb]. unfold template. cbn [app]. rewrite default_settings.
  assert (Hs : full_source to_integer pattern_text templateSettings text = default_source text).
  { unfold full_source. change (variable pattern_text templateSettings) with (@None jsstr). cbv iota.
    rewrite statements_write, parsed_default by apply default_one_group. unfold default_source. by rewrite <- !(assoc_L (++)). }
  rewrite Hs. change (variable pattern_text templateSettings) with (@None jsstr). done.
Qed.

Lemma statements_read_back_witness :
  codes_closed (parsed templateSettings (js "it's<%-a%>b")) ∧
  read_statements (statements (λ _, 0%Z) templateSettings (js "it's<%-a%>b")) =
    Some (js "it's", [(Escape, js "a", js "b")]).
Proof.
  assert (Hp : parsed templateSettings (js "it's<%-a%>b") = (js "it's", [(Escape, js "a", js "b")])) by (by vm_compute).
  split; [rewrite Hp; by repeat constructor|].
  rewrite <- Hp. apply (statements_read_back (λ _, 0%Z) templateSettings (js "it's<%-a%>b")); [apply default_one_group|].
  rewrite Hp. by repeat constructor.
Defined.
(** An evaluate pattern without a group: the offset of each match is taken for the code to
    evaluate, and the text, which is no number, for the offset. *)
Example shifted_arguments :
  statements (λ _, 0%Z) (O.plain [(js "escape", SPattern (delimited (js "<%-")));
      (js "interpolate", SPattern (delimited (js "<%="))); (js "evaluate", SPattern (lit "#"))]) (js "a#") =
    js "__p+='" ++ evaluate_code (js "1") ++ evaluate_code (js "2") ++ js "';" ++ nl.
Proof. vm_compute. reflexivity. Qed.

(** An interpolation without code is read as code to evaluate. *)
Example empty_interpolation : erb_scan 0 (js "<%=%>") = ([], [(Evaluate, js "=", [])]).
Proof. reflexivity. Qed.
End TplFacts.
