(* ===== verification/UWrap.v ===== *)
(** * Wrappers, bound functions and callbacks of underscore.js

    [Wrap]: the objects that [_] makes, with chaining and the methods that [mixin]
    puts on their prototype; the method [chain] is found there like every other, so
    the recursion of a call is the source's.  [Bind]: functions that are called with
    a [this]: [createCallback], [iteratee], [bind], [bindAll], [invoke], and the
    timers of [delay] and [defer]. *)

From stdpp Require Import base tactics list strings numbers sets gmap.
From Stdlib Require Import ZArith Lia.
From S2P Require Import Prelude.
From S2P Require Import JsString.
From S2P Require Import JsArray.
From S2P Require Import UCollections.
From S2P Require Import UObjects.

Module Wrap.

(** A value is a primitive or an object of the page, an array, or a wrapper. *)
Inductive val (P : Type) : Type :=
  | Plain (p : P)
  | Arr (a : nat)
  | Wrapped (l : nat).
Arguments Plain {P}. Arguments Arr {P}. Arguments Wrapped {P}.

(** [_wrapped] and [_chain]. *)
Record wrapper (P : Type) := Wrapper { w_wrapped : val P; w_chain : bool }.
Arguments Wrapper {P}. Arguments w_wrapped {P}. Arguments w_chain {P}.

(** The wrappers made so far, and the elements of the arrays. *)
Record world (P : Type) := World { wrappers : list (wrapper P); arrays : list (list (val P)) }.
Arguments World {P}. Arguments wrappers {P}. Arguments arrays {P}.

(** A function of underscore, and what [prototype] holds under a name: a function
    mixed in, or a method of [Array.prototype] that changes or reads the array. *)
Definition fn (P : Type) : Type := list (val P) → M (world P) (val P).
Inductive method (P : Type) : Type :=
  | Mixed (func : fn P)
  | Mutator (name : jsstr)
  | Accessor (name : jsstr).
Arguments Mixed {P}. Arguments Mutator {P}. Arguments Accessor {P}.

Section wrap.
Context {P : Type}.
(** The text of a value, for [sort] and [join]; a value as an integer. *)
Context (text_of : val P → jsstr) (to_int : val P → Z) (of_text : jsstr → P).
Local Abbreviation val := (val P).
Local Abbreviation world := (world P).

Definition new_wrapper (obj : val) : M world nat := λ w,
  (Ok (length (wrappers w)), World (wrappers w ++ [Wrapper obj false]) (arrays w)).
(** [_(obj)]: an instance is returned as it is. *)
Definition make (obj : val) : M world nat :=
  match obj with Wrapped l => mret l | _ => new_wrapper obj end.
Definition get_wrapper (l : nat) : M world (wrapper P) := λ w,
  match wrappers w !! l with Some x => (Ok x, w) | None => (Throw TypeError, w) end.
Definition set_chain (l : nat) : M world unit := modify (λ w,
  World (alter (λ x, Wrapper (w_wrapped x) true) l (wrappers w)) (arrays w)).
Definition chain (obj : val) : M world val :=
  l ← make obj; set_chain l ≫= λ _, mret (Wrapped l).
Definition value (this : nat) : M world val := x ← get_wrapper this; mret (w_wrapped x).

(** ** The methods of arrays *)

Definition new_array (els : list val) : M world val := λ w,
  (Ok (Arr (length (arrays w))), World (wrappers w) (arrays w ++ [els])).
Definition get_array (a : nat) : M world (list val) := λ w,
  match arrays w !! a with Some els => (Ok els, w) | None => (Throw TypeError, w) end.
Definition set_array (a : nat) (els : list val) : M world unit := modify (λ w,
  World (wrappers w) (<[a := els]> (arrays w))).

Definition text_cmp (x y : val) : Z :=
  if str_ltb (text_of x) (text_of y) then (-1)%Z else if str_ltb (text_of y) (text_of x) then 1%Z else 0%Z.
(** [splice(start, deleteCount, ...items)]. *)
Definition splice (els args : list val) : list val :=
  match args with
  | [] => els
  | start :: rest =>
      let i := Z.to_nat (rel_index els (to_int start)) in
      match rest with
      | [] => take i els
      | n :: items =>
          let k := Nat.min (Z.to_nat (Z.max 0 (to_int n))) (length els - i) in
          take i els ++ items ++ drop (i + k) els
      end
  end.
(** The elements after a mutator; [sort] without a comparator. *)
Definition mutate (name : jsstr) (els args : list val) : list val :=
  if str_eqb name (js "pop") then removelast els
  else if str_eqb name (js "push") then els ++ args
  else if str_eqb name (js "reverse") then reverse els
  else if str_eqb name (js "shift") then tail els
  else if str_eqb name (js "sort") then js_sort text_cmp els
  else if str_eqb name (js "splice") then splice els args
  else if str_eqb name (js "unshift") then args ++ els
  else els.
(** [delete obj[0]] on an array without elements. *)
Definition delete_first (name : jsstr) (els : list val) : list val :=
  if (str_eqb name (js "shift") || str_eqb name (js "splice")) && (length els =? 0) then [] else els.
(** [concat]: an argument that is an array adds its elements. *)
Fixpoint concat_args (args : list val) : M world (list val) :=
  match args with
  | [] => mret []
  | v :: args' =>
      els ← match v with Arr a => get_array a | _ => mret [v] end;
      r ← concat_args args'; mret (els ++ r)
  end.
Definition access (name : jsstr) (a : nat) (args : list val) : M world val :=
  els ← get_array a;
  if str_eqb name (js "concat") then r ← concat_args args; new_array (els ++ r)
  else if str_eqb name (js "join") then
    mret (Plain (of_text (join (match args with s :: _ => text_of s | [] => js "," end) (text_of <$> els))))
  else if str_eqb name (js "slice") then
    new_array (slice els (match args with s :: _ => to_int s | [] => 0%Z end)
      (match args with _ :: e :: _ => to_int e | _ => zlen els end))
  else throw TypeError.

(** ** Methods of wrappers *)

(** What a method computes from the wrapped value.  The methods of arrays are
    applied to arrays. *)
Definition perform (m : method P) (this : nat) (args : list val) : M world val :=
  obj ← value this;
  match m with
  | Mixed func => func (obj :: args)
  | Mutator name =>
      match obj with
      | Arr a => els ← get_array a; set_array a (delete_first name (mutate name els args)) ≫= λ _, mret obj
      | _ => throw TypeError
      end
  | Accessor name => match obj with Arr a => access name a args | _ => throw TypeError end
  end.

(** [this[name](...args)] with [result]: a call on a wrapper that chains returns
    [_(obj).chain()], a call of the method [chain].  [fuel] is the size of the
    stack: a stack that is full is a [RangeError]. *)
Fixpoint call (fuel : nat) (prototype : list (jsstr * method P)) (name : jsstr) (this : nat)
    (args : list val) : M world val :=
  match fuel with
  | 0 => throw RangeError
  | S n =>
      match obj_get name prototype with
      | None => throw TypeError
      | Some m =>
          obj ← perform m this args;
          x ← get_wrapper this;
          if w_chain x then l ← make obj; call n prototype (js "chain") l [] else mret obj
      end
  end.

(** [mixin(obj)]: the functions of [obj], sorted by name, become functions of [_]
    and methods. *)
Record library := Library { statics : list (jsstr * fn P); prototype : list (jsstr * method P) }.
Definition name_cmp (a b : jsstr) : Z := if str_ltb a b then (-1)%Z else if str_ltb b a then 1%Z else 0%Z.
Definition functions (obj : list (jsstr * option (fn P))) : list jsstr :=
  js_sort name_cmp (omap (λ p, match p.2 with Some _ => Some p.1 | None => None end) obj).
Definition mixin (obj : list (jsstr * option (fn P))) (lib : library) : library :=
  foldl (λ lib name,
    match obj_get name obj with
    | Some (Some func) =>
        Library (obj_set name func (statics lib)) (obj_set name (Mixed func) (prototype lib))
    | _ => lib
    end) lib (functions obj).
(** The methods of arrays, after [mixin(_)]. *)
Definition mutators : list jsstr :=
  js <$> ["pop"; "push"; "reverse"; "shift"; "sort"; "splice"; "unshift"]%string.
Definition accessors : list jsstr := js <$> ["concat"; "join"; "slice"]%string.
Definition array_methods (lib : library) : library :=
  Library (statics lib)
    (foldl (λ p name, obj_set name (Accessor name) p)
      (foldl (λ p name, obj_set name (Mutator name) p) (prototype lib) mutators) accessors).
(** [value] is put on the prototype at the end: it does not chain. *)
End wrap.
End Wrap.

Module WrapFacts.
Import Wrap.

Section facts.
Context {P : Type}.
Context (text_of : val P → jsstr) (to_int : val P → Z) (of_text : jsstr → P).
Local Abbreviation val := (val P).
Local Abbreviation world := (world P).
Local Abbreviation call := (call text_of to_int of_text).

(** [_.chain] as [mixin] puts it on the prototype. *)
Definition chain_fn : fn P := λ args, match args with obj :: _ => chain obj | [] => throw TypeError end.

Lemma get_wrapper_some (w : world) l x : wrappers w !! l = Some x → get_wrapper l w = (Ok x, w).
Proof. intros H. unfold get_wrapper. by rewrite H. Qed.
Lemma value_some (w : world) l x : wrappers w !! l = Some x → value l w = (Ok (w_wrapped x), w).
Proof. intros H. unfold value. by rewrite (bind_ok _ _ _ _ _ (get_wrapper_some _ _ _ H)). Qed.

Definition plain (v : val) : Prop := match v with Wrapped _ => False | _ => True end.

Lemma make_plain (v : val) w :
  plain v → make v w = (Ok (length (wrappers w)), World (wrappers w ++ [Wrapper v false]) (arrays w)).
Proof. by destruct v. Qed.

Lemma chain_plain (v : val) w :
  plain v →
  chain v w = (Ok (Wrapped (length (wrappers w))), World (wrappers w ++ [Wrapper v true]) (arrays w)).
Proof.
  intros Hv. unfold chain. rewrite (bind_ok _ _ _ _ _ (make_plain v w Hv)).
  rewrite (bind_ok (set_chain _) _ _ tt _ eq_refl). unfold mret, M_ret. cbn [wrappers arrays].
  do 2 f_equal. rewrite alter_app_r_alt by lia. by rewrite Nat.sub_diag.
Qed.

(** The method [chain] of a wrapper that does not chain. *)
Lemma call_chain_first proto n l w v :
  obj_get (js "chain") proto = Some (Mixed chain_fn) →
  wrappers w !! l = Some (Wrapper v false) → plain v →
  call (S n) proto (js "chain") l [] w =
    (Ok (Wrapped (length (wrappers w))), World (wrappers w ++ [Wrapper v true]) (arrays w)).
Proof.
  intros Hc Hl Hv. cbn [Wrap.call]. rewrite Hc. unfold perform.
  rewrite (bind_assoc (value l)), (bind_ok _ _ _ _ _ (value_some _ _ _ Hl)). cbn [w_wrapped chain_fn].
  rewrite (bind_ok _ _ _ _ _ (chain_plain v w Hv)).
  rewrite (bind_ok (get_wrapper l) _ _ (Wrapper v false) (World (wrappers w ++ [Wrapper v true]) (arrays w))).
  - done.
  - apply get_wrapper_some. simpl. rewrite lookup_app_l; [done|]. by apply lookup_lt_Some in Hl.
Qed.

(** A wrapper that chains already overflows the stack when chain is called on
    it, however large the stack is: the new chain is wrapped by a call of chain on
    a wrapper that chains. *)
Theorem chain_twice proto fuel (w : world) l v :
  obj_get (js "chain") proto = Some (Mixed chain_fn) →
  wrappers w !! l = Some (Wrapper v true) → plain v →
  (call fuel proto (js "chain") l [] w).1 = Throw RangeError.
Proof.
  intros Hc. revert l w. induction fuel as [|fuel IH]; intros l w Hl Hv; [done|].
  cbn [Wrap.call]. rewrite Hc. unfold perform.
  rewrite (bind_assoc (value l)), (bind_ok _ _ _ _ _ (value_some _ _ _ Hl)). cbn [w_wrapped chain_fn].
  rewrite (bind_ok _ _ _ _ _ (chain_plain v w Hv)).
  rewrite (bind_ok (get_wrapper l) _ _ (Wrapper v true) (World (wrappers w ++ [Wrapper v true]) (arrays w))).
  - cbn [w_chain make]. rewrite bind_ret. apply IH; [|done]. simpl.
    rewrite lookup_app_r by lia. by rewrite Nat.sub_diag.
  - apply get_wrapper_some. simpl. rewrite lookup_app_l; [done|]. by apply lookup_lt_Some in Hl.
Qed.

(** A function of the library that knows nothing of wrappers. *)
Definition core : Type := list val → M (list (list val)) val.
Definition lift (g : core) : fn P := λ args w,
  let '(r, a) := g args (arrays w) in (r, World (wrappers w) a).
Definition no_wrapper (g : core) : Prop := ∀ args a v a', g args a = (Ok v, a') → plain v.

(** One call on a wrapper that chains. *)
Lemma call_chained proto n name g l args (w : world) obj :
  obj_get (js "chain") proto = Some (Mixed chain_fn) →
  obj_get name proto = Some (Mixed (lift g)) → no_wrapper g →
  wrappers w !! l = Some (Wrapper obj true) →
  match g (obj :: args) (arrays w) with
  | (Ok v, a) => ∃ l' w', call (S (S n)) proto name l args w = (Ok (Wrapped l'), w')
                 ∧ wrappers w' !! l' = Some (Wrapper v true) ∧ arrays w' = a
  | (Throw e, a) => ∃ w', call (S (S n)) proto name l args w = (Throw e, w') ∧ arrays w' = a
  end.
Proof.
  intros Hc Hn Hg Hl. remember (S n) as m eqn:Em. cbn [Wrap.call]. rewrite Hn. unfold perform.
  rewrite (bind_assoc (value l)), (bind_ok _ _ _ _ _ (value_some _ _ _ Hl)). cbn [w_wrapped].
  destruct (g (obj :: args) (arrays w)) as [[v|e] a] eqn:E.
  - assert (Hv : plain v) by eauto.
    assert (Hf : lift g (obj :: args) w = (Ok v, World (wrappers w) a)) by (unfold lift; by rewrite E).
    rewrite (bind_ok _ _ _ _ _ Hf). rewrite (bind_ok (get_wrapper l) _ _ (Wrapper obj true) (World (wrappers w) a)).
    2: { by apply get_wrapper_some. }
    cbn [w_chain]. rewrite (bind_ok _ _ _ _ _ (make_plain v _ Hv)). subst m.
    rewrite (call_chain_first proto n _ _ v Hc); [| |done].
    + eexists _, _. split; [done|]. split; [|done]. simpl. rewrite lookup_app_r by (rewrite length_app; simpl; lia).
      by rewrite Nat.sub_diag.
    + simpl. rewrite lookup_app_r by lia. by rewrite Nat.sub_diag.
  - assert (Hf : lift g (obj :: args) w = (Throw e, World (wrappers w) a)) by (unfold lift; by rewrite E).
    rewrite (bind_throw _ _ _ _ _ Hf). eauto.
Qed.

(** A chain of calls ended by [value], and the nested calls it stands for. *)
Fixpoint chained_calls (fuel : nat) (proto : list (jsstr * method P)) (calls : list (jsstr * list val))
    (this : val) : M world val :=
  match this with
  | Wrapped l =>
      match calls with
      | [] => value l
      | (name, args) :: calls' => r ← call fuel proto name l args; chained_calls fuel proto calls' r
      end
  | _ => throw TypeError
  end.
Fixpoint nested_calls (fs : list (core * list val)) (obj : val) : M (list (list val)) val :=
  match fs with
  | [] => mret obj
  | (g, args) :: fs' => v ← g (obj :: args); nested_calls fs' v
  end.

(** A chain of calls on a wrapped value, ended by value, gives the result of the
    nested calls of the functions, with the same changes of the arrays, and stops at
    the same exception: wrapping every intermediate result changes nothing.  A
    stack of two calls is enough. *)
Theorem chain_is_nesting proto n calls fs (w : world) l obj :
  obj_get (js "chain") proto = Some (Mixed chain_fn) →
  Forall2 (λ c f, obj_get c.1 proto = Some (Mixed (lift f.1)) ∧ c.2 = f.2 ∧ no_wrapper f.1) calls fs →
  wrappers w !! l = Some (Wrapper obj true) →
  let '(r, w') := chained_calls (S (S n)) proto calls (Wrapped l) w in
  (r, arrays w') = nested_calls fs obj (arrays w).
Proof.
  intros Hc Hfs. revert l obj w. induction Hfs as [|[name args] [g args'] calls fs (Hn & Ha & Hg) Hfs IH];
    intros l obj w Hl; cbn [fst snd] in *.
  - cbn [chained_calls nested_calls]. by rewrite (value_some _ _ _ Hl).
  - subst args'. cbn [chained_calls nested_calls].
    pose proof (call_chained proto n name g l args w obj Hc Hn Hg Hl) as Hstep.
    cbn [fst snd] in *. destruct (g (obj :: args) (arrays w)) as [[v|e] a] eqn:E.
    + destruct Hstep as (l' & w' & Hcall & Hl' & <-). rewrite (bind_ok _ _ _ _ _ Hcall), (bind_ok _ _ _ _ _ E).
      by apply IH.
    + destruct Hstep as (w' & Hcall & <-). by rewrite (bind_throw _ _ _ _ _ Hcall), (bind_throw _ _ _ _ _ E).
Qed.

(** ** The library after mixin *)

Lemma mixin_fold (obj : list (jsstr * option (fn P))) names lib name :
  obj_get name (prototype (foldl (λ lib name,
    match obj_get name obj with
    | Some (Some func) =>
        Library (obj_set name func (statics lib)) (obj_set name (Mixed func) (prototype lib))
    | _ => lib
    end) lib names)) =
  if decide (name ∈ names) then
    match obj_get name obj with Some (Some f) => Some (Mixed f) | _ => obj_get name (prototype lib) end
  else obj_get name (prototype lib).
Proof.
  revert lib. induction names as [|k names IH]; intros lib; [done|]. cbn [foldl]. rewrite IH.
  assert (Hk : obj_get name (prototype match obj_get k obj with
    | Some (Some func) => Library (obj_set k func (statics lib)) (obj_set k (Mixed func) (prototype lib))
    | _ => lib end) =
    if decide (name = k) then
      match obj_get name obj with Some (Some f) => Some (Mixed f) | _ => obj_get name (prototype lib) end
    else obj_get name (prototype lib)).
  { destruct (decide (name = k)) as [->|Hne].
    - destruct (obj_get k obj) as [[f|]|]; [|done..]. simpl. by rewrite obj_get_set, decide_True.
    - destruct (obj_get k obj) as [[f|]|]; [|done..]. simpl. by rewrite obj_get_set, decide_False. }
  rewrite Hk. repeat case_decide; try set_solver; by destruct (obj_get name obj) as [[f|]|].
Qed.

(** What a method is after [mixin]: the function of that name, if [obj] has one. *)
Lemma mixin_method (obj : list (jsstr * option (fn P))) lib name :
  obj_wf obj →
  obj_get name (prototype (mixin obj lib)) =
    match obj_get name obj with Some (Some f) => Some (Mixed f) | _ => obj_get name (prototype lib) end.
Proof.
  intros Hwf. unfold mixin. rewrite mixin_fold. case_decide as Hd; [done|].
  destruct (obj_get name obj) as [[f|]|] eqn:E; [|done..]. destruct Hd. unfold functions.
  rewrite js_sort_perm. apply list_elem_of_omap. exists (name, Some f). split; [|done].
  by apply (obj_get_elem _ _ _ Hwf).
Qed.

Lemma foldl_set (m : jsstr → method P) names proto name :
  obj_get name (foldl (λ p n, obj_set n (m n) p) proto names) =
    if decide (name ∈ names) then Some (m name) else obj_get name proto.
Proof.
  revert proto. induction names as [|k names IH]; intros proto; [done|]. cbn [foldl]. rewrite IH, obj_get_set.
  repeat case_decide; try set_solver.
Qed.

(** The methods of arrays hide the functions mixed in before. *)
Lemma array_methods_spec (lib : library (P := P)) name :
  obj_get name (prototype (array_methods lib)) =
    if decide (name ∈ accessors) then Some (Accessor name)
    else if decide (name ∈ mutators) then Some (Mutator name) else obj_get name (prototype lib).
Proof. unfold array_methods. cbn [prototype]. by rewrite !foldl_set. Qed.
End facts.

(** ** A chain on numbers *)

Definition add_core (k : nat) : core (P := nat) := λ args s,
  match args with Plain p :: _ => (Ok (Plain (p + k)), s) | _ => (Throw TypeError, s) end.
Definition numbers : list (jsstr * method nat) :=
  [(js "chain", Mixed chain_fn); (js "inc", Mixed (lift (add_core 1))); (js "ten", Mixed (lift (add_core 10)))].
Definition one : world nat := World [Wrapper (Plain 1) true] [].

Lemma add_core_plain k : no_wrapper (add_core k).
Proof. intros [|[p|a|l] args] s v s' H; try done. by injection H as <- _. Qed.

Definition no_text (v : val nat) : jsstr := [].
Definition no_int (v : val nat) : Z := 0.
Definition no_value (s : jsstr) : nat := 0.

Lemma chain_twice_witness :
  (call no_text no_int no_value 10 numbers (js "chain") 0 [] one).1 = Throw RangeError.
Proof. apply (chain_twice no_text no_int no_value numbers 10 one 0 (Plain 1)); done. Defined.

Lemma chain_is_nesting_witness :
  let '(r, w) := chained_calls no_text no_int no_value 2 numbers [(js "inc", []); (js "ten", [])] (Wrapped 0) one in
  (r, arrays w) = (Ok (Plain 12), []).
Proof.
  apply (chain_is_nesting no_text no_int no_value numbers 0 [(js "inc", []); (js "ten", [])]
    [(add_core 1, []); (add_core 10, [])] one 0 (Plain 1)); [done| |done].
  repeat constructor; apply add_core_plain.
Defined.
End WrapFacts.

Module Bind.

Section bind.
Context {S V : Type} (undefined : V).

(** A function: [this], the arguments, and the effects of a call. *)
Definition fn : Type := V → list V → M S V.
(** An argument that was not passed is [undefined]. *)
Definition arg (args : list V) (i : nat) : V := default undefined (args !! i).

(** [createCallback]: without a context the function itself, otherwise a function
    that passes the context and the first [argCount] arguments. *)
Definition createCallback (func : fn) (context : option V) (argCount : option nat) : fn :=
  match context with
  | None => func
  | Some context =>
      match default 3 argCount with
      | 1 => λ _ args, func context [arg args 0]
      | 2 => λ _ args, func context [arg args 0; arg args 1]
      | 3 => λ _ args, func context [arg args 0; arg args 1; arg args 2]
      | 4 => λ _ args, func context [arg args 0; arg args 1; arg args 2; arg args 3]
      | _ => λ _ args, func context args
      end
  end.

Definition identity (value : V) : V := value.
Definition constant (value : V) : fn := λ _ _, mret value.
Definition noop : fn := λ _ _, mret undefined.
(** [property(key)]: reading a property of [null] or [undefined] throws. *)
Definition property (get : V → jsstr → outcome V) (key : jsstr) : fn := λ _ args s,
  (get (arg args 0) key, s).

(** The kinds of values that [iteratee] tells apart, and the function it makes. *)
Inductive callback : Type :=
  | Nullish
  | Function (f : fn)
  | Attributes (attrs : V → bool)
  | Key (key : jsstr).
Definition iteratee (get : V → jsstr → outcome V) (of_bool : bool → V) (value : callback)
    (context : option V) (argCount : option nat) : fn :=
  match value with
  | Nullish => λ _ args, mret (identity (arg args 0))
  | Function f => createCallback f context argCount
  | Attributes attrs => λ _ args, mret (of_bool (attrs (arg args 0)))
  | Key key => property get key
  end.

(** [tap]: the result of the interceptor is dropped. *)
Definition tap (obj : V) (interceptor : fn) : M S V :=
  interceptor undefined [obj] ≫= λ _, mret obj.
(** [result]: [None] is [null] or [undefined]; a property that is a function is
    called on its object. *)
Definition result (obj : option (V * (fn + V))) : M S V :=
  match obj with
  | None => mret undefined
  | Some (obj, inl f) => f obj []
  | Some (_, inr v) => mret v
  end.

(** [bind(func, context, ...bound)]; [None] is a value that is not a function. *)
Definition bind (func : option fn) (context : V) (bound : list V) : outcome fn :=
  match func with
  | None => Throw TypeError
  | Some func => Ok (λ _ args, func context (bound ++ args))
  end.
(** [new bound(...args)]: a new object of the function's prototype is [this], and it is
    the result unless the function returns an object. *)
Definition bound_new (new_object : M S V) (is_object : V → bool) (func : fn) (bound args : list V) : M S V :=
  self ← new_object;
  result ← func self (bound ++ args);
  mret (if is_object result then result else self).

(** [bindAll(obj, ...keys)] on the methods of [obj]; the methods bound before an
    exception stay bound. *)
Fixpoint bind_keys (obj : V) (keys : list jsstr) (methods : list (jsstr * fn))
    : outcome V * list (jsstr * fn) :=
  match keys with
  | [] => (Ok obj, methods)
  | key :: keys' =>
      match bind (obj_get key methods) obj [] with
      | Throw e => (Throw e, methods)
      | Ok f => bind_keys obj keys' (obj_set key f methods)
      end
  end.
Definition bindAll (obj : V) (keys : list jsstr) (methods : list (jsstr * fn))
    : outcome V * list (jsstr * fn) :=
  match keys with
  | [] => (Throw (UserError 0), methods)
  | _ => bind_keys obj keys methods
  end.

(** [invoke(obj, method, ...args)]: [lookup] reads a method by name. *)
Definition invoke (lookup : V → jsstr → outcome (option fn)) (obj : coll V) (method : fn + jsstr)
    (args : list V) : M S (list V) :=
  U.map obj (λ value _ s,
    match method with
    | inl f => f value args s
    | inr name =>
        match lookup value name with
        | Ok (Some f) => f value args s
        | Ok None => (Throw TypeError, s)
        | Throw e => (Throw e, s)
        end
    end).

(** ** Timers

    [setTimeout] adds a timer: when it is due, its number and its call.  The timer
    that runs is the first due one, and of those of one time the first made. *)
Record timer := Timer { due : Z; t_id : nat; t_call : M S V }.
Definition setTimeout (now : Z) (f : M S V) (wait : Z) (timers : list timer) (next : nat)
    : nat * list timer := (next, timers ++ [Timer (now + Z.max 0 wait) next f]).
Definition delay (now : Z) (null : V) (func : fn) (wait : Z) (args : list V)
    (timers : list timer) (next : nat) : nat * list timer :=
  setTimeout now (func null args) wait timers next.
Definition defer (now : Z) (null : V) (func : fn) (args : list V) (timers : list timer) (next : nat)
    : nat * list timer := delay now null func 1 args timers next.
End bind.
Arguments fn : clear implicits.
Arguments timer : clear implicits.

(** ** Samples *)

(** [sample(obj)]: [n / d] is the draw of [Math.random]; an index out of range reads
    as [undefined]. *)
Definition sample1 {A} (obj : coll A) (n d : Z) : option A :=
  let vs := U.values obj in
  let i := U.random 0 (zlen vs - 1) n d in
  if (i <? 0)%Z then None else vs !! Z.to_nat i.
(** [sample(obj, n)]. *)
Definition sample {A} (draw : nat → nat) (obj : coll A) (n : Z) : list (option A) :=
  take (Z.to_nat (Z.max 0 n)) (U.shuffle draw obj).
End Bind.

Module BindFacts.
Import Bind.

Section facts.
Context {S V : Type} (undefined : V).
Local Abbreviation fn := (fn S V).

(** Binding a bound function changes nothing but the arguments in front. *)
Lemma bind_twice (f g : fn) c c' bound bound' :
  bind (Some f) c bound = Ok g →
  ∃ k k', bind (Some g) c' bound' = Ok k ∧ bind (Some f) c (bound ++ bound') = Ok k' ∧
    ∀ this args, k this args = k' this args.
Proof.
  intros [= <-]. unfold bind. eexists _, _. do 2 (split; [done|]). intros this args.
  cbv beta. by rewrite <- (assoc_L (++)).
Qed.

(** A function that reads at most [n] arguments. *)
Definition reads (n : nat) (f : fn) : Prop := ∀ c args args',
  (∀ i, i < n → arg undefined args i = arg undefined args' i) → f c args = f c args'.

(** [createCallback] with a count changes [this] and nothing else, for a function
    that reads no more arguments than the count. *)
Lemma createCallback_spec f c n this args :
  1 ≤ n ≤ 4 → reads n f → createCallback undefined f (Some c) (Some n) this args = f c args.
Proof.
  intros Hn Hr. destruct n as [|[|[|[|[|n]]]]]; try lia; simpl; apply Hr;
    intros i Hi; repeat (destruct i as [|i]; [done|]); lia.
Qed.
Lemma createCallback_default (f : fn) c this args :
  createCallback undefined f (Some c) None this args = createCallback undefined f (Some c) (Some 3) this args.
Proof. done. Qed.

(** The methods after a bound call of [bindAll]. *)
Lemma bind_keys_spec obj keys (methods : list (jsstr * fn)) :
  Forall (λ k, is_Some (obj_get k methods)) keys →
  ∃ methods', bind_keys obj keys methods = (Ok obj, methods') ∧
    ∀ k, obj_get k methods' =
      if decide (k ∈ keys) then (λ f : fn, λ _ args, f obj args) <$> obj_get k methods else obj_get k methods.
Proof.
  revert methods. induction keys as [|key keys IH]; intros methods Hk; [by exists methods|].
  apply Forall_cons in Hk as [[f Hf] Hk]. cbn [bind_keys]. rewrite Hf. cbn [bind].
  destruct (IH (obj_set key (λ _ args, f obj ([] ++ args)) methods)) as (methods' & E & H).
  { eapply Forall_impl; [exact Hk|]. intros k [g Hg]. rewrite obj_get_set. case_decide; eauto. }
  exists methods'. split; [exact E|]. intros k. rewrite H, obj_get_set.
  destruct (decide (k = key)) as [->|Hne].
  - rewrite Hf, (decide_True (P := key ∈ key :: keys)) by (by left). by case_decide.
  - repeat case_decide; set_solver.
Qed.

(** [bindAll] stops at the first key that is not a method; those before are bound. *)
Lemma bind_keys_stops obj keys key keys' (methods : list (jsstr * fn)) :
  Forall (λ k, is_Some (obj_get k methods)) keys → obj_get key methods = None →
  bind_keys obj (keys ++ key :: keys') methods = (Throw TypeError, (bind_keys obj keys methods).2).
Proof.
  revert methods. induction keys as [|k keys IH]; intros methods Hk Hn; [simpl; by rewrite Hn|].
  apply Forall_cons in Hk as [[f Hf] Hk]. simpl. rewrite Hf. cbn [bind]. apply IH.
  - eapply Forall_impl; [exact Hk|]. intros k' [g Hg]. rewrite obj_get_set. case_decide; eauto.
  - rewrite obj_get_set. case_decide as Hd; [|done]. subst. by rewrite Hf in Hn.
Qed.
End facts.

(** A sample has the size that was asked for, or all, and takes every element at most
    as often as the collection has it. *)
Lemma sample_spec {A} (draw : nat → nat) (obj : coll A) n :
  (∀ i, draw i ≤ i) →
  length (sample draw obj n) = Nat.min (Z.to_nat (Z.max 0 n)) (length (U.values obj))
  ∧ ∃ rest, sample draw obj n ++ rest ≡ₚ Some <$> U.values obj.
Proof.
  intros Hd. pose proof (shuffle_loop_perm draw (U.values obj) [] Hd) as Hp.
  change (U.shuffle_loop draw (U.values obj) _ _) with (U.shuffle draw obj) in Hp.
  unfold sample. rewrite length_take. split.
  - f_equal. rewrite (Permutation_length Hp). by rewrite length_fmap.
  - exists (drop (Z.to_nat (Z.max 0 n)) (U.shuffle draw obj)). by rewrite take_drop.
Qed.

Lemma sample1_some {A} (obj : coll A) n d :
  (0 ≤ n < d)%Z → U.values obj ≠ [] → ∃ v, sample1 obj n d = Some v ∧ v ∈ U.values obj.
Proof.
  intros Hn Hv. unfold sample1, zlen. assert (Hl : 0 < length (U.values obj)) by (destruct (U.values obj); [done|simpl; lia]).
  pose proof (random_bounds 0 (Z.of_nat (length (U.values obj)) - 1) n d ltac:(lia) Hn) as Hr.
  destruct (Z.ltb_spec (U.random 0 (Z.of_nat (length (U.values obj)) - 1) n d) 0) as [|_]; [lia|].
  destruct (lookup_lt_is_Some_2 (U.values obj) (Z.to_nat (U.random 0 (Z.of_nat (length (U.values obj)) - 1) n d)))
    as [v Hv']; [lia|]. exists v. split; [done|]. by eapply list_elem_of_lookup_2.
Qed.
End BindFacts.
