(* ===== verification/JqCallbacks.v ===== *)
(** * Callback lists of jquery.js

    [jQuery.Callbacks]: the closure variables of a list are the record [cbs], its
    methods are functions on it, and [fire] runs the callbacks in a world of which
    the list is a part, so that a callback may use the list that is calling it. *)

From stdpp Require Import base tactics list strings numbers sets gmap.
From Stdlib Require Import ZArith Lia.
From S2P Require Import Prelude.
From S2P Require Import JsString.
From S2P Require Import Regex.

Module Callbacks.

(** ** Options *)

Record flags := Flags {
  once : bool;
  remember : bool;      (* [options.memory] *)
  unique : bool;
  stopOnFalse : bool;
}.

(** The matches of [/\S+/g]. *)
Definition words (s : jsstr) : list jsstr :=
  base.filter (λ w, w ≠ []) (split_on is_space s).
Definition createOptions (options : jsstr) : flags :=
  let flag name := existsb (str_eqb (js name)) (words options) in
  Flags (flag "once"%string) (flag "memory"%string) (flag "unique"%string)
    (flag "stopOnFalse"%string).

Example createOptions_ex : createOptions (js "once memory") = Flags true true false false.
Proof. vm_compute. reflexivity. Qed.

(** ** The state of a list *)

Section lists.
Context {Fn D : Type} `{EqDecision Fn}.

Record cbs := Cbs {
  firing : bool;
  memory : option D;          (* [None] when it is not true *)
  fired : bool;
  firingLength : Z;
  firingIndex : Z;
  firingStart : nat;          (* 0 when it is undefined *)
  list_ : option (list Fn);   (* [None] once disabled *)
  stack : option (list D);    (* [None] when it is not an array *)
}.

Definition set_firing (b : bool) (s : cbs) : cbs :=
  Cbs b (memory s) (fired s) (firingLength s) (firingIndex s) (firingStart s) (list_ s) (stack s).
Definition set_memory (m : option D) (s : cbs) : cbs :=
  Cbs (firing s) m (fired s) (firingLength s) (firingIndex s) (firingStart s) (list_ s) (stack s).
Definition set_length (n : Z) (s : cbs) : cbs :=
  Cbs (firing s) (memory s) (fired s) n (firingIndex s) (firingStart s) (list_ s) (stack s).
Definition set_index (i : Z) (s : cbs) : cbs :=
  Cbs (firing s) (memory s) (fired s) (firingLength s) i (firingStart s) (list_ s) (stack s).
Definition set_start (n : nat) (s : cbs) : cbs :=
  Cbs (firing s) (memory s) (fired s) (firingLength s) (firingIndex s) n (list_ s) (stack s).
Definition set_list (l : option (list Fn)) (s : cbs) : cbs :=
  Cbs (firing s) (memory s) (fired s) (firingLength s) (firingIndex s) (firingStart s) l (stack s).
Definition set_stack (q : option (list D)) (s : cbs) : cbs :=
  Cbs (firing s) (memory s) (fired s) (firingLength s) (firingIndex s) (firingStart s) (list_ s) q.

Definition Callbacks (o : flags) : cbs :=
  Cbs false None false 0 0 0 (Some []) (if once o then None else Some []).

(** ** Methods that call nothing *)

(** [jQuery.inArray(fn, list, i)]. *)
Fixpoint inArray_at (f : Fn) (l : list Fn) (i pos : nat) : option nat :=
  match l with
  | [] => None
  | g :: l' =>
      if bool_decide (i ≤ pos ∧ g = f) then Some pos else inArray_at f l' i (S pos)
  end.
Definition inArray (f : Fn) (l : list Fn) (i : nat) : option nat := inArray_at f l i 0.

(** [has(fn)] and [has()]. *)
Definition has (f : Fn) (s : cbs) : bool :=
  match list_ s with Some l => bool_decide (is_Some (inArray f l 0)) | None => false end.
Definition has_any (s : cbs) : bool :=
  match list_ s with Some (_ :: _) => true | _ => false end.

(** The arguments of [add]: functions, nested arrays of them, other values. *)
Inductive arg : Type :=
  | Fun (f : Fn)
  | Args (l : list arg)
  | Other.
Definition push (o : flags) (f : Fn) (l : list Fn) : list Fn :=
  if negb (unique o) || negb (bool_decide (is_Some (inArray f l 0))) then l ++ [f] else l.
Fixpoint add_arg (o : flags) (l : list Fn) (a : arg) : list Fn :=
  match a with
  | Fun f => push o f l
  | Args l' => foldl (add_arg o) l l'
  | Other => l
  end.

(** The loop of [remove] for one argument; the list shrinks at every turn. *)
Definition spliced (i : nat) (s : cbs) : cbs :=
  let s := set_list (delete i <$> list_ s) s in
  if firing s then
    let s := if (Z.of_nat i <=? firingLength s)%Z then set_length (firingLength s - 1) s else s in
    if (Z.of_nat i <=? firingIndex s)%Z then set_index (firingIndex s - 1) s else s
  else s.
Fixpoint remove_loop (fuel : nat) (f : Fn) (i : nat) (s : cbs) : cbs :=
  match fuel, list_ s with
  | S k, Some l =>
      match inArray f l i with
      | Some j => remove_loop k f j (spliced j s)
      | None => s
      end
  | _, _ => s
  end.
(** One more turn than the list is long is enough. *)
Definition remove_one (f : Fn) (s : cbs) : cbs :=
  match list_ s with Some l => remove_loop (S (length l)) f 0 s | None => s end.
Definition remove (fs : list Fn) (s : cbs) : cbs := foldl (λ s f, remove_one f s) s fs.

Definition empty (s : cbs) : cbs := set_length 0 (set_list (Some []) s).
Definition disable (s : cbs) : cbs := set_list None (set_stack None (set_memory None s)).
Definition disabled (s : cbs) : bool := match list_ s with None => true | Some _ => false end.
Definition lock (s : cbs) : cbs :=
  let s := set_stack None s in
  match memory s with None => disable s | Some _ => s end.
Definition locked (s : cbs) : bool := match stack s with None => true | Some _ => false end.

(** ** Firing, in a world the list is part of *)

Section world.
Context {W : Type}.
Variable getc : W → cbs.
Variable setc : cbs → W → W.
Variable o : flags.
(** Calling a callback; the result is whether it returned [false]. *)
Variable call : Fn → D → M W bool.

Definition upd (f : cbs → cbs) : M W unit := modify (λ w, setc (f (getc w)) w).

(** The start of [fire], up to its loop. *)
Definition fire_begin (data : D) (s : cbs) : cbs :=
  let s := set_memory (if remember o then Some data else None) s in
  let s := Cbs (firing s) (memory s) true (firingLength s) (Z.of_nat (firingStart s)) 0
             (list_ s) (stack s) in
  set_firing true (set_length (Z.of_nat (length (default [] (list_ s)))) s).
(** The loop: reading outside of the list would call [undefined]. *)
Fixpoint fire_loop (fuel : nat) (data : D) : M W unit :=
  match fuel with
  | 0 => throw Diverge
  | S k =>
      Prelude.get ≫= λ w : W,
      let s := getc w in
      match list_ s with
      | None => mret tt
      | Some l =>
          if (firingIndex s <? firingLength s)%Z then
            match (if (firingIndex s <? 0)%Z then None else l !! Z.to_nat (firingIndex s)) with
            | None => throw TypeError
            | Some f =>
                call f data ≫= λ returned_false,
                if returned_false && stopOnFalse o then upd (set_memory None)
                else
                  upd (λ s, set_index (firingIndex s + 1) s) ≫= λ _,
                  fire_loop k data
            end
          else mret tt
      end
  end.
Fixpoint fire (fuel : nat) (data : D) : M W unit :=
  match fuel with
  | 0 => throw Diverge
  | S k =>
      upd (fire_begin data) ≫= λ _,
      fire_loop k data ≫= λ _,
      upd (set_firing false) ≫= λ _,
      Prelude.get ≫= λ w : W,
      let s := getc w in
      match list_ s with
      | None => mret tt
      | Some _ =>
          match stack s with
          | Some (d :: q) => upd (set_stack (Some q)) ≫= λ _, fire k d
          | Some [] => mret tt
          | None =>
              match memory s with
              | Some _ => upd (set_list (Some []))
              | None => upd disable
              end
          end
      end
  end.

Definition add (fuel : nat) (args : list arg) : M W unit :=
  Prelude.get ≫= λ w : W,
  match list_ (getc w) with
  | None => mret tt
  | Some l =>
      let l' := foldl (add_arg o) l args in
      upd (set_list (Some l')) ≫= λ _,
      if firing (getc w) then upd (set_length (Z.of_nat (length l')))
      else
        match memory (getc w) with
        | Some m => upd (set_start (length l)) ≫= λ _, fire fuel m
        | None => mret tt
        end
  end.

(** [fireWith]; the data is the pair of the context and the arguments. *)
Definition fireWith (fuel : nat) (data : D) : M W unit :=
  Prelude.get ≫= λ w : W,
  let s := getc w in
  if negb (disabled s) && (negb (fired s) || negb (locked s)) then
    if firing s then
      match stack s with
      | Some q => upd (set_stack (Some (q ++ [data])))
      | None => throw TypeError
      end
    else fire fuel data
  else mret tt.
End world.
End lists.
Arguments cbs : clear implicits.
Arguments arg : clear implicits.

(** ** Positions in the list *)

Section positions.
Context {Fn D : Type} `{EqDecision Fn}.
Implicit Types (l : list Fn) (s : cbs Fn D).

Lemma inArray_at_Some (f : Fn) l i pos j :
  inArray_at f l i pos = Some j ↔
  pos ≤ j ∧ i ≤ j ∧ l !! (j - pos) = Some f ∧
  ∀ j', pos ≤ j' → i ≤ j' → j' < j → l !! (j' - pos) ≠ Some f.
Proof.
  revert pos. induction l as [|g l IH]; intros pos; cbn [inArray_at].
  { split; [done|]. intros (_ & _ & H & _). done. }
  case_bool_decide as Hb.
  - destruct Hb as [Hi ->]. split.
    + intros [= <-]. rewrite Nat.sub_diag. repeat split; [lia..|]. intros. lia.
    + intros (Hp & Hij & Hl & Hmin). f_equal. destruct (decide (pos = j)) as [|Hne]; [done|].
      destruct (Hmin pos); [lia..|by rewrite Nat.sub_diag].
  - rewrite IH. split.
    + intros (Hp & Hi & Hl & Hmin). repeat split; [lia..| |].
      * replace (j - pos) with (S (j - S pos)) by lia. done.
      * intros j' Hpj Hij Hjj. destruct (decide (j' = pos)) as [->|Hne].
        { rewrite Nat.sub_diag. cbn. intros [= ->]. by destruct Hb. }
        replace (j' - pos) with (S (j' - S pos)) by lia. apply Hmin; lia.
    + intros (Hp & Hi & Hl & Hmin). destruct (decide (j = pos)) as [->|Hne].
      { rewrite Nat.sub_diag in Hl. injection Hl as ->. by destruct Hb. }
      replace (j - pos) with (S (j - S pos)) in Hl by lia. repeat split; [lia..|done|].
      intros j' Hpj Hij Hjj Hc. apply (Hmin j'); [lia..|].
      by replace (j' - pos) with (S (j' - S pos)) by lia.
Qed.
Lemma inArray_Some (f : Fn) l i j :
  inArray f l i = Some j ↔
  i ≤ j ∧ l !! j = Some f ∧ ∀ j', i ≤ j' → j' < j → l !! j' ≠ Some f.
Proof.
  unfold inArray. rewrite inArray_at_Some, Nat.sub_0_r. split.
  - intros (_ & Hi & Hl & Hm). repeat split; [done..|]. intros j' Hi' Hj'.
    specialize (Hm j'). rewrite Nat.sub_0_r in Hm. apply Hm; lia.
  - intros (Hi & Hl & Hm). repeat split; [lia|done..|]. intros j' _ Hi' Hj'.
    rewrite Nat.sub_0_r. by apply Hm.
Qed.
Lemma inArray_at_None (f : Fn) l i pos :
  inArray_at f l i pos = None → ∀ j, i ≤ pos + j → l !! j ≠ Some f.
Proof.
  revert pos. induction l as [|g l IH]; intros pos; cbn [inArray_at]; [done|].
  case_bool_decide as Hb; [done|]. intros Hn [|j] Hj; cbn.
  - intros [= ->]. apply Hb. split; [lia|done].
  - apply (IH (S pos)); [done|lia].
Qed.
Lemma inArray_None (f : Fn) l i : inArray f l i = None → f ∉ drop i l.
Proof.
  intros Hn Hin. apply list_elem_of_lookup in Hin as [j Hj]. rewrite lookup_drop in Hj.
  by apply (inArray_at_None _ _ _ _ Hn (i + j)); [lia|].
Qed.
Lemma inArray_0_elem (f : Fn) l : is_Some (inArray f l 0) ↔ f ∈ l.
Proof.
  split.
  - intros [j Hj]. apply inArray_Some in Hj as (_ & Hj & _). by eapply list_elem_of_lookup_2.
  - intros Hin. destruct (inArray f l 0) eqn:E; [done|]. by apply inArray_None in E.
Qed.
End positions.

(** ** A list that is firing *)

Section firing.
Context {Fn D : Type} `{EqDecision Fn}.
Implicit Types (l : list Fn) (s : cbs Fn D).

(** While a list fires, [firingLength] is its length. *)
Definition wf s : Prop :=
  firing s = true → fired s = true ∧ (-1 ≤ firingIndex s)%Z ∧
  ∀ l, list_ s = Some l → firingLength s = Z.of_nat (length l).
(** The callbacks the loop has still to call. *)
Definition pending s : list Fn := drop (Z.to_nat (firingIndex s + 1)) (default [] (list_ s)).

Lemma drop_delete l j n : j ≤ n → drop n (delete j l) = drop (S n) l.
Proof.
  revert j n. induction l as [|x l IH]; intros [|j] [|n] Hjn; cbn; try done; try lia.
  apply IH. lia.
Qed.
Lemma filter_delete (f : Fn) l j :
  l !! j = Some f → base.filter (λ g, g ≠ f) (delete j l) = base.filter (λ g, g ≠ f) l.
Proof.
  revert j. induction l as [|x l IH]; intros [|j] Hj; [done..| |];
    cbn [lookup list_lookup] in Hj; cbn [delete list_delete].
  - injection Hj as ->. rewrite filter_cons. by rewrite decide_False by (intros Hc; by apply Hc).
  - rewrite !filter_cons. by rewrite IH.
Qed.
Lemma pending_delete (f : Fn) l j n :
  l !! j = Some f → n ≤ j →
  base.filter (λ g, g ≠ f) (drop n (delete j l)) = base.filter (λ g, g ≠ f) (drop n l).
Proof.
  revert j n. induction l as [|x l IH]; intros j [|n] Hj Hnj; cbn [drop].
  - done.
  - done.
  - by apply filter_delete.
  - destruct j as [|j]; [lia|]. cbn [delete list_delete drop]. apply IH; [done|lia].
Qed.

(** What [remove] leaves alone. *)
Definition same_rest s s' : Prop :=
  firing s' = firing s ∧ memory s' = memory s ∧ fired s' = fired s ∧
  firingStart s' = firingStart s ∧ stack s' = stack s.
Lemma same_rest_trans s1 s2 s3 : same_rest s1 s2 → same_rest s2 s3 → same_rest s1 s3.
Proof. unfold same_rest. intuition congruence. Qed.

Lemma spliced_rest j s : same_rest s (spliced j s).
Proof.
  unfold same_rest, spliced. destruct s as [b m fd n i st l q]; cbn.
  destruct b; [|done]. cbn. by repeat case_match.
Qed.
Lemma spliced_list j s l : list_ s = Some l → list_ (spliced j s) = Some (delete j l).
Proof.
  unfold spliced. destruct s as [b m fd n i st l1 q]; cbn. intros ->.
  destruct b; [|done]. cbn. by repeat case_match.
Qed.
Lemma spliced_firing (f : Fn) j s l :
  wf s → firing s = true → list_ s = Some l → l !! j = Some f →
  wf (spliced j s) ∧
  base.filter (λ g, g ≠ f) (pending (spliced j s)) = base.filter (λ g, g ≠ f) (pending s).
Proof.
  intros Hwf Hf Hl Hj. destruct (Hwf Hf) as (Hfd & Hi & Hn). specialize (Hn l Hl).
  pose proof (lookup_lt_Some _ _ _ Hj) as Hlt.
  unfold spliced, wf, pending. destruct s as [b m fd n i st l1 q]. cbn in *. subst b l1. cbn.
  rewrite (proj2 (Z.leb_le (Z.of_nat j) n)) by lia. cbn.
  destruct (Z.leb_spec (Z.of_nat j) i) as [Hji|Hji]; cbn.
  - split.
    + intros _. split; [done|]. split; [lia|]. intros l' [= <-].
      rewrite length_delete by (by eexists). lia.
    + rewrite drop_delete by lia. repeat f_equal. lia.
  - split.
    + intros _. split; [done|]. split; [lia|]. intros l' [= <-].
      rewrite length_delete by (by eexists). lia.
    + apply pending_delete; [done|lia].
Qed.

Lemma remove_loop_spec k f i s l :
  list_ s = Some l → f ∉ take i l → i ≤ length l → length l < k + i →
  let s' := remove_loop k f i s in
  same_rest s s' ∧ list_ s' = Some (base.filter (λ g, g ≠ f) l) ∧
  (wf s → firing s = true → wf s' ∧ pending s' = base.filter (λ g, g ≠ f) (pending s)).
Proof.
  revert i s l. induction k as [|k IH]; intros i s l Hl Ht Hi Hk; [lia|]. cbn [remove_loop].
  rewrite Hl. destruct (inArray f l i) as [j|] eqn:Ej.
  - apply inArray_Some in Ej as (Hij & Hj & Hm). pose proof (lookup_lt_Some _ _ _ Hj) as Hlt.
    pose proof (spliced_list j s l Hl) as Hl'.
    assert (Hlen : length (delete j l) = length l - 1) by (apply length_delete; by eexists).
    destruct (IH j (spliced j s) (delete j l) Hl') as (Hr & Hl2 & Hp); [|lia|lia|].
    { intros Hin. apply list_elem_of_lookup in Hin as [p Hp].
      apply lookup_take_Some in Hp as [Hp Hpj]. rewrite list_lookup_delete_lt in Hp by done.
      destruct (decide (i ≤ p)) as [Hip|Hip]; [by apply (Hm p)|].
      apply Ht. apply list_elem_of_lookup. exists p. apply lookup_take_Some. split; [done|lia]. }
    split; [by eapply same_rest_trans; [apply spliced_rest|]|]. split.
    { rewrite Hl2. by rewrite filter_delete. }
    intros Hwf Hf. destruct (spliced_firing f j s l Hwf Hf Hl Hj) as [Hwf' Hp'].
    destruct (Hp Hwf') as [Hw2 Hp2]; [by rewrite (proj1 (spliced_rest j s))|].
    split; [done|]. by rewrite Hp2.
  - pose proof (inArray_None _ _ _ Ej) as Hd.
    assert (Hn : f ∉ l).
    { rewrite <- (take_drop i l). rewrite elem_of_app. tauto. }
    assert (Hall : ∀ g, g ∈ l → g ≠ f) by (by intros g Hg ->).
    split; [by unfold same_rest|]. split; [by rewrite (list_filter_all _ l)|].
    intros Hwf Hf. split; [done|]. rewrite list_filter_all; [done|].
    intros g Hg. apply Hall. unfold pending in Hg. rewrite Hl in Hg.
    cbn in Hg. apply list_elem_of_lookup in Hg as [p Hg]. rewrite lookup_drop in Hg. by eapply list_elem_of_lookup_2.
Qed.
End firing.

(** ** Methods used by a callback of a firing list *)

(** The methods that change a list. *)
Inductive method (Fn D : Type) : Type :=
  | MAdd (args : list (arg Fn))
  | MRemove (fs : list Fn)
  | MEmpty
  | MDisable
  | MLock
  | MFire (data : D).
Arguments MAdd {Fn D} args.
Arguments MRemove {Fn D} fs.
Arguments MEmpty {Fn D}.
Arguments MDisable {Fn D}.
Arguments MLock {Fn D}.
Arguments MFire {Fn D} data.

Section during.
Context {Fn D : Type} `{EqDecision Fn} (o : flags).
Implicit Types (l : list Fn) (s : cbs Fn D).

(** What they do to a list that is firing: none of them calls anything. *)
Definition during (m : method Fn D) s : cbs Fn D :=
  match m with
  | MAdd args =>
      match list_ s with
      | None => s
      | Some l =>
          let l' := foldl (add_arg o) l args in
          set_length (Z.of_nat (length l')) (set_list (Some l') s)
      end
  | MRemove fs => remove fs s
  | MEmpty => empty s
  | MDisable => disable s
  | MLock => lock s
  | MFire data =>
      match list_ s, stack s with
      | Some _, Some q => set_stack (Some (q ++ [data])) s
      | _, _ => s
      end
  end.

Lemma remove_one_spec f s :
  same_rest s (remove_one f s) ∧
  list_ (remove_one f s) = base.filter (λ g, g ≠ f) <$> list_ s ∧
  (wf s → firing s = true → wf (remove_one f s) ∧
    pending (remove_one f s) = base.filter (λ g, g ≠ f) (pending s)).
Proof.
  unfold remove_one. destruct (list_ s) as [l|] eqn:Hl; cbn [fmap option_fmap option_map].
  - destruct (remove_loop_spec (S (length l)) f 0 s l Hl) as (H1 & H2 & H3); [|lia..|].
    { rewrite take_0. apply not_elem_of_nil. }
    split; [done|]. split; [done|exact H3].
  - rewrite Hl. split; [by unfold same_rest|]. split; [done|]. intros Hwf Hf. split; [done|].
    unfold pending. rewrite Hl. cbn. by rewrite drop_nil.
Qed.

Lemma filter_not_in_cons (f : Fn) fs l :
  base.filter (λ g, g ∉ fs) (base.filter (λ g, g ≠ f) l) = base.filter (λ g, g ∉ f :: fs) l.
Proof.
  rewrite list_filter_filter. apply list_filter_iff. intros g. rewrite not_elem_of_cons. tauto.
Qed.
Lemma remove_spec fs s :
  same_rest s (remove fs s) ∧
  list_ (remove fs s) = base.filter (λ g, g ∉ fs) <$> list_ s ∧
  (wf s → firing s = true → wf (remove fs s) ∧
    pending (remove fs s) = base.filter (λ g, g ∉ fs) (pending s)).
Proof.
  unfold remove. revert s. induction fs as [|f fs IH]; intros s; cbn [foldl].
  { split; [by unfold same_rest|]. split.
    - destruct (list_ s); [|done]. cbn. by rewrite list_filter_all by (intros; apply not_elem_of_nil).
    - intros Hwf Hf. split; [done|]. by rewrite list_filter_all by (intros; apply not_elem_of_nil). }
  destruct (remove_one_spec f s) as (R1 & L1 & P1). destruct (IH (remove_one f s)) as (R2 & L2 & P2).
  split; [by eapply same_rest_trans|]. split.
  - rewrite L2, L1. destruct (list_ s); [|done]. cbn. by rewrite filter_not_in_cons.
  - intros Hwf Hf. destruct (P1 Hwf Hf) as [W1 E1].
    destruct (P2 W1) as [W2 E2]; [by rewrite (proj1 R1)|]. split; [done|].
    by rewrite E2, E1, filter_not_in_cons.
Qed.

Lemma add_arg_grows a : ∀ l, ∃ new, add_arg o l a = l ++ new.
Proof.
  revert a. fix IH 1. intros [f|l'|] l.
  - cbn. unfold push. destruct (_ || _); [by eexists|exists []; by rewrite app_nil_r].
  - cbn [add_arg]. revert l. induction l' as [|a l' IHl]; intros l; cbn [foldl].
    { exists []. by rewrite app_nil_r. }
    destruct (IH a l) as [n1 ->]. destruct (IHl (l ++ n1)) as [n2 ->]. exists (n1 ++ n2).
    by rewrite (assoc_L (++)).
  - exists []. cbn. by rewrite app_nil_r.
Qed.
Lemma add_args_grow args l : ∃ new, foldl (add_arg o) l args = l ++ new.
Proof. apply (add_arg_grows (Args args)). Qed.

Lemma during_wf m s : wf s → firing s = true → wf (during m s) ∧ firing (during m s) = true.
Proof.
  intros Hwf Hf. destruct (Hwf Hf) as (Hfd & Hi & Hn). destruct m as [args|fs| | | |d]; cbn [during].
  - destruct (list_ s) as [l|] eqn:Hl; [|done]. split; [|done]. intros _. cbn.
    split; [done|]. split; [done|]. by intros l' [= <-].
  - destruct (remove_spec fs s) as (R & _ & P). split; [by apply P|]. by rewrite (proj1 R).
  - split; [|done]. intros _. cbn. split; [done|]. split; [done|]. by intros l' [= <-].
  - split; [|done]. intros _. cbn. by repeat split.
  - unfold lock, disable. destruct (memory _) as [d|]; (split; [|done]); intros _; cbn;
      (split; [done|]); (split; [done|]); [apply Hn|done].
  - destruct (list_ s) as [l|] eqn:Hl; [|done]. destruct (stack s) as [q|]; [|done].
    split; [|done]. intros _. cbn. rewrite Hl. done.
Qed.
Lemma during_all_wf ms s :
  wf s → firing s = true →
  wf (foldl (λ s m, during m s) s ms) ∧ firing (foldl (λ s m, during m s) s ms) = true.
Proof.
  revert s. induction ms as [|m ms IH]; intros s Hwf Hf; [done|]. cbn [foldl].
  destruct (during_wf m s Hwf Hf). by apply IH.
Qed.
End during.

(** A callback that adds or removes callbacks of the list that is calling it
    changes what the loop has still to call in exactly this way: added callbacks
    come last, removed ones are called no more, none is skipped or called twice;
    emptying or disabling the list ends the loop, locking and firing it again
    change nothing. *)
Theorem reentrant_methods {Fn D} `{EqDecision Fn} (o : flags) (s : cbs Fn D) (l : list Fn)
    (m : method Fn D) :
  wf s → firing s = true → list_ s = Some l → (firingIndex s < firingLength s)%Z →
  match m with
  | MAdd args => ∃ new, foldl (add_arg o) l args = l ++ new ∧ pending (during o m s) = pending s ++ new
  | MRemove fs => pending (during o m s) = base.filter (λ g, g ∉ fs) (pending s)
  | MEmpty | MDisable => pending (during o m s) = []
  | MLock => pending (during o m s) = match memory s with Some _ => pending s | None => [] end
  | MFire _ => pending (during o m s) = pending s
  end.
Proof.
  intros Hwf Hf Hl Hlt. destruct (Hwf Hf) as (Hfd & Hi & Hn). specialize (Hn l Hl).
  destruct m as [args|fs| | | |d]; cbn [during].
  - rewrite Hl. destruct (add_args_grow o args l) as [new Hnew]. exists new. split; [done|].
    rewrite Hnew. unfold pending. rewrite Hl. cbn. rewrite drop_app_le; [done|lia].
  - destruct (remove_spec fs s) as (_ & _ & P). by apply P.
  - unfold pending. cbn. by rewrite drop_nil.
  - unfold pending. cbn. by rewrite drop_nil.
  - unfold pending, lock, disable. cbn. destruct (memory s); cbn; [done|by rewrite drop_nil].
  - rewrite Hl. destruct (stack s); [|done]. unfold pending. cbn. by rewrite Hl.
Qed.

(** The list [1, 2, 3, 2] while its second callback runs. *)
Definition firing_list : cbs nat unit :=
  Cbs true None true 4 1 0 (Some [1; 2; 3; 2]) (Some []).
Lemma reentrant_methods_witness :
  pending (during (Flags false false false false) (MRemove [1; 2]) firing_list) = [3].
Proof.
  etransitivity; [apply (reentrant_methods (Flags false false false false) firing_list [1; 2; 3; 2]
    (MRemove [1; 2]))|vm_compute; reflexivity].
  - intros _. split; [done|]. split; [done|]. by intros l [= <-].
  - reflexivity.
  - reflexivity.
  - reflexivity.
Defined.

(** [empty] does not reset the index of the loop: a callback added to a list
    that was emptied while it fires is skipped. *)
Theorem empty_skips_added {Fn D} `{EqDecision Fn} (o : flags) (s : cbs Fn D) (f : Fn) :
  firing s = true → (0 ≤ firingIndex s)%Z →
  list_ (during o (MAdd [Fun f]) (during o MEmpty s)) = Some [f] ∧
  pending (during o (MAdd [Fun f]) (during o MEmpty s)) = [].
Proof.
  intros Hf Hi. cbn. unfold push. cbn. rewrite orb_true_r. split; [done|].
  unfold pending. cbn. destruct (Z.to_nat (firingIndex s + 1)) eqn:E; [lia|]. cbn. by rewrite drop_nil.
Qed.
Lemma empty_skips_added_witness :
  pending (during (Flags false false false false) (MAdd [Fun 7])
             (during (Flags false false false false) MEmpty firing_list)) = [].
Proof.
  apply (empty_skips_added (Flags false false false false) firing_list 7); [reflexivity|done].
Defined.

(** ** Firing with callbacks that use the list *)

(** What a world promises to a list: a callback changes it by its methods only. *)
Class UsesMethods {Fn D W} `{EqDecision Fn} (getc : W → cbs Fn D) (o : flags)
    (call : Fn → D → M W bool) : Prop :=
  uses_methods : ∀ f d w r w', call f d w = (r, w') → wf (getc w) → firing (getc w) = true →
    ∃ ms, getc w' = foldl (λ s m, during o m s) (getc w) ms.
(** A part of the world that can be read back. *)
Class Part {S W} (getc : W → S) (setc : S → W → W) : Prop :=
  get_set : ∀ s w, getc (setc s w) = s.

Section reentrant.
Context {Fn D W : Type} `{EqDecision Fn} (getc : W → cbs Fn D) (setc : cbs Fn D → W → W).
Context `{!Part getc setc} (o : flags) (call : Fn → D → M W bool).
Context `{!UsesMethods getc o call}.

(** The outcome of a loop: it stays well-formed, or a callback threw. *)
Definition loop_post (r : outcome unit * W) : Prop :=
  match r.1 with
  | Ok _ => wf (getc r.2) ∧ firing (getc r.2) = true
  | Throw Diverge => True
  | Throw e => ∃ f d w, call f d w = (Throw e, r.2)
  end.
Lemma fire_loop_post k data w :
  wf (getc w) → firing (getc w) = true → (0 ≤ firingIndex (getc w))%Z →
  loop_post (fire_loop getc setc o call k data w).
Proof.
  revert w. induction k as [|k IH]; intros w Hwf Hf Hi; [done|]. cbn [fire_loop].
  unfold mbind, M_bind, Prelude.get. cbn beta iota.
  destruct (list_ (getc w)) as [l|] eqn:Hl; [|by split].
  destruct (Z.ltb_spec (firingIndex (getc w)) (firingLength (getc w))) as [Hlt|]; [|by split].
  destruct (Hwf Hf) as (Hfd & _ & Hn). specialize (Hn l Hl).
  rewrite (proj2 (Z.ltb_ge _ 0)) by done.
  destruct (l !! Z.to_nat (firingIndex (getc w))) as [f|] eqn:Hl'.
  2:{ apply lookup_ge_None in Hl'. lia. }
  destruct (call f data w) as [[b|e] w1] eqn:Ec.
  - destruct (uses_methods f data w _ w1 Ec Hwf Hf) as [ms Hms].
    destruct (during_all_wf o ms (getc w) Hwf Hf) as [Hwf1 Hf1]. rewrite <- Hms in Hwf1, Hf1.
    destruct (Hwf1 Hf1) as (Hfd1 & Hi1 & Hn1).
    destruct (b && stopOnFalse o).
    + unfold loop_post, upd, modify. cbn. rewrite get_set. split; [|done]. exact Hwf1.
    + unfold upd at 1, modify. cbn beta iota. apply IH; rewrite get_set; [|done|cbn; lia].
      intros _. cbn. split; [done|]. split; [lia|done].
  - unfold loop_post. cbn. destruct e; eauto.
Qed.
End reentrant.

(** Whatever the methods a callback uses on the list that is calling it, the
    loop of [fire] calls members of the list only: an exception comes from a
    callback; a firing that returns leaves the list ready to fire again. *)
Theorem fire_is_safe {Fn D W} `{EqDecision Fn} (getc : W → cbs Fn D) (setc : cbs Fn D → W → W)
    `{!Part getc setc} (o : flags) (call : Fn → D → M W bool) `{!UsesMethods getc o call}
    (fuel : nat) (data : D) (w : W) :
  is_Some (list_ (getc w)) →
  match fire getc setc o call fuel data w with
  | (Ok _, w') => firing (getc w') = false
  | (Throw Diverge, _) => True
  | (Throw e, w') => ∃ f d w1, call f d w1 = (Throw e, w')
  end.
Proof.
  revert data w. induction fuel as [|k IH]; intros data w [l Hl]; [done|]. cbn [fire].
  unfold mbind at 1, M_bind at 1, upd at 1, modify at 1. cbn beta iota.
  set (w1 := setc (fire_begin o data (getc w)) w).
  assert (Hg : getc w1 = fire_begin o data (getc w)) by apply get_set.
  assert (Hp : loop_post getc call (fire_loop getc setc o call k data w1)).
  { apply fire_loop_post; [done|done| | |]; rewrite Hg; [|done|cbn; lia].
    intros _. cbn. rewrite Hl. split; [done|]. split; [lia|]. by intros l' [= <-]. }
  unfold mbind at 1, M_bind at 1.
  destruct (fire_loop getc setc o call k data w1) as [[u|e] w2]; [|exact Hp].
  unfold mbind, M_bind, upd, modify, Prelude.get. cbn beta iota. rewrite !get_set.
  unfold set_firing at 1. cbn [list_ stack memory].
  destruct (list_ (getc w2)) as [l2|] eqn:Hl2; [|cbn; by rewrite get_set].
  cbn. destruct (stack (getc w2)) as [[|d q]|].
  - cbn. by rewrite get_set.
  - apply IH. rewrite get_set. cbn [list_ set_stack]. rewrite get_set. cbn. by eexists.
  - destruct (memory (getc w2)); cbn; by rewrite !get_set.
Qed.

(** Firing and adding keep what the callbacks keep. *)
Section keeps.
Context {Fn D W : Type} (getc : W → cbs Fn D) (setc : cbs Fn D → W → W).
Context `{!EqDecision Fn} (o : flags) (call : Fn → D → M W bool) (R : W → W → Prop) `{!PreOrder R}.
Hypothesis upd_keeps : ∀ g, keeps R (upd getc setc g).
Hypothesis call_keeps : ∀ f d, keeps R (call f d).
Lemma fire_loop_keeps k data : keeps R (fire_loop getc setc o call k data).
Proof.
  induction k as [|k IH]; [by apply keeps_throw|]. cbn [fire_loop]. apply (keeps_get R). intros w.
  destruct (list_ (getc w)) as [l|]; [|by apply keeps_ret]. destruct (_ <? _)%Z; [|by apply keeps_ret].
  destruct (if (_ <? 0)%Z then @None Fn else _) as [f|]; [|by apply keeps_throw].
  apply (keeps_bind R); [done|]. intros []; [destruct (stopOnFalse o)|]; cbn [andb]; [apply upd_keeps|..];
    (apply (keeps_bind R); [done|by intros _]).
Qed.
Lemma fire_keeps k data : keeps R (fire getc setc o call k data).
Proof.
  revert data. induction k as [|k IH]; intros data; [by apply keeps_throw|]. cbn [fire].
  apply (keeps_bind R); [done|]. intros _. apply (keeps_bind R); [apply fire_loop_keeps|]. intros _.
  apply (keeps_bind R); [done|]. intros _. apply (keeps_get R). intros w. destruct (list_ (getc w)); [|by apply keeps_ret].
  destruct (stack (getc w)) as [[|d q]|]; [by apply keeps_ret| |destruct (memory _); apply upd_keeps].
  apply (keeps_bind R); [done|by intros _].
Qed.
Lemma fireWith_keeps k data : keeps R (fireWith getc setc o call k data).
Proof.
  unfold fireWith. apply (keeps_get R). intros w. destruct (_ && _); [|by apply keeps_ret].
  destruct (firing _); [destruct (stack _); [apply upd_keeps|by apply keeps_throw]|apply fire_keeps].
Qed.
Lemma add_keeps k args : keeps R (add getc setc o call k args).
Proof.
  unfold add. apply (keeps_get R). intros w. destruct (list_ _) as [l|]; [|by apply keeps_ret].
  apply (keeps_bind R); [done|]. intros _. destruct (firing _); [apply upd_keeps|]. destruct (memory _); [|by apply keeps_ret].
  apply (keeps_bind R); [done|]. intros _. apply fire_keeps.
Qed.
End keeps.

(** A world that is a list and a log of calls, whose callbacks follow scripts. *)
Section scripted.
Context {Fn D : Type} `{EqDecision Fn} (o : flags).
Definition get_list (w : cbs Fn D * list (Fn * D)) : cbs Fn D := w.1.
Definition set_list_of (s : cbs Fn D) (w : cbs Fn D * list (Fn * D)) := (s, w.2).
#[export] Instance get_list_part : Part get_list set_list_of.
Proof. by intros s w. Qed.
Definition scripted (script : Fn → list (method Fn D)) (f : Fn) (d : D)
    : M (cbs Fn D * list (Fn * D)) bool := λ w,
  (Ok false, (foldl (λ s m, during o m s) w.1 (script f), w.2 ++ [(f, d)])).
#[export] Instance scripted_uses script : UsesMethods get_list o (scripted script).
Proof. intros f d w r w' [= <- <-] _ _. by exists (script f). Qed.
End scripted.

(** Callback 1 removes itself and callback 2 and adds 4. *)
Definition sample_script (f : nat) : list (method nat unit) :=
  match f with 1 => [MRemove [1; 2]; MAdd [Fun 4]] | _ => [] end.
Definition repeatable : flags := Flags false false false false.
Definition sample_world : cbs nat unit * list (nat * unit) :=
  (set_list (Some [1; 2; 3]) (Callbacks repeatable), []).
Example sample_fire :
  (fire get_list set_list_of repeatable (scripted repeatable sample_script) 9 tt sample_world).2.2 =
  [(1, tt); (3, tt); (4, tt)].
Proof. vm_compute. reflexivity. Qed.

Lemma fire_is_safe_witness :
  is_Some (list_ (get_list sample_world)) ∧
  match fire get_list set_list_of repeatable (scripted repeatable sample_script) 9 tt sample_world with
  | (Ok _, w') => firing (get_list w') = false
  | (Throw Diverge, _) => True
  | (Throw e, w') => ∃ f d w1, scripted repeatable sample_script f d w1 = (Throw e, w')
  end.
Proof.
  split; [by eexists|].
  apply (fire_is_safe get_list set_list_of repeatable (scripted repeatable sample_script) 9 tt
           sample_world).
  by eexists.
Defined.

(** ** Firing with callbacks that leave the list alone *)

Section passive.
Context {Fn D X : Type} `{EqDecision Fn} (o : flags).
(** The effect of a callback on the rest of the world, and whether it returns
    [false]. *)
Variable h : Fn → D → X → bool * X.
Definition passive (f : Fn) (d : D) : M (cbs Fn D * X) bool := λ w,
  (Ok (h f d w.2).1, (w.1, (h f d w.2).2)).
Definition set_fst (s : cbs Fn D) (w : cbs Fn D * X) : cbs Fn D * X := (s, w.2).
Local Abbreviation fire_loop := (fire_loop fst set_fst o passive).
Local Abbreviation fire := (fire fst set_fst o passive).
Local Abbreviation add := (add fst set_fst o passive).
Local Abbreviation fireWith := (fireWith fst set_fst o passive).

(** The specification: the callbacks in order, up to the one that stops; the
    result is the rest of the world and whether one stopped. *)
Fixpoint run_all (fs : list Fn) (d : D) (x : X) : X * bool :=
  match fs with
  | [] => (x, false)
  | f :: fs' =>
      if (h f d x).1 && stopOnFalse o then ((h f d x).2, true) else run_all fs' d (h f d x).2
  end.

Lemma fire_loop_passive k d s x l :
  list_ s = Some l → firingLength s = Z.of_nat (length l) → (0 ≤ firingIndex s)%Z →
  length l - Z.to_nat (firingIndex s) < k →
  ∃ i, fire_loop k d (s, x) =
    (Ok tt,
     (set_index i (if (run_all (drop (Z.to_nat (firingIndex s)) l) d x).2
                   then set_memory None s else s),
      (run_all (drop (Z.to_nat (firingIndex s)) l) d x).1)).
Proof.
  revert s x. induction k as [|k IH]; intros s x Hl Hn Hi Hk;
    cbn [Callbacks.fire_loop]; unfold mbind, M_bind, Prelude.get; cbn beta iota zeta; cbn [fst].
  - lia.
  - rewrite Hl. destruct (Z.ltb_spec (firingIndex s) (firingLength s)) as [Hlt|Hge].
    + rewrite (proj2 (Z.ltb_ge _ 0)) by done.
      destruct (l !! Z.to_nat (firingIndex s)) as [f|] eqn:Hf.
      2:{ apply lookup_ge_None in Hf. lia. }
      rewrite (drop_S _ _ _ Hf). cbn [run_all]. unfold passive. cbn [snd fst].
      destruct ((h f d x).1 && stopOnFalse o).
      * exists (firingIndex s). cbn. by destruct s.
      * destruct (IH (set_index (firingIndex s + 1) s) (h f d x).2) as [i Hr]; [done|done| |cbn; lia|].
        { cbn. lia. }
        exists i. etransitivity; [exact Hr|].
        cbn [firingIndex set_index]. replace (Z.to_nat (firingIndex s + 1)) with
          (S (Z.to_nat (firingIndex s))) by lia. clear Hr. destruct (run_all _ _ _) as [y []]; reflexivity.
    + exists (firingIndex s). rewrite drop_ge by lia. cbn. by destruct s.
Qed.

(** The state after a firing that ran [r] is the second component of. *)
Record fired_state (d : D) (stopped : bool) (s s' : cbs Fn D) : Prop := FiredState {
  fs_firing : firing s' = false;
  fs_fired : fired s' = true;
  fs_start : firingStart s' = 0;
  fs_memory : memory s' = if stopped then None else if remember o then Some d else None;
  fs_stack : stack s' = stack s;
  fs_list : list_ s' =
    match stack s with
    | Some _ => list_ s
    | None => match memory s' with Some _ => Some [] | None => None end
    end;
}.
Lemma fire_passive fuel d s x l :
  list_ s = Some l → stack s = None ∨ stack s = Some [] → S (length l) < fuel →
  ∃ s', fire fuel d (s, x) = (Ok tt, (s', (run_all (drop (firingStart s) l) d x).1)) ∧
    fired_state d (run_all (drop (firingStart s) l) d x).2 s s'.
Proof.
  intros Hl Hq Hk. destruct fuel as [|k]; [lia|]. cbn [Callbacks.fire].
  unfold mbind at 1, M_bind at 1, upd at 1, modify at 1. cbn beta iota. cbn [fst set_fst snd].
  assert (Hr : ∃ i, fire_loop k d (fire_begin o d s, x) =
    (Ok tt, (set_index i (if (run_all (drop (firingStart s) l) d x).2
                          then set_memory None (fire_begin o d s) else fire_begin o d s),
             (run_all (drop (firingStart s) l) d x).1))).
  { destruct (fire_loop_passive k d (fire_begin o d s) x l) as [i Hr]; [done| |cbn; lia|cbn; lia|].
    - cbn. by rewrite Hl.
    - exists i. rewrite Hr. cbn [fire_begin firingIndex set_firing set_length].
      by rewrite Nat2Z.id. }
  destruct Hr as [i Hr].
  unfold mbind at 1, M_bind at 1.
  change (set_fst (fire_begin o d s) (s, x)) with (fire_begin o d s, x). rewrite Hr. clear Hr.
  set (r := run_all (drop (firingStart s) l) d x).
  unfold mbind, M_bind, upd, modify, Prelude.get. cbn beta iota. cbn [fst snd set_fst].
  destruct r as [x' []]; cbn [fst snd]; cbn; rewrite Hl;
    destruct Hq as [Hq|Hq]; rewrite Hq; cbn;
    try (destruct (remember o) eqn:Er; cbn); eexists; (split; [reflexivity|]); constructor; cbn;
    rewrite ?Hq, ?Hl, ?Er; done.
Qed.
End passive.

Section contract.
Context {Fn D X : Type} `{EqDecision Fn} (o : flags) (h : Fn → D → X → bool * X).
Hypothesis Hu : unique o = false.
Hypothesis Hs : stopOnFalse o = false.
Implicit Types (s : cbs Fn D) (l : list Fn) (x : X).
Local Abbreviation passive := (passive h).
Local Abbreviation add := (add fst set_fst o passive).
Local Abbreviation fireWith := (fireWith fst set_fst o passive).

(** Every callback once, in order, with the data [d]. *)
Definition calls_in_order l (d : D) x : X := foldl (λ x f, (h f d x).2) x l.
Lemma run_all_calls l d x : run_all o h l d x = (calls_in_order l d x, false).
Proof.
  unfold calls_in_order. revert x. induction l as [|f l IH]; intros x; [done|].
  cbn [run_all foldl]. by rewrite Hs, andb_false_r.
Qed.
Lemma add_all fs l : foldl (add_arg o) l (Fun <$> fs) = l ++ fs.
Proof.
  revert l. induction fs as [|f fs IH]; intros l; [by rewrite app_nil_r|].
  rewrite fmap_cons. cbn [foldl add_arg]. unfold push. rewrite Hu. cbn [negb orb].
  by rewrite IH, <- (assoc_L (++)).
Qed.

(** Adding to a list that is not firing. *)
Lemma add_passive fuel fs s x l :
  list_ s = Some l → firing s = false → stack s = None ∨ stack s = Some [] →
  S (length (l ++ fs)) < fuel →
  match memory s with
  | None => add fuel (Fun <$> fs) (s, x) = (Ok tt, (set_list (Some (l ++ fs)) s, x))
  | Some d => ∃ s', add fuel (Fun <$> fs) (s, x) = (Ok tt, (s', calls_in_order fs d x)) ∧
              fired_state o d false (set_list (Some (l ++ fs)) s) s'
  end.
Proof.
  intros Hl Hf Hq Hk. unfold Callbacks.add, mbind, M_bind, Prelude.get, upd, modify.
  cbn beta iota. cbn [fst set_fst snd]. rewrite Hl, add_all, Hf.
  destruct (memory s) as [d|] eqn:Hm; [|done].
  set (s1 := set_start (length l) (set_list (Some (l ++ fs)) s)).
  destruct (fire_passive o h fuel d s1 x (l ++ fs)) as (s' & Hr & Hst); [done|done|done|].
  rewrite run_all_calls in Hr, Hst. cbn [fst snd firingStart s1 set_start] in Hr, Hst.
  rewrite drop_app_length in Hr. exists s'. split; [exact Hr|].
  destruct Hst. by constructor.
Qed.
(** Firing a list that is not firing. *)
Lemma fireWith_passive fuel d s x l :
  list_ s = Some l → firing s = false → firingStart s = 0 →
  stack s = None ∨ stack s = Some [] → S (length l) < fuel →
  if negb (fired s) || negb (locked s)
  then ∃ s', fireWith fuel d (s, x) = (Ok tt, (s', calls_in_order l d x)) ∧
       fired_state o d false s s'
  else fireWith fuel d (s, x) = (Ok tt, (s, x)).
Proof.
  intros Hl Hf H0 Hq Hk. unfold Callbacks.fireWith, mbind, M_bind, Prelude.get. cbn beta iota.
  cbn [fst]. unfold disabled. rewrite Hl. cbn [negb andb].
  destruct (negb (fired s) || negb (locked s)); [|done]. rewrite Hf.
  destruct (fire_passive o h fuel d s x l) as (s' & Hr & Hst); [done..|].
  rewrite run_all_calls, H0, drop_0 in Hr. rewrite run_all_calls in Hst. by exists s'.
Qed.
End contract.

(** C15: the contract of a callback list without the options [unique] and
    [stopOnFalse], with or without [once] and [memory], whose callbacks leave it alone
    and do not throw: firing
    calls the registered callbacks once each, in the order they were added, with
    the given data; callbacks added later are called at once with the remembered
    data exactly when the list has a memory; a second firing calls all of them
    again unless the list fires once. *)
Theorem callbacks_contract {Fn D X} `{EqDecision Fn} (o : flags) (h : Fn → D → X → bool * X)
    (fs gs : list Fn) (d1 d2 : D) (x : X) (fuel : nat) :
  unique o = false → stopOnFalse o = false → S (length (fs ++ gs)) < fuel →
  let add l := add fst set_fst o (passive h) fuel (Fun <$> l) in
  let fireWith := fireWith fst set_fst o (passive h) fuel in
  let x1 := calls_in_order h fs d1 x in
  let x2 := if remember o then calls_in_order h gs d1 x1 else x1 in
  let x3 := if once o then x2 else calls_in_order h (fs ++ gs) d2 x2 in
  ∃ s', (add fs ≫= λ _, fireWith d1 ≫= λ _, add gs ≫= λ _, fireWith d2) (Callbacks o, x)
    = (Ok tt, (s', x3)).
Proof.
  intros Hu Hs Hk add fireWith x1 x2 x3. pose proof (length_app fs gs) as Hlen.
  pose proof (add_passive o h Hu Hs fuel fs (Callbacks o) x []) as H1.
  cbn in H1. rewrite (bind_ok _ _ _ _ _ (H1 eq_refl eq_refl ltac:(destruct (once o); auto) ltac:(lia))).
  clear H1. set (s1 := set_list (Some fs) (Callbacks o)).
  destruct (fireWith_passive o h Hs fuel d1 s1 x fs) as (s2 & R2 & F2);
    [done|done|done|cbn; destruct (once o); auto|lia|].
  rewrite (bind_ok _ _ _ _ _ R2). clear R2. fold x1.
  destruct F2 as [Ff2 Fd2 Fs2 Fm2 Fq2 Fl2].
  cbn [s1 set_list stack list_ Callbacks] in Fq2, Fl2, Fm2.
  destruct (once o) eqn:Eo.
  - destruct (remember o) eqn:Er.
    + rewrite Fm2 in Fl2. pose proof (add_passive o h Hu Hs fuel gs s2 x1 []) as H3.
      rewrite Fm2 in H3. cbn [app] in H3.
      destruct (H3 Fl2 Ff2 (or_introl Fq2)) as (s3 & R3 & F3); [lia|]. clear H3.
      rewrite (bind_ok _ _ _ _ _ R3). destruct F3 as [Ff3 Fd3 Fs3 Fm3 Fq3 Fl3].
      rewrite Er in Fm3. cbn [set_list stack] in Fq3, Fl3. rewrite Fq2, Fm3 in Fl3.
      pose proof (fireWith_passive o h Hs fuel d2 s3 x2 [] Fl3 Ff3 Fs3) as H4.
      unfold locked in H4. rewrite Fd3, Fq3, Fq2 in H4. cbn [negb orb] in H4.
      exists s3. apply H4; [by left|cbn; lia].
    + rewrite Fm2 in Fl2. exists s2.
      assert (R3 : add gs (s2, x1) = (Ok tt, (s2, x1))).
      { unfold add, Callbacks.add, mbind, M_bind, Prelude.get. cbn beta iota. cbn [fst]. by rewrite Fl2. }
      rewrite (bind_ok _ _ _ _ _ R3). unfold fireWith, Callbacks.fireWith, mbind, M_bind, Prelude.get.
      cbn beta iota. cbn [fst]. unfold disabled. by rewrite Fl2.
  - pose proof (add_passive o h Hu Hs fuel gs s2 x1 fs Fl2 Ff2 (or_intror Fq2) Hk) as H3.
    rewrite Fm2 in H3. destruct (remember o) eqn:Er.
    + destruct H3 as (s3 & R3 & F3). rewrite (bind_ok _ _ _ _ _ R3).
      destruct F3 as [Ff3 Fd3 Fs3 Fm3 Fq3 Fl3]. cbn [set_list stack list_] in Fq3, Fl3.
      rewrite Fq2 in Fq3, Fl3.
      pose proof (fireWith_passive o h Hs fuel d2 s3 x2 (fs ++ gs) Fl3 Ff3 Fs3 (or_intror Fq3) Hk) as H4.
      unfold locked in H4. rewrite Fd3, Fq3 in H4. cbn [negb orb] in H4.
      destruct H4 as (s4 & R4 & _). by exists s4.
    + rewrite (bind_ok _ _ _ _ _ H3). set (s3 := set_list (Some (fs ++ gs)) s2).
      pose proof (fireWith_passive o h Hs fuel d2 s3 x1 (fs ++ gs) eq_refl Ff2 Fs2 (or_intror Fq2) Hk) as H4.
      unfold locked in H4. cbn [s3 set_list fired stack] in H4. rewrite Fd2, Fq2 in H4.
      cbn [negb orb] in H4. destruct H4 as (s4 & R4 & _). by exists s4.
Qed.

(** Callbacks that write their name and data to a log. *)
Definition log_call (f d : nat) (log : list (nat * nat)) : bool * list (nat * nat) :=
  (true, log ++ [(f, d)]).
Lemma callbacks_contract_witness :
  ∃ s', (add fst set_fst (createOptions (js "once memory")) (passive log_call) 9 (Fun <$> [1; 2])
         ≫= λ _, fireWith fst set_fst (createOptions (js "once memory")) (passive log_call) 9 7
         ≫= λ _, add fst set_fst (createOptions (js "once memory")) (passive log_call) 9 (Fun <$> [3])
         ≫= λ _, fireWith fst set_fst (createOptions (js "once memory")) (passive log_call) 9 8)
    (Callbacks (createOptions (js "once memory")), []) =
    (Ok tt, (s', [(1, 7); (2, 7); (3, 7)])).
Proof.
  apply (callbacks_contract (createOptions (js "once memory")) log_call [1; 2] [3] 7 8 [] 9).
  - vm_compute. reflexivity.
  - vm_compute. reflexivity.
  - cbn. lia.
Defined.

(** A list with the option [unique] holds every callback once, whatever is
    added to it: the new ones go to the end, in order. *)
Theorem unique_adds_once {Fn} `{EqDecision Fn} (o : flags) (l : list Fn) (fs : list Fn) :
  unique o = true → NoDup l →
  NoDup (foldl (add_arg o) l (Fun <$> fs)) ∧
  (∀ f, f ∈ foldl (add_arg o) l (Fun <$> fs) ↔ f ∈ l ∨ f ∈ fs) ∧
  ∃ new, foldl (add_arg o) l (Fun <$> fs) = l ++ new ∧ new `sublist_of` fs.
Proof.
  intros Hu. revert l. induction fs as [|f fs IH]; intros l Hl.
  { cbn. split; [done|]. split; [set_solver|]. exists []. by rewrite app_nil_r. }
  rewrite fmap_cons. cbn [foldl add_arg]. unfold push. rewrite Hu. cbn [negb orb].
  destruct (bool_decide (is_Some (inArray f l 0))) eqn:E; cbn [negb].
  - apply bool_decide_eq_true, inArray_0_elem in E. destruct (IH l Hl) as (H1 & H2 & new & H3 & H4).
    split; [done|]. split; [set_solver|]. exists new. split; [done|]. by apply sublist_cons.
  - apply bool_decide_eq_false in E. rewrite inArray_0_elem in E.
    destruct (IH (l ++ [f])) as (H1 & H2 & new & H3 & H4).
    { apply NoDup_app. split; [done|]. split; [set_solver|apply NoDup_singleton]. }
    split; [done|]. split; [set_solver|]. exists (f :: new).
    split; [by rewrite H3, <- (assoc_L (++))|]. by apply sublist_skip.
Qed.
Lemma unique_adds_once_witness :
  NoDup (foldl (add_arg (createOptions (js "unique"))) [1; 2] (Fun <$> [2; 3; 3])).
Proof.
  apply (unique_adds_once (createOptions (js "unique")) [1; 2] [2; 3; 3]).
  - vm_compute. reflexivity.
  - eapply bool_decide_unpack. vm_compute. exact I.
Defined.

End Callbacks.
