(* ===== verification/JqDeferred.v ===== *)
(** * Promises of jquery.js

    [jQuery.Deferred], [then] and [jQuery.when] over the callback lists of
    [JqCallbacks].  The closures that the code adds to lists are the constructors
    of [fn]; the functions of the page are programs that use the public methods,
    on any promise and at any time, also while a list is firing. *)

From stdpp Require Import base tactics list strings numbers sets gmap.
From Stdlib Require Import ZArith Lia.
From S2P Require Import Prelude.
From S2P Require Import JsString.
From S2P Require Import JqCallbacks.

Module Deferred.
Export Callbacks.

(** ** Values, actions and callbacks *)

(** [VContexts w p] is the array of contexts of the call [w] of [when]: it is
    passed by reference. *)
Inductive jval : Type :=
  | VUndef
  | VBool (b : bool)
  | VNum (n : Z)
  | VArr (l : list jval)
  | VPromise (d : nat)
  | VDeferred (d : nat)
  | VContexts (w : nat) (progress : bool).

(** The columns of the table [tuples]. *)
Inductive act : Type := Resolve | Reject | Notify.
#[export] Instance act_eq_dec : EqDecision act.
Proof. solve_decision. Defined.

(** Functions: of the page; what [Deferred] adds to its own lists; [resolve],
    [reject] and [notify]; the closures of [then] and [when]. *)
Inductive fn : Type :=
  | FUser (u : nat)
  | FState (d : nat) (a : act)
  | FDisable (d : nat) (a : act)
  | FLock (d : nat)
  | FAct (d : nat) (a : act)
  | FForward (d newDefer : nat) (a : act) (f : option nat)
  | FUpdate (w i : nat) (progress : bool).
#[export] Instance fn_eq_dec : EqDecision fn.
Proof. solve_decision. Defined.

(** The context and the arguments of a firing. *)
Definition data : Type := jval * list jval.
Abbreviation clist := (cbs fn data).

Inductive dstate : Type := Pending | Settled (a : act).
Record deferred := MkDeferred {
  state : dstate;
  done_list : clist;
  fail_list : clist;
  progress_list : clist;
}.
Record when_call := WhenCall {
  w_deferred : nat;               (* the master *)
  remaining : Z;
  resolveValues : list jval;
  resolveContexts : list jval;
  progressValues : list jval;
  progressContexts : list jval;
}.
(** [log] records the calls of callbacks: the list, the callback and the data. *)
Definition event : Type := (nat * act * fn * data).
Record world := World {
  defs : list deferred;
  whens : list when_call;
  log : list event;
}.
Definition init_world : world := World [] [] [].

Definition tuple_options (a : act) : flags :=
  match a with Notify => createOptions (js "memory") | _ => createOptions (js "once memory") end.
Definition tuple_list (a : act) (df : deferred) : clist :=
  match a with Resolve => done_list df | Reject => fail_list df | Notify => progress_list df end.
Definition set_tuple_list (a : act) (s : clist) (df : deferred) : deferred :=
  match a with
  | Resolve => MkDeferred (state df) s (fail_list df) (progress_list df)
  | Reject => MkDeferred (state df) (done_list df) s (progress_list df)
  | Notify => MkDeferred (state df) (done_list df) (fail_list df) s
  end.
Definition set_state (st : dstate) (df : deferred) : deferred :=
  MkDeferred st (done_list df) (fail_list df) (progress_list df).
(** [i ^ 1]. *)
Definition other (a : act) : act := match a with Resolve => Reject | _ => Resolve end.

(** What the constructor adds to the list of [resolve] or [reject]. *)
Definition handlers (d : nat) (a : act) : list fn := [FState d a; FDisable d (other a); FLock d].
Definition new_deferred (d : nat) : deferred :=
  MkDeferred Pending
    (set_list (Some (handlers d Resolve)) (Callbacks (tuple_options Resolve)))
    (set_list (Some (handlers d Reject)) (Callbacks (tuple_options Reject)))
    (Callbacks (tuple_options Notify)).

Definition with_defs (ds : list deferred) (w : world) : world := World ds (whens w) (log w).
Definition with_whens (ws : list when_call) (w : world) : world := World (defs w) ws (log w).
Definition with_log (l : list event) (w : world) : world := World (defs w) (whens w) l.
(** The list [a] of the deferred [d], in the world. *)
Definition get_clist (d : nat) (a : act) (w : world) : clist :=
  match defs w !! d with
  | Some df => tuple_list a df
  | None => Callbacks (tuple_options a)
  end.
Definition set_clist (d : nat) (a : act) (s : clist) (w : world) : world :=
  with_defs (alter (set_tuple_list a s) d (defs w)) w.

(** ** Programs of the page *)

Inductive cmd : Type :=
  | CDeferred                                          (* jQuery.Deferred() *)
  | CAct (d : nat) (a : act) (args : list jval)        (* d.resolve(...) *)
  | CActWith (d : nat) (a : act) (this : jval) (args : list jval)
  | COn (d : nat) (a : act) (us : list nat)            (* d.done(...) *)
  | CAlways (d : nat) (us : list nat)
  | CThen (d : nat) (fns : act → option nat)
  | CWhen (args : list jval)
  | CState (d : nat).
(** A function of the page: commands whose results it can use, and an end. *)
Inductive prog : Type :=
  | Ret (v : jval)
  | Raise (e : nat)
  | Do (c : cmd) (k : jval → prog).

Definition state_value (s : dstate) : jval :=
  VNum (match s with Settled Resolve => 1 | Settled Reject => 2 | _ => 0 end).

Section interp.
(** The functions of the page, which may depend on all that happened. *)
Variable body : nat → jval → list jval → list event → prog.

Section methods.
(** Applying a function, and the fuel of the loops. *)
Variable apply : fn → jval → list jval → M world jval.
Variable fuel : nat.

Definition call (d : nat) (a : act) (f : fn) (dt : data) : M world bool :=
  modify (λ w, with_log (log w ++ [(d, a, f, dt)]) w) ≫= λ _,
  apply f dt.1 dt.2 ≫= λ v,
  mret match v with VBool false => true | _ => false end.

(** [deferred[ tuple[0] + "With" ] = list.fireWith] and [promise[ tuple[1] ] = list.add]. *)
Definition act_with (d : nat) (a : act) (this : jval) (args : list jval) : M world unit :=
  fireWith (get_clist d a) (set_clist d a) (tuple_options a) (call d a) fuel (this, args).
Definition on (d : nat) (a : act) (fs : list fn) : M world unit :=
  add (get_clist d a) (set_clist d a) (tuple_options a) (call d a) fuel (Fun <$> fs).

(** [deferred[ tuple[0] ]]. *)
Definition act_fn (d : nat) (a : act) (this : jval) (args : list jval) : M world unit :=
  act_with d a (match this with
                | VDeferred d' => if d' =? d then VPromise d else this
                | _ => this
                end) args.

(** A value with a method [promise], as [subordinate.promise()]. *)
Definition promise_of (v : jval) : option nat :=
  match v with VPromise d | VDeferred d => Some d | _ => None end.

Definition Deferred_ : M world nat := λ w,
  (Ok (length (defs w)), with_defs (defs w ++ [new_deferred (length (defs w))]) w).

Definition then_ (d : nat) (fns : act → option nat) : M world jval :=
  Deferred_ ≫= λ nd,
  on d Resolve [FForward d nd Resolve (fns Resolve)] ≫= λ _,
  on d Reject [FForward d nd Reject (fns Reject)] ≫= λ _,
  on d Notify [FForward d nd Notify (fns Notify)] ≫= λ _,
  mret (VPromise nd).
(** The function [then] adds to the list [a] of [d]. *)
Definition forward (d nd : nat) (a : act) (f : option nat) (this : jval) (args : list jval)
    : M world unit :=
  match f with
  | Some u => apply (FUser u) this args ≫= λ v, mret (Some v)
  | None => mret None
  end ≫= λ returned,
  match returned ≫= promise_of with
  | Some p =>
      on p Resolve [FAct nd Resolve] ≫= λ _,
      on p Reject [FAct nd Reject] ≫= λ _,
      on p Notify [FAct nd Notify]
  | None =>
      act_with nd a
        (match this with VPromise d' => if d' =? d then VPromise nd else this | _ => this end)
        (match returned with Some v => [v] | None => args end)
  end.

(** [updateFunc]. *)
Definition set_value (i : nat) (progress : bool) (this v : jval) (wc : when_call) : when_call :=
  if progress
  then WhenCall (w_deferred wc) (remaining wc) (resolveValues wc) (resolveContexts wc)
         (<[i := v]> (progressValues wc)) (<[i := this]> (progressContexts wc))
  else WhenCall (w_deferred wc) (remaining wc) (<[i := v]> (resolveValues wc))
         (<[i := this]> (resolveContexts wc)) (progressValues wc) (progressContexts wc).
Definition decrement (wc : when_call) : when_call :=
  WhenCall (w_deferred wc) (remaining wc - 1) (resolveValues wc) (resolveContexts wc)
    (progressValues wc) (progressContexts wc).
Definition on_when (n : nat) (f : when_call → when_call) : M world unit :=
  modify (λ w, with_whens (alter f n (whens w)) w).
Definition get_when (n : nat) : M world when_call :=
  Prelude.get ≫= λ w : world,
  match whens w !! n with Some wc => mret wc | None => throw TypeError end.
Definition update (n i : nat) (progress : bool) (this : jval) (args : list jval)
    : M world unit :=
  on_when n (set_value i progress this
    (match args with [] => VUndef | [v] => v | _ => VArr args end)) ≫= λ _,
  if progress then
    get_when n ≫= λ wc,
    act_with (w_deferred wc) Notify (VContexts n true) (progressValues wc)
  else
    on_when n decrement ≫= λ _,
    get_when n ≫= λ wc,
    if Z.eqb (remaining wc) 0
    then act_with (w_deferred wc) Resolve (VContexts n false) (resolveValues wc)
    else mret tt.

(** The loop of [when] over its arguments. *)
Fixpoint when_loop (n m i : nat) (args : list jval) : M world unit :=
  match args with
  | [] => mret tt
  | v :: args' =>
      match promise_of v with
      | Some d =>
          on d Resolve [FUpdate n i false] ≫= λ _,
          on d Reject [FAct m Reject] ≫= λ _,
          on d Notify [FUpdate n i true]
      | None => on_when n decrement
      end ≫= λ _,
      when_loop n m (S i) args'
  end.
Definition when (args : list jval) : M world jval :=
  match args with
  | [v] =>
      match promise_of v with
      | Some d => mret (VPromise d)
      | None =>
          Deferred_ ≫= λ m,
          act_with m Resolve VUndef [v] ≫= λ _, mret (VPromise m)
      end
  | _ =>
      Deferred_ ≫= λ m,
      Prelude.get ≫= λ w : world,
      let n := length (whens w) in
      let blank := replicate (length args) VUndef in
      put (with_whens (whens w ++
        [WhenCall m (Z.of_nat (length args)) args blank blank blank]) w) ≫= λ _,
      when_loop n m 0 args ≫= λ _,
      get_when n ≫= λ wc,
      (if Z.eqb (remaining wc) 0
       then act_with m Resolve (match args with [] => VUndef | _ => VContexts n false end)
              (resolveValues wc)
       else mret tt) ≫= λ _,
      mret (VPromise m)
  end.

Definition exists_ (d : nat) {A} (m : M world A) : M world A :=
  Prelude.get ≫= λ w : world, if d <? length (defs w) then m else throw TypeError.
Definition exec (c : cmd) : M world jval :=
  match c with
  | CDeferred => Deferred_ ≫= λ d, mret (VDeferred d)
  | CAct d a args =>
      exists_ d (act_fn d a (VDeferred d) args) ≫= λ _, mret (VDeferred d)
  | CActWith d a this args => exists_ d (act_with d a this args) ≫= λ _, mret (VDeferred d)
  | COn d a us => exists_ d (on d a (FUser <$> us)) ≫= λ _, mret (VPromise d)
  | CAlways d us =>
      exists_ d (on d Resolve (FUser <$> us)) ≫= λ _,
      on d Reject (FUser <$> us) ≫= λ _, mret (VPromise d)
  | CThen d fns => exists_ d (then_ d fns)
  | CWhen args => when args
  | CState d =>
      Prelude.get ≫= λ w : world,
      match defs w !! d with Some df => mret (state_value (state df)) | None => throw TypeError end
  end.
Fixpoint run_prog (p : prog) : M world jval :=
  match p with
  | Ret v => mret v
  | Raise e => throw (UserError e)
  | Do c k => exec c ≫= λ v, run_prog (k v)
  end.

Definition on_deferred (d : nat) (f : deferred → deferred) : M world jval :=
  modify (λ w, with_defs (alter f d (defs w)) w) ≫= λ _, mret VUndef.
Definition apply_step (f : fn) (this : jval) (args : list jval) : M world jval :=
  match f with
  | FUser u => Prelude.get ≫= λ w : world, run_prog (body u this args (log w))
  | FState d a => on_deferred d (set_state (Settled a))
  | FDisable d a => on_deferred d (λ df, set_tuple_list a (disable (tuple_list a df)) df)
  | FLock d => on_deferred d (λ df, set_tuple_list Notify (lock (tuple_list Notify df)) df)
  | FAct d a => act_fn d a this args ≫= λ _, mret (VDeferred d)
  | FForward d nd a f => forward d nd a f this args ≫= λ _, mret VUndef
  | FUpdate n i progress => update n i progress this args ≫= λ _, mret VUndef
  end.
End methods.

Fixpoint apply (fuel : nat) : fn → jval → list jval → M world jval :=
  match fuel with
  | 0 => λ _ _ _, throw Diverge
  | S k => apply_step (apply k) k
  end.

(** One turn of the event loop: a program of the page. *)
Definition turn (fuel : nat) (p : prog) : M world jval := run_prog (apply fuel) fuel p.

(** The worlds some turns lead to, whatever they do and however they end. *)
Inductive reachable : world → Prop :=
  | reach_init : reachable init_world
  | reach_turn fuel p w :
      reachable w → (turn fuel p w).1 ≠ Throw Diverge → reachable (turn fuel p w).2.
End interp.

(** ** What every world satisfies *)

Lemma tuple_options_eq a :
  tuple_options a = Flags (negb (bool_decide (a = Notify))) true false false.
Proof. by destruct a; vm_compute. Qed.

(** A callback that [Deferred] did not put there itself. *)
Definition plain (f : fn) : Prop :=
  match f with FState _ _ | FDisable _ _ | FLock _ => False | _ => True end.

(** The list of [resolve] or [reject] before either is called. *)
Definition pending_ok (d : nat) (a : act) (s : clist) : Prop :=
  ∃ rest, s = Cbs false None false (firingLength s) (firingIndex s) 0 (Some (handlers d a ++ rest)) None
    ∧ Forall plain rest.
(** The list that was fired: only the callbacks of users are still to be called. *)
Definition settled_ok (s : clist) : Prop :=
  fired s = true ∧ stack s = None ∧ (0 ≤ firingIndex s)%Z ∧
  ∃ l, list_ s = Some l ∧
    Forall plain (drop (if firing s then Z.to_nat (firingIndex s) else 0) l).
Definition dinv (d : nat) (df : deferred) : Prop :=
  match state df with
  | Pending => pending_ok d Resolve (done_list df) ∧ pending_ok d Reject (fail_list df)
  | Settled a =>
      a ≠ Notify ∧ settled_ok (tuple_list a df) ∧ is_Some (memory (tuple_list a df)) ∧
      list_ (tuple_list (other a) df) = None
  end ∧ ∀ l, list_ (progress_list df) = Some l → Forall plain l.

(** [d] was settled by [a] with the values [dt]. *)
Definition settled (w : world) (d : nat) (a : act) (dt : data) : Prop :=
  ∃ df, defs w !! d = Some df ∧ state df = Settled a ∧ memory (tuple_list a df) = Some dt.
Definition inv (w : world) : Prop :=
  (∀ d df, defs w !! d = Some df → dinv d df) ∧
  ∀ d a f dt, (d, a, f, dt) ∈ log w → a ≠ Notify → settled w d a dt.

(** What a computation keeps: how promises are settled, and where the firing lists
    are, those of [d] excepted. *)
Definition keeps_settled (w w' : world) : Prop := ∀ d a dt, settled w d a dt → settled w' d a dt.
Definition keeps_firing (but : nat → Prop) (w w' : world) : Prop :=
  ∀ d a dt, ¬ but d → settled w d a dt → firing (get_clist d a w) = true →
    firing (get_clist d a w') = true ∧ firingIndex (get_clist d a w') = firingIndex (get_clist d a w).
Definition post {A} (but : nat → Prop) (w : world) (r : outcome A * world) : Prop :=
  match r.1 with
  | Throw Diverge => True
  | _ => inv r.2 ∧ keeps_settled w r.2 ∧ keeps_firing but w r.2
  end.
Definition nobody (_ : nat) : Prop := False.
Definition ok {A} (m : M world A) : Prop := ∀ w, inv w → post nobody w (m w).

Section post_rules.
Lemma post_intro {A} but w (r : outcome A * world) :
  (r.1 ≠ Throw Diverge → inv r.2 ∧ keeps_settled w r.2 ∧ keeps_firing but w r.2) → post but w r.
Proof.
  destruct r as [[x|e] w']; unfold post; cbn; intros H; [by apply H|].
  destruct e; first [done|by apply H].
Qed.
Lemma post_elim {A} but w (r : outcome A * world) :
  post but w r → r.1 ≠ Throw Diverge → inv r.2 ∧ keeps_settled w r.2 ∧ keeps_firing but w r.2.
Proof. destruct r as [[x|e] w']; unfold post; cbn; [done|]. by destruct e. Qed.
Lemma post_refl {A} but (o : outcome A) w : inv w → post but w (o, w).
Proof.
  intros Hw. apply post_intro. intros _. split; [done|]. split; [by intros d a dt|].
  by intros d a dt.
Qed.
Lemma post_trans {A B} but w (r1 : outcome A * world) (r : outcome B * world) :
  r1.1 ≠ Throw Diverge → post but w r1 → post but r1.2 r → post but w r.
Proof.
  intros Hd H1 H2. apply post_intro. intros Hd2.
  apply post_elim in H1 as (I1 & S1 & F1); [|done]. apply post_elim in H2 as (I2 & S2 & F2); [|done].
  split; [done|]. split; [intros d a dt Hs; by apply S2, S1|].
  intros d a dt Hb Hs Hf. destruct (F1 d a dt Hb Hs Hf) as [Hf1 Hi1].
  destruct (F2 d a dt Hb (S1 _ _ _ Hs) Hf1) as [Hf2 Hi2]. split; [done|congruence].
Qed.
Lemma post_weaken {A} (but but' : nat → Prop) w (r : outcome A * world) :
  (∀ d, but d → but' d) → post but w r → post but' w r.
Proof.
  intros Hb H. apply post_intro. intros Hd. apply post_elim in H as (I1 & S1 & F1); [|done].
  split; [done|]. split; [done|]. intros d a dt Hb'. apply F1. auto.
Qed.
Lemma post_bind {A B} but w (m : M world A) (k : A → M world B) :
  post but w (m w) →
  (∀ a w', m w = (Ok a, w') → inv w' → post but w' (k a w')) → post but w ((m ≫= k) w).
Proof.
  intros Hm Hk. unfold mbind, M_bind. destruct (m w) as [[a|e] w'] eqn:E.
  - apply (post_trans but w (Ok a, w') _); [done|done|]. apply Hk; [done|].
    by apply post_elim in Hm as (I & _).
  - by destruct e.
Qed.
Lemma ok_bind {A B} (m : M world A) (k : A → M world B) : ok m → (∀ a, ok (k a)) → ok (m ≫= k).
Proof. intros Hm Hk w Hw. apply post_bind; [by apply Hm|]. intros a w' _ Hw'. by apply Hk. Qed.
Lemma ok_ret {A} (a : A) : ok (mret a).
Proof. intros w. apply post_refl. Qed.
Lemma ok_throw {A} e : ok (throw (A:=A) e).
Proof. intros w. apply post_refl. Qed.
Lemma ok_get {A} (k : world → M world A) : (∀ w, ok (k w)) → ok (Prelude.get ≫= k).
Proof. intros Hk w Hw. by apply Hk. Qed.
End post_rules.
#[export] Hint Resolve ok_bind ok_ret ok_throw ok_get : js.

(** ** Changing one deferred *)

Section changes.
Lemma get_clist_at d a w df : defs w !! d = Some df → get_clist d a w = tuple_list a df.
Proof. intros H. unfold get_clist. by rewrite H. Qed.
Lemma tuple_list_set a s df : tuple_list a (set_tuple_list a s df) = s.
Proof. by destruct a. Qed.
Lemma tuple_list_set_ne a b s df : a ≠ b → tuple_list a (set_tuple_list b s df) = tuple_list a df.
Proof. by destruct a, b. Qed.
Lemma state_set_tuple a s df : state (set_tuple_list a s df) = state df.
Proof. by destruct a. Qed.

(** The world with the deferred [d] changed by [g]. *)
Definition change (d : nat) (g : deferred → deferred) (w : world) : world :=
  with_defs (alter g d (defs w)) w.
Lemma upd_change d a (f : clist → clist) w :
  upd (get_clist d a) (set_clist d a) f w =
  (Ok tt, change d (λ df, set_tuple_list a (f (tuple_list a df)) df) w).
Proof.
  unfold upd, modify, set_clist, change. f_equal. f_equal. apply list_eq. intros i.
  destruct (decide (i = d)) as [->|Hne].
  - rewrite !list_lookup_alter_eq. unfold get_clist. by destruct (defs w !! d).
  - by rewrite !list_lookup_alter_ne by done.
Qed.

(** How a settled deferred may change. *)
Definition step_ok (but : nat → Prop) (d : nat) (df df' : deferred) : Prop :=
  dinv d df' ∧
  ∀ a, state df = Settled a →
    state df' = Settled a ∧ memory (tuple_list a df') = memory (tuple_list a df) ∧
    (¬ but d → firing (tuple_list a df) = true →
     firing (tuple_list a df') = true ∧ firingIndex (tuple_list a df') = firingIndex (tuple_list a df)).
Lemma change_lookup d g w d' df' :
  defs (change d g w) !! d' = Some df' →
  ∃ df, defs w !! d' = Some df ∧ (d' = d ∧ df' = g df ∨ d' ≠ d ∧ df' = df).
Proof.
  unfold change. cbn. destruct (decide (d' = d)) as [->|Hne].
  - rewrite list_lookup_alter_eq. intros (df & Hdf & ->)%fmap_Some_1. eauto.
  - rewrite list_lookup_alter_ne by done. eauto.
Qed.
Lemma change_at d g w df : defs w !! d = Some df → defs (change d g w) !! d = Some (g df).
Proof. intros H. unfold change. cbn. by rewrite list_lookup_alter_eq, H. Qed.
Lemma change_ne d d' g w : d ≠ d' → defs (change d g w) !! d' = defs w !! d'.
Proof. intros H. unfold change. cbn. by rewrite list_lookup_alter_ne. Qed.
Lemma change_post {A} but d g w (o : outcome A) :
  inv w → (∀ df, defs w !! d = Some df → dinv d df → step_ok but d df (g df)) →
  post but w (o, change d g w).
Proof.
  intros [Hd Hl] Hg. apply post_intro. intros _. cbn [snd].
  assert (HS : keeps_settled w (change d g w)).
  { intros d' a dt (df & Hdf & Hst & Hm). destruct (decide (d = d')) as [<-|Hne].
    - destruct (Hg df Hdf (Hd _ _ Hdf)) as [_ Hs]. destruct (Hs a Hst) as (Hst' & Hm' & _).
      exists (g df). split; [by apply change_at|]. split; [done|]. by rewrite Hm'.
    - exists df. by rewrite change_ne. }
  split; [split|split; [done|]].
  - intros d' df' H. destruct (change_lookup d g w d' df' H) as (df & Hdf & [[-> ->]|[_ ->]]).
    + apply Hg; [done|]. by apply Hd.
    + by apply Hd.
  - intros d' a f dt Hin Ha. apply HS. by eapply Hl.
  - intros d' a dt Hb (df & Hdf & Hst & Hm) Hf. destruct (decide (d = d')) as [<-|Hne].
    + destruct (Hg df Hdf (Hd _ _ Hdf)) as [_ Hs]. destruct (Hs a Hst) as (Hst' & Hm' & Hf').
      rewrite (get_clist_at d a _ (g df)) by (by apply change_at).
      rewrite (get_clist_at d a w df) in Hf |- * by done. by apply Hf'.
    + rewrite (get_clist_at d' a _ df) by (by rewrite change_ne).
      by rewrite (get_clist_at d' a w df) in Hf |- * by done.
Qed.

(** Changes of the rest of the world. *)
Lemma rest_post {A} but w w' (o : outcome A) :
  inv w → defs w' = defs w →
  (∀ d a f dt, (d, a, f, dt) ∈ log w' → a ≠ Notify → (d, a, f, dt) ∈ log w ∨ settled w d a dt) →
  post but w (o, w').
Proof.
  intros [Hd Hl] He Hn. apply post_intro. intros _. cbn [snd].
  assert (HS : keeps_settled w w').
  { intros d' a dt (df & Hdf & Hst). exists df. by rewrite He. }
  split; [split|split; [done|]].
  - intros d df. rewrite He. apply Hd.
  - intros d a f dt Hin Ha. apply HS. destruct (Hn d a f dt Hin Ha); [|done]. by eapply Hl.
  - intros d a dt _ _ Hf. unfold get_clist in *. by rewrite He.
Qed.
Lemma whens_post {A} but w ws (o : outcome A) : inv w → post but w (o, with_whens ws w).
Proof. intros Hw. apply rest_post; [done..|]. intros d a f dt Hin _. by left. Qed.
Lemma new_deferred_ok d : dinv d (new_deferred d).
Proof.
  split; cbn.
  - split; exists []; cbn; (split; [reflexivity|constructor]).
  - intros l [= <-]. constructor.
Qed.
Lemma ok_Deferred : ok Deferred_.
Proof.
  intros w [Hd Hl]. apply post_intro. intros _. cbn [snd Deferred_].
  set (w' := with_defs (defs w ++ [new_deferred (length (defs w))]) w).
  assert (Hold : ∀ d df, defs w !! d = Some df → defs w' !! d = Some df).
  { intros d df Hdf. cbn. by apply lookup_app_l_Some. }
  assert (HS : keeps_settled w w').
  { intros d a dt (df & Hdf & Hst). exists df. split; [by apply Hold|done]. }
  split; [split|split; [done|]].
  - intros d df [Hdf|[Hge Hdf]]%lookup_app_Some; [by apply Hd|].
    destruct (d - length (defs w)) eqn:E; [|done]. injection Hdf as <-.
    replace d with (length (defs w)) by lia. apply new_deferred_ok.
  - intros d a f dt Hin Ha. apply HS. by eapply Hl.
  - intros d a dt _ (df & Hdf & _) Hf.
    by rewrite (get_clist_at d a w' df), <- (get_clist_at d a w df) by auto.
Qed.
End changes.

(** ** Firing a list *)

Lemma Forall_drop_S {A} (P : A → Prop) n (l : list A) : Forall P (drop n l) → Forall P (drop (S n) l).
Proof. intros H. replace (S n) with (n + 1) by lia. rewrite <- drop_drop. by apply Forall_drop. Qed.

Section firing.
Variable app : fn → jval → list jval → M world jval.
Hypothesis Happ : ∀ f this args, plain f → ok (app f this args).
Implicit Types (w : world) (a : act).

Lemma call_post d a f dt w :
  plain f → inv w → (a ≠ Notify → settled w d a dt) → post nobody w (call app d a f dt w).
Proof.
  intros Hf Hw Hs. unfold call. apply post_bind.
  - apply rest_post; [done..|]. intros d' a' f' dt' [Hin| [= -> -> -> ->]%list_elem_of_singleton]%elem_of_app Ha;
      [by left|]. right. by apply Hs.
  - intros [] w1 _ Hw1. apply ok_bind; [by apply Happ|auto with js|done].
Qed.

Local Abbreviation floop d a := (fire_loop (get_clist d a) (set_clist d a) (tuple_options a) (call app d a)).
Local Abbreviation ffire d a := (fire (get_clist d a) (set_clist d a) (tuple_options a) (call app d a)).

(** One turn of the loop. *)
Lemma floop_S d a k dt w :
  floop d a (S k) dt w =
    let s := get_clist d a w in
    match list_ s with
    | None => (Ok tt, w)
    | Some l =>
        if (firingIndex s <? firingLength s)%Z then
          match (if (firingIndex s <? 0)%Z then None else l !! Z.to_nat (firingIndex s)) with
          | None => (Throw TypeError, w)
          | Some f =>
              (call app d a f dt ≫= λ _ : bool,
               upd (get_clist d a) (set_clist d a) (λ s, set_index (firingIndex s + 1) s) ≫= λ _ : unit,
               floop d a k dt) w
          end
        else (Ok tt, w)
    end.
Proof.
  cbn [fire_loop]. rewrite tuple_options_eq. cbn [stopOnFalse].
  unfold mbind at 1, M_bind at 1, Prelude.get. cbn beta iota zeta.
  destruct (list_ (get_clist d a w)) as [l|]; [|done]. destruct (_ <? _)%Z; [|done].
  match goal with |- context [match ?x with Some _ => _ | None => throw _ end] => destruct x as [f|] end;
    [|done].
  destruct (call app d a f dt w) as [[b|e] w1] eqn:E.
  - rewrite !(bind_ok _ _ _ _ _ E). by rewrite andb_false_r.
  - by rewrite !(bind_throw _ _ _ _ _ E).
Qed.

(** The list of [notify] holds callbacks of users only. *)
Lemma notify_change d (g : clist → clist) w :
  inv w →
  (∀ s l, list_ (g s) = Some l → ∀ f, f ∈ l → plain f ∨ ∃ l', list_ s = Some l' ∧ f ∈ l') →
  post nobody w (upd (get_clist d Notify) (set_clist d Notify) g w).
Proof.
  intros Hw Hg. rewrite upd_change. apply change_post; [done|]. intros df Hdf [Hs Hn]. split.
  - split; [rewrite state_set_tuple|].
    + destruct df as [st dl fl pl], st as [|[]]; cbn in Hs |- *; [done..|]. by destruct Hs.
    + intros l Hl. cbn in Hl. apply Forall_forall. intros f Hf.
      destruct (Hg _ l Hl f Hf) as [Hpf|(l' & Hl' & Hf')]; [done|]. specialize (Hn l' Hl').
      by eapply Forall_forall in Hn.
  - intros a Ha. rewrite state_set_tuple. split; [done|].
    unfold dinv in Hs. rewrite Ha in Hs. destruct Hs as [Hne _].
    by rewrite tuple_list_set_ne.
Qed.
Lemma notify_member d w l f :
  inv w → list_ (get_clist d Notify w) = Some l → f ∈ l → plain f.
Proof.
  intros [Hd _] Hl Hf. unfold get_clist in Hl. destruct (defs w !! d) as [df|] eqn:E.
  - destruct (Hd d df E) as [_ Hn]. specialize (Hn l Hl). by eapply Forall_forall in Hn.
  - cbn in Hl. injection Hl as <-. by apply elem_of_nil in Hf.
Qed.
Lemma notify_loop d k dt : ok (floop d Notify k dt).
Proof.
  induction k as [|k IH]; [apply ok_throw|]. intros w Hw. rewrite floop_S. cbn zeta.
  destruct (list_ (get_clist d Notify w)) as [l|] eqn:Hl; [|by apply post_refl].
  destruct (_ <? _)%Z; [|by apply post_refl].
  match goal with |- context [match ?x with Some _ => _ | None => (Throw _, _) end] =>
    destruct x as [f|] eqn:Hf end; [|by apply post_refl].
  assert (Hin : f ∈ l) by (destruct (_ <? 0)%Z; [done|by eapply list_elem_of_lookup_2]).
  apply post_bind; [apply call_post; [by eapply notify_member|done|done]|].
  intros b w1 _ Hw1. apply post_bind.
  - apply notify_change; [done|]. intros s l' Hl' g Hg. right. by exists l'.
  - intros [] w2 _ Hw2. by apply IH.
Qed.
Lemma notify_fire d k dt : ok (ffire d Notify k dt).
Proof.
  revert dt. induction k as [|k IH]; intros dt; [apply ok_throw|]. cbn [fire].
  assert (Hkeep : ∀ g, (∀ s, list_ (g s) = list_ s) →
    ok (upd (get_clist d Notify) (set_clist d Notify) g)).
  { intros g Hg w Hw. apply notify_change; [done|]. intros s l Hl f Hf. rewrite Hg in Hl. right. by exists l. }
  apply ok_bind; [by apply Hkeep|]. intros _. apply ok_bind; [apply notify_loop|]. intros _.
  apply ok_bind; [by apply Hkeep|]. intros _. apply ok_get. intros w.
  destruct (list_ _); [|apply ok_ret]. destruct (stack _) as [[|e q]|].
  - apply ok_ret.
  - apply ok_bind; [by apply Hkeep|]. intros _. apply IH.
  - destruct (memory _); intros w1 Hw1; apply notify_change; try done.
    intros s l2 [= <-] f []%elem_of_nil.
Qed.

(** The list that settled a deferred. *)
Lemma settled_at d a dt w :
  inv w → settled w d a dt → ∃ df, defs w !! d = Some df ∧ dinv d df ∧ state df = Settled a ∧
    a ≠ Notify ∧ settled_ok (tuple_list a df) ∧ memory (tuple_list a df) = Some dt.
Proof.
  intros [Hd _] (df & Hdf & Hst & Hm). exists df. pose proof (Hd d df Hdf) as Hi.
  split; [done|]. split; [done|]. unfold dinv in Hi. rewrite Hst in Hi. naive_solver.
Qed.
Lemma dinv_set d a df s :
  dinv d df → state df = Settled a → settled_ok s → is_Some (memory s) →
  dinv d (set_tuple_list a s df).
Proof.
  unfold dinv. rewrite state_set_tuple. intros [Hi Hn] Hst Hs Hm. rewrite Hst in Hi |- *.
  destruct Hi as (Ha & _ & _ & Ho). destruct a; [| |done]; (split; [|exact Hn]);
    rewrite tuple_list_set; done.
Qed.
(** Changing this list: [nobody] may see its index move while it fires. *)
Lemma settled_change but d a dt (g : clist → clist) w :
  inv w → settled w d a dt →
  (∀ s, settled_ok s → memory s = Some dt → get_clist d a w = s →
    settled_ok (g s) ∧ memory (g s) = Some dt ∧
    (¬ but d → firing s = true → firing (g s) = true ∧ firingIndex (g s) = firingIndex s)) →
  post but w (upd (get_clist d a) (set_clist d a) g w).
Proof.
  intros Hw Hs Hg. rewrite upd_change. apply change_post; [done|]. intros df Hdf Hi.
  destruct (settled_at d a dt w Hw Hs) as (df' & Hdf' & _ & Hst & Ha & Hok & Hm).
  assert (df' = df) as -> by congruence.
  destruct (Hg (tuple_list a df) Hok Hm (get_clist_at _ _ _ _ Hdf)) as (Hok' & Hm' & Hf').
  split; [by apply dinv_set|]. intros a' Ha'. assert (a' = a) as -> by congruence.
  rewrite state_set_tuple, tuple_list_set. split; [done|]. split; [congruence|done].
Qed.
Lemma settled_loop d a k dt w :
  inv w → settled w d a dt → firing (get_clist d a w) = true →
  post (eq d) w (floop d a k dt w).
Proof.
  revert w. induction k as [|k IH]; intros w Hw Hs Hf; [by apply post_refl|].
  rewrite floop_S. cbn zeta.
  destruct (settled_at d a dt w Hw Hs) as (df & Hdf & Hi & Hst & Ha & Hok & Hm).
  pose proof (get_clist_at d a w df Hdf) as Hget. rewrite Hget in Hf |- *.
  destruct Hok as (Hfd & Hq & Hidx & l & Hl & Hp). rewrite Hl. rewrite Hf in Hp.
  destruct (_ <? _)%Z; [|by apply post_refl]. rewrite (proj2 (Z.ltb_ge _ 0)) by done.
  destruct (l !! Z.to_nat (firingIndex (tuple_list a df))) as [f|] eqn:Hlk; [|by apply post_refl].
  assert (Hpf : plain f).
  { rewrite (drop_S _ _ _ Hlk) in Hp. by apply Forall_cons in Hp as [? _]. }
  assert (Hc : post nobody w (call app d a f dt w)) by (by apply call_post).
  apply post_bind; [by apply (post_weaken nobody); [intros ? []|]|].
  intros b w1 Ec Hw1. rewrite Ec in Hc. apply post_elim in Hc as (_ & HS1 & HF1); [|done].
  cbn [snd] in HS1, HF1. specialize (HS1 _ _ _ Hs).
  destruct (HF1 d a dt) as [Hf1 Hi1]; [intros []|done|by rewrite Hget|].
  assert (Hb : post (eq d) w1 (upd (get_clist d a) (set_clist d a)
                                  (λ s, set_index (firingIndex s + 1) s) w1)).
  { apply (settled_change (eq d) d a dt); [done..|]. intros s Hok Hms Hgs.
    split; [|split; [done|by intros []]]. destruct Hok as (Hfd' & Hq' & Hidx' & l' & Hl' & Hp').
    split; [done|]. split; [done|]. cbn. split; [lia|]. exists l'. split; [done|].
    rewrite <- Hgs in Hp' |- *. rewrite Hf1 in Hp' |- *. rewrite Z2Nat.inj_add by (rewrite ?Hgs; lia).
    rewrite Nat.add_comm. by apply Forall_drop_S. }
  apply post_bind; [done|]. intros [] w2 Eu Hw2. rewrite Eu in Hb.
  apply post_elim in Hb as (_ & HS2 & _); [|done]. apply IH; [done|by apply HS2|].
  rewrite upd_change in Eu. injection Eu as <-.
  destruct (settled_at d a dt w1 Hw1 HS1) as (df1 & Hdf1 & _).
  rewrite (get_clist_at d a w1 df1 Hdf1) in Hf1.
  rewrite (get_clist_at d a _ _ (change_at d _ w1 df1 Hdf1)). by rewrite tuple_list_set.
Qed.

(** The end of [fire] for such a list: it is left empty. *)
Definition fire_end d a k : M world unit :=
  upd (get_clist d a) (set_clist d a) (set_firing false) ≫= λ _,
  Prelude.get ≫= λ w : world,
  let s := get_clist d a w in
  match list_ s with
  | None => mret tt
  | Some _ =>
      match stack s with
      | Some (dt :: q) =>
          upd (get_clist d a) (set_clist d a) (set_stack (Some q)) ≫= λ _, ffire d a k dt
      | Some [] => mret tt
      | None =>
          match memory s with
          | Some _ => upd (get_clist d a) (set_clist d a) (set_list (Some []))
          | None => upd (get_clist d a) (set_clist d a) disable
          end
      end
  end.
Lemma ffire_S d a k dt :
  ffire d a (S k) dt =
    (upd (get_clist d a) (set_clist d a) (fire_begin (tuple_options a) dt) ≫= λ _,
     floop d a k dt ≫= λ _, fire_end d a k).
Proof. done. Qed.
Lemma change_change d g h w : change d h (change d g w) = change d (λ df, h (g df)) w.
Proof.
  unfold change. cbn. unfold with_defs. cbn. f_equal. apply list_eq. intros i.
  destruct (decide (i = d)) as [->|Hne].
  - rewrite !list_lookup_alter_eq. by destruct (defs w !! d).
  - by rewrite !list_lookup_alter_ne by done.
Qed.
Lemma settled_end d a k dt w :
  inv w → settled w d a dt → post (eq d) w (fire_end d a k w).
Proof.
  intros Hw Hs. destruct (settled_at d a dt w Hw Hs) as (df & Hdf & Hi & Hst & Ha & Hok & Hm).
  pose proof Hok as (Hfd & Hq & Hidx & l & Hl & Hp).
  assert (E : fire_end d a k w = (Ok tt, change d (λ df, set_tuple_list a
    (set_list (Some []) (set_firing false (tuple_list a df))) df) w)).
  { unfold fire_end. rewrite (bind_ok _ _ _ _ _ (upd_change d a (set_firing false) w)).
    unfold mbind, M_bind, Prelude.get. cbn beta iota zeta.
    rewrite (get_clist_at d a _ _ (change_at d _ w df Hdf)). rewrite tuple_list_set.
    cbn [set_firing list_ stack memory]. rewrite Hl, Hq, Hm, upd_change, change_change.
    f_equal. unfold change. f_equal. apply list_eq. intros i.
    destruct (decide (i = d)) as [->|Hne]; [|by rewrite !list_lookup_alter_ne by done].
    rewrite !list_lookup_alter_eq, Hdf. cbn. by destruct df, a. }
  rewrite E. apply change_post; [done|]. intros df1 Hdf1 _. assert (df1 = df) as -> by congruence.
  split.
  - apply dinv_set; [done|done| |by eexists; exact Hm]. split; [done|]. split; [done|].
    split; [done|]. exists []. split; [done|]. cbn. constructor.
  - intros a' Ha'. assert (a' = a) as -> by congruence.
    rewrite state_set_tuple, tuple_list_set. split; [done|]. split; [done|]. by intros [].
Qed.
Lemma post_strengthen {A} d a dt w (r : outcome A * world) :
  settled w d a dt → firing (get_clist d a w) = false → post (eq d) w r → post nobody w r.
Proof.
  intros Hs Hf Hr. apply post_intro. intros Hd. apply post_elim in Hr as (I & S & F); [|done].
  split; [done|]. split; [done|]. intros d' a' dt' _ Hs' Hf'.
  destruct (decide (d = d')) as [<-|Hne]; [|by apply (F d' a' dt')].
  exfalso. destruct Hs as (df & Hdf & Hst & _), Hs' as (df' & Hdf' & Hst' & _). congruence.
Qed.
(** Firing again, when a callback is added to a settled promise. *)
Lemma settled_fire d a k dt w :
  inv w → settled w d a dt → firing (get_clist d a w) = false → post nobody w (ffire d a k dt w).
Proof.
  intros Hw Hs Hf. destruct k as [|k]; [by apply post_refl|]. rewrite ffire_S.
  assert (Hb : post nobody w
    (upd (get_clist d a) (set_clist d a) (fire_begin (tuple_options a) dt) w)).
  { apply (settled_change nobody d a dt); [done..|]. intros s Hok Hm Hg.
    destruct Hok as (Hfd & Hq & Hidx & l & Hl & Hp). rewrite <- Hg in Hp. rewrite Hf in Hp.
    split; [|split; [by rewrite tuple_options_eq|]].
    - split; [done|]. split; [done|]. cbn. split; [lia|]. exists l. split; [done|].
      by apply Forall_drop.
    - intros _. rewrite <- Hg, Hf. done. }
  apply (post_strengthen d a dt); [done..|].
  apply post_bind; [by apply (post_weaken nobody); [intros ? []|]|].
  intros [] w1 Eu Hw1. rewrite Eu in Hb. apply post_elim in Hb as (_ & HS1 & _); [|done].
  cbn [snd] in HS1. specialize (HS1 _ _ _ Hs).
  assert (Hf1 : firing (get_clist d a w1) = true).
  { rewrite upd_change in Eu. injection Eu as <-. destruct Hs as (df & Hdf & _).
    rewrite (get_clist_at d a _ _ (change_at d _ w df Hdf)). by rewrite tuple_list_set. }
  pose proof (settled_loop d a k dt w1 Hw1 HS1 Hf1) as Hl.
  apply post_bind; [done|]. intros [] w2 El Hw2. rewrite El in Hl.
  apply post_elim in Hl as (_ & HS2 & _); [|done]. apply (settled_end d a k dt); [done|by apply HS2].
Qed.
End firing.

(** ** Settling a pending promise *)

(** What the callbacks of [Deferred] itself do. *)
Definition handler_step (f : fn) : M world jval :=
  match f with
  | FState d a => on_deferred d (set_state (Settled a))
  | FDisable d a => on_deferred d (λ df, set_tuple_list a (disable (tuple_list a df)) df)
  | FLock d => on_deferred d (λ df, set_tuple_list Notify (lock (tuple_list Notify df)) df)
  | _ => mret VUndef
  end.

Section settling.
Variable app : fn → jval → list jval → M world jval.
Hypothesis Happ : ∀ f this args, plain f → ok (app f this args).
(** Whether the handlers are sure to have the fuel they need. *)
Variable strict : bool.
Hypothesis Hdone : ∀ f this args w, ¬ plain f →
  strict = false ∧ (app f this args w).1 = Throw Diverge ∨ app f this args w = handler_step f w.
Local Abbreviation floop d a := (fire_loop (get_clist d a) (set_clist d a) (tuple_options a) (call app d a)).
Local Abbreviation ffire d a := (fire (get_clist d a) (set_clist d a) (tuple_options a) (call app d a)).
Implicit Types (w : world) (a : act).

Lemma with_log_change l d g w : with_log l (change d g w) = change d g (with_log l w).
Proof. done. Qed.
Definition bump a (df : deferred) : deferred :=
  set_tuple_list a (set_index (firingIndex (tuple_list a df) + 1) (tuple_list a df)) df.

(** A turn of the loop that calls a handler, which changes [d] by [h]. *)
Lemma handler_turn d a k dt w df f l h :
  defs w !! d = Some df → list_ (tuple_list a df) = Some l →
  firingLength (tuple_list a df) = Z.of_nat (length l) → (0 ≤ firingIndex (tuple_list a df))%Z →
  l !! Z.to_nat (firingIndex (tuple_list a df)) = Some f → ¬ plain f →
  (∀ v, handler_step f v = (Ok VUndef, change d h v)) →
  strict = false ∧ (floop d a (S k) dt w).1 = Throw Diverge ∨
  floop d a (S k) dt w =
    floop d a k dt (with_log (log w ++ [(d, a, f, dt)]) (change d (λ df, bump a (h df)) w)).
Proof.
  intros Hdf Hl Hn Hi Hf Hp Hh. rewrite floop_S. cbn zeta. rewrite (get_clist_at d a w df Hdf), Hl.
  pose proof (lookup_lt_Some _ _ _ Hf) as Hlt. rewrite (proj2 (Z.ltb_lt _ _)) by lia.
  rewrite (proj2 (Z.ltb_ge _ 0)) by done. rewrite Hf.
  set (w0 := with_log (log w ++ [(d, a, f, dt)]) w).
  assert (Hc : strict = false ∧ (call app d a f dt w).1 = Throw Diverge ∨
               call app d a f dt w = (Ok false, change d h w0)).
  { unfold call. rewrite (bind_ok _ _ w tt w0) by done.
    destruct (Hdone f dt.1 dt.2 w0 Hp) as [[Hst Hd]|Ha].
    - left. split; [done|]. unfold mbind, M_bind. destruct (app f dt.1 dt.2 w0) as [r w1]. cbn in Hd. by subst r.
    - right. rewrite (bind_ok _ _ w0 VUndef (change d h w0)); [done|]. by rewrite Ha, Hh. }
  destruct Hc as [[Hst Hc]|Hc].
  - left. split; [done|]. unfold mbind at 1, M_bind at 1. destruct (call app d a f dt w) as [r w1]. cbn in Hc.
    by subst r.
  - right. rewrite (bind_ok _ _ _ _ _ Hc). rewrite (bind_ok _ _ _ _ _ (upd_change d a _ _)).
    by rewrite change_change.
Qed.

(** The deferred after the callbacks it put in its own list have run. *)
Definition settle a (dt : data) (df : deferred) : deferred :=
  set_state (Settled a)
    (set_tuple_list Notify (lock (progress_list df))
      (set_tuple_list (other a) (disable (tuple_list (other a) df))
        (set_tuple_list a (set_index 3 (fire_begin (tuple_options a) dt (tuple_list a df))) df))).
Definition settle_log d a (dt : data) : list event :=
  (λ f, (d, a, f, dt)) <$> handlers d a.

Lemma change_ext d g h w :
  (∀ df, defs w !! d = Some df → g df = h df) → change d g w = change d h w.
Proof.
  intros Hgh. unfold change, with_defs. f_equal. apply list_eq. intros i.
  destruct (decide (i = d)) as [->|Hne]; [|by rewrite !list_lookup_alter_ne by done].
  rewrite !list_lookup_alter_eq. destruct (defs w !! d) as [df|] eqn:E; [|done]. cbn. by rewrite Hgh.
Qed.
Lemma logged l e d g h v w :
  with_log (log (with_log l v) ++ e) (change d g (with_log l (change d h w))) =
  with_log (l ++ e) (change d (λ df, g (h df)) w).
Proof. rewrite <- (change_change d h g w). done. Qed.
Lemma pending_start d a k dt w df :
  a ≠ Notify → dinv d df → defs w !! d = Some df → state df = Pending →
  let r := floop d a k dt (change d (λ df, set_tuple_list a
             (fire_begin (tuple_options a) dt (tuple_list a df)) df) w) in
  (strict = true → k < 3) ∧ r.1 = Throw Diverge ∨
  ∃ k', k = 3 + k' ∧ r = floop d a k' dt (with_log (log w ++ settle_log d a dt) (change d (settle a dt) w)).
Proof.
  intros Ha [Hi _] Hdf Hst r. rewrite Hst in Hi.
  assert (Hp : pending_ok d a (tuple_list a df)) by (destruct a; [apply Hi|apply Hi|done]).
  destruct Hp as (rest & Hs & _). unfold r. clear r Hi.
  set (g1 := λ df : deferred, set_tuple_list a (fire_begin (tuple_options a) dt (tuple_list a df)) df).
  set (h1 := set_state (Settled a)).
  set (h2 := λ df : deferred, set_tuple_list (other a) (disable (tuple_list (other a) df)) df).
  set (h3 := λ df : deferred, set_tuple_list Notify (lock (tuple_list Notify df)) df).
  assert (HL : ∀ i g, g = g1 df ∨ g = bump a (h1 (g1 df)) ∨ g = bump a (h2 (bump a (h1 (g1 df)))) → 
    firingIndex (tuple_list a g) = Z.of_nat i → 
    list_ (tuple_list a g) = Some (handlers d a ++ rest) ∧
    firingLength (tuple_list a g) = Z.of_nat (length (handlers d a ++ rest)) ∧
    (0 ≤ firingIndex (tuple_list a g))%Z ∧
    Z.to_nat (firingIndex (tuple_list a g)) = i).
  { intros i g Hg Hgi. rewrite Hgi, Nat2Z.id. clear Hgi.
    assert (list_ (tuple_list a g) = Some (handlers d a ++ rest) ∧
      firingLength (tuple_list a g) = Z.of_nat (length (handlers d a ++ rest))) as [-> ->].
    { destruct df as [st dl fl pl]. destruct a; [| |done]; cbn in Hs; rewrite Hs in Hg;
        destruct Hg as [-> | [-> | ->]]; done. }
    repeat split. lia. }
  assert (index : firingIndex (tuple_list a (g1 df)) = 0%Z ∧
    firingIndex (tuple_list a (bump a (h1 (g1 df)))) = 1%Z ∧
    firingIndex (tuple_list a (bump a (h2 (bump a (h1 (g1 df)))))) = 2%Z).
  { destruct df as [st dl fl pl]. by destruct a; [| |done]; cbn in Hs; rewrite Hs. }
  destruct k as [|k]; [left; split; [lia|done]|].
  destruct (HL 0 (g1 df)) as (L & N & I & T); [auto|by apply index|].
  destruct (handler_turn d a k dt (change d g1 w) (g1 df) (FState d a) _ h1 (change_at d g1 w df Hdf)
    L N I) as [[Hx Hd]|E1]; [by rewrite T|by intros []|done|left; split; [by rewrite Hx|done]|].
  rewrite E1. clear E1 L N I T. rewrite change_change. change (log (change d g1 w)) with (log w).
  destruct k as [|k]; [left; split; [lia|done]|].
  destruct (HL 1 (bump a (h1 (g1 df)))) as (L & N & I & T); [auto|by apply index|].
  destruct (handler_turn d a k dt (with_log (log w ++ [(d, a, FState d a, dt)])
      (change d (λ df, bump a (h1 (g1 df))) w)) (bump a (h1 (g1 df))) (FDisable d (other a)) _ h2
      (change_at d _ w df Hdf) L N I) as [[Hx Hd]|E2]; [by rewrite T|by intros []|done|left; split; [by rewrite Hx|done]|].
  rewrite E2. clear E2 L N I T. rewrite logged.
  destruct k as [|k]; [left; split; [lia|done]|].
  destruct (HL 2 (bump a (h2 (bump a (h1 (g1 df)))))) as (L & N & I & T); [auto|by apply index|].
  match goal with |- context [fire_loop _ _ _ _ (S k) dt ?v] =>
    destruct (handler_turn d a k dt v (bump a (h2 (bump a (h1 (g1 df))))) (FLock d) _ h3
      (change_at d _ w df Hdf) L N I) as [[Hx Hd]|E3]; [by rewrite T|by intros []|done|left; split; [by rewrite Hx|done]|] end.
  rewrite E3. clear E3 L N I T. right. exists k. split; [lia|]. f_equal.
  rewrite logged. f_equal; [by rewrite <- !(assoc_L (++))|].
  apply change_ext. intros df0 Hdf0. assert (df0 = df) as -> by congruence.
  destruct df as [st dl fl pl]. by destruct a; [| |done]; cbn in Hs; rewrite Hs.
Qed.

(** Methods of a deferred that does not exist have no effect. *)
Lemma change_none d g w : defs w !! d = None → change d g w = w.
Proof.
  intros Hn. unfold change, with_defs. destruct w as [ds ws lg]. cbn in *. f_equal.
  apply list_eq. intros i. destruct (decide (i = d)) as [->|Hne].
  - by rewrite list_lookup_alter_eq, Hn.
  - by rewrite list_lookup_alter_ne.
Qed.
Lemma upd_none d a g w : defs w !! d = None → upd (get_clist d a) (set_clist d a) g w = (Ok tt, w).
Proof. intros Hn. by rewrite upd_change, change_none. Qed.
Lemma ffire_none d a k dt w : inv w → defs w !! d = None → post nobody w (ffire d a k dt w).
Proof.
  intros Hw Hn. assert (Hg : get_clist d a w = Callbacks (tuple_options a)) by (unfold get_clist; by rewrite Hn).
  destruct k as [|k]; [by apply post_refl|]. rewrite ffire_S.
  rewrite (bind_ok _ _ _ _ _ (upd_none d a _ w Hn)).
  destruct k as [|k]; [by apply post_refl|].
  assert (E : floop d a (S k) dt w = (Ok tt, w)) by (rewrite floop_S; cbn zeta; by rewrite Hg).
  rewrite (bind_ok _ _ _ _ _ E). unfold fire_end. rewrite (bind_ok _ _ _ _ _ (upd_none d a _ w Hn)).
  unfold mbind, M_bind, Prelude.get. cbn beta iota zeta. rewrite Hg. cbn [list_ stack memory Callbacks].
  destruct (once _); [|by apply post_refl]. rewrite upd_none by done. by apply post_refl.
Qed.

Lemma post_pending {A} d w df (r : outcome A * world) :
  defs w !! d = Some df → state df = Pending → post (eq d) w r → post nobody w r.
Proof.
  intros Hdf Hst Hr. apply post_intro. intros Hd. apply post_elim in Hr as (I & S & F); [|done].
  split; [done|]. split; [done|]. intros d' a' dt' _ Hs' Hf'.
  destruct (decide (d = d')) as [<-|Hne]; [|by apply (F d' a' dt')].
  exfalso. destruct Hs' as (df' & Hdf' & Hst' & _). congruence.
Qed.
Lemma settle_dinv d a dt df :
  a ≠ Notify → dinv d df → state df = Pending →
  dinv d (settle a dt df) ∧ state (settle a dt df) = Settled a ∧
  memory (tuple_list a (settle a dt df)) = Some dt ∧ firing (tuple_list a (settle a dt df)) = true.
Proof.
  intros Ha [Hi Hn] Hst. rewrite Hst in Hi. destruct df as [st dl fl pl]. cbn in Hst, Hi, Hn. subst st.
  destruct Hi as [(r1 & Hd & H1) (r2 & Hf & H2)].
  assert (HN : ∀ l, list_ (lock pl) = Some l → Forall plain l).
  { intros l. unfold lock, disable. destruct pl as [b m fd n i fs l0 q]; cbn in *.
    destruct m; cbn; [apply Hn|done]. }
  assert (Hsi : ∀ (r : list fn) (s : clist), list_ s = Some (handlers d a ++ r) → stack s = None →
    Forall plain r →
    settled_ok (set_index 3 (fire_begin (tuple_options a) dt s))).
  { intros r s Hl Hq Hr. split; [done|]. split; [done|]. cbn. split; [lia|]. by exists (handlers d a ++ r). }
  destruct a; [| |done]; rewrite Hd, Hf; (split; [split; [|done]|done]); cbn -[set_index fire_begin tuple_options].
  - split; [done|]. split; [by eapply Hsi|]. by eexists.
  - split; [done|]. split; [by eapply Hsi|]. by eexists.
Qed.
(** The first firing. *)
Lemma pending_fire d a k dt w df :
  a ≠ Notify → inv w → defs w !! d = Some df → state df = Pending → post nobody w (ffire d a k dt w).
Proof.
  intros Ha Hw Hdf Hst. destruct k as [|k]; [by apply post_refl|]. rewrite ffire_S.
  pose proof (proj1 Hw d df Hdf) as Hi. rewrite (bind_ok _ _ _ _ _ (upd_change d a _ w)).
  destruct (pending_start d a k dt w df Ha Hi Hdf Hst) as [[_ Hd]|(k' & _ & Hr)].
  { unfold mbind, M_bind. destruct (floop d a k dt _) as [r w1]. cbn in Hd. by subst r. }
  destruct (settle_dinv d a dt df Ha Hi Hst) as (Hi' & Hst' & Hm' & Hf').
  set (w3 := with_log (log w ++ settle_log d a dt) (change d (settle a dt) w)) in *.
  assert (Hat : defs w3 !! d = Some (settle a dt df)) by (by apply change_at).
  assert (Hs3 : settled w3 d a dt) by (by exists (settle a dt df)).
  assert (H3 : post nobody w (Ok tt, w3)).
  { apply (post_trans nobody w (Ok tt, change d (settle a dt) w) _); [done| |].
    - apply change_post; [done|]. intros df0 Hdf0 _. assert (df0 = df) as -> by congruence.
      split; [done|]. intros a' Ha'. congruence.
    - apply rest_post.
      + apply (change_post (A:=unit) nobody d (settle a dt) w (Ok tt) Hw).
        intros df0 Hdf0 _. assert (df0 = df) as -> by congruence. split; [done|]. intros. congruence.
      + done.
      + intros d' a' f' dt' [Hin|Hin]%elem_of_app _; [by left|]. right.
        apply list_elem_of_fmap in Hin as (f & [= -> -> -> ->] & _). exact Hs3. }
  apply post_elim in H3 as (Hw3 & HS3 & HF3); [|done]. cbn [snd] in Hw3, HS3, HF3.
  apply (post_pending d w df); [done..|].
  assert (HL : post (eq d) w3 ((floop d a k' dt ≫= λ _, fire_end app d a k) w3)).
  { assert (Hl : post (eq d) w3 (floop d a k' dt w3)).
    { apply settled_loop; [done..|]. by rewrite (get_clist_at d a w3 _ Hat). }
    apply post_bind; [done|]. intros [] w4 El Hw4. rewrite El in Hl.
    apply post_elim in Hl as (_ & HS4 & _); [|done].
    by apply (settled_end app d a k dt), HS4. }
  apply post_intro. intros Hd.
  assert (Er : (floop d a k dt ≫= λ _, fire_end app d a k)
    (change d (λ df, set_tuple_list a (fire_begin (tuple_options a) dt (tuple_list a df)) df) w) =
    (floop d a k' dt ≫= λ _, fire_end app d a k) w3) by (unfold mbind, M_bind; by rewrite Hr).
  rewrite Er in Hd |- *. apply post_elim in HL as (I & S & F); [|done].
  split; [done|]. split; [intros d1 a1 dt1 Hs1; by apply S, HS3|].
  intros d1 a1 dt1 Hne Hs1 Hf1. destruct (HF3 d1 a1 dt1) as [Hf2 Hi2]; [intros []|done..|].
  destruct (F d1 a1 dt1 Hne (HS3 _ _ _ Hs1) Hf2). split; [done|congruence].
Qed.

Lemma act_with_ok d a fuel this args : ok (act_with app fuel d a this args).
Proof.
  intros w Hw. unfold act_with, fireWith. unfold mbind at 1, M_bind at 1, Prelude.get.
  cbn beta iota zeta. destruct (_ && _) eqn:Econd; [|by apply post_refl].
  destruct (defs w !! d) as [df|] eqn:Hdf.
  2:{ unfold get_clist. rewrite Hdf. cbn [firing Callbacks]. by apply ffire_none. }
  rewrite (get_clist_at d a w df Hdf) in Econd |- *.
  destruct (decide (a = Notify)) as [->|Ha].
  { destruct (firing _).
    - destruct (stack _); [|by apply post_refl]. apply notify_change; [done|].
      intros s l1 Hl1 f Hf. right. by exists l1.
    - by apply notify_fire. }
  pose proof (proj1 Hw d df Hdf) as Hi. destruct (state df) as [|a'] eqn:Hst.
  - pose proof Hi as [Hp _]. rewrite Hst in Hp.
    assert (Hp' : pending_ok d a (tuple_list a df)) by (destruct a; [apply Hp|apply Hp|done]).
    destruct Hp' as (rest & Hs & _). rewrite Hs. cbn [firing]. by apply (pending_fire d a fuel _ w df).
  - pose proof Hi as [Hp _]. rewrite Hst in Hp. destruct Hp as (Ha' & Hok & _ & Hnone).
    exfalso. destruct (decide (a = a')) as [->|Hne].
    + destruct Hok as (Hfd & Hq & _). unfold locked in Econd. rewrite Hfd, Hq in Econd.
      by rewrite andb_false_r in Econd.
    + assert (a = other a') as -> by (by destruct a, a'). unfold disabled in Econd.
      by rewrite Hnone in Econd.
Qed.

(** What [add] does with the functions [fs], for a list that was [s]. *)
Definition append_fns (d : nat) (a : act) (fuel : nat) (l fs : list fn) (s : clist) : M world unit :=
  upd (get_clist d a) (set_clist d a) (set_list (Some (l ++ fs))) ≫= λ _,
  if firing s then upd (get_clist d a) (set_clist d a) (set_length (Z.of_nat (length (l ++ fs))))
  else
    match memory s with
    | Some m => upd (get_clist d a) (set_clist d a) (set_start (length l)) ≫= λ _, ffire d a fuel m
    | None => mret tt
    end.

Lemma append_notify d fuel l fs w df :
  inv w → Forall plain fs → defs w !! d = Some df → list_ (tuple_list Notify df) = Some l →
  post nobody w (append_fns d Notify fuel l fs (tuple_list Notify df) w).
Proof.
  intros Hw Hfs Hdf Hl. pose proof (get_clist_at d Notify w df Hdf) as Hget. apply post_bind.
  - apply notify_change; [done|]. intros s l1 [= <-] f [Hf|Hf]%elem_of_app.
    + left. apply (notify_member d w l f Hw); [by rewrite Hget|done].
    + left. by eapply Forall_forall in Hfs.
  - intros [] w1 _ Hw1. assert (Hkeep : ∀ g : clist → clist, (∀ s, list_ (g s) = list_ s) →
      ok (upd (get_clist d Notify) (set_clist d Notify) g)).
    { intros g Hg v Hv. apply notify_change; [done|]. intros s l2 Hl2 f Hf. rewrite Hg in Hl2.
      right. by exists l2. }
    destruct (firing _); [by apply Hkeep|]. destruct (memory _); [|by apply post_refl].
    apply ok_bind; [by apply Hkeep|intros _; by apply notify_fire|done].
Qed.

Lemma append_pending d a fuel l fs w df :
  inv w → Forall plain fs → a ≠ Notify → defs w !! d = Some df → state df = Pending →
  list_ (tuple_list a df) = Some l →
  post nobody w (append_fns d a fuel l fs (tuple_list a df) w).
Proof.
  intros Hw Hfs Ha Hdf Hst Hl. pose proof (proj1 Hw d df Hdf) as [Hp Hn].
  rewrite Hst in Hp. destruct Hp as [(r1 & H1 & P1) (r2 & H2 & P2)].
  assert (Hfm : firing (tuple_list a df) = false ∧ memory (tuple_list a df) = None).
  { destruct a; [| |done]; cbn; [by rewrite H1|by rewrite H2]. }
  unfold append_fns. destruct Hfm as [-> ->]. apply post_bind; [|intros [] w1 _ Hw1; by apply post_refl].
  rewrite upd_change. apply change_post; [done|]. intros df0 Hdf0 _.
  assert (df0 = df) as -> by congruence. split; [|by intros a' Ha'; congruence].
  unfold dinv. rewrite state_set_tuple, Hst. destruct a; [| |done]; cbn in Hl |- *.
  - rewrite H1 in Hl. injection Hl as <-. split; [split|done].
    + exists (r1 ++ fs). split; [by rewrite H1|by apply Forall_app].
    + by exists r2.
  - rewrite H2 in Hl. injection Hl as <-. split; [split|done].
    + by exists r1.
    + exists (r2 ++ fs). split; [by rewrite H2|by apply Forall_app].
Qed.

(** Moving the end or the start of a loop does not touch the list. *)
Lemma settled_moved d a dt w (g : clist → clist) :
  inv w → a ≠ Notify → settled w d a dt →
  (∃ n, g = set_length n) ∨ (∃ n, g = set_start n) →
  post nobody w (upd (get_clist d a) (set_clist d a) g w).
Proof.
  intros Hw Ha Hs Hg. apply (settled_change nobody d a dt); [done..|]. intros s Hoks Hms _.
  destruct Hoks as (Hfd & Hq & Hidx & l' & Hl' & Hp').
  destruct Hg as [[n ->]|[n ->]]; (split; [|done]); repeat (split; [done|]); by exists l'.
Qed.

Lemma append_settled d a fuel l fs dt w df :
  inv w → Forall plain fs → a ≠ Notify → defs w !! d = Some df → settled w d a dt →
  memory (tuple_list a df) = Some dt → list_ (tuple_list a df) = Some l →
  post nobody w (append_fns d a fuel l fs (tuple_list a df) w).
Proof.
  intros Hw Hfs Ha Hdf Hs Hm Hl. pose proof (get_clist_at d a w df Hdf) as Hget.
  assert (Hset : post nobody w (upd (get_clist d a) (set_clist d a) (set_list (Some (l ++ fs))) w)).
  { apply (settled_change nobody d a dt); [done..|]. intros s Hoks Hms Hgs. rewrite Hget in Hgs. subst s.
    split; [|split; [done|by intros _ Hf]]. destruct Hoks as (Hfd & Hq & Hidx & l' & Hl' & Hp').
    split; [done|]. split; [done|]. split; [done|]. exists (l ++ fs). split; [done|].
    assert (l' = l) as -> by congruence. cbn [firing set_list firingIndex].
    rewrite drop_app. apply Forall_app. split; [done|]. by apply Forall_drop. }
  apply post_bind; [done|]. intros [] w1 Eu Hw1. rewrite Eu in Hset.
  apply post_elim in Hset as (_ & HS1 & _); [|done]. cbn [snd] in HS1. specialize (HS1 _ _ _ Hs).
  assert (Hget1 : get_clist d a w1 = set_list (Some (l ++ fs)) (tuple_list a df)).
  { rewrite upd_change in Eu. injection Eu as <-.
    rewrite (get_clist_at d a _ _ (change_at d _ w df Hdf)). by rewrite tuple_list_set. }
  destruct (firing (tuple_list a df)) eqn:Hf; [by apply (settled_moved d a dt); eauto|rewrite Hm].
  pose proof (settled_moved d a dt w1 (set_start (length l)) Hw1 Ha HS1 ltac:(eauto)) as Hst1.
  apply post_bind; [done|]. intros [] w2 Eu2 Hw2. rewrite Eu2 in Hst1.
  apply post_elim in Hst1 as (_ & HS2 & _); [|done]. apply settled_fire; [done|done|by apply HS2|].
  rewrite upd_change in Eu2. injection Eu2 as <-. destruct HS1 as (df1 & Hdf1 & _).
  rewrite (get_clist_at d a _ _ (change_at d _ w1 df1 Hdf1)), tuple_list_set.
  rewrite (get_clist_at d a w1 df1 Hdf1) in Hget1. by rewrite Hget1.
Qed.

Lemma on_ok d a fuel fs : Forall plain fs → ok (on app fuel d a fs).
Proof.
  intros Hfs w Hw. unfold on, add. unfold mbind at 1, M_bind at 1, Prelude.get. cbn beta iota zeta.
  destruct (list_ (get_clist d a w)) as [l|] eqn:Hl; [|by apply post_refl].
  rewrite add_all by (by rewrite tuple_options_eq).
  destruct (defs w !! d) as [df|] eqn:Hdf.
  2:{ rewrite (bind_ok _ _ _ _ _ (upd_none d a _ w Hdf)). unfold get_clist. rewrite Hdf.
      cbn [firing memory Callbacks]. by apply post_refl. }
  rewrite (get_clist_at d a w df Hdf) in Hl |- *.
  destruct (decide (a = Notify)) as [->|Ha]; [by apply append_notify|].
  destruct (state df) as [|a'] eqn:Hst; [by apply append_pending|].
  pose proof (proj1 Hw d df Hdf) as [Hp _]. rewrite Hst in Hp.
  destruct Hp as (Ha' & _ & [dt Hm] & Hnone). destruct (decide (a = a')) as [<-|Hne].
  - apply (append_settled d a fuel l fs dt); [done..|by exists df|done|done].
  - assert (a = other a') as -> by (by destruct a, a'). congruence.
Qed.
End settling.

(** ** Every program keeps the invariant *)

Section programs.
Variable body : nat → jval → list jval → list event → prog.

Section one_level.
Variable app : fn → jval → list jval → M world jval.
Hypothesis Happ : ∀ f this args, plain f → ok (app f this args).
Variable strict : bool.
Hypothesis Hdone : ∀ f this args w, ¬ plain f →
  strict = false ∧ (app f this args w).1 = Throw Diverge ∨ app f this args w = handler_step f w.
Variable fuel : nat.

Lemma act_fn_ok d a this args : ok (act_fn app fuel d a this args).
Proof. by eapply act_with_ok. Qed.
Lemma on_plain d a f : plain f → ok (on app fuel d a [f]).
Proof. intros Hf. eapply on_ok; [done..|]. by repeat constructor. Qed.
Lemma on_users d a us : ok (on app fuel d a (FUser <$> us)).
Proof.
  eapply on_ok; [done..|]. apply Forall_forall. by intros f (u & -> & _)%list_elem_of_fmap.
Qed.
Lemma on_when_ok n f : ok (on_when n f).
Proof. intros w Hw. by apply whens_post. Qed.
Lemma get_when_ok n : ok (get_when n).
Proof. apply ok_get. intros w. destruct (whens w !! n); auto with js. Qed.
#[local] Hint Resolve act_fn_ok on_plain on_users on_when_ok get_when_ok ok_Deferred : js.

Lemma then_ok d fns : ok (then_ app fuel d fns).
Proof.
  apply ok_bind; [apply ok_Deferred|intros nd].
  do 3 (apply ok_bind; [by eapply on_plain|intros _]). auto with js.
Qed.
Lemma forward_ok d nd a f this args : ok (forward app fuel d nd a f this args).
Proof.
  apply ok_bind.
  - destruct f as [u|]; [|auto with js]. apply ok_bind; [by apply Happ|auto with js].
  - intros r. destruct (r ≫= promise_of) as [p|]; [|by eapply act_with_ok].
    apply ok_bind; [by eapply on_plain|intros _]. apply ok_bind; [by eapply on_plain|intros _].
    by eapply on_plain.
Qed.
Lemma update_ok n i p this args : ok (update app fuel n i p this args).
Proof.
  apply ok_bind; [auto with js|intros _]. destruct p.
  - apply ok_bind; [auto with js|intros wc]. by eapply act_with_ok.
  - apply ok_bind; [auto with js|intros _]. apply ok_bind; [auto with js|intros wc].
    destruct (Z.eqb _ _); [by eapply act_with_ok|auto with js].
Qed.
Lemma when_loop_ok n m i args : ok (when_loop app fuel n m i args).
Proof.
  revert i. induction args as [|v args IH]; intros i; cbn [when_loop];
    [apply ok_ret|].
  apply ok_bind; [|intros _; apply IH]. destruct (promise_of v) as [d|]; [|apply on_when_ok].
  apply ok_bind; [by eapply on_plain|intros _]. apply ok_bind; [by eapply on_plain|intros _].
  by eapply on_plain.
Qed.
Lemma when_ok args : ok (when app fuel args).
Proof.
  assert (Hmany : ok (Deferred_ ≫= λ m, Prelude.get ≫= λ w : world,
    put (with_whens (whens w ++ [WhenCall m (Z.of_nat (length args)) args
      (replicate (length args) VUndef) (replicate (length args) VUndef)
      (replicate (length args) VUndef)]) w) ≫= λ _,
    when_loop app fuel (length (whens w)) m 0 args ≫= λ _,
    get_when (length (whens w)) ≫= λ wc,
    (if Z.eqb (remaining wc) 0
     then act_with app fuel m Resolve
            (match args with [] => VUndef | _ => VContexts (length (whens w)) false end)
            (resolveValues wc)
     else mret tt) ≫= λ _, mret (VPromise m))).
  { apply ok_bind; [apply ok_Deferred|intros m]. intros w Hw.
    change (post nobody w ((put (with_whens (whens w ++ [WhenCall m (Z.of_nat (length args)) args
      (replicate (length args) VUndef) (replicate (length args) VUndef)
      (replicate (length args) VUndef)]) w) ≫= λ _,
    when_loop app fuel (length (whens w)) m 0 args ≫= λ _,
    get_when (length (whens w)) ≫= λ wc,
    (if Z.eqb (remaining wc) 0
     then act_with app fuel m Resolve
            (match args with [] => VUndef | _ => VContexts (length (whens w)) false end)
            (resolveValues wc)
     else mret tt) ≫= λ _, mret (VPromise m)) w)).
    apply post_bind; [by apply whens_post|]. intros _ w1 _ Hw1.
    apply ok_bind; [apply when_loop_ok|intros _|done].
    apply ok_bind; [apply get_when_ok|intros wc].
    apply ok_bind; [destruct (Z.eqb _ _); [by eapply act_with_ok|auto with js]|auto with js]. }
  destruct args as [|v [|v' args]]; [exact Hmany| |exact Hmany]. unfold when.
  destruct (promise_of v); [auto with js|]. apply ok_bind; [apply ok_Deferred|intros m].
  apply ok_bind; [by eapply act_with_ok|auto with js].
Qed.
Lemma exists_ok d {A} (m : M world A) : ok m → ok (exists_ d m).
Proof. intros Hm. apply ok_get. intros w. by destruct (_ <? _); [|auto with js]. Qed.
Lemma exec_ok c : ok (exec app fuel c).
Proof.
  destruct c as [|d a args|d a this args|d a us|d us|d fns|args|d]; cbn [exec].
  - apply ok_bind; [apply ok_Deferred|auto with js].
  - apply ok_bind; [by eapply exists_ok, act_fn_ok|auto with js].
  - apply ok_bind; [by eapply exists_ok, act_with_ok|auto with js].
  - apply ok_bind; [by eapply exists_ok, on_users|auto with js].
  - apply ok_bind; [by eapply exists_ok, on_users|intros _].
    apply ok_bind; [by eapply on_users|auto with js].
  - by eapply exists_ok, then_ok.
  - by eapply when_ok.
  - apply ok_get. intros w. destruct (defs w !! d); auto with js.
Qed.
Lemma run_prog_ok p : ok (run_prog app fuel p).
Proof.
  induction p as [v|e|c k IH]; cbn [run_prog]; [auto with js..|].
  apply ok_bind; [eapply exec_ok|apply IH].
Qed.
Lemma apply_step_ok f this args : plain f → ok (apply_step body app fuel f this args).
Proof.
  intros Hf. destruct f as [u|d a|d a|d|d a|d nd a f|n i p]; try done; cbn [apply_step].
  - apply ok_get. intros w. eapply run_prog_ok.
  - apply ok_bind; [by eapply act_fn_ok|auto with js].
  - apply ok_bind; [by eapply forward_ok|auto with js].
  - apply ok_bind; [by eapply update_ok|auto with js].
Qed.
End one_level.

Lemma apply_done fuel f this args w :
  ¬ plain f → false = false ∧ (apply body fuel f this args w).1 = Throw Diverge ∨
    apply body fuel f this args w = handler_step f w.
Proof. intros Hf. destruct fuel; [by left|right]. by destruct f; try (exfalso; by apply Hf). Qed.
Lemma apply_ok fuel f this args : plain f → ok (apply body fuel f this args).
Proof.
  revert f this args. induction fuel as [|k IH]; intros f this args Hf; [intros w; apply post_refl|].
  by apply (apply_step_ok _ IH false (apply_done k)).
Qed.
Lemma turn_ok fuel p : ok (turn body fuel p).
Proof. apply (run_prog_ok _ (apply_ok fuel) false (apply_done fuel)). Qed.
Lemma reachable_inv w : reachable body w → inv w.
Proof.
  induction 1 as [|fuel p w Hw IH Hd].
  - split; [done|]. by intros d a f dt Hin%elem_of_nil.
  - by apply (post_elim nobody w _ (turn_ok fuel p w IH)).
Qed.
End programs.

(** C14: a promise is settled once: whatever the functions of the page do, among the
    callbacks of [done] and [fail] of a deferred only those of one of the two are
    ever called, and all of them with the same context and values. *)
Theorem deferred_settles_once (body : nat → jval → list jval → list event → prog) (w : world)
    (d : nat) (a1 a2 : act) (f1 f2 : fn) (dt1 dt2 : data) :
  reachable body w → a1 ≠ Notify → a2 ≠ Notify →
  (d, a1, f1, dt1) ∈ log w → (d, a2, f2, dt2) ∈ log w → a1 = a2 ∧ dt1 = dt2.
Proof.
  intros Hr H1 H2 L1 L2. apply reachable_inv in Hr as [_ Hl].
  destruct (Hl _ _ _ _ L1 H1) as (df & Hdf & Hs & Hm).
  destruct (Hl _ _ _ _ L2 H2) as (df' & Hdf' & Hs' & Hm').
  assert (df' = df) as -> by congruence. assert (a2 = a1) as -> by congruence.
  split; [done|congruence].
Qed.

(** Once a deferred is resolved or rejected it stays so, with the same values:
    no later program, call or callback changes this. *)
Theorem settled_forever (body : nat → jval → list jval → list event → prog) (fuel : nat) (p : prog)
    (w : world) (d : nat) (a : act) (dt : data) :
  reachable body w → settled w d a dt → (turn body fuel p w).1 ≠ Throw Diverge →
  settled (turn body fuel p w).2 d a dt.
Proof.
  intros Hr Hs Hd. pose proof (turn_ok body fuel p w (reachable_inv body w Hr)) as Hp.
  by apply post_elim in Hp as (_ & HS & _); [apply HS|].
Qed.

(** ** A promise whose callbacks use it *)

(** Function 9 rejects the deferred that calls it and adds a callback. *)
Definition sample_body (u : nat) (this : jval) (args : list jval) (l : list event) : prog :=
  match u with
  | 9 => Do (CAct 0 Reject []) (λ _, Do (COn 0 Resolve [5]) (λ _, Ret (VNum 42)))
  | _ => Ret VUndef
  end.
Definition sample_prog : prog :=
  Do CDeferred (λ _, Do (COn 0 Resolve [1; 9; 2]) (λ _, Do (COn 0 Reject [3]) (λ _,
  Do (CThen 0 (λ a, match a with Resolve => Some 9 | _ => None end)) (λ _,
  Do (COn 1 Resolve [7]) (λ _, Do (CAct 0 Resolve [VNum 1]) (λ _,
  Do (CAct 0 Reject [VNum 1]) (λ _, Do (COn 0 Resolve [4]) (λ _, Do (CState 0) Ret)))))))).
(** The calls of functions of the page. *)
Definition user_log (l : list event) : list (nat * act * nat * list jval) :=
  omap (λ e, match e with (d, a, FUser u, dt) => Some (d, a, u, dt.2) | _ => None end) l.
Example sample_run :
  (turn sample_body 20 sample_prog init_world).1 = Ok (VNum 1) ∧
  user_log (log (turn sample_body 20 sample_prog init_world).2) =
    [(0, Resolve, 1, [VNum 1]); (0, Resolve, 9, [VNum 1]); (0, Resolve, 2, [VNum 1]);
     (1, Resolve, 7, [VNum 42]); (0, Resolve, 5, [VNum 1]); (0, Resolve, 5, [VNum 1]);
     (0, Resolve, 4, [VNum 1])].
Proof. split; vm_compute; reflexivity. Qed.

Definition sample_end : world := (turn sample_body 20 sample_prog init_world).2.
Lemma sample_reachable : reachable sample_body sample_end.
Proof. apply reach_turn; [constructor|]. vm_compute. done. Qed.

Lemma deferred_settles_once_witness : Resolve = Resolve ∧ (VPromise 0, [VNum 1]) = (VPromise 0, [VNum 1]).
Proof.
  apply (deferred_settles_once sample_body sample_end 0 Resolve Resolve (FUser 1) (FUser 4)
    (VPromise 0, [VNum 1]) (VPromise 0, [VNum 1])).
  - apply sample_reachable.
  - done.
  - done.
  - eapply list_elem_of_lookup_2 with (i := 3). vm_compute. reflexivity.
  - eapply list_elem_of_lookup_2 with (i := 13). vm_compute. reflexivity.
Defined.

Lemma settled_forever_witness :
  settled (turn sample_body 20 (Do (CAct 0 Reject []) Ret) sample_end).2 0 Resolve (VPromise 0, [VNum 1]).
Proof.
  apply (settled_forever sample_body 20 (Do (CAct 0 Reject []) Ret) sample_end 0 Resolve
    (VPromise 0, [VNum 1])).
  - apply sample_reachable.
  - eexists. split; [vm_compute; reflexivity|]. split; vm_compute; reflexivity.
  - vm_compute. done.
Defined.

End Deferred.
