(* ===== verification/JqPromises.v ===== *)
(** * What promises deliver

    The functional behaviour of [jQuery.Deferred] and [jQuery.when], proved on the
    definitions of [JqDeferred] for functions of the page that do not use the
    promises themselves. *)

From stdpp Require Import base tactics list strings numbers sets gmap.
From Stdlib Require Import ZArith Permutation Lia.
From S2P Require Import Prelude.
From S2P Require Import JsString.
From S2P Require Import JqCallbacks.
From S2P Require Import JqDeferred.

Module Promises.
Import Deferred.

(** A function of the page that uses no promise and does not throw. *)
Definition inert (body : nat → jval → list jval → list event → prog) (u : nat) : Prop :=
  ∀ this args l, ∃ v, body u this args l = Ret v.
Definition calls (d : nat) (a : act) (us : list nat) (dt : data) : list event :=
  (λ u, (d, a, FUser u, dt)) <$> us.

Section focus.
Variable body : nat → jval → list jval → list event → prog.
Variable d : nat.
Variable ds : list deferred.
Variable ws : list when_call.
Hypothesis Hd : d < length ds.

(** The world whose deferred [d] is [df]. *)
Definition F (df : deferred) (lg : list event) : world := World (<[d := df]> ds) ws lg.
Lemma F_at df lg : defs (F df lg) !! d = Some df.
Proof. cbn. by apply list_lookup_insert_eq. Qed.
Lemma F_get a df lg : get_clist d a (F df lg) = tuple_list a df.
Proof. apply get_clist_at, F_at. Qed.
Lemma F_change g df lg : change d g (F df lg) = F (g df) lg.
Proof.
  unfold change, F, with_defs. cbn. f_equal. apply list_eq. intros i.
  destruct (decide (i = d)) as [->|Hne].
  - by rewrite list_lookup_alter_eq, !list_lookup_insert_eq.
  - by rewrite list_lookup_alter_ne, !list_lookup_insert_ne.
Qed.
Lemma F_upd a f df lg :
  upd (get_clist d a) (set_clist d a) f (F df lg) =
  (Ok tt, F (set_tuple_list a (f (tuple_list a df)) df) lg).
Proof. by rewrite upd_change, F_change. Qed.

Local Abbreviation app n := (apply body (S n)).
Local Abbreviation floop n a :=
  (fire_loop (get_clist d a) (set_clist d a) (tuple_options a) (call (app n) d a)).

Lemma call_inert n a u dt w :
  inert body u → ∃ b, call (app n) d a (FUser u) dt w = (Ok b, with_log (log w ++ [(d, a, FUser u, dt)]) w).
Proof.
  intros Hu. unfold call. rewrite (bind_ok _ _ w tt (with_log (log w ++ [(d, a, FUser u, dt)]) w)) by done.
  cbn [apply apply_step]. unfold mbind, M_bind, Prelude.get. cbn beta iota.
  destruct (Hu dt.1 dt.2 (log (with_log (log w ++ [(d, a, FUser u, dt)]) w))) as [v ->]. by eexists.
Qed.

(** The loop over callbacks of the page. *)
Lemma user_loop n a k dt us df lg l :
  list_ (tuple_list a df) = Some l → firingLength (tuple_list a df) = Z.of_nat (length l) →
  (0 ≤ firingIndex (tuple_list a df))%Z →
  drop (Z.to_nat (firingIndex (tuple_list a df))) l = FUser <$> us →
  Forall (inert body) us → length us < k →
  floop n a k dt (F df lg) =
    (Ok tt, F (set_tuple_list a (set_index (firingIndex (tuple_list a df) + Z.of_nat (length us))
                                  (tuple_list a df)) df) (lg ++ calls d a us dt)).
Proof.
  intros Hl Hn Hi Hus Hin Hk. revert us df lg Hl Hn Hi Hus Hin Hk.
  induction k as [|k IH]; intros us df lg Hl Hn Hi Hus Hin Hk; [lia|].
  rewrite floop_S. cbn zeta. rewrite F_get, Hl.
  destruct us as [|u us].
  - apply (f_equal length) in Hus. rewrite length_drop in Hus. cbn in Hus.
    rewrite (proj2 (Z.ltb_ge (firingIndex (tuple_list a df)) (firingLength (tuple_list a df)))) by lia.
    unfold calls. cbn. rewrite app_nil_r, Z.add_0_r.
    by destruct df as [st dl fl pl], a; cbn; destruct dl, fl, pl.
  - assert (Hlk : l !! Z.to_nat (firingIndex (tuple_list a df)) = Some (FUser u)).
    { rewrite <- (Nat.add_0_r (Z.to_nat _)), <- lookup_drop, Hus. done. }
    pose proof (lookup_lt_Some _ _ _ Hlk) as Hlt.
    rewrite (proj2 (Z.ltb_lt (firingIndex (tuple_list a df)) (firingLength (tuple_list a df)))) by lia.
    rewrite (proj2 (Z.ltb_ge _ 0)) by done. rewrite Hlk.
    apply Forall_cons in Hin as [Hu Hin]. destruct (call_inert n a u dt (F df lg) Hu) as [b Hc].
    rewrite (bind_ok _ _ _ _ _ Hc).
    change (with_log (log (F df lg) ++ [(d, a, FUser u, dt)]) (F df lg)) with
      (F df (lg ++ [(d, a, FUser u, dt)])).
    rewrite (bind_ok _ _ _ _ _ (F_upd _ _ _ _)).
    rewrite (drop_S _ _ _ Hlk) in Hus. rewrite fmap_cons in Hus. injection Hus as Hus.
    rewrite (IH us); try (rewrite tuple_list_set; cbn [set_index list_ firingLength firingIndex]);
      [|done|done|lia| |done|cbn in Hk; lia].
    2:{ replace (Z.to_nat (firingIndex (tuple_list a df) + 1)) with
          (S (Z.to_nat (firingIndex (tuple_list a df)))) by lia. done. }
    f_equal. unfold calls. cbn [fmap list_fmap]. rewrite <- (assoc_L (++)). cbn [app].
    replace (firingIndex (tuple_list a df) + 1 + Z.of_nat (length us))%Z with
      (firingIndex (tuple_list a df) + Z.of_nat (length (u :: us)))%Z by (cbn [length]; lia).
    by destruct df as [st dl fl pl], a.
Qed.

(** The list of a settled promise at rest, and the promise once settled. *)
Definition closed (dt : data) (s : clist) : Prop :=
  firing s = false ∧ memory s = Some dt ∧ fired s = true ∧ list_ s = Some [] ∧ stack s = None.
Record done_with (a : act) (dt : data) (df : deferred) : Prop := DoneWith {
  dw_act : a ≠ Notify;
  dw_state : state df = Settled a;
  dw_list : closed dt (tuple_list a df);
  dw_other : list_ (tuple_list (other a) df) = None;
}.

Lemma fire_end_at n a k df lg dt l :
  list_ (tuple_list a df) = Some l → stack (tuple_list a df) = None →
  memory (tuple_list a df) = Some dt →
  fire_end (app n) d a k (F df lg) =
    (Ok tt, F (set_tuple_list a (set_list (Some []) (set_firing false (tuple_list a df))) df) lg).
Proof.
  intros Hl Hq Hm. unfold fire_end. rewrite (bind_ok _ _ _ _ _ (F_upd _ _ _ _)).
  unfold mbind, M_bind, Prelude.get. cbn beta iota zeta. rewrite F_get, tuple_list_set.
  cbn [set_firing list_ stack memory]. rewrite Hl, Hq, Hm, F_upd, tuple_list_set.
  by destruct df, a.
Qed.

(** Resolving or rejecting a pending deferred. *)
Lemma act_pending n fuel a this args df lg us :
  a ≠ Notify → dinv d df → state df = Pending →
  list_ (tuple_list a df) = Some (handlers d a ++ (FUser <$> us)) →
  Forall (inert body) us → 4 + length us < fuel →
  ∃ df', act_with (app n) fuel d a this args (F df lg) =
      (Ok tt, F df' (lg ++ settle_log d a (this, args) ++ calls d a us (this, args))) ∧
    done_with a (this, args) df'.
Proof.
  intros Ha Hi Hst Hl Hin Hk. pose proof Hi as [Hp _]. rewrite Hst in Hp.
  assert (Hs : pending_ok d a (tuple_list a df)) by (destruct a; [apply Hp|apply Hp|done]).
  destruct Hs as (rest & Hs & _). rewrite Hs in Hl. cbn in Hl. injection Hl as ->.
  unfold act_with, fireWith. unfold mbind at 1, M_bind at 1, Prelude.get. cbn beta iota zeta.
  rewrite F_get. unfold disabled, locked. rewrite Hs. cbn [fired list_ firing negb orb andb].
  destruct fuel as [|k]; [lia|]. rewrite ffire_S. rewrite (bind_ok _ _ _ _ _ (upd_change _ _ _ _)).
  assert (Hdone : ∀ f this args w, ¬ plain f →
    true = false ∧ (app n f this args w).1 = Throw Diverge ∨ app n f this args w = handler_step f w).
  { intros f this' args' w Hf. right. by destruct f; try (exfalso; by apply Hf). }
  destruct (pending_start (app n) true Hdone d a k (this, args) (F df lg) df Ha Hi (F_at df lg) Hst)
    as [[Hx _]|(k' & -> & Hr)]; [specialize (Hx eq_refl); lia|].
  set (df1 := settle a (this, args) df) in *.
  assert (E : with_log (log (F df lg) ++ settle_log d a (this, args)) (change d (settle a (this, args)) (F df lg))
    = F df1 (lg ++ settle_log d a (this, args))) by (by rewrite F_change).
  rewrite E in Hr. clear E.
  assert (H1 : tuple_list a df1 = Cbs true (Some (this, args)) true
    (Z.of_nat (length (handlers d a ++ (FUser <$> us)))) 3 0 (Some (handlers d a ++ (FUser <$> us))) None).
  { unfold df1, settle. destruct df as [st dl fl pl]. destruct a; [| |done]; cbn in Hs |- *; by rewrite Hs. }
  rewrite (user_loop n a k' (this, args) us df1 _ (handlers d a ++ (FUser <$> us))) in Hr;
    [|by rewrite H1|by rewrite H1|by rewrite H1|by rewrite H1|done|lia].
  unfold mbind at 1, M_bind at 1. rewrite Hr. rewrite H1. cbn [firingIndex set_index].
  rewrite (fire_end_at n a _ _ _ (this, args) (handlers d a ++ (FUser <$> us)));
    [|by rewrite tuple_list_set..].
  eexists. rewrite <- (assoc_L (++)). split; [reflexivity|]. rewrite tuple_list_set.
  split; [done|by rewrite !state_set_tuple, <- (state_set_tuple a (tuple_list a df1)); destruct a, df| |].
  - by rewrite tuple_list_set.
  - destruct df as [st dl fl pl]. by destruct a.
Qed.

(** Adding callbacks before, and after. *)
Lemma on_pending n fuel a fs df lg l :
  list_ (tuple_list a df) = Some l → firing (tuple_list a df) = false → memory (tuple_list a df) = None →
  on (app n) fuel d a fs (F df lg) =
    (Ok tt, F (set_tuple_list a (set_list (Some (l ++ fs)) (tuple_list a df)) df) lg).
Proof.
  intros Hl Hf Hm. unfold on, add. unfold mbind at 1, M_bind at 1, Prelude.get. cbn beta iota zeta.
  rewrite F_get, Hl, add_all by (by rewrite tuple_options_eq).
  rewrite (bind_ok _ _ _ _ _ (F_upd _ _ _ _)). by rewrite Hf, Hm.
Qed.
Lemma on_none n fuel a fs df lg :
  list_ (tuple_list a df) = None → on (app n) fuel d a fs (F df lg) = (Ok tt, F df lg).
Proof.
  intros Hl. unfold on, add, mbind, M_bind, Prelude.get. cbn beta iota zeta. by rewrite F_get, Hl.
Qed.
Lemma on_closed n fuel a us dt df lg :
  done_with a dt df → Forall (inert body) us → S (length us) < fuel →
  ∃ df', on (app n) fuel d a (FUser <$> us) (F df lg) = (Ok tt, F df' (lg ++ calls d a us dt)) ∧
    done_with a dt df'.
Proof.
  intros [Ha Hst (Hf & Hm & Hfd & Hl & Hq) Ho] Hin Hk.
  unfold on, add. unfold mbind at 1, M_bind at 1, Prelude.get. cbn beta iota zeta.
  rewrite F_get, Hl, add_all by (by rewrite tuple_options_eq).
  rewrite (bind_ok _ _ _ _ _ (F_upd _ _ _ _)). rewrite Hf, Hm.
  rewrite (bind_ok _ _ _ _ _ (F_upd _ _ _ _)). destruct fuel as [|k]; [lia|]. rewrite ffire_S.
  rewrite (bind_ok _ _ _ _ _ (F_upd _ _ _ _)). rewrite !tuple_list_set. cbn [app].
  set (df1 := set_tuple_list a _ _).
  assert (H1 : tuple_list a df1 = Cbs true (Some dt) true (Z.of_nat (length us)) 0 0
                                    (Some (FUser <$> us)) None).
  { unfold df1. rewrite tuple_list_set, tuple_options_eq. unfold fire_begin.
    destruct (tuple_list a df) eqn:E. cbn in *. subst. by rewrite length_fmap. }
  pose proof (user_loop n a k dt us df1 lg (FUser <$> us)) as Hloop. rewrite H1 in Hloop.
  cbn [list_ firingLength firingIndex] in Hloop. rewrite length_fmap in Hloop.
  rewrite (bind_ok _ _ _ _ _ (Hloop eq_refl eq_refl (Z.le_refl 0) eq_refl Hin ltac:(lia))).
  rewrite (fire_end_at n a _ _ _ dt (FUser <$> us)); [|by rewrite tuple_list_set..].
  eexists. split; [reflexivity|]. rewrite tuple_list_set. unfold df1.
  split; [done|by rewrite !state_set_tuple| |].
  - by rewrite tuple_list_set.
  - rewrite <- Ho. destruct df as [st dl fl pl]. by destruct a.
Qed.
Lemma act_closed n fuel a b dt this args df lg :
  done_with a dt df → b ≠ Notify → act_with (app n) fuel d b this args (F df lg) = (Ok tt, F df lg).
Proof.
  intros [Ha Hst (Hf & Hm & Hfd & Hl & Hq) Ho] Hb. unfold act_with, fireWith, mbind, M_bind, Prelude.get.
  cbn beta iota zeta. rewrite F_get. unfold disabled, locked.
  destruct (decide (b = a)) as [->|Hne].
  - by rewrite Hl, Hfd, Hq.
  - assert (b = other a) as -> by (by destruct a, b). by rewrite Ho.
Qed.
End focus.

(** The program of the contract below, for a new deferred with the id [d]. *)
Definition contract_prog (d : nat) (a : act) (args args' : list jval) (us vs us' vs' : list nat) : prog :=
  Do CDeferred (λ _,
  Do (COn d a us) (λ _, Do (COn d (other a) vs) (λ _,
  Do (CAct d a args) (λ _,
  Do (COn d a us') (λ _, Do (COn d (other a) vs') (λ _,
  Do (CAct d (other a) args') (λ _, Do (CState d) Ret))))))).

(** ** Commands of a program *)

Section commands.
Variable body : nat → jval → list jval → list event → prog.
Variables (d n : nat) (ds : list deferred) (ws : list when_call).
Hypothesis Hd : d < length ds.

Lemma exists_F A df lg (m : M world A) : exists_ d m (F d ds ws df lg) = m (F d ds ws df lg).
Proof.
  unfold exists_, mbind, M_bind, Prelude.get. cbn beta iota.
  change (defs (F d ds ws df lg)) with (<[d := df]> ds). rewrite length_insert.
  by rewrite (proj2 (Nat.ltb_lt d (length ds)) Hd).
Qed.

Lemma exec_on b l df lg w' :
  on (apply body (S n)) (S n) d b (FUser <$> l) (F d ds ws df lg) = (Ok tt, w') →
  exec (apply body (S n)) (S n) (COn d b l) (F d ds ws df lg) = (Ok (VPromise d), w').
Proof. intros H. cbn [exec]. rewrite <- exists_F in H. by rewrite (bind_ok _ _ _ _ _ H). Qed.

Lemma exec_act b l df lg w' :
  act_with (apply body (S n)) (S n) d b (VPromise d) l (F d ds ws df lg) = (Ok tt, w') →
  exec (apply body (S n)) (S n) (CAct d b l) (F d ds ws df lg) = (Ok (VDeferred d), w').
Proof.
  intros H. cbn [exec]. rewrite (bind_ok _ _ _ tt w'); [done|]. rewrite exists_F.
  unfold act_fn. by rewrite Nat.eqb_refl.
Qed.

Lemma plain_users l : Forall plain (FUser <$> l).
Proof. apply Forall_forall. by intros f (u & -> & _)%list_elem_of_fmap. Qed.

(** Callbacks of both outcomes, registered on a new deferred. *)
Lemma register_both a us vs lg :
  a ≠ Notify →
  let df0 := new_deferred d in
  let df1 := set_tuple_list a
    (set_list (Some (handlers d a ++ (FUser <$> us))) (tuple_list a df0)) df0 in
  let df2 := set_tuple_list (other a)
    (set_list (Some (handlers d (other a) ++ (FUser <$> vs))) (tuple_list (other a) df1)) df1 in
  on (apply body (S n)) (S n) d a (FUser <$> us) (F d ds ws df0 lg) = (Ok tt, F d ds ws df1 lg) ∧
  on (apply body (S n)) (S n) d (other a) (FUser <$> vs) (F d ds ws df1 lg) = (Ok tt, F d ds ws df2 lg) ∧
  dinv d df2.
Proof.
  intros Ha df0 df1 df2. split; [|split].
  - apply (on_pending body d ds ws Hd n (S n) a _ df0); by destruct a.
  - apply (on_pending body d ds ws Hd n (S n) (other a) _ df1); by destruct a.
  - split; [|by destruct a; intros l [= <-]; constructor].
    pose proof plain_users as Hpl.
    destruct a; [| |done]; cbn; (split; [by exists (FUser <$> us)|by exists (FUser <$> vs)])
      || (split; [by exists (FUser <$> vs)|by exists (FUser <$> us)]).
Qed.
End commands.

Lemma exec_new apply_ k w :
  exec apply_ k CDeferred w =
  (Ok (VDeferred (length (defs w))),
   F (length (defs w)) (defs w ++ [new_deferred (length (defs w))]) (whens w)
     (new_deferred (length (defs w))) (log w)).
Proof.
  set (d := length (defs w)). set (ds := defs w ++ [new_deferred d]).
  assert (Hins : <[d := new_deferred d]> ds = ds).
  { apply list_insert_id. unfold ds, d. by rewrite lookup_app_r, Nat.sub_diag. }
  unfold F. rewrite Hins. done.
Qed.

(** C13: the contract of a promise whose callbacks of the settled outcome are functions
    that return a value, without throwing and without using deferreds or promises
    themselves (in this jQuery a callback that throws ends the firing and the callbacks
    behind it are not called): when a deferred is resolved (or rejected), the callbacks
    of [done] (of [fail]) registered before are called once each, in order, with the
    promise as context and the given values; those registered later are called at once
    with the same values; the callbacks of the other outcome, whatever functions they
    are, are never called, and a later call of the other action changes nothing. *)
Theorem promise_contract (body : nat → jval → list jval → list event → prog) (w : world)
    (a : act) (args args' : list jval) (us vs us' vs' : list nat) (fuel : nat) :
  a ≠ Notify → Forall (inert body) us → Forall (inert body) us' →
  5 + length us + length us' < fuel →
  let d := length (defs w) in
  let dt := (VPromise d, args) in
  let r := turn body fuel (contract_prog d a args args' us vs us' vs') w in
  r.1 = Ok (state_value (Settled a)) ∧
  log r.2 = log w ++ settle_log d a dt ++ calls d a us dt ++ calls d a us' dt ∧
  whens r.2 = whens w ∧ ∀ d', d' ≠ d → defs r.2 !! d' = defs w !! d'.
Proof.
  intros Ha Hus Hus' Hk d dt r. set (ds := defs w ++ [new_deferred d]).
  assert (Hd : d < length ds) by (unfold ds, d; rewrite length_app; cbn; lia).
  destruct fuel as [|n]; [lia|].
  destruct (register_both body d n ds (whens w) Hd a us vs (log w) Ha) as (H1 & H2 & Hi2).
  set (df2 := set_tuple_list (other a) _ _) in *.
  destruct (act_pending body d ds (whens w) Hd n (S n) a (VPromise d) args df2 (log w) us)
    as (df3 & H3 & D3); [done|done|by destruct a|by destruct a|done|lia|].
  destruct (on_closed body d ds (whens w) Hd n (S n) a us' dt df3
    (log w ++ settle_log d a dt ++ calls d a us dt)) as (df4 & H4 & D4); [done|done|lia|].
  set (lg := (log w ++ settle_log d a dt ++ calls d a us dt) ++ calls d a us' dt) in *.
  pose proof (on_none body d ds (whens w) Hd n (S n) (other a) (FUser <$> vs') df4
    lg (dw_other _ _ _ D4)) as H5.
  pose proof (act_closed body d ds (whens w) Hd n (S n) a (other a) dt (VPromise d) args' df4
    lg D4 ltac:(by destruct a)) as H6.
  assert (Hr : r = (Ok (state_value (Settled a)), F d ds (whens w) df4 lg)).
  { unfold r, turn, contract_prog. cbn [run_prog]. rewrite (bind_ok _ _ _ _ _ (exec_new _ _ w)).
    rewrite (bind_ok _ _ _ _ _ (exec_on _ _ _ _ _ Hd _ _ _ _ _ H1)).
    rewrite (bind_ok _ _ _ _ _ (exec_on _ _ _ _ _ Hd _ _ _ _ _ H2)).
    rewrite (bind_ok _ _ _ _ _ (exec_act _ _ _ _ _ Hd _ _ _ _ _ H3)).
    rewrite (bind_ok _ _ _ _ _ (exec_on _ _ _ _ _ Hd _ _ _ _ _ H4)).
    rewrite (bind_ok _ _ _ _ _ (exec_on _ _ _ _ _ Hd _ _ _ _ _ H5)).
    rewrite (bind_ok _ _ _ _ _ (exec_act _ _ _ _ _ Hd _ _ _ _ _ H6)). cbn [exec].
    unfold mbind, M_bind, Prelude.get. cbn beta iota. rewrite F_at by done.
    by rewrite (dw_state _ _ _ D4). }
  rewrite Hr. split; [done|]. split; [unfold lg; by rewrite <- !(assoc_L (++))|]. split; [done|].
  intros d' Hne. cbn. rewrite list_lookup_insert_ne by done. unfold ds.
  destruct (decide (d' < d)); [by apply lookup_app_l|].
  rewrite (lookup_ge_None_2 (defs w)) by (fold d; lia).
  apply lookup_ge_None. rewrite length_app. cbn. fold d. lia.
Qed.

Lemma promise_contract_witness :
  (turn (λ _ _ _ _, Ret VUndef) 9
     (contract_prog 0 Resolve [VNum 1] [VNum 2] [1; 2] [3] [4] [5]) init_world).1 = Ok (VNum 1).
Proof.
  apply (promise_contract (λ _ _ _ _, Ret VUndef) init_world Resolve [VNum 1] [VNum 2] [1; 2] [3] [4] [5] 9).
  - done.
  - repeat constructor; intros ???; by eexists.
  - repeat constructor; intros ???; by eexists.
  - cbn. lia.
Defined.

End Promises.
