(* ===== verification/JqClasses.v ===== *)
(** * The class attribute in jquery.js

    [addClass], [removeClass], [toggleClass] and [hasClass] edit the attribute as a
    string between spaces; the theorems relate them to the list of its names. *)

From stdpp Require Import base tactics list strings numbers sets gmap.
From Stdlib Require Import NArith ZArith Lia.
From S2P Require Import Prelude.
From S2P Require Import JsString.
From S2P Require Import Regex.
From S2P Require Import JqCallbacks.

Module Classes.

(** ** Definitions *)

(** An element of the set, or another node; [saved] is the data [__className__]. *)
Record elem := Elem {
  is_element : bool;
  className : jsstr;
  saved : option jsstr;
}.
Definition set_class (s : jsstr) (e : elem) : elem := Elem (is_element e) s (saved e).

(** [rclass] replaces four white space units by a space. *)
Definition rclass (c : N) : bool := existsb (N.eqb c) [9; 13; 10; 12]%N.
Definition to_spaces (s : jsstr) : jsstr := (λ c, if rclass c then 32%N else c) <$> s.
Definition padded (s : jsstr) : jsstr := to_spaces ([32%N] ++ s ++ [32%N]).
Definition spaced (clazz : jsstr) : jsstr := [32%N] ++ clazz ++ [32%N].

(** [jQuery.trim]; [rtrim] trims what [\s] matches. *)
Fixpoint trim_start (s : jsstr) : jsstr :=
  match s with c :: s' => if is_space c then trim_start s' else s | [] => [] end.
Fixpoint trim_end (s : jsstr) : jsstr :=
  match s with
  | [] => []
  | c :: s' =>
      match trim_end s' with
      | [] => if is_space c then [] else [c]
      | t => c :: t
      end
  end.
Definition trim (s : jsstr) : jsstr := trim_end (trim_start s).

Definition add_name (cur clazz : jsstr) : jsstr :=
  if contains_str cur (spaced clazz) then cur else cur ++ clazz ++ [32%N].
Definition add_elem (value : jsstr) (e : elem) : elem :=
  if is_element e then
    let cur := match className e with [] => [32%N] | s => padded s end in
    set_class (trim (foldl add_name cur (Callbacks.words value))) e
  else e.
Definition addClass (value : jsstr) (es : list elem) : list elem :=
  match value with [] => es | _ => add_elem value <$> es end.

(** [while (cur.indexOf(s) >= 0) cur = cur.replace(s, " ")]: every turn removes
    units, so the length of [cur] is enough fuel. *)
Definition replace_str (s t u : jsstr) : jsstr :=
  match index_of s t with Some i => take i s ++ u ++ drop (i + length t) s | None => s end.
Fixpoint remove_name_loop (fuel : nat) (cur clazz : jsstr) : jsstr :=
  match fuel with
  | 0 => cur
  | S k =>
      if contains_str cur (spaced clazz)
      then remove_name_loop k (replace_str cur (spaced clazz) [32%N]) clazz
      else cur
  end.
Definition remove_name (cur clazz : jsstr) : jsstr := remove_name_loop (S (length cur)) cur clazz.
(** The argument is [None] when there is none: all classes go. *)
Definition remove_elem (value : option jsstr) (e : elem) : elem :=
  match is_element e, className e with
  | true, _ :: _ =>
      match value with
      | None => set_class [] e
      | Some v => set_class (trim (foldl remove_name (padded (className e)) (Callbacks.words v))) e
      end
  | _, _ => e
  end.
Definition removeClass (value : option jsstr) (es : list elem) : list elem :=
  match value with Some [] => es | _ => remove_elem value <$> es end.

Definition hasClass (selector : jsstr) (es : list elem) : bool :=
  existsb (λ e, is_element e && contains_str (padded (className e)) (spaced selector)) es.

(** [toggleClass]: by name, with a switch, and of the whole attribute. *)
Definition toggle_name (e : elem) (clazz : jsstr) : elem :=
  if hasClass clazz [e] then remove_elem (Some clazz) e else add_elem clazz e.
Definition toggle_elem (value : jsstr) (e : elem) : elem :=
  foldl toggle_name e (Callbacks.words value).
Definition toggle_all (value : option bool) (e : elem) : elem :=
  let e := match className e with [] => e | s => Elem (is_element e) s (Some s) end in
  set_class
    (match className e with
     | _ :: _ => []
     | [] => match value with Some false => [] | _ => default [] (saved e) end
     end) e.
Inductive toggled := Names (value : jsstr) (stateVal : option bool) | Whole (value : option bool).
Definition toggleClass (t : toggled) (es : list elem) : list elem :=
  match t with
  | Names value (Some true) => addClass value es
  | Names value (Some false) => removeClass (Some value) es
  | Names value None => toggle_elem value <$> es
  | Whole value => toggle_all value <$> es
  end.

Example add_ex : className <$> addClass (js "b c b") [Elem true (js "a  b") None] = [js "a  b c"].
Proof. vm_compute. reflexivity. Qed.
Example remove_ex : className <$> removeClass (Some (js "a")) [Elem true (js "a b a a") None] = [js "b"].
Proof. vm_compute. reflexivity. Qed.

(** ** The names of a class attribute *)

(** White space of HTML. *)
Definition html_space (c : N) : bool := N.eqb c 32 || rclass c.
Definition pieces_of (p : N → bool) (s : jsstr) : list jsstr :=
  base.filter (λ w, w ≠ []) (split_on p s).
(** The names in the attribute. *)
Definition names (s : jsstr) : list jsstr := pieces_of html_space s.
(** The text has no white space but that of HTML. *)
Definition html_spaced (s : jsstr) : Prop := Forall (λ c, is_space c = html_space c) s.

Section splitting.
Variable p : N → bool.

Lemma pieces_sep a c b : p c = true → pieces_of p (a ++ c :: b) = pieces_of p a ++ pieces_of p b.
Proof. intros Hc. unfold pieces_of. by rewrite split_on_sep, filter_app. Qed.
Lemma pieces_cons c b : p c = true → pieces_of p (c :: b) = pieces_of p b.
Proof. apply (pieces_sep [] c b). Qed.
Lemma pieces_word w : w ≠ [] → Forall (λ c, p c = false) w → pieces_of p w = [w].
Proof.
  intros Hn Hw. unfold pieces_of. rewrite split_on_word by done.
  by rewrite filter_cons, decide_True by done.
Qed.
Lemma pieces_free w s : w ∈ pieces_of p s → w ≠ [] ∧ Forall (λ c, p c = false) w.
Proof.
  intros [Hn Hw]%list_elem_of_filter. split; [done|].
  by apply (proj1 (Forall_forall _ _) (split_on_free p s)).
Qed.
Lemma pieces_app_spaces s z : Forall (λ c, p c = true) z → pieces_of p (s ++ z) = pieces_of p s.
Proof.
  intros Hz. revert s. induction Hz as [|c z Hc Hz IH]; intros s; [by rewrite app_nil_r|].
  rewrite pieces_sep by done. rewrite <- (app_nil_l z), IH. by rewrite app_nil_r.
Qed.

(** Where a piece comes from. *)
Lemma split_on_head s w1 ws :
  split_on p s = w1 :: ws →
  ws = [] ∧ s = w1 ∨ ∃ c s', s = w1 ++ c :: s' ∧ p c = true ∧ split_on p s' = ws.
Proof.
  revert w1. induction s as [|x s IH]; intros w1; cbn.
  - intros [= <- <-]. by left.
  - destruct (p x) eqn:Hx.
    + intros [= <- <-]. right. by exists x, s.
    + destruct (split_on p s) as [|w ws'] eqn:E; [by apply split_on_ne in E|].
      intros [= <- <-]. destruct (IH w eq_refl) as [[-> ->]|(c & s' & -> & Hc & Hs)]; [by left|].
      right. by exists c, s'.
Qed.
Lemma split_on_elem w s :
  w ∈ split_on p s → ∃ a b, s = a ++ w ++ b ∧
    (a = [] ∨ ∃ a' c, a = a' ++ [c] ∧ p c = true) ∧ (b = [] ∨ ∃ c b', b = c :: b' ∧ p c = true).
Proof.
  remember (split_on p s) as l eqn:El. symmetry in El. revert s El.
  induction l as [|w1 ws IH]; intros s El; [by intros ?%elem_of_nil|].
  intros [->|Hw]%elem_of_cons.
  - exists []. destruct (split_on_head s w1 ws El) as [[-> ->]|(c & s' & -> & Hc & Hs)].
    + exists []. rewrite app_nil_r. auto.
    + exists (c :: s'). split; [done|]. split; [by left|right; eauto].
  - destruct (split_on_head s w1 ws El) as [[-> ->]|(c & s' & -> & Hc & Hs)].
    + by apply elem_of_nil in Hw.
    + destruct (IH s' Hs Hw) as (a & b & -> & Ha & Hb). exists (w1 ++ c :: a), b.
      split; [by rewrite <- (assoc_L (++))|]. split; [|done]. right.
      destruct Ha as [->|(a' & c' & -> & Hc')]; [by exists w1, c|].
      exists (w1 ++ c :: a'), c'. by rewrite <- (assoc_L (++)).
Qed.
Lemma pieces_map (f : N → N) s :
  (∀ c, p (f c) = p c) → (∀ c, p c = false → f c = c) → pieces_of p (f <$> s) = pieces_of p s.
Proof.
  intros Hp Hf. unfold pieces_of. f_equal. induction s as [|c s IH]; [done|].
  rewrite fmap_cons. cbn. rewrite Hp, IH. destruct (p c) eqn:E; [done|]. by rewrite Hf.
Qed.
End splitting.

(** ** A string between spaces *)

(** Spaces at both ends, and no other white space of HTML. *)
Definition between (cur : jsstr) : Prop :=
  (∃ m, cur = 32%N :: m) ∧ (∃ m, cur = m ++ [32%N]) ∧ Forall (λ c, html_space c = true → c = 32%N) cur.
Definition name_ok (w : jsstr) : Prop := w ≠ [] ∧ Forall (λ c, html_space c = false) w.

Lemma space_sep : html_space 32 = true.
Proof. reflexivity. Qed.
Lemma names_spaced a w b :
  name_ok w → names (a ++ spaced w ++ b) = names a ++ [w] ++ names b.
Proof.
  intros [Hn Hw]. unfold names, spaced.
  change (a ++ ([32%N] ++ w ++ [32%N]) ++ b) with (a ++ 32%N :: ((w ++ [32%N]) ++ b)).
  rewrite pieces_sep by done. rewrite <- (assoc_L (++)). change (w ++ [32%N] ++ b) with (w ++ 32%N :: b).
  rewrite pieces_sep by done. by rewrite (pieces_word _ w).
Qed.
Lemma contains_spaced cur w :
  between cur → name_ok w → contains_str cur (spaced w) = bool_decide (w ∈ names cur).
Proof.
  intros ((m1 & H1) & (m2 & H2) & Ho) Hw. apply eq_true_iff_eq.
  rewrite contains_str_spec, bool_decide_eq_true. split.
  - intros (a & b & ->). rewrite names_spaced by done. rewrite !elem_of_app. right. left. by left.
  - intros [_ Hin]%list_elem_of_filter. destruct Hw as [Hn Hf].
    destruct (split_on_elem html_space w cur Hin) as (a & b & Hs & Ha & Hb).
    destruct w as [|c w]; [done|].
    destruct Ha as [->|(a' & x & -> & Hx)].
    { exfalso. rewrite Hs in H1. injection H1 as -> _. by apply Forall_cons in Hf as [Hf _]. }
    destruct Hb as [->|(y & b' & -> & Hy)].
    { exfalso. rewrite app_nil_r in Hs. rewrite Hs in H2.
      assert (Hl : last (a' ++ [x] ++ c :: w) = Some 32%N).
      { rewrite (assoc_L (++)), H2. apply last_snoc. }
      rewrite (assoc_L (++)), last_app_cons in Hl.
      assert (Hin' : 32%N ∈ c :: w) by (by apply last_Some_elem_of).
      eapply Forall_forall in Hf; [|exact Hin']. done. }
    rewrite Hs in Ho. rewrite !Forall_app in Ho. destruct Ho as [[_ Hox] [_ Hoy]].
    apply Forall_cons in Hox as [Hox _]. apply Forall_cons in Hoy as [Hoy _].
    rewrite (Hox Hx), (Hoy Hy) in Hs. exists a', b'. rewrite Hs. unfold spaced.
    by rewrite <- !(assoc_L (++)).
Qed.
Lemma between_padded s : between (padded s).
Proof.
  unfold padded, to_spaces. split; [|split].
  - eexists. reflexivity.
  - rewrite !fmap_app. rewrite (assoc_L (++)). eexists. reflexivity.
  - apply Forall_forall. intros c (x & -> & _)%list_elem_of_fmap Hc. destruct (rclass x) eqn:E; [done|].
    unfold html_space in Hc. rewrite E, orb_false_r in Hc. by apply N.eqb_eq.
Qed.
Lemma names_padded s : names (padded s) = names s.
Proof.
  unfold names, padded, to_spaces. rewrite (pieces_map html_space).
  - change ([32%N] ++ s ++ [32%N]) with (32%N :: (s ++ [32%N])). rewrite pieces_cons by done.
    by rewrite pieces_app_spaces by (by repeat constructor).
  - intros c. destruct (rclass c) eqn:E; [|done]. unfold html_space. rewrite E. by rewrite orb_true_r.
  - intros c Hc. unfold html_space in Hc. apply orb_false_iff in Hc as [_ ->]. done.
Qed.
Lemma words_names s : html_spaced s → Callbacks.words s = names s.
Proof.
  intros Hs. unfold Callbacks.words, names, pieces_of. f_equal.
  induction Hs as [|c s Hc Hs IH]; [done|]. cbn. by rewrite Hc, IH.
Qed.

(** ** Trimming *)

Lemma trim_start_split s : ∃ z, s = z ++ trim_start s ∧ Forall (λ c, is_space c = true) z.
Proof.
  induction s as [|c s (z & IH & Hz)]; [by exists []|]. cbn. destruct (is_space c) eqn:Hc.
  - exists (c :: z). split; [by rewrite IH at 1|by constructor].
  - by exists [].
Qed.
Lemma trim_end_split s : ∃ z, s = trim_end s ++ z ∧ Forall (λ c, is_space c = true) z.
Proof.
  induction s as [|c s (z & IH & Hz)]; [by exists []|]. cbn. destruct (trim_end s) as [|d t] eqn:E.
  - destruct (is_space c) eqn:Hc.
    + exists (c :: z). split; [by rewrite IH at 1|by constructor].
    + exists z. by rewrite IH at 1.
  - exists z. by rewrite IH at 1.
Qed.
Lemma names_trim s : html_spaced s → names (trim s) = names s.
Proof.
  intros Hs. unfold trim.
  destruct (trim_start_split s) as (z1 & E1 & H1). set (t := trim_start s) in *.
  destruct (trim_end_split t) as (z2 & E2 & H2).
  assert (Hsp : ∀ z a b, s = a ++ z ++ b → Forall (λ c, is_space c = true) z →
    Forall (λ c, html_space c = true) z).
  { intros z a b -> Hz. unfold html_spaced in Hs. rewrite !Forall_app in Hs. destruct Hs as (_ & Hs & _).
    rewrite Forall_forall in Hs, Hz |- *. intros c Hc. rewrite <- Hs by done. by apply Hz. }
  assert (Ht : names (trim_end t) = names t).
  { rewrite E2 at 2. symmetry. apply pieces_app_spaces. apply (Hsp z2 (z1 ++ trim_end t) []).
    - rewrite app_nil_r, <- (assoc_L (++)), <- E2. done.
    - done. }
  rewrite Ht. clear Ht. rewrite E1.
  assert (Hz1 : Forall (λ c, html_space c = true) z1) by (by apply (Hsp z1 [] t)).
  clear -Hz1. induction Hz1 as [|c z Hc Hz IH]; [done|]. cbn [app]. unfold names in *.
  by rewrite pieces_cons.
Qed.

(** ** Adding and removing names *)

Lemma between_add cur w : between cur → name_ok w → between (cur ++ w ++ [32%N]).
Proof.
  intros ((m1 & ->) & _ & Ho) [_ Hw]. split; [by eexists|]. split.
  - rewrite (assoc_L (++)). by eexists.
  - rewrite !Forall_app. split; [done|]. split; [|by repeat constructor].
    rewrite Forall_forall in Hw |- *. intros c Hc Hs. by rewrite Hw in Hs.
Qed.
Lemma names_add cur w : between cur → name_ok w → names (cur ++ w ++ [32%N]) = names cur ++ [w].
Proof.
  intros (_ & (m & ->) & _) [Hn Hw]. unfold names.
  rewrite (assoc_L (++)), pieces_app_spaces by (by repeat constructor).
  rewrite <- (assoc_L (++)). cbn [app]. rewrite pieces_sep by done.
  rewrite (pieces_word _ w) by done. by rewrite pieces_app_spaces by (by repeat constructor).
Qed.
(** The names in [ws] that are not in [l], once each. *)
Definition add_new (l ws : list jsstr) : list jsstr :=
  foldl (λ l w, if bool_decide (w ∈ l) then l else l ++ [w]) l ws.
Lemma add_names_spec cur ws :
  between cur → Forall name_ok ws →
  between (foldl add_name cur ws) ∧ names (foldl add_name cur ws) = add_new (names cur) ws.
Proof.
  intros Hc Hws. revert cur Hc. induction Hws as [|w ws Hw Hws IH]; intros cur Hc; [done|].
  assert (Hstep : between (add_name cur w) ∧
    names (add_name cur w) = if bool_decide (w ∈ names cur) then names cur else names cur ++ [w]).
  { unfold add_name. rewrite contains_spaced by done.
    destruct (bool_decide (w ∈ names cur)); [done|].
    split; [by apply between_add|by apply names_add]. }
  destruct Hstep as [Hb Hn]. destruct (IH _ Hb) as [H1 H2]. split; [exact H1|].
  unfold add_new in *. cbn [foldl]. by rewrite H2, Hn.
Qed.

Lemma between_remove a b w :
  between (a ++ spaced w ++ b) → between (a ++ [32%N] ++ b).
Proof.
  intros ((m1 & H1) & (m2 & H2) & Ho). split; [|split].
  - destruct a as [|x a]; [by eexists|]. cbn in H1. injection H1 as -> _. by eexists.
  - destruct b as [|y b] using rev_ind; [rewrite app_nil_r; by eexists|].
    rewrite !(assoc_L (++)) in H2. apply app_inj_tail in H2 as [_ ->]. rewrite !(assoc_L (++)). by eexists.
  - unfold spaced in Ho. rewrite !Forall_app in Ho |- *. destruct Ho as (Ha & _ & Hb).
    split; [done|]. split; [by repeat constructor|done].
Qed.
Lemma replace_spaced cur w :
  contains_str cur (spaced w) = true →
  ∃ a b, cur = a ++ spaced w ++ b ∧ replace_str cur (spaced w) [32%N] = a ++ [32%N] ++ b.
Proof.
  unfold contains_str, replace_str. destruct (index_of cur (spaced w)) as [i|] eqn:E; [|done]. intros _.
  apply index_of_Some in E as [E _]. by exists (take i cur), (drop (i + length (spaced w)) cur).
Qed.
Lemma remove_name_spec cur w :
  between cur → name_ok w →
  between (remove_name cur w) ∧ names (remove_name cur w) = base.filter (λ v, v ≠ w) (names cur).
Proof.
  unfold remove_name. assert (Hk : length cur < S (length cur)) by lia. revert Hk.
  generalize (S (length cur)). intros k. revert cur.
  induction k as [|k IH]; intros cur Hk Hc Hw; [lia|]. cbn [remove_name_loop].
  destruct (contains_str cur (spaced w)) eqn:E.
  - destruct (replace_spaced cur w E) as (a & b & Hs & Hr). rewrite Hr.
    assert (Hl : length (a ++ [32%N] ++ b) < length cur).
    { rewrite Hs. unfold spaced. rewrite !length_app. cbn [length]. lia. }
    destruct (IH (a ++ [32%N] ++ b)) as [H1 H2]; [lia|by rewrite Hs in Hc; eapply between_remove|done|].
    split; [done|]. rewrite H2, Hs, names_spaced by done.
    change (a ++ [32%N] ++ b) with (a ++ 32%N :: b). unfold names. rewrite pieces_sep by done.
    rewrite !filter_app. rewrite (filter_cons _ w), decide_False by (intros H; by apply H). done.
  - split; [done|]. rewrite contains_spaced in E by done. apply bool_decide_eq_false in E.
    rewrite list_filter_all; [done|]. by intros v Hv ->.
Qed.
Lemma remove_names_spec cur ws :
  between cur → Forall name_ok ws →
  between (foldl remove_name cur ws) ∧
  names (foldl remove_name cur ws) = base.filter (λ v, v ∉ ws) (names cur).
Proof.
  intros Hc Hws. revert cur Hc. induction Hws as [|w ws Hw Hws IH]; intros cur Hc.
  { split; [done|]. cbn [foldl]. by rewrite (list_filter_all _ (names cur)) by (intros; apply not_elem_of_nil). }
  cbn [foldl]. destruct (remove_name_spec cur w Hc Hw) as [H1 H2].
  destruct (IH _ H1) as [H3 H4]. split; [done|]. rewrite H4, H2.
  rewrite list_filter_filter. apply list_filter_iff. intros v. rewrite not_elem_of_cons. tauto.
Qed.

(** ** The methods *)

Lemma names_ok s : Forall name_ok (names s).
Proof. apply Forall_forall. intros w Hw. by apply pieces_free in Hw. Qed.
Lemma html_spaced_app a b : html_spaced (a ++ b) ↔ html_spaced a ∧ html_spaced b.
Proof. apply Forall_app. Qed.
Lemma html_spaced_padded s : html_spaced s → html_spaced (padded s).
Proof.
  intros Hs. unfold html_spaced, padded, to_spaces. rewrite !fmap_app.
  apply Forall_app. split; [by repeat constructor|]. apply Forall_app. split; [|by repeat constructor].
  apply Forall_fmap. unfold html_spaced in Hs. rewrite Forall_forall in Hs |- *. intros c Hc.
  change (is_space (if rclass c then 32%N else c) = html_space (if rclass c then 32%N else c)).
  destruct (rclass c); [done|]. by apply Hs.
Qed.
Lemma html_spaced_adds cur ws :
  html_spaced cur → Forall html_spaced ws → html_spaced (foldl add_name cur ws).
Proof.
  intros Hc Hws. revert cur Hc. induction Hws as [|w ws Hw Hws IH]; intros cur Hc; [done|].
  cbn [foldl]. apply IH. unfold add_name. destruct (contains_str _ _); [done|].
  rewrite !html_spaced_app. by repeat constructor.
Qed.
Lemma html_spaced_removes cur ws : html_spaced cur → html_spaced (foldl remove_name cur ws).
Proof.
  revert cur. induction ws as [|w ws IH]; intros cur Hc; [done|]. cbn [foldl]. apply IH.
  unfold remove_name. generalize (S (length cur)). intros k. revert cur Hc.
  induction k as [|k IHk]; intros cur Hc; [done|]. cbn [remove_name_loop].
  destruct (contains_str cur (spaced w)) eqn:E; [|done]. apply IHk.
  destruct (replace_spaced cur w E) as (a & b & -> & ->).
  rewrite !html_spaced_app in Hc |- *. destruct Hc as (Ha & _ & Hb). by repeat constructor.
Qed.
Lemma html_spaced_names s : html_spaced s → Forall html_spaced (names s).
Proof.
  intros Hs. apply Forall_forall. intros w [_ Hw]%list_elem_of_filter.
  apply split_on_elem in Hw as (a & b & -> & _). by apply html_spaced_app in Hs as [_ [Hs _]%html_spaced_app].
Qed.

Lemma add_elem_names value e :
  is_element e = true → html_spaced value → html_spaced (className e) →
  names (className (add_elem value e)) = add_new (names (className e)) (names value) ∧
  html_spaced (className (add_elem value e)).
Proof.
  intros He Hv Hc. unfold add_elem. rewrite He. cbn [className set_class].
  rewrite words_names by done.
  set (cur := match className e with [] => [32%N] | s => padded s end).
  assert (Hb : between cur ∧ names cur = names (className e) ∧ html_spaced cur).
  { unfold cur. destruct (className e) as [|c s] eqn:E.
    - split; [|split; [done|by repeat constructor]]. split; [by eexists|]. split; [by exists []|].
      by repeat constructor.
    - rewrite <- E in *. split; [apply between_padded|]. split; [apply names_padded|].
      by apply html_spaced_padded. }
  destruct Hb as (Hb & Hn & Hsp). destruct (add_names_spec cur (names value) Hb (names_ok value)) as [H1 H2].
  pose proof (html_spaced_adds cur (names value) Hsp (html_spaced_names value Hv)) as H3.
  split; [by rewrite names_trim, H2, Hn|].
  unfold trim. set (x := foldl add_name cur (names value)) in *.
  destruct (trim_start_split x) as (z1 & E1 & _). rewrite E1 in H3. apply html_spaced_app in H3 as [_ H3].
  destruct (trim_end_split (trim_start x)) as (z2 & E2 & _). rewrite E2 in H3.
  by apply html_spaced_app in H3 as [H3 _].
Qed.
Lemma remove_elem_names value e :
  is_element e = true → html_spaced value → html_spaced (className e) →
  names (className (remove_elem (Some value) e)) =
    base.filter (λ v, v ∉ names value) (names (className e)).
Proof.
  intros He Hv Hc. unfold remove_elem. rewrite He.
  destruct (className e) as [|c s] eqn:E; [by rewrite E|]. rewrite <- E in *. cbn [className set_class].
  rewrite words_names by done.
  destruct (remove_names_spec (padded (className e)) (names value) (between_padded _) (names_ok value))
    as [H1 H2].
  rewrite names_trim, H2, names_padded; [done|].
  by apply html_spaced_removes, html_spaced_padded.
Qed.

(** On an element whose attribute has only the white space of HTML, [addClass]
    appends the new names in order, once each, and keeps the others; [removeClass]
    removes every occurrence of the given names and nothing else; [hasClass] tells
    whether a name is there. *)
Theorem class_methods_spec (e : elem) (value : jsstr) (w : jsstr) :
  is_element e = true → html_spaced value → html_spaced (className e) →
  name_ok w →
  (λ e, names (className e)) <$> addClass value [e] = [add_new (names (className e)) (names value)] ∧
  (λ e, names (className e)) <$> removeClass (Some value) [e] =
    [base.filter (λ v, v ∉ names value) (names (className e))] ∧
  hasClass w [e] = bool_decide (w ∈ names (className e)).
Proof.
  intros He Hv Hc Hw. split; [|split].
  - unfold addClass. destruct value as [|c s] eqn:E; [done|]. rewrite <- E in *. cbn [fmap list_fmap].
    by rewrite (proj1 (add_elem_names value e He Hv Hc)).
  - unfold removeClass. destruct value as [|c s] eqn:E.
    + cbn [fmap list_fmap]. by rewrite list_filter_all by (intros; apply not_elem_of_nil).
    + rewrite <- E in *. cbn [fmap list_fmap]. by rewrite remove_elem_names.
  - unfold hasClass. cbn [existsb]. rewrite He, orb_false_r. cbn [andb].
    rewrite contains_spaced by (done || apply between_padded). by rewrite names_padded.
Qed.
Lemma class_methods_spec_witness :
  (λ e, names (className e)) <$> addClass (js "b c") [Elem true (js "a b") None] = [[js "a"; js "b"; js "c"]].
Proof.
  etransitivity; [apply (class_methods_spec (Elem true (js "a b") None) (js "b c") (js "a"))|vm_compute; reflexivity].
  - reflexivity.
  - eapply bool_decide_unpack. vm_compute. exact I.
  - eapply bool_decide_unpack. vm_compute. exact I.
  - split; [done|]. eapply bool_decide_unpack. vm_compute. exact I.
Defined.

End Classes.
