(* ===== verification/SiteScripts.v ===== *)
(** * The menu of the theme and the method tables of the javadoc

    [Theme] is theme.js: click handlers that toggle classes, and the navigation bar
    that sticks while it fits the window.  [Javadoc] is javadoc/script.js: the rows
    of a table of methods are filtered by a bit mask and coloured in turn, and the
    tabs over the table are rewritten. *)

From stdpp Require Import base tactics list strings numbers sets gmap.
From Stdlib Require Import NArith ZArith Lia.
From S2P Require Import Prelude.
From S2P Require Import JsString.
From S2P Require Import JsArray.
From S2P Require Import JqCallbacks.
From S2P Require Import JqClasses.

Module Theme.
Import Classes.

(** The elements that the handlers reach by [data-toggle], and the bar. *)
Record page := Page { nav_shift : list elem; versions : list elem; nav_bar : list elem }.

Definition toggle (name : jsstr) : list elem → list elem := toggleClass (Names name None).
(** A click on the menu button, on a link of the current entry, on the version. *)
Definition click_menu (p : page) : page :=
  Page (toggle (js "shift") (nav_shift p)) (toggle (js "shift") (versions p)) (nav_bar p).
Definition click_link (p : page) : page :=
  Page (removeClass (Some (js "shift")) (nav_shift p)) (toggle (js "shift") (versions p)) (nav_bar p).
Definition click_version (p : page) : page :=
  Page (nav_shift p) (toggle (js "shift-up") (versions p)) (nav_bar p).

(** [stickyNav], with the heights of the bar and of the window; it runs at once when
    it is enabled, and on every resize. *)
Definition stickyNavCssClass : jsstr := js "stickynav".
Definition applyStickNav (bar_height win_height : Z) (p : page) : page :=
  Page (nav_shift p) (versions p)
    (if (bar_height <=? win_height)%Z then addClass stickyNavCssClass (nav_bar p)
     else removeClass (Some stickyNavCssClass) (nav_bar p)).
Definition enable : Z → Z → page → page := applyStickNav.

Inductive event : Type :=
  | ClickMenu
  | ClickLink
  | ClickVersion
  | Resize (bar_height win_height : Z).
Definition handle (p : page) (e : event) : page :=
  match e with
  | ClickMenu => click_menu p
  | ClickLink => click_link p
  | ClickVersion => click_version p
  | Resize b w => applyStickNav b w p
  end.
Definition run (p : page) (es : list event) : page := foldl handle p es.

(** Whether every element of a set, or none, has a class. *)
Definition all_have (name : jsstr) (es : list elem) : Prop := Forall (λ e, name ∈ names (className e)) es.
Definition none_have (name : jsstr) (es : list elem) : Prop := Forall (λ e, name ∉ names (className e)) es.
End Theme.

Module Javadoc.

(** The nodes of the page by id: rows, and tabs with the markup of their first child. *)
Record node := Node { display : jsstr; className : jsstr; first_child : option jsstr }.
(** The global variables that the page sets, in the order of [for ... in]. *)
Record table := Table {
  methods : list (jsstr * Z);
  tabs : list (jsstr * (jsstr * jsstr));
  rowColor : jsstr;
  altColor : jsstr;
  tableTab : jsstr;
  activeTableTab : jsstr;
}.
Abbreviation page := (list (jsstr * node)).

(** [&] on the integers of 32 bits. *)
Definition to_int32 (z : Z) : Z :=
  let m := (z mod 4294967296)%Z in if (m <? 2147483648)%Z then m else (m - 4294967296)%Z.
Definition bit_and (a b : Z) : Z := Z.land (to_int32 a) (to_int32 b).

(** [value == type] for a name and a number: the name is read as a number. *)
Fixpoint digits_value (s : jsstr) (acc : Z) : option Z :=
  match s with
  | [] => Some acc
  | c :: s' =>
      if (48 <=? c)%N && (c <=? 57)%N then digits_value s' (10 * acc + Z.of_N (c - 48))%Z else None
  end.
Definition loose_eq (value : jsstr) (type : Z) : bool :=
  match digits_value value 0 with Some n => (n =? type)%Z | None => false end.

Definition getElementById (id : jsstr) : M page node := λ p,
  match obj_get id p with Some n => (Ok n, p) | None => (Throw TypeError, p) end.
Definition update (id : jsstr) (n : node) : M page unit := modify (obj_set id n).

Fixpoint show_rows (t : table) (type : Z) (count : nat) (ms : list (jsstr * Z)) : M page unit :=
  match ms with
  | [] => mret tt
  | (key, mask) :: ms' =>
      row ← getElementById key;
      if (bit_and mask type =? 0)%Z then
        update key (Node (js "none") (className row) (first_child row)) ≫= λ _, show_rows t type count ms'
      else
        let color := if Nat.odd count then rowColor t else altColor t in
        update key (Node [] color (first_child row)) ≫= λ _, show_rows t type (S count) ms'
  end.
Definition link (value text : jsstr) : jsstr :=
  js "<a href=" ++ [34%N] ++ js "javascript:show(" ++ value ++ js ");" ++ [34%N] ++ js ">" ++ text ++ js "</a>".
Fixpoint update_tabs (t : table) (type : Z) (ts : list (jsstr * (jsstr * jsstr))) : M page unit :=
  match ts with
  | [] => mret tt
  | (value, (id, text)) :: ts' =>
      sNode ← getElementById id;
      if loose_eq value type then
        update id (Node (display sNode) (activeTableTab t) (first_child sNode)) ≫= λ _,
        match first_child sNode with
        | None => throw TypeError
        | Some _ => update id (Node (display sNode) (activeTableTab t) (Some text)) ≫= λ _, update_tabs t type ts'
        end
      else
        update id (Node (display sNode) (tableTab t) (first_child sNode)) ≫= λ _,
        match first_child sNode with
        | None => throw TypeError
        | Some _ => update id (Node (display sNode) (tableTab t) (Some (link value text))) ≫= λ _, update_tabs t type ts'
        end
  end.
Definition updateTabs (t : table) (type : Z) : M page unit := update_tabs t type (tabs t).
Definition show (t : table) (type : Z) : M page unit :=
  show_rows t type 0 (methods t) ≫= λ _, updateTabs t type.

(** ** What a page shows *)

(** The rows that a mask selects, in order. *)
Definition is_selected (type : Z) (m : jsstr * Z) : bool := negb (bit_and m.2 type =? 0)%Z.
Definition selected (type : Z) (ms : list (jsstr * Z)) : list jsstr :=
  (filter (λ m, Is_true (is_selected type m)) ms).*1.
Definition color_at (t : table) (i : nat) : jsstr := if Nat.odd i then rowColor t else altColor t.
(** What [show] promises for the node of a row: it is shown, in the colour of its
    place among the rows that are shown, or hidden. *)
Definition row_shown (t : table) (type : Z) (count : nat) (ms : list (jsstr * Z)) (key : jsstr) (n : node) : node :=
  match list_find (eq key) (selected type ms) with
  | Some (i, _) => Node [] (color_at t (count + i)) (first_child n)
  | None => Node (js "none") (className n) (first_child n)
  end.
(** And for the node of a tab. *)
Definition tab_shown (t : table) (type : Z) (value text : jsstr) (n : node) : node :=
  if loose_eq value type then Node (display n) (activeTableTab t) (Some text)
  else Node (display n) (tableTab t) (Some (link value text)).
Definition node_shown (t : table) (type : Z) (id : jsstr) (n : node) : node :=
  if decide (id ∈ (methods t).*1) then row_shown t type 0 (methods t) id n
  else match List.find (λ x, str_eqb x.2.1 id) (tabs t) with
       | Some (value, (_, text)) => tab_shown t type value text n
       | None => n
       end.

(** Every row and every tab has a node of its own on the page. *)
Definition ids (t : table) : list jsstr := (methods t).*1 ++ ((λ x, x.2.1) <$> tabs t).
Definition page_ok (t : table) (p : page) : Prop :=
  NoDup (ids t) ∧
  Forall (λ id, is_Some (obj_get id p)) (methods t).*1 ∧
  Forall (λ x, ∃ n c, obj_get x.2.1 p = Some n ∧ first_child n = Some c) (tabs t).
End Javadoc.

Module JavadocFacts.
Import Javadoc.

Lemma get_node id p n : obj_get id p = Some n → getElementById id p = (Ok n, p).
Proof. intros H. unfold getElementById. by rewrite H. Qed.

Lemma update_then {A} id n (k : unit → M page A) p : (update id n ≫= k) p = k tt (obj_set id n p).
Proof. done. Qed.

Lemma selected_cons type key mask ms :
  selected type ((key, mask) :: ms) =
    if (bit_and mask type =? 0)%Z then selected type ms else key :: selected type ms.
Proof.
  unfold selected, is_selected. rewrite filter_cons. simpl. by destruct (bit_and mask type =? 0)%Z.
Qed.

Lemma selected_subset type ms key : key ∈ selected type ms → key ∈ ms.*1.
Proof.
  unfold selected. intros (m & -> & [_ Hm]%list_elem_of_filter)%list_elem_of_fmap. by apply list_elem_of_fmap_2.
Qed.

Lemma list_find_absent (key : jsstr) l : key ∉ l → list_find (eq key) l = None.
Proof. intros Hn. apply list_find_None, Forall_forall. by intros x Hx ->. Qed.

Lemma show_rows_spec t type ms count p :
  NoDup ms.*1 → Forall (λ id, is_Some (obj_get id p)) ms.*1 →
  ∃ p', show_rows t type count ms p = (Ok tt, p') ∧
    ∀ id, obj_get id p' =
      if decide (id ∈ ms.*1) then row_shown t type count ms id <$> obj_get id p else obj_get id p.
Proof.
  revert count p. induction ms as [|[key mask] ms IH]; intros count p Hd Hp; [by exists p|].
  rewrite fmap_cons in *. apply NoDup_cons in Hd as [Hk Hd]. apply Forall_cons in Hp as [[n Hn] Hp].
  cbn [fst] in *. cbn [show_rows]. rewrite (bind_ok _ _ _ _ _ (get_node _ _ _ Hn)).
  set (b := (bit_and mask type =? 0)%Z) in *.
  set (n' := if b then Node (js "none") (className n) (first_child n) else Node [] (color_at t count) (first_child n)).
  set (count' := if b then count else S count).
  assert (Hstep : ∀ p, (if b then update key (Node (js "none") (className n) (first_child n)) ≫= λ _, show_rows t type count ms
    else update key (Node [] (if Nat.odd count then rowColor t else altColor t) (first_child n)) ≫= λ _, show_rows t type (S count) ms) p
    = show_rows t type count' ms (obj_set key n' p)) by (intros q; unfold n', count'; by destruct b).
  rewrite Hstep. destruct (IH count' (obj_set key n' p) Hd) as (p' & -> & H).
  { eapply Forall_impl; [exact Hp|]. intros id [m Hm]. rewrite obj_get_set. case_decide; eauto. }
  exists p'. split; [done|]. intros id. rewrite H, obj_get_set.
  destruct (decide (id = key)) as [->|Hne].
  - rewrite decide_False by done. rewrite decide_True by (by left). rewrite Hn. cbn [fmap option_fmap option_map].
    f_equal. unfold row_shown. rewrite selected_cons. fold b. unfold n'. destruct b.
    + by rewrite list_find_absent by (by intros ?%selected_subset).
    + cbn [list_find]. rewrite decide_True by done. by rewrite Nat.add_0_r.
  - destruct (decide (id ∈ ms.*1)) as [Hin|Hin].
    + rewrite decide_True by (by right). destruct (obj_get id p) as [m|]; [|done]. simpl. f_equal.
      unfold row_shown. rewrite selected_cons. fold b. unfold count'. destruct b; [done|].
      cbn [list_find]. rewrite decide_False by done.
      destruct (list_find (eq id) (selected type ms)) as [[i x]|]; [|done]. simpl. by rewrite Nat.add_succ_r.
    + rewrite decide_False; [done|]. rewrite elem_of_cons. by intros [?|?].
Qed.

Lemma update_tabs_spec t type ts p :
  NoDup ((λ x, x.2.1) <$> ts) →
  Forall (λ x, ∃ n c, obj_get x.2.1 p = Some n ∧ first_child n = Some c) ts →
  ∃ p', update_tabs t type ts p = (Ok tt, p') ∧
    ∀ id, obj_get id p' =
      match List.find (λ x, str_eqb x.2.1 id) ts with
      | Some (value, (_, text)) => tab_shown t type value text <$> obj_get id p
      | None => obj_get id p
      end.
Proof.
  revert p. induction ts as [|[value [id text]] ts IH]; intros p Hd Hp; [by exists p|].
  rewrite fmap_cons in Hd. apply NoDup_cons in Hd as [Hk Hd]. apply Forall_cons in Hp as [(n & c & Hn & Hc) Hp].
  cbn [fst snd] in *. cbn [update_tabs]. rewrite (bind_ok _ _ _ _ _ (get_node _ _ _ Hn)).
  assert (Hstep : ∀ n1 n2 q, (update id n1 ≫= λ _, match first_child n with
    | None => throw TypeError | Some _ => update id n2 ≫= λ _, update_tabs t type ts end) q =
    update_tabs t type ts (obj_set id n2 q)).
  { intros n1 n2 q. rewrite update_then, Hc, update_then. by rewrite obj_set_set. }
  assert (Hif : ∀ q, (if loose_eq value type then update id (Node (display n) (activeTableTab t) (first_child n)) ≫= λ _,
        match first_child n with None => throw TypeError
        | Some _ => update id (Node (display n) (activeTableTab t) (Some text)) ≫= λ _, update_tabs t type ts end
      else update id (Node (display n) (tableTab t) (first_child n)) ≫= λ _,
        match first_child n with None => throw TypeError
        | Some _ => update id (Node (display n) (tableTab t) (Some (link value text))) ≫= λ _, update_tabs t type ts end) q
    = update_tabs t type ts (obj_set id (tab_shown t type value text n) q)).
  { intros q. unfold tab_shown. destruct (loose_eq value type); apply Hstep. }
  rewrite Hif. destruct (IH (obj_set id (tab_shown t type value text n) p) Hd) as (p' & -> & H).
  { rewrite Forall_forall in *. intros x Hx. destruct (Hp x Hx) as (m & c' & Hm & Hc').
    rewrite obj_get_set, decide_False; [eauto|]. intros Heq. apply Hk, list_elem_of_fmap. by exists x. }
  exists p'. split; [done|]. intros id'. rewrite H, obj_get_set. cbn [List.find fst snd].
  destruct (str_eqb_spec id id') as [->|Hne].
  - rewrite (decide_True (P := id' = id')) by done. rewrite Hn.
    destruct (List.find _ ts) as [[v [i x]]|] eqn:E; [|done].
    apply List.find_some in E as [E1%list_elem_of_In E2]. exfalso. apply Hk. simpl in E2.
    destruct (str_eqb_spec i id') as [->|]; [|done]. apply list_elem_of_fmap; by exists (v, (id', x)).
  - by rewrite decide_False by done.
Qed.

(** Show displays exactly the rows whose mask meets the type, in alternating
    colours that begin with the first row shown, hides the others, marks exactly the
    tabs of that type as active, makes links of the others, and leaves the rest of the
    page as it is. *)
Theorem show_spec t type p :
  page_ok t p →
  ∃ p', show t type p = (Ok tt, p') ∧ ∀ id, obj_get id p' = node_shown t type id <$> obj_get id p.
Proof.
  intros (Hd & Hm & Ht). apply NoDup_app in Hd as (Hd1 & Hdis & Hd2).
  destruct (show_rows_spec t type (methods t) 0 p Hd1 Hm) as (p1 & E1 & H1).
  assert (Hout : ∀ x, x ∈ tabs t → x.2.1 ∉ (methods t).*1).
  { intros x Hx Hin. apply (Hdis _ Hin). apply list_elem_of_fmap; by exists x. }
  destruct (update_tabs_spec t type (tabs t) p1 Hd2) as (p2 & E2 & H2).
  { rewrite Forall_forall in *. intros x Hx. destruct (Ht x Hx) as (n & c & Hn & Hc).
    exists n, c. by rewrite H1, decide_False by exact (Hout x Hx). }
  exists p2. split; [unfold show; by rewrite (bind_ok _ _ _ _ _ E1)|].
  intros id. rewrite H2, H1. unfold node_shown.
  destruct (List.find _ (tabs t)) as [[v [i x]]|] eqn:E.
  - apply List.find_some in E as [E%list_elem_of_In Ei]. simpl in Ei. destruct (str_eqb_spec i id) as [->|]; [|done].
    apply Hout in E. simpl in E. rewrite decide_False by done.
    destruct (obj_get id p) as [n|]; [|done]. simpl. by rewrite decide_False.
  - destruct (obj_get id p) as [n|]; [simpl|]; by case_decide.
Qed.

(** A page with two methods and two tabs. *)
Definition small : table := Table [(js "i0", 1%Z); (js "i1", 2%Z); (js "i2", 3%Z)]
  [(js "65535", (js "t0", js "All")); (js "2", (js "t2", js "Instance"))]
  (js "row") (js "alt") (js "tab") (js "active").
Definition small_page : page :=
  [(js "i0", Node [] (js "alt") None); (js "i1", Node [] (js "row") None); (js "i2", Node [] (js "alt") None);
   (js "t0", Node [] (js "active") (Some (js "All"))); (js "t2", Node [] (js "tab") (Some []))].

Lemma show_spec_witness :
  ∃ p', show small 2 small_page = (Ok tt, p') ∧
    obj_get (js "i0") p' = Some (Node (js "none") (js "alt") None) ∧
    obj_get (js "i2") p' = Some (Node [] (js "row") None) ∧
    obj_get (js "t2") p' = Some (Node [] (js "active") (Some (js "Instance"))).
Proof.
  destruct (show_spec small 2 small_page) as (p' & E & H).
  - split; [apply (bool_decide_unpack _); by vm_compute|]. split; repeat constructor; eauto.
  - exists p'. split; [exact E|]. rewrite !H. by vm_compute.
Defined.
End JavadocFacts.

Module ThemeFacts.
Import Classes Theme.

(** Elements whose attribute has only the white space of HTML. *)
Definition ok (e : elem) : Prop := is_element e = true ∧ html_spaced (className e).
Definition has (name : jsstr) (b : bool) (e : elem) : Prop := name ∈ names (className e) ↔ b = true.

(** A class name by itself. *)
Definition single (name : jsstr) : Prop := names name = [name] ∧ html_spaced name ∧ name_ok name.

Lemma single_dec (name : jsstr) :
  bool_decide (names name = [name]) && bool_decide (html_spaced name) && bool_decide (name ≠ [])
    && bool_decide (Forall (λ c, html_space c = false) name) = true → single name.
Proof.
  rewrite !andb_true_iff. intros [[[H1%bool_decide_eq_true H2%bool_decide_eq_true] H3%bool_decide_eq_true]
    H4%bool_decide_eq_true]. done.
Qed.
Lemma shift_single : single (js "shift").
Proof. apply single_dec. by vm_compute. Qed.
Lemma shift_up_single : single (js "shift-up").
Proof. apply single_dec. by vm_compute. Qed.
Lemma sticky_single : single stickyNavCssClass.
Proof. apply single_dec. by vm_compute. Qed.

Lemma html_spaced_trim s : html_spaced s → html_spaced (trim s).
Proof.
  intros H. unfold trim. destruct (trim_start_split s) as (z1 & E1 & _). rewrite E1 in H.
  apply html_spaced_app in H as [_ H]. destruct (trim_end_split (trim_start s)) as (z2 & E2 & _).
  rewrite E2 in H. by apply html_spaced_app in H as [H _].
Qed.

Lemma add_has name e m :
  single name → ok e → ok (add_elem name e) ∧
  (m ∈ names (className (add_elem name e)) ↔ m = name ∨ m ∈ names (className e)).
Proof.
  intros (Hn & Hs & _) [He Hc]. destruct (add_elem_names name e He Hs Hc) as [H1 H2].
  split; [split; [|done]; unfold add_elem; by rewrite He|].
  rewrite H1, Hn. unfold add_new. simpl. case_decide; set_solver.
Qed.
Lemma remove_has name e m :
  single name → ok e → ok (remove_elem (Some name) e) ∧
  (m ∈ names (className (remove_elem (Some name) e)) ↔ m ≠ name ∧ m ∈ names (className e)).
Proof.
  intros (Hn & Hs & _) [He Hc]. split.
  - unfold remove_elem. rewrite He. destruct (className e) as [|c s] eqn:E; [split; [done|by rewrite E]|].
    rewrite <- E in *. split; [done|]. cbn [className set_class].
    by apply html_spaced_trim, html_spaced_removes, html_spaced_padded.
  - rewrite (remove_elem_names name e He Hs Hc), Hn, list_elem_of_filter, list_elem_of_singleton. done.
Qed.

Lemma toggle_has name e m :
  single name → ok e → ok (toggle_elem name e) ∧
  (m ∈ names (className (toggle_elem name e)) ↔
    if decide (m = name) then name ∉ names (className e) else m ∈ names (className e)).
Proof.
  intros Hn Hok. pose proof Hn as (H1 & H2 & H3). unfold toggle_elem. rewrite words_names, H1 by done. cbn [foldl].
  unfold toggle_name. destruct Hok as [He Hc].
  rewrite (proj2 (proj2 (class_methods_spec e name name He H2 Hc H3))).
  case_bool_decide as Hin.
  - destruct (remove_has name e m Hn (conj He Hc)) as [? ->]. split; [done|]. case_decide; [|tauto]. subst. tauto.
  - destruct (add_has name e m Hn (conj He Hc)) as [? ->]. split; [done|]. case_decide; tauto.
Qed.

(** ** The page as four switches *)

Record switches := Switches { nav_open : bool; versions_open : bool; versions_up : bool; stuck : bool }.
Definition shows (p : page) (v : switches) : Prop :=
  Forall (λ e, ok e ∧ has (js "shift") (nav_open v) e) (nav_shift p) ∧
  Forall (λ e, ok e ∧ has (js "shift") (versions_open v) e ∧ has (js "shift-up") (versions_up v) e) (versions p) ∧
  Forall (λ e, ok e ∧ has stickyNavCssClass (stuck v) e) (nav_bar p).
Definition switch (v : switches) (e : event) : switches :=
  match e with
  | ClickMenu => Switches (negb (nav_open v)) (negb (versions_open v)) (versions_up v) (stuck v)
  | ClickLink => Switches false (negb (versions_open v)) (versions_up v) (stuck v)
  | ClickVersion => Switches (nav_open v) (versions_open v) (negb (versions_up v)) (stuck v)
  | Resize b w => Switches (nav_open v) (versions_open v) (versions_up v) (b <=? w)%Z
  end.

Lemma toggle_flips name b e : single name → ok e → has name b e → ok (toggle_elem name e) ∧ has name (negb b) (toggle_elem name e).
Proof.
  intros Hn Ho Hb. destruct (toggle_has name e name Hn Ho) as [H1 H2]. split; [done|]. unfold has in *.
  rewrite H2, decide_True by done. destruct b; naive_solver.
Qed.
Lemma toggle_other name m b e : single name → ok e → m ≠ name → has m b e → has m b (toggle_elem name e).
Proof.
  intros Hn Ho Hm Hb. destruct (toggle_has name e m Hn Ho) as [_ H]. unfold has in *. by rewrite H, decide_False.
Qed.

Lemma handle_shows p v e : shows p v → shows (handle p e) (switch v e).
Proof.
  pose proof shift_single as S1. pose proof shift_up_single as S2. pose proof sticky_single as S3.
  intros (Hn & Hv & Hb). destruct e as [| | |b w]; (split; [|split]); cbn [handle nav_shift versions nav_bar]; try done.
  - apply Forall_fmap. eapply Forall_impl; [exact Hn|]. intros e [Ho H]. by apply toggle_flips.
  - apply Forall_fmap. eapply Forall_impl; [exact Hv|]. intros e (Ho & H1 & H2).
    destruct (toggle_flips _ _ e S1 Ho H1). split; [done|]. split; [done|]. by apply toggle_other.
  - apply Forall_fmap. eapply Forall_impl; [exact Hn|]. intros e [Ho H].
    destruct (remove_has (js "shift") e (js "shift") S1 Ho) as [H1 H2]. split; [exact H1|].
    unfold has. cbn [compose]. rewrite H2. naive_solver.
  - apply Forall_fmap. eapply Forall_impl; [exact Hv|]. intros e (Ho & H1 & H2).
    destruct (toggle_flips _ _ e S1 Ho H1). split; [done|]. split; [done|]. by apply toggle_other.
  - apply Forall_fmap. eapply Forall_impl; [exact Hv|]. intros e (Ho & H1 & H2).
    destruct (toggle_flips _ _ e S2 Ho H2). split; [done|]. split; [|done]. by apply toggle_other.
  - cbn [switch stuck applyStickNav nav_bar]. destruct (b <=? w)%Z.
    + apply Forall_fmap. eapply Forall_impl; [exact Hb|]. intros e [Ho _].
      destruct (add_has stickyNavCssClass e stickyNavCssClass S3 Ho) as [H1 H2]. split; [exact H1|].
      unfold has. cbn [compose]. rewrite H2. naive_solver.
    + apply Forall_fmap. eapply Forall_impl; [exact Hb|]. intros e [Ho _].
      destruct (remove_has stickyNavCssClass e stickyNavCssClass S3 Ho) as [H1 H2]. split; [exact H1|].
      unfold has. cbn [compose]. rewrite H2. naive_solver.
Qed.

(** The classes of the page follow four switches through every sequence of clicks
    and resizes: the menu button flips the menu and the versions, a link closes the
    menu but flips the versions, the version flips its own list, and the bar sticks
    exactly when it fits the window as of the last resize. *)
Theorem run_shows p v es : shows p v → shows (run p es) (foldl switch v es).
Proof. revert p v. induction es as [|e es IH]; intros p v H; [done|]. cbn. by apply IH, handle_shows. Qed.

(** The menu and the versions stay in step while links are clicked in an open menu
    only; a link clicked while the menu is closed opens the versions alone. *)
Lemma in_step es v :
  nav_open v = versions_open v →
  (∀ k, es !! k = Some ClickLink → nav_open (foldl switch v (take k es)) = true) →
  nav_open (foldl switch v es) = versions_open (foldl switch v es).
Proof.
  revert v. induction es as [|e es IH]; intros v Hv Hl; [done|]. cbn [foldl]. apply IH.
  - destruct e; simpl; [by rewrite Hv| |done..]. specialize (Hl 0 eq_refl). simpl in Hl. by rewrite <- Hv, Hl.
  - intros k Hk. exact (Hl (S k) Hk).
Qed.
Lemma link_opens_versions up s :
  switch (Switches false false up s) ClickLink = Switches false true up s.
Proof. done. Qed.

Lemma run_shows_witness :
  shows (run (Page [Elem true (js "side") None] [Elem true (js "v shift") None] [Elem true (js "bar") None])
    [ClickMenu; Resize 10 20]) (Switches true false false true).
Proof.
  apply (run_shows (Page [Elem true (js "side") None] [Elem true (js "v shift") None] [Elem true (js "bar") None])
    (Switches false true false false) [ClickMenu; Resize 10 20]).
  assert (Hok : ∀ s, bool_decide (html_spaced s) = true → ok (Elem true s None)).
  { intros s Hs%bool_decide_eq_true. done. }
  assert (Hhas : ∀ n b s, bool_decide (n ∈ names s) = b → has n b (Elem true s None)).
  { intros n b s <-. unfold has. simpl. by rewrite bool_decide_eq_true. }
  split; [|split]; (constructor; [|constructor]); repeat split; try (apply Hok; by vm_compute); apply Hhas; by vm_compute.
Defined.
End ThemeFacts.
