(* ===== verification/JqCore.v ===== *)
(** * The core functions of jquery.js

    Sets of elements and their stack, the helpers on arrays ([each], [map], [grep],
    [merge], [makeArray]) and [jQuery.extend].  Objects are trees here: the source
    of an [extend] shares no object with its target. *)

From stdpp Require Import base tactics list strings numbers sets gmap.
From Stdlib Require Import NArith ZArith Lia.
From S2P Require Import Prelude.
From S2P Require Import JsString.
From S2P Require Import JsNum.
From S2P Require Import JsArray.
From S2P Require Import Regex.

Module Core.

(** ** Helpers on arrays *)

Section arrays.
Context {S A B : Type}.

(** [each]: [callback.call(obj[i], i, obj[i])] until one returns [false]; the
    callback does not change the array.  With [args], the index is not passed. *)
Fixpoint each_loop (callback : nat → A → M S bool) (l : list A) (i : nat) : M S unit :=
  match l with
  | [] => mret tt
  | x :: l' =>
      callback i x ≫= λ stop : bool,
      if stop then mret tt else each_loop callback l' (Datatypes.S i)
  end.
Definition each (l : list A) (callback : nat → A → M S bool) : M S unit := each_loop callback l 0.

(** [merge] copies the elements one by one after those of [first]. *)
Fixpoint merge (first second : list A) : list A :=
  match second with [] => first | x :: second' => merge (first ++ [x]) second' end.

(** What a callback of [map] returns: nothing, a value, or an array. *)
Inductive mapped : Type := MNone | MOne (v : B) | MMany (l : list B).
Fixpoint map_loop (callback : A → nat → M S mapped) (l : list A) (i : nat) (ret : list mapped)
    : M S (list mapped) :=
  match l with
  | [] => mret ret
  | x :: l' =>
      callback x i ≫= λ value,
      map_loop callback l' (Datatypes.S i) (match value with MNone => ret | _ => ret ++ [value] end)
  end.
(** [concat.apply([], ret)]. *)
Definition concat_mapped (ret : list mapped) : list B :=
  ret ≫= λ m, match m with MNone => [] | MOne v => [v] | MMany l => l end.
Definition map (elems : list A) (callback : A → nat → M S mapped) : M S (list B) :=
  map_loop callback elems 0 [] ≫= λ ret, mret (concat_mapped ret).

Fixpoint grep_loop (callback : A → nat → M S bool) (callbackExpect : bool) (l : list A) (i : nat)
    (matches : list A) : M S (list A) :=
  match l with
  | [] => mret matches
  | x :: l' =>
      callback x i ≫= λ r : bool,
      let callbackInverse := negb r in
      grep_loop callback callbackExpect l' (Datatypes.S i)
        (if Bool.eqb callbackInverse callbackExpect then matches else matches ++ [x])
  end.
Definition grep (elems : list A) (callback : A → nat → M S bool) (invert : bool) : M S (list A) :=
  grep_loop callback (negb invert) elems 0 [].
End arrays.
Arguments mapped : clear implicits.

(** The argument of [makeArray]: nothing, an array, or another value. *)
Inductive array_like (A : Type) := Missing | Arr (l : list A) | Single (x : A).
Arguments Missing {A}.
Arguments Arr {A} l.
Arguments Single {A} x.
Definition makeArray {A} (arr : array_like A) (results : list A) : list A :=
  match arr with
  | Missing => results
  | Arr l => merge results l
  | Single x => results ++ [x]
  end.

(** ** Sets of elements *)

Inductive jq (A : Type) : Type :=
  | Jq (elems : list A) (prevObject : option (jq A)).
Arguments Jq {A} elems prevObject.
Section sets.
Context {A : Type}.
Implicit Types this : jq A.
Definition elems_of this : list A := match this with Jq l _ => l end.
Definition len this : Z := zlen (elems_of this).
(** [this[i]]. *)
Definition at_ this (i : Z) : option A :=
  if (i <? 0)%Z then None else elems_of this !! Z.to_nat i.

Definition toArray this : list A := elems_of this.
Definition get_ this (num : Z) : option A :=
  if (num <? 0)%Z then at_ this (num + len this) else at_ this num.
Definition pushStack this (elems : list A) : jq A := Jq (merge [] elems) (Some this).
Definition eq_ this (i : Z) : jq A :=
  let j := (i + (if (i <? 0)%Z then len this else 0))%Z in
  pushStack this
    (if (0 <=? j)%Z && (j <? len this)%Z
     then match at_ this j with Some x => [x] | None => [] end else []).
Definition first_ this : jq A := eq_ this 0.
Definition last_ this : jq A := eq_ this (-1).
Definition slice_ this (a b : Z) : jq A := pushStack this (slice (elems_of this) a b).
Definition end_ this : jq A := match this with Jq _ (Some p) => p | Jq _ None => Jq [] None end.
Definition each_ {S} this (callback : nat → A → M S bool) : M S (jq A) :=
  each (elems_of this) callback ≫= λ _, mret this.
Definition map_ {S} this (callback : A → nat → M S (mapped A)) : M S (jq A) :=
  map (elems_of this) callback ≫= λ l, mret (pushStack this l).
End sets.

(** ** Objects *)

(** A container is an array, a plain object, or another object; its properties are
    those [for ... in] visits. *)
Inductive kind := KArray | KPlain | KOther.
Inductive val : Type :=
  | VUndefined
  | VNull
  | VPrim (truthy : bool) (shown : jsstr)
  | VCont (k : kind) (props : list (jsstr * val)).

Definition is_undefined (v : val) : bool := match v with VUndefined => true | _ => false end.
(** [src && jQuery.isArray(src) ? src : []], and for plain objects. *)
Definition clone_of (k : kind) (src : option val) : list (jsstr * val) :=
  match src, k with
  | Some (VCont KArray ps), KArray | Some (VCont KPlain ps), KPlain => ps
  | _, _ => []
  end.

(** The loop of [extend] over the properties of one source, for [deep]; [deep_copy]
    is [jQuery.extend( deep, clone, copy )]. *)
Fixpoint deep_copy (copy : val) (clone : list (jsstr * val)) : list (jsstr * val) :=
  match copy with
  | VCont _ options =>
      (fix loop (options : list (jsstr * val)) (target : list (jsstr * val)) :=
         match options with
         | [] => target
         | (name, copy) :: options' =>
             loop options'
               (match copy with
                | VCont (KArray as k) _ | VCont (KPlain as k) _ =>
                    obj_set name (VCont k (deep_copy copy (clone_of k (obj_get name target)))) target
                | VUndefined => target
                | _ => obj_set name copy target
                end)
         end) options clone
  | _ => clone
  end.
Definition shallow_copy (options target : list (jsstr * val)) : list (jsstr * val) :=
  foldl (λ t p, if is_undefined p.2 then t else obj_set p.1 p.2 t) target options.
(** [jQuery.extend(deep, target, options...)]; a source that is [null] or undefined
    is [None]. *)
Definition extend (deep : bool) (target : list (jsstr * val))
    (sources : list (option (list (jsstr * val)))) : list (jsstr * val) :=
  foldl (λ t s,
    match s with
    | None => t
    | Some options => if deep then deep_copy (VCont KPlain options) t else shallow_copy options t
    end) target sources.

(** ** Text *)

(** [camelCase]: [-ms-] at the front, then [/-([\da-z])/gi]. *)
Definition ascii_letter_digit (c : N) : bool :=
  in_range 48 57 c || in_range 97 122 c || in_range 65 90 c.
Definition rdashAlpha : regex := RSeq (lit "-") (RGroup 1 (RSet ascii_letter_digit)).
Definition fcamelCase (m : match_result) : jsstr := ascii_upper_unit <$> capture_str m 1.
Definition camelCase (string : jsstr) : jsstr :=
  let s := if prefixb (js "-ms-") string then js "ms-" ++ drop 4 string else string in
  replace_all rdashAlpha fcamelCase s.
Example camelCase_ex : camelCase <$> [js "margin-top"; js "-ms-flow-into"; js "-webkit-x"] =
  [js "marginTop"; js "msFlowInto"; js "WebkitX"].
Proof. vm_compute. reflexivity. Qed.

(** ** Sets and arrays *)

Lemma merge_app {A} (first second : list A) : merge first second = first ++ second.
Proof.
  revert first. induction second as [|x l IH]; intros first; cbn; [by rewrite app_nil_r|].
  by rewrite IH, <- (assoc_L (++)).
Qed.
Lemma grep_loop_pure {A} (q : A → bool) (e : bool) (l : list A) i matches :
  run_pure (grep_loop (λ x _, mret (q x)) e l i matches) =
  Ok (matches ++ base.filter (λ x, q x = e) l).
Proof.
  revert i matches. induction l as [|x l IH]; intros i matches; [by rewrite app_nil_r|].
  unfold run_pure in *. cbn [grep_loop]. unfold mbind, M_bind, mret, M_ret. cbn beta iota.
  rewrite IH, filter_cons. destruct (q x), e; cbn; by rewrite <- ?(assoc_L (++)).
Qed.

(** On a set of elements, [get] and [eq] agree for positions from the front and,
    negative, from the end, and are empty out of range; [end] gives the set before;
    [grep] and its inverse split an array. *)
Theorem set_methods_spec {A} (this : jq A) (i : Z) (q : A → bool) (l : list A) :
  elems_of (eq_ this i) = option_list (get_ this i) ∧
  (get_ this i = None ↔ ¬ (- len this ≤ i < len this)%Z) ∧
  end_ (eq_ this i) = this ∧
  run_pure (grep l (λ x _, mret (q x)) false) = Ok (base.filter (λ x, q x = true) l) ∧
  run_pure (grep l (λ x _, mret (q x)) true) = Ok (base.filter (λ x, q x = false) l).
Proof.
  split; [|split; [|split; [done|split; [apply (grep_loop_pure q true l 0 [])|apply (grep_loop_pure q false l 0 [])]]]].
  - unfold eq_, get_, pushStack. cbn [elems_of]. rewrite merge_app. cbn [app].
    destruct (Z.ltb_spec i 0) as [Hi|Hi]; [|rewrite Z.add_0_r].
    + destruct (Z.leb_spec 0 (i + len this)) as [Hj|Hj]; cbn [andb].
      * rewrite (proj2 (Z.ltb_lt (i + len this) (len this))) by lia. by destruct (at_ _ _).
      * unfold at_. by rewrite (proj2 (Z.ltb_lt (i + len this) 0)) by lia.
    + rewrite (proj2 (Z.leb_le 0 i)) by lia. cbn [andb].
      destruct (Z.ltb_spec i (len this)) as [Hj|Hj]; [by destruct (at_ _ _)|].
      unfold at_. rewrite (proj2 (Z.ltb_ge i 0)) by lia.
      rewrite lookup_ge_None_2; [done|]. unfold len, zlen in Hj. lia.
  - assert (Hat : ∀ j, at_ this j = None ↔ ¬ (0 ≤ j < len this)%Z).
    { intros j. unfold at_. destruct (Z.ltb_spec j 0) as [Hj|Hj]; [split; [lia|done]|].
      rewrite lookup_ge_None. unfold len, zlen. lia. }
    unfold get_. destruct (Z.ltb_spec i 0); rewrite Hat; lia.
Qed.

(** ** Copying objects *)

Lemma shallow_copy_get options target k :
  obj_wf options →
  obj_get k (shallow_copy options target) =
  match obj_get k options with
  | Some v => if is_undefined v then obj_get k target else Some v
  | None => obj_get k target
  end.
Proof.
  unfold obj_wf, obj_keys. revert target. induction options as [|[k1 v] l IH]; intros target Hl; [done|].
  rewrite fmap_cons in Hl. apply NoDup_cons in Hl as [Hn Hl]. unfold shallow_copy in *. cbn [foldl obj_get].
  rewrite IH by done. cbn [fst snd]. destruct (str_eqb_spec k k1) as [->|Hne].
  - rewrite (proj2 (obj_get_None k1 l)) by done. destruct (is_undefined v); [done|].
    by rewrite obj_get_set, decide_True.
  - destruct (is_undefined v); [done|]. by rewrite obj_get_set, decide_False.
Qed.

(** What a deep copy does to one property. *)
Definition merged (copy : option val) (src : option val) : option val :=
  match copy with
  | None | Some VUndefined => src
  | Some (VCont (KArray as k) _ as c) | Some (VCont (KPlain as k) _ as c) =>
      Some (VCont k (deep_copy c (clone_of k src)))
  | Some c => Some c
  end.
Definition deep_step (target : list (jsstr * val)) (p : jsstr * val) : list (jsstr * val) :=
  match p.2 with
  | VCont (KArray as k) _ | VCont (KPlain as k) _ =>
      obj_set p.1 (VCont k (deep_copy p.2 (clone_of k (obj_get p.1 target)))) target
  | VUndefined => target
  | _ => obj_set p.1 p.2 target
  end.
Lemma deep_copy_loop k options target :
  deep_copy (VCont k options) target = foldl deep_step target options.
Proof.
  cbn [deep_copy]. revert target. induction options as [|[name c] l IH]; intros target; [done|].
  rewrite IH. cbn [foldl]. done.
Qed.
Lemma deep_step_get target p k :
  obj_get k (deep_step target p) = if decide (k = p.1) then merged (Some p.2) (obj_get k target) else obj_get k target.
Proof.
  destruct p as [k1 c]. unfold deep_step. cbn [fst snd].
  destruct (decide (k = k1)) as [->|Hne]; destruct c as [| | |[] ps]; cbn [merged];
    rewrite ?obj_get_set, ?decide_True, ?decide_False by done; done.
Qed.
Lemma deep_copy_get kd options target k :
  obj_wf options → obj_get k (deep_copy (VCont kd options) target) = merged (obj_get k options) (obj_get k target).
Proof.
  rewrite deep_copy_loop. unfold obj_wf, obj_keys. revert target.
  induction options as [|[k1 c] l IH]; intros target Hl; [done|].
  rewrite fmap_cons in Hl. apply NoDup_cons in Hl as [Hn Hl]. cbn [foldl obj_get].
  rewrite IH, deep_step_get by done. cbn [fst snd]. destruct (str_eqb_spec k k1) as [->|Hne].
  - rewrite (proj2 (obj_get_None k1 l)) by done. by rewrite decide_True.
  - by rewrite decide_False.
Qed.

(** After [jQuery.extend(target, source)] a property has the value of the source
    when it is defined there and keeps its value otherwise; the deep form merges,
    property by property, the arrays and plain objects of the source into those of
    the target of the same kind, or into new ones. *)
Theorem extend_merges (target options : list (jsstr * val)) (k : jsstr) :
  obj_wf options →
  obj_get k (extend false target [Some options]) =
    (match obj_get k options with
     | Some v => if is_undefined v then obj_get k target else Some v
     | None => obj_get k target
     end) ∧
  obj_get k (extend true target [Some options]) = merged (obj_get k options) (obj_get k target).
Proof. intros Hw. split; [by apply shallow_copy_get|by apply deep_copy_get]. Qed.
Lemma extend_merges_witness :
  obj_get (js "b") (extend true [(js "b", VCont KPlain [(js "x", VNull)])]
    [Some [(js "b", VCont KPlain [(js "y", VNull)])]]) =
  Some (VCont KPlain [(js "x", VNull); (js "y", VNull)]).
Proof.
  etransitivity; [apply (extend_merges [(js "b", VCont KPlain [(js "x", VNull)])]
    [(js "b", VCont KPlain [(js "y", VNull)])] (js "b"))|vm_compute; reflexivity].
  eapply bool_decide_unpack. vm_compute. exact I.
Defined.

(** ** A deep copy of a tree *)

Section val_ind.
Variable P : val → Prop.
Hypothesis HU : P VUndefined.
Hypothesis HN : P VNull.
Hypothesis HP : ∀ t s, P (VPrim t s).
Hypothesis HC : ∀ k ps, Forall (λ p, P p.2) ps → P (VCont k ps).
Fixpoint val_nested_ind (v : val) : P v :=
  match v with
  | VUndefined => HU
  | VNull => HN
  | VPrim t s => HP t s
  | VCont k ps =>
      HC k ps ((fix go (ps : list (jsstr * val)) : Forall (λ p, P p.2) ps :=
        match ps with
        | [] => Forall_nil_2 _
        | p :: ps' => Forall_cons_2 _ p ps' (val_nested_ind p.2) (go ps')
        end) ps)
  end.
End val_ind.

(** No name is listed twice, in arrays and plain objects at every level. *)
Inductive tree_ok : val → Prop :=
  | ok_leaf v : (∀ k ps, v = VCont k ps → k = KOther) → tree_ok v
  | ok_cont k ps : obj_wf ps → Forall (λ p, tree_ok p.2) ps → tree_ok (VCont k ps).
(** A tree without its undefined properties; other objects are kept as they are. *)
Fixpoint defined (v : val) : val :=
  match v with
  | VCont KOther ps => VCont KOther ps
  | VCont k ps =>
      VCont k (omap (λ p, if is_undefined p.2 then None else Some (p.1, defined p.2)) ps)
  | v => v
  end.
Definition defined_props (ps : list (jsstr * val)) : list (jsstr * val) :=
  omap (λ p, if is_undefined p.2 then None else Some (p.1, defined p.2)) ps.

Lemma obj_set_fresh {B} k (v : B) l : k ∉ obj_keys l → obj_set k v l = l ++ [(k, v)].
Proof.
  unfold obj_keys. induction l as [|[k1 v1] l IH]; intros Hk; [done|]. cbn [obj_set].
  rewrite fmap_cons in Hk. destruct (str_eqb_spec k k1) as [->|]; [destruct Hk; by left|].
  cbn [app]. f_equal. apply IH. intros Hin. apply Hk. by right.
Qed.
Lemma copy_new k ps :
  obj_wf ps → Forall (λ p, tree_ok p.2 → is_undefined p.2 = false →
    merged (Some p.2) None = Some (defined p.2)) ps → Forall (λ p, tree_ok p.2) ps →
  deep_copy (VCont k ps) [] = defined_props ps.
Proof.
  intros Hw Hm Ht. rewrite deep_copy_loop.
  assert (Hg : ∀ done, (∀ p, p ∈ ps → p.1 ∉ obj_keys done) → 
    foldl deep_step done ps = done ++ defined_props ps); [|by apply (Hg []); intros p _ ?%elem_of_nil].
  unfold obj_wf, obj_keys in Hw. induction ps as [|[k1 c] ps IH]; intros done Hd; [by rewrite app_nil_r|].
  rewrite fmap_cons in Hw. apply NoDup_cons in Hw as [Hn Hw].
  apply Forall_cons in Hm as [Hm1 Hm]. apply Forall_cons in Ht as [Ht1 Ht]. cbn [foldl].
  assert (Hk1 : obj_get k1 done = None) by (apply obj_get_None; by apply (Hd (k1, c)); left).
  assert (Hs : deep_step done (k1, c) = done ++ defined_props [(k1, c)]).
  { cbn [defined_props omap list_omap fst snd]. destruct (is_undefined c) eqn:Eu.
    - destruct c; try done. cbn. by rewrite app_nil_r.
    - specialize (Hm1 Ht1 Eu). cbn [snd] in Hm1. rewrite <- obj_set_fresh by (by apply obj_get_None).
      unfold deep_step. cbn [fst snd]. rewrite Hk1.
      destruct c as [| | |[] ps']; try done; unfold merged in Hm1; cbn [clone_of] in Hm1 |- *;
        apply (inj Some) in Hm1; by rewrite Hm1. }
  rewrite Hs, IH; [|done..|].
  - rewrite <- (assoc_L (++)). f_equal. cbn [defined_props omap list_omap]. by destruct (is_undefined _).
  - intros [k2 c2] Hin Hin2. unfold obj_keys in Hin2. rewrite fmap_app in Hin2.
    apply elem_of_app in Hin2 as [Hin2|Hin2]; [by eapply Hd; [right|]|].
    cbn [defined_props omap list_omap fst snd] in Hin2. destruct (is_undefined c); cbn in Hin2.
    + by apply elem_of_nil in Hin2.
    + apply list_elem_of_singleton in Hin2 as ->. apply Hn.
      apply list_elem_of_fmap. by exists (k1, c2).
Qed.
Lemma tree_ok_inv k ps :
  tree_ok (VCont k ps) → k ≠ KOther → obj_wf ps ∧ Forall (λ p, tree_ok p.2) ps.
Proof.
  intros Ht Hk. remember (VCont k ps) as v eqn:Ev. destruct Ht as [v Hv|k' ps' Hw Hps].
  - by destruct Hk; eapply Hv.
  - by injection Ev as -> ->.
Qed.
Lemma merged_new v : tree_ok v → is_undefined v = false → merged (Some v) None = Some (defined v).
Proof.
  induction v as [| |t s|k ps IH] using val_nested_ind; intros Ht Hu; try done.
  assert (Hk : k ≠ KOther → obj_wf ps ∧ Forall (λ p, tree_ok p.2) ps) by (by apply tree_ok_inv).
  destruct k; [| |done]; (destruct Hk as [Hw Hps]; [done|]);
    exact (f_equal (λ l, Some (VCont _ l)) (copy_new _ _ Hw IH Hps)).
Qed.

(** [jQuery.extend(true, {}, source)] is a copy of the source at every level,
    without the properties whose value is undefined. *)
Theorem deep_clone (options : list (jsstr * val)) :
  tree_ok (VCont KPlain options) → extend true [] [Some options] = defined_props options.
Proof.
  intros Ht. destruct (tree_ok_inv _ _ Ht) as [Hw Hps]; [done|].
  apply copy_new; [done| |done]. apply Forall_forall. intros p _. apply merged_new.
Qed.
Definition sample_tree : list (jsstr * val) :=
  [(js "a", VCont KArray [(js "0", VNull); (js "1", VCont KPlain [(js "x", VUndefined)])]);
   (js "b", VPrim true (js "7"))].
Lemma deep_clone_witness :
  extend true [] [Some sample_tree] =
  [(js "a", VCont KArray [(js "0", VNull); (js "1", VCont KPlain [])]); (js "b", VPrim true (js "7"))].
Proof.
  etransitivity; [apply (deep_clone sample_tree)|vm_compute; reflexivity].
  assert (H1 : tree_ok (VCont KPlain [(js "x", VUndefined)])).
  { apply ok_cont; [eapply bool_decide_unpack; vm_compute; exact I|].
    constructor; [by apply ok_leaf|constructor]. }
  assert (H2 : tree_ok (VCont KArray [(js "0", VNull); (js "1", VCont KPlain [(js "x", VUndefined)])])).
  { apply ok_cont; [eapply bool_decide_unpack; vm_compute; exact I|].
    constructor; [by apply ok_leaf|]. constructor; [done|constructor]. }
  apply ok_cont; [eapply bool_decide_unpack; vm_compute; exact I|].
  constructor; [done|]. constructor; [by apply ok_leaf|constructor].
Defined.

End Core.
