(* ===== verification/JqEvents.v ===== *)
(** * Event handlers in jquery.js

    [jQuery.event.add] and [jQuery.event.remove] keep, for every element, the
    handlers of each event type in a list whose delegated handlers come first, and
    one native listener for each type that has handlers.  Types carry namespaces,
    which [remove] compares through a pattern it builds.  The hooks of the special
    events are a parameter; [special_table] is the part of the table that renames
    types. *)

From stdpp Require Import base tactics list strings numbers sets gmap.
From Stdlib Require Import NArith ZArith Sorted Lia.
From S2P Require Import Prelude.
From S2P Require Import JsString.
From S2P Require Import Regex.
From S2P Require Import JsArray.
From S2P Require Import JqCallbacks.

Module Events.

(** ** Data *)

(** A handler: a function of the page, or the function with which [one] wraps it.
    Both have the same [guid]. *)
Record fn := Fn { page : nat; is_once : bool }.

(** The empty string stands for a selector, a namespace or a renamed type that is
    missing: the code only asks whether they are truthy. *)
Record handleObj := HandleObj {
  type : jsstr;
  origType : jsstr;
  data : option nat;
  handler : fn;
  guid : nat;
  selector : jsstr;
  needsContext : bool;
  namespace : jsstr;
}.

Record queue := Queue { hs : list handleObj; delegateCount : nat }.

(** An element, with the data kept for it and its native listeners. *)
Record element := Element {
  acceptData : bool;
  events : option (list (jsstr * queue));
  handle : bool;
  listening : list jsstr;
}.

(** What the elements share: the [guid] property of functions, [jQuery.guid] and
    [jQuery.event.global]. *)
Record shared := Shared {
  fn_guid : gmap nat nat;
  next_guid : nat;
  global : gset jsstr;
}.

(** The hooks of a special event that [add] and [remove] consult; [own_setup] says
    that its [setup] and [teardown] do the listening themselves. *)
Record hooks := Hooks { bindType : jsstr; delegateType : jsstr; own_setup : bool }.

Definition missing (s : jsstr) : bool := match s with [] => true | _ => false end.
Definition or_else (s t : jsstr) : jsstr := if missing s then t else s.

(** The table of the file for a browser whose submit and change events bubble. *)
Definition special_table (focusinBubbles : bool) (t : jsstr) : hooks :=
  let renamed s := Hooks (js s) (js s) false in
  if str_eqb t (js "focus") then Hooks [] (js "focusin") false
  else if str_eqb t (js "blur") then Hooks [] (js "focusout") false
  else if str_eqb t (js "mouseenter") then renamed "mouseover"%string
  else if str_eqb t (js "mouseleave") then renamed "mouseout"%string
  else if str_eqb t (js "pointerenter") then renamed "pointerover"%string
  else if str_eqb t (js "pointerleave") then renamed "pointerout"%string
  else if str_eqb t (js "focusin") || str_eqb t (js "focusout")
  then Hooks [] [] (negb focusinBubbles)
  else Hooks [] [] false.

(** ** Types and namespaces *)

(** The pattern [rtypenamespace]: a type without dots, then a dot and the rest, or
    nothing; no match gives no type. *)
Definition rtypenamespace : regex :=
  RSeq RBol (RSeq (RGroup 1 (star (RSet (ncls "."))))
    (RSeq (RAlt (RSeq (RSet (N.eqb 46)) (RGroup 2 (plus dot))) REmpty) REol)).
Definition parse_type (t : jsstr) : jsstr * jsstr :=
  match exec rtypenamespace t with
  | Some m => (capture_str m 1, capture_str m 2)
  | None => ([], [])
  end.

(** [types.match(rnotwhite) || [""]], in the order of [while (t--)]. *)
Definition type_words (types : jsstr) : list jsstr :=
  match Callbacks.words types with [] => [[]] | ws => reverse ws end.

(** The order of [sort()] without a comparator. *)
Definition str_cmp (s t : jsstr) : Z :=
  if str_ltb s t then -1 else if str_ltb t s then 1 else 0.
Definition namespaces_of (ns : jsstr) : list jsstr := js_sort str_cmp (split_unit 46 ns).

(** The pattern [(^|\.)a\.(?:.*\.|)b(\.|$)] for the namespaces [a], [b], when they have no
    pattern syntax and stand for themselves. *)
Definition ns_dot : regex := RSet (N.eqb 46).
Fixpoint ns_body (ns : list jsstr) : regex :=
  match ns with
  | [] => REmpty
  | [n] => lit_units n
  | n :: ns' =>
      RSeq (lit_units n)
        (RSeq ns_dot (RSeq (RAlt (RSeq (star dot) ns_dot) REmpty) (ns_body ns')))
  end.
Definition ns_regex (ns : list jsstr) : regex :=
  RSeq (RGroup 1 (RAlt RBol ns_dot)) (RSeq (ns_body ns) (RGroup 2 (RAlt ns_dot REol))).

(** The source is built from the names as they are.  What [RegExp] makes of a source with
    pattern syntax in the names, if it does not throw a SyntaxError, is up to the class. *)
Class RegExpConstructor := RegExp : jsstr → outcome regex.
Definition syntax_unit (c : N) : bool := existsb (N.eqb c) (js "^$\*+?()[]{}|").
Definition plain_names (ns : list jsstr) : bool := forallb (forallb (λ c, negb (syntax_unit c))) ns.
Definition ns_source (ns : list jsstr) : jsstr :=
  js "(^|\.)" ++ join (js "\.(?:.*\.|)") ns ++ js "(\.|$)".
Definition ns_pattern `{RegExpConstructor} (ns : list jsstr) : outcome regex :=
  if plain_names ns then Ok (ns_regex ns) else RegExp (ns_source ns).

Example parse_ex1 : parse_type (js "click.b.a") = (js "click", js "b.a").
Proof. vm_compute. reflexivity. Qed.
Example parse_ex2 : parse_type (js "click.") = ([], []).
Proof. vm_compute. reflexivity. Qed.
Example ns_ex : test (ns_regex (namespaces_of (js "c.a"))) (js "a.b.c") = true ∧
  test (ns_regex (namespaces_of (js "c.a"))) (js "a.bc") = false.
Proof. vm_compute. done. Qed.

(** ** Binding *)

Section events.
Context `{RE : RegExpConstructor}.
Variable special : jsstr → hooks.
(** [jQuery.expr.match.needsContext.test]. *)
Variable needs_context : jsstr → bool.

Definition table (e : element) : list (jsstr * queue) := default [] (events e).
Definition set_table (t : list (jsstr * queue)) (e : element) : element :=
  Element (acceptData e) (Some t) (handle e) (listening e).

(** A listener that is there already is not added again. *)
Definition addEventListener (t : jsstr) (e : element) : element :=
  Element (acceptData e) (events e) (handle e)
    (if bool_decide (t ∈ listening e) then listening e else listening e ++ [t]).
Definition removeEventListener (t : jsstr) (e : element) : element :=
  Element (acceptData e) (events e) (handle e) (base.filter (λ u, u ≠ t) (listening e)).

(** [if (!f.guid) f.guid = jQuery.guid++]; [jQuery.guid] starts at 1. *)
Definition guid_of (f : fn) (g : shared) : nat * shared :=
  match fn_guid g !! page f with
  | Some i => (i, g)
  | None =>
      (next_guid g, Shared (<[page f := next_guid g]> (fn_guid g)) (S (next_guid g)) (global g))
  end.

Definition real_type (sel t : jsstr) : jsstr :=
  or_else (if missing sel then bindType (special t) else delegateType (special t)) t.

(** Delegates in front. *)
Definition enqueue (h : handleObj) (sel : jsstr) (q : queue) : queue :=
  if missing sel then Queue (hs q ++ [h]) (delegateCount q)
  else Queue (take (delegateCount q) (hs q) ++ h :: drop (delegateCount q) (hs q))
         (S (delegateCount q)).

Definition add_type (f : fn) (i : nat) (d : option nat) (sel : jsstr) (inn : option handleObj)
    (eg : element * shared) (t : jsstr) : element * shared :=
  let '(e, g) := eg in
  let '(orig, ns) := parse_type t in
  if missing orig then (e, g)
  else
    let ty := real_type sel orig in
    let h := default
      (HandleObj ty orig d f i sel (negb (missing sel) && needs_context sel)
         (join [46%N] (namespaces_of ns))) inn in
    let e := match obj_get ty (table e) with
      | Some _ => e
      | None =>
          let e := set_table (obj_set ty (Queue [] 0) (table e)) e in
          if own_setup (special ty) then e else addEventListener ty e
      end in
    let q := default (Queue [] 0) (obj_get ty (table e)) in
    (set_table (obj_set ty (enqueue h sel q) (table e)) e,
     Shared (fn_guid g) (next_guid g) ({[ty]} ∪ global g)).

(** [jQuery.event.add]; [inn] is a handler object given in place of the handler. *)
Definition add (types : jsstr) (f : fn) (d : option nat) (sel : jsstr) (inn : option handleObj)
    (e : element) (g : shared) : element * shared :=
  if acceptData e then
    let f := match inn with Some h => handler h | None => f end in
    let sel := match inn with Some h => selector h | None => sel end in
    let '(i, g) := guid_of f g in
    let e := Element true (Some (table e)) true (listening e) in
    foldl (add_type f i d sel inn) (e, g) (type_words types)
  else (e, g).

(** ** Unbinding *)

(** [by_] is the handler's guid, [Some None] for a handler that never got one; [tmp] is the
    pattern of the namespaces. *)
Definition hit (mappedTypes : bool) (orig : jsstr) (by_ : option (option nat)) (tmp : option regex)
    (sel : jsstr) (h : handleObj) : bool :=
  (mappedTypes || str_eqb orig (origType h))
  && match by_ with None => true | Some i => bool_decide (i = Some (guid h)) end
  && match tmp with None => true | Some r => test r (namespace h) end
  && (missing sel || str_eqb sel (selector h)
      || (str_eqb sel (js "**") && negb (missing (selector h)))).

(** [while (j--)] over the list of handlers. *)
Fixpoint remove_loop (p : handleObj → bool) (j : nat) (q : queue) : queue :=
  match j with
  | 0 => q
  | S j =>
      remove_loop p j
        match hs q !! j with
        | Some h =>
            if p h then
              Queue (delete j (hs q))
                (if missing (selector h) then delegateCount q else delegateCount q - 1)
            else q
        | None => q
        end
  end.

(** The pattern is built when the type has namespaces.  The special event whose [teardown] is
    asked is that of the type as it was written, not of the type it is renamed to. *)
Definition type_pattern (ns : jsstr) : outcome (option regex) :=
  if missing ns then Ok None
  else match ns_pattern (namespaces_of ns) with Ok r => Ok (Some r) | Throw x => Throw x end.
Definition remove_type (mapped : bool) (by_ : option (option nat)) (sel orig : jsstr) (tmp : option regex)
    (e : element) : element :=
  let ty := real_type sel orig in
  match obj_get ty (table e) with
  | None => e
  | Some q =>
      let q' := remove_loop (hit mapped orig by_ tmp sel) (length (hs q)) q in
      match hs q, hs q' with
      | _ :: _, [] =>
          let e := if own_setup (special orig) then e else removeEventListener ty e in
          set_table (obj_delete ty (table e)) e
      | _, _ => set_table (obj_set ty q' (table e)) e
      end
  end.

(** [if (jQuery.isEmptyObject(events))]. *)
Definition drop_empty (e : element) : element :=
  match table e with
  | [] => Element (acceptData e) None false (listening e)
  | _ => e
  end.

(** [jQuery.event.remove]; [stack] bounds the depth of its calls, and a call
    beyond it throws the RangeError of a full call stack. *)
Fixpoint remove (stack : nat) (mapped : bool) (by_ : option (option nat)) (sel types : jsstr)
    (e : element) : outcome element :=
  match stack with
  | 0 => Throw RangeError
  | S stack =>
      match events e with
      | None => Ok e
      | Some _ =>
          let one r t :=
            match r with
            | Throw x => Throw x
            | Ok e =>
                let '(orig, ns) := parse_type t in
                if missing orig then
                  foldl (λ r ty, match r with
                    | Ok e =>
                        if obj_has ty (table e) then remove stack true by_ sel (ty ++ t) e else Ok e
                    | Throw x => Throw x
                    end) (Ok e) (obj_keys (table e))
                else match type_pattern ns with
                  | Ok tmp => Ok (remove_type mapped by_ sel orig tmp e)
                  | Throw x => Throw x
                  end
            end in
          match foldl one (Ok e) (type_words types) with
          | Ok e => Ok (drop_empty e)
          | Throw x => Throw x
          end
      end
  end.

(** ** [on], [one] and [off], for one element *)

(** The values given to [on] after the types, which are a string here. *)
Inductive value := Undefined | Null | False_ | Str (s : jsstr) | Function (p : nat) | Data (v : nat).
Definition is_null (v : value) : bool := match v with Undefined | Null => true | _ => false end.
(** Which of the optional arguments were given: selector, data and handler. *)
Definition on_args (selector data fn : value) : value * value * value :=
  if is_null data && is_null fn then (Undefined, Undefined, selector)
  else if is_null fn then
    match selector with
    | Str _ => (selector, Undefined, data)
    | _ => (Undefined, selector, data)
    end
  else (selector, data, fn).
(** A handler argument: a function, [false], or nothing. *)
Inductive fn_arg := FnFalse | FnFun (p : nat) | FnMissing.

(** [returnFalse] is one function of the library. *)
Variable returnFalse : nat.

Definition on (types sel : jsstr) (d : option nat) (a : fn_arg) (one : bool)
    (e : element) (g : shared) : element * shared :=
  match a with
  | FnMissing => (e, g)
  | FnFalse | FnFun _ =>
      let p := match a with FnFun p => p | _ => returnFalse end in
      let g := if one then snd (guid_of (Fn p false) g) else g in
      add types (Fn p one) d sel None e g
  end.
Definition off (stack : nat) (types sel : jsstr) (a : fn_arg) (e : element) (g : shared) :
    outcome element :=
  let by_ := match a with
    | FnMissing => None
    | FnFalse => Some (fn_guid g !! returnFalse)
    | FnFun p => Some (fn_guid g !! p)
    end in
  remove stack false by_ sel types e.
(** [off(event)], with the handler object of a dispatched event. *)
Definition off_event (stack : nat) (h : handleObj) (e : element) : outcome element :=
  remove stack false (Some (Some (guid h))) (selector h)
    (if missing (namespace h) then origType h else origType h ++ [46%N] ++ namespace h) e.

(** [cloneCopyEvent]: the events of [src] are bound again, type by type. *)
Definition clone_events (src : element) (dest : element) (g : shared) : element * shared :=
  match events src with
  | None => (dest, g)
  | Some t =>
      foldl (λ eg tq, foldl (λ eg h, add tq.1 (handler h) None [] (Some h) eg.1 eg.2) eg (hs tq.2))
        (Element (acceptData dest) (Some []) false (listening dest), g) t
  end.
End events.

(** ** Parsing types *)

Definition undotted (s : jsstr) : Prop := 46%N ∉ s.
Definition one_line (s : jsstr) : Prop := Forall (λ c, is_line_term c = false) s.

Lemma undotted_cls s : undotted s ↔ Forall (λ c, ncls "." c = true) s.
Proof.
  unfold undotted, ncls, cls. change (js ".") with [46%N]. cbn [existsb].
  rewrite Forall_forall. split.
  - intros H c Hc. destruct (N.eqb_spec c 46); [by subst|done].
  - intros H Hin. specialize (H _ Hin). done.
Qed.

Lemma plus_dot_run st st' :
  st' ∈ run (plus dot) st ↔
  ∃ c u s, m_rest st = (c :: u) ++ s ∧ one_line (c :: u) ∧ st' = advance (S (length u)) st.
Proof.
  unfold plus, dot. rewrite run_seq. setoid_rewrite run_set. setoid_rewrite run_star_set. split.
  - intros (st1 & (c & s & E & Hc & ->) & u & s' & E' & Hu & ->). simpl in E'. rewrite E in E'.
    simpl in E'. rewrite drop_0 in E'. subst. exists c, u, s'. split; [done|]. split.
    + constructor; [by apply negb_true_iff|]. eapply Forall_impl; [exact Hu|]. intros ? ?%negb_true_iff. done.
    + by rewrite advance_advance.
  - intros (c & u & s & E & Hu & ->). inversion Hu; subst. exists (advance 1 st). split.
    + exists c, (u ++ s). split; [done|]. split; [by apply negb_true_iff|done].
    + exists u, s. simpl. rewrite E. simpl. rewrite drop_0. split; [done|]. split.
      * eapply Forall_impl; [eassumption|]. intros ? ?. by apply negb_true_iff.
      * by rewrite advance_advance.
Qed.

(** What the pattern captures, for a word [u] or [u.v]. *)
Lemma rtypenamespace_run s st' :
  st' ∈ run (RSeq (RGroup 1 (star (RSet (ncls "."))))
    (RSeq (RAlt (RSeq (RSet (N.eqb 46)) (RGroup 2 (plus dot))) REmpty) REol)) (MState 0 s ∅) ↔
  ∃ u, undotted u ∧
    ((s = u ∧ st' = MState (length u) [] {[1 := u]}) ∨
     ∃ v, s = u ++ 46%N :: v ∧ v ≠ [] ∧ one_line v ∧
       st' = MState (length s) [] (<[2 := v]> {[1 := u]})).
Proof.
  rewrite run_seq. setoid_rewrite run_group. setoid_rewrite run_star_set.
  setoid_rewrite <- undotted_cls. setoid_rewrite run_seq. setoid_rewrite run_eol.
  setoid_rewrite run_alt. setoid_rewrite run_seq. setoid_rewrite run_set.
  setoid_rewrite run_group. setoid_rewrite plus_dot_run. setoid_rewrite run_empty. split.
  - intros (? & (? & (u & r & E & Hu & ->) & ->) & st2 & [(? & (c0 & r' & E1 & <-%N.eqb_eq & ->) &
      ? & (c & v & r2 & E2 & Hv & ->) & ->) | -> ] & E3 & ->);
      simpl in *; subst s; unfold consumed in *; simpl in *;
      rewrite ?Nat.sub_0_r, ?drop_app_length, ?take_app_length in *.
    + subst r. cbn in E2. rewrite drop_0 in E2. subst r'. cbn [drop] in E3.
      rewrite drop_app_length in E3. subst r2.
      exists u. split; [done|]. right. exists (c :: v). rewrite app_nil_r.
      split; [done|]. split; [done|]. split; [done|].
      replace (length u + 1 + S (length v) - (length u + 1)) with (length (c :: v)) by (simpl; lia).
      change (drop 1 (46%N :: c :: v)) with (c :: v). rewrite firstn_all.
      rewrite advance_app. unfold set_cap. cbn. rewrite length_app. simpl. f_equal; [lia|].
      by rewrite drop_all.
    + subst r. rewrite app_nil_r. exists u. split; [done|]. left. split; [done|].
      unfold set_cap, advance. simpl. by rewrite drop_all.
  - intros (u & Hu & [[-> ->]|(v & -> & Hv & Hl & ->)]).
    + exists (MState (length u) [] {[1 := u]}). split.
      * exists (MState (length u) [] ∅). split.
        -- exists u, []. simpl. rewrite app_nil_r. split; [done|]. split; [done|].
           unfold advance. simpl. by rewrite drop_all.
        -- unfold consumed. simpl. by rewrite Nat.sub_0_r, firstn_all.
      * eexists. split; [by right|]. done.
    + destruct v as [|c v]; [done|]. set (r := 46%N :: c :: v).
      exists (MState (length u) r {[1 := u]}). split.
      * exists (MState (length u) r ∅). split.
        -- exists u, r. split; [done|]. split; [done|]. by rewrite advance_app.
        -- unfold consumed. simpl. by rewrite Nat.sub_0_r, take_app_length.
      * exists (MState (length (u ++ r)) [] (<[2:=c :: v]> {[1 := u]})). split; [left|done].
        exists (MState (length u + 1) (c :: v) {[1 := u]}). split; [by exists 46%N, (c :: v)|].
        exists (MState (length (u ++ r)) [] {[1 := u]}). unfold r. split.
        -- exists c, v, []. rewrite app_nil_r. split; [done|]. split; [done|].
           unfold advance. simpl. rewrite length_app, drop_all. simpl. f_equal. lia.
        -- unfold consumed, set_cap. simpl. rewrite length_app. simpl. do 2 f_equal.
           replace (length u + S (S (length v)) - (length u + 1)) with (S (length v)) by lia.
           simpl. by rewrite firstn_all.
Qed.

Lemma parse_type_plain u : undotted u → parse_type u = (u, []).
Proof.
  intros Hu. unfold parse_type. destruct (exec rtypenamespace u) as [m|] eqn:E.
  - apply exec_bol_Some in E as (st' & H & _ & Hc & _). apply rtypenamespace_run in H as (w & Hw & H).
    unfold capture_str, capture. rewrite Hc. destruct H as [[-> ->]|(v & -> & _)]; [done|].
    destruct Hu. set_solver.
  - assert (Ht : test rtypenamespace u = true); [|by unfold test in Ht; rewrite E in Ht].
    apply test_bol_spec. eexists. apply rtypenamespace_run. exists u. split; [done|]. by left.
Qed.

Lemma dotted_unique u v u' v' :
  undotted u → undotted u' → u ++ 46%N :: v = u' ++ 46%N :: v' → u = u' ∧ v = v'.
Proof.
  revert u'. induction u as [|c u IH]; intros [|c' u'] Hu Hu' [=]; subst; [done|by destruct Hu'; left|by destruct Hu; left|].
  destruct (IH u') as [-> ->]; [| |done|done]; intros ?; [apply Hu|apply Hu']; by right.
Qed.

Lemma parse_type_dotted u v :
  undotted u → one_line v → parse_type (u ++ 46%N :: v) = if missing v then ([], []) else (u, v).
Proof.
  intros Hu Hv. unfold parse_type. destruct (exec rtypenamespace _) as [m|] eqn:E.
  - apply exec_bol_Some in E as (st' & H & _ & Hc & _). apply rtypenamespace_run in H as (w & Hw & H).
    unfold capture_str, capture. rewrite Hc. destruct H as [[Hs ->]|(v' & Hs & Hne & Hl & ->)].
    + subst w. destruct Hw. set_solver.
    + apply dotted_unique in Hs as [-> ->]; [|done|done]. by destruct v'.
  - destruct v as [|c v]; [done|].
    assert (Ht : test rtypenamespace (u ++ 46%N :: c :: v) = true);
      [|by unfold test in Ht; rewrite E in Ht].
    apply test_bol_spec. eexists. apply rtypenamespace_run. exists u. split; [done|]. right.
    by exists (c :: v).
Qed.

(** ** Namespaces *)

(** The texts [ns_body] matches. *)
Inductive body_text : list jsstr → jsstr → Prop :=
  | body_one n : body_text [n] n
  | body_next n ns w : body_text ns w → body_text (n :: ns) (n ++ 46%N :: w)
  | body_skip n ns y w :
      one_line y → body_text ns w → body_text (n :: ns) (n ++ 46%N :: y ++ 46%N :: w).

Lemma body_text_inv n n' ns w :
  body_text (n :: n' :: ns) w ↔
  ∃ v, (w = n ++ 46%N :: v ∨ ∃ y, one_line y ∧ w = n ++ 46%N :: y ++ 46%N :: v)
    ∧ body_text (n' :: ns) v.
Proof.
  split.
  - inversion 1; subst; eauto 6.
  - intros (v & [->|(y & Hy & ->)] & Hv); by constructor.
Qed.

Lemma eats_ns_dot : eats ns_dot (λ w, w = [46%N]).
Proof.
  eapply eats_iff, eats_set. intros w. split; [|naive_solver].
  intros (c & -> & Hc). apply N.eqb_eq in Hc. by subst.
Qed.

Lemma eats_ns_body ns : ns ≠ [] → eats (ns_body ns) (body_text ns).
Proof.
  induction ns as [|n [|n' ns] IH]; [done| |]; intros _.
  - eapply eats_iff, eats_lit. intros w. split; [intros ->; constructor|].
    inversion 1; subst; [done|..]; by match goal with H : body_text [] _ |- _ => inversion H end.
  - eapply eats_iff, (eats_seq _ _ _ _ (eats_lit n)), eats_seq, eats_seq, IH; [|apply eats_ns_dot| |done].
    2: { eapply eats_alt, eats_empty. apply eats_seq; [apply eats_star|apply eats_ns_dot]. }
    intros w. cbn beta. rewrite body_text_inv. split.
    + intros (? & ? & -> & -> & ? & ? & -> & -> & ? & v & -> & [(y & ? & -> & Hy & ->)| ->] & Hv);
        exists v; (split; [|done]); [right|by left].
      exists y. split; [|by rewrite <- (assoc_L (++))].
      eapply Forall_impl; [exact Hy|]. by intros c ?%negb_true_iff.
    + intros (v & Hw & Hv). exists n.
      destruct Hw as [->|(y & Hy & ->)].
      * exists (46%N :: v). split; [done|]. split; [done|]. exists [46%N], v. split; [done|].
        split; [done|]. exists [], v. split; [done|]. split; [by right|done].
      * exists (46%N :: y ++ 46%N :: v). split; [done|]. split; [done|].
        exists [46%N], (y ++ 46%N :: v). split; [done|]. split; [done|].
        exists (y ++ [46%N]), v. split; [by rewrite <- (assoc_L (++))|]. split; [|done]. left.
        exists y, [46%N]. split; [done|]. split; [|done].
        eapply Forall_impl; [exact Hy|]. by intros c ?%negb_true_iff.
Qed.

(** The pattern finds a text of its body between dots or ends of the string. *)
Lemma test_ns_regex ns s :
  ns ≠ [] →
  test (ns_regex ns) s = true ↔
  ∃ a w b, body_text ns w ∧
    ((∃ a', a = a' ++ [46%N]) ∨ a = []) ∧ ((∃ b', b = 46%N :: b') ∨ b = []) ∧ s = a ++ w ++ b.
Proof.
  intros Hns. rewrite test_spec. unfold ns_regex.
  setoid_rewrite run_seq. setoid_rewrite run_group. setoid_rewrite run_alt. setoid_rewrite run_bol.
  setoid_rewrite run_seq. setoid_rewrite run_group. setoid_rewrite run_alt.
  setoid_rewrite run_eol. setoid_rewrite (eats_ns_dot _ _). setoid_rewrite (eats_ns_body ns Hns _ _).
  split.
  - intros (k & st' & Hk & ? & (st1 & H1 & ->) & ? & (w & s2 & E2 & Hw & ->) & st3 & H3 & _).
    set (st2 := set_cap 1 _ st1) in *. assert (E3 : m_rest (advance (length w) st2) = s2).
    { unfold advance. simpl in *. rewrite E2. by rewrite drop_app_length. }
    assert (Hb : (∃ b', s2 = 46%N :: b') ∨ s2 = []).
    { destruct H3 as [(? & b' & E & -> & _)|[E _]]; rewrite E3 in E; [left; eauto|by right]. }
    assert (Ha : ∃ a, s = a ++ m_rest st1 ∧ ((∃ a', a = a' ++ [46%N]) ∨ a = [])).
    { destruct H1 as [[Hp ->]|(? & s1 & E & -> & ->)]; simpl in *.
      - subst k. exists []. rewrite drop_0. auto.
      - exists (take k s ++ [46%N]). rewrite E. cbn. rewrite drop_0. split; [|eauto].
        rewrite <- (assoc_L (++)). cbn. rewrite <- (take_drop k s) at 1. by rewrite E. }
    destruct Ha as (a & Hs & Ha). exists a, w, s2. split; [done|]. split; [done|]. split; [done|].
    rewrite Hs. f_equal. exact E2.
  - intros (a & w & b & Hw & Ha & Hb & ->).
    set (k := match a with [] => 0 | _ => length a - 1 end).
    set (st1 := MState (length a) (w ++ b) ∅).
    set (st2 := set_cap 1 (consumed (MState k (drop k (a ++ w ++ b)) ∅) st1) st1).
    set (st3 := advance (length w) st2).
    assert (E3 : m_rest st3 = b) by (unfold st3, advance; simpl; by rewrite drop_app_length).
    assert (H4 : ∃ st4, (∃ w s, m_rest st3 = w ++ s ∧ w = [46%N] ∧ st4 = advance (length w) st3)
      ∨ m_rest st3 = [] ∧ st4 = st3).
    { rewrite E3. destruct Hb as [[b' ->]| ->]; eexists; [left|by right]. by exists [46%N], b'. }
    destruct H4 as [st4 H4]. exists k, (set_cap 2 (consumed st3 st4) st4).
    split; [unfold k; destruct a; simpl; rewrite ?length_app; lia|]. exists st2. split.
    { exists st1. split; [|done].
      destruct Ha as [[a' ->]| ->]; [|by left]. right. exists [46%N], (w ++ b).
      assert (Hk : k = length a') by (unfold k; destruct a'; simpl; rewrite ?length_app; simpl; lia).
      simpl. rewrite Hk, <- (assoc_L (++)), drop_app_length. split; [done|]. split; [done|].
      unfold st1, advance. cbn. by rewrite drop_0, length_app. }
    exists st3. split; [by exists w, b|]. by exists st4.
Qed.

Lemma body_sublist ns w : Forall undotted ns → body_text ns w → ns `sublist_of` split_unit 46 w.
Proof.
  intros Hns Hb. induction Hb as [n|n ns w Hb IH|n ns y w Hy Hb IH]; inversion Hns; subst.
  - by rewrite split_unit_word.
  - rewrite split_unit_sep, split_unit_word by done. by apply sublist_skip, IH.
  - rewrite !split_unit_sep, split_unit_word by done.
    apply sublist_skip, sublist_inserts_l. by apply IH.
Qed.

Lemma join_app_cons l1 w l2 :
  join [46%N] (l1 ++ w :: l2) =
  (match l1 with [] => [] | _ => join [46%N] l1 ++ [46%N] end) ++ join [46%N] (w :: l2).
Proof.
  induction l1 as [|v l1 IH]; [done|]. cbn [app]. rewrite join_cons by by destruct l1.
  rewrite IH. destruct l1 as [|v' l1]; [by rewrite <- (assoc_L (++))|].
  rewrite (join_cons _ v) by done. by rewrite <- !(assoc_L (++)).
Qed.

Lemma sublist_body ns l :
  Forall one_line l → ns ≠ [] → ns `sublist_of` l →
  ∃ l1 m l2, l = l1 ++ m ++ l2 ∧ m ≠ [] ∧ body_text ns (join [46%N] m).
Proof.
  intros Hl Hns Hsub. induction Hsub as [|n ns l Hsub IH|w ns l Hsub IH]; [done| |];
    inversion Hl; subst.
  - destruct ns as [|n' ns].
    { exists [], [n], l. repeat split; [done|]. constructor. }
    destruct IH as (l1 & m & l2 & -> & Hm & Hb); [done..|].
    exists [], (n :: l1 ++ m), l2. split; [cbn; by rewrite <- (assoc_L (++))|]. split; [done|].
    destruct m as [|w m]; [done|]. rewrite join_cons by by destruct l1. rewrite join_app_cons.
    destruct l1 as [|w1 l1]; [by apply body_next|].
    rewrite <- (assoc_L (++)). apply body_skip; [|done].
    apply join_Forall; [by repeat constructor|]. by match goal with H : Forall one_line ((w1 :: l1) ++ _) |- _ => apply Forall_app in H as [? _] end.
  - destruct IH as (l1 & m & l2 & -> & Hm & Hb); [done..|]. by exists (w :: l1), m, l2.
Qed.

(** The pattern of the namespaces [ns] finds them, in their order, in [l]. *)
Lemma test_ns_join ns l :
  ns ≠ [] → l ≠ [] → Forall undotted ns → Forall undotted l → Forall one_line l →
  test (ns_regex ns) (join [46%N] l) = true ↔ ns `sublist_of` l.
Proof.
  intros Hns Hl Hdn Hdl Hol. rewrite test_ns_regex by done. split.
  - intros (a & w & b & Hw & Ha & Hb & Hs). apply body_sublist in Hw; [|done].
    rewrite <- (split_join_unit 46 l), Hs by done.
    assert (Hwb : ns `sublist_of` split_unit 46 (w ++ b)).
    { destruct Hb as [[b' ->]| ->]; [|by rewrite app_nil_r].
      rewrite split_unit_sep. by apply sublist_inserts_r. }
    destruct Ha as [[a' ->]| ->]; [|done]. rewrite <- (assoc_L (++)). cbn [app].
    rewrite split_unit_sep. by apply sublist_inserts_l.
  - intros (l1 & [|w m] & l2 & -> & Hm & Hb)%sublist_body; [done| |done|done].
    rewrite <- app_comm_cons, join_app_cons. exists (match l1 with [] => [] | _ => join [46%N] l1 ++ [46%N] end), (join [46%N] (w :: m)).
    exists (match l2 with [] => [] | _ => 46%N :: join [46%N] l2 end). split; [done|]. split.
    { destruct l1; [by right|left; eauto]. }
    split; [destruct l2; [by right|left; eauto]|]. f_equal.
    destruct l2 as [|w2 l2]; [by rewrite !app_nil_r|].
    rewrite (app_comm_cons m), join_app_cons, <- (assoc_L (++)). done.
Qed.

Lemma str_cmp_le s t : cmp_le str_cmp s t ↔ str_ltb t s = false.
Proof.
  unfold cmp_le, str_cmp. destruct (str_ltb s t) eqn:E; [|by destruct (str_ltb t s)].
  split; [|done]. intros _. by apply str_ltb_asym.
Qed.

Lemma str_cmp_antisym s t : cmp_le str_cmp s t → cmp_le str_cmp t s → s = t.
Proof. rewrite !str_cmp_le. intros ??. by apply str_ltb_total. Qed.

#[export] Instance str_cmp_consistent : Consistent str_cmp (λ _, True).
Proof.
  split.
  - intros s t _ _. unfold str_cmp. destruct (str_ltb s t) eqn:E; [left; lia|right].
    by destruct (str_ltb t s).
  - intros s t u _ _ _ Hst%str_cmp_le Htu%str_cmp_le. apply str_cmp_le.
    destruct (str_ltb u s) eqn:E; [|done].
    destruct (str_ltb t u) eqn:E2; [by rewrite (str_ltb_trans t u s) in Hst|].
    assert (t = u) as -> by (by apply str_ltb_total). congruence.
Qed.

Lemma namespaces_sorted ns : StronglySorted (cmp_le str_cmp) (namespaces_of ns).
Proof. apply (js_sort_sorted _ (λ _, True)). by apply Forall_true. Qed.
Lemma namespaces_perm ns : namespaces_of ns ≡ₚ split_unit 46 ns.
Proof. apply js_sort_perm. Qed.
Lemma namespaces_ne ns : namespaces_of ns ≠ [].
Proof.
  intros E. apply (split_on_ne (N.eqb 46) ns), Permutation_nil_r.
  by rewrite <- E, namespaces_perm.
Qed.

Lemma namespaces_parts ns : Forall undotted (namespaces_of ns).
Proof.
  rewrite namespaces_perm. eapply Forall_impl; [apply split_on_free|]. intros w Hw Hin.
  rewrite Forall_forall in Hw. specialize (Hw _ Hin). by rewrite N.eqb_refl in Hw.
Qed.

(** The pattern that [off] and [trigger] build from the namespaces of a type
    accepts a handler exactly when the handler has all of them (each as often as it
    is written), in whatever order either side wrote them.  Names are texts without
    line terminators. *)
Theorem namespaces_match (asked bound : jsstr) :
  one_line bound →
  test (ns_regex (namespaces_of asked)) (join [46%N] (namespaces_of bound)) = true
  ↔ split_unit 46 asked ⊆+ split_unit 46 bound.
Proof.
  intros Hb. rewrite test_ns_join.
  - rewrite <- (sorted_sublist (cmp_le str_cmp)), !namespaces_perm; [done| | |].
    + apply str_cmp_antisym.
    + apply namespaces_sorted.
    + apply namespaces_sorted.
  - apply namespaces_ne.
  - apply namespaces_ne.
  - apply namespaces_parts.
  - apply namespaces_parts.
  - rewrite namespaces_perm. by apply split_on_Forall.
Qed.

Lemma namespaces_match_witness :
  one_line (js "b.c.a") ∧
  (test (ns_regex (namespaces_of (js "c.b"))) (join [46%N] (namespaces_of (js "b.c.a"))) = true
   ↔ split_unit 46 (js "c.b") ⊆+ split_unit 46 (js "b.c.a")).
Proof.
  assert (H : one_line (js "b.c.a")) by (repeat constructor).
  split; [exact H|]. exact (namespaces_match (js "c.b") (js "b.c.a") H).
Defined.

(** ** Removing handlers *)

Definition delegated (h : handleObj) : bool := negb (missing (selector h)).
(** Delegates in front, and the counter counts them. *)
Definition queue_wf (q : queue) : Prop :=
  delegateCount q ≤ length (hs q) ∧
  Forall (λ h, delegated h = true) (take (delegateCount q) (hs q)) ∧
  Forall (λ h, delegated h = false) (drop (delegateCount q) (hs q)).

Lemma queue_wf_app q :
  queue_wf q ↔ ∃ ds us, hs q = ds ++ us ∧ delegateCount q = length ds ∧
    Forall (λ h, delegated h = true) ds ∧ Forall (λ h, delegated h = false) us.
Proof.
  split.
  - intros (Hc & Hd & Hu). exists (take (delegateCount q) (hs q)), (drop (delegateCount q) (hs q)).
    rewrite take_drop, length_take. repeat split; [lia|done|done].
  - intros (ds & us & E & Ec & Hd & Hu). unfold queue_wf.
    rewrite E, Ec, take_app_length, drop_app_length, length_app. repeat split; [lia|done|done].
Qed.

Definition keep (p : handleObj → bool) (l : list handleObj) : list handleObj :=
  base.filter (λ h, p h = false) l.

Lemma keep_app p l1 l2 : keep p (l1 ++ l2) = keep p l1 ++ keep p l2.
Proof. apply filter_app. Qed.

(** The loop that splices matches out keeps the others. *)
Lemma remove_loop_hs p j q :
  hs (remove_loop p j q) = keep p (take j (hs q)) ++ drop j (hs q).
Proof.
  revert q. induction j as [|j IH]; intros [l c]; [done|]. cbn [remove_loop hs]. rewrite IH.
  destruct (l !! j) as [h|] eqn:E; cbn [hs].
  - rewrite (take_S_r l j h E). rewrite keep_app, <- (assoc_L (++)).
    assert (Ek : keep p [h] = if p h then [] else [h]).
    { unfold keep. rewrite filter_cons, filter_nil. case_decide; by destruct (p h). }
    rewrite Ek. destruct (p h) eqn:Hp; cbn [hs].
    + assert (Hj : j < length l) by (by eapply lookup_lt_Some).
      rewrite delete_take_drop, take_app_le, drop_app_le, take_take, Nat.min_id
        by (rewrite length_take; lia).
      by rewrite (drop_ge (take j l)) by (rewrite length_take; lia).
    + by rewrite (drop_S l h j E).
  - apply lookup_ge_None in E. rewrite !drop_ge, !take_ge by lia. done.
Qed.

Lemma queue_wf_delete q j h :
  queue_wf q → hs q !! j = Some h →
  queue_wf (Queue (delete j (hs q))
    (if missing (selector h) then delegateCount q else delegateCount q - 1)).
Proof.
  intros (ds & us & E & Ec & Hd & Hu)%queue_wf_app Hj. rewrite E, Ec in *.
  assert (Hm : missing (selector h) = negb (delegated h)) by (unfold delegated; by destruct (missing _)).
  rewrite Hm. apply queue_wf_app. cbn [hs delegateCount]. destruct (decide (j < length ds)) as [Hl|Hl].
  - rewrite lookup_app_l in Hj by done. exists (delete j ds), us.
    rewrite (proj1 (Forall_lookup _ _) Hd j h Hj). simpl.
    split; [by rewrite delete_take_drop, take_app_le, drop_app_le, (assoc_L (++)), <- delete_take_drop by lia|].
    split; [by rewrite length_delete by eauto|]. split; [by apply Forall_delete|done].
  - rewrite lookup_app_r in Hj by lia. exists ds, (delete (j - length ds) us).
    rewrite (proj1 (Forall_lookup _ _) Hu _ _ Hj). simpl.
    split; [|split; [done|split; [done|by apply Forall_delete]]].
    replace j with (length ds + (j - length ds)) at 1 by lia.
    rewrite !delete_take_drop, take_app_add. rewrite <- (assoc_L (++)). do 2 f_equal.
    replace (S (length ds + (j - length ds))) with (length ds + S (j - length ds)) by lia.
    by rewrite drop_app_add.
Qed.

Lemma remove_loop_wf p j q : queue_wf q → queue_wf (remove_loop p j q).
Proof.
  revert q. induction j as [|j IH]; intros q Hq; [done|]. cbn [remove_loop]. apply IH.
  destruct (hs q !! j) eqn:E; [|done]. destruct (p _); [|done]. by apply queue_wf_delete.
Qed.

Lemma remove_loop_all p q : hs (remove_loop p (length (hs q)) q) = keep p (hs q).
Proof. by rewrite remove_loop_hs, take_ge, drop_ge, app_nil_r. Qed.

Lemma enqueue_wf h sel q :
  missing sel = missing (selector h) → queue_wf q → queue_wf (enqueue h sel q).
Proof.
  intros Hs (ds & us & E & Ec & Hd & Hu)%queue_wf_app. apply queue_wf_app. unfold enqueue.
  rewrite Hs, E, Ec. assert (Hm : delegated h = negb (missing (selector h))) by done.
  destruct (missing (selector h)); cbn [hs delegateCount].
  - exists ds, (us ++ [h]). rewrite (assoc_L (++)). repeat split; [done|].
    apply Forall_app. by repeat constructor.
  - exists (ds ++ [h]), us. rewrite take_app_length, drop_app_length, <- (assoc_L (++)), length_app.
    repeat split; [simpl; lia| |done]. apply Forall_app. by repeat constructor.
Qed.

(** ** The invariant of an element *)

(** A special event that does its own teardown is not renamed to one that leaves the
    listening to the library. *)
Class TeardownKept (special : jsstr → hooks) : Prop :=
  teardown_kept : ∀ sel t, own_setup (special t) = true → own_setup (special (real_type special sel t)) = true.

Section invariant.
Context `{RE : RegExpConstructor}.
Variable special : jsstr → hooks.
Context `{TK : !TeardownKept special}.
Variable needs_context : jsstr → bool.
Implicit Types e : element.

(** The namespace of a handler: sorted names of one line, joined. *)
Definition named (h : handleObj) : Prop := ∃ ns, one_line ns ∧ namespace h = join [46%N] (namespaces_of ns).
Definition typed (ty : jsstr) (h : handleObj) : Prop :=
  type h = ty ∧ ty = real_type special (selector h) (origType h) ∧ named h.

Record element_wf e : Prop := {
  wf_keys : obj_wf (table e);
  wf_queues : ∀ ty q, obj_get ty (table e) = Some q →
    queue_wf q ∧ hs q ≠ [] ∧ Forall (typed ty) (hs q);
  wf_handle : table e ≠ [] → handle e = true;
  wf_events : handle e = true → is_Some (events e);
  wf_once : NoDup (listening e);
  wf_listens : ∀ t, t ∈ listening e ↔
    own_setup (special t) = false ∧ is_Some (obj_get t (table e));
}.

Lemma enqueue_ne h sel q : hs (enqueue h sel q) ≠ [].
Proof.
  unfold enqueue. destruct (missing sel); cbn [hs].
  - by destruct (hs q).
  - by destruct (take _ _).
Qed.

Lemma enqueue_Forall (P : handleObj → Prop) h sel q : P h → Forall P (hs q) → Forall P (hs (enqueue h sel q)).
Proof.
  intros Hh Hq. unfold enqueue. destruct (missing sel); cbn [hs].
  - apply Forall_app. by repeat constructor.
  - apply Forall_app. split; [by apply Forall_take|]. constructor; [done|by apply Forall_drop].
Qed.

(** One handler put into the queue of a type, which is made when there is none. *)
Lemma set_queue_wf e e' ty q :
  element_wf e → handle e = true →
  table e' = obj_set ty q (table e) → handle e' = true →
  queue_wf q → hs q ≠ [] → Forall (typed ty) (hs q) →
  NoDup (listening e') →
  (∀ t, t ∈ listening e' ↔ t ∈ listening e ∨ t = ty ∧ own_setup (special ty) = false) →
  element_wf e'.
Proof.
  intros He Hh Ht Hh' Hq Hne Hty Hnd Hl. split.
  - rewrite Ht. apply obj_set_wf, He.
  - intros t q'. rewrite Ht, obj_get_set. case_decide as Hd; [|apply He].
    intros [= <-]. by subst t.
  - done.
  - intros _. destruct (events e') as [|] eqn:E; [done|]. exfalso.
    unfold table in Ht at 1. rewrite E in Ht. by eapply obj_set_ne.
  - done.
  - intros t. rewrite Hl, (wf_listens e He), Ht, obj_get_set. case_decide as Hd.
    + subst t. split; [|by intros [Hs _]; right]. intros [[? _]|[_ ?]]; eauto.
    + split; [intros [?|[? _]]; done|by left].
Qed.

Lemma addEventListener_spec t e :
  NoDup (listening e) →
  NoDup (listening (addEventListener t e)) ∧
  ∀ u, u ∈ listening (addEventListener t e) ↔ u ∈ listening e ∨ u = t.
Proof.
  intros Hnd. unfold addEventListener. cbn [listening]. case_bool_decide as Hin.
  - split; [done|]. intros u. split; [by left|]. by intros [?| ->].
  - split; [apply NoDup_app; split; [done|]; split; [set_solver|apply NoDup_singleton]|].
    intros u. by rewrite elem_of_app, list_elem_of_singleton.
Qed.

Lemma table_set t e : table (set_table t e) = t.
Proof. done. Qed.
Lemma table_listen t e : table (addEventListener t e) = table e.
Proof. done. Qed.

(** What [add] makes of one type. *)
Definition new_handler (f : fn) (i : nat) (d : option nat) (sel orig ns : jsstr) : handleObj :=
  HandleObj (real_type special sel orig) orig d f i sel
    (negb (missing sel) && needs_context sel) (join [46%N] (namespaces_of ns)).

Lemma add_type_table f i d sel inn e g t orig ns :
  parse_type t = (orig, ns) → orig ≠ [] →
  let ty := real_type special sel orig in
  let q := default (Queue [] 0) (obj_get ty (table e)) in
  let r := (add_type special needs_context f i d sel inn (e, g) t).1 in
  table r = obj_set ty (enqueue (default (new_handler f i d sel orig ns) inn) sel q) (table e) ∧
  handle r = handle e ∧ acceptData r = acceptData e ∧
  listening r = if obj_has ty (table e) || own_setup (special ty) then listening e
    else listening (addEventListener ty e).
Proof.
  intros Hp Ho. cbv zeta. unfold add_type. rewrite Hp. destruct orig as [|c orig]; [done|]. cbn [missing].
  fold (new_handler f i d sel (c :: orig) ns).
  set (ty := real_type special sel (c :: orig)). set (h := default _ inn). unfold obj_has.
  destruct (obj_get ty (table e)) as [q|] eqn:E; cbn [default fst].
  - by rewrite E.
  - destruct (own_setup (special ty)) eqn:Es; rewrite ?table_set, ?table_listen, ?table_set, obj_get_set,
      decide_True, obj_set_set by done; done.
Qed.

Lemma parse_type_line t orig ns : parse_type t = (orig, ns) → one_line ns.
Proof.
  unfold parse_type. destruct (exec rtypenamespace t) as [m|] eqn:E; [|intros [= _ <-]; constructor].
  apply exec_bol_Some in E as (st' & Hst & _ & Hc & _). apply rtypenamespace_run in Hst as (w & Hw & Hst).
  unfold capture_str, capture. rewrite Hc. destruct Hst as [[-> ->]|(v & -> & _ & Hv & ->)]; intros [= _ <-];
    [constructor|done].
Qed.
Lemma new_handler_typed f i d sel orig ns :
  one_line ns → typed (real_type special sel orig) (new_handler f i d sel orig ns).
Proof. intros Hns. split; [done|]. split; [done|]. by exists ns. Qed.

Lemma add_type_wf f i d sel e g t :
  element_wf e → handle e = true →
  let r := (add_type special needs_context f i d sel None (e, g) t).1 in
  element_wf r ∧ handle r = true.
Proof.
  intros He Hh. cbv zeta. destruct (parse_type t) as [orig ns] eqn:Hp.
  destruct (decide (orig = [])) as [->|Ho]; [unfold add_type; by rewrite Hp|].
  destruct (add_type_table f i d sel None e g t orig ns Hp Ho) as (Ht & Hr & _ & Hl).
  split; [|by rewrite Hr]. set (ty := real_type special sel orig) in *.
  assert (Hq : queue_wf (default (Queue [] 0) (obj_get ty (table e))) ∧
    Forall (typed ty) (hs (default (Queue [] 0) (obj_get ty (table e))))).
  { destruct (obj_get ty (table e)) as [q|] eqn:E; [|split; [by repeat constructor|constructor]].
    destruct (wf_queues e He ty q E) as (? & _ & ?). done. }
  eapply (set_queue_wf e _ ty); [done|done|exact Ht|by rewrite Hr| | | | |].
  - apply enqueue_wf; [done|apply Hq].
  - apply enqueue_ne.
  - apply enqueue_Forall; [|apply Hq]. eapply new_handler_typed, parse_type_line, Hp.
  - rewrite Hl. destruct (_ || _); [apply He|]. apply addEventListener_spec, He.
  - intros u. rewrite Hl. destruct (obj_has ty (table e)) eqn:Eh; cbn [orb].
    + split; [by left|]. intros [?|[-> Hs]]; [done|]. apply (wf_listens e He). split; [done|].
      by apply obj_get_keys, obj_has_true.
    + destruct (own_setup (special ty)) eqn:Es; [naive_solver|].
      rewrite (proj2 (addEventListener_spec ty e (wf_once e He))). naive_solver.
Qed.

Lemma add_wf types f d sel e g :
  element_wf e → element_wf (add special needs_context types f d sel None e g).1.
Proof.
  intros He. unfold add. destruct (acceptData e); [|done]. destruct (guid_of f g) as [i g'].
  set (e0 := Element true (Some (table e)) true (listening e)).
  assert (H0 : element_wf e0 ∧ handle e0 = true).
  { split; [|done]. destruct He. by split. }
  generalize (type_words types) as ts. clearbody e0. revert e0 H0 g'. clear He.
  intros e0 H0 g' ts. revert e0 H0 g'. induction ts as [|t ts IH]; intros e0 [H0 Hh] g'; [done|].
  cbn [foldl]. destruct (add_type special needs_context f i d sel None (e0, g') t) as [e1 g1] eqn:E.
  apply IH. pose proof (add_type_wf f i d sel e0 g' t H0 Hh) as H1. by rewrite E in H1.
Qed.

(** Removal from one type: the handlers that are not hit stay; the type goes, and
    its listener with it, when none are left. *)
Lemma remove_type_table mapped by_ sel orig tmp e :
  element_wf e →
  let ty := real_type special sel orig in
  let r := remove_type special mapped by_ sel orig tmp e in
  let l := hs (default (Queue [] 0) (obj_get ty (table e))) in
  let l' := keep (hit mapped orig by_ tmp sel) l in
  match l' with
  | [] =>
      table r = obj_delete ty (table e) ∧
      listening r = (if obj_has ty (table e) && negb (own_setup (special ty))
        then base.filter (λ u, u ≠ ty) (listening e) else listening e)
  | _ =>
      listening r = listening e ∧
      ∃ c, table r = obj_set ty (Queue l' c) (table e) ∧ queue_wf (Queue l' c)
  end ∧ handle r = handle e ∧ (is_Some (events e) → is_Some (events r)).
Proof.
  intros He. cbv zeta. unfold remove_type, obj_has. set (ty := real_type special sel orig).
  destruct (obj_get ty (table e)) as [q|] eqn:E; cbn [from_option id].
  - destruct (wf_queues e He ty q E) as (Hq & Hne & _).
    pose proof (remove_loop_all (hit mapped orig by_ tmp sel) q) as Hk.
    pose proof (remove_loop_wf (hit mapped orig by_ tmp sel) (length (hs q)) q Hq) as Hw.
    destruct (remove_loop _ _ q) as [l' c]. cbn [hs] in Hk. subst l'.
    destruct (hs q) as [|h0 l0] eqn:Eq; [done|]. cbn [hs]. rewrite <- Eq in *.
    destruct (keep _ (hs q)) as [|h l] eqn:El.
    + split; [|split; [by destruct (own_setup _)|by destruct (own_setup _)]].
      destruct (own_setup (special orig)) eqn:Eo.
      { assert (Es : own_setup (special ty) = true) by (by apply teardown_kept). by rewrite Es. }
      split; [done|]. destruct (own_setup (special ty)) eqn:Es; [|done]. cbn.
      apply list_filter_all. intros u Hu ->. apply (wf_listens e He) in Hu as [? _]. congruence.
    + split; [|split; [done|by intros _]]. split; [done|]. exists c. by rewrite table_set.
  - split; [|done]. cbn. split; [|done]. symmetry. by apply obj_delete_absent.
Qed.

Lemma remove_type_wf mapped by_ sel orig tmp e :
  element_wf e → element_wf (remove_type special mapped by_ sel orig tmp e).
Proof.
  intros He. pose proof (remove_type_table mapped by_ sel orig tmp e He) as H. cbv zeta in H.
  set (ty := real_type special sel orig) in *. set (r := remove_type _ _ _ _ _ _ _) in *.
  set (l := hs (default _ _)) in *. destruct (keep _ l) as [|h l'] eqn:El.
  - destruct H as ((Ht & Hl) & Hh & Hs). split; rewrite ?Ht.
    + apply obj_delete_wf, He.
    + intros t q. rewrite obj_get_delete. case_decide; [done|apply He].
    + intros Hne. rewrite Hh. apply (wf_handle e He). by intros E; rewrite E in Hne.
    + rewrite Hh. intros Hx. by apply Hs, (wf_events e He).
    + rewrite Hl. destruct (_ && _); [|apply He]. apply NoDup_filter, He.
    + intros t. rewrite obj_get_delete, Hl. destruct (decide (t = ty)) as [->|Hne].
      * split; [|by intros [_ [? ?]]]. destruct (obj_has ty (table e)) eqn:Eh.
        -- destruct (own_setup (special ty)) eqn:Es; simpl.
           ++ intros [? _]%(wf_listens e He). congruence.
           ++ by intros [? _]%list_elem_of_filter.
        -- simpl. intros [_ Hk]%(wf_listens e He). apply obj_get_keys, obj_has_true in Hk. congruence.
      * rewrite <- (wf_listens e He). destruct (_ && _); [|done].
        rewrite list_elem_of_filter. split; [by intros [_ ?]|by split].
  - destruct H as ((Hl & c & Ht & Hq) & Hh & Hs).
    destruct (obj_get ty (table e)) as [q|] eqn:E; [|by unfold l in El].
    destruct (wf_queues e He ty q E) as (_ & _ & Hty).
    assert (He' : handle e = true) by (apply (wf_handle e He); by intros Et; rewrite Et in E).
    eapply (set_queue_wf e r ty); [done|done|exact Ht|by rewrite Hh|done|done| | |].
    + cbn [hs]. rewrite <- El. apply Forall_forall. intros x [_ Hx]%list_elem_of_filter.
      by eapply (proj1 (Forall_forall _ _) Hty).
    + rewrite Hl. apply He.
    + intros t. rewrite Hl. split; [by left|]. intros [?|[-> ?]]; [done|].
      apply (wf_listens e He). by rewrite E.
Qed.

Lemma drop_empty_wf e : element_wf e → element_wf (drop_empty e).
Proof.
  intros He. unfold drop_empty. destruct (table e) as [|kq t] eqn:E; [|done].
  split; try done; [apply NoDup_nil_2|apply He|].
  intros t. change (listening _) with (listening e). by rewrite (wf_listens e He), E.
Qed.

(** A fold of removals keeps what each of them keeps. *)
Definition ok_and {E} (P : E → Prop) (r : outcome E) : Prop :=
  match r with Ok e => P e | Throw _ => True end.
Lemma foldl_ok_and {E A} (P : E → Prop) (f : outcome E → A → outcome E) l r :
  (∀ r a, ok_and P r → ok_and P (f r a)) → ok_and P r → ok_and P (foldl f r l).
Proof. intros Hf. revert r. induction l as [|a l IH]; intros r Hr; [done|]. by apply IH, Hf. Qed.

Lemma remove_wf stack mapped by_ sel types e :
  element_wf e → ok_and element_wf (remove special stack mapped by_ sel types e).
Proof.
  revert mapped types e. induction stack as [|stack IH]; intros mapped types e He; [done|].
  cbn [remove]. destruct (events e); [|done].
  match goal with |- context [foldl ?f (Ok e) ?l] => assert (H : ok_and element_wf (foldl f (Ok e) l)) end.
  { apply foldl_ok_and; [|done]. intros [e1|x] t H1; [|done].
    destruct (parse_type t) as [orig ns]. destruct (missing orig); [|by destruct (type_pattern ns); [apply remove_type_wf|]].
    apply foldl_ok_and; [|done]. intros [e2|x] k H2; [|done].
    destruct (obj_has k (table e2)); [by apply IH|done]. }
  destruct (foldl _ _ _) as [e1|x]; [|done]. by apply drop_empty_wf.
Qed.

(** ** One type at a time *)

(** The handlers of a type, in the order in which they are kept. *)
Definition handlers_of (ty : jsstr) (e : element) : list handleObj :=
  hs (default (Queue [] 0) (obj_get ty (table e))).
Definition spaceless (s : jsstr) : Prop := Forall (λ c, is_space c = false) s.

Lemma type_words_one t : t ≠ [] → spaceless t → type_words t = [t].
Proof.
  intros Ht Hs. unfold type_words, Callbacks.words. rewrite split_on_word by done.
  by rewrite filter_cons, decide_True, filter_nil by done.
Qed.

Lemma space_line_term c : is_space c = false → is_line_term c = false.
Proof.
  clear TK special needs_context.
  unfold is_space, is_line_term. intros [H _]%orb_false_iff.
  apply existsb_false. intros x Hx. rewrite existsb_false in H. apply H. set_solver.
Qed.

Lemma spaceless_one_line s : spaceless s → one_line s.
Proof. intros H. eapply Forall_impl; [exact H|]. apply space_line_term. Qed.

Lemma table_drop_empty e : table (drop_empty e) = table e.
Proof. unfold drop_empty. by destruct (table e) eqn:E. Qed.

Lemma listening_drop_empty e : listening (drop_empty e) = listening e.
Proof. unfold drop_empty. by destruct (table e). Qed.

(** Names without pattern syntax. *)
Definition plain (ns : jsstr) : Prop := plain_names (namespaces_of ns) = true.
(** The pattern of plain namespaces. *)
Definition wanted_pattern (ns : jsstr) : option regex :=
  if missing ns then None else Some (ns_regex (namespaces_of ns)).
Lemma type_pattern_plain ns : plain ns → type_pattern ns = Ok (wanted_pattern ns).
Proof. intros Hns. unfold type_pattern, wanted_pattern, ns_pattern. rewrite Hns. by destruct (missing ns). Qed.

Lemma remove_one_type stack mapped by_ sel t orig ns e :
  is_Some (events e) → t ≠ [] → spaceless t → parse_type t = (orig, ns) → orig ≠ [] → plain ns →
  remove special (S stack) mapped by_ sel t e
  = Ok (drop_empty (remove_type special mapped by_ sel orig (wanted_pattern ns) e)).
Proof.
  intros [t0 Hev] Ht Hs Hp Ho Hpl. cbn [remove]. rewrite Hev, type_words_one by done.
  cbn [foldl]. rewrite Hp. destruct orig; [done|]. cbn [missing]. by rewrite type_pattern_plain.
Qed.

Lemma remove_type_handlers mapped by_ sel orig tmp e ty :
  element_wf e →
  handlers_of ty (remove_type special mapped by_ sel orig tmp e) =
  if decide (ty = real_type special sel orig)
  then keep (hit mapped orig by_ tmp sel) (handlers_of ty e) else handlers_of ty e.
Proof.
  intros He. pose proof (remove_type_table mapped by_ sel orig tmp e He) as H. cbv zeta in H.
  unfold handlers_of. destruct (decide _) as [->|Hne].
  - destruct (keep _ _) as [|h l'] eqn:El.
    + destruct H as ((-> & _) & _). by rewrite obj_get_delete, decide_True.
    + destruct H as ((_ & c & -> & _) & _). by rewrite obj_get_set, decide_True.
  - destruct (keep _ _) as [|h l'].
    + destruct H as ((-> & _) & _). by rewrite obj_get_delete, decide_False.
    + destruct H as ((_ & c & -> & _) & _). by rewrite obj_get_set, decide_False.
Qed.

Lemma keep_id p l : Forall (λ h, p h = false) l → keep p l = l.
Proof. intros H. apply list_filter_all. by apply Forall_forall. Qed.

(** What [off] asks of a handler: the type as it was written, the guid if a handler was
    given, all the namespaces if there are any, whatever their order, and the selector if
    there is one, where two stars stand for every selector. *)
Definition removes (orig : jsstr) (by_ : option (option nat)) (ns sel : jsstr) (h : handleObj) : Prop :=
  origType h = orig ∧
  (by_ = None ∨ by_ = Some (Some (guid h))) ∧
  (ns = [] ∨ split_unit 46 ns ⊆+ split_unit 46 (namespace h)) ∧
  (sel = [] ∨ selector h = sel ∨ sel = js "**" ∧ selector h ≠ []).
#[export] Instance removes_dec orig by_ ns sel h : Decision (removes orig by_ ns sel h).
Proof. unfold removes. apply _. Defined.

Lemma named_match ns h :
  named h → test (ns_regex (namespaces_of ns)) (namespace h) = true ↔ split_unit 46 ns ⊆+ split_unit 46 (namespace h).
Proof.
  intros (b & Hb & ->). rewrite namespaces_match by done.
  by rewrite (split_join_unit 46 (namespaces_of b)), (namespaces_perm b) by (apply namespaces_ne || apply namespaces_parts).
Qed.
Lemma hit_removes orig by_ ns sel h :
  named h → hit false orig by_ (wanted_pattern ns) sel h = true ↔ removes orig by_ ns sel h.
Proof.
  clear TK special needs_context.
  intros Hn. unfold hit, removes, wanted_pattern, str_eqb. rewrite !andb_true_iff. cbn [orb].
  rewrite bool_decide_eq_true.
  assert (Hby : match by_ with None => true | Some i => bool_decide (i = Some (guid h)) end = true ↔
    (by_ = None ∨ by_ = Some (Some (guid h)))).
  { destruct by_ as [i|]; [rewrite bool_decide_eq_true|]; naive_solver. }
  assert (Hns : match (if missing ns then None else Some (ns_regex (namespaces_of ns))) with
    | None => true | Some r => test r (namespace h) end = true ↔ (ns = [] ∨ split_unit 46 ns ⊆+ split_unit 46 (namespace h))).
  { destruct ns as [|c ns]; cbn [missing]; [by split; [left|]|]. rewrite named_match by done. naive_solver. }
  assert (Hsel : missing sel || bool_decide (sel = selector h) || bool_decide (sel = js "**") && negb (missing (selector h)) = true ↔
    (sel = [] ∨ selector h = sel ∨ sel = js "**" ∧ selector h ≠ [])).
  { rewrite !orb_true_iff, andb_true_iff, !bool_decide_eq_true. destruct sel, (selector h); cbn; naive_solver. }
  rewrite Hby, Hns, Hsel. naive_solver.
Qed.
Lemma keep_hit orig by_ ns sel l :
  Forall named l → keep (hit false orig by_ (wanted_pattern ns) sel) l = base.filter (λ h, ¬ removes orig by_ ns sel h) l.
Proof.
  clear TK special needs_context.
  induction 1 as [|h l Hh _ IH]; [done|]. unfold keep in *. rewrite !filter_cons, IH. pose proof (hit_removes orig by_ ns sel h Hh).
  destruct (decide (removes orig by_ ns sel h)) as [Hr|Hr].
  - rewrite (proj2 H Hr), !decide_False by (done || tauto). done.
  - rewrite !decide_True by (done || (apply not_true_is_false; tauto)). done.
Qed.
Lemma handlers_named ty e : element_wf e → Forall named (handlers_of ty e).
Proof.
  intros He. unfold handlers_of. destruct (obj_get ty (table e)) as [q|] eqn:E; [|constructor].
  destruct (wf_queues e He ty q E) as (_ & _ & Ht). eapply Forall_impl; [exact Ht|]. by intros h (_ & _ & ?).
Qed.

(** C21: [off("click.ns", selector, handler)] removes from the queue of the (renamed)
    type exactly the handlers bound under that type that have the handler's guid, all
    the namespaces and the selector; the others stay in their order, and so do
    the handlers of all other types.  One call deep is enough.  The namespaces that are
    asked for have no pattern syntax in them. *)
Theorem off_removes stack by_ sel t orig ns e :
  element_wf e → t ≠ [] → spaceless t → parse_type t = (orig, ns) → orig ≠ [] → plain ns →
  ∃ e', remove special (S stack) false by_ sel t e = Ok e' ∧ element_wf e' ∧
    ∀ ty, handlers_of ty e' =
      if decide (ty = real_type special sel orig)
      then base.filter (λ h, ¬ removes orig by_ ns sel h) (handlers_of ty e)
      else handlers_of ty e.
Proof.
  intros He Ht Hs Hp Ho Hpl. destruct (events e) as [tb|] eqn:Hev.
  - eexists. split; [by apply remove_one_type|]. split; [by apply drop_empty_wf, remove_type_wf|].
    intros ty. unfold handlers_of at 1. rewrite table_drop_empty.
    fold (handlers_of ty (remove_type special false by_ sel orig (wanted_pattern ns) e)).
    rewrite remove_type_handlers, keep_hit by (done || by apply handlers_named). done.
  - exists e. cbn [remove]. rewrite Hev. split; [done|]. split; [done|]. intros ty.
    unfold handlers_of, table. rewrite Hev. by case_decide.
Qed.

(** Pattern syntax in a namespace is read as such: [off("click.(")] throws when [RegExp]
    refuses the source. *)
Lemma off_pattern_throws stack by_ sel t orig ns e x :
  events e ≠ None → t ≠ [] → spaceless t → parse_type t = (orig, ns) → orig ≠ [] → ns ≠ [] →
  plain_names (namespaces_of ns) = false → RegExp (ns_source (namespaces_of ns)) = Throw x →
  remove special (S stack) false by_ sel t e = Throw x.
Proof.
  intros Hev Ht Hs Hp Ho Hns Hpl Hx. cbn [remove]. destruct (events e) as [tb|]; [|done].
  rewrite type_words_one by done. cbn [foldl]. rewrite Hp. destruct orig; [done|]. cbn [missing].
  unfold type_pattern, ns_pattern. rewrite Hpl, Hx. by destruct ns.
Qed.

Definition plain_keys e : Prop :=
  Forall (λ k, k ≠ [] ∧ undotted k ∧ spaceless k) (obj_keys (table e)).

(** A type that ends in a dot has no name and no namespace, so [off("click.")]
    calls itself for every bound type with a longer type of the same form, without
    end: on an element with handlers it throws whatever the size of the call stack,
    where [off("click")] removes and [on("click.", f)] is ignored. *)
Theorem remove_trailing_dot stack mapped by_ sel t e :
  plain_keys e → table e ≠ [] → undotted t → spaceless t →
  remove special stack mapped by_ sel (t ++ [46%N]) e = Throw RangeError ∧
  ∀ f d g, table (on special needs_context 0 (t ++ [46%N]) sel d (FnFun f) false e g).1 = table e.
Proof.
  intros Hk Hne Hu Hs.
  assert (Hw : ∀ u, spaceless u → type_words (u ++ [46%N]) = [u ++ [46%N]]).
  { intros u Hu'. apply type_words_one; [by destruct u|]. apply Forall_app. by repeat constructor. }
  assert (Hp : ∀ u, undotted u → parse_type (u ++ [46%N]) = ([], [])).
  { intros u Hu'. apply (parse_type_dotted u []); [done|constructor]. }
  split.
  - revert mapped t Hu Hs. induction stack as [|stack IH]; intros mapped t Hu Hs; [done|].
    cbn [remove]. destruct (events e) as [tb|] eqn:Hev; [|by unfold table in Hne; rewrite Hev in Hne].
    rewrite Hw by done. cbn [foldl]. rewrite Hp by done. cbn [missing].
    unfold plain_keys in Hk. destruct (obj_keys (table e)) as [|k ks] eqn:Ek.
    { unfold obj_keys in Ek. by apply fmap_nil_inv in Ek. }
    apply Forall_cons in Hk as [(Hk0 & Hku & Hks) _]. cbn [foldl].
    assert (Hhas : obj_has k (table e) = true) by (apply obj_has_true; rewrite Ek; by left).
    rewrite Hhas, (assoc_L (++)), IH.
    + clear. by induction ks as [|k' ks IHk].
    + unfold undotted. rewrite not_elem_of_app. by split.
    + apply Forall_app. by split.
  - intros f d g. unfold on, add. destruct (acceptData e); [|done]. destruct (guid_of _ g) as [i g'].
    rewrite Hw by done. cbn [foldl]. unfold add_type. by rewrite Hp.
Qed.

(** The counter is a function of the list. *)
Lemma queue_wf_count q : queue_wf q → delegateCount q = length (base.filter (λ h, delegated h = true) (hs q)).
Proof.
  intros (ds & us & -> & -> & Hd & Hu)%queue_wf_app. rewrite filter_app, list_filter_all.
  - assert (E : base.filter (λ h, delegated h = true) us = []); [|by rewrite E, app_nil_r].
    clear -Hu. induction Hu as [|h us Hh Hu IH]; [done|]. by rewrite filter_cons, decide_False by congruence.
  - by apply Forall_forall.
Qed.

Lemma queue_eq q1 q2 : queue_wf q1 → queue_wf q2 → hs q1 = hs q2 → q1 = q2.
Proof.
  intros H1%queue_wf_count H2%queue_wf_count Hh. destruct q1 as [l1 c1], q2 as [l2 c2].
  simpl in *. subst. done.
Qed.

Lemma keep_enqueue p h sel q :
  p h = true → Forall (λ x, p x = false) (hs q) → keep p (hs (enqueue h sel q)) = hs q.
Proof.
  intros Hh Hq. assert (Hkh : ∀ l, keep p (h :: l) = keep p l).
  { intros l. unfold keep. rewrite filter_cons, decide_False by congruence. done. }
  unfold enqueue. destruct (missing sel); cbn [hs]; rewrite keep_app, Hkh.
  - rewrite keep_id by done. by rewrite app_nil_r.
  - rewrite <- keep_app, take_drop. by apply keep_id.
Qed.

Lemma dotted_or_not t : undotted t ∨ ∃ u v, t = u ++ 46%N :: v ∧ undotted u.
Proof.
  induction t as [|c t IH]; [left; by intros ?%elem_of_nil|].
  destruct (decide (c = 46%N)) as [->|Hc]; [right; exists [], t; split; [done|by intros ?%elem_of_nil]|].
  destruct IH as [Hu|(u & v & -> & Hu)].
  - left. by intros [?|?]%elem_of_cons.
  - right. exists (c :: u), v. split; [done|]. by intros [?|?]%elem_of_cons.
Qed.

Lemma parse_type_inv t orig ns :
  spaceless t → parse_type t = (orig, ns) → orig ≠ [] → undotted orig ∧ spaceless orig ∧ spaceless ns.
Proof.
  intros Hs Hp Ho. destruct (dotted_or_not t) as [Hu|(u & v & -> & Hu)].
  - rewrite parse_type_plain in Hp by done. injection Hp as <- <-. repeat split; [done|done|constructor].
  - apply Forall_app in Hs as [Hsu [_ Hsv]%Forall_cons].
    rewrite parse_type_dotted in Hp by (done || by apply spaceless_one_line).
    destruct (missing v); injection Hp as <- <-; done.
Qed.

Lemma hit_new f i d sel orig ns :
  spaceless ns → hit false orig (Some (Some i)) (wanted_pattern ns) sel (new_handler f i d sel orig ns) = true.
Proof.
  intros Hn%spaceless_one_line. apply hit_removes; [by exists ns|]. repeat split; [by right| |auto].
  right. cbn [new_handler namespace].
  by rewrite (split_join_unit 46 (namespaces_of ns)), (namespaces_perm ns) by (apply namespaces_ne || apply namespaces_parts).
Qed.

Lemma hit_guid mapped orig i tmp sel h : guid h ≠ i → hit mapped orig (Some (Some i)) tmp sel h = false.
Proof.
  intros Hg. unfold hit. rewrite bool_decide_false by congruence. by rewrite andb_false_r.
Qed.

Lemma guid_of_lookup p g : fn_guid (guid_of (Fn p false) g).2 !! p = Some (guid_of (Fn p false) g).1.
Proof. unfold guid_of. simpl. destruct (fn_guid g !! p) eqn:E; [done|]. apply lookup_insert_eq. Qed.

Lemma add_type_guids f i d sel inn e g t :
  fn_guid (add_type special needs_context f i d sel inn (e, g) t).2 = fn_guid g.
Proof. unfold add_type. destruct (parse_type t) as [orig ns]. by destruct (missing orig). Qed.

(** [off] with the arguments of [on] undoes it: for a handler that was not bound
    under that type, the handlers, their order, the counters and the native
    listeners are what they were before. *)
Theorem off_undoes_on stack t sel orig ns p d e g :
  element_wf e → acceptData e = true →
  t ≠ [] → spaceless t → parse_type t = (orig, ns) → orig ≠ [] → plain ns →
  (∀ h, h ∈ handlers_of (real_type special sel orig) e →
     guid h ≠ (guid_of (Fn p false) g).1) →
  let '(e1, g1) := on special needs_context 0 t sel d (FnFun p) false e g in
  ∃ e2, off special 0 (S stack) t sel (FnFun p) e1 g1 = Ok e2 ∧
    table e2 = table e ∧ listening e2 = listening e.
Proof.
  intros He Ha Ht Hs Hp Ho Hpl Hfresh. unfold on, off, add. rewrite Ha.
  set (i := (guid_of _ g).1) in *. pose proof (guid_of_lookup p g) as Hg. fold i in Hg.
  destruct (guid_of (Fn p false) g) as [i' g'] eqn:Eg. cbn in i. subst i. simpl in Hg.
  rewrite type_words_one by done. cbn [foldl].
  set (e0 := Element true (Some (table e)) true (listening e)).
  assert (H0 : element_wf e0) by (destruct He; by split).
  destruct (add_type_table (Fn p false) i' d sel None e0 g' t orig ns Hp Ho) as (Ht1 & Hh1 & _ & Hl1).
  pose proof (add_type_wf (Fn p false) i' d sel e0 g' t H0 eq_refl) as [H1 _].
  pose proof (add_type_guids (Fn p false) i' d sel None e0 g' t) as Hg1.
  set (r := add_type _ _ _ _ _ _ _ _ _) in *. destruct r as [e1 g1]. cbn [fst snd] in *.
  rewrite Hg1, Hg. eexists. split; [apply remove_one_type; try done|].
  { by apply (wf_events e1 H1). }
  rewrite table_drop_empty, listening_drop_empty.
  pose proof (remove_type_table false (Some (Some i')) sel orig (wanted_pattern ns) e1 H1) as H. cbv zeta in H.
  set (ty := real_type special sel orig) in *. change (table e0) with (table e) in *.
  rewrite Ht1, obj_get_set, decide_True in H by done. cbn [from_option id] in H.
  set (q := default _ (obj_get ty (table e))) in *. change (handlers_of ty e) with (hs q) in Hfresh.
  rewrite keep_enqueue in H.
  2: { by apply hit_new, (parse_type_inv t orig ns). }
  2: { apply Forall_forall. intros h Hh. by apply hit_guid, Hfresh. }
  unfold obj_has in H, Hl1. rewrite obj_get_set, decide_True in H by done. unfold q in H.
  destruct (obj_get ty (table e)) as [q0|] eqn:E; cbn [from_option id] in H.
  - destruct (wf_queues e He ty q0 E) as (Hq & Hne & _). destruct (hs q0) as [|h l] eqn:Eq; [done|].
    destruct H as ((-> & c & -> & Hc) & _). rewrite Hl1. split; [|done]. rewrite obj_set_set.
    apply obj_set_same. rewrite E. f_equal. apply queue_eq; done.
  - destruct H as ((-> & ->) & _). split; [by apply obj_delete_set|]. rewrite Hl1. cbn [orb andb].
    destruct (own_setup (special ty)) eqn:Es; [done|]. cbn [negb]. unfold addEventListener. cbn [listening].
    change (listening e0) with (listening e).
    assert (Hn : ty ∉ listening e) by (intros [_ Hx]%(wf_listens e He); rewrite E in Hx; by destruct Hx).
    rewrite bool_decide_false, filter_app, list_filter_all by (done || intros x Hx ->; done).
    by rewrite filter_cons, decide_False, filter_nil, app_nil_r by (intros Hx; by apply Hx).
Qed.

Lemma keep_keep p l : keep p (keep p l) = keep p l.
Proof. apply keep_id. apply Forall_forall. by intros h [Hh _]%list_elem_of_filter. Qed.

(** The loop over the bound types of an argument without a type. *)
Lemma remove_keys stack by_ ns ks e :
  element_wf e → Forall (λ k, k ≠ [] ∧ undotted k ∧ spaceless k) ks →
  (∀ k, k ∈ ks → real_type special [] k = k) → ns ≠ [] → spaceless ns → plain ns →
  ∃ e', foldl (λ r ty, match r with
      | Ok e => if obj_has ty (table e)
          then remove special (S stack) true by_ [] (ty ++ 46%N :: ns) e else Ok e
      | Throw x => Throw x
      end) (Ok e) ks = Ok e' ∧ element_wf e' ∧
    ∀ ty, handlers_of ty e' =
      if decide (ty ∈ ks) then keep (hit true ty by_ (wanted_pattern ns) []) (handlers_of ty e) else handlers_of ty e.
Proof.
  intros He Hks. revert e He. induction Hks as [|k ks (Hk0 & Hku & Hksp) Hks IH]; intros e He Hr Hn Hns Hpl.
  { exists e. split; [done|]. split; [done|]. intros ty. by rewrite decide_False by apply not_elem_of_nil. }
  cbn [foldl]. assert (Hstep : ∃ e1, (if obj_has k (table e)
      then remove special (S stack) true by_ [] (k ++ 46%N :: ns) e else Ok e) = Ok e1 ∧ element_wf e1 ∧
    ∀ ty, handlers_of ty e1 = if decide (ty = k)
      then keep (hit true ty by_ (wanted_pattern ns) []) (handlers_of ty e) else handlers_of ty e).
  { destruct (obj_has k (table e)) eqn:Eh.
    - assert (Hp : parse_type (k ++ 46%N :: ns) = (k, ns)).
      { rewrite parse_type_dotted by (done || by apply spaceless_one_line). by destruct ns. }
      eexists. split; [apply (remove_one_type _ _ _ _ _ k ns)|].
      + unfold table, obj_has in Eh. by destruct (events e).
      + by destruct k.
      + apply Forall_app. split; [done|]. by constructor.
      + done.
      + done.
      + done.
      + split; [by apply drop_empty_wf, remove_type_wf|]. intros ty.
        unfold handlers_of at 1. rewrite table_drop_empty.
        pose proof (remove_type_handlers true by_ [] k (wanted_pattern ns) e ty He) as Hh. unfold handlers_of at 1 in Hh.
        rewrite Hh. assert (Hrk : real_type special [] k = k) by (apply Hr; by left).
        case_decide as Hd; rewrite Hrk in Hd; by case_decide as Hd'; subst.
    - exists e. split; [done|]. split; [done|]. intros ty. case_decide as Hd; [|done]. subst ty.
      unfold handlers_of, obj_has in *. by destruct (obj_get k (table e)). }
  destruct Hstep as (e1 & -> & He1 & H1).
  destruct (IH e1 He1) as (e2 & -> & He2 & H2); [by intros k' Hk'; apply Hr; right|done|done|done|].
  exists e2. split; [done|]. split; [done|]. intros ty. rewrite H2, H1.
  destruct (decide (ty ∈ ks)) as [Hin|Hin].
  - rewrite (decide_True (P := ty ∈ k :: ks)) by by right.
    destruct (decide (ty = k)) as [->|]; [|done]. by rewrite keep_keep.
  - destruct (decide (ty = k)) as [->|Hne].
    + by rewrite decide_True by by left.
    + by rewrite decide_False by by intros [?|?]%elem_of_cons.
Qed.

(** [off(".ns")] visits every bound type and removes exactly the handlers that
    have the namespaces, whatever type they were bound under; two nested calls are
    enough. *)
Theorem remove_namespace stack by_ ns e :
  element_wf e → plain_keys e →
  (∀ k, k ∈ obj_keys (table e) → bindType (special k) = []) → ns ≠ [] → spaceless ns → plain ns →
  ∃ e', remove special (S (S stack)) false by_ [] (46%N :: ns) e = Ok e' ∧ element_wf e' ∧
    ∀ ty, handlers_of ty e' =
      base.filter (λ h, hit true ty by_ (wanted_pattern ns) [] h = false) (handlers_of ty e).
Proof.
  intros He Hk Hb Hn Hns Hpl. remember (S stack) as st eqn:Est. cbn [remove].
  destruct (events e) as [tb|] eqn:Hev.
  - rewrite type_words_one by (done || by constructor). cbn [foldl].
    assert (Hp : parse_type (46%N :: ns) = ([], ns)).
    { change (46%N :: ns) with ([] ++ 46%N :: ns). rewrite (parse_type_dotted [] ns).
      - by destruct ns.
      - by intros ?%elem_of_nil.
      - by apply spaceless_one_line. }
    rewrite Hp. cbn [missing]. subst st.
    destruct (remove_keys stack by_ ns (obj_keys (table e)) e) as (e' & -> & He' & Hh); [done|done| |done|done|done|].
    { intros k Hin. unfold real_type. cbn. by rewrite Hb. }
    eexists. split; [done|]. split; [by apply drop_empty_wf|]. intros ty.
    unfold handlers_of at 1. rewrite table_drop_empty. fold (handlers_of ty e'). rewrite Hh.
    case_decide as Hin; [done|]. apply obj_get_None in Hin. unfold handlers_of. by rewrite Hin.
  - exists e. split; [done|]. split; [done|]. intros ty. unfold handlers_of, table. by rewrite Hev.
Qed.

(** ** The handler of a dispatched event *)

(** What [add] puts into a handler object: a name, and sorted namespaces. *)
Definition built (h : handleObj) : Prop :=
  origType h ≠ [] ∧ undotted (origType h) ∧ spaceless (origType h) ∧
  ∃ ns, spaceless ns ∧ plain ns ∧ namespace h = join [46%N] (namespaces_of ns).

Lemma namespaces_again ns : namespaces_of (join [46%N] (namespaces_of ns)) = namespaces_of ns.
Proof.
  unfold namespaces_of at 1. rewrite split_join_unit; [|apply namespaces_ne|apply namespaces_parts].
  apply js_sort_id, namespaces_sorted.
Qed.

Lemma namespaces_spaceless ns : spaceless ns → spaceless (join [46%N] (namespaces_of ns)).
Proof.
  intros H. apply join_Forall; [by repeat constructor|]. rewrite namespaces_perm.
  by apply split_on_Forall.
Qed.

Lemma hit_self h x :
  built h → built x → guid x = guid h → origType x = origType h → selector x = selector h →
  namespace x = namespace h →
  hit false (origType h) (Some (Some (guid h))) (wanted_pattern (namespace h)) (selector h) x = true.
Proof.
  clear TK special needs_context.
  intros _ (_ & _ & _ & ns & Hs & _ & Hn) Hg Ho Hsel Hns. apply hit_removes.
  { exists ns. split; [by apply spaceless_one_line|done]. }
  repeat split; [done|right; congruence|right; by rewrite Hns|auto].
Qed.

(** [off(event)] removes from the queue of the event the handler of the event, and
    every other that agrees with it in guid, type, selector and namespaces. *)
Lemma off_event_handlers stack h e ty :
  element_wf e → built h → h ∈ handlers_of ty e →
  ∃ e', off_event special (S stack) h e = Ok e' ∧ element_wf e' ∧
    handlers_of ty e' =
      keep (hit false (origType h) (Some (Some (guid h))) (wanted_pattern (namespace h)) (selector h)) (handlers_of ty e).
Proof.
  intros He Hb Hin. pose proof Hb as (Hn & Hu & Hs & ns & Hns & Hpl & Heq).
  assert (Hplh : plain (namespace h)) by (unfold plain; rewrite Heq, namespaces_again; exact Hpl).
  assert (Hty : ty = real_type special (selector h) (origType h)).
  { unfold handlers_of in Hin. destruct (obj_get ty (table e)) as [q|] eqn:E; [|by apply elem_of_nil in Hin].
    destruct (wf_queues e He ty q E) as (_ & _ & Ht). rewrite Forall_forall in Ht. by apply Ht in Hin as (_ & -> & _). }
  assert (Hspn : spaceless (namespace h)) by (rewrite Heq; by apply namespaces_spaceless).
  assert (Hev : is_Some (events e)).
  { unfold handlers_of, table in Hin. destruct (events e); [by eexists|by apply elem_of_nil in Hin]. }
  unfold off_event.
  set (t := if missing (namespace h) then origType h else origType h ++ [46%N] ++ namespace h).
  assert (Ht : t ≠ [] ∧ spaceless t ∧ parse_type t = (origType h, namespace h)).
  { unfold t. destruct (namespace h) as [|c n] eqn:En; cbn [missing].
    - split; [done|]. split; [done|]. by apply parse_type_plain.
    - split; [by destruct (origType h)|]. split.
      + apply Forall_app. split; [done|]. by apply Forall_cons.
      + cbn [app]. rewrite parse_type_dotted by (done || by apply spaceless_one_line). done. }
  destruct Ht as (Ht0 & Hts & Htp).
  rewrite (remove_one_type stack false _ _ t _ _ e Hev Ht0 Hts Htp Hn Hplh).
  eexists. split; [done|]. split; [by apply drop_empty_wf, remove_type_wf|].
  unfold handlers_of at 1. rewrite table_drop_empty. fold (handlers_of ty).
  pose proof (remove_type_handlers false (Some (Some (guid h))) (selector h) (origType h)
    (wanted_pattern (namespace h)) e ty He) as Hh.
  unfold handlers_of at 1 in Hh. rewrite Hh. by rewrite decide_True.
Qed.

(** ** Sequences of calls *)

(** A page works on an element with [on], [one] and [off]. *)
Inductive op :=
  | On (types sel : jsstr) (d : option nat) (a : fn_arg) (one : bool)
  | Off (types sel : jsstr) (a : fn_arg)
  | OffEvent (h : handleObj).
Definition run_op (returnFalse stack : nat) (r : outcome (element * shared)) (o : op) :
    outcome (element * shared) :=
  match r with
  | Throw x => Throw x
  | Ok (e, g) =>
      match o with
      | On types sel d a one => Ok (on special needs_context returnFalse types sel d a one e g)
      | Off types sel a =>
          match off special returnFalse stack types sel a e g with
          | Ok e => Ok (e, g) | Throw x => Throw x
          end
      | OffEvent h =>
          match off_event special stack h e with Ok e => Ok (e, g) | Throw x => Throw x end
      end
  end.

Definition pair_wf (eg : element * shared) : Prop := element_wf eg.1.
Lemma run_op_wf returnFalse stack r o :
  ok_and pair_wf r → ok_and pair_wf (run_op returnFalse stack r o).
Proof.
  destruct r as [[e g]|x]; [|done]. unfold pair_wf. cbn [ok_and fst]. intros He.
  destruct o as [types sel d a one|types sel a|h]; cbn [run_op].
  - unfold on. by destruct a; [apply add_wf|apply add_wf|].
  - unfold off. pose proof (remove_wf stack false
      match a with
      | FnMissing => None | FnFalse => Some (fn_guid g !! returnFalse) | FnFun p => Some (fn_guid g !! p)
      end sel types e He) as Hw. by destruct (remove _ _ _ _ _ _ _).
  - unfold off_event. match goal with |- context [remove special ?s ?m ?b ?sl ?t e] =>
      pose proof (remove_wf s m b sl t e He) as Hw end. by destruct (remove _ _ _ _ _ _ _).
Qed.

Lemma fresh_wf accept g : pair_wf (Element accept None false [], g).
Proof.
  split; try done; [apply NoDup_nil_2|apply NoDup_nil_2|].
  intros t. split; [by intros ?%elem_of_nil|by intros [_ [? ?]]].
Qed.

(** C20: after any calls of [on], [one] and [off] on a fresh element the data are
    well formed: every bound type has handlers, the delegated ones in front and
    counted, each under the type its event is renamed to; and the element listens
    natively, once, exactly for the bound types whose special event does not do the
    listening itself.  No special event with a [teardown] of its own is renamed to one
    without. *)
Theorem bound_handlers_invariant returnFalse stack accept ops g e g' :
  foldl (run_op returnFalse stack) (Ok (Element accept None false [], g)) ops = Ok (e, g') →
  element_wf e.
Proof.
  intros Hops. pose proof (foldl_ok_and pair_wf (run_op returnFalse stack) ops
    (Ok (Element accept None false [], g)) (run_op_wf returnFalse stack) (fresh_wf accept g)) as H.
  by rewrite Hops in H.
Qed.

End invariant.

Example on_args_ex :
  on_args (Function 7) Undefined Undefined = (Undefined, Undefined, Function 7) ∧
  on_args (Str (js "li")) (Function 7) Undefined = (Str (js "li"), Undefined, Function 7) ∧
  on_args (Data 1) (Function 7) Null = (Undefined, Data 1, Function 7).
Proof. done. Qed.

(** ** An element of a page *)

#[export] Instance special_table_kept focusinBubbles : TeardownKept (special_table focusinBubbles).
Proof.
  intros sel t Ht. assert (Hf : t = js "focusin" ∨ t = js "focusout").
  { revert Ht. unfold special_table, str_eqb. repeat case_bool_decide; cbn; auto; done. }
  destruct Hf as [-> | ->]; unfold real_type; by destruct focusinBubbles, sel.
Qed.
(** Here [RegExp] refuses the names that are no plain text. *)
#[local] Instance no_patterns : RegExpConstructor := λ _, Throw (UserError 0).

Definition fresh : element := Element true None false [].
Definition nothing : shared := Shared ∅ 1 ∅.
Definition page_ops : list op :=
  [On (js "click.menu") [] None (FnFun 7) false;
   On (js "mouseenter.menu click.b.a") (js "li") None (FnFun 8) false].
Definition page_state : element * shared :=
  default (fresh, nothing)
    match foldl (run_op (special_table true) (λ _, false) 0 2) (Ok (fresh, nothing)) page_ops with
    | Ok eg => Some eg | Throw _ => None
    end.

Example page_types : (λ tq, (tq.1, (λ h, page (handler h)) <$> hs tq.2)) <$> table page_state.1 =
  [(js "click", [8; 7]); (js "mouseover", [8])].
Proof. vm_compute. reflexivity. Qed.
Example page_listens : listening page_state.1 = [js "click"; js "mouseover"].
Proof. vm_compute. reflexivity. Qed.
Example page_off : (λ e, obj_keys (table e)) <$>
  match off (special_table true) 0 2 (js ".menu") [] FnMissing page_state.1 page_state.2 with
  | Ok e => Some e | Throw _ => None
  end = Some [js "click"].
Proof. vm_compute. reflexivity. Qed.
Example page_clone : table (clone_events (special_table true) (λ _, false)
  page_state.1 fresh nothing).1 = table page_state.1.
Proof. vm_compute. reflexivity. Qed.

Lemma page_run : foldl (run_op (special_table true) (λ _, false) 0 2) (Ok (fresh, nothing)) page_ops
  = Ok (page_state.1, page_state.2).
Proof. vm_compute. reflexivity. Qed.

Lemma page_wf : element_wf (special_table true) page_state.1.
Proof.
  pose proof (foldl_ok_and (pair_wf (special_table true)) _ page_ops (Ok (fresh, nothing))
    (run_op_wf (special_table true) (λ _, false) 0 2) (fresh_wf _ true nothing)) as H.
  rewrite page_run in H. exact H.
Qed.

Lemma page_plain : plain_keys page_state.1.
Proof.
  assert (H : obj_keys (table page_state.1) = [js "click"; js "mouseover"]) by (vm_compute; reflexivity).
  unfold plain_keys. rewrite H.
  assert (Hd : ∀ s, Is_true (forallb (λ c, negb (N.eqb c 46) && negb (is_space c)) s) → undotted s ∧ spaceless s).
  { intros s Hs%Is_true_true. rewrite forallb_elem_of in Hs. split.
    - intros Hin. by specialize (Hs _ Hin).
    - apply Forall_forall. intros c Hc. specialize (Hs c Hc). apply andb_true_iff in Hs as [_ Hs].
      by apply negb_true_iff. }
  apply Forall_cons; split; [|apply Forall_singleton]; (split; [done|apply Hd; by vm_compute]).
Qed.

Lemma bound_handlers_invariant_witness :
  foldl (run_op (special_table true) (λ _, false) 0 2) (Ok (Element true None false [], nothing)) page_ops
    = Ok (page_state.1, page_state.2) ∧ element_wf (special_table true) page_state.1.
Proof.
  split; [exact page_run|]. exact (bound_handlers_invariant _ _ _ _ _ _ _ _ _ page_run).
Defined.

Lemma click_words : js "click.a" ≠ [] ∧ spaceless (js "click.a") ∧
  parse_type (js "click.a") = (js "click", js "a").
Proof. split; [done|]. split; [repeat constructor|]. vm_compute. reflexivity. Qed.

Lemma off_removes_witness :
  element_wf (special_table true) page_state.1 ∧
  ∃ e', remove (special_table true) 1 false None [] (js "click.a") page_state.1 = Ok e' ∧
    element_wf (special_table true) e' ∧ ∀ ty, handlers_of ty e' =
      if decide (ty = real_type (special_table true) [] (js "click"))
      then base.filter (λ h, ¬ removes (js "click") None (js "a") [] h) (handlers_of ty page_state.1)
      else handlers_of ty page_state.1.
Proof.
  destruct click_words as (Hn & Hs & Hp). split; [exact page_wf|].
  apply (off_removes (special_table true) 0 None [] (js "click.a")); [exact page_wf|exact Hn|exact Hs|exact Hp|done|reflexivity].
Defined.

Lemma remove_trailing_dot_witness :
  plain_keys page_state.1 ∧
  remove (special_table true) 9 false None [] (js "click" ++ [46%N]) page_state.1 = Throw RangeError.
Proof.
  split; [exact page_plain|].
  apply (remove_trailing_dot (special_table true) (λ _, false) 9 false None [] (js "click")).
  - exact page_plain.
  - by vm_compute.
  - rewrite undotted_cls. by repeat constructor.
  - by repeat constructor.
Defined.

Lemma off_undoes_on_witness :
  let '(e1, g1) := on (special_table true) (λ _, false) 0 (js "click.a") (js "p") None (FnFun 9) false
    page_state.1 page_state.2 in
  ∃ e2, off (special_table true) 0 1 (js "click.a") (js "p") (FnFun 9) e1 g1 = Ok e2 ∧
    table e2 = table page_state.1 ∧ listening e2 = listening page_state.1.
Proof.
  destruct click_words as (Hn & Hs & Hp).
  apply (off_undoes_on (special_table true) (λ _, false) 0 (js "click.a") (js "p") (js "click") (js "a"));
    [exact page_wf|by vm_compute|exact Hn|exact Hs|exact Hp|done|reflexivity|].
  intros h Hh.
  assert (Hg : Forall (λ h, guid h ≠ 3) (handlers_of (js "click") page_state.1))
    by (repeat (apply Forall_cons; split; [by vm_compute|]); apply Forall_nil_2).
  exact (proj1 (Forall_forall _ _) Hg h Hh).
Defined.

Lemma remove_namespace_witness :
  element_wf (special_table true) page_state.1 ∧
  ∃ e', remove (special_table true) 2 false None [] (46%N :: js "menu") page_state.1 = Ok e' ∧
    element_wf (special_table true) e' ∧ ∀ ty, handlers_of ty e' =
      base.filter (λ h, hit true ty None (wanted_pattern (js "menu")) [] h = false) (handlers_of ty page_state.1).
Proof.
  split; [exact page_wf|].
  apply (remove_namespace (special_table true) 0 None (js "menu")); [exact page_wf|exact page_plain| |done| |reflexivity].
  - intros k Hk. assert (Hks : obj_keys (table page_state.1) = [js "click"; js "mouseover"])
      by (vm_compute; reflexivity).
    rewrite Hks in Hk. apply elem_of_cons in Hk as [->|Hk]; [reflexivity|].
    apply list_elem_of_singleton in Hk as ->. reflexivity.
  - by repeat constructor.
Defined.

End Events.
