(* ===== verification/JqDispatch.v ===== *)
(** * Event dispatch in jquery.js

    The event object with its three flags, [jQuery.event.handlers], which queues the
    handlers for an event from the target up, [jQuery.event.dispatch], which runs
    the queue, and [jQuery.event.trigger], which walks an event up the document.
    Handlers are code of the page: a function from the event to the calls it makes
    (on the event, and of [on], [one] and [off] on any element) and its result. *)

From stdpp Require Import base tactics list strings numbers sets gmap.
From Stdlib Require Import NArith ZArith Sorted Lia.
From S2P Require Import Prelude.
From S2P Require Import JsString.
From S2P Require Import Regex.
From S2P Require Import JsArray.
From S2P Require Import JqCallbacks.
From S2P Require Import JqEvents.

Module Dispatch.
Import Events.

(** ** Data *)

(** What a handler returns, when it is not [undefined]. *)
Inductive result := RFalse | RValue (v : nat).

(** [jQuery.Event]; a namespace that is missing stands for no [namespace_re].
    [original] says that there is a native event, [returnValue] is its property. *)
Record event := Event {
  type : jsstr;
  target : option nat;
  button : bool;
  relatedTarget : option nat;
  original : bool;
  returnValue : option result;
  isDefaultPrevented : bool;
  isPropagationStopped : bool;
  isImmediatePropagationStopped : bool;
  ev_result : option result;
  ev_namespace : jsstr;
  ev_handleObj : option handleObj;
  delegateTarget : option nat;
}.

Definition set_type (t : jsstr) (e : event) : event :=
  Event t (target e) (button e) (relatedTarget e) (original e) (returnValue e)
    (isDefaultPrevented e) (isPropagationStopped e) (isImmediatePropagationStopped e)
    (ev_result e) (ev_namespace e) (ev_handleObj e) (delegateTarget e).
Definition set_flags (d p i : bool) (e : event) : event :=
  Event (type e) (target e) (button e) (relatedTarget e) (original e) (returnValue e)
    (isDefaultPrevented e || d) (isPropagationStopped e || p) (isImmediatePropagationStopped e || i)
    (ev_result e) (ev_namespace e) (ev_handleObj e) (delegateTarget e).
Definition set_result (r : option result) (e : event) : event :=
  Event (type e) (target e) (button e) (relatedTarget e) (original e) (returnValue e)
    (isDefaultPrevented e) (isPropagationStopped e) (isImmediatePropagationStopped e)
    r (ev_namespace e) (ev_handleObj e) (delegateTarget e).
Definition set_handleObj (h : handleObj) (e : event) : event :=
  Event (type e) (target e) (button e) (relatedTarget e) (original e) (returnValue e)
    (isDefaultPrevented e) (isPropagationStopped e) (isImmediatePropagationStopped e)
    (ev_result e) (ev_namespace e) (Some h) (delegateTarget e).
Definition set_delegate (n : nat) (e : event) : event :=
  Event (type e) (target e) (button e) (relatedTarget e) (original e) (returnValue e)
    (isDefaultPrevented e) (isPropagationStopped e) (isImmediatePropagationStopped e)
    (ev_result e) (ev_namespace e) (ev_handleObj e) (Some n).
Definition set_returnValue (e : event) : event :=
  Event (type e) (target e) (button e) (relatedTarget e) (original e) (ev_result e)
    (isDefaultPrevented e) (isPropagationStopped e) (isImmediatePropagationStopped e)
    (ev_result e) (ev_namespace e) (ev_handleObj e) (delegateTarget e).

Definition preventDefault : event → event := set_flags true false false.
Definition stopPropagation : event → event := set_flags false true false.
Definition stopImmediatePropagation (e : event) : event := stopPropagation (set_flags false false true e).

(** The document: nodes are numbers. *)
Record document := Document {
  parentNode : nat → option nat;
  is_node : nat → bool;           (* [nodeType] is truthy *)
  is_element : nat → bool;        (* [nodeType === 1] *)
  disabled : nat → bool;
}.

(** What a handler does with the event and the elements. *)
Inductive act :=
  | PreventDefault
  | StopPropagation
  | StopImmediatePropagation
  | Bind (n : nat) (o : op).
Inductive reply := Returns (r : option result) | Throws (tag : nat).

(** The event in flight, the data of the elements, [jQuery.event.triggered] (empty
    when it is undefined), and the handlers called so far. *)
Record world := World {
  ev : event;
  elements : gmap nat element;
  sh : shared;
  triggered : jsstr;
  calls : list (nat * handleObj);
}.
Definition upd_ev (f : event → event) : M world unit :=
  modify (λ w, World (f (ev w)) (elements w) (sh w) (triggered w) (calls w)).
Definition log (n : nat) (h : handleObj) : M world unit :=
  modify (λ w, World (ev w) (elements w) (sh w) (triggered w) (calls w ++ [(n, h)])).

(** The browser: text and comment nodes, windows, the window of a document, handlers
    in attributes, methods named like events, links, and the hooks [trigger] of
    focus, blur and click, which answer whether they took the event over. *)
Record browser := Browser {
  is_text : nat → bool;
  is_window : nat → bool;
  window_of : nat → option nat;
  inline : nat → jsstr → option (event → list act * reply);
  method : nat → jsstr → option (world → world);
  is_link : nat → bool;
  takes_over : jsstr → nat → bool;
}.

Section dispatch.
Context `{RE : RegExpConstructor}.
Variable special : jsstr → hooks.
Variable needs_context : jsstr → bool.
Variable returnFalse : nat.
Variable stack : nat.
Variable doc : document.
(** The selector engine: [find needsContext selector root node], for selectors that it accepts:
    a delegated handler whose selector has a syntax error makes the dispatch throw, and is not
    modelled. *)
Variable find : bool → jsstr → nat → nat → bool.
(** [jQuery.contains]. *)
Variable contains : nat → nat → bool.
(** The functions of the page. *)
Variable code : nat → nat → event → list act * reply.

(** ** The queue of an event *)

Definition space_key (sel : jsstr) : jsstr := sel ++ [32%N].
(** One turn of the loop over the delegated handlers; [memo] are the properties
    [matches[sel]] of the array [matches]. *)
Definition match_step (this cur : nat) (mm : list (jsstr * bool) * list handleObj) (h : handleObj) :
    list (jsstr * bool) * list handleObj :=
  let '(memo, matches) := mm in
  let sel := space_key (selector h) in
  let memo := match obj_get sel memo with
    | Some _ => memo
    | None => obj_set sel (find (needsContext h) sel this cur) memo
    end in
  (memo, if default false (obj_get sel memo) then matches ++ [h] else matches).
Definition matches_at (this : nat) (e : event) (ds : list handleObj) (cur : nat) : list handleObj :=
  if is_element doc cur && (negb (disabled doc cur) || negb (str_eqb (type e) (js "click")))
  then (foldl (match_step this cur) ([], []) ds).2 else [].

(** [for (; cur != this; cur = cur.parentNode || this)]. *)
Fixpoint walk (fuel : nat) (this : nat) (e : event) (ds : list handleObj) (cur : nat) :
    outcome (list (nat * list handleObj)) :=
  match fuel with
  | 0 => Throw Diverge
  | S k =>
      if bool_decide (cur = this) then Ok []
      else
        match walk k this e ds (default this (parentNode doc cur)) with
        | Ok q =>
            match matches_at this e ds cur with
            | [] => Ok q
            | ms => Ok ((cur, ms) :: q)
            end
        | Throw x => Throw x
        end
  end.

(** [jQuery.event.handlers]. *)
Definition handlers (fuel : nat) (this : nat) (e : event) (q : queue) :
    outcome (list (nat * list handleObj)) :=
  let dels :=
    match delegateCount q, target e with
    | S _, Some cur =>
        if is_node doc cur && (negb (button e) || negb (str_eqb (type e) (js "click")))
        then walk fuel this e (take (delegateCount q) (hs q)) cur else Ok []
    | S _, None => Throw TypeError
    | 0, _ => Ok []
    end in
  match dels with
  | Throw x => Throw x
  | Ok dq =>
      Ok (dq ++ if delegateCount q <? length (hs q)
                then [(this, drop (delegateCount q) (hs q))] else [])
  end.

(** ** Running handlers *)

Definition element_of (n : nat) (w : world) : element :=
  default (Element true None false []) (elements w !! n).
Definition bind_op (n : nat) (o : op) : M world unit := λ w,
  match run_op special needs_context returnFalse stack (Ok (element_of n w, sh w)) o with
  | Ok (e, g) => (Ok tt, World (ev w) (<[n := e]> (elements w)) g (triggered w) (calls w))
  | Throw x => (Throw x, w)
  end.
Definition run_act (a : act) : M world unit :=
  match a with
  | PreventDefault => upd_ev preventDefault
  | StopPropagation => upd_ev stopPropagation
  | StopImmediatePropagation => upd_ev stopImmediatePropagation
  | Bind n o => bind_op n o
  end.
Fixpoint run_acts (l : list act) : M world unit :=
  match l with
  | [] => mret tt
  | a :: l => run_act a ≫= λ _, run_acts l
  end.

(** A handler is called with the node it runs on; the function [one] makes first
    unbinds the handler of the event. *)
Definition call_fn (n : nat) (f : fn) : M world (option result) :=
  w ← get;
  _ ← match is_once f, ev_handleObj (ev w), delegateTarget (ev w) with
      | true, Some h, Some d => bind_op d (OffEvent h)
      | _, _, _ => mret tt
      end;
  w ← get;
  let '(acts, r) := code (page f) n (ev w) in
  _ ← run_acts acts;
  match r with Returns r => mret r | Throws t => throw (UserError t) end.

(** The [handle] hooks of mouseenter, mouseleave, pointerenter and pointerleave. *)
Definition enters (t : jsstr) : bool :=
  existsb (str_eqb t) [js "mouseenter"; js "mouseleave"; js "pointerenter"; js "pointerleave"].
Definition outside (n : nat) (related : option nat) : bool :=
  match related with
  | None => true
  | Some r => negb (bool_decide (r = n)) && negb (contains n r)
  end.
Definition call_handler (n : nat) (h : handleObj) : M world (option result) :=
  if enters (origType h) then
    w ← get;
    if outside n (relatedTarget (ev w)) then
      _ ← upd_ev (set_type (origType h));
      _ ← log n h;
      r ← call_fn n (handler h);
      _ ← upd_ev (set_type (bindType (special (origType h))));
      mret r
    else mret None
  else _ ← log n h; call_fn n (handler h).

(** [event.namespace_re]; [trigger] makes it, and has thrown when it could not. *)
Definition namespace_re (e : event) : outcome (option regex) :=
  if missing (ev_namespace e) then Ok None
  else match ns_pattern (split_unit 46 (ev_namespace e)) with Ok r => Ok (Some r) | Throw x => Throw x end.
Definition accepts (e : event) (h : handleObj) : bool :=
  match namespace_re e with
  | Ok (Some r) => test r (namespace h)
  | Ok None => true
  | Throw _ => false
  end.
Definition take_result (r : option result) : M world unit :=
  match r with
  | None => mret tt
  | Some RFalse => upd_ev (λ e, stopPropagation (preventDefault (set_result r e)))
  | Some _ => upd_ev (set_result r)
  end.

(** The body of the inner loop for a handler that is wanted. *)
Definition turn (n : nat) (h : handleObj) : M world unit :=
  _ ← upd_ev (set_handleObj h);
  r ← call_handler n h;
  take_result r.
(** The two loops of [dispatch]. *)
Fixpoint run_handlers (n : nat) (l : list handleObj) : M world unit :=
  match l with
  | [] => mret tt
  | h :: l =>
      w ← get;
      if isImmediatePropagationStopped (ev w) then mret tt
      else
        _ ← (if accepts (ev w) h then turn n h else mret tt);
        run_handlers n l
  end.
Fixpoint run_queue (q : list (nat * list handleObj)) : M world unit :=
  match q with
  | [] => mret tt
  | (n, l) :: q =>
      w ← get;
      if isPropagationStopped (ev w) then mret tt
      else _ ← run_handlers n l; run_queue q
  end.

Definition queue_of (n : nat) (t : jsstr) (w : world) : queue :=
  default (Queue [] 0) (obj_get t (table (element_of n w))).
(** The [postDispatch] hook of beforeunload. *)
Definition postDispatch (t : jsstr) : M world unit :=
  w ← get;
  if str_eqb t (js "beforeunload") && original (ev w)
     && bool_decide (is_Some (ev_result (ev w)))
  then upd_ev set_returnValue else mret tt.

(** [jQuery.event.dispatch], with [this] the element the listener is on. *)
Definition dispatch (fuel : nat) (this : nat) : M world (option result) :=
  w ← get;
  let q := queue_of this (type (ev w)) w in
  _ ← upd_ev (set_delegate this);
  match handlers fuel this (set_delegate this (ev w)) q with
  | Throw x => throw x
  | Ok hq =>
      _ ← run_queue hq;
      _ ← postDispatch (type (ev w));
      w ← get;
      mret (ev_result (ev w))
  end.

(** The listener [add] registers: the second event of a [trigger] is discarded. *)
Definition listener (fuel : nat) (this : nat) : M world (option result) :=
  w ← get;
  if missing (triggered w) || negb (str_eqb (triggered w) (type (ev w)))
  then dispatch fuel this else mret None.

(** ** Triggering *)

Variable browse : browser.

Definition rfocusMorph (s : jsstr) : bool :=
  str_eqb s (js "focusinfocus") || str_eqb s (js "focusoutblur").
(** [for (; cur; cur = cur.parentNode)], with the last node it met. *)
Fixpoint ancestors (fuel : nat) (tmp : nat) (cur : option nat) : outcome (list nat * nat) :=
  match fuel, cur with
  | _, None => Ok ([], tmp)
  | 0, Some _ => Throw Diverge
  | S k, Some n =>
      match ancestors k n (parentNode doc n) with
      | Ok (l, last) => Ok (n :: l, last)
      | Throw x => Throw x
      end
  end.
Definition event_path (fuel : nat) (n : nat) (t bubble : jsstr) : outcome (list nat) :=
  match ancestors fuel n (if rfocusMorph (bubble ++ t) then Some n else parentNode doc n) with
  | Ok (l, last) => Ok (n :: l ++ match window_of browse last with Some v => [v] | None => [] end)
  | Throw x => Throw x
  end.

Definition run_inline (n : nat) (t : jsstr) : M world unit :=
  match inline browse n t with
  | None => mret tt
  | Some f =>
      w ← get;
      if acceptData (element_of n w) then
        let '(acts, r) := f (ev w) in
        _ ← run_acts acts;
        match r with
        | Throws x => throw (UserError x)
        | Returns r =>
            _ ← upd_ev (set_result r);
            match r with Some RFalse => upd_ev preventDefault | _ => mret tt end
        end
      else mret tt
  end.
(** The loop over the event path; [first] is the type on the first node. *)
Fixpoint fire_path (fuel : nat) (t first bubble : jsstr) (path : list nat) : M world unit :=
  match path with
  | [] => mret tt
  | n :: path =>
      w ← get;
      if isPropagationStopped (ev w) then mret tt
      else
        _ ← upd_ev (set_type first);
        _ ← (if obj_has first (table (element_of n w)) && handle (element_of n w)
             then _ ← listener fuel n; mret tt else mret tt);
        _ ← (if contains_str t (js ":") then mret tt else run_inline n t);
        fire_path fuel t bubble bubble path
  end.

Definition new_event (t : jsstr) (ns : list jsstr) (n : nat) : event :=
  Event t (Some n) false None false None false false false None (join [46%N] ns) None None.
Definition default_action (t : jsstr) (n : nat) : M world unit := λ w,
  if isDefaultPrevented (ev w) || (str_eqb t (js "click") && is_link browse n)
     || negb (acceptData (element_of n w)) || contains_str t (js ":") || is_window browse n
  then (Ok tt, w)
  else
    match method browse n t with
    | None => (Ok tt, w)
    | Some f =>
        let w := f (World (ev w) (elements w) (sh w) t (calls w)) in
        (Ok tt, World (ev w) (elements w) (sh w) [] (calls w))
    end.

(** [jQuery.event.trigger] with a type, [namespaces] after dots. *)
Definition trigger (fuel : nat) (types : jsstr) (n : nat) (onlyHandlers : bool) :
    M world (option result) :=
  w ← get;
  if is_text browse n || rfocusMorph (types ++ triggered w) then mret None
  else
    let '(t, ns) := match split_unit 46 types with
      | t :: (_ :: _) as ns => (t, js_sort str_cmp ns)
      | _ => (types, [])
      end in
    _ ← upd_ev (λ _, new_event t ns n);
    match namespace_re (new_event t ns n) with
    | Throw x => throw x
    | Ok _ =>
    if negb onlyHandlers && takes_over browse t n then mret None
    else
      let bubble := or_else (delegateType (special t)) t in
      match (if onlyHandlers || str_eqb t (js "load") || is_window browse n then Ok [n]
             else event_path fuel n t bubble) with
      | Throw x => throw x
      | Ok path =>
          _ ← fire_path fuel t (or_else (bindType (special t)) t) bubble path;
          _ ← upd_ev (set_type t);
          _ ← (if onlyHandlers then mret tt else default_action t n);
          w ← get;
          mret (ev_result (ev w))
      end
    end.

(** ** The queue of an event: what it holds *)

Definition selected (this cur : nat) (h : handleObj) : bool :=
  find (needsContext h) (space_key (selector h)) this cur.
(** Handlers with one selector were tested alike for a context. *)
Definition one_test (ds : list handleObj) : Prop :=
  ∀ h1 h2, h1 ∈ ds → h2 ∈ ds → selector h1 = selector h2 → needsContext h1 = needsContext h2.

Lemma space_key_inj s t : space_key s = space_key t → s = t.
Proof. intros [H _]%app_inj_tail. done. Qed.

(** The memo table holds only answers of the selector engine. *)
Lemma match_step_filter this cur ds done_ memo acc :
  one_test (done_ ++ ds) →
  (∀ k b, obj_get k memo = Some b → ∃ h, h ∈ done_ ∧ k = space_key (selector h) ∧ b = selected this cur h) →
  (foldl (match_step this cur) (memo, acc) ds).2 =
  acc ++ base.filter (λ h, selected this cur h = true) ds.
Proof.
  revert done_ memo acc. induction ds as [|h ds IH]; intros done_ memo acc Ho Hm; [by rewrite app_nil_r|].
  cbn [foldl]. set (sel := space_key (selector h)).
  assert (Hh : ∃ memo', match_step this cur (memo, acc) h =
      (memo', if selected this cur h then acc ++ [h] else acc) ∧
    ∀ k b, obj_get k memo' = Some b →
      ∃ x, x ∈ done_ ++ [h] ∧ k = space_key (selector x) ∧ b = selected this cur x).
  { unfold match_step. fold sel. destruct (obj_get sel memo) as [b|] eqn:E.
    - destruct (Hm sel b E) as (x & Hx & Hk & ->). exists memo. rewrite E. cbn [from_option id].
      assert (Hs : selected this cur x = selected this cur h).
      { apply space_key_inj in Hk. unfold selected. rewrite Hk. f_equal. apply Ho; [| |done];
          rewrite elem_of_app; [by left|right; by left]. }
      rewrite Hs. split; [done|]. intros k b' Hk'. destruct (Hm k b' Hk') as (y & ? & ? & ?).
      exists y. rewrite elem_of_app. auto.
    - eexists. rewrite obj_get_set, decide_True by done. split; [reflexivity|].
      intros k b. rewrite obj_get_set. case_decide as Hd.
      + intros [= <-]. exists h. rewrite elem_of_app, list_elem_of_singleton. auto.
      + intros Hk. destruct (Hm k b Hk) as (y & ? & ? & ?). exists y. rewrite elem_of_app. auto. }
  destruct Hh as (memo' & -> & Hm'). rewrite (IH (done_ ++ [h])).
  - rewrite filter_cons. destruct (selected this cur h).
    + rewrite decide_True by done. by rewrite <- (assoc_L (++)).
    + by rewrite decide_False by done.
  - by rewrite <- (assoc_L (++)).
  - exact Hm'.
Qed.

Definition eligible (e : event) (cur : nat) : bool :=
  is_element doc cur && (negb (disabled doc cur) || negb (str_eqb (type e) (js "click"))).
Definition chosen (this : nat) (e : event) (ds : list handleObj) (cur : nat) : list handleObj :=
  if eligible e cur then base.filter (λ h, selected this cur h = true) ds else [].

Lemma matches_at_chosen this e ds cur : one_test ds → matches_at this e ds cur = chosen this e ds cur.
Proof.
  intros Ho. unfold matches_at, chosen, eligible. destruct (_ && _); [|done].
  by apply (match_step_filter this cur ds [] [] []).
Qed.

(** The nodes from a node up to, and without, the element [this]. *)
Inductive path_to (this : nat) : nat → list nat → Prop :=
  | path_here : path_to this this []
  | path_up cur l : cur ≠ this → path_to this (default this (parentNode doc cur)) l →
      path_to this cur (cur :: l).
Definition entry (this : nat) (e : event) (ds : list handleObj) (cur : nat) :
    option (nat * list handleObj) :=
  match chosen this e ds cur with [] => None | ms => Some (cur, ms) end.

Lemma walk_spec this e ds l cur fuel :
  one_test ds → path_to this cur l → length l < fuel →
  walk fuel this e ds cur = Ok (omap (entry this e ds) l).
Proof.
  intros Ho Hl. revert fuel. induction Hl as [|cur l Hne Hl IH]; intros [|k] Hf; simpl in Hf; try lia.
  - cbn [walk]. by rewrite bool_decide_true.
  - cbn [walk]. rewrite bool_decide_false by done. rewrite IH by lia. rewrite matches_at_chosen by done.
    cbn [omap list_omap]. unfold entry. by destruct (chosen this e ds cur).
Qed.

(** In a document whose parent links have an end, there is a path. *)
Lemma path_exists (depth : nat → nat) this cur :
  (∀ n p, parentNode doc n = Some p → depth p < depth n) →
  ∃ l, path_to this cur l ∧ length l ≤ S (depth cur).
Proof.
  intros Hd. remember (depth cur) as d eqn:Ed. assert (Hle : depth cur ≤ d) by lia. clear Ed.
  revert cur Hle. induction d as [|d IH]; intros cur Hle.
  - destruct (decide (cur = this)) as [->|Hne]; [exists []; split; [constructor|simpl; lia]|].
    exists [cur]. split; [|done]. constructor; [done|].
    destruct (parentNode doc cur) as [p|] eqn:E; [specialize (Hd _ _ E); lia|constructor].
  - destruct (decide (cur = this)) as [->|Hne]; [exists []; split; [constructor|simpl; lia]|].
    destruct (parentNode doc cur) as [p|] eqn:E.
    + destruct (IH p) as (l & Hl & Hlen); [specialize (Hd _ _ E); lia|].
      exists (cur :: l). split; [|simpl; lia]. constructor; [done|]. by rewrite E.
    + exists [cur]. split; [|simpl; lia]. constructor; [done|]. rewrite E. constructor.
Qed.

(** C19: the queue of an event at an element: for each node from the target up to the
    element, deepest first, the delegated handlers whose selector matches it, in the
    order in which they were bound; then the element's own handlers.  A node that is
    no element, a disabled one in a click, and a click with another button than the
    left one get no delegated handlers.  The memo of selectors changes nothing, and
    the walk ends when parent links do. *)
Theorem handlers_spec (depth : nat → nat) this e q cur fuel :
  (∀ n p, parentNode doc n = Some p → depth p < depth n) →
  queue_wf q → one_test (hs q) → target e = Some cur → S (depth cur) < fuel →
  ∃ l ds us, path_to this cur l ∧ hs q = ds ++ us ∧
    Forall (λ h, delegated h = true) ds ∧ Forall (λ h, delegated h = false) us ∧
    handlers fuel this e q =
      Ok ((if is_node doc cur && (negb (button e) || negb (str_eqb (type e) (js "click")))
           then omap (entry this e ds) l else [])
          ++ match us with [] => [] | _ => [(this, us)] end).
Proof.
  intros Hd (ds & us & Eq & Ec & Hds & Hus)%queue_wf_app Ho Ht Hf.
  destruct (path_exists depth this cur Hd) as (l & Hl & Hlen).
  exists l, ds, us. do 4 (split; [done|]). unfold handlers. rewrite Eq, Ec, Ht, take_app_length, drop_app_length.
  assert (Hod : one_test ds).
  { intros h1 h2 H1 H2. rewrite Eq in Ho. apply Ho; rewrite elem_of_app; by left. }
  assert (Hw : (match length ds with
    | 0 => Ok []
    | S _ => if is_node doc cur && (negb (button e) || negb (str_eqb (type e) (js "click")))
        then walk fuel this e ds cur else Ok []
    end) = Ok (if is_node doc cur && (negb (button e) || negb (str_eqb (type e) (js "click")))
      then omap (entry this e ds) l else [])).
  { destruct (length ds) eqn:El.
    - apply length_zero_iff_nil in El. subst ds. f_equal. destruct (_ && _); [|done]. symmetry.
      clear. induction l as [|n l IH]; [done|]. cbn [omap list_omap]. unfold entry at 1, chosen.
      by destruct (eligible e n).
    - destruct (_ && _); [|done]. apply walk_spec; [done|done|lia]. }
  rewrite Hw. do 2 f_equal. destruct us as [|u us]; [by rewrite app_nil_r, (proj2 (Nat.ltb_ge _ _)) by lia|].
  rewrite (proj2 (Nat.ltb_lt _ _)); [done|]. rewrite length_app. simpl. lia.
Qed.

(** ** What running handlers changes *)

(** [w'] comes after [w], and the handlers [l] were called in between: the event keeps
    its namespaces and its related target, and its flags are never taken back. *)
Record later (l : list (nat * handleObj)) (w w' : world) : Prop := {
  later_calls : calls w' = calls w ++ l;
  later_ns : ev_namespace (ev w') = ev_namespace (ev w);
  later_related : relatedTarget (ev w') = relatedTarget (ev w);
  later_prevented : isDefaultPrevented (ev w) = true → isDefaultPrevented (ev w') = true;
  later_stopped : isPropagationStopped (ev w) = true → isPropagationStopped (ev w') = true;
  later_immediate :
    isImmediatePropagationStopped (ev w) = true → isImmediatePropagationStopped (ev w') = true;
}.

Lemma later_refl w : later [] w w.
Proof. by split; [rewrite app_nil_r|..]. Qed.

Lemma later_trans l1 l2 w1 w2 w3 : later l1 w1 w2 → later l2 w2 w3 → later (l1 ++ l2) w1 w3.
Proof.
  intros [] []. split; [|congruence|congruence|auto..].
  rewrite (assoc_L (++)). congruence.
Qed.

(** A computation that calls the handlers [l], whether it returns or throws. *)
Definition does {A} (l : list (nat * handleObj)) (m : M world A) : Prop := ∀ w, later l w (m w).2.

Lemma does_ret {A} (a : A) : does [] (mret a : M world A).
Proof. intros w. apply later_refl. Qed.
Lemma does_throw {A} x : does [] (throw x : M world A).
Proof. intros w. apply later_refl. Qed.
Lemma does_get : does [] (get : M world world).
Proof. intros w. apply later_refl. Qed.

Lemma does_bind {A B} l (m : M world A) (k : A → M world B) :
  does l m → (∀ a, does [] (k a)) → does l (m ≫= k).
Proof.
  intros Hm Hk w. unfold mbind, M_bind. specialize (Hm w). destruct (m w) as [[a|x] w1]; [|done].
  rewrite <- (app_nil_r l). eapply later_trans; [exact Hm|apply Hk].
Qed.

Lemma does_after {A B} l (m : M world A) (k : A → M world B) :
  does [] m → (∀ w, ∃ a, (m w).1 = Ok a) → (∀ a, does l (k a)) → does l (m ≫= k).
Proof.
  intros Hm Hok Hk w. unfold mbind, M_bind. specialize (Hm w). destruct (Hok w) as [a Ha].
  destruct (m w) as [r w1]. simpl in Ha. subst r. change l with ([] ++ l).
  eapply later_trans; [exact Hm|apply Hk].
Qed.

Lemma does_flags d p i : does [] (upd_ev (set_flags d p i)).
Proof. intros w. split; simpl; rewrite ?app_nil_r; try done; by intros ->. Qed.
Lemma does_stop_now : does [] (upd_ev stopImmediatePropagation).
Proof. intros w. split; simpl; rewrite ?app_nil_r; try done; intros ->; by rewrite ?orb_true_r. Qed.
Lemma does_type t : does [] (upd_ev (set_type t)).
Proof. intros w. by split; simpl; rewrite ?app_nil_r. Qed.
Lemma does_handleObj h : does [] (upd_ev (set_handleObj h)).
Proof. intros w. by split; simpl; rewrite ?app_nil_r. Qed.
Lemma does_result r : does [] (upd_ev (set_result r)).
Proof. intros w. by split; simpl; rewrite ?app_nil_r. Qed.
Lemma does_log n h : does [(n, h)] (log n h).
Proof. intros w. by split. Qed.

Lemma does_bind_op n o : does [] (bind_op n o).
Proof.
  intros w. unfold bind_op. destruct (run_op _ _ _ _ _ _) as [[e g]|x]; [|apply later_refl].
  by split; simpl; rewrite ?app_nil_r.
Qed.

Lemma does_acts l : does [] (run_acts l).
Proof.
  induction l as [|a l IH]; [apply does_ret|]. cbn [run_acts]. apply does_bind; [|done].
  destruct a; [apply does_flags|apply does_flags|apply does_stop_now|apply does_bind_op].
Qed.

Lemma does_call_fn n f : does [] (call_fn n f).
Proof.
  unfold call_fn. apply does_bind; [apply does_get|]. intros w. apply does_bind.
  { destruct (is_once f), (ev_handleObj (ev w)), (delegateTarget (ev w)); try apply does_ret.
    apply does_bind_op. }
  intros _. apply does_bind; [apply does_get|]. intros w'. destruct (code _ _ _) as [acts r].
  apply does_bind; [apply does_acts|]. intros _. destruct r; [apply does_ret|apply does_throw].
Qed.

(** A handler is called unless it is the hook of mouseenter or the like that is called and the
    event comes from inside the node. *)
Definition reaches (e : event) (n : nat) (h : handleObj) : bool :=
  negb (enters (origType h)) || outside n (relatedTarget e).
Lemma does_logged n h : does [(n, h)] (_ ← log n h; call_fn n (handler h)).
Proof. apply does_bind; [apply does_log|]. intros _. apply does_call_fn. Qed.

Lemma does_call_handler n h w :
  later (if reaches (ev w) n h then [(n, h)] else []) w (call_handler n h w).2.
Proof.
  unfold call_handler, reaches. destruct (enters (origType h)); cbn [negb orb]; [|apply (does_logged n h w)].
  unfold get, mbind at 1, M_bind at 1. destruct (outside n (relatedTarget (ev w))); [|apply later_refl].
  assert (Hd : does [(n, h)] (_ ← upd_ev (set_type (origType h)); _ ← log n h; r ← call_fn n (handler h);
      _ ← upd_ev (set_type (bindType (special (origType h)))); mret r)); [|apply Hd].
  apply does_after; [apply does_type|intros w'; by eexists|]. intros _.
  apply does_bind; [apply does_log|]. intros _. apply does_bind; [apply does_call_fn|]. intros r.
  apply does_bind; [apply does_type|]. intros _. apply does_ret.
Qed.

Lemma does_take_result r : does [] (take_result r).
Proof.
  destruct r as [[|v]|]; [|apply does_result|apply does_ret].
  intros w. split; simpl; rewrite ?app_nil_r; try done; intros ->; by rewrite ?orb_true_r.
Qed.

(** The calls a queue asks for. *)
Definition asked (e : event) (n : nat) (l : list handleObj) : list (nat * handleObj) :=
  (λ h, (n, h)) <$> base.filter (λ h, accepts e h && reaches e n h = true) l.
Definition asked_all (e : event) (q : list (nat * list handleObj)) : list (nat * handleObj) :=
  q ≫= λ nl, asked e nl.1 nl.2.

Definition alike (e e' : event) : Prop := ev_namespace e = ev_namespace e' ∧ relatedTarget e = relatedTarget e'.
Lemma later_alike l w w' : later l w w' → alike (ev w') (ev w).
Proof. by intros []. Qed.
Lemma asked_ns e e' n l : alike e e' → asked e n l = asked e' n l.
Proof. intros [H1 H2]. unfold asked, accepts, reaches, namespace_re. by rewrite H1, H2. Qed.
Lemma asked_all_ns e e' q : alike e e' → asked_all e q = asked_all e' q.
Proof.
  intros H. unfold asked_all. induction q as [|[n l] q IH]; [done|]. rewrite !bind_cons, IH.
  by rewrite (asked_ns e e').
Qed.

(** One call of [run_handlers]' loop. *)
Lemma does_turn n h w :
  later (if reaches (ev w) n h then [(n, h)] else []) w (turn n h w).2.
Proof.
  unfold turn. unfold upd_ev at 1, modify, mbind at 1, M_bind at 1.
  set (w1 := World (set_handleObj h (ev w)) _ _ _ _).
  assert (H1 : later [] w w1) by apply (does_handleObj h w).
  assert (H2 : later (if reaches (ev w1) n h then [(n, h)] else []) w1 ((r ← call_handler n h; take_result r) w1).2).
  { pose proof (does_call_handler n h w1) as H2. unfold mbind, M_bind. destruct (call_handler n h w1) as [[r|x] w2]; [|done].
    rewrite <- (app_nil_r (if reaches (ev w1) n h then [(n, h)] else [])). eapply later_trans; [exact H2|apply does_take_result]. }
  exact (later_trans [] _ _ _ _ H1 H2).
Qed.

(** ** How far a dispatch gets *)

Lemma run_handlers_cons n h l w :
  run_handlers n (h :: l) w =
  if isImmediatePropagationStopped (ev w) then (Ok tt, w)
  else if accepts (ev w) h then
    match turn n h w with
    | (Ok _, w') => run_handlers n l w'
    | (Throw x, w') => (Throw x, w')
    end
  else run_handlers n l w.
Proof.
  cbn [run_handlers]. unfold get at 1, mbind at 1, M_bind at 1.
  destruct (isImmediatePropagationStopped (ev w)); [done|].
  by destruct (accepts (ev w) h).
Qed.

Lemma asked_cons e n h l :
  asked e n (h :: l) = if accepts e h then (if reaches e n h then [(n, h)] else []) ++ asked e n l else asked e n l.
Proof. unfold asked. rewrite filter_cons. by destruct (accepts e h), (reaches e n h). Qed.

(** The handlers of one element: a first part of those asked for is called, and all
    of them when nothing is thrown and the event not stopped at once. *)
Lemma run_handlers_prefix n l w :
  ∃ pre, later pre w (run_handlers n l w).2 ∧ pre `prefix_of` asked (ev w) n l ∧
    ((run_handlers n l w).1 = Ok tt →
     isImmediatePropagationStopped (ev (run_handlers n l w).2) = false → pre = asked (ev w) n l).
Proof.
  revert w. induction l as [|h l IH]; intros w.
  { exists []. split; [apply later_refl|]. by split. }
  rewrite run_handlers_cons, asked_cons.
  destruct (isImmediatePropagationStopped (ev w)) eqn:Ei.
  { exists []. split; [apply later_refl|]. split; [apply prefix_nil|]. simpl. congruence. }
  destruct (accepts (ev w) h) eqn:Ea; [|apply IH].
  pose proof (does_turn n h w) as H1. destruct (turn n h w) as [[u|x] w1]; simpl in H1.
  - destruct (IH w1) as (pre & H2 & Hp & Hall).
    rewrite (asked_ns (ev w1) (ev w)) in * by (by eapply later_alike).
    eexists. split; [exact (later_trans _ _ _ _ _ H1 H2)|].
    split; [by apply prefix_app|]. intros Hr Hi. by rewrite Hall.
  - eexists. split; [exact H1|]. split; [|done]. apply prefix_app_r. done.
Qed.

Lemma run_queue_cons n l q w :
  run_queue ((n, l) :: q) w =
  if isPropagationStopped (ev w) then (Ok tt, w)
  else match run_handlers n l w with
    | (Ok _, w') => run_queue q w'
    | (Throw x, w') => (Throw x, w')
    end.
Proof.
  cbn [run_queue]. unfold get at 1, mbind at 1, M_bind at 1.
  by destruct (isPropagationStopped (ev w)).
Qed.

(** Stopped at once, the loops of the elements that are left do nothing. *)
Lemma run_queue_stopped q w : isPropagationStopped (ev w) = true → run_queue q w = (Ok tt, w).
Proof. intros Hp. destruct q as [|[n l] q]; [done|]. rewrite run_queue_cons. by rewrite Hp. Qed.

Lemma run_queue_immediate q w :
  isImmediatePropagationStopped (ev w) = true → run_queue q w = (Ok tt, w).
Proof.
  intros Hi. induction q as [|[n l] q IH]; [done|]. rewrite run_queue_cons.
  destruct (isPropagationStopped (ev w)); [done|].
  assert (E : run_handlers n l w = (Ok tt, w)); [|by rewrite E].
  destruct l as [|h l]; [done|]. rewrite run_handlers_cons. by rewrite Hi.
Qed.


(** ** A handler that returns [false] *)

Lemma turn_plain n h acts r w :
  is_once (handler h) = false → enters (origType h) = false →
  code (page (handler h)) n (set_handleObj h (ev w)) = (acts, Returns r) →
  turn n h w =
  match run_acts acts (World (set_handleObj h (ev w)) (elements w) (sh w) (triggered w) (calls w ++ [(n, h)])) with
  | (Ok _, w') => take_result r w'
  | (Throw x, w') => (Throw x, w')
  end.
Proof.
  intros Ho He Hc. unfold turn, call_handler, call_fn, upd_ev, log, modify, get, mbind, M_bind. rewrite He. simpl.
  rewrite Ho. simpl. rewrite Hc. by destruct (run_acts acts _) as [[u|x] w'].
Qed.

(** A handler that returns [false] prevents the default action and stops the
    event: the other handlers of its element may still run, those of the elements
    behind it do not. *)
Theorem false_stops_propagation n h l q acts w :
  isPropagationStopped (ev w) = false → isImmediatePropagationStopped (ev w) = false →
  accepts (ev w) h = true → is_once (handler h) = false → enters (origType h) = false →
  code (page (handler h)) n (set_handleObj h (ev w)) = (acts, Returns (Some RFalse)) →
  (turn n h w).1 = Ok tt →
  let w' := (run_queue ((n, h :: l) :: q) w).2 in
  isDefaultPrevented (ev w') = true ∧ isPropagationStopped (ev w') = true ∧
  ∃ pre, calls w' = calls w ++ (n, h) :: pre ∧ pre `prefix_of` asked (ev w) n l.
Proof.
  intros Hp Hi Ha Ho He Hc Hok. cbv zeta. rewrite run_queue_cons, Hp, run_handlers_cons, Hi, Ha.
  pose proof (does_turn n h w) as H1. unfold reaches in H1. rewrite He in H1. cbn [negb orb] in H1. rewrite (turn_plain n h acts (Some RFalse) w Ho He Hc) in *.
  destruct (run_acts acts _) as [[u|x] w0] eqn:Er; [|done]. clear Hok.
  set (w1 := (take_result (Some RFalse) w0).2) in *.
  assert (Ew : take_result (Some RFalse) w0 = (Ok tt, w1)) by done.
  assert (Hd1 : isDefaultPrevented (ev w1) = true) by (simpl; by rewrite !orb_true_r).
  assert (Hp1 : isPropagationStopped (ev w1) = true) by (simpl; by rewrite !orb_true_r).
  clearbody w1. rewrite Ew in *. simpl in H1.
  destruct (run_handlers_prefix n l w1) as (pre & H2 & Hpre & _).
  rewrite (asked_ns (ev w1) (ev w)) in Hpre by (by eapply later_alike).
  assert (H3 : (match run_handlers n l w1 with
    | (Ok _, w') => run_queue q w' | (Throw x, w') => (Throw x, w') end).2 = (run_handlers n l w1).2).
  { pose proof (later_stopped _ _ _ H2 Hp1) as Hp2.
    destruct (run_handlers n l w1) as [[u2|x] w2]; [|done]. by rewrite run_queue_stopped. }
  rewrite H3. split; [by apply (later_prevented _ _ _ H2)|]. split; [by apply (later_stopped _ _ _ H2)|].
  exists pre. split; [|done].
  rewrite (later_calls _ _ _ H2), (later_calls _ _ _ H1). by rewrite <- (assoc_L (++)).
Qed.

(** ** Handlers of [one] *)

(** A handler bound with [one] is unbound before the page's function runs: it
    runs once.  But it is unbound through the guid of that function, so every other
    handler with this function, type, selector and namespaces goes with it, also
    one that was bound with [on]. *)
Theorem one_unbinds `{!TeardownKept special} n this h ty stack' w :
  stack = S stack' → element_wf special (element_of this w) →
  h ∈ handlers_of ty (element_of this w) → built h → is_once (handler h) = true →
  ev_handleObj (ev w) = Some h → delegateTarget (ev w) = Some this →
  (∀ e, code (page (handler h)) n e = ([], Returns None)) →
  ∃ w', call_fn n (handler h) w = (Ok None, w') ∧ calls w' = calls w ∧
    element_wf special (element_of this w') ∧
    (∀ x, built x → x ∈ handlers_of ty (element_of this w') → x ∈ handlers_of ty (element_of this w) ∧
       ¬ (guid x = guid h ∧ origType x = origType h ∧ selector x = selector h ∧ namespace x = namespace h)).
Proof.
  intros Hst He Hin Hb Ho Hh Hd Hc.
  destruct (off_event_handlers special stack' h (element_of this w) ty He Hb Hin) as (e' & Hoff & He' & Heq).
  exists (World (ev w) (<[this := e']> (elements w)) (sh w) (triggered w) (calls w)).
  assert (Hel : element_of this (World (ev w) (<[this := e']> (elements w)) (sh w) (triggered w) (calls w)) = e').
  { unfold element_of. simpl. by rewrite lookup_insert_eq. }
  rewrite Hel. split.
  - unfold call_fn, get, mbind, M_bind. simpl. rewrite Ho, Hh, Hd. unfold bind_op, run_op.
    rewrite Hst, Hoff. simpl. by rewrite Hc.
  - split; [done|]. split; [done|]. intros x Hbx Hx. rewrite Heq in Hx.
    apply list_elem_of_filter in Hx as [Hx Hxin]. split; [done|]. intros (Hg & Hot & Hsel & Hns).
    rewrite hit_self in Hx; done.
Qed.

End dispatch.

(** ** A click on a page *)

(** Here [RegExp] refuses the names that are no plain text. *)
#[local] Instance no_patterns : RegExpConstructor := λ _, Throw (UserError 0).

(** Node 2 is an [li] in the element 1, which is in the document 0. *)
Definition page_doc : document :=
  Document (λ n, match n with S m => Some m | 0 => None end) (λ _, true) (λ n, negb (n =? 0)) (λ _, false).
Definition page_find (_ : bool) (sel : jsstr) (_ cur : nat) : bool :=
  str_eqb sel (js "li ") && (cur =? 2).
(** Function 8 returns [false], the others nothing. *)
Definition page_code (p n : nat) (e : event) : list act * reply :=
  ([], Returns (if p =? 8 then Some RFalse else None)).
Definition page_browser : browser :=
  Browser (λ _, false) (λ n, n =? 9) (λ n, if n =? 0 then Some 9 else None)
    (λ _ _, None) (λ _ _, None) (λ _, false) (λ _ _, false).
Definition page_event : event := new_event (js "click") [] 2.
Definition page_world : world :=
  World page_event {[1 := page_state.1; 0 := page_state.1]} page_state.2 [] [].
Definition page_trigger (t : jsstr) : outcome (option result) * world :=
  trigger (special_table true) (λ _, false) 0 2 page_doc page_find (λ _ _, false) page_code
    page_browser 5 t 2 false page_world.

Example trigger_ex1 : (λ c, (c.1, page (handler c.2))) <$> calls (page_trigger (js "click")).2 =
  [(2, 8)].
Proof. vm_compute. reflexivity. Qed.
Example trigger_ex2 : (λ c, (c.1, page (handler c.2))) <$> calls (page_trigger (js "click.menu")).2 =
  [(1, 7); (0, 7)].
Proof. vm_compute. reflexivity. Qed.

Definition page_queue : queue := queue_of 1 (js "click") page_world.
Lemma page_queue_hs : ∃ h1 h2, hs page_queue = [h1; h2] ∧ selector h1 = js "li" ∧ selector h2 = [] ∧
  is_once (handler h1) = false ∧ enters (origType h1) = false ∧ page (handler h1) = 8.
Proof. eexists _, _. vm_compute. repeat split. Qed.

Lemma handlers_spec_witness :
  queue_wf page_queue ∧ ∃ l ds us, path_to page_doc 1 2 l ∧ hs page_queue = ds ++ us ∧
    Forall (λ h, delegated h = true) ds ∧ Forall (λ h, delegated h = false) us ∧
    handlers page_doc page_find 4 1 page_event page_queue =
      Ok ((if is_node page_doc 2 && (negb (button page_event) || negb (str_eqb (type page_event) (js "click")))
           then omap (entry page_doc page_find 1 page_event ds) l else [])
          ++ match us with [] => [] | _ => [(1, us)] end).
Proof.
  assert (Hq : queue_wf page_queue).
  { apply (wf_queues _ _ page_wf (js "click") page_queue). vm_compute. reflexivity. }
  split; [exact Hq|].
  apply (handlers_spec page_doc page_find (λ n, n) 1 page_event page_queue 2 4).
  - intros [|n] p; simpl; [done|]. intros [= <-]. lia.
  - exact Hq.
  - destruct page_queue_hs as (h1 & h2 & -> & H1 & H2 & _). intros x y Hx Hy Hxy.
    rewrite !elem_of_cons, elem_of_nil in Hx, Hy.
    destruct Hx as [->|[->|[]]], Hy as [->|[->|[]]]; try done;
      by rewrite H1, H2 in Hxy.
  - reflexivity.
  - lia.
Defined.

Lemma false_stops_propagation_witness :
  ∃ h l, hs page_queue = h :: l ∧
  let w' := (run_queue (special_table true) (λ _, false) 0 2 (λ _ _, false) page_code
    [(2, [h]); (1, l)] page_world).2 in
  isDefaultPrevented (ev w') = true ∧ isPropagationStopped (ev w') = true ∧
  ∃ pre, calls w' = calls page_world ++ (2, h) :: pre ∧ pre `prefix_of` asked (λ _ _, false) (ev page_world) 2 [].
Proof.
  destruct page_queue_hs as (h1 & h2 & Hq & _ & _ & Ho & He & Hp). exists h1, [h2].
  split; [exact Hq|].
  apply (false_stops_propagation (special_table true) (λ _, false) 0 2 (λ _ _, false) page_code
    2 h1 [] [(1, [h2])] [] page_world); [reflexivity|reflexivity|reflexivity|exact Ho|exact He| |].
  - unfold page_code. by rewrite Hp.
  - rewrite (turn_plain _ _ _ _ _ _ 2 h1 [] (Some RFalse)); [reflexivity|exact Ho|exact He|].
    unfold page_code. by rewrite Hp.
Defined.

(** An element with a handler bound by [on] and by [one]. *)
Definition one_state : element * shared :=
  let '(e, g) := on (special_table true) (λ _, false) 0 (js "click") [] None (FnFun 7) false fresh nothing in
  on (special_table true) (λ _, false) 0 (js "click") [] None (FnFun 7) true e g.
Definition one_handler : handleObj :=
  HandleObj (js "click") (js "click") None (Fn 7 true) 1 [] false [].
Definition one_world : world :=
  World (set_delegate 1 (set_handleObj one_handler (new_event (js "click") [] 1)))
    {[1 := one_state.1]} one_state.2 [] [].

Lemma one_handler_built : built one_handler.
Proof.
  split; [done|]. split; [rewrite undotted_cls; by repeat constructor|].
  split; [by repeat constructor|]. exists []. split; [constructor|]. split; reflexivity.
Qed.

Lemma one_unbinds_witness :
  one_handler ∈ handlers_of (js "click") (element_of 1 one_world) ∧
  ∃ w', call_fn (special_table true) (λ _, false) 0 1 page_code 1 (Fn 7 true) one_world = (Ok None, w') ∧
    calls w' = calls one_world ∧ element_wf (special_table true) (element_of 1 w') ∧
    (∀ x, built x → x ∈ handlers_of (js "click") (element_of 1 w') →
       x ∈ handlers_of (js "click") (element_of 1 one_world) ∧
       ¬ (guid x = guid one_handler ∧ origType x = origType one_handler ∧
          selector x = selector one_handler ∧ namespace x = namespace one_handler)).
Proof.
  assert (Hin : one_handler ∈ handlers_of (js "click") (element_of 1 one_world)).
  { assert (H : handlers_of (js "click") (element_of 1 one_world) =
      [HandleObj (js "click") (js "click") None (Fn 7 false) 1 [] false []; one_handler])
      by (vm_compute; reflexivity).
    rewrite H. right. by left. }
  split; [exact Hin|].
  apply (one_unbinds (special_table true) (λ _, false) 0 1 page_code 1 1 one_handler (js "click") 0 one_world);
    [reflexivity| |exact Hin|exact one_handler_built|reflexivity|reflexivity|reflexivity|reflexivity].
  pose proof (foldl_ok_and (pair_wf (special_table true)) _
    [On (js "click") [] None (FnFun 7) false; On (js "click") [] None (FnFun 7) true] (Ok (fresh, nothing))
    (run_op_wf (special_table true) (λ _, false) 0 2) (fresh_wf _ true nothing)) as H.
  exact H.
Defined.

End Dispatch.
