(* ===== verification/JqParam.v ===== *)
(** * Serialisation in jquery.js

    [jQuery.param] writes an object as a query string; the recursion over arrays and
    objects is [buildParams].  The theorem reads the string back with
    [$.getQueryParameters] of doctools.js. *)

From stdpp Require Import base tactics list strings numbers sets gmap.
From Stdlib Require Import NArith ZArith Lia.
From S2P Require Import Prelude.
From S2P Require Import JsString.
From S2P Require Import JsArray.
From S2P Require Import Uri.
From S2P Require Import Doctools.

Module Param.

(** ** Definitions *)

(** Values: a scalar is given by its text, a function by its source and by the text of
    what it returns. *)
Inductive val :=
  | VUndefined
  | VNull
  | VScalar (s : jsstr)
  | VFun (source result : jsstr)
  | VArr (l : list val)
  | VObj (l : list (jsstr * val)).

Definition nullish (v : val) : bool := match v with VUndefined | VNull => true | _ => false end.
(** [String(v)]: an array is its elements between commas, a function its source. *)
Fixpoint text (v : val) : jsstr :=
  match v with
  | VUndefined => js "undefined"
  | VNull => js "null"
  | VScalar s | VFun s _ => s
  | VArr l => join (js ",") ((λ v, if nullish v then [] else text v) <$> l)
  | VObj _ => js "[object Object]"
  end.

(** What [add] encodes: a function is called (it returns a scalar here), null and
    undefined are empty. *)
Definition shown (v : val) : jsstr :=
  match v with VFun _ result => result | _ => if nullish v then [] else text v end.
(** The function [add]: [s] is the array of the encoded parameters. *)
Definition add (key : jsstr) (value : val) (s : list jsstr) : outcome (list jsstr) :=
  match Uri.encodeURIComponent key, Uri.encodeURIComponent (shown value) with
  | Ok k, Ok v => Ok (s ++ [k ++ js "=" ++ v])
  | _, _ => Throw URIError
  end.
Definition and_then (r : outcome (list jsstr)) (f : list jsstr → outcome (list jsstr)) :
    outcome (list jsstr) :=
  match r with Ok s => f s | Throw x => Throw x end.

(** [/\[\]$/]. *)
Definition rbracket (s : jsstr) : bool := bool_decide (drop (length s - 2) s = js "[]").
Definition bracket (prefix inner : jsstr) : jsstr := prefix ++ js "[" ++ inner ++ js "]".
Definition is_object (v : val) : bool :=
  match v with VNull | VArr _ | VObj _ => true | _ => false end.

Fixpoint buildParams (traditional : bool) (prefix : jsstr) (obj : val) (s : list jsstr) :
    outcome (list jsstr) :=
  match obj with
  | VArr l =>
      (fix items (i : nat) (l : list val) (s : list jsstr) : outcome (list jsstr) :=
         match l with
         | [] => Ok s
         | v :: l =>
             and_then
               (if traditional || rbracket prefix then add prefix v s
                else buildParams traditional
                       (bracket prefix (if is_object v then decimal i else [])) v s)
               (items (S i) l)
         end) 0 l s
  | VObj l =>
      if traditional then add prefix obj s
      else
        (fix props (l : list (jsstr * val)) (s : list jsstr) : outcome (list jsstr) :=
           match l with
           | [] => Ok s
           | (name, v) :: l =>
               and_then (buildParams traditional (bracket prefix name) v s) (props l)
           end) l s
  | _ => add prefix obj s
  end.

(** [replace(/%20/g, "+")]. *)
Fixpoint r20 (s : jsstr) : jsstr :=
  match s with
  | [] => []
  | c :: t =>
      match t with
      | d :: e :: s' =>
          if N.eqb c 37 && N.eqb d 50 && N.eqb e 48 then 43%N :: r20 s' else c :: r20 t
      | _ => c :: r20 t
      end
  end.

(** The argument of [param]: form elements in an array, or an object. *)
Inductive input := Fields (l : list (jsstr * val)) | Props (l : list (jsstr * val)).
Definition collect (f : jsstr → val → list jsstr → outcome (list jsstr)) (l : list (jsstr * val)) :
    outcome (list jsstr) :=
  foldl (λ r kv, and_then r (f kv.1 kv.2)) (Ok []) l.
Definition param (a : input) (traditional : bool) : outcome jsstr :=
  match (match a with
    | Fields l => collect add l
    | Props l => collect (buildParams traditional) l
    end) with
  | Ok s => Ok (r20 (join (js "&") s))
  | Throw x => Throw x
  end.

Definition example : input := Props [
  (js "a", VScalar (js "x y")); (js "b", VArr [VScalar (js "1"); VArr [VNull]]);
  (js "c", VObj [(js "d", VScalar (js "2"))]) ].
Example param_ex : param example false =
  Ok (js "a=x+y&b%5B%5D=1&b%5B1%5D%5B0%5D=&c%5Bd%5D=2").
Proof. vm_compute. reflexivity. Qed.
Example param_ex_traditional : param example true =
  Ok (js "a=x+y&b=1&b=&c=%5Bobject+Object%5D").
Proof. vm_compute. reflexivity. Qed.

(** ** What is serialised *)

(** The names and texts of the parameters, in order. *)
Fixpoint flat (traditional : bool) (prefix : jsstr) (obj : val) : list (jsstr * jsstr) :=
  match obj with
  | VArr l =>
      (fix items (i : nat) (l : list val) : list (jsstr * jsstr) :=
         match l with
         | [] => []
         | v :: l =>
             (if traditional || rbracket prefix then [(prefix, shown v)]
              else flat traditional (bracket prefix (if is_object v then decimal i else [])) v)
             ++ items (S i) l
         end) 0 l
  | VObj l =>
      if traditional then [(prefix, shown obj)]
      else
        (fix props (l : list (jsstr * val)) : list (jsstr * jsstr) :=
           match l with
           | [] => []
           | (name, v) :: l => flat traditional (bracket prefix name) v ++ props l
           end) l
  | _ => [(prefix, shown obj)]
  end.
Definition pairs (a : input) (traditional : bool) : list (jsstr * jsstr) :=
  match a with
  | Fields l => (λ kv, (kv.1, shown kv.2)) <$> l
  | Props l => concat ((λ kv, flat traditional kv.1 kv.2) <$> l)
  end.

Section val_ind.
Variable P : val → Prop.
Hypothesis HU : P VUndefined.
Hypothesis HN : P VNull.
Hypothesis HS : ∀ s, P (VScalar s).
Hypothesis HF : ∀ s r, P (VFun s r).
Hypothesis HA : ∀ l, Forall P l → P (VArr l).
Hypothesis HO : ∀ l, Forall (λ kv, P kv.2) l → P (VObj l).
Fixpoint val_nested_ind (v : val) : P v :=
  match v with
  | VUndefined => HU
  | VNull => HN
  | VScalar s => HS s
  | VFun s r => HF s r
  | VArr l =>
      HA l ((fix go (l : list val) : Forall P l :=
        match l with
        | [] => Forall_nil_2 P
        | v :: l => Forall_cons_2 P v l (val_nested_ind v) (go l)
        end) l)
  | VObj l =>
      HO l ((fix go (l : list (jsstr * val)) : Forall (λ kv, P kv.2) l :=
        match l with
        | [] => Forall_nil_2 _
        | kv :: l => Forall_cons_2 (λ kv, P kv.2) kv l (val_nested_ind kv.2) (go l)
        end) l)
  end.
End val_ind.

(** The part of the query string made from a parameter. *)
Definition part (kv : jsstr * jsstr) (e : jsstr) : Prop :=
  ∃ k v, Uri.encodeURIComponent kv.1 = Ok k ∧ Uri.encodeURIComponent kv.2 = Ok v ∧ e = k ++ js "=" ++ v.
(** A run of [add] that succeeds has appended one part for each parameter. *)
Definition writes (f : list jsstr → outcome (list jsstr)) (kvs : list (jsstr * jsstr)) : Prop :=
  ∀ s s', f s = Ok s' → ∃ es, s' = s ++ es ∧ Forall2 part kvs es.

Lemma writes_add k v : writes (add k v) [(k, shown v)].
Proof.
  intros s s'. unfold add. destruct (Uri.encodeURIComponent k) as [ek|] eqn:Ek; [|done].
  destruct (Uri.encodeURIComponent (shown v)) as [ev|] eqn:Ev; [|done]. intros [= <-].
  exists [ek ++ js "=" ++ ev]. split; [done|]. constructor; [|constructor]. by exists ek, ev.
Qed.

Lemma writes_nil : writes Ok [].
Proof. intros s s' [= <-]. exists []. by rewrite app_nil_r. Qed.

Lemma writes_app f g kvs1 kvs2 :
  writes f kvs1 → writes g kvs2 → writes (λ s, and_then (f s) g) (kvs1 ++ kvs2).
Proof.
  intros Hf Hg s s'. unfold and_then. destruct (f s) as [s1|] eqn:E; [|done]. intros H.
  apply Hf in E as (es1 & -> & H1). apply Hg in H as (es2 & -> & H2).
  exists (es1 ++ es2). rewrite (assoc_L (++)). split; [done|]. by apply Forall2_app.
Qed.

Lemma buildParams_writes traditional obj : ∀ prefix,
  writes (buildParams traditional prefix obj) (flat traditional prefix obj).
Proof.
  induction obj as [| |s|s|l IH|l IH] using val_nested_ind; intros prefix; try apply writes_add.
  - cbn [buildParams flat]. generalize 0 as i. induction IH as [|v l Hv Hl IHl]; intros i; [apply writes_nil|].
    apply (writes_app (λ s, if traditional || rbracket prefix then add prefix v s
      else buildParams traditional (bracket prefix (if is_object v then decimal i else [])) v s)); [|apply IHl].
    destruct (traditional || rbracket prefix); [apply writes_add|apply Hv].
  - cbn [buildParams flat]. destruct traditional; [apply writes_add|].
    induction IH as [|[name v] l Hv Hl IHl]; [apply writes_nil|].
    by apply (writes_app (buildParams false (bracket prefix name) v)).
Qed.

Lemma collect_writes f g l :
  (∀ k v, writes (f k v) (g k v)) →
  ∀ s, collect f l = Ok s → Forall2 part (concat ((λ kv, g kv.1 kv.2) <$> l)) s.
Proof.
  intros Hf. unfold collect.
  assert (H : ∀ r0 s, foldl (λ r kv, and_then r (f kv.1 kv.2)) r0 l = Ok s →
    ∃ s0 es, r0 = Ok s0 ∧ s = s0 ++ es ∧ Forall2 part (concat ((λ kv, g kv.1 kv.2) <$> l)) es).
  { induction l as [|[k v] l IH]; intros r0 s; cbn [foldl].
    - intros ->. exists s, []. by rewrite app_nil_r.
    - intros H. apply IH in H as (s1 & es & H1 & -> & H2). unfold and_then in H1.
      destruct r0 as [s0|]; [|done]. cbn [fst snd] in H1. apply Hf in H1 as (es1 & -> & H1).
      exists s0, (es1 ++ es). rewrite (assoc_L (++)). split; [done|]. split; [done|].
      rewrite fmap_cons. cbn [concat fst snd]. by apply Forall2_app. }
  intros s Hs. by destruct (H _ _ Hs) as (s0 & es & [= <-] & -> & Hes).
Qed.

Lemma param_parts a traditional q :
  param a traditional = Ok q →
  ∃ es, q = r20 (join [chr "&"] es) ∧ Forall2 part (pairs a traditional) es.
Proof.
  unfold param. destruct a as [l|l].
  - destruct (collect add l) as [s|] eqn:E; [|done]. intros [= <-]. exists s. split; [done|].
    apply (collect_writes add (λ k v, [(k, shown v)])) in E; [|apply writes_add].
    assert (Hc : concat ((λ kv : jsstr * val, [(kv.1, shown kv.2)]) <$> l) = pairs (Fields l) traditional).
    { clear. induction l as [|kv l IH]; [done|]. rewrite fmap_cons. cbn [concat]. by rewrite IH. }
    by rewrite <- Hc.
  - destruct (collect _ l) as [s|] eqn:E; [|done]. intros [= <-]. exists s. split; [done|].
    by apply (collect_writes _ (flat traditional)) in E; [|intros; apply buildParams_writes].
Qed.

(** ** Plus signs for spaces *)

(** What [r20] makes of an encoded code point, and what it is decoded to. *)
Definition encode_point20 (v : N) : jsstr := if N.eqb v 32 then [43%N] else Uri.encode_point v.
Definition plus_for_space (v : N) : N := if N.eqb v 32 then 43%N else v.

Lemma r20_other c t : c ≠ 37%N → r20 (c :: t) = c :: r20 t.
Proof.
  intros Hc. cbn [r20]. destruct t as [|d [|e t]]; [done..|].
  by rewrite (proj2 (N.eqb_neq c 37)).
Qed.

Lemma hex_digit_ge n : (48 ≤ Uri.hex_digit n)%N.
Proof. unfold Uri.hex_digit. destruct (N.ltb_spec n 10); lia. Qed.
Lemma hex_digit_inj n d : (n < 16)%N → (d < 10)%N → Uri.hex_digit n = (48 + d)%N → n = d.
Proof. unfold Uri.hex_digit. destruct (N.ltb_spec n 10); lia. Qed.

Lemma r20_pct b t :
  (b < 256)%N → r20 (Uri.pct b ++ t) = (if N.eqb b 32 then [43%N] else Uri.pct b) ++ r20 t.
Proof.
  intros Hb. unfold Uri.pct. cbn [app].
  assert (Hh : (b / 16 < 16)%N) by (apply N.Div0.div_lt_upper_bound; lia).
  assert (Hl : (b mod 16 < 16)%N) by (apply N.mod_lt; lia).
  pose proof (N.div_mod b 16 ltac:(lia)) as Hdm.
  assert (Hr : r20 (Uri.hex_digit (b / 16) :: Uri.hex_digit (b mod 16) :: t) =
    Uri.hex_digit (b / 16) :: Uri.hex_digit (b mod 16) :: r20 t).
  { pose proof (hex_digit_ge (b / 16)). pose proof (hex_digit_ge (b mod 16)).
    rewrite !r20_other by lia. done. }
  change (r20 (37%N :: Uri.hex_digit (b / 16) :: Uri.hex_digit (b mod 16) :: t)) with
    (if N.eqb (Uri.hex_digit (b / 16)) 50 && N.eqb (Uri.hex_digit (b mod 16)) 48 then 43%N :: r20 t
     else 37%N :: r20 (Uri.hex_digit (b / 16) :: Uri.hex_digit (b mod 16) :: t)).
  rewrite Hr. destruct (N.eqb_spec b 32) as [->|Hne]; [reflexivity|].
  destruct (_ && _) eqn:E; [|done]. exfalso. apply andb_true_iff in E as [E1%N.eqb_eq E2%N.eqb_eq].
  apply (hex_digit_inj _ 2) in E1; [|done|lia]. apply (hex_digit_inj _ 0) in E2; [|done|lia]. lia.
Qed.

Lemma utf8_bytes v : Forall (λ b, b = v ∨ (128 ≤ b)%N) (Uri.utf8 v).
Proof.
  unfold Uri.utf8. repeat match goal with |- context [N.ltb ?a ?b] => destruct (N.ltb_spec a b) end;
    repeat constructor; lia.
Qed.

Lemma r20_point v t :
  Uri.is_scalar v = true → r20 (Uri.encode_point v ++ t) = encode_point20 v ++ r20 t.
Proof.
  intros Hv. unfold encode_point20. destruct (N.eqb_spec v 32) as [->|Hne].
  { change (Uri.encode_point 32) with (Uri.pct 32). by apply (r20_pct 32). }
  unfold Uri.encode_point. destruct (_ && _) eqn:E.
  - apply andb_true_iff in E as [_ Hu]. apply (r20_other v t). intros ->. by vm_compute in Hu.
  - pose proof (utf8_bytes v) as Hb. pose proof (Doc.utf8_octets v Hv) as Ho.
    induction Ho as [|b l Hb256 Ho IH]; [done|]. apply Forall_cons in Hb as [Hb Hbs].
    rewrite !bind_cons, <- !(assoc_L (++)), r20_pct, IH by done.
    rewrite (proj2 (N.eqb_neq b 32)); [done|]. destruct Hb as [->|]; [done|lia].
Qed.

Lemma r20_points vs t :
  Forall (λ v, Uri.is_scalar v = true) vs →
  r20 ((vs ≫= Uri.encode_point) ++ t) = (vs ≫= encode_point20) ++ r20 t.
Proof.
  induction 1 as [|v vs Hv Hvs IH]; [done|]. by rewrite !bind_cons, <- !(assoc_L (++)), r20_point, IH.
Qed.

(** The encoded text of a string after [r20], and what doctools.js reads in it. *)
Lemma r20_encoded s e :
  code_units s → Uri.encodeURIComponent s = Ok e →
  ∃ e', (∀ t, r20 (e ++ t) = e' ++ r20 t) ∧ Doc.urldecode e' = Ok (Doc.plus_to_space s) ∧
    Forall (λ c, Doc.query_safe c = true ∨ c = chr "+") e'.
Proof.
  intros Hs He. pose proof (Doc.urlencode_safe s e Hs He) as Hsafe.
  unfold Uri.encodeURIComponent in He. destruct (Uri.code_points s) as [vs|] eqn:Ec; [|done].
  injection He as <-. destruct (Uri.code_points_units s vs Hs Ec) as [Hv Hu].
  exists (vs ≫= encode_point20). split; [intros t; by apply r20_points|]. split.
  - unfold Doc.urldecode, Uri.decodeURIComponent.
    rewrite (Uri.decode_loop_pieces encode_point20 plus_for_space); [|..|done].
    + f_equal. rewrite <- Hu. unfold Doc.plus_to_space. clear.
      induction vs as [|v vs IH]; [done|]. rewrite !bind_cons, !replace_unit_app, IH. f_equal.
      unfold plus_for_space. by destruct (N.eqb_spec v 32) as [->|].
    + eapply Forall_impl; [exact Hv|]. intros v Hv'. unfold encode_point20, plus_for_space.
      destruct (v =? 32)%N; [done|]. split; [apply Uri.encode_point_ne|].
      intros t. by apply Uri.decode_encode_point.
  - clear -Hsafe. induction vs as [|v vs IH]; [constructor|]. rewrite bind_cons in *.
    apply Forall_app in Hsafe as [Hp Hvs]. apply Forall_app. split; [|by apply IH].
    unfold encode_point20. destruct (v =? 32)%N; [by constructor; [right|constructor]|].
    eapply Forall_impl; [exact Hp|]. by left.
Qed.

Lemma plus_safe_not_in e d :
  Forall (λ c, Doc.query_safe c = true ∨ c = chr "+") e → Doc.query_safe d = false → d ≠ chr "+" → d ∉ e.
Proof.
  intros He Hd Hne Hin. rewrite Forall_forall in He. destruct (He d Hin) as [H|H]; congruence.
Qed.

Lemma r20_part kv e :
  code_units kv.1 → code_units kv.2 → part kv e →
  ∃ e', (∀ t, r20 (e ++ t) = e' ++ r20 t) ∧ Doc.reads_as kv e'.
Proof.
  intros Hk Hv (k & v & Ek & Ev & ->).
  destruct (r20_encoded _ _ Hk Ek) as (k' & Hrk & Hdk & Hsk).
  destruct (r20_encoded _ _ Hv Ev) as (v' & Hrv & Hdv & Hsv).
  exists (k' ++ chr "=" :: v'). split.
  - intros t. rewrite <- !(assoc_L (++)), Hrk. change (js "=" ++ v ++ t) with (chr "=" :: v ++ t).
    rewrite r20_other by done. by rewrite Hrv.
  - exists k', v'. split; [done|]. split; [by split; eapply plus_safe_not_in|].
    split; [by split; eapply plus_safe_not_in|done].
Qed.

Lemma r20_join kvs es :
  Forall2 part kvs es → Forall (λ kv, code_units kv.1 ∧ code_units kv.2) kvs →
  ∃ es', r20 (join [chr "&"] es) = join [chr "&"] es' ∧ Forall2 Doc.reads_as kvs es'.
Proof.
  induction 1 as [|kv e kvs es He H IH]; intros Hu; [by exists []|].
  apply Forall_cons in Hu as [[Hk Hv] Hu]. destruct (IH Hu) as (es' & Hj & Hr).
  destruct (r20_part kv e Hk Hv He) as (e' & He' & Hre). exists (e' :: es').
  split; [|by constructor]. destruct H as [|kv2 e2 kvs es He2 H].
  - inversion Hr; subst. cbn [join]. rewrite <- (app_nil_r e), He'. cbn [r20]. by rewrite app_nil_r.
  - inversion Hr; subst. rewrite !join_cons by done. rewrite He'. cbn [app].
    rewrite r20_other by done. by rewrite Hj.
Qed.

(** C37: the two libraries agree on query strings: from the string that [jQuery.param]
    makes of an object or of form elements, [$.getQueryParameters] reads for every
    parameter name the list of its values in order, whatever arrays and objects were
    nested in it and although spaces became plus signs (a plus sign in the data reads as
    a space too).  The input must give at least one parameter, its names and values must
    be strings that can be encoded (else [jQuery.param] throws), and no parameter may have
    a name that objects inherit from [Object.prototype], such as constructor: reading one
    throws. *)
Theorem param_read_back (a : input) (traditional : bool) (q : jsstr) :
  param a traditional = Ok q → pairs a traditional ≠ [] →
  Forall (λ kv, code_units kv.1 ∧ code_units kv.2) (pairs a traditional) →
  Forall (λ kv, Doc.inherited (Doc.plus_to_space kv.1) = false) (pairs a traditional) →
  ∃ r, Doc.getQueryParameters (chr "?" :: q) = Ok r ∧
    ∀ k, default [] (obj_get k r) =
      snd <$> base.filter (λ kv, kv.1 = k)
        (prod_map Doc.plus_to_space Doc.plus_to_space <$> pairs a traditional).
Proof.
  intros Hq Hne Hu Hi. apply param_parts in Hq as (es & -> & Hes).
  destruct (r20_join _ _ Hes Hu) as (es' & -> & Hr). by apply Doc.getQueryParameters_reads.
Qed.

Lemma param_read_back_witness :
  ∃ r, Doc.getQueryParameters (chr "?" :: js "a=x+y&b%5B%5D=1&b%5B1%5D%5B0%5D=&c%5Bd%5D=2") = Ok r ∧
    ∀ k, default [] (obj_get k r) =
      snd <$> base.filter (λ kv, kv.1 = k)
        (prod_map Doc.plus_to_space Doc.plus_to_space <$> pairs example false).
Proof.
  assert (Hp : pairs example false = [(js "a", js "x y"); (js "b[]", js "1"); (js "b[1][0]", []);
    (js "c[d]", js "2")]) by (vm_compute; reflexivity).
  apply (param_read_back example false).
  - exact param_ex.
  - by rewrite Hp.
  - rewrite Hp. repeat (apply Forall_cons; split; [split; by repeat constructor|]). constructor.
  - rewrite Hp. repeat (apply Forall_cons; split; [by vm_compute|]). constructor.
Defined.

End Param.
