(* ===== verification/JqAjax.v ===== *)
(** * Responses of a request in jquery.js

    [ajaxHandleResponses] chooses among the responses of a transport, and
    [ajaxConvert] carries the chosen one through the data types that were asked for,
    with the converters of the settings.  A converter is [true] or a function of the
    page, which may throw. *)

From stdpp Require Import base tactics list strings numbers sets gmap.
From Stdlib Require Import NArith ZArith Lia.
From S2P Require Import Prelude.
From S2P Require Import JsString.
From S2P Require Import JsArray.

Module Ajax.

(** ** Definitions *)

Inductive conv := Same | Call (f : nat).

Section ajax.
Context `{UnicodeCase} {V : Type}.

(** The fields of the settings that the two functions read. *)
Record settings := Settings {
  dataTypes : list jsstr;
  converters : list (jsstr * conv);
  contents : list (jsstr * option (jsstr → bool));
  mimeType : jsstr;                      (* empty when it is missing *)
  responseFields : list (jsstr * jsstr);
  dataFilter : option (V → V);
  throws : bool;
}.

(** What [ajaxConvert] returns. *)
Inductive conversion :=
  | Success (data : V)
  | Failed (error : nat)
  | NoConversion (from to : jsstr).

(** [while (dataTypes[0] === "*")]: the types without the stars in front, and
    whether there was one. *)
Fixpoint drop_stars (ts : list jsstr) : list jsstr * bool :=
  match ts with
  | t :: ts' => if str_eqb t (js "*") then ((drop_stars ts').1, true) else (ts, false)
  | [] => ([], false)
  end.
Definition missing (s : jsstr) : bool := match s with [] => true | _ => false end.
Definition no_type (o : option jsstr) : bool := match o with Some t => missing t | None => true end.
Fixpoint content_type (cs : list (jsstr * option (jsstr → bool))) (ct : jsstr) : option jsstr :=
  match cs with
  | [] => None
  | (t, Some p) :: cs => if p ct then Some t else content_type cs ct
  | (_, None) :: cs => content_type cs ct
  end.
Definition pair_key (a b : jsstr) : jsstr := a ++ js " " ++ b.
(** The loop over the responses for a type that is none of them. *)
Fixpoint convertible (cv : list (jsstr * conv)) (want : option jsstr) (rs : list (jsstr * V))
    (first : option jsstr) : option jsstr :=
  match rs with
  | [] => first
  | (t, _) :: rs =>
      if match want with
         | None => true
         | Some d => missing d || obj_has (pair_key t d) cv
         end
      then (if missing t then first else Some t)
      else convertible cv want rs (if no_type first then Some t else first)
  end.
(** The types of the settings without their stars, after the type of the content
    when it is a known one; [header] is the Content-Type of the answer. *)
Definition expected (s : settings) (header : jsstr) : list jsstr :=
  let '(ts, star) := drop_stars (dataTypes s) in
  let ct := if star then (if missing (mimeType s) then header else mimeType s) else [] in
  if missing ct then ts
  else match content_type (contents s) ct with Some t => t :: ts | None => ts end.
(** [ajaxHandleResponses]: the data types it leaves in the settings, and the response. *)
Definition ajaxHandleResponses (s : settings) (header : jsstr) (rs : list (jsstr * V)) :
    list jsstr * option V :=
  let ts := expected s header in
  let final :=
    match head ts with
    | Some d => if obj_has d rs then Some d else convertible (converters s) (head ts) rs None
    | None => convertible (converters s) None rs None
    end in
  match final with
  | Some t =>
      if missing t then (ts, None)
      else (if bool_decide (head ts = Some t) then ts else t :: ts, obj_get t rs)
  | None => (ts, None)
  end.

(** [converters[conv.toLowerCase()] = s.converters[conv]]. *)
Definition lower_converters (cv : list (jsstr * conv)) : list (jsstr * conv) :=
  foldl (λ o kv, obj_set (to_lower kv.1) kv.2 o) [] cv.

Definition direct (cv : list (jsstr * conv)) (prev cur : jsstr) : option conv :=
  match obj_get (pair_key prev cur) cv with
  | Some c => Some c
  | None => obj_get (pair_key (js "*") cur) cv
  end.
(** The loop over the converters for a pair: the converter to use now, the current
    type, and the type to put in front of the others. *)
Fixpoint seek (cv : list (jsstr * conv)) (keys : list (jsstr * conv)) (prev cur : jsstr) :
    option (conv * jsstr * option jsstr) :=
  match keys with
  | [] => None
  | (conv2, c2) :: keys =>
      let tmp := split_unit 32 conv2 in
      if bool_decide (tmp !! 1 = Some cur) then
        match direct cv prev (default [] (tmp !! 0)) with
        | None => seek cv keys prev cur
        | Some Same => Some (c2, cur, None)
        | Some c =>
            match c2 with
            | Same => Some (c, cur, None)
            | Call _ => Some (c, default [] (tmp !! 0), tmp !! 1)
            end
        end
      else seek cv keys prev cur
  end.

(** A converter of the page: a value or an exception. *)
Variable call : nat → V → V + nat.

Section convert.
Variable s : settings.
Variable cv : list (jsstr * conv).

Definition note_field (cur : jsstr) (r : V) (xhr : list (jsstr * V)) : list (jsstr * V) :=
  match obj_get cur (responseFields s) with Some f => obj_set f r xhr | None => xhr end.

(** [while (current)]: [current] and [rest] are the types that are left. *)
Fixpoint convert_loop (fuel : nat) (filter_ : option (V → V)) (cur : jsstr) (rest : list jsstr)
    (r : V) (xhr : list (jsstr * V)) : outcome (conversion * list (jsstr * V)) :=
  match fuel with
  | 0 => Throw Diverge
  | S k =>
      let xhr := note_field cur r xhr in
      let r := match filter_ with Some f => f r | None => r end in
      match rest with
      | [] => Ok (Success r, xhr)
      | c :: rest =>
          if missing c then Ok (Success r, xhr)
          else if str_eqb c (js "*") then convert_loop k None cur rest r xhr
          else if str_eqb cur (js "*") || str_eqb cur c then convert_loop k None c rest r xhr
          else
            match (match direct cv cur c with
              | Some d => Some (d, c, None)
              | None => seek cv cv cur c
              end) with
            | None => Ok (NoConversion cur c, xhr)
            | Some (d, c', front) =>
                match (match d with Same => inl r | Call f => call f r end) with
                | inr e => if throws s then Throw (UserError e) else Ok (Failed e, xhr)
                | inl r =>
                    convert_loop k None c' (match front with Some t => t :: rest | None => rest end) r xhr
                end
            end
      end
  end.
End convert.

(** [ajaxConvert]; the converters are read when there are two types. *)
Definition ajaxConvert (fuel : nat) (s : settings) (response : V) (xhr : list (jsstr * V))
    (isSuccess : bool) : outcome (conversion * list (jsstr * V)) :=
  match dataTypes s with
  | cur :: rest =>
      if missing cur then Ok (Success response, xhr)
      else
        let cv := match rest with t :: _ => if missing t then [] else lower_converters (converters s) | [] => [] end in
        convert_loop s cv fuel (if isSuccess then dataFilter s else None) cur rest response xhr
  | [] => Ok (Success response, xhr)
  end.
End ajax.

(** ** Converting step by step *)

Section facts.
Context `{UnicodeCase} {V : Type}.
Variable call : nat → V → V + nat.
Variable s : settings (V := V).
Variable cv : list (jsstr * conv).

Definition name (t : jsstr) : Prop := t ≠ [] ∧ 32%N ∉ t.
(** Every converter is named by two types. *)
Definition cv_wf : Prop :=
  obj_wf cv ∧ ∀ k, k ∈ obj_keys cv → ∃ a b, k = pair_key a b ∧ name a ∧ name b.

Definition use (c : conv) (r : V) : V + nat := match c with Same => inl r | Call f => call f r end.

(** The reference: the converters between two types, in the order they are applied,
    with the type in between. *)
Fixpoint first_pair (keys : list (jsstr * conv)) (prev cur : jsstr) : option (conv * jsstr * conv) :=
  match keys with
  | [] => None
  | (k, c2) :: keys =>
      match split_unit 32 k with
      | [x; y] =>
          match bool_decide (y = cur), direct cv prev x with
          | true, Some c1 => Some (c1, x, c2)
          | _, _ => first_pair keys prev cur
          end
      | _ => first_pair keys prev cur
      end
  end.
Inductive route := NoRoute | Direct (c : conv) | Via (c1 : conv) (x : jsstr) (c2 : conv).
Definition route_of (prev cur : jsstr) : route :=
  if str_eqb prev (js "*") || str_eqb prev cur then Direct Same
  else match direct cv prev cur with
    | Some c => Direct c
    | None => match first_pair cv prev cur with Some (c1, x, c2) => Via c1 x c2 | None => NoRoute end
    end.

Definition result : Type := outcome (@conversion V * list (jsstr * V)).
Definition fail (e : nat) (xhr : list (jsstr * V)) : result :=
  if throws s then Throw (UserError e) else Ok (Failed e, xhr).
(** The field of a type in between is set only when both converters do something. *)
Definition note_between (x : jsstr) (c1 c2 : conv) (r : V) (xhr : list (jsstr * V)) : list (jsstr * V) :=
  match c1, c2 with Call _, Call _ => note_field s x r xhr | _, _ => xhr end.
Fixpoint chain (prev : jsstr) (types : list jsstr) (r : V) (xhr : list (jsstr * V)) : result :=
  match types with
  | [] => Ok (Success r, xhr)
  | c :: types =>
      let c := if str_eqb c (js "*") then prev else c in
      match route_of prev c with
      | NoRoute => Ok (NoConversion prev c, xhr)
      | Direct c1 =>
          match use c1 r with
          | inr e => fail e xhr
          | inl r => chain c types r (note_field s c r xhr)
          end
      | Via c1 x c2 =>
          match use c1 r with
          | inr e => fail e xhr
          | inl r1 =>
              match use c2 r1 with
              | inr e => fail e (note_between x c1 c2 r1 xhr)
              | inl r2 => chain c types r2 (note_field s c r2 (note_between x c1 c2 r1 xhr))
              end
          end
      end
  end.

Lemma split_pair a b : name a → name b → split_unit 32 (pair_key a b) = [a; b].
Proof.
  intros [_ Ha] [_ Hb]. unfold pair_key. change (js " " ++ b) with (32%N :: b).
  by rewrite split_unit_sep, !split_unit_word.
Qed.

(** The loop over the converters finds the first pair. *)
Lemma seek_first_pair keys prev cur :
  cv_wf → keys ⊆ cv →
  seek cv keys prev cur =
  (λ p, match p with
    | (Same, _, c2) => (c2, cur, None)
    | (c1, _, Same) => (c1, cur, None)
    | (c1, x, _) => (c1, x, Some cur)
    end) <$> first_pair keys prev cur.
Proof.
  intros [_ Hwf]. induction keys as [|[k c2] keys IH]; intros Hsub; [done|]. cbn [seek first_pair].
  destruct (Hwf k) as (a & b & -> & Ha & Hb).
  { apply (list_elem_of_fmap_2 fst _ (k, c2)). apply Hsub. by left. }
  rewrite split_pair by done. cbn [lookup list_lookup from_option id].
  rewrite IH by (intros x Hx; apply Hsub; by right).
  destruct (decide (b = cur)) as [->|Hne].
  - rewrite !bool_decide_true by done. destruct (direct cv prev a) as [[|f]|]; [done| |done]. by destruct c2.
  - by rewrite !bool_decide_false by congruence.
Qed.

Lemma first_pair_in keys prev cur c1 x c2 :
  cv_wf → keys ⊆ cv → first_pair keys prev cur = Some (c1, x, c2) →
  (pair_key x cur, c2) ∈ cv ∧ direct cv prev x = Some c1 ∧ name x.
Proof.
  intros [_ Hwf]. induction keys as [|[k c] keys IH]; intros Hsub; [done|]. cbn [first_pair].
  destruct (Hwf k) as (a & b & -> & Ha & Hb).
  { apply (list_elem_of_fmap_2 fst _ (k, c)). apply Hsub. by left. }
  rewrite split_pair by done. assert (Hk : keys ⊆ cv) by (intros y Hy; apply Hsub; by right).
  case_bool_decide as Hbc; [|by apply IH]. subst b.
  destruct (direct cv prev a) as [d|] eqn:Ed; [|by apply IH].
  intros [= -> -> ->]. split; [apply Hsub; by left|done].
Qed.

Lemma str_eqb_false (a b : jsstr) : a ≠ b → str_eqb a b = false.
Proof. intros Hne. unfold str_eqb. by rewrite bool_decide_false. Qed.

Lemma str_eqb_refl (a : jsstr) : str_eqb a a = true.
Proof. unfold str_eqb. by rewrite bool_decide_true. Qed.

Definition filtered (flt : option (V → V)) (r : V) : V := match flt with Some f => f r | None => r end.

(** One turn of the loop with a conversion. *)
Lemma convert_loop_S k flt cur c rest r xhr :
  missing c = false → c ≠ js "*" → cur ≠ js "*" → cur ≠ c →
  convert_loop call s cv (S k) flt cur (c :: rest) r xhr =
  match (match direct cv cur c with Some d => Some (d, c, None) | None => seek cv cv cur c end) with
  | None => Ok (NoConversion cur c, note_field s cur r xhr)
  | Some (d, c', front) =>
      match use d (filtered flt r) with
      | inr e => fail e (note_field s cur r xhr)
      | inl r' => convert_loop call s cv k None c'
          (match front with Some t => t :: rest | None => rest end) r' (note_field s cur r xhr)
      end
  end.
Proof.
  intros Hm Hc Hs Hne. cbn [convert_loop]. rewrite Hm, !str_eqb_false by done. done.
Qed.

Lemma convert_loop_chain rest cur r xhr fuel flt :
  cv_wf → Forall name rest → 2 * length rest < fuel →
  convert_loop call s cv fuel flt cur rest r xhr =
  chain cur rest (filtered flt r) (note_field s cur r xhr).
Proof.
  intros Hwf Hrest. revert cur r xhr fuel flt.
  induction Hrest as [|c rest Hc Hrest IH]; intros cur r xhr [|k] flt Hf; cbn [length] in Hf; try lia; [done|].
  set (r0 := filtered flt r).
  assert (Hm : missing c = false) by (destruct Hc as [Hc _]; by destruct c).
  cbn [chain]. unfold route_of. destruct (str_eqb_spec c (js "*")) as [Hstar|Hstar].
  { cbn [convert_loop]. rewrite Hm, Hstar, !str_eqb_refl, orb_true_r. cbn [use]. apply (IH _ _ _ _ None); lia. }
  destruct (str_eqb cur (js "*") || str_eqb cur c) eqn:Esame.
  { cbn [convert_loop]. rewrite Hm, Esame, (str_eqb_false c) by done. apply (IH _ _ _ _ None); lia. }
  apply orb_false_iff in Esame as [E1 E2].
  assert (Hn1 : cur ≠ js "*") by (intros ->; by vm_compute in E1).
  assert (Hn2 : cur ≠ c) by (intros ->; unfold str_eqb in E2; by rewrite bool_decide_true in E2).
  rewrite convert_loop_S by done. fold r0. destruct (direct cv cur c) as [d|] eqn:Ed.
  { destruct (use d r0) as [r'|e]; [|done]. apply (IH _ _ _ _ None); lia. }
  rewrite seek_first_pair by done. destruct (first_pair cv cur c) as [[[c1 x] c2]|] eqn:Ep; [|done].
  destruct (first_pair_in cv cur c c1 x c2 Hwf ltac:(done) Ep) as (Hin & Hd & Hx).
  destruct c1 as [|f1]; [|destruct c2 as [|f2]]; cbn [fmap option_fmap option_map use note_between].
  - destruct c2; cbn [use]; [apply (IH _ _ _ _ None); lia|]. destruct (call f r0); [|done]. apply (IH _ _ _ _ None); lia.
  - destruct (call f1 r0); [|done]. apply (IH _ _ _ _ None); lia.
  - destruct (call f1 r0) as [r1|e]; [|done]. destruct Hwf as [Hnd Hwf].
    assert (Hget : obj_get (pair_key x c) cv = Some (Call f2)) by by apply obj_get_elem.
    assert (Hxs : x ≠ js "*").
    { intros ->. unfold direct in Ed. rewrite Hget in Ed. by destruct (obj_get (pair_key cur c) cv). }
    assert (Hxc : x ≠ c) by (intros ->; congruence).
    destruct k as [|k]; [lia|]. rewrite convert_loop_S by done.
    unfold direct at 1. rewrite Hget. cbn [use filtered].
    destruct (call f2 r1) as [r2|e]; [|done]. apply (IH _ _ _ _ None); lia.
Qed.

End facts.

(** ** What the two functions return *)

Section results.
Context `{UnicodeCase} {V : Type}.
Variable call : nat → V → V + nat.

Lemma convertible_spec cv want (rs : list (jsstr * V)) first :
  [] ∉ obj_keys rs → no_type first = bool_decide (first = None) →
  match convertible cv want rs first with
  | None => first = None ∧ rs = []
  | Some t =>
      (t ∈ obj_keys rs ∨ first = Some t) ∧
      ∀ d t', want = Some d → missing d = false → t' ∈ obj_keys rs → obj_has (pair_key t' d) cv = true → obj_has (pair_key t d) cv = true
  end.
Proof.
  revert first. induction rs as [|[t v] rs IH]; intros first Hne Hf.
  { cbn. destruct first; [|done]. split; [by right|]. intros d t' _ _ Hin. by apply elem_of_nil in Hin. }
  assert (Ht : missing t = false) by (destruct t; [destruct Hne; by left|done]).
  cbn [convertible]. rewrite Ht.
  destruct (match want with Some d => missing d || obj_has (pair_key t d) cv | None => true end) eqn:Ew.
  - split; [left; by left|]. intros d t' -> Hd _ _. by rewrite Hd in Ew.
  - ospecialize (IH (if no_type first then Some t else first) _ _).
    { intros Hin. apply Hne. by right. }
    { destruct (no_type first) eqn:En; [by cbn|]. by rewrite En, <- Hf. }
    destruct (convertible cv want rs _) as [t0|].
    + destruct IH as [Hin Hc]. split.
      { destruct Hin as [Hin|Hin]; [left; by right|].
        destruct (no_type first); [|by right]. injection Hin as ->. left. by left. }
      intros d t' -> Hd Ht' Hh. inversion Ht'; simplify_eq; [|by eapply Hc].
      rewrite Hh in Ew. by rewrite orb_true_r in Ew.
    + destruct IH as [Hn _]. destruct (no_type first) eqn:En; [done|]. rewrite Hn in Hf. by cbn in Hf.
Qed.

(** Among responses whose types are not empty, [ajaxHandleResponses] returns the
    response of a type that it leaves at the head of the data types.  The type
    is the expected one when there is a response for it, and otherwise one that has a
    converter to the expected one, if there is such a response.  Without responses
    nothing is returned. *)
Theorem responses_chosen (s : settings) header (rs : list (jsstr * V)) :
  obj_wf rs → [] ∉ obj_keys rs → rs ≠ [] →
  ∃ t v, (t, v) ∈ rs ∧
    ajaxHandleResponses s header rs =
      (if bool_decide (head (expected s header) = Some t) then expected s header else t :: expected s header, Some v) ∧
    ∀ d, head (expected s header) = Some d → d ≠ [] →
      (d ∈ obj_keys rs → t = d) ∧
      ∀ t', d ∉ obj_keys rs → t' ∈ obj_keys rs → obj_has (pair_key t' d) (converters s) = true →
        obj_has (pair_key t d) (converters s) = true.
Proof.
  intros Hwf Hne Hrs. unfold ajaxHandleResponses. set (ts := expected s header).
  set (final := match head ts with Some _ => _ | None => _ end).
  assert (Hf : ∃ t, final = Some t ∧ t ∈ obj_keys rs ∧ ∀ d, head ts = Some d → d ≠ [] →
    (d ∈ obj_keys rs → t = d) ∧
    ∀ t', d ∉ obj_keys rs → t' ∈ obj_keys rs → obj_has (pair_key t' d) (converters s) = true →
      obj_has (pair_key t d) (converters s) = true).
  { pose proof (convertible_spec (converters s) (head ts) rs None Hne eq_refl) as Hc. subst final.
    destruct (head ts) as [d|].
    - destruct (obj_has d rs) eqn:Ed.
      { apply obj_has_true in Ed. exists d. split_and!; [done..|]. intros d' [= <-] _. split; [done|]. by intros t' []. }
      destruct (convertible _ _ _ _) as [t|]; [|by destruct Hc]. destruct Hc as [[Hin|] Hc]; [|done].
      exists t. split_and!; [done..|]. intros d' [= <-] Hd. split.
      { intros Hk%obj_has_true. congruence. }
      intros t' _ Ht'. apply (Hc d t'); [done| |done]. by destruct d.
    - destruct (convertible _ _ _ _) as [t|]; [|by destruct Hc]. destruct Hc as [[Hin|] _]; [|done].
      by exists t. }
  destruct Hf as (t & -> & Hin & Hd). destruct (missing t) eqn:Et.
  { destruct t; [by destruct Hne|done]. }
  apply obj_get_keys in Hin as Hget. destruct Hget as [v Hv]. exists t, v.
  split; [by apply obj_get_elem|]. by rewrite Hv.
Qed.

(** For data types that are names and converters that are named by two types,
    [ajaxConvert] ends and carries the response through the types one after the other:
    each step applies the converter of the route from the type before it, directly or
    by a type in between, sets the field of each type it reaches, and the first
    converter that throws or is missing ends it. *)
Theorem ajaxConvert_chain (s : settings) cur rest (r : V) xhr isSuccess fuel :
  dataTypes s = cur :: rest → Forall name (cur :: rest) →
  cv_wf (lower_converters (converters s)) → 2 * length rest < fuel →
  ajaxConvert call fuel s r xhr isSuccess =
  chain call s (lower_converters (converters s)) cur rest
    (filtered (if isSuccess then dataFilter s else None) r) (note_field s cur r xhr).
Proof.
  intros Hts [Hcur Hrest]%Forall_cons Hwf Hf. unfold ajaxConvert. rewrite Hts.
  assert (Hn : ∀ t, name t → missing t = false) by (intros t [Ht _]; by destruct t).
  rewrite Hn by done. destruct rest as [|c rest].
  - rewrite convert_loop_chain; [done| |done..]. split; [by apply NoDup_nil|]. intros k Hk. by apply elem_of_nil in Hk.
  - apply Forall_cons in Hrest as Hc. destruct Hc as [Hc _]. rewrite (Hn c) by done.
    by rewrite convert_loop_chain.
Qed.
End results.

(** The settings of a JSON request: text is read by converter 0 into JSON, and an XML
    answer has to go through text. *)
Definition json_request : settings (V := nat) :=
  Settings [js "xml"; js "json"]
    [(js "* text", Call 1); (js "text html", Same); (js "text json", Call 2); (js "text xml", Call 3)]
    [(js "xml", None)] [] [(js "text", js "responseText"); (js "json", js "responseJSON")] (Some (λ n, n + 1)) true.
Definition adds (f n : nat) : nat + nat := if decide (f = 3) then inr n else inl (n + 10 * f).

Lemma ajaxConvert_chain_witness :
  @ajaxConvert ascii_case nat adds 3 json_request 5 [] true =
    Ok (Success 36, [(js "responseText", 16); (js "responseJSON", 36)]) ∧
  @ajaxConvert ascii_case nat adds 3 json_request 5 [] true =
    chain adds json_request (@lower_converters ascii_case (converters json_request)) (js "xml") [js "json"] 6 [].
Proof.
  split; [by vm_compute|].
  apply (@ajaxConvert_chain ascii_case nat adds json_request (js "xml") [js "json"] 5 [] true 3);
    [done| |split|cbn; lia].
  - repeat constructor; vm_compute; [done|set_solver|done|set_solver].
  - apply (bool_decide_unpack (obj_wf _)). by vm_compute.
  - assert (Hp : ∀ a b, bool_decide ((a ≠ [] ∧ 32%N ∉ a) ∧ (b ≠ [] ∧ 32%N ∉ b)) = true →
      ∃ a' b', pair_key a b = pair_key a' b' ∧ name a' ∧ name b').
    { intros a b Hab%bool_decide_eq_true. by exists a, b. }
    intros k Hk. change (obj_keys _) with
      [pair_key (js "*") (js "text"); pair_key (js "text") (js "html");
       pair_key (js "text") (js "json"); pair_key (js "text") (js "xml")] in Hk.
    repeat (apply elem_of_cons in Hk as [->|Hk]; [by apply Hp; vm_compute|]). by apply elem_of_nil in Hk.
Defined.

End Ajax.
