(* ===== verification/JqHeaders.v ===== *)
(** * Headers and addresses of a request in jquery.js

    The tables of headers that [jQuery.ajax] keeps for a request and reads from a
    response, and what it makes of the address. *)

From stdpp Require Import base tactics list strings numbers sets gmap.
From Stdlib Require Import NArith ZArith Lia.
From S2P Require Import Prelude.
From S2P Require Import JsString.
From S2P Require Import Regex.
From S2P Require Import JsArray.

Module Headers.

(** ** Addresses *)

Definition rhash : regex := seqs [lit "#"; star dot; REol].
Definition rts : regex := seqs [RGroup 1 (RSet (cls "?&")); lit "_="; star (RSet (ncls "&"))].
Definition rprotocol : regex := RSeq RBol (lit "//").
Definition rquery : regex := lit "?".
Definition rurl : regex :=
  seqs [RBol; RGroup 1 (RSeq (plus (RSet (λ c, is_word c || cls ".+-" c))) (lit ":"));
        RAlt (seqs [lit "//"; RAlt (RSeq (star (RSet (ncls "/?#"))) (lit "@")) REmpty;
                    RGroup 2 (star (RSet (ncls "/?#:")));
                    RAlt (RSeq (lit ":") (RGroup 3 (plus (RSet is_digit)))) REmpty])
             REmpty].
(** [/^(?:GET|HEAD)$/]. *)
Definition rnoContent (type : jsstr) : bool := str_eqb type (js "GET") || str_eqb type (js "HEAD").

Section address.
Context `{UnicodeCase}.
(** [location.href]. *)
Variable ajaxLocation : jsstr.
Definition ajaxLocParts : option match_result := exec rurl (to_lower ajaxLocation).
Definition loc_part (n : nat) : option jsstr := m ← ajaxLocParts; capture m n.
(** The address without its fragment and with a protocol; [+] prints undefined. *)
Definition full_url (url : jsstr) : jsstr :=
  replace_first rprotocol (λ _, default (js "undefined") (loc_part 1) ++ js "//") (replace_first rhash (λ _, []) url).
Definition port (protocol p : option jsstr) : jsstr :=
  match p with
  | Some ((_ :: _) as p) => p
  | _ => if bool_decide (protocol = Some (js "http:")) then js "80" else js "443"
  end.
Definition crossDomain (url : jsstr) : bool :=
  match exec rurl (to_lower url) with
  | None => false
  | Some parts =>
      negb (bool_decide (capture parts 1 = loc_part 1)) || negb (bool_decide (capture parts 2 = loc_part 2)) ||
      negb (str_eqb (port (capture parts 1) (capture parts 3)) (port (loc_part 1) (loc_part 3)))
  end.

(** The address of a request without content: [cacheURL], and [s.url] with the number
    that keeps the browser from using its cache. *)
Variable digits : Z → jsstr.
Definition separator (url : jsstr) : jsstr := if test rquery url then js "&" else js "?".
Definition with_data (url data : jsstr) : jsstr :=
  url ++ separator url ++ data.
Definition anti_cache (nonce : Z) (cacheURL : jsstr) : jsstr :=
  if test rts cacheURL then replace_first rts (λ m, capture_str m 1 ++ js "_=" ++ digits nonce) cacheURL
  else cacheURL ++ separator cacheURL ++ js "_=" ++ digits nonce.
End address.

(** ** Headers of the request *)

(** [requestHeadersNames] and [requestHeaders]. *)
Record request_headers := RequestHeaders { names : list (jsstr * jsstr); values : list (jsstr * jsstr) }.
Definition no_headers : request_headers := RequestHeaders [] [].
(** [requestHeadersNames[ lname ] || name]. *)
Definition header_name (lname name : jsstr) (h : request_headers) : jsstr :=
  match obj_get lname (names h) with Some ((_ :: _) as first) => first | _ => name end.

Section headers.
Context `{UnicodeCase}.
Definition setRequestHeader (name value : jsstr) (h : request_headers) : request_headers :=
  let lname := to_lower name in
  let name := header_name lname name h in
  RequestHeaders (obj_set lname name (names h)) (obj_set name value (values h)).
Definition set_all (l : list (jsstr * jsstr)) (h : request_headers) : request_headers :=
  foldl (λ h nv, setRequestHeader nv.1 nv.2 h) h l.

(** ** Headers of the response *)

(** What [rheaders] finds between two ends of a line: [.] does not match U+2028 and
    U+2029, after which a line begins too, and the value does. *)
Definition is_crlf (c : N) : bool := N.eqb c 10 || N.eqb c 13.
Definition is_blank (c : N) : bool := N.eqb c 32 || N.eqb c 9.
Fixpoint skip_blanks (s : jsstr) : jsstr :=
  match s with c :: s' => if is_blank c then skip_blanks s' else s | [] => [] end.
Fixpoint header_in (key s : jsstr) : option (jsstr * jsstr) :=
  match s with
  | [] => None
  | c :: s =>
      if N.eqb c 58 then Some (key, skip_blanks s)
      else header_in (if is_line_term c then [] else key ++ [c]) s
  end.
(** The loop of [getResponseHeader] over the matches. *)
Definition header_table (headers : jsstr) : list (jsstr * jsstr) :=
  foldl (λ o kv, obj_set (to_lower kv.1) kv.2 o) [] (omap (header_in []) (split_on is_crlf headers)).
End headers.

(** ** Setting headers *)

Section facts.
Context `{UnicodeCase}.
Implicit Types (nv : jsstr * jsstr) (l : list (jsstr * jsstr)).
(** The last value for a name, whatever its case. *)
Definition last_value (l : list (jsstr * jsstr)) (name : jsstr) : option jsstr :=
  snd <$> last (base.filter (λ nv, to_lower nv.1 = to_lower name) l).
(** The first spelling of a name. *)
Definition first_spelling (l : list (jsstr * jsstr)) (name : jsstr) : option jsstr :=
  fst <$> head (base.filter (λ nv, to_lower nv.1 = to_lower name) l).

Lemma filter_snoc_last {A} (P : A → Prop) `{!∀ x, Decision (P x)} (l : list A) (x : A) :
  last (base.filter P (l ++ [x])) = if decide (P x) then Some x else last (base.filter P l).
Proof.
  rewrite filter_app, filter_cons, filter_nil. destruct (decide (P x)); [by rewrite last_snoc|by rewrite app_nil_r].
Qed.
Lemma filter_snoc_head {A} (P : A → Prop) `{!∀ x, Decision (P x)} (l : list A) (x : A) :
  head (base.filter P (l ++ [x])) = match head (base.filter P l) with Some y => Some y | None => if decide (P x) then Some x else None end.
Proof.
  rewrite filter_app, filter_cons, filter_nil. destruct (base.filter P l); [|done]. by destruct (decide (P x)).
Qed.

Lemma last_value_snoc l nv name :
  last_value (l ++ [nv]) name = if decide (to_lower nv.1 = to_lower name) then Some nv.2 else last_value l name.
Proof. unfold last_value. rewrite filter_snoc_last. by case_decide. Qed.
Lemma first_spelling_snoc l nv name :
  first_spelling (l ++ [nv]) name =
    match first_spelling l name with Some f => Some f | None => if decide (to_lower nv.1 = to_lower name) then Some nv.1 else None end.
Proof. unfold first_spelling. rewrite filter_snoc_head. destruct (head _); [done|]. by case_decide. Qed.
Lemma first_spelling_lower l name f : first_spelling l name = Some f → to_lower f = to_lower name ∧ f ∈ l.*1.
Proof.
  unfold first_spelling. destruct (base.filter _ l) as [|nv ?] eqn:E; [done|]. intros [= <-].
  assert (Hin : nv ∈ base.filter (λ nv, to_lower nv.1 = to_lower name) l) by (rewrite E; by left).
  apply list_elem_of_filter in Hin as [? ?]. split; [done|]. apply list_elem_of_fmap. by exists nv.
Qed.
Lemma first_spelling_ext l a b : to_lower a = to_lower b → first_spelling l a = first_spelling l b.
Proof. intros E. unfold first_spelling. do 2 f_equal. apply list_filter_iff. intros nv. by rewrite E. Qed.

(** What the tables are after a sequence of calls. *)
Record tables (l : list (jsstr * jsstr)) (h : request_headers) : Prop := {
  tables_names : ∀ n, obj_get (to_lower n) (names h) = first_spelling l n;
  tables_values : ∀ n f, first_spelling l n = Some f → obj_get f (values h) = last_value l n;
  tables_keys : ∀ k, k ∈ obj_keys (values h) → first_spelling l k = Some k;
  tables_wf : obj_wf (values h);
}.
Lemma header_name_spec l h nv :
  Forall (λ nv, nv.1 ≠ []) l → tables l h → header_name (to_lower nv.1) nv.1 h = default nv.1 (first_spelling l nv.1).
Proof.
  intros Hne [Hn _ _ _]. unfold header_name. rewrite Hn. destruct (first_spelling l nv.1) as [f|] eqn:E; [|done].
  apply first_spelling_lower in E as [_ (x & -> & Hx)%list_elem_of_fmap]. rewrite Forall_forall in Hne. apply Hne in Hx.
  by destruct x as [[|c m] v].
Qed.
Lemma set_tables l h nv :
  Forall (λ nv, nv.1 ≠ []) l → tables l h → tables (l ++ [nv]) (setRequestHeader nv.1 nv.2 h).
Proof.
  intros Hne Ht. pose proof (header_name_spec l h nv Hne Ht) as Hname. destruct Ht as [Hn Hv Hk Hw].
  unfold setRequestHeader. rewrite Hname. set (f := default nv.1 (first_spelling l nv.1)).
  assert (Hf : first_spelling (l ++ [nv]) nv.1 = Some f).
  { rewrite first_spelling_snoc. unfold f. destruct (first_spelling l nv.1); [done|]. by rewrite decide_True. }
  split; cbn [names values].
  - intros n. rewrite obj_get_set, first_spelling_snoc. case_decide as E.
    + rewrite <- first_spelling_snoc, (first_spelling_ext _ _ nv.1) by done. done.
    + rewrite Hn. destruct (first_spelling l n); [done|]. by rewrite decide_False by congruence.
  - intros n g Hg. rewrite obj_get_set, last_value_snoc.
    destruct (decide (to_lower nv.1 = to_lower n)) as [E|E].
    + rewrite (first_spelling_ext _ _ nv.1), Hf in Hg by done. injection Hg as <-. by rewrite decide_True.
    + pose proof (first_spelling_lower _ _ _ Hg) as [Eg _]. pose proof (first_spelling_lower _ _ _ Hf) as [Ef _].
      rewrite decide_False by congruence. apply Hv. rewrite first_spelling_snoc in Hg. destruct (first_spelling l n); [done|].
      by rewrite decide_False in Hg.
  - intros k. rewrite obj_set_keys. intros Hin.
    assert (Hk' : k = f ∨ k ∈ obj_keys (values h)).
    { destruct (obj_has f (values h)); [by right|]. apply elem_of_app in Hin as [?|?%list_elem_of_singleton]; [by right|by left]. }
    destruct Hk' as [->|Hk'%Hk]; [|by rewrite first_spelling_snoc, Hk'].
    pose proof (first_spelling_lower _ _ _ Hf) as [Ef _]. by rewrite (first_spelling_ext _ _ nv.1).
  - by apply obj_set_wf.
Qed.
Lemma set_all_tables l : Forall (λ nv, nv.1 ≠ []) l → tables l (set_all l no_headers).
Proof.
  induction l as [|nv l IH] using rev_ind.
  - intros _. split; [done|done|by intros k Hk%elem_of_nil|constructor].
  - intros [Hl _]%Forall_app. unfold set_all. rewrite foldl_app. cbn. apply set_tables; [done|]. by apply IH.
Qed.

(** ** Reading headers *)

Definition print_header (nv : jsstr * jsstr) : jsstr := nv.1 ++ js ": " ++ nv.2 ++ [13; 10]%N.
Definition print_headers (l : list (jsstr * jsstr)) : jsstr := concat (print_header <$> l).
(** A name and a value that can be told apart in a line. *)
Definition header_ok (nv : jsstr * jsstr) : Prop :=
  Forall (λ c, is_line_term c = false ∧ c ≠ 58%N) nv.1 ∧ Forall (λ c, is_crlf c = false) nv.2 ∧
  match nv.2 with c :: _ => is_blank c = false | [] => True end.

Lemma header_in_line key name value :
  Forall (λ c, is_line_term c = false ∧ c ≠ 58%N) name → header_in key (name ++ 58%N :: value) = Some (key ++ name, skip_blanks value).
Proof.
  intros Hn. revert key. induction Hn as [|c name [Hc H58] _ IH]; intros key; [by rewrite app_nil_r|].
  cbn [app header_in]. rewrite (proj2 (N.eqb_neq c 58)), Hc, IH by done. by rewrite <- app_assoc.
Qed.
Lemma header_lines l :
  Forall header_ok l → omap (header_in []) (split_on is_crlf (print_headers l)) = l.
Proof.
  intros Hl. induction Hl as [|[n v] l (Hn & Hv & Hb) _ IH]; [done|].
  change (print_headers ((n, v) :: l)) with (print_header (n, v) ++ print_headers l). unfold print_header. cbn [fst snd] in *.
  assert (E : (n ++ js ": " ++ v ++ [13; 10]%N) ++ print_headers l = (n ++ js ": " ++ v) ++ 13%N :: ([] ++ 10%N :: print_headers l)).
  { by rewrite <- !app_assoc. }
  rewrite E. clear E. rewrite split_on_sep, split_on_sep by done. rewrite split_on_word.
  - change (split_on is_crlf []) with [@nil N]. cbn [app].
    change (js ": " ++ v) with (58%N :: 32%N :: v). cbn [omap list_omap]. rewrite header_in_line by done.
    assert (Hs : skip_blanks (32%N :: v) = v) by (cbn; destruct v; cbn in *; by rewrite ?Hb). rewrite Hs. cbn. by f_equal.
  - apply Forall_app. split; [|by repeat constructor].
    eapply Forall_impl; [exact Hn|]. intros c [Hc _]. unfold is_crlf.
    destruct (N.eqb_spec c 10); [by subst|]. destruct (N.eqb_spec c 13); by subst.
Qed.
Lemma header_table_get l name :
  obj_get (to_lower name) (foldl (λ o kv, obj_set (to_lower kv.1) kv.2 o) [] l) = last_value l name.
Proof.
  induction l as [|nv l IH] using rev_ind; [done|]. rewrite foldl_app. cbn. rewrite obj_get_set, IH, last_value_snoc.
  repeat case_decide; congruence.
Qed.

(** The headers of a request do not depend on the case of their names: after any calls
    of [setRequestHeader] the table that is sent holds, for every name, one entry, under
    the first spelling of the name and with the last value that any spelling was given. *)
Theorem headers_case_insensitive l :
  Forall (λ nv, nv.1 ≠ []) l →
  let h := values (set_all l no_headers) in
  (∀ name, (f ← first_spelling l name; obj_get f h) = last_value l name) ∧ NoDup (to_lower <$> obj_keys h).
Proof.
  intros Hne h. destruct (set_all_tables l Hne) as [Hn Hv Hk Hw]. split.
  - intros name. destruct (first_spelling l name) as [f|] eqn:E; [by apply Hv|]. cbn.
    unfold first_spelling, last_value in *. by destruct (base.filter _ l).
  - apply NoDup_fmap_2_strong; [|exact Hw]. intros a b Ha%Hk Hb%Hk E.
    rewrite (first_spelling_ext l a b E) in Ha. congruence.
Qed.
(** Headers that a server writes are read back by [getResponseHeader] under any case of
    the name; of a header that is sent twice the last value is read. *)
Theorem response_headers_read_back l name :
  Forall header_ok l → obj_get (to_lower name) (header_table (print_headers l)) = last_value l name.
Proof. intros Hl. unfold header_table. rewrite header_lines by done. apply header_table_get. Qed.
End facts.

(** ** Examples *)

Definition sample_headers : list (jsstr * jsstr) :=
  [(js "Accept", js "*/" ++ js "*"); (js "ACCEPT", js "text/html"); (js "X-A", js "1")].
Lemma headers_case_insensitive_witness :
  values (@set_all ascii_case sample_headers no_headers) = [(js "Accept", js "text/html"); (js "X-A", js "1")] ∧
  NoDup (@to_lower ascii_case <$> obj_keys (values (@set_all ascii_case sample_headers no_headers))).
Proof.
  split; [by vm_compute|]. apply (@headers_case_insensitive ascii_case sample_headers).
  repeat constructor; discriminate.
Defined.
Lemma response_headers_read_back_witness :
  obj_get (@to_lower ascii_case (js "x-a")) (@header_table ascii_case (print_headers sample_headers)) = Some (js "1") ∧
  obj_get (@to_lower ascii_case (js "accept")) (@header_table ascii_case (print_headers sample_headers)) = Some (js "text/html").
Proof.
  assert (Hok : Forall header_ok sample_headers).
  { repeat constructor; discriminate. }
  split.
  - rewrite (@response_headers_read_back ascii_case sample_headers (js "x-a") Hok). by vm_compute.
  - rewrite (@response_headers_read_back ascii_case sample_headers (js "accept") Hok). by vm_compute.
Defined.
(** A default port may be written or not, and a relative address is of the same origin. *)
Example origins :
  let at_ := @crossDomain ascii_case (js "http://h.org/a") in
  at_ (js "http://h.org:80/b") = false ∧ at_ (js "http://h.org:81/b") = true ∧ at_ (js "b?c") = false ∧
  at_ (js "https://h.org/b") = true ∧ at_ (js "http://u:p@h.org/b") = false.
Proof. by vm_compute. Qed.
Example addresses :
  @full_url ascii_case (js "http://h.org/a") (js "//x.org/b#c") = js "http://x.org/b" ∧
  anti_cache (λ _, js "7") 7 (js "/a?_=3&b=1") = js "/a?_=7&b=1" ∧ anti_cache (λ _, js "7") 7 (js "/a") = js "/a?_=7".
Proof. by vm_compute. Qed.
End Headers.
