(* ===== verification/JqRequest.v ===== *)
(** * Requests in jquery.js

    [jQuery.ajax] with its prefilters and transports, the object [jqXHR] that it
    returns, and the global events with their counter.  The functions of the page
    (prefilters, transports, callbacks, handlers of events) are programs of commands on
    requests, so they can use the request that calls them. *)

From stdpp Require Import base tactics list strings numbers sets gmap.
From Stdlib Require Import NArith ZArith Lia.
From S2P Require Import Prelude.
From S2P Require Import JsString.
From S2P Require Import JsArray.
From S2P Require Import JqCallbacks.
From S2P Require Import JqClasses.
From S2P Require Import JqParam.
From S2P Require Import JqAjax.
From S2P Require Import JqHeaders.
Import Callbacks.

Module Requests.

(** ** The state of a request *)

(** [s.data]: a text, or what [jQuery.param] takes, with how it is printed. *)
Inductive payload := Text_ (s : jsstr) | Object_ (a : Param.input) (printed : jsstr).
(** The native text of a status: a text, which is empty when it is undefined too, or
    an exception. *)
Inductive text := Text (s : jsstr) | Thrown (e : error).
Definition falsy (t : text) : bool := match t with Text [] => true | _ => false end.
Inductive event_name := AjaxStart | AjaxSend | AjaxSuccess | AjaxError | AjaxComplete | AjaxStop.

Section requests.
Context `{UnicodeCase} {V : Type}.

(** The settings that [jQuery.ajax] only reads, functions of the page by number. *)
Record fixed := Fixed {
  dataType : jsstr;                       (* empty when it is missing *)
  processData : bool;
  traditional : bool;
  async : bool;
  timeout : Z;
  global : bool;
  no_cache : bool;                        (* s.cache === false *)
  ifModified : bool;
  contentType : option jsstr;             (* None for false *)
  own_contentType : bool;                 (* options.contentType *)
  accepts : list (jsstr * jsstr);
  headers_ : list (jsstr * jsstr);
  beforeSend : option nat;
  success : list nat;
  error_ : list nat;
  complete : list nat;
  status_fns : list (Z * list nat);
}.
(** The others; [s_conv] has the data types, converters and so on. *)
Record settings := Settings {
  s_url : jsstr;
  s_type : jsstr;
  s_data : option payload;
  s_crossDomain : option bool;
  hasContent : bool;
  s_conv : Ajax.settings (V := V);
  s_fixed : fixed;
}.
Definition with_types (ts : list jsstr) (c : Ajax.settings (V := V)) : Ajax.settings :=
  Ajax.Settings ts (Ajax.converters c) (Ajax.contents c) (Ajax.mimeType c) (Ajax.responseFields c)
    (Ajax.dataFilter c) (Ajax.throws c).
Definition with_mimeType (t : jsstr) (c : Ajax.settings (V := V)) : Ajax.settings :=
  Ajax.Settings (Ajax.dataTypes c) (Ajax.converters c) (Ajax.contents c) t (Ajax.responseFields c)
    (Ajax.dataFilter c) (Ajax.throws c).
Definition with_conv (c : Ajax.settings (V := V)) (s : settings) : settings :=
  Settings (s_url s) (s_type s) (s_data s) (s_crossDomain s) (hasContent s) c (s_fixed s).
Definition dataTypes_of (s : settings) : list jsstr := Ajax.dataTypes (s_conv s).

(** What a callback is told: the arguments of success, error and complete. *)
Inductive reason := NoReason | Native (t : text) | Conversion (e : nat) | NoConverter (from to : jsstr).
Inductive news :=
  | Resolved (data : option V) (statusText : text)
  | Rejected (statusText : text) (error : reason)
  | Completed (statusText : text).

(** What functions of the page return, and how they are called.  A transport is known by
    its number. *)
Inductive reply :=
  | RUndefined | RFalse
  | RText (s : jsstr)
  | RTransport (t : nat)
  | RRequest (r : nat).
Inductive call :=
  | KPrefilter (u r : nat)
  | KFactory (u r : nat)
  | KBeforeSend (u r : nat)
  | KSend (t r : nat) (headers : list (jsstr * jsstr))
  | KTransportAbort (t r : nat) (statusText : jsstr)
  | KCallback (u r : nat) (n : news)
  | KEvent (e : event_name) (r : option nat).

(** The functions on the callback lists of a request: those of the page, and those that
    [jQuery.Deferred] puts first. *)
Inductive fn := FUser (u : nat) | FState (resolved : bool) | FDisable (resolved : bool).
#[local] Instance fn_eq_dec : EqDecision fn.
Proof. solve_decision. Defined.
Definition clist := cbs fn news.
Inductive list_name := LDone | LFail | LComplete.
Definition once_memory : flags := Flags true true false false.

(** The variables of a call of [jQuery.ajax]. *)
Record progress := Progress {
  state : nat;
  strAbort : jsstr;
  timer : bool;                           (* a timeout is due *)
  fireGlobals : bool;
  transport : option reply;
  cacheURL : jsstr;
  responseHeadersString : jsstr;
}.
(** The fields of [jqXHR]; [None] is undefined. *)
Record xhr := Xhr {
  readyState : Z;
  status : option Z;
  statusText : option text;
  fields : list (jsstr * V);
}.
(** Its deferreds and [statusCode]. *)
Record lists := Lists {
  settled : option bool;
  done_list : clist;
  fail_list : clist;
  complete_list : clist;
  statusCode_map : option (list (Z * list nat));
}.
Record request := Request {
  r_s : settings;
  r_headers : Headers.request_headers;
  r_p : progress;
  r_x : xhr;
  r_l : lists;
}.
Definition with_s s q := Request s (r_headers q) (r_p q) (r_x q) (r_l q).
Definition with_headers h q := Request (r_s q) h (r_p q) (r_x q) (r_l q).
Definition with_p p q := Request (r_s q) (r_headers q) p (r_x q) (r_l q).
Definition with_x x q := Request (r_s q) (r_headers q) (r_p q) x (r_l q).
Definition with_l l q := Request (r_s q) (r_headers q) (r_p q) (r_x q) l.
Definition set_state n p := Progress n (strAbort p) (timer p) (fireGlobals p) (transport p) (cacheURL p) (responseHeadersString p).
Definition set_strAbort t p := Progress (state p) t (timer p) (fireGlobals p) (transport p) (cacheURL p) (responseHeadersString p).
Definition set_timer b p := Progress (state p) (strAbort p) b (fireGlobals p) (transport p) (cacheURL p) (responseHeadersString p).
Definition set_fireGlobals b p := Progress (state p) (strAbort p) (timer p) b (transport p) (cacheURL p) (responseHeadersString p).
Definition set_transport t p := Progress (state p) (strAbort p) (timer p) (fireGlobals p) t (cacheURL p) (responseHeadersString p).
Definition set_cacheURL u p := Progress (state p) (strAbort p) (timer p) (fireGlobals p) (transport p) u (responseHeadersString p).
Definition set_readyState n x := Xhr n (status x) (statusText x) (fields x).

Definition get_list (k : list_name) (l : lists) : clist :=
  match k with LDone => done_list l | LFail => fail_list l | LComplete => complete_list l end.
Definition set_list_of (k : list_name) (c : clist) (l : lists) : lists :=
  match k with
  | LDone => Lists (settled l) c (fail_list l) (complete_list l) (statusCode_map l)
  | LFail => Lists (settled l) (done_list l) c (complete_list l) (statusCode_map l)
  | LComplete => Lists (settled l) (done_list l) (fail_list l) c (statusCode_map l)
  end.
Definition set_settled b l := Lists (Some b) (done_list l) (fail_list l) (complete_list l) (statusCode_map l).
Definition set_codes m l := Lists (settled l) (done_list l) (fail_list l) (complete_list l) m.
(** The lists of [jQuery.Deferred()], which are never notified, and of the completion. *)
Definition new_lists (codes : list (Z * list nat)) : lists :=
  let with_fns fns := set_list (Some fns) (Callbacks once_memory) in
  Lists None (with_fns [FState true; FDisable false]) (with_fns [FState false; FDisable true])
    (Callbacks once_memory) (Some codes).
Definition new_request (s : settings) : request :=
  Request s Headers.no_headers (Progress 0 (js "canceled") false false None [] []) (Xhr 0 None None [])
    (new_lists (status_fns (s_fixed s))).

(** ** The page *)

Record world := World {
  active : Z;
  lastModified : list (jsstr * jsstr);
  etag : list (jsstr * jsstr);
  nonce : Z;
  prefilters : list (jsstr * list nat);
  transports : list (jsstr * list nat);
  requests : list request;
  log : list call;
}.
Definition with_active n w := World n (lastModified w) (etag w) (nonce w) (prefilters w) (transports w) (requests w) (log w).
Definition with_modified m e w := World (active w) m e (nonce w) (prefilters w) (transports w) (requests w) (log w).
Definition with_nonce n w := World (active w) (lastModified w) (etag w) n (prefilters w) (transports w) (requests w) (log w).
Definition with_structures p t w := World (active w) (lastModified w) (etag w) (nonce w) p t (requests w) (log w).
Definition with_requests l w := World (active w) (lastModified w) (etag w) (nonce w) (prefilters w) (transports w) l (log w).
Definition with_log l w := World (active w) (lastModified w) (etag w) (nonce w) (prefilters w) (transports w) (requests w) l.

Inductive cmd :=
  | CAjax (url : jsstr) (method : jsstr) (s : settings)
  | CAbort (r : nat) (statusText : jsstr)
  | CSetHeader (r : nat) (name value : jsstr)
  | CGetHeader (r : nat) (name : jsstr)
  | CGetAllHeaders (r : nat)
  | COverrideMimeType (r : nat) (type : jsstr)
  | CStatusCode (r : nat) (map : list (Z * list nat))
  | COn (r : nat) (k : list_name) (us : list nat)
  | CAlways (r : nat) (us : list nat)
  | CSettings (r : nat) (f : settings → settings)
  | CDone (r : nat) (status : Z) (statusText : jsstr) (responses : option (list (jsstr * V))) (headers : jsstr)
  | CTimeout (r : nat)
  | CRegister (seeking : bool) (dataTypes : jsstr) (u : nat).
Inductive prog :=
  | Ret (v : reply)
  | Raise (e : nat)
  | Do (c : cmd) (k : reply → prog).
End requests.
Arguments settings V : clear implicits.
Arguments request V : clear implicits.
Arguments world V : clear implicits.
Arguments call V : clear implicits.
Arguments news V : clear implicits.
Arguments clist V : clear implicits.
Arguments lists V : clear implicits.
Arguments cmd V : clear implicits.
Arguments prog V : clear implicits.
#[export] Existing Instance fn_eq_dec.

(** ** The operations *)

Section operations.
Context `{UnicodeCase} {V : Type}.
(** The value undefined, the converters of the page, [location.href], printed numbers and
    upper case. *)
Variable undef : V.
Variable convert : nat → V → V + nat.
Variable ajaxLocation : jsstr.
Variable digits : Z → jsstr.
Variable to_upper : jsstr → jsstr.
Implicit Types (w : world V) (q : request V).

(** [addToPrefiltersOrTransports]. *)
Definition add_type (u : nat) (structure : list (jsstr * list nat)) (dataType : jsstr) : list (jsstr * list nat) :=
  let at_ t := default [] (obj_get t structure) in
  match dataType with
  | 43%N :: rest => let t := match rest with [] => js "*" | _ => rest end in obj_set t (u :: at_ t) structure
  | _ => obj_set dataType (at_ dataType ++ [u]) structure
  end.
Definition register (seeking : bool) (dataTypes : jsstr) (u : nat) w : world V :=
  let add structure := foldl (add_type u) structure (words (to_lower dataTypes)) in
  with_structures (if seeking then prefilters w else add (prefilters w))
    (if seeking then add (transports w) else transports w) w.

Definition on_request (r : nat) (f : request V → request V) : M (world V) unit :=
  modify (λ w, with_requests (alter f r (requests w)) w).
Definition on_settings (r : nat) (f : settings V → settings V) : M (world V) unit :=
  on_request r (λ q, with_s (f (r_s q)) q).
Definition on_progress (r : nat) (f : progress → progress) : M (world V) unit :=
  on_request r (λ q, with_p (f (r_p q)) q).
Definition get_request (r : nat) : M (world V) (request V) :=
  w ← Prelude.get; match requests w !! r with Some q => mret q | None => throw TypeError end.

(** *** Headers *)

Definition set_header (r : nat) (name value : jsstr) : M (world V) unit :=
  on_request r (λ q, if state (r_p q) =? 0 then with_headers (Headers.setRequestHeader name value (r_headers q)) q else q).
(** The table is a function of the text, so it is not kept. *)
Definition getResponseHeader (q : request V) (key : jsstr) : option jsstr :=
  if state (r_p q) =? 2 then obj_get (to_lower key) (Headers.header_table (responseHeadersString (r_p q))) else None.
Definition overrideMimeType (r : nat) (type : jsstr) : M (world V) unit :=
  on_request r (λ q, if state (r_p q) =? 0 then with_s (with_conv (with_mimeType type (s_conv (r_s q))) (r_s q)) q else q).

Section page.
(** Calling a function of the page, and the fuel of the loops. *)
Variable run : call V → M (world V) reply.
Variable fuel : nat.
Definition page (c : call V) : M (world V) reply :=
  _ ← modify (λ w, with_log (log w ++ [c]) w); run c.
Definition trigger (e : event_name) (r : option nat) : M (world V) unit := _ ← page (KEvent e r); mret tt.

(** *** The callback lists *)

Definition list_at (r : nat) (k : list_name) w : clist V :=
  match requests w !! r with Some q => get_list k (r_l q) | None => Callbacks once_memory end.
Definition put_list (r : nat) (k : list_name) (c : clist V) w : world V :=
  with_requests (alter (λ q, with_l (set_list_of k c (r_l q)) q) r (requests w)) w.
Definition call_fn (r : nat) (f : fn) (n : news V) : M (world V) bool :=
  match f with
  | FUser u => v ← page (KCallback u r n); mret (match v with RFalse => true | _ => false end)
  | FState resolved => _ ← on_request r (λ q, with_l (set_settled resolved (r_l q)) q); mret false
  | FDisable resolved =>
      let k := if resolved then LDone else LFail in
      _ ← modify (λ w, put_list r k (disable (list_at r k w)) w); mret false
  end.
Definition add_fns (r : nat) (k : list_name) (us : list nat) : M (world V) unit :=
  add (list_at r k) (put_list r k) once_memory (call_fn r) fuel ((λ u, Fun (FUser u)) <$> us).
Definition fire_list (r : nat) (k : list_name) (n : news V) : M (world V) unit :=
  fireWith (list_at r k) (put_list r k) once_memory (call_fn r) fuel n.
Definition always (r : nat) (us : list nat) : M (world V) unit :=
  _ ← add_fns r LDone us; add_fns r LFail us.

(** [jqXHR.statusCode(map)], where the functions for a code are a flat list. *)
Definition fns_at (map : list (Z * list nat)) (code : Z) : list nat :=
  base.filter (λ e, e.1 = code) map ≫= snd.
Definition statusCode (r : nat) (map : list (Z * list nat)) : M (world V) unit :=
  q ← get_request r;
  if state (r_p q) <? 2 then
    on_request r (λ q, with_l (set_codes (Some (default [] (statusCode_map (r_l q)) ++ map)) (r_l q)) q)
  else always r (match status (r_x q) with Some code => fns_at map code | None => [] end).

(** *** The end of a request *)

(** What the native status and the conversion make of it: whether it is a success, the
    data, the text, the reason of a failure, and the status. *)
Definition verdict (code : Z) (native : text) (type : jsstr) (isSuccess : bool) (c : Ajax.conversion (V := V)) :
    bool * option V * text * reason * Z :=
  if isSuccess then
    if (code =? 204)%Z || str_eqb type (js "HEAD") then (true, None, Text (js "nocontent"), NoReason, code)
    else if (code =? 304)%Z then (true, None, Text (js "notmodified"), NoReason, code)
    else match c with
      | Ajax.Success data => (true, Some data, Text (js "success"), NoReason, code)
      | Ajax.Failed e => (false, None, Text (js "parsererror"), Conversion e, code)
      | Ajax.NoConversion from to => (false, None, Text (js "parsererror"), NoConverter from to, code)
      end
  else if negb (code =? 0)%Z || falsy native then (false, None, Text (js "error"), Native native, Z.max 0 code)
  else (false, None, native, Native native, code).
(** [state = 2] and what follows it, up to the responses. *)
Definition finish (code : Z) (headers : jsstr) q : request V :=
  with_x (set_readyState (if (0 <? code)%Z then 4 else 0) (r_x q))
    (with_p (Progress 2 (strAbort (r_p q)) false (fireGlobals (r_p q)) None (cacheURL (r_p q)) headers) q).
(** The settings and the response that [ajaxHandleResponses] leaves. *)
Definition handle (q : request V) (responses : option (list (jsstr * V))) : settings V * V :=
  match responses with
  | Some l =>
      let '(ts, v) := Ajax.ajaxHandleResponses (s_conv (r_s q)) (default [] (getResponseHeader q (js "Content-Type"))) l in
      (with_conv (with_types ts (s_conv (r_s q))) (r_s q), default undef v)
  | None => (r_s q, undef)
  end.
Definition remember_modified (q : request V) : M (world V) unit :=
  modify (λ w,
    let note key table := match getResponseHeader q key with
      | Some ((_ :: _) as v) => obj_set (cacheURL (r_p q)) v table
      | _ => table
      end in
    with_modified (note (js "Last-Modified") (lastModified w)) (note (js "etag") (etag w)) w).
(** [jQuery.active++], and the event before the first request; then the end of one. *)
Definition enter : M (world V) unit :=
  w ← Prelude.get;
  _ ← put (with_active (active w + 1) w);
  if (active w =? 0)%Z then trigger AjaxStart None else mret tt.
Definition leave : M (world V) unit :=
  w ← Prelude.get;
  _ ← put (with_active (active w - 1) w);
  if (active w - 1 =? 0)%Z then trigger AjaxStop None else mret tt.
(** The callbacks and events at the end of a request. *)
Definition conclude (r : nat) (ok : bool) (data : option V) (shown : text) (why : reason) : M (world V) unit :=
  _ ← (if ok then fire_list r LDone (Resolved data shown) else fire_list r LFail (Rejected shown why));
  q ← get_request r;
  _ ← statusCode r (default [] (statusCode_map (r_l q)));
  _ ← on_request r (λ q, with_l (set_codes None (r_l q)) q);
  q ← get_request r;
  _ ← (if fireGlobals (r_p q) then trigger (if ok then AjaxSuccess else AjaxError) (Some r) else mret tt);
  _ ← fire_list r LComplete (Completed shown);
  if fireGlobals (r_p q) then _ ← trigger AjaxComplete (Some r); leave else mret tt.
Definition done (r : nat) (code : Z) (native : text) (responses : option (list (jsstr * V))) (headers : jsstr) :
    M (world V) unit :=
  q ← get_request r;
  if state (r_p q) =? 2 then mret tt
  else
    _ ← on_request r (finish code headers);
    let isSuccess := ((200 <=? code)%Z && (code <? 300)%Z) || (code =? 304)%Z in
    let '(s, response) := handle (finish code headers q) responses in
    _ ← on_settings r (λ _, s);
    match Ajax.ajaxConvert convert fuel (s_conv s) response (fields (r_x q)) isSuccess with
    | Throw e => throw e
    | Ok (converted, fs) =>
        _ ← (if isSuccess && ifModified (s_fixed s) then remember_modified (finish code headers q) else mret tt);
        let '(ok, data, shown, why, code) := verdict code native (s_type s) isSuccess converted in
        _ ← on_request r (λ q, with_x (Xhr (readyState (r_x q)) (Some code) (Some (if falsy native then shown else native)) fs) q);
        conclude r ok data shown why
    end.
Definition abort (r : nat) (finalText : jsstr) : M (world V) unit :=
  q ← get_request r;
  let finalText := match finalText with [] => strAbort (r_p q) | _ => finalText end in
  _ ← (match transport (r_p q) with
    | None => mret tt
    | Some (RTransport t) => _ ← page (KTransportAbort t r finalText); mret tt
    | Some _ => throw TypeError
    end);
  done r 0 (Text finalText) None [].

(** *** Prefilters and transports *)

Definition truthy (v : reply) : bool := match v with RUndefined | RFalse | RText [] => false | _ => true end.
(** The calls of a list of prefilters or factories of transports: the reply that
    selects a transport, and the types inspected. *)
Definition inspect_fns (inspect : jsstr → list jsstr → M (world V) (option reply * list jsstr)) (seeking : bool) (r : nat)
    (inspected : list jsstr) : list nat → M (world V) (option reply * list jsstr) :=
  fix go us := match us with
    | [] => mret (None, inspected)
    | u :: us =>
        v ← page (if seeking then KFactory u r else KPrefilter u r);
        if seeking then (if truthy v then mret (Some v, inspected) else go us)
        else match v with
          | RText t =>
              if bool_decide (t ∈ inspected) then go us
              else
                _ ← on_settings r (λ s, with_conv (with_types (t :: dataTypes_of s) (s_conv s)) s);
                found ← inspect t inspected; mret (None, found.2)
          | _ => go us
          end
    end.
Fixpoint inspect (fuel : nat) (seeking : bool) (r : nat) (dataType : jsstr) (inspected : list jsstr) :
    M (world V) (option reply * list jsstr) :=
  match fuel with
  | 0 => throw Diverge
  | S k =>
      w ← Prelude.get;
      let structure := if seeking then transports w else prefilters w in
      inspect_fns (inspect k seeking r) seeking r (dataType :: inspected) (default [] (obj_get dataType structure))
  end.
Definition inspectPrefiltersOrTransports (seeking : bool) (r : nat) : M (world V) (option reply) :=
  q ← get_request r;
  found ← inspect fuel seeking r (default (js "undefined") (head (dataTypes_of (r_s q)))) [];
  match found with
  | (Some v, _) => mret (Some v)
  | (None, inspected) =>
      if bool_decide (js "*" ∈ inspected) then mret None
      else found ← inspect fuel seeking r (js "*") inspected; mret (found.1 : option reply)
  end.

(** *** Making a request *)

(** The settings up to the prefilters. *)
Definition prepare (url method : jsstr) (s : settings V) : outcome (settings V) :=
  let u := Headers.full_url ajaxLocation (match url, s_url s with _ :: _, _ => url | [], [] => ajaxLocation | [], u => u end) in
  let types := match words (to_lower (Classes.trim (match dataType (s_fixed s) with [] => js "*" | t => t end))) with
    | [] => [[]]
    | ts => ts
    end in
  let data := match s_data s with
    | Some (Object_ a t) =>
        if processData (s_fixed s) then
          match Param.param a (traditional (s_fixed s)) with Ok t => Ok (Some (Text_ t)) | Throw e => Throw e end
        else Ok (Some (Object_ a t))
    | d => Ok d
    end in
  match data with
  | Throw e => Throw e
  | Ok data =>
      Ok (Settings u (match method with [] => s_type s | _ => method end) data
        (Some (match s_crossDomain s with Some b => b | None => Headers.crossDomain ajaxLocation u end))
        (hasContent s) (with_types types (s_conv s)) (s_fixed s))
  end.
(** The address and the type, once the request will be made: the settings, [cacheURL],
    and the next number against caches. *)
Definition has_data (d : option payload) : bool :=
  match d with Some (Text_ []) | None => false | _ => true end.
Definition data_text (d : option payload) : jsstr :=
  match d with Some (Text_ t) | Some (Object_ _ t) => t | None => [] end.
Definition address (nonce : Z) (s : settings V) : settings V * jsstr * Z :=
  let type := to_upper (s_type s) in
  if Headers.rnoContent type then
    let cacheURL := if has_data (s_data s) then Headers.with_data (s_url s) (data_text (s_data s)) else s_url s in
    let made u d := Settings u type d (s_crossDomain s) false (s_conv s) (s_fixed s) in
    let d := if has_data (s_data s) then None else s_data s in
    if no_cache (s_fixed s) then (made (Headers.anti_cache digits nonce cacheURL) d, cacheURL, (nonce + 1)%Z)
    else (made cacheURL d, cacheURL, nonce)
  else (Settings (s_url s) type (s_data s) (s_crossDomain s) true (s_conv s) (s_fixed s), s_url s, nonce).
Definition allTypes : jsstr := js "*/" ++ js "*".
Definition accept_of (s : settings V) : jsstr :=
  let any := default (js "undefined") (obj_get (js "*") (accepts (s_fixed s))) in
  match dataTypes_of s with
  | ((_ :: _) as t) :: _ =>
      match obj_get t (accepts (s_fixed s)) with
      | Some ((_ :: _) as a) => a ++ (if str_eqb t (js "*") then [] else js ", " ++ allTypes ++ js "; q=0.01")
      | _ => any
      end
  | _ => any
  end.
(** The headers that are set for a request, in order. *)
Definition own_headers (w : world V) (s : settings V) (cacheURL : jsstr) : list (jsstr * jsstr) :=
  let noted name table := match obj_get cacheURL table with Some ((_ :: _) as v) => [(name, v)] | _ => [] end in
  (if ifModified (s_fixed s)
   then noted (js "If-Modified-Since") (lastModified w) ++ noted (js "If-None-Match") (etag w) else []) ++
  (if (has_data (s_data s) && hasContent s && bool_decide (is_Some (contentType (s_fixed s)))) || own_contentType (s_fixed s)
   then [(js "Content-Type", default (js "false") (contentType (s_fixed s)))] else []) ++
  [(js "Accept", accept_of s)] ++ headers_ (s_fixed s).
Fixpoint set_headers (r : nat) (l : list (jsstr * jsstr)) : M (world V) unit :=
  match l with [] => mret tt | (n, v) :: l => _ ← set_header r n v; set_headers r l end.
(** [transport.send(requestHeaders, done)], and its [try]. *)
Definition hand_over (r : nat) : M (world V) unit :=
  q ← get_request r;
  match transport (r_p q) with
  | Some (RTransport t) => _ ← page (KSend t r (Headers.values (r_headers q))); mret tt
  | _ => throw TypeError
  end.
Definition send (r : nat) : M (world V) unit := λ w,
  match hand_over r w with
  | (Throw Diverge, w) => (Throw Diverge, w)
  | (Throw e, w) => (q ← get_request r; if state (r_p q) <? 2 then done r (-1) (Thrown e) None [] else throw e) w
  | ok => ok
  end.
(** From the transport on. *)
Definition dispatch (r : nat) : M (world V) unit :=
  found ← inspectPrefiltersOrTransports true r;
  match found with
  | None => done r (-1) (Text (js "No Transport")) None []
  | Some t =>
      _ ← on_progress r (set_transport (Some t));
      _ ← on_request r (λ q, with_x (set_readyState 1 (r_x q)) q);
      q ← get_request r;
      _ ← (if fireGlobals (r_p q) then trigger AjaxSend (Some r) else mret tt);
      q ← get_request r;
      _ ← on_progress r (λ p, set_timer (async (s_fixed (r_s q)) && (0 <? timeout (s_fixed (r_s q)))%Z) (set_state 1 p));
      send r
  end.
(** From the prefilters on: the counter, the address and the headers, [beforeSend] (true
    when the request is given up), and the callbacks of the settings. *)
Definition announce (r : nat) : M (world V) unit :=
  q ← get_request r;
  let globals := global (s_fixed (r_s q)) in
  _ ← on_progress r (set_fireGlobals globals);
  if globals then enter else mret tt.
Definition configure (r : nat) : M (world V) (settings V) :=
  w ← Prelude.get;
  q ← get_request r;
  let '(s, url, n) := address (nonce w) (r_s q) in
  _ ← modify (with_nonce n);
  _ ← on_request r (λ q, with_s s (with_p (set_cacheURL url (r_p q)) q));
  _ ← set_headers r (own_headers w s url);
  mret s.
Definition before_send (r : nat) (s : settings V) : M (world V) bool :=
  match beforeSend (s_fixed s) with
  | Some u =>
      v ← page (KBeforeSend u r);
      q ← get_request r;
      mret (match v with RFalse => true | _ => state (r_p q) =? 2 end)
  | None => mret false
  end.
Definition install (r : nat) : M (world V) unit :=
  _ ← on_progress r (set_strAbort (js "abort"));
  q ← get_request r;
  _ ← add_fns r LDone (success (s_fixed (r_s q)));
  q ← get_request r;
  _ ← add_fns r LFail (error_ (s_fixed (r_s q)));
  q ← get_request r;
  add_fns r LComplete (complete (s_fixed (r_s q))).
Definition make (r : nat) : M (world V) unit :=
  _ ← announce r;
  s ← configure r;
  stop ← before_send r s;
  if (stop : bool) then abort r [] else _ ← install r; dispatch r.
Definition ajax (url method : jsstr) (s : settings V) : M (world V) nat :=
  match prepare url method s with
  | Throw e => throw e
  | Ok s =>
      w ← Prelude.get;
      let r := length (requests w) in
      _ ← put (with_requests (requests w ++ [new_request s]) w);
      _ ← inspectPrefiltersOrTransports false r;
      q ← get_request r;
      if state (r_p q) =? 2 then mret r else _ ← make r; mret r
  end.

(** *** Programs *)

Definition exec (c : cmd V) : M (world V) reply :=
  match c with
  | CAjax url method s => r ← ajax url method s; mret (RRequest r)
  | CAbort r t => _ ← abort r t; mret (RRequest r)
  | CSetHeader r n v => _ ← set_header r n v; mret (RRequest r)
  | CGetHeader r n => q ← get_request r; mret (match getResponseHeader q n with Some v => RText v | None => RUndefined end)
  | CGetAllHeaders r =>
      q ← get_request r; mret (if state (r_p q) =? 2 then RText (responseHeadersString (r_p q)) else RUndefined)
  | COverrideMimeType r t => _ ← overrideMimeType r t; mret (RRequest r)
  | CStatusCode r m => _ ← statusCode r m; mret (RRequest r)
  | COn r k us => _ ← get_request r; _ ← add_fns r k us; mret (RRequest r)
  | CAlways r us => _ ← get_request r; _ ← always r us; mret (RRequest r)
  | CSettings r f => _ ← on_settings r f; mret RUndefined
  | CDone r n t l h => _ ← done r n (Text t) l h; mret RUndefined
  | CTimeout r =>
      q ← get_request r;
      if timer (r_p q) then _ ← on_progress r (set_timer false); _ ← abort r (js "timeout"); mret RUndefined else mret RUndefined
  | CRegister seeking types u => _ ← modify (register seeking types u); mret RUndefined
  end.
Fixpoint run_prog (p : prog V) : M (world V) reply :=
  match p with
  | Ret v => mret v
  | Raise e => throw (UserError e)
  | Do c k => v ← exec c; run_prog (k v)
  end.
End page.

Section programs.
(** The functions of the page, which may depend on all that happened. *)
Variable body : call V → list (call V) → prog V.
Fixpoint run (fuel : nat) (c : call V) : M (world V) reply :=
  match fuel with
  | 0 => throw Diverge
  | S k => w ← Prelude.get; run_prog (run k) k (body c (log w))
  end.
(** A turn of the event loop: a script of the page, an answer to a transport, a timeout. *)
Definition turn (fuel : nat) (p : prog V) : M (world V) reply := run_prog (run fuel) fuel p.
End programs.
End operations.

(** ** Examples *)

Definition world0 : world nat := World 0 [] [] 7 [] [(js "*", [1])] [] [].
Definition plain_conv : Ajax.settings (V := nat) :=
  Ajax.Settings [] [(js "* text", Ajax.Same); (js "text html", Ajax.Same)] [] [] [] None false.
Definition get_settings (success complete : list nat) : settings nat :=
  Settings (js "/a#b") (js "get") (Some (Text_ (js "x=1"))) None false plain_conv
    (Fixed [] true false true 0 true true false (Some (js "text")) false [(js "*", js "*/*")] [(js "x-a", js "1")] None
       success [] complete []).
Definition sample_turn (body : call nat → list (call nat) → prog nat) (p : prog nat) (w : world nat) :=
  @turn ascii_case nat 0 (λ _ v, inl v) (js "http://h/") (λ _, js "7") (fmap ascii_upper_unit) body 30 p w.
Definition transport_body (c : call nat) (l : list (call nat)) : prog nat :=
  match c with KFactory _ _ => Ret (RTransport 5) | _ => Ret RUndefined end.
Definition sample_get : prog nat := Do (CAjax [] [] (get_settings [10] [11])) Ret.
Definition sample_answer : prog nat := Do (CDone 0 200 (js "OK") (Some [(js "text", 42)]) []) Ret.

End Requests.
