(* ===== verification/JqActive.v ===== *)
(** * The bookkeeping of requests in jquery.js

    Requests end once, and the counter [jQuery.active] brackets them with the events
    ajaxStart and ajaxStop, whatever the page does, unless what runs while a request is
    handed to its transport interferes with it. *)

From stdpp Require Import base tactics list strings numbers sets gmap.
From Stdlib Require Import NArith ZArith Lia.
From S2P Require Import Prelude.
From S2P Require Import JsString.
From S2P Require Import JsArray.
From S2P Require Import JqCallbacks.
From S2P Require Import JqRequest.
Import Callbacks Requests.

Module Active.

(** ** What is counted *)

Section view.
Context {V : Type}.
Implicit Types (w : world V) (q : request V) (l : list (call V)).

Definition finished q : Prop := state (r_p q) = 2.
Definition memories q : option (news V) * option (news V) * option (news V) :=
  (memory (done_list (r_l q)), memory (fail_list (r_l q)), memory (complete_list (r_l q))).
Definition is_completion (r : nat) (c : call V) : bool :=
  match c with KEvent AjaxComplete (Some r') => r =? r' | _ => false end.
(** How often the completion of a request was announced. *)
Definition completions (r : nat) l : nat := length (base.filter (λ c, is_completion r c = true) l).
(** Whether requests are announced to be going on; [None] if the events do not alternate. *)
Definition next_phase (p : option bool) (c : call V) : option bool :=
  match c, p with
  | KEvent AjaxStart _, Some false => Some true
  | KEvent AjaxStop _, Some true => Some false
  | KEvent AjaxStart _, _ | KEvent AjaxStop _, _ => None
  | _, _ => p
  end.
Definition phase l : option bool := foldl next_phase (Some false) l.

Fixpoint sum (f : nat → Z) (n : nat) : Z := match n with 0 => 0 | S n => f n + sum f n end.
(** The requests that count and have not been announced as complete. *)
Definition open_at w (r : nat) : Z :=
  match requests w !! r with
  | Some q => if fireGlobals (r_p q) && (completions r (log w) =? 0) then 1 else 0
  | None => 0
  end.
Definition open_count w : Z := sum (open_at w) (length (requests w)).
Definition slack w : Z := active w - open_count w.

Lemma sum_ext f g n : (∀ i, i < n → f i = g i) → sum f n = sum g n.
Proof. induction n as [|n IH]; intros Hfg; [done|]. cbn. rewrite Hfg, IH; [done|intros; apply Hfg; lia|lia]. Qed.
Lemma sum_update f g n r : r < n → (∀ i, i ≠ r → f i = g i) → sum g n = (sum f n + (g r - f r))%Z.
Proof.
  induction n as [|n IH]; intros Hr Hfg; [lia|]. cbn. destruct (decide (r = n)) as [->|Hne].
  - rewrite (sum_ext f g n) by (intros i Hi; apply Hfg; lia). lia.
  - rewrite IH by (done || lia). rewrite (Hfg n) by done. lia.
Qed.
Lemma sum_nonneg f n : (∀ i, (0 ≤ f i)%Z) → (0 ≤ sum f n)%Z.
Proof. intros Hf. induction n as [|n IH]; cbn; [done|]. specialize (Hf n). lia. Qed.
Lemma open_count_nonneg w : (0 ≤ open_count w)%Z.
Proof. apply sum_nonneg. intros i. unfold open_at. destruct (_ !! _); [|done]. by destruct (_ && _). Qed.
Lemma completions_app r l c : completions r (l ++ [c]) = completions r l + if is_completion r c then 1 else 0.
Proof.
  unfold completions. rewrite filter_app, length_app, filter_cons, filter_nil. destruct (is_completion r c); done.
Qed.
Lemma phase_app l c : phase (l ++ [c]) = next_phase (phase l) c.
Proof. unfold phase. by rewrite foldl_app. Qed.

(** ** The invariant, and what never changes *)

Record inv w : Prop := {
  inv_slack : (0 ≤ slack w)%Z;
  inv_once : ∀ r, completions r (log w) ≤ 1;
  inv_open : ∀ r, (∀ q, requests w !! r = Some q → ¬ finished q) → completions r (log w) = 0;
  inv_memory : ∀ r q, requests w !! r = Some q → ¬ finished q → memories q = (None, None, None);
  inv_phase : phase (log w) = Some (negb (active w =? 0)%Z);
}.
(** From [w] to [w'] no request is lost; apart from [G] they keep whether they count, and
    apart from [X] those that are finished stay as they are. *)
Record later (G X : nat → Prop) w w' : Prop := {
  later_requests : ∀ r q, requests w !! r = Some q → ∃ q', requests w' !! r = Some q' ∧
    (¬ G r → fireGlobals (r_p q') = fireGlobals (r_p q)) ∧
    (¬ X r → finished q → finished q' ∧ r_x q' = r_x q ∧ completions r (log w') = completions r (log w));
  later_slack : (slack w ≤ slack w')%Z;
}.
Definition step G X w w' : Prop := inv w → inv w' ∧ later G X w w'.
Definition none (_ : nat) : Prop := False.
Definition only (r r' : nat) : Prop := r' = r.

Lemma active_later_refl G X w : later G X w w.
Proof. split; [|done]. intros r q Hq. by exists q. Qed.
Lemma active_later_trans (G X G1 X1 G2 X2 : nat → Prop) w1 w2 w3 :
  (∀ r, G1 r → G r) → (∀ r, X1 r → X r) → (∀ r, G2 r → G r) → (∀ r, X2 r → X r) →
  later G1 X1 w1 w2 → later G2 X2 w2 w3 → later G X w1 w3.
Proof.
  intros HG1 HX1 HG2 HX2 [H1 S1] [H2 S2]. split; [|lia]. intros r q Hq.
  destruct (H1 r q Hq) as (q1 & E1 & A1 & B1). destruct (H2 r q1 E1) as (q2 & E2 & A2 & B2).
  exists q2. split; [done|]. split.
  - intros Hg. rewrite A2, A1; [done|naive_solver..].
  - intros Hx Hf. destruct B1 as (F1 & X1' & C1); [naive_solver|done|]. destruct B2 as (F2 & X2' & C2); [naive_solver|done|].
    split_and!; [done|congruence|congruence].
Qed.
#[export] Instance step_preorder G X : PreOrder (step G X).
Proof.
  split.
  - intros w Hi. split; [done|apply active_later_refl].
  - intros w1 w2 w3 H1 H2 Hi. destruct (H1 Hi) as [Hi1 L1]. destruct (H2 Hi1) as [Hi2 L2]. split; [done|].
    by eapply active_later_trans; [..|exact L1|exact L2].
Qed.
Lemma step_weaken G X w w' : step none none w w' → step G X w w'.
Proof.
  intros Hs Hi. destruct (Hs Hi) as [Hi' L]. split; [done|].
  eapply (active_later_trans G X none none none none); [done..|exact L|apply active_later_refl].
Qed.

(** ** Steps *)

(** The part of a request that matters. *)
Definition core q := (state (r_p q), fireGlobals (r_p q), r_x q, memories q).
(** Two worlds that look the same. *)
Record same w w' : Prop := {
  same_active : active w' = active w;
  same_requests : core <$> requests w' = core <$> requests w;
  same_completions : ∀ r, completions r (log w') = completions r (log w);
  same_phase : phase (log w') = phase (log w);
}.
#[export] Instance same_preorder : PreOrder same.
Proof. split; [by intros w|]. intros w1 w2 w3 [? ? ? ?] [? ? ? ?]. split; intros; congruence. Qed.
Lemma same_lookup w w' r q : same w w' → requests w !! r = Some q → ∃ q', requests w' !! r = Some q' ∧ core q' = core q.
Proof.
  intros [_ Hr _ _] Hq. pose proof (f_equal (.!! r) Hr) as E. cbn in E. rewrite !list_lookup_fmap, Hq in E.
  destruct (requests w' !! r) as [q'|]; [|done]. change (Some (core q') = Some (core q)) in E. exists q'. split; [done|congruence].
Qed.
Lemma same_sym w w' : same w w' → same w' w.
Proof. intros [? ? ? ?]. split; intros; congruence. Qed.
Lemma same_open w w' : same w w' → open_count w' = open_count w.
Proof.
  intros Hs. unfold open_count. assert (El : length (requests w') = length (requests w)).
  { rewrite <- (length_fmap core), (same_requests _ _ Hs). apply length_fmap. }
  rewrite El. apply sum_ext. intros r _. unfold open_at. rewrite (same_completions _ _ Hs).
  destruct (requests w !! r) as [q|] eqn:E.
  - destruct (same_lookup _ _ _ _ Hs E) as (q' & -> & Eq).
    assert (Hg : fireGlobals (r_p q') = fireGlobals (r_p q)) by (unfold core in Eq; congruence). by rewrite Hg.
  - destruct (requests w' !! r) as [q'|] eqn:E'; [|done]. apply same_sym in Hs.
    destruct (same_lookup _ _ _ _ Hs E') as (? & ? & _). congruence.
Qed.
Lemma same_step G X w w' : same w w' → step G X w w'.
Proof.
  intros Hs Hi. pose proof (same_open _ _ Hs) as Ho. pose proof (same_sym _ _ Hs) as Hs'. destruct Hi as [H1 H2 H3 H4 H5].
  assert (Hsl : slack w' = slack w) by (unfold slack; by rewrite Ho, (same_active _ _ Hs)).
  split; [split|split].
  - lia.
  - intros r. by rewrite (same_completions _ _ Hs).
  - intros r Hr. rewrite (same_completions _ _ Hs). apply H3. intros q Hq Hf.
    destruct (same_lookup _ _ _ _ Hs Hq) as (q' & Hq' & E). apply (Hr q' Hq'). unfold core in E. unfold finished in *. congruence.
  - intros r q Hq Hf. destruct (same_lookup _ _ _ _ Hs' Hq) as (q' & Hq' & E). unfold core in E.
    assert (E' : memories q' = (None, None, None)).
    2:{ congruence. }
    apply (H4 r q' Hq'). intros Hq2. apply Hf. unfold finished in *. congruence.
  - rewrite (same_phase _ _ Hs), (same_active _ _ Hs). done.
  - intros r q Hq. destruct (same_lookup _ _ _ _ Hs Hq) as (q' & Hq' & E). exists q'. unfold core in E. unfold finished.
    split; [done|]. split; [congruence|]. intros _ Hf. split_and!; [congruence|congruence|]. apply (same_completions _ _ Hs).
  - lia.
Qed.

(** A change of one request that does not touch whether it counts. *)
Lemma change_step (G X : nat → Prop) r f w :
  (∀ q, requests w !! r = Some q → fireGlobals (r_p (f q)) = fireGlobals (r_p q) ∧
    (finished q → finished (f q) ∧ (¬ X r → r_x (f q) = r_x q)) ∧
    (¬ finished (f q) → memories (f q) = memories q)) →
  step G X w (with_requests (alter f r (requests w)) w).
Proof.
  intros Hf Hi. set (w' := with_requests _ _).
  assert (Hlook : ∀ i q', requests w' !! i = Some q' → ∃ q, requests w !! i = Some q ∧ ((i ≠ r ∧ q' = q) ∨ (i = r ∧ q' = f q))).
  { intros i q'. unfold w'. cbn. destruct (decide (i = r)) as [->|Hne].
    - rewrite list_lookup_alter_eq. intros (q & -> & Hq)%fmap_Some. exists q. split; [done|]. by right.
    - rewrite list_lookup_alter_ne by done. intros Hq. exists q'. split; [done|]. by left. }
  assert (Ho : open_count w' = open_count w).
  { unfold open_count, w' at 2. cbn. rewrite length_alter. apply sum_ext. intros i _. unfold open_at, w'. cbn.
    destruct (decide (i = r)) as [->|Hne].
    - rewrite list_lookup_alter_eq. destruct (requests w !! r) as [q|] eqn:E; [|done]. cbn. destruct (Hf q eq_refl) as [-> _]. done.
    - by rewrite list_lookup_alter_ne. }
  destruct Hi as [H1 H2 H3 H4 H5]. split; [split|split].
  - unfold slack in *. by rewrite Ho.
  - exact H2.
  - intros i Hn. apply H3. intros q Hq Hq2. unfold w' in Hn. cbn in Hn. destruct (decide (i = r)) as [->|Hne].
    + apply (Hn (f q)); [by rewrite list_lookup_alter_eq, Hq|]. by apply (Hf q).
    + apply (Hn q); [|done]. by rewrite list_lookup_alter_ne.
  - intros i q' Hq' Hn. destruct (Hlook _ _ Hq') as (q & Hq & [[_ ->]|[-> ->]]); [by eapply H4|].
    destruct (Hf q Hq) as (_ & Hfin & Hm). rewrite Hm by done. apply (H4 r q Hq). intros Hq2. by apply Hn, Hfin.
  - exact H5.
  - intros i q Hq. unfold w'. cbn. destruct (decide (i = r)) as [->|Hne].
    + exists (f q). rewrite list_lookup_alter_eq, Hq. split; [done|]. destruct (Hf q Hq) as (Hg & Hfin & _).
      split; [done|]. intros Hx Hq2. destruct (Hfin Hq2) as [? Hx']. split; [done|]. split; [by apply Hx'|done].
    + exists q. by rewrite list_lookup_alter_ne.
  - unfold slack. rewrite Ho. unfold w'. cbn. lia.
Qed.

Lemma lookup_alter_same r f w :
  (∀ q, requests w !! r = Some q → core (f q) = core q) → same w (with_requests (alter f r (requests w)) w).
Proof.
  intros Hf. split; [done| |done..]. cbn. apply list_eq. intros i. rewrite !list_lookup_fmap.
  destruct (decide (i = r)) as [->|Hne]; [|by rewrite list_lookup_alter_ne].
  rewrite list_lookup_alter_eq. destruct (requests w !! r) as [q|]; [|done].
  change (Some (core (f q)) = Some (core q)). by rewrite Hf.
Qed.

(** A request that is finished, and what is kept while it is. *)
Definition finished_at (r : nat) w : Prop := ∃ q, requests w !! r = Some q ∧ finished q.
Definition after (r : nat) w w' : Prop := finished_at r w → step none none w w'.
Lemma finished_later r w w' : later none none w w' → finished_at r w → finished_at r w'.
Proof.
  intros L (q & Hq & Hf). destruct (later_requests _ _ _ _ L r q Hq) as (q' & Hq' & _ & Hk).
  exists q'. split; [done|]. by destruct (Hk id Hf).
Qed.
#[export] Instance after_preorder r : PreOrder (after r).
Proof.
  split; [intros w _; reflexivity|]. intros w1 w2 w3 H1 H2 Hf Hi. destruct (H1 Hf Hi) as [Hi2 L1].
  destruct (H2 (finished_later _ _ _ L1 Hf) Hi2) as [Hi3 L2]. split; [done|].
  by eapply active_later_trans; [..|exact L1|exact L2].
Qed.
Lemma step_after r w w' : step none none w w' → after r w w'.
Proof. by intros Hs _. Qed.

(** An entry of the log that is neither a completion nor a start or stop. *)
Definition minor (c : call V) : bool :=
  match c with KEvent (AjaxStart | AjaxStop | AjaxComplete) _ => false | _ => true end.
Lemma log_same c w : minor c = true → same w (with_log (log w ++ [c]) w).
Proof.
  intros Hc. split; [done|done| |].
  - intros r. change (log (with_log _ w)) with (log w ++ [c]). rewrite completions_app.
    assert (E : is_completion r c = false) by (by destruct c as [| | | | | |[] []]). rewrite E. lia.
  - change (log (with_log _ w)) with (log w ++ [c]). rewrite phase_app. destruct c as [| | | | | |[] []]; try done; by destruct (phase _).
Qed.

(** A finished request whose completion was not announced. *)
Definition ending (r : nat) (g : bool) w : Prop :=
  ∃ q, requests w !! r = Some q ∧ finished q ∧ fireGlobals (r_p q) = g ∧ completions r (log w) = 0.
Definition during (r : nat) (g : bool) w w' : Prop := ending r g w → step none none w w'.
Definition ends (r : nat) (g : bool) w w' : Prop := ending r g w → step none (only r) w w'.
Lemma ending_later r g w w' : later none none w w' → ending r g w → ending r g w'.
Proof.
  intros L (q & Hq & Hf & Hg & Hc). destruct (later_requests _ _ _ _ L r q Hq) as (q' & Hq' & Hg' & Hk).
  destruct (Hk id Hf) as (Hf' & _ & Hc'). exists q'. split_and!; [done|done|by rewrite (Hg' id)|congruence].
Qed.
#[export] Instance during_preorder r g : PreOrder (during r g).
Proof.
  split; [intros w _; reflexivity|]. intros w1 w2 w3 H1 H2 Hf Hi. destruct (H1 Hf Hi) as [Hi2 L1].
  destruct (H2 (ending_later _ _ _ _ L1 Hf) Hi2) as [Hi3 L2]. split; [done|].
  by eapply active_later_trans; [..|exact L1|exact L2].
Qed.
Lemma during_ends r g w w' : during r g w w' → ends r g w w'.
Proof. intros Hd He. apply step_weaken. by apply Hd. Qed.
Lemma ends_seq r g w1 w2 w3 : during r g w1 w2 → ends r g w2 w3 → ends r g w1 w3.
Proof.
  intros H1 H2 He Hi. destruct (H1 He Hi) as [Hi2 L1]. destruct (H2 (ending_later _ _ _ _ L1 He) Hi2) as [Hi3 L2].
  split; [done|]. by eapply active_later_trans; [..|exact L1|exact L2].
Qed.
Lemma after_during r g w w' : after r w w' → during r g w w'.
Proof. intros Ha (q & Hq & Hf & _). apply Ha. by exists q. Qed.

(** What happens when the counter changes. *)
Lemma log_completion w r :
  inv w → ending r true w → let w' := with_log (log w ++ [KEvent AjaxComplete (Some r)]) w in
  inv w' ∧ later none (only r) w w' ∧ slack w' = (slack w + 1)%Z.
Proof.
  intros Hi (q & Hq & Hf & Hg & Hc) w'. pose proof (lookup_lt_Some _ _ _ Hq) as Hr.
  assert (Hlog : ∀ i, completions i (log w') = completions i (log w) + if i =? r then 1 else 0).
  { intros i. unfold w'. change (log (with_log _ w)) with (log w ++ [KEvent AjaxComplete (Some r)]). by rewrite completions_app. }
  assert (Ho : open_count w' = (open_count w - 1)%Z).
  { unfold open_count. change (requests w') with (requests w). rewrite (sum_update (open_at w) (open_at w') _ r); [|done|].
    - unfold open_at. change (requests w') with (requests w). rewrite Hq, Hg, Hlog, Hc, Nat.eqb_refl. cbn. lia.
    - intros i Hne. unfold open_at. change (requests w') with (requests w). rewrite Hlog, (proj2 (Nat.eqb_neq i r)) by done.
      by rewrite Nat.add_0_r. }
  assert (Hs : slack w' = (slack w + 1)%Z) by (unfold slack; rewrite Ho; change (active w') with (active w); lia).
  destruct Hi as [H1 H2 H3 H4 H5]. split_and!; [split|split|done].
  - lia.
  - intros i. rewrite Hlog. specialize (H2 i). destruct (Nat.eqb_spec i r); [subst; lia|lia].
  - intros i Hn. rewrite Hlog. destruct (Nat.eqb_spec i r) as [->|]; [by destruct (Hn q Hq)|]. rewrite H3; [done|exact Hn].
  - exact H4.
  - unfold w'. change (log (with_log _ w)) with (log w ++ [KEvent AjaxComplete (Some r)]). rewrite phase_app, H5. done.
  - intros i q' Hq'. exists q'. split; [done|]. split; [done|]. intros Hne Hf'. split_and!; [done|done|].
    rewrite Hlog, (proj2 (Nat.eqb_neq i r)) by exact Hne. lia.
  - lia.
Qed.
(** Counting a request less, with the event when none is left. *)
Definition left_world w : world V :=
  let w1 := with_active (active w - 1) w in
  if (active w - 1 =? 0)%Z then with_log (log w ++ [KEvent AjaxStop None]) w1 else w1.
Lemma left_spec w0 r w :
  inv w → (0 ≤ slack w0)%Z → (slack w0 + 1 ≤ slack w)%Z → later none (only r) w0 w → inv (left_world w) ∧ later none (only r) w0 (left_world w).
Proof.
  intros [H1 H2 H3 H4 H5] H0 Hs L. pose proof (open_count_nonneg w) as Hn.
  assert (Hr : requests (left_world w) = requests w) by (unfold left_world; by destruct (active w - 1 =? 0)%Z).
  assert (Hlog : ∀ i, completions i (log (left_world w)) = completions i (log w)).
  { intros i. unfold left_world. destruct (active w - 1 =? 0)%Z; [|done].
    change (log (with_log _ _)) with (log w ++ [KEvent (V := V) AjaxStop None]). rewrite completions_app. cbn. lia. }
  assert (Ha : active (left_world w) = (active w - 1)%Z) by (unfold left_world; by destruct (active w - 1 =? 0)%Z).
  assert (Ho : open_count (left_world w) = open_count w).
  { unfold open_count. rewrite Hr. apply sum_ext. intros i _. unfold open_at. by rewrite Hr, Hlog. }
  assert (Hsl : slack (left_world w) = (slack w - 1)%Z) by (unfold slack; rewrite Ho, Ha; lia).
  split; [split|split].
  - lia.
  - intros i. by rewrite Hlog.
  - intros i. rewrite Hr, Hlog. apply H3.
  - intros i. rewrite Hr. apply H4.
  - rewrite Ha. unfold left_world. unfold slack in Hs, H0. destruct (Z.eqb_spec (active w - 1) 0) as [E|E].
    + change (log (with_log _ _)) with (log w ++ [KEvent (V := V) AjaxStop None]). rewrite phase_app, H5.
      by rewrite (proj2 (Z.eqb_neq (active w) 0)) by lia.
    + change (log (with_active _ _)) with (log w). rewrite H5. f_equal. rewrite (proj2 (Z.eqb_neq (active w) 0)); [done|].
      unfold slack in *. lia.
  - intros i q Hq. destruct (later_requests _ _ _ _ L i q Hq) as (q' & Hq' & Hg & Hk). exists q'. rewrite Hr, Hlog. done.
  - lia.
Qed.
(** Counting a request that goes on, with the event before the first. *)
Definition entered_world (r : nat) w : world V :=
  let w1 := with_requests (alter (λ q, with_p (set_fireGlobals true (r_p q)) q) r (requests w)) w in
  let w2 := with_active (active w + 1) w1 in
  if (active w =? 0)%Z then with_log (log w ++ [KEvent AjaxStart None]) w2 else w2.
Lemma entered_spec w r q :
  inv w → requests w !! r = Some q → ¬ finished q → fireGlobals (r_p q) = false →
  inv (entered_world r w) ∧ later (only r) (only r) w (entered_world r w).
Proof.
  intros [H1 H2 H3 H4 H5] Hq Hf Hg. pose proof (lookup_lt_Some _ _ _ Hq) as Hlen.
  set (f := λ q : request V, with_p (set_fireGlobals true (r_p q)) q).
  assert (Hr : requests (entered_world r w) = alter f r (requests w)) by (unfold entered_world; by destruct (active w =? 0)%Z).
  assert (Hlog : ∀ i, completions i (log (entered_world r w)) = completions i (log w)).
  { intros i. unfold entered_world. destruct (active w =? 0)%Z; [|done].
    change (log (with_log _ _)) with (log w ++ [KEvent (V := V) AjaxStart None]). rewrite completions_app. cbn. lia. }
  assert (Ha : active (entered_world r w) = (active w + 1)%Z) by (unfold entered_world; by destruct (active w =? 0)%Z).
  assert (Hc : completions r (log w) = 0) by (apply H3; intros q' Hq'; congruence).
  assert (Ho : open_count (entered_world r w) = (open_count w + 1)%Z).
  { unfold open_count. rewrite Hr, length_alter, (sum_update (open_at w) (open_at (entered_world r w)) _ r); [|done|].
    - unfold open_at. rewrite Hr, Hlog, list_lookup_alter_eq, Hq, Hc, Hg. cbn. lia.
    - intros i Hne. unfold open_at. by rewrite Hr, Hlog, list_lookup_alter_ne by done. }
  assert (Hsl : slack (entered_world r w) = slack w) by (unfold slack; rewrite Ho, Ha; lia).
  assert (Hlook : ∀ i q', alter f r (requests w) !! i = Some q' →
    ∃ q0, requests w !! i = Some q0 ∧ (finished q' ↔ finished q0) ∧ memories q' = memories q0).
  { intros i q'. destruct (decide (i = r)) as [->|Hne].
    - rewrite list_lookup_alter_eq. intros (q0 & -> & ->)%fmap_Some. by exists q0.
    - rewrite list_lookup_alter_ne by done. intros Hq'. by exists q'. }
  split; [split|split].
  - lia.
  - intros i. by rewrite Hlog.
  - intros i Hn. rewrite Hlog. apply H3. intros q0 Hq0 Hf0. rewrite Hr in Hn. destruct (decide (i = r)) as [->|Hne]; [congruence|].
    apply (Hn q0); [|done]. by rewrite list_lookup_alter_ne.
  - intros i q' Hq' Hn. rewrite Hr in Hq'. destruct (Hlook _ _ Hq') as (q0 & Hq0 & Hff & ->). apply (H4 i q0 Hq0). tauto.
  - rewrite Ha. pose proof (open_count_nonneg w). unfold slack in H1. unfold entered_world. destruct (Z.eqb_spec (active w) 0) as [E|E].
    + change (log (with_log _ _)) with (log w ++ [KEvent (V := V) AjaxStart None]). rewrite phase_app, H5, E. done.
    + change (log (with_active _ _)) with (log w). rewrite H5. f_equal.
      rewrite !(proj2 (Z.eqb_neq _ _)) by lia. done.
  - intros i q0 Hq0. rewrite Hr, Hlog. destruct (decide (i = r)) as [->|Hne].
    + exists (f q0). rewrite list_lookup_alter_eq, Hq0. split; [done|]. split; [intros Hn; by destruct Hn|]. intros Hn. by destruct Hn.
    + exists q0. rewrite list_lookup_alter_ne by done. done.
  - lia.
Qed.

Definition goes (r : nat) (g : bool) w w' : Prop := ending r g w → step none (only r) w w' ∧ ending r g w'.
Lemma goes_ends r g w w' : goes r g w w' → ends r g w w'.
Proof. intros Hg He. by apply Hg. Qed.
Lemma goes_seq r g w1 w2 w3 : goes r g w1 w2 → ends r g w2 w3 → ends r g w1 w3.
Proof. intros H1 H2 He. destruct (H1 He) as [S1 He2]. etrans; [exact S1|]. by apply H2. Qed.
Lemma same_goes r g w w' : same w w' → goes r g w w'.
Proof.
  intros Hs (q & Hq & Hf & Hg & Hc). split; [by apply same_step|].
  destruct (same_lookup _ _ _ _ Hs Hq) as (q' & Hq' & E). exists q'. unfold core in E. unfold finished in *.
  split_and!; [done|congruence|congruence|by rewrite (same_completions _ _ Hs)].
Qed.
(** For a request that goes on nothing was promised. *)
Lemma later_unfinished r w w' :
  (∀ q, requests w !! r = Some q → ¬ finished q) → later none (only r) w w' → later none none w w'.
Proof.
  intros Hn [L S]. split; [|done]. intros i q Hq. destruct (L i q Hq) as (q' & Hq' & Hg & Hk). exists q'. split; [done|].
  split; [done|]. intros _ Hf. apply Hk; [|done]. intros ->. by apply (Hn q).
Qed.
End view.

(** ** What the operations keep *)

Section operations.
Context `{UnicodeCase} {V : Type}.
Variable undef : V.
Variable convert : nat → V → V + nat.
Variable ajaxLocation : jsstr.
Variable digits : Z → jsstr.
Variable to_upper : jsstr → jsstr.
Variable run : call V → M (world V) reply.
Variable fuel : nat.
Implicit Types (w : world V) (q : request V).
(** What runs from the announcement of a request until it is handed to its transport. *)
Definition sending (c : call V) : bool :=
  match c with KFactory _ _ | KEvent (AjaxStart | AjaxSend) _ => true | _ => false end.
Hypothesis run_step : ∀ c, keeps (step none none) (run c).
Hypothesis run_same : ∀ c, sending c = true → keeps (same (V := V)) (run c).
Local Abbreviation page := (page run).
Local Abbreviation R0 := (step (V := V) none none).

Lemma page_minor c : minor c = true → keeps R0 (page c).
Proof.
  intros Hc. apply (keeps_bind R0); [|done]. intros w. by apply same_step, log_same.
Qed.
Lemma page_sending c : minor c = true → sending c = true → keeps (same (V := V)) (page c).
Proof.
  intros Hc Hs. apply (keeps_bind same); [|intros _; by apply run_same]. intros w. by apply log_same.
Qed.
Lemma trigger_minor e r : minor (V := V) (KEvent e r) = true → keeps R0 (trigger run e r).
Proof. intros Hc. apply (keeps_bind R0); [by apply page_minor|]. intros v. by apply (keeps_ret R0). Qed.
Lemma get_request_keeps {A} R `{!PreOrder R} r (k : request V → M (world V) A) :
  (∀ w q, requests w !! r = Some q → R w (k q w).2) → keeps R (q ← get_request r; k q).
Proof.
  intros Hk w. unfold get_request, mbind, M_bind, Prelude.get. cbn. destruct (requests w !! r) as [q|] eqn:E; [by apply Hk|].
  cbn. reflexivity.
Qed.
Lemma on_request_same r f : (∀ q, core (f q) = core q) → keeps (same (V := V)) (on_request r f).
Proof. intros Hf w. by apply lookup_alter_same. Qed.

(** *** Callback lists *)

Lemma upd_after r k g : keeps (after (V := V) r) (upd (list_at r k) (put_list r k) g).
Proof.
  intros w (q & Hq & Hf). unfold upd, modify, put_list. cbn. apply change_step. intros q' Hq'. rewrite Hq in Hq'. injection Hq' as <-.
  split; [done|]. split; [done|]. intros Hn. by destruct Hn.
Qed.
Lemma call_fn_after r f n : keeps (after (V := V) r) (call_fn run r f n).
Proof.
  destruct f as [u|b|b]; cbn [call_fn].
  - apply (keeps_mono R0); [apply step_after|]. apply (keeps_bind R0); [by apply page_minor|]. intros v. by apply (keeps_ret R0).
  - apply (keeps_bind (after (V := V) r)); [|intros _; by apply (keeps_ret (after (V := V) r))]. intros w _. by apply same_step, lookup_alter_same.
  - apply (keeps_bind (after (V := V) r)); [|intros _; by apply (keeps_ret (after (V := V) r))]. apply upd_after.
Qed.
Lemma fire_list_after r k n : keeps (after (V := V) r) (fire_list run fuel r k n).
Proof. apply fireWith_keeps; [apply _|apply upd_after|apply call_fn_after]. Qed.
Lemma upd_same r k g w :
  (∀ c, memory (g c) = memory c) → same w ((upd (list_at r k) (put_list r k) g) w).2.
Proof.
  intros Hg. unfold upd, modify, put_list. cbn. apply lookup_alter_same. intros q Hq. unfold list_at. rewrite Hq.
  unfold core, memories. destruct k; cbn; by rewrite Hg.
Qed.
(** Functions that are added to a request that goes on are not called yet. *)
Lemma add_fns_same r k us w :
  inv w → ¬ finished_at r w → same w (add_fns run fuel r k us w).2.
Proof.
  intros Hi Hn. unfold add_fns, add, mbind at 1, M_bind at 1, Prelude.get. cbn beta iota.
  assert (Hm : memory (list_at r k w) = None).
  { unfold list_at. destruct (requests w !! r) as [q|] eqn:Hq; [|done].
    assert (E : memories q = (None, None, None)). { apply (inv_memory _ Hi r q Hq). intros Hf. apply Hn. by exists q. }
    unfold memories in E. destruct k; cbn; congruence. }
  rewrite Hm. destruct (list_ (list_at r k w)) as [l|]; [|done]. unfold mbind, M_bind.
  pose proof (upd_same r k (set_list (Some (foldl (add_arg once_memory) l ((λ u, Fun (FUser u)) <$> us)))) w (λ _, eq_refl)) as H1.
  destruct (upd _ _ _ w) as [[[]|e] w1]; [|done]. cbn in H1. etrans; [exact H1|].
  destruct (firing _); [|done]. by apply upd_same.
Qed.
Lemma add_fns_step r k us : keeps R0 (add_fns run fuel r k us).
Proof.
  intros w Hi. destruct (requests w !! r) as [q|] eqn:Hq; [destruct (decide (state (r_p q) = 2)) as [Hf|Hf]|].
  - assert (Ha : keeps (after (V := V) r) (add_fns run fuel r k us)) by (apply add_keeps; [apply _|apply upd_after|apply call_fn_after]).
    apply Ha; [by exists q|done].
  - apply same_step; [|done]. apply add_fns_same; [done|]. intros (q' & Hq' & Hf'). unfold finished in Hf'. congruence.
  - apply same_step; [|done]. apply add_fns_same; [done|]. intros (q' & Hq' & _). congruence.
Qed.
Lemma always_step r us : keeps R0 (always run fuel r us).
Proof. apply (keeps_bind R0); [|intros _]; apply add_fns_step. Qed.
Lemma statusCode_step r map : keeps R0 (statusCode run fuel r map).
Proof.
  apply get_request_keeps; [apply _|]. intros w q Hq. destruct (_ <? 2); [|apply always_step].
  apply same_step. by apply lookup_alter_same.
Qed.

(** *** The end of a request *)

Lemma trigger_eq e r w :
  trigger run e r w = match run (KEvent e r) (with_log (log w ++ [KEvent e r]) w) with (Ok _, w') => (Ok tt, w') | (Throw x, w') => (Throw x, w') end.
Proof. unfold trigger, Requests.page, mbind, M_bind, modify. by destruct (run _ _) as [[]]. Qed.
Lemma leave_eq w : (leave run w).2 = if (active w - 1 =? 0)%Z then (run (KEvent AjaxStop None) (left_world w)).2 else left_world w.
Proof.
  unfold leave, left_world, mbind, M_bind, Prelude.get, put. cbn beta iota. destruct (active w - 1 =? 0)%Z; [|done].
  rewrite trigger_eq. cbn [log with_active]. by destruct (run _ _) as [[]].
Qed.
Lemma complete_ends r : keeps (ends (V := V) r true) (_ ← trigger run AjaxComplete (Some r); leave run).
Proof.
  intros w He Hi. destruct (log_completion w r Hi He) as (Hi1 & L1 & S1). pose proof (inv_slack _ Hi) as H0.
  unfold mbind, M_bind. rewrite trigger_eq. set (w1 := with_log (log w ++ [KEvent AjaxComplete (Some r)]) w) in *.
  destruct (run_step (KEvent AjaxComplete (Some r)) w1 Hi1) as [Hi2 L2].
  assert (L : later none (only r) w (run (KEvent AjaxComplete (Some r)) w1).2)
    by (by eapply (active_later_trans none (only r) none (only r) none none); [..|exact L1|exact L2]).
  destruct (run _ w1) as [[v|e] w2]; cbn [fst snd] in *; [|done].
  pose proof (later_slack _ _ _ _ L2) as S2. destruct (left_spec w r w2 Hi2 H0 ltac:(lia) L) as [Hi3 L3].
  rewrite leave_eq. destruct (active w2 - 1 =? 0)%Z; [|done].
  destruct (run_step (KEvent AjaxStop None) (left_world w2) Hi3) as [Hi4 L4]. split; [done|].
  by eapply (active_later_trans none (only r) none (only r) none none); [..|exact L3|exact L4].
Qed.
Lemma during_after {A} r g (m : M (world V) A) : keeps (after (V := V) r) m → keeps (during (V := V) r g) m.
Proof. apply keeps_mono. intros w w'. apply after_during. Qed.
Lemma during_step {A} r g (m : M (world V) A) : keeps R0 m → keeps (during (V := V) r g) m.
Proof. intros Hm. apply during_after. intros w. apply step_after, Hm. Qed.
Lemma during_seq {A B} r g (m : M (world V) A) (k : A → M (world V) B) :
  keeps (during (V := V) r g) m → (∀ a, keeps (ends r g) (k a)) → keeps (ends r g) (m ≫= k).
Proof. apply keeps_seq; [apply during_ends|apply ends_seq]. Qed.
Lemma conclude_ends r g ok data shown why : keeps (ends (V := V) r g) (conclude run fuel r ok data shown why).
Proof.
  unfold conclude. apply during_seq; [destruct ok; apply during_after, fire_list_after|]. intros _.
  intros w He. revert w He. apply (during_seq r g); [|intros q0].
  { intros w. unfold get_request, mbind, M_bind, Prelude.get. cbn. destruct (requests w !! r); cbn; reflexivity. }
  apply during_seq; [apply during_step, statusCode_step|]. intros _.
  apply during_seq; [apply during_step; intros w; by apply same_step, lookup_alter_same|]. intros _.
  intros w He. pose proof He as (q & Hq & _ & Hg & _). revert He. unfold get_request, mbind at 1, M_bind at 1.
  assert (Eq : (w ← Prelude.get; match requests w !! r with Some q => mret q | None => throw TypeError end : M (world V) (request V)) w = (Ok q, w)).
  { unfold mbind, M_bind, Prelude.get. by rewrite Hq. }
  rewrite Eq, Hg. clear Eq Hq Hg q. revert w. apply during_seq.
  { apply during_step. destruct g; [|apply (keeps_ret R0)]. apply trigger_minor. by destruct ok. }
  intros _. apply during_seq; [apply during_after, fire_list_after|]. intros _. destruct g; [apply complete_ends|].
  intros w _. reflexivity.
Qed.

Local Abbreviation done := (done undef convert run fuel).
Lemma goes_then {A B} r g (m : M (world V) A) (k : A → M (world V) B) :
  keeps (goes (V := V) r g) m → (∀ a, keeps (ends r g) (k a)) → keeps (ends r g) (m ≫= k).
Proof. apply keeps_seq; [apply goes_ends|apply goes_seq]. Qed.
Lemma set_xhr_goes r g x : keeps (goes (V := V) r g) (on_request r (λ q, with_x (x q) q)).
Proof.
  intros w (q & Hq & Hf & Hg & Hc). split.
  - apply change_step. intros q' Hq'. rewrite Hq in Hq'. injection Hq' as <-. split; [done|]. split.
    + intros _. split; [done|]. intros Hn. by destruct Hn.
    + intros Hn. by destruct Hn.
  - exists (with_x (x q) q). cbn. by rewrite list_lookup_alter_eq, Hq.
Qed.
(** What follows [state = 2]. *)
Lemma done_tail r g f q1 code native type (isSuccess modified : bool) res :
  keeps (ends (V := V) r g)
    (_ ← on_settings r f;
     match res with
     | Throw e => throw e
     | Ok (converted, fs) =>
         _ ← (if modified then remember_modified q1 else mret tt);
         let '(ok, data, shown, why, code) := verdict (V := V) code native type isSuccess converted in
         _ ← on_request r (λ q, with_x (Xhr (readyState (r_x q)) (Some code) (Some (if falsy native then shown else native)) fs) q);
         conclude run fuel r ok data shown why
     end).
Proof.
  apply goes_then; [intros w; by apply same_goes, lookup_alter_same|]. intros _.
  destruct res as [[c fs]|e]; [|intros w _; reflexivity].
  apply goes_then; [destruct modified; intros w; by apply same_goes|]. intros _.
  destruct (verdict _ _ _ _ _) as [[[[ok data] shown] why] code']. apply goes_then; [apply set_xhr_goes|].
  intros _. apply conclude_ends.
Qed.
Lemma done_step r code native responses headers : keeps R0 (done r code native responses headers).
Proof.
  apply get_request_keeps; [apply _|]. intros w q Hq. destruct (Nat.eqb_spec (state (r_p q)) 2) as [Hf|Hf]; [reflexivity|].
  intros Hi. unfold on_request at 1, modify at 1, mbind at 1, M_bind at 1. cbn beta iota.
  set (w1 := with_requests (alter (finish code headers) r (requests w)) w).
  assert (S1 : step none none w w1).
  { apply change_step. intros q' Hq'. rewrite Hq in Hq'. injection Hq' as <-. split; [done|]. split; [|intros Hn; by destruct Hn].
    intros Hf'. by destruct Hf. }
  destruct (S1 Hi) as [Hi1 L1].
  assert (He : ending r (fireGlobals (r_p q)) w1).
  { exists (finish code headers q). cbn. rewrite list_lookup_alter_eq, Hq. split_and!; [done|done|done|].
    apply (inv_open _ Hi). intros q' Hq'. rewrite Hq in Hq'. by injection Hq' as <-. }
  destruct (handle _ _ _) as [s response].
  assert (Hend : ∀ w2, ends r (fireGlobals (r_p q)) w1 w2 → inv w2 ∧ later none none w w2).
  { intros w2 H2. destruct (H2 He Hi1) as [Hi2 L2]. split; [done|]. apply (later_unfinished r).
    - intros q' Hq'. rewrite Hq in Hq'. by injection Hq' as <-.
    - by eapply (active_later_trans none (only r) none none none (only r)); [..|exact L1|exact L2]. }
  apply Hend, done_tail.
Qed.
Lemma abort_step r t : keeps R0 (abort undef convert run fuel r t).
Proof.
  apply get_request_keeps; [apply _|]. intros w q _. revert w. apply (keeps_bind R0); [|intros _; apply done_step].
  destruct (transport (r_p q)) as [[]|]; try apply (keeps_throw R0); [|apply (keeps_ret R0)].
  apply (keeps_bind R0); [by apply page_minor|]. intros _. apply (keeps_ret R0).
Qed.

(** *** Making a request *)

Lemma inspect_fns_keeps (R : world V → world V → Prop) `{!PreOrder R} inner (seeking : bool) r inspected us :
  (∀ w w', same w w' → R w w') → (∀ u, keeps R (page (if seeking then KFactory u r else KPrefilter u r))) →
  (∀ t l, keeps R (inner t l)) → keeps R (inspect_fns run inner seeking r inspected us).
Proof.
  intros Hsame Hpage Hinner. induction us as [|u us IH]; cbn [inspect_fns]; [by apply (keeps_ret R)|].
  apply (keeps_bind R); [done|]. intros v. destruct seeking.
  - destruct (truthy v); [by apply (keeps_ret R)|done].
  - destruct v; try done. case_bool_decide; [done|]. apply (keeps_bind R).
    + intros w. by apply Hsame, lookup_alter_same.
    + intros _. apply (keeps_bind R); [done|]. intros found. by apply (keeps_ret R).
Qed.
Lemma inspectPrefiltersOrTransports_keeps (R : world V → world V → Prop) `{!PreOrder R} (seeking : bool) r :
  (∀ w w', same w w' → R w w') → (∀ u, keeps R (page (if seeking then KFactory u r else KPrefilter u r))) →
  keeps R (inspectPrefiltersOrTransports run fuel seeking r).
Proof.
  intros Hsame Hpage.
  assert (Hin : ∀ k t l, keeps R (inspect run k seeking r t l)).
  { induction k as [|k IH]; intros t l; [by apply (keeps_throw R)|]. cbn [inspect]. apply (keeps_get R). intros w.
    by apply inspect_fns_keeps. }
  apply get_request_keeps; [done|]. intros w q _. revert w. apply (keeps_bind R); [apply Hin|]. intros [[v|] l]; [by apply (keeps_ret R)|].
  case_bool_decide; [by apply (keeps_ret R)|]. apply (keeps_bind R); [apply Hin|]. intros found. by apply (keeps_ret R).
Qed.
Lemma hand_over_step r : keeps R0 (hand_over run r).
Proof.
  apply get_request_keeps; [apply _|]. intros w q _. revert w.
  destruct (transport (r_p q)) as [[]|]; try apply (keeps_throw R0).
  apply (keeps_bind R0); [by apply page_minor|]. intros _. apply (keeps_ret R0).
Qed.
Lemma send_step r : keeps R0 (send undef convert run fuel r).
Proof.
  intros w. unfold send. pose proof (hand_over_step r w) as Hm. destruct (hand_over run r w) as [[[]|e] w1]; [exact Hm|].
  assert (Hc : keeps R0 (q ← get_request r; if state (r_p q) <? 2 then done r (-1) (Thrown e) None [] else throw e)).
  { apply get_request_keeps; [apply _|]. intros w2 q _. destruct (_ <? 2); [apply done_step|cbn; reflexivity]. }
  destruct e; try (etrans; [exact Hm|apply Hc]). exact Hm.
Qed.

(** A request that goes on. *)
Definition unfinished_at (r : nat) w : Prop := ∃ q, requests w !! r = Some q ∧ ¬ finished q.
Definition fresh (r : nat) w w' : Prop := unfinished_at r w → step none none w w'.
Definition stays (r : nat) w w' : Prop := unfinished_at r w → inv w → inv w' ∧ later none none w w' ∧ unfinished_at r w'.
Lemma stays_fresh r w w' : stays r w w' → fresh r w w'.
Proof. intros Hs Hu Hi. by destruct (Hs Hu Hi) as (? & ? & _). Qed.
Lemma fresh_seq r w1 w2 w3 : stays r w1 w2 → fresh r w2 w3 → fresh r w1 w3.
Proof.
  intros H1 H2 Hu Hi. destruct (H1 Hu Hi) as (Hi2 & L1 & Hu2). destruct (H2 Hu2 Hi2) as [Hi3 L2]. split; [done|].
  by eapply (active_later_trans none none none none none none); [..|exact L1|exact L2].
Qed.
#[local] Instance stays_preorder r : PreOrder (stays r).
Proof.
  split; [intros w Hu Hi; split_and!; [done|apply active_later_refl|done]|].
  intros w1 w2 w3 H1 H2 Hu Hi. destruct (H1 Hu Hi) as (Hi2 & L1 & Hu2). destruct (H2 Hu2 Hi2) as (Hi3 & L2 & Hu3). split_and!; [done| |done].
  by eapply (active_later_trans none none none none none none); [..|exact L1|exact L2].
Qed.
Lemma same_unfinished r w w' : same w w' → unfinished_at r w → unfinished_at r w'.
Proof.
  intros Hs (q & Hq & Hf). destruct (same_lookup _ _ _ _ Hs Hq) as (q' & Hq' & E). exists q'. split; [done|].
  intros Hf'. apply Hf. unfold core in E. unfold finished in *. congruence.
Qed.
Lemma same_stays r w w' : same w w' → stays r w w'.
Proof. intros Hs Hu Hi. destruct (same_step none none _ _ Hs Hi) as [? ?]. split_and!; [done|done|by eapply same_unfinished]. Qed.
Lemma stays_then {A B} r (m : M (world V) A) (k : A → M (world V) B) :
  keeps (stays r) m → (∀ a, keeps (fresh r) (k a)) → keeps (fresh r) (m ≫= k).
Proof. apply keeps_seq; [apply stays_fresh|apply fresh_seq]. Qed.
Lemma get_request_stays {B} r (k : request V → M (world V) B) :
  (∀ q, keeps (fresh r) (k q)) → keeps (fresh r) (q ← get_request r; k q).
Proof.
  intros Hk w. unfold get_request, mbind, M_bind, Prelude.get. cbn. destruct (requests w !! r) as [q|]; [apply Hk|].
  intros _. cbn. reflexivity.
Qed.
(** A change that leaves a request going on. *)
Lemma change_stays r f :
  (∀ q, ¬ finished q → fireGlobals (r_p (f q)) = fireGlobals (r_p q) ∧ ¬ finished (f q) ∧ memories (f q) = memories q) →
  keeps (stays r) (on_request r f).
Proof.
  intros Hf w (q & Hq & Hn) Hi. destruct (Hf q Hn) as (Hg & Hn' & Hm).
  destruct (change_step none none r f w) as [Hi' L]; [|done|].
  { intros q' Hq'. rewrite Hq in Hq'. injection Hq' as <-. split_and!; [done|intros ?; by destruct Hn|done]. }
  split_and!; [done|done|]. exists (f q). cbn. by rewrite list_lookup_alter_eq, Hq.
Qed.
Lemma same_keeps_stays {A} r (m : M (world V) A) : keeps (same (V := V)) m → keeps (stays r) m.
Proof. apply keeps_mono. intros w w'. apply same_stays. Qed.
Lemma add_fns_stays r k us : keeps (stays r) (add_fns run fuel r k us).
Proof.
  intros w Hu Hi. apply same_stays; [|done|done]. apply add_fns_same; [done|]. intros (q & Hq & Hf). destruct Hu as (q' & Hq' & Hn). congruence.
Qed.
Lemma step_fresh {A} r (m : M (world V) A) : keeps R0 m → keeps (fresh r) m.
Proof. intros Hm w _. apply Hm. Qed.
Lemma dispatch_fresh r : keeps (fresh r) (dispatch undef convert run fuel r).
Proof.
  unfold dispatch. apply stays_then.
  { apply same_keeps_stays, inspectPrefiltersOrTransports_keeps; [apply _|done|]. intros u. by apply page_sending. }
  intros [t|]; [|by apply step_fresh, done_step].
  apply stays_then; [by apply change_stays|]. intros _. apply stays_then; [by apply change_stays|]. intros _.
  apply get_request_stays. intros q. apply stays_then.
  { apply same_keeps_stays. destruct (fireGlobals (r_p q)); [|apply (keeps_ret same)]. unfold trigger.
    apply (keeps_bind same); [by apply page_sending|]. intros v. apply (keeps_ret same). }
  intros _. apply get_request_stays. intros q'. apply stays_then; [by apply change_stays|].
  intros _. apply step_fresh, send_step.
Qed.
Lemma install_stays r : keeps (stays r) (install run fuel r).
Proof.
  unfold install. apply (keeps_bind (stays r)); [by apply change_stays|]. intros _.
  apply get_request_keeps; [apply _|]. intros w q _. revert w. apply (keeps_bind (stays r)); [apply add_fns_stays|]. intros _.
  apply get_request_keeps; [apply _|]. intros w q' _. revert w. apply (keeps_bind (stays r)); [apply add_fns_stays|]. intros _.
  apply get_request_keeps; [apply _|]. intros w q'' _. apply add_fns_stays.
Qed.
Lemma set_headers_same r l : keeps (same (V := V)) (set_headers r l).
Proof.
  induction l as [|[n v] l IH]; [apply (keeps_ret same)|]. cbn [set_headers]. apply (keeps_bind same); [|by intros _].
  apply on_request_same. intros q. by destruct (_ =? 0).
Qed.
Lemma configure_same r : keeps (same (V := V)) (configure digits to_upper r).
Proof.
  apply (keeps_get same). intros w.
  assert (Hc : keeps (same (V := V)) (q ← get_request r;
    let '(s, url, n) := address digits to_upper (nonce w) (r_s q) in
    _ ← modify (with_nonce n);
    _ ← on_request r (λ q, with_s s (with_p (set_cacheURL url (r_p q)) q));
    _ ← set_headers r (own_headers w s url);
    mret s)); [|apply Hc].
  apply get_request_keeps; [apply _|]. intros w' q _. revert w'. destruct (address _ _ _ _) as [[s url] n].
  apply (keeps_bind same); [done|]. intros _. apply (keeps_bind same); [by apply on_request_same|]. intros _.
  apply (keeps_bind same); [apply set_headers_same|]. intros _. apply (keeps_ret same).
Qed.
(** [beforeSend] may finish the request, which is then given up. *)
Lemma before_send_spec r s w : inv w → unfinished_at r w →
  let res := before_send run r s w in
  inv res.2 ∧ later none none w res.2 ∧ (res.1 = Ok false → unfinished_at r res.2).
Proof.
  intros Hi Hu. unfold before_send. destruct (beforeSend (s_fixed s)) as [u|].
  2:{ split_and!; [done|apply active_later_refl|done]. }
  cbn zeta. unfold mbind, M_bind. destruct (page_minor (KBeforeSend u r) eq_refl w Hi) as [Hi1 L1].
  destruct (page (KBeforeSend u r) w) as [[v|e] w1]; cbn [fst snd] in *; [|by split_and!].
  unfold get_request, mbind, M_bind, Prelude.get. cbn beta iota. destruct (requests w1 !! r) as [q|] eqn:Hq; [|by split_and!].
  cbn [fst snd mret M_ret]. split_and!; [done|done|]. intros Hv. exists q. split; [done|]. intros Hf. unfold finished in Hf. rewrite Hf in Hv.
  by destruct v.
Qed.
Lemma given_up_fresh r s : keeps (fresh r)
  (stop ← before_send run r s;
   if (stop : bool) then abort undef convert run fuel r [] else _ ← install run fuel r; dispatch undef convert run fuel r).
Proof.
  intros w Hu Hi. destruct (before_send_spec r s w Hi Hu) as (Hi1 & L1 & Hu1). unfold mbind at 1 3, M_bind at 1 3.
  destruct (before_send run r s w) as [[stop|e] w1]; cbn [fst snd] in *; [|by split].
  assert (S2 : step none none w1 ((if stop then abort undef convert run fuel r [] else _ ← install run fuel r; dispatch undef convert run fuel r) w1).2).
  { destruct stop; [apply abort_step|]. assert (Hf : keeps (fresh r) (_ ← install run fuel r; dispatch undef convert run fuel r)).
    { apply stays_then; [apply install_stays|intros _; apply dispatch_fresh]. }
    apply Hf. by apply Hu1. }
  destruct (S2 Hi1) as [Hi2 L2]. split; [done|].
  by eapply (active_later_trans none none none none none none); [..|exact L1|exact L2].
Qed.
Lemma announce_spec r w q :
  inv w → requests w !! r = Some q → ¬ finished q → fireGlobals (r_p q) = false →
  inv (announce run r w).2 ∧ later (only r) (only r) w (announce run r w).2 ∧ unfinished_at r (announce run r w).2.
Proof.
  intros Hi Hq Hn Hg.
  assert (Eq : (announce run r w).2 =
    if global (s_fixed (r_s q)) then
      if (active w =? 0)%Z then (run (KEvent AjaxStart None) (entered_world r w)).2 else entered_world r w
    else with_requests (alter (λ q, with_p (set_fireGlobals false (r_p q)) q) r (requests w)) w).
  { unfold announce, get_request, mbind, M_bind, Prelude.get. cbn beta iota. rewrite Hq. cbn [mret M_ret].
    unfold on_progress, on_request, modify, entered_world. cbn beta iota. destruct (global (s_fixed (r_s q))); [|done].
    unfold enter, mbind, M_bind, Prelude.get, put. cbn beta iota. cbn [active with_requests].
    destruct (active w =? 0)%Z; [|done]. rewrite trigger_eq. by destruct (run _ _) as [[]]. }
  rewrite Eq. clear Eq. destruct (global _).
  - destruct (entered_spec w r q Hi Hq Hn Hg) as [Hi1 L1].
    assert (Hu1 : unfinished_at r (entered_world r w)).
    { exists (with_p (set_fireGlobals true (r_p q)) q). split; [|done]. unfold entered_world.
      destruct (active w =? 0)%Z; cbn; by rewrite list_lookup_alter_eq, Hq. }
    destruct (active w =? 0)%Z; [|done]. pose proof (run_same (KEvent AjaxStart None) eq_refl (entered_world r w)) as Hs.
    destruct (same_step none none _ _ Hs Hi1) as [Hi2 L2]. split_and!; [done| |by eapply same_unfinished].
    by eapply (active_later_trans (only r) (only r) (only r) (only r) none none); [..|exact L1|exact L2].
  - assert (Hs : same w (with_requests (alter (λ q, with_p (set_fireGlobals false (r_p q)) q) r (requests w)) w)).
    { apply lookup_alter_same. intros q' Hq'. rewrite Hq in Hq'. injection Hq' as <-. unfold core. cbn. by rewrite Hg. }
    destruct (same_step (only r) (only r) _ _ Hs Hi) as [Hi2 L2]. split_and!; [done|done|]. eapply same_unfinished; [exact Hs|]. by exists q.
Qed.
Lemma make_spec r w q :
  inv w → requests w !! r = Some q → ¬ finished q → fireGlobals (r_p q) = false →
  inv (make undef convert digits to_upper run fuel r w).2 ∧
  later (only r) (only r) w (make undef convert digits to_upper run fuel r w).2.
Proof.
  intros Hi Hq Hn Hg. destruct (announce_spec r w q Hi Hq Hn Hg) as (Hi1 & L1 & Hu1).
  unfold make. destruct (announce run r w) as [[[]|e] w1] eqn:E; cbn [fst snd] in *; [|by rewrite (bind_throw _ _ _ _ _ E)].
  rewrite (bind_ok _ _ _ _ _ E).
  assert (Hf : keeps (fresh r) (s ← configure digits to_upper r; stop ← before_send run r s;
    if (stop : bool) then abort undef convert run fuel r [] else _ ← install run fuel r; dispatch undef convert run fuel r)).
  { apply stays_then; [apply same_keeps_stays, configure_same|]. intros s. apply given_up_fresh. }
  destruct (Hf w1 Hu1 Hi1) as [Hi2 L2]. split; [done|].
  by eapply (active_later_trans (only r) (only r) (only r) (only r) none none); [..|exact L1|exact L2].
Qed.
(** A new request. *)
Lemma created_spec s w :
  inv w → let w1 := with_requests (requests w ++ [new_request s]) w in inv w1 ∧ later none none w w1.
Proof.
  intros [H1 H2 H3 H4 H5] w1.
  assert (Hlook : ∀ i q, requests w1 !! i = Some q → requests w !! i = Some q ∨ (i = length (requests w) ∧ q = new_request s)).
  { intros i q [Hq|[Hi Hq]]%lookup_app_Some; [by left|right]. apply list_lookup_singleton_Some in Hq as [? <-]. split; [lia|done]. }
  assert (Ho : open_count w1 = open_count w).
  { unfold open_count, w1 at 2. cbn [requests with_requests]. rewrite length_app, Nat.add_1_r. cbn [sum].
    rewrite (sum_ext (open_at w1) (open_at w)).
    - unfold open_at at 1. cbn [requests with_requests w1]. by rewrite lookup_app_r, Nat.sub_diag by lia.
    - intros i Hi. unfold open_at. cbn [requests with_requests w1]. by rewrite lookup_app_l by lia. }
  split; [split|split].
  - unfold slack in *. by rewrite Ho.
  - exact H2.
  - intros r Hr. apply H3. intros q Hq. apply Hr. cbn. by apply lookup_app_l_Some.
  - intros r q [Hq|[_ ->]]%Hlook Hf; [by eapply H4|done].
  - exact H5.
  - intros r q Hq. exists q. cbn. split; [by apply lookup_app_l_Some|done].
  - unfold slack. rewrite Ho. done.
Qed.
Lemma later_absent r w w' : requests w !! r = None → later (only r) (only r) w w' → later none none w w'.
Proof.
  intros Hr [L S]. split; [|done]. intros i q Hq. assert (Hne : i ≠ r) by congruence.
  destruct (L i q Hq) as (q' & Hq' & Hg & Hk). exists q'. split; [done|]. split; intros _; [by apply Hg|by apply Hk].
Qed.
Lemma ajax_step url method s : keeps R0 (ajax undef convert ajaxLocation digits to_upper run fuel url method s).
Proof.
  unfold ajax. destruct (prepare ajaxLocation url method s) as [s'|e]; [|apply (keeps_throw R0)].
  intros w Hi. destruct (created_spec s' w Hi) as [Hi1 L1]. cbn zeta in Hi1, L1. set (r := length (requests w)).
  set (w1 := with_requests (requests w ++ [new_request s']) w) in *.
  assert (Hpre : keeps R0 (inspectPrefiltersOrTransports run fuel false r)).
  { apply inspectPrefiltersOrTransports_keeps; [apply _|intros; by apply same_step|]. intros u. by apply page_minor. }
  destruct (Hpre w1 Hi1) as [Hi2 L2].
  assert (Hnew : requests w1 !! r = Some (new_request s')) by (cbn; by rewrite lookup_app_r, Nat.sub_diag by done).
  destruct (later_requests _ _ _ _ L2 r _ Hnew) as (q & Hq & Hg & _).
  assert (L12 : later none none w (inspectPrefiltersOrTransports run fuel false r w1).2)
    by (by eapply (active_later_trans none none none none none none); [..|exact L1|exact L2]).
  set (rest := (q ← get_request r;
    if state (r_p q) =? 2 then mret r else _ ← make undef convert digits to_upper run fuel r; mret r) : M (world V) nat).
  assert (Hrest : ∀ w', w' = (inspectPrefiltersOrTransports run fuel false r w1).2 → inv (rest w').2 ∧ later none none w (rest w').2).
  { intros w' ->. unfold rest, get_request. rewrite bind_assoc. unfold mbind at 1 4, M_bind at 1 4, Prelude.get at 1 2.
    cbn beta iota. rewrite Hq. unfold mbind at 1 3, M_bind at 1 3. cbn [mret M_ret].
    destruct (Nat.eqb_spec (state (r_p q)) 2) as [Hf|Hf]; [done|].
    destruct (make_spec r _ q Hi2 Hq Hf (Hg id)) as [Hi3 L3].
    assert (L : later none none w (make undef convert digits to_upper run fuel r (inspectPrefiltersOrTransports run fuel false r w1).2).2).
    { apply (later_absent r); [by apply lookup_ge_None|].
      by eapply (active_later_trans (only r) (only r) none none (only r) (only r)); [..|exact L12|exact L3]. }
    unfold mbind, M_bind. destruct (make _ _ _ _ _ _ _ _) as [[]]; done. }
  change (inv ((inspectPrefiltersOrTransports run fuel false r ≫= λ _, rest) w1).2 ∧
    later none none w ((inspectPrefiltersOrTransports run fuel false r ≫= λ _, rest) w1).2).
  specialize (Hrest _ eq_refl).
  destruct (inspectPrefiltersOrTransports run fuel false r w1) as [[v|e] w2] eqn:E; [|by rewrite (bind_throw _ _ _ _ _ E)].
  by rewrite (bind_ok _ _ _ _ _ E).
Qed.

(** *** Programs *)

Lemma exec_step c : keeps R0 (exec undef convert ajaxLocation digits to_upper run fuel c).
Proof.
  assert (Hret : ∀ A (m : M (world V) A) v, keeps R0 m → keeps R0 (_ ← m; mret (v : reply)))
    by (intros A m v Hm; apply (keeps_bind R0); [done|intros _; apply (keeps_ret R0)]).
  assert (Hreq : ∀ r A (m : M (world V) A), keeps R0 m → keeps R0 (_ ← get_request r; m))
    by (intros r A m Hm; apply get_request_keeps; [apply _|]; intros; apply Hm).
  assert (Hsame : ∀ A (m : M (world V) A), keeps same m → keeps R0 m) by (intros A m; apply keeps_mono; intros w w'; apply same_step).
  destruct c; cbn [exec].
  - apply (keeps_bind R0); [apply ajax_step|intros r; apply (keeps_ret R0)].
  - apply Hret, abort_step.
  - apply Hret, Hsame, on_request_same. intros q. by destruct (_ =? 0).
  - apply get_request_keeps; [apply _|]. intros. apply (keeps_ret R0).
  - apply get_request_keeps; [apply _|]. intros. apply (keeps_ret R0).
  - apply Hret, Hsame, on_request_same. intros q. by destruct (_ =? 0).
  - apply Hret, statusCode_step.
  - apply Hreq, Hret, add_fns_step.
  - apply Hreq, Hret, always_step.
  - apply Hret, Hsame. by apply on_request_same.
  - apply Hret, done_step.
  - apply get_request_keeps; [apply _|]. intros w q _. destruct (timer (r_p q)); [|reflexivity]. revert w.
    apply (keeps_bind R0); [by apply Hsame, on_request_same|]. intros _. apply Hret, abort_step.
  - by apply Hret, Hsame.
Qed.
Lemma run_prog_step p : keeps R0 (run_prog undef convert ajaxLocation digits to_upper run fuel p).
Proof.
  induction p as [v|e|c k IH]; cbn [run_prog]; [apply (keeps_ret R0)|apply (keeps_throw R0)|].
  apply (keeps_bind R0); [apply exec_step|done].
Qed.
(** Programs that do nothing with requests but read and write headers and the MIME type,
    and beside this only read and change settings and register prefilters and transports. *)
Definition quiet_cmd (c : cmd V) : bool :=
  match c with
  | CSetHeader _ _ _ | CGetHeader _ _ | CGetAllHeaders _ | COverrideMimeType _ _ | CSettings _ _ | CRegister _ _ _ => true
  | _ => false
  end.
Inductive quiet : prog V → Prop :=
  | quiet_ret v : quiet (Ret v)
  | quiet_raise e : quiet (Raise e)
  | quiet_do c k : quiet_cmd c = true → (∀ v, quiet (k v)) → quiet (Do c k).
Lemma run_prog_same p : quiet p → keeps same (run_prog undef convert ajaxLocation digits to_upper run fuel p).
Proof.
  induction 1 as [v|e|c k Hc _ IH]; cbn [run_prog]; [apply (keeps_ret same)|apply (keeps_throw same)|].
  apply (keeps_bind same); [|done]. clear k IH.
  assert (Hret : ∀ A (m : M (world V) A) v, keeps same m → keeps same (_ ← m; mret (v : reply)))
    by (intros A m v Hm; apply (keeps_bind same); [done|intros _; apply (keeps_ret same)]).
  destruct c; try done; cbn [exec].
  - apply Hret, on_request_same. intros q. by destruct (_ =? 0).
  - apply get_request_keeps; [apply _|]. intros. apply (keeps_ret same).
  - apply get_request_keeps; [apply _|]. intros. apply (keeps_ret same).
  - apply Hret, on_request_same. intros q. by destruct (_ =? 0).
  - by apply Hret, on_request_same.
Qed.
End operations.

(** ** The page as it runs *)

Section pages.
Context `{UnicodeCase} {V : Type}.
Variable undef : V.
Variable convert : nat → V → V + nat.
Variable ajaxLocation : jsstr.
Variable digits : Z → jsstr.
Variable to_upper : jsstr → jsstr.
(** The functions of the page.  What runs while a request is announced and handed to its
    transport leaves the requests alone. *)
Variable body : call V → list (call V) → prog V.
Hypothesis body_quiet : ∀ c l, sending c = true → quiet (body c l).
Local Abbreviation turn := (turn undef convert ajaxLocation digits to_upper body).

Lemma run_keeps fuel c :
  keeps (step none none) (run undef convert ajaxLocation digits to_upper body fuel c) ∧
  (sending c = true → keeps same (run undef convert ajaxLocation digits to_upper body fuel c)).
Proof.
  revert c. induction fuel as [|k IH]; intros c; cbn [run].
  { split; [apply (keeps_throw (step none none))|intros _; apply (keeps_throw same)]. }
  split; [|intros Hc].
  - apply (keeps_get (step none none)). intros w. apply run_prog_step; intros c'; apply IH.
  - apply (keeps_get same). intros w. apply run_prog_same. by apply body_quiet.
Qed.
Lemma turn_step fuel p : keeps (step none none) (turn fuel p).
Proof. apply run_prog_step; intros c; apply run_keeps. Qed.

(** The worlds that turns of the event loop lead to, however they end. *)
Inductive reachable : world V → Prop :=
  | reach_start m e n p t : reachable (World 0 m e n p t [] [])
  | reach_turn fuel p w : reachable w → reachable (turn fuel p w).2.
Lemma requests_inv w : reachable w → inv w.
Proof.
  induction 1 as [m e n p t|fuel p w _ IH]; [|by apply turn_step].
  split; [done|intros r; cbn; lia|done|done|done].
Qed.

(** C16: Whatever scripts, transports, timeouts, callbacks and handlers of events do, and
    however they end: the completion of a request is announced at most once; ajaxStart and
    ajaxStop alternate, and the last of them is ajaxStart exactly when [jQuery.active] is
    not 0; and [jQuery.active] is at least the number of requests that count and were not
    announced as complete.  It is assumed of the functions that run while a request is
    announced and handed to its transport, handlers of ajaxStart and ajaxSend and the
    factories of transports, that they do nothing with requests but read and write
    headers and the overriding MIME type, that beside this they only read and change
    settings and register prefilters and transports, and that they may throw: they
    neither add callbacks to a request nor start, abort or finish one. *)
Theorem requests_counted w : reachable w →
  (∀ r, completions r (log w) ≤ 1) ∧ phase (log w) = Some (negb (active w =? 0)%Z) ∧
  (0 ≤ open_count w ≤ active w)%Z.
Proof.
  intros Hr. apply requests_inv in Hr as [H1 H2 _ _ H5]. pose proof (open_count_nonneg w). unfold slack in H1.
  split_and!; [done|done|done|lia].
Qed.
(** C17: When handlers of ajaxStart and ajaxSend and the factories of transports do nothing
    with requests but read and write headers and the overriding MIME type, and beside this
    only read and change settings, register prefilters and transports, or throw (they
    neither add callbacks to a request nor start, abort or finish one), then a request that
    is finished stays as it is, whatever the rest of the page does: no later turn changes the [readyState], [status], [statusText] or response fields of its [jqXHR],
    or announces it again. *)
Theorem finished_for_ever fuel p w r q : reachable w →
  requests w !! r = Some q → finished q →
  ∃ q', requests (turn fuel p w).2 !! r = Some q' ∧ finished q' ∧ r_x q' = r_x q ∧
    completions r (log (turn fuel p w).2) = completions r (log w).
Proof.
  intros Hw Hq Hf. destruct (turn_step fuel p w (requests_inv w Hw)) as [_ [L _]].
  destruct (L r q Hq) as (q' & Hq' & _ & Hk). exists q'. split; [done|]. exact (Hk id Hf).
Qed.
End pages.

(** ** Examples *)

Definition answered : world nat := (sample_turn transport_body sample_answer (sample_turn transport_body sample_get world0).2).2.
Lemma transport_body_quiet c l : sending c = true → quiet (transport_body c l).
Proof. destruct c as [| | | | | |[]]; try done; intros _; apply quiet_ret. Qed.
Lemma answered_reachable :
  reachable 0 (λ _ v, inl v) (js "http://h/") (λ _, js "7") (fmap ascii_upper_unit) transport_body answered (H := ascii_case).
Proof. unfold answered, sample_turn. apply reach_turn. apply reach_turn. unfold world0. apply reach_start. Qed.
Lemma requests_counted_witness :
  completions 0 (log answered) = 1 ∧ active answered = 0%Z ∧ phase (log answered) = Some false ∧
  (∀ r, completions r (log answered) ≤ 1).
Proof.
  split_and!; [by vm_compute..|].
  apply (@requests_counted ascii_case nat 0 (λ _ v, inl v) (js "http://h/") (λ _, js "7") (fmap ascii_upper_unit) transport_body
    transport_body_quiet answered answered_reachable).
Defined.
(** A request that no transport takes; it is finished at once, and answered later. *)
Definition untaken : world nat := (sample_turn transport_body sample_get (World 0 [] [] 7 [] [] [] [])).2.
Definition untaken_request : option (request nat) := Eval vm_compute in requests untaken !! 0.
Lemma untaken_reachable :
  reachable 0 (λ _ v, inl v) (js "http://h/") (λ _, js "7") (fmap ascii_upper_unit) transport_body untaken (H := ascii_case).
Proof. unfold untaken, sample_turn. apply reach_turn. apply reach_start. Qed.
Lemma finished_for_ever_witness :
  match untaken_request with
  | Some q => ∃ q', requests (sample_turn transport_body sample_answer untaken).2 !! 0 = Some q' ∧ finished q' ∧ r_x q' = r_x q ∧
      completions 0 (log (sample_turn transport_body sample_answer untaken).2) = completions 0 (log untaken)
  | None => False
  end.
Proof.
  unfold untaken_request.
  apply (@finished_for_ever ascii_case nat 0 (λ _ v, inl v) (js "http://h/") (λ _, js "7") (fmap ascii_upper_unit) transport_body
    transport_body_quiet 30 sample_answer untaken 0).
  - exact untaken_reachable.
  - by vm_compute.
  - by vm_compute.
Defined.
Example untaken_state : completions 0 (log untaken) = 1 ∧ status <$> (r_x <$> untaken_request) = Some (Some 0%Z).
Proof. by vm_compute. Qed.

(** A handler of ajaxSend that aborts the request: it is finished twice, and the counter is
    negative, so that no later request is announced by ajaxStart. *)
Definition aborting_body (c : call nat) (l : list (call nat)) : prog nat :=
  match c with
  | KFactory _ _ => Ret (RTransport 5)
  | KEvent AjaxSend (Some r) => Do (CAbort r []) Ret
  | _ => Ret RUndefined
  end.
Example abort_in_ajaxSend :
  let w := (sample_turn aborting_body sample_get world0).2 in
  active w = (-1)%Z ∧ completions 0 (log w) = 2 ∧
  active (sample_turn transport_body sample_get w).2 = 0%Z ∧
  length (base.filter (λ c, match c with KEvent AjaxStart _ => true | _ => false end = true)
    (log (sample_turn transport_body sample_get w).2)) = 1.
Proof. by vm_compute. Qed.
(** A callback that throws keeps the request from being completed: the counter stays, and
    there is no ajaxStop. *)
Definition throwing_body (c : call nat) (l : list (call nat)) : prog nat :=
  match c with KFactory _ _ => Ret (RTransport 5) | KCallback 10 _ _ => Raise 3 | _ => Ret RUndefined end.
Example throwing_callback :
  let r := sample_turn throwing_body sample_answer (sample_turn throwing_body sample_get world0).2 in
  r.1 = Throw (UserError 3) ∧ active r.2 = 1%Z ∧ completions 0 (log r.2) = 0 ∧ phase (log r.2) = Some true.
Proof. by vm_compute. Qed.

End Active.
