(* ===== verification/JqData.v ===== *)
(** * Data of elements in jquery.js

    [jQuery.data], [jQuery._data], [jQuery.removeData] and [jQuery._removeData] keep
    objects for the nodes of a page in a cache that is shared by all of them, under
    numbers that are reused, and objects for plain objects in a property of theirs.
    Every node and object has a public object, under [data], and a private one. *)

From stdpp Require Import base tactics list strings numbers sets gmap.
From Stdlib Require Import NArith ZArith Lia.
From S2P Require Import Prelude.
From S2P Require Import JsString.
From S2P Require Import JsArray.
From S2P Require Import Regex.
From S2P Require Import JqCore.

Module Data.

(** ** Definitions *)

Section data.
Context `{UnicodeCase} {V : Type}.
(** Whether a value is [null]; [undefined] is never stored. *)
Variable is_null : V → bool.
(** The properties that every object inherits from [Object.prototype]. *)
Variable inherited : jsstr → option V.

(** An object of the page: its identity and the properties that [acceptData] reads. *)
Record elem := Elem {
  self : nat;
  nodeType : N;                    (* 0 when it is missing: a plain object *)
  nodeName : jsstr;                (* "undefined" when it is missing *)
  classid : option jsstr;          (* the attribute *)
}.
(** The classes of [noData]: [None] for [true]. *)
Definition noData : list (jsstr * option jsstr) :=
  [(js "applet ", None); (js "embed ", None);
   (js "object ", Some (js "clsid:D27CDB6E-AE6D-11cf-96B8-444553540000"))].
Definition acceptData (e : elem) : bool :=
  let ty := if (nodeType e =? 0)%N then 1%N else nodeType e in
  if negb (ty =? 1)%N && negb (ty =? 9)%N then false
  else match obj_get (to_lower (nodeName e ++ js " ")) noData with
    | None => true
    | Some None => false
    | Some (Some c) => bool_decide (classid e = Some c)
    end.

(** What the cache keeps for an element: the properties of its private object, without two
    that the library reserves: [data], which holds the public object and is kept apart here,
    and the [toJSON] of plain objects, which is left out.  Private calls that use these two
    names are not modelled ([reserved]), and a private object is answered without them. *)
Record entry := Entry { private : list (jsstr * V); public : option (list (jsstr * V)) }.
(** [expando] is the property of nodes that holds their number, [object_cache] that of
    plain objects; the last number of [deletedIds] comes first. *)
Record store := Store {
  expando : gmap nat nat;
  cache : gmap nat entry;
  object_cache : gmap nat entry;
  deletedIds : list nat;
  guid : nat;
}.
Definition is_node (e : elem) : bool := negb (nodeType e =? 0)%N.
(** [cache[id]]. *)
Definition lookup_entry (e : elem) (d : store) : option entry :=
  if is_node e then id ← expando d !! self e; cache d !! id else object_cache d !! self e.
Definition set_entry (e : elem) (en : entry) (d : store) : store :=
  if is_node e then
    match expando d !! self e with
    | Some id => Store (expando d) (<[id := en]> (cache d)) (object_cache d) (deletedIds d) (guid d)
    | None => d
    end
  else Store (expando d) (cache d) (<[self e := en]> (object_cache d)) (deletedIds d) (guid d).
(** [id = elem[internalKey] = deletedIds.pop() || jQuery.guid++]. *)
Definition new_id (e : elem) (d : store) : store :=
  match deletedIds d with
  | id :: ids => Store (<[self e := id]> (expando d)) (cache d) (object_cache d) ids (guid d)
  | [] => Store (<[self e := guid d]> (expando d)) (cache d) (object_cache d) [] (S (guid d))
  end.
Definition ensure (e : elem) (d : store) : store :=
  let d := if is_node e then match expando d !! self e with Some _ => d | None => new_id e d end else d in
  match lookup_entry e d with Some _ => d | None => set_entry e (Entry [] None) d end.

(** The object that a call is about. *)
Definition pick (pvt : bool) (en : entry) : list (jsstr * V) :=
  if pvt then private en else default [] (public en).
Definition with_object (pvt : bool) (o : list (jsstr * V)) (en : entry) : entry :=
  if pvt then Entry o (public en) else Entry (private en) (Some o).
Definition get_property (name : jsstr) (o : list (jsstr * V)) : option V :=
  match obj_get name o with Some v => Some v | None => inherited name end.
(** First the name as it is, and then the camel cased name. *)
Definition read (name : jsstr) (o : list (jsstr * V)) : option V :=
  match get_property name o with
  | Some v => if is_null v then get_property (Core.camelCase name) o else Some v
  | None => get_property (Core.camelCase name) o
  end.
(** [jQuery.extend(o, props)]; properties that are [undefined] are skipped. *)
Definition extend_with (props : list (jsstr * option V)) (o : list (jsstr * V)) : list (jsstr * V) :=
  foldl (λ o p, match p.2 with Some v => obj_set p.1 v o | None => o end) o props.

(** The arguments [name] and [data], and what is returned. *)
Inductive request :=
  | Named (name : jsstr) (data : option V)
  | All
  | Props (props : list (jsstr * option V)).
Inductive answer := Value (v : option V) | Whole (o : list (jsstr * V)).
Definition early (r : request) (pvt : bool) (en : option entry) : bool :=
  match r with
  | Named _ None =>
      match en with
      | None => true
      | Some en => negb pvt && bool_decide (public en = None)
      end
  | _ => false
  end.
Definition internalData (e : elem) (r : request) (pvt : bool) (d : store) : answer * store :=
  if negb (acceptData e) || early r pvt (lookup_entry e d) then (Value None, d)
  else
    let d := ensure e d in
    match lookup_entry e d with
    | None => (Value None, d)
    | Some en =>
        let o := pick pvt en in
        let o := match r with Props ps => extend_with ps o | _ => o end in
        let o := match r with Named n (Some v) => obj_set (Core.camelCase n) v o | _ => o end in
        (match r with Named n _ => Value (read n o) | _ => Whole o end,
         set_entry e (with_object pvt o en) d)
    end.

(** The name given to [removeData]: missing or empty, a string, or an array. *)
Inductive names := NoName | Name (name : jsstr) | Names (l : list jsstr).
Definition has_name (ns : names) : bool :=
  match ns with NoName => false | Name k => negb (bool_decide (k = [])) | Names _ => true end.
Definition has_property (k : jsstr) (o : list (jsstr * V)) : bool :=
  match get_property k o with Some _ => true | None => false end.
Definition removed_keys (ns : names) (o : list (jsstr * V)) : list jsstr :=
  match ns with
  | NoName => []
  | Name k =>
      if has_property k o then [k]
      else let k := Core.camelCase k in if has_property k o then [k] else split_unit 32 k
  | Names l => l ++ (Core.camelCase <$> l)
  end.
Definition delete_keys (ks : list jsstr) (o : list (jsstr * V)) : list (jsstr * V) :=
  foldl (λ o k, obj_delete k o) o (reverse ks).
(** The loop skips [toJSON], and [data] when it is empty. *)
Definition isEmptyDataObject (en : entry) : bool :=
  match private en, public en with
  | [], None | [], Some [] => true
  | _, _ => false
  end.
(** The cache entry goes; a node gives its number back. *)
Definition destroy (e : elem) (d : store) : store :=
  if is_node e then
    match expando d !! self e with
    | Some id =>
        Store (delete (self e) (expando d)) (delete id (cache d)) (object_cache d) (id :: deletedIds d) (guid d)
    | None => d
    end
  else Store (expando d) (cache d) (delete (self e) (object_cache d)) (deletedIds d) (guid d).
(** The end of [internalRemoveData]. *)
Definition drop_data (e : elem) (pvt : bool) (en : entry) (d : store) : store :=
  if pvt then destroy e d
  else
    let en := Entry (private en) None in
    if isEmptyDataObject en then destroy e d else set_entry e en d.
Definition internalRemoveData (e : elem) (ns : names) (pvt : bool) (d : store) : store :=
  if negb (acceptData e) then d
  else
    match lookup_entry e d with
    | None => d
    | Some en =>
        if has_name ns && (pvt || bool_decide (is_Some (public en))) then
          let o := delete_keys (removed_keys ns (pick pvt en)) (pick pvt en) in
          let en := with_object pvt o en in
          if (if pvt then negb (isEmptyDataObject en) else negb (bool_decide (o = []))) then set_entry e en d
          else drop_data e pvt en d
        else drop_data e pvt en d
    end.
Definition hasData (e : elem) (d : store) : bool :=
  match lookup_entry e d with Some en => negb (isEmptyDataObject en) | None => false end.
End data.
Arguments entry : clear implicits.
Arguments store : clear implicits.
Arguments request : clear implicits.
Arguments answer : clear implicits.

(** ** The invariant of the cache *)

Section facts.
Context `{UnicodeCase} {V : Type}.
Implicit Types (d : store V) (e : elem).

(** Numbers belong to one node, that has an entry; entries belong to nodes; the numbers
    that were given back are not in use. *)
Record data_inv d : Prop := {
  ids_inj : ∀ n m id, expando d !! n = Some id → expando d !! m = Some id → n = m;
  ids_live : ∀ n id, expando d !! n = Some id → 0 < id < guid d ∧ id ∉ deletedIds d;
  ids_cached : ∀ n id, expando d !! n = Some id → is_Some (cache d !! id);
  cache_owned : ∀ id, is_Some (cache d !! id) → ∃ n, expando d !! n = Some id;
  free_distinct : NoDup (deletedIds d);
  free_old : ∀ id, id ∈ deletedIds d → 0 < id < guid d;
  guid_pos : 0 < guid d;
}.
Definition same e e' : Prop := is_node e = is_node e' ∧ self e = self e'.
#[export] Instance same_dec e e' : Decision (same e e').
Proof. unfold same. apply _. Defined.

(** A fresh page. *)
Definition no_data : store V := Store ∅ ∅ ∅ [] 1.
Lemma no_data_inv : data_inv no_data.
Proof.
  split; cbn.
  - intros *. by rewrite lookup_empty.
  - intros *. by rewrite lookup_empty.
  - intros *. by rewrite lookup_empty.
  - intros id. rewrite lookup_empty. by intros [].
  - by apply NoDup_nil.
  - intros id Hid. by apply elem_of_nil in Hid.
  - lia.
Qed.

Lemma lookup_entry_same e e' d : same e e' → lookup_entry e' d = lookup_entry e d.
Proof. unfold lookup_entry. by intros [-> ->]. Qed.

Lemma set_entry_node e en d id :
  is_node e = true → expando d !! self e = Some id →
  set_entry e en d = Store (expando d) (<[id := en]> (cache d)) (object_cache d) (deletedIds d) (guid d).
Proof. intros Hn Hid. unfold set_entry. by rewrite Hn, Hid. Qed.

Lemma set_entry_lookup e e' en d :
  data_inv d → is_Some (lookup_entry e d) →
  lookup_entry e' (set_entry e en d) = if decide (same e e') then Some en else lookup_entry e' d.
Proof.
  intros Hd [x Hx]. destruct (decide (same e e')) as [Hs|Hs].
  - rewrite (lookup_entry_same e) by done. unfold lookup_entry, set_entry in *. destruct (is_node e).
    + destruct (expando d !! self e) as [id|] eqn:Eid; [|done]. cbn. rewrite Eid. cbn. apply lookup_insert_eq.
    + apply lookup_insert_eq.
  - unfold lookup_entry, set_entry in *. destruct (is_node e) eqn:En, (is_node e') eqn:En'; [| |done|].
    + destruct (expando d !! self e) as [id|] eqn:Eid; [|done]. cbn.
      destruct (expando d !! self e') as [id'|] eqn:Eid'; [|done]. cbn.
      apply lookup_insert_ne. intros ->. apply Hs. split; [congruence|]. by eapply ids_inj.
    + by destruct (expando d !! self e).
    + apply lookup_insert_ne. intros Heq. apply Hs. split; congruence.
Qed.

Lemma set_entry_inv e en d : data_inv d → is_Some (lookup_entry e d) → data_inv (set_entry e en d).
Proof.
  intros Hd [x Hx]. unfold lookup_entry in Hx. unfold set_entry. destruct (is_node e); [|by destruct Hd; constructor].
  destruct (expando d !! self e) as [id|] eqn:Eid; [|done]. destruct Hd as [H1 H2 H3 H4 H5 H6 H7].
  constructor; cbn; [done|done| | |done..].
  - intros n i Hi. destruct (decide (i = id)) as [->|Hne]; [by rewrite lookup_insert_eq|].
    rewrite lookup_insert_ne by done. by eapply H3.
  - intros i Hi. destruct (decide (i = id)) as [->|Hne]; [by exists (self e)|].
    rewrite lookup_insert_ne in Hi by done. by apply H4.
Qed.

(** A number that is handed out is fresh. *)
Definition next_id d : nat := match deletedIds d with id :: _ => id | [] => guid d end.
Lemma next_id_fresh d : data_inv d → cache d !! next_id d = None ∧ ∀ n, expando d !! n ≠ Some (next_id d).
Proof.
  intros [H1 H2 H3 H4 H5 H6 H7].
  assert (Hf : ∀ n, expando d !! n ≠ Some (next_id d)).
  { intros n Hn. apply H2 in Hn as [Hg Hdel]. unfold next_id in *.
    destruct (deletedIds d); [lia|]. apply Hdel. by left. }
  split; [|done]. apply eq_None_not_Some. intros Hc. destruct (H4 _ Hc) as [n Hn]. by apply (Hf n).
Qed.

(** A node takes a fresh number and gets an entry. *)
Lemma fresh_node_inv n en d ids g' :
  data_inv d → expando d !! n = None → ids ⊆ deletedIds d → NoDup ids → next_id d ∉ ids →
  guid d ≤ g' → next_id d < g' →
  data_inv (Store (<[n := next_id d]> (expando d)) (<[next_id d := en]> (cache d)) (object_cache d) ids g').
Proof.
  intros Hd Hn Hids Hnd Hni Hg Hi. destruct (next_id_fresh d Hd) as [Hc Hf].
  assert (Hpos : 0 < next_id d).
  { unfold next_id. pose proof (guid_pos _ Hd). destruct (deletedIds d) as [|id l] eqn:Ed; [done|].
    apply (free_old _ Hd). rewrite Ed. by left. }
  split; cbn.
  - intros a b id Ha Hb. rewrite lookup_insert_Some in Ha, Hb.
    destruct Ha as [[<- <-]|[_ Ha]], Hb as [[<- Hb]|[_ Hb]]; [done| | |].
    + by destruct (Hf b).
    + subst id. by destruct (Hf a).
    + by eapply ids_inj.
  - intros a id Ha. rewrite lookup_insert_Some in Ha. destruct Ha as [[<- <-]|[_ Ha]]; [done|].
    apply ids_live in Ha as [Hlt Hdel]; [|done]. split; [lia|set_solver].
  - intros a id Ha. rewrite lookup_insert_Some in Ha. apply lookup_insert_is_Some'.
    destruct Ha as [[_ Ha]|[_ Ha]]; [by left|right]. by eapply ids_cached.
  - intros id [Hid|Hid]%lookup_insert_is_Some'; [exists n; subst; apply lookup_insert_eq|].
    destruct (cache_owned _ Hd _ Hid) as [m Hm]. exists m. rewrite lookup_insert_ne; [done|]. congruence.
  - done.
  - intros id Hid. destruct (free_old _ Hd id); [by apply Hids|]. lia.
  - lia.
Qed.

Lemma ensure_spec e d :
  data_inv d →
  data_inv (ensure e d) ∧
  (lookup_entry e (ensure e d) = Some (default (Entry [] None) (lookup_entry e d))) ∧
  ∀ e', ¬ same e e' → lookup_entry e' (ensure e d) = lookup_entry e' d.
Proof.
  intros Hd. destruct (lookup_entry e d) as [en|] eqn:El.
  { assert (Hen : ensure e d = d); [|by rewrite Hen, El]. unfold ensure, lookup_entry in *.
    destruct (is_node e); [|by rewrite El]. destruct (expando d !! self e) as [id|] eqn:Eid; [|done].
    cbn in El. rewrite Eid. cbn. by rewrite El. }
  cbn [from_option id]. unfold ensure. destruct (is_node e) eqn:En.
  2:{ rewrite El. unfold lookup_entry, set_entry in *. rewrite En in *. cbn. split_and!.
      - destruct Hd. by constructor.
      - apply lookup_insert_eq.
      - intros e' Hs. destruct (is_node e') eqn:En'; [done|]. apply lookup_insert_ne.
        intros Heq. apply Hs. split; congruence. }
  destruct (expando d !! self e) as [id|] eqn:Eid.
  { unfold lookup_entry in El. rewrite En, Eid in El. cbn in El.
    destruct (ids_cached _ Hd _ _ Eid). congruence. }
  destruct (next_id_fresh d Hd) as [Hc Hf]. set (i := next_id d) in *.
  assert (Hnew : ∃ ids g, new_id e d = Store (<[self e := i]> (expando d)) (cache d) (object_cache d) ids g ∧
    ids ⊆ deletedIds d ∧ NoDup ids ∧ (i ∉ ids) ∧ (guid d ≤ g) ∧ (i < g)).
  { unfold new_id. subst i. unfold next_id. pose proof (free_distinct _ Hd) as Hnd.
    destruct (deletedIds d) as [|id ids] eqn:Ed; do 2 eexists; (split; [done|]).
    - split_and!; [done..|by apply not_elem_of_nil|lia|lia].
    - apply NoDup_cons in Hnd as [Hni Hnd]. destruct (free_old _ Hd id); [rewrite Ed; by left|].
      split_and!; [set_solver|done|done|lia|lia]. }
  destruct Hnew as (ids & g & -> & Hids & Hnd & Hni & Hg & Hi).
  unfold lookup_entry at 1 3 5. rewrite En. cbn [expando cache]. rewrite lookup_insert_eq. cbn [mbind option_bind].
  rewrite Hc, (set_entry_node _ _ _ i) by first [done|apply lookup_insert_eq]. cbn [expando cache object_cache deletedIds guid].
  split_and!.
  - by apply fresh_node_inv.
  - unfold lookup_entry. rewrite En. cbn. rewrite lookup_insert_eq. cbn. apply lookup_insert_eq.
  - intros e' Hs. unfold lookup_entry. cbn. destruct (is_node e') eqn:En'; [|done].
    rewrite lookup_insert_ne by (intros Heq; apply Hs; split; congruence).
    destruct (expando d !! self e') as [id'|] eqn:Eid'; [|done]. cbn. apply lookup_insert_ne.
    intros ->. by apply (Hf (self e')).
Qed.

Lemma destroy_spec e d :
  data_inv d →
  data_inv (destroy e d) ∧
  ∀ e', lookup_entry e' (destroy e d) = if decide (same e e') then None else lookup_entry e' d.
Proof.
  intros Hd. unfold destroy. destruct (is_node e) eqn:En.
  2:{ split; [by destruct Hd; split|]. intros e'. unfold lookup_entry. cbn. case_decide as Hs.
      - destruct Hs as [Hn <-]. rewrite <- Hn, En. apply lookup_delete_eq.
      - destruct (is_node e') eqn:En'; [done|]. apply lookup_delete_ne. intros Heq. apply Hs. split; congruence. }
  destruct (expando d !! self e) as [id|] eqn:Eid.
  2:{ split; [done|]. intros e'. case_decide as Hs; [|done]. rewrite (lookup_entry_same e) by done.
      unfold lookup_entry. by rewrite En, Eid. }
  split.
  - pose proof (ids_live _ Hd _ _ Eid) as [Hlt Hni]. split; cbn.
    + intros n m i. rewrite !lookup_delete_Some. intros [_ Hn] [_ Hm]. by eapply ids_inj.
    + intros n i [Hne Hn]%lookup_delete_Some. destruct (ids_live _ Hd _ _ Hn) as [? Hi]. split; [done|].
      apply not_elem_of_cons. split; [|done]. intros ->. apply Hne. by eapply ids_inj.
    + intros n i [Hne Hn]%lookup_delete_Some. destruct (ids_cached _ Hd _ _ Hn) as [x Hx]. exists x.
      apply lookup_delete_Some. split; [|done]. intros <-. apply Hne. by eapply ids_inj.
    + intros i [x [Hne Hx]%lookup_delete_Some]. destruct (cache_owned _ Hd i) as [n Hn]; [by exists x|].
      exists n. apply lookup_delete_Some. split; [|done]. intros <-. congruence.
    + apply NoDup_cons. split; [done|by apply free_distinct].
    + intros i [->|Hi]%elem_of_cons; [done|by apply free_old].
    + by apply guid_pos.
  - intros e'. unfold lookup_entry. cbn. case_decide as Hs.
    { destruct Hs as [Hn <-]. by rewrite <- Hn, En, lookup_delete_eq. }
    destruct (is_node e') eqn:En'; [|done].
    rewrite lookup_delete_ne by (intros Heq; apply Hs; split; congruence).
    destruct (expando d !! self e') as [id'|] eqn:Eid'; [|done]. cbn. apply lookup_delete_ne.
    intros ->. apply Hs. split; [congruence|]. by eapply ids_inj.
Qed.
End facts.

(** ** The cache as a map from elements to objects *)

Section spec.
Context `{UnicodeCase} {V : Type}.
Variable is_null : V → bool.
Variable inherited : jsstr → option V.
Implicit Types (d : store V) (e : elem).

(** The object that the page sees: empty when there is none. *)
Definition view d e (pvt : bool) : list (jsstr * V) :=
  match lookup_entry e d with Some en => pick pvt en | None => [] end.
Definition set_step (r : request V) (o : list (jsstr * V)) : list (jsstr * V) :=
  match r with
  | Named n (Some v) => obj_set (Core.camelCase n) v o
  | Props ps => extend_with ps o
  | _ => o
  end.
Definition reply (r : request V) (o : list (jsstr * V)) : answer V :=
  match r with Named n _ => Value (read is_null inherited n o) | _ => Whole o end.

Lemma view_lookup d d' e pvt : lookup_entry e d = lookup_entry e d' → view d e pvt = view d' e pvt.
Proof. unfold view. by intros ->. Qed.

Lemma view_set e en d e' p :
  data_inv d → is_Some (lookup_entry e d) →
  view (set_entry e en d) e' p = if decide (same e e') then pick p en else view d e' p.
Proof. intros Hd Hs. unfold view. rewrite set_entry_lookup by done. by case_decide. Qed.

Lemma view_ensure e d e' p : data_inv d → view (ensure e d) e' p = view d e' p.
Proof.
  intros Hd. destruct (ensure_spec e d Hd) as (_ & He & Ho). unfold view. destruct (decide (same e e')) as [Hs|Hs].
  - rewrite !(lookup_entry_same e e'), He by done. by destruct (lookup_entry e d), p.
  - by rewrite Ho.
Qed.

Lemma pick_with p p' o (en : entry V) : pick p' (with_object p o en) = if bool_decide (p' = p) then o else pick p' en.
Proof. by destruct p, p'. Qed.

(** A call that answers early leaves everything as it is. *)
Lemma early_view r pvt d e : early r pvt (lookup_entry e d) = true → view d e pvt = [] ∧ ∃ n, r = Named n None.
Proof.
  destruct r as [n [v|]| |]; try done. intros Ee. split; [|by exists n]. unfold view.
  destruct (lookup_entry e d) as [en|]; [|done]. cbn in Ee. apply andb_true_iff in Ee as [Hp Hpub%bool_decide_eq_true].
  destruct pvt; [done|]. cbn. by rewrite Hpub.
Qed.
Lemma internalData_step e (r : request V) pvt d :
  data_inv d → acceptData e = true →
  let '(a, d') := internalData is_null inherited e r pvt d in
  data_inv d' ∧
  a = (if early r pvt (lookup_entry e d) then Value None else reply r (set_step r (view d e pvt))) ∧
  (early r pvt (lookup_entry e d) = false → is_Some (lookup_entry e d')) ∧
  ∀ e' p, view d' e' p =
    if decide (same e e' ∧ p = pvt) then set_step r (view d e pvt) else view d e' p.
Proof.
  intros Hd Ha. unfold internalData. rewrite Ha. cbn [negb orb].
  destruct (early r pvt (lookup_entry e d)) eqn:Ee.
  - destruct (early_view _ _ _ _ Ee) as [Hv [n ->]]. split_and!; [done..|]. intros e' p. case_decide as Hs; [|done].
    destruct Hs as [Hs ->]. cbn. unfold view. by rewrite (lookup_entry_same e e').
  - destruct (ensure_spec e d Hd) as (Hd' & He & _). rewrite He. set (en := default _ _) in *.
    assert (Hv : view d e pvt = pick pvt en) by (unfold view, en; by destruct (lookup_entry e d), pvt).
    rewrite Hv. cbv zeta. set (o1 := match r with Props ps => extend_with ps (pick pvt en) | _ => pick pvt en end).
    replace (match r with Named n (Some v) => obj_set (Core.camelCase n) v o1 | _ => o1 end)
      with (set_step r (pick pvt en)) by (by destruct r as [n [v|]| |]). clear o1.
    split; [apply set_entry_inv; [done|by rewrite He]|]. split; [by destruct r as [n [v|]| |]|]. split.
    { intros _. by rewrite set_entry_lookup, decide_True by (done || by rewrite He). }
    intros e' p. rewrite view_set by (by rewrite ?He). rewrite pick_with. destruct (decide (same e e')) as [Hs|Hs].
    + case_bool_decide as Hp; [by rewrite decide_True|]. rewrite decide_False by (by intros [_ ?]).
      rewrite <- (view_ensure e d e' p Hd). unfold view. by rewrite (lookup_entry_same e e'), He.
    + rewrite decide_False by (by intros []). by apply view_ensure.
Qed.

(** The value under the name as it is given, where it hides the one under the camel
    cased name. *)
Definition stale (n : jsstr) (o : list (jsstr * V)) : option V :=
  if bool_decide (Core.camelCase n = n) then None
  else match get_property inherited n o with Some w => if is_null w then None else Some w | None => None end.

Lemma read_set n v o :
  is_null v = false → read is_null inherited n (obj_set (Core.camelCase n) v o) = Some (default v (stale n o)).
Proof.
  intros Hv. assert (Hc : get_property inherited (Core.camelCase n) (obj_set (Core.camelCase n) v o) = Some v).
  { unfold get_property. by rewrite obj_get_set, decide_True. }
  unfold read, stale. rewrite Hc. case_bool_decide as Hn; [rewrite Hn in *; by rewrite Hc, Hv|].
  unfold get_property. rewrite obj_get_set, decide_False by congruence.
  destruct (obj_get n o) as [w|]; [by destruct (is_null w)|]. destruct (inherited n) as [w|]; [by destruct (is_null w)|done].
Qed.

(** What is written is read back, except where an object was given to [data] whose
    property has the very name that is not camel cased: [data(e, {"a-b": 1})] makes
    every later [data(e, "a-b", 2)] answer 1, at once and ever after. *)
Theorem data_read_back e n v pvt d :
  data_inv d → acceptData e = true → is_null v = false →
  let '(a, d') := internalData is_null inherited e (Named n (Some v)) pvt d in
  a = Value (Some (default v (stale n (view d e pvt)))) ∧
  (internalData is_null inherited e (Named n None) pvt d').1 = a.
Proof.
  intros Hd Ha Hv. pose proof (internalData_step e (Named n (Some v)) pvt d Hd Ha) as Hs.
  destruct (internalData _ _ _ _ _ _) as [a d']. destruct Hs as (Hd' & -> & He & Hw). cbn [early] in *.
  specialize (Hw e pvt). rewrite decide_True in Hw by done. cbn [reply set_step] in *. rewrite read_set by done. split; [done|].
  pose proof (internalData_step e (Named n None) pvt d' Hd' Ha) as Hs.
  destruct (internalData _ _ _ _ _ _) as [a d2]. destruct Hs as (_ & -> & _ & _). rewrite Hw. cbn [fst].
  destruct (early _ _ _) eqn:Ee; [|by rewrite <- read_set].
  destruct (early_view _ _ _ _ Ee) as [Hv0 _]. rewrite Hw in Hv0. by apply obj_set_ne in Hv0.
Qed.

(** What [removeData] does to the object of its kind. *)
Definition remove_step (ns : names) (o : list (jsstr * V)) : list (jsstr * V) :=
  if has_name ns then delete_keys (removed_keys inherited ns o) o else [].

Lemma delete_keys_nil ks : delete_keys ks ([] : list (jsstr * V)) = [].
Proof. unfold delete_keys. by induction (reverse ks). Qed.

Lemma hasData_view e d : hasData e d = true ↔ ∃ p, view d e p ≠ [].
Proof.
  unfold hasData, view. destruct (lookup_entry e d) as [[[|q qs] [[|u us]|]]|]; cbn; split; try done.
  1,3: intros [[] Hp]; done.
  all: try (intros _; by exists true). 1: intros _; by exists false.
  all: intros [? Hp]; done.
Qed.

(** What a step of [removeData] may do to the views of an element. *)
Definition removed_to (e : elem) (f : bool → list (jsstr * V)) d d' : Prop :=
  data_inv d' ∧ (lookup_entry e d' = None ∨ hasData e d' = true) ∧
  ∀ e' p, view d' e' p = if decide (same e e') then f p else view d e' p.

Lemma same_refl e : same e e.
Proof. done. Qed.

Lemma destroyed e f d : data_inv d → (∀ p, f p = []) → removed_to e f d (destroy e d).
Proof.
  intros Hd Hf. destruct (destroy_spec e d Hd) as [Hd' Hl]. split; [done|]. split.
  - left. by rewrite Hl, decide_True.
  - intros e' p. unfold view. rewrite Hl. by case_decide.
Qed.
Lemma kept e en f d :
  data_inv d → is_Some (lookup_entry e d) → isEmptyDataObject en = false → (∀ p, f p = pick p en) →
  removed_to e f d (set_entry e en d).
Proof.
  intros Hd Hs He Hf. split; [by apply set_entry_inv|]. split.
  - right. unfold hasData. rewrite set_entry_lookup, decide_True by done. by rewrite He.
  - intros e' p. rewrite view_set by done. by case_decide.
Qed.
Lemma empty_entry (en : entry V) : isEmptyDataObject en = true → ∀ p, pick p en = [].
Proof. by destruct en as [[|] [[|]|]]; intros Hen []. Qed.

Lemma dropped e pvt en d f :
  data_inv d → is_Some (lookup_entry e d) →
  (∀ p, f p = if pvt || bool_decide (p = pvt) then [] else pick p en) →
  removed_to e f d (drop_data e pvt en d).
Proof.
  intros Hd Hs Hf. unfold drop_data. destruct pvt; [by apply destroyed|].
  destruct (isEmptyDataObject _) eqn:Ee.
  - apply destroyed; [done|]. intros p. rewrite Hf. destruct p; [|done]. exact (empty_entry _ Ee true).
  - apply kept; [done..|]. intros p. rewrite Hf. by destruct p.
Qed.

(** [removeData] and [_removeData] delete from the object of their kind the keys
    that their argument stands for, or all of it without a name ([_removeData]
    then drops both objects), and touch no other element.  An element that is left
    without data keeps no entry in the cache. *)
Lemma internalRemoveData_step e (ns : names) pvt d :
  data_inv d → acceptData e = true →
  let d' := internalRemoveData inherited e ns pvt d in
  data_inv d' ∧ (lookup_entry e d' = None ∨ hasData e d' = true) ∧
  ∀ e' p, view d' e' p =
    if decide (same e e') then
      if pvt && negb (has_name ns) then [] else if bool_decide (p = pvt) then remove_step ns (view d e pvt) else view d e p
    else view d e' p.
Proof.
  intros Hd Ha d'. set (f p := if pvt && negb (has_name ns) then [] else
    if bool_decide (p = pvt) then remove_step ns (view d e pvt) else view d e p).
  change (removed_to e f d d'). subst d'. unfold internalRemoveData. rewrite Ha. cbn [negb].
  destruct (lookup_entry e d) as [en|] eqn:El.
  2:{ assert (Hv : ∀ p, view d e p = []) by (intros p; unfold view; by rewrite El).
      assert (Hr : remove_step ns [] = []) by (unfold remove_step; destruct (has_name ns); [apply delete_keys_nil|done]).
      split; [done|]. split; [by left|]. intros e' p. case_decide as Hs; [|done].
      unfold view at 1. rewrite (lookup_entry_same e e'), El by done. subst f. cbn. rewrite !Hv, Hr.
      by repeat case_match. }
  assert (Hv : ∀ p, view d e p = pick p en) by (intros p; unfold view; by rewrite El).
  assert (Hf : ∀ p, f p = if pvt && negb (has_name ns) then [] else
    if bool_decide (p = pvt) then remove_step ns (pick pvt en) else pick p en).
  { intros p. subst f. cbn. by rewrite !Hv. }
  clearbody f. unfold remove_step in Hf. destruct (has_name ns) eqn:Hn; cbn [andb negb] in *.
  2:{ apply dropped; [done|by rewrite El|]. intros p. rewrite Hf. by destruct pvt; case_bool_decide. }
  set (o := delete_keys _ _) in *. destruct (pvt || bool_decide (is_Some (public en))) eqn:Ep.
  2:{ apply orb_false_iff in Ep as [-> Hpub%bool_decide_eq_false].
      apply dropped; [done|by rewrite El|]. intros p. rewrite Hf. cbn.
      case_bool_decide; [|done]. subst o. cbn.
      destruct (public en); [by destruct Hpub|]. apply delete_keys_nil. }
  assert (Hk : ∀ p, f p = pick p (with_object pvt o en)).
  { intros p. rewrite Hf, pick_with. destruct pvt; done. }
  clear Ep. destruct pvt; cbn [negb] in *.
  - destruct (isEmptyDataObject (with_object true o en)) eqn:Ee; cbn [negb].
    + apply destroyed; [done|]. intros p. rewrite Hk. by apply empty_entry.
    + by apply kept; [|rewrite El| |].
  - destruct (decide (o = [])) as [Ho|Ho]; [rewrite bool_decide_true by done|rewrite bool_decide_false by done]; cbn [negb].
    + apply dropped; [done|by rewrite El|]. intros p. rewrite Hk, pick_with. cbn. by case_bool_decide.
    + apply kept; [done|by rewrite El| |done]. cbn. destruct (private en), o; done.
Qed.

(** No call touches the entry of another element. *)
Lemma internalData_frame e r pvt d e' :
  data_inv d → ¬ same e e' → lookup_entry e' (internalData is_null inherited e r pvt d).2 = lookup_entry e' d.
Proof.
  intros Hd Hs. unfold internalData. destruct (_ || _); [done|]. destruct (ensure_spec e d Hd) as (Hd' & He & Ho).
  rewrite He. cbn [snd]. rewrite set_entry_lookup, decide_False by (by rewrite ?He). by apply Ho.
Qed.
Lemma internalData_inv e r pvt d : data_inv d → data_inv (internalData is_null inherited e r pvt d).2.
Proof.
  intros Hd. destruct (acceptData e) eqn:Ea.
  - pose proof (internalData_step e r pvt d Hd Ea) as Hs. destruct (internalData _ _ _ _ _ _). apply Hs.
  - unfold internalData. by rewrite Ea.
Qed.
Lemma destroy_frame e d e' : data_inv d → ¬ same e e' → lookup_entry e' (destroy e d) = lookup_entry e' d.
Proof. intros Hd Hs. destruct (destroy_spec e d Hd) as [_ ->]. by rewrite decide_False. Qed.
Lemma internalRemoveData_frame e ns pvt d e' :
  data_inv d → ¬ same e e' → lookup_entry e' (internalRemoveData inherited e ns pvt d) = lookup_entry e' d.
Proof.
  intros Hd Hs. unfold internalRemoveData. destruct (negb _); [done|].
  destruct (lookup_entry e d) as [en|] eqn:El; [|done].
  assert (Hset : ∀ en', lookup_entry e' (set_entry e en' d) = lookup_entry e' d)
    by (intros en'; by rewrite set_entry_lookup, decide_False by (by rewrite ?El)).
  assert (Hdrop : ∀ en', lookup_entry e' (drop_data e pvt en' d) = lookup_entry e' d).
  { intros en'. unfold drop_data. repeat case_match; by rewrite ?destroy_frame, ?Hset. }
  cbv zeta. repeat case_match; by rewrite ?Hset, ?Hdrop.
Qed.
Lemma internalRemoveData_inv e ns pvt d : data_inv d → data_inv (internalRemoveData inherited e ns pvt d).
Proof.
  intros Hd. destruct (acceptData e) eqn:Ea.
  - by destruct (internalRemoveData_step e ns pvt d Hd Ea).
  - unfold internalRemoveData. by rewrite Ea.
Qed.

(** The calls of a page, and the plain map that they are meant to be calls on. *)
Inductive op := Call (r : request V) | Remove (ns : names).
Definition call_data (c : elem * bool * op) d : answer V * store V :=
  let '(e, pvt, o) := c in
  match o with
  | Call r => internalData is_null inherited e r pvt d
  | Remove ns => (Value None, internalRemoveData inherited e ns pvt d)
  end.
Fixpoint calls (cs : list (elem * bool * op)) d : list (answer V) * store V :=
  match cs with
  | [] => ([], d)
  | c :: cs => let '(a, d) := call_data c d in let '(l, d) := calls cs d in (a :: l, d)
  end.
Definition dict : Type := elem → bool → list (jsstr * V).
Definition call_map (c : elem * bool * op) (m : dict) : answer V * dict :=
  let '(e, pvt, o) := c in
  match o with
  | Call r =>
      let o := set_step r (m e pvt) in
      (reply r o, λ e' p, if decide (same e e' ∧ p = pvt) then o else m e' p)
  | Remove ns =>
      (Value None, λ e' p,
        if decide (same e e') then
          if pvt && negb (has_name ns) then [] else if bool_decide (p = pvt) then remove_step ns (m e pvt) else m e p
        else m e' p)
  end.
Fixpoint calls_map (cs : list (elem * bool * op)) (m : dict) : list (answer V) * dict :=
  match cs with
  | [] => ([], m)
  | c :: cs => let '(a, m) := call_map c m in let '(l, m) := calls_map cs m in (a :: l, m)
  end.
(** The names that a call uses. *)
Definition op_names (o : op) : list jsstr :=
  match o with
  | Call (Named n _) => [n; Core.camelCase n]
  | Call All => []
  | Call (Props ps) => ps.*1
  | Remove NoName => []
  | Remove (Name k) => k :: Core.camelCase k :: split_unit 32 (Core.camelCase k)
  | Remove (Names l) => l ++ (Core.camelCase <$> l)
  end.
Definition reserved (n : jsstr) : bool := str_eqb n (js "data") || str_eqb n (js "toJSON").
(** Calls on elements that accept data; private calls do not use the reserved names, and
    names of [Object.prototype] are not read. *)
Definition usual (c : elem * bool * op) : Prop :=
  acceptData c.1.1 = true ∧ c.1.2 && existsb reserved (op_names c.2) = false ∧
  match c.2 with Call (Named n None) => inherited n = None ∧ inherited (Core.camelCase n) = None | _ => True end.

Lemma call_simulated c d m :
  data_inv d → usual c → (∀ e p, view d e p = m e p) →
  data_inv (call_data c d).2 ∧ (call_data c d).1 = (call_map c m).1 ∧
  ∀ e p, view (call_data c d).2 e p = (call_map c m).2 e p.
Proof.
  destruct c as [[e pvt] [r|ns]]; intros Hd (Ha & _ & Hr) Hm; cbn [fst snd call_data call_map] in *.
  - pose proof (internalData_step e r pvt d Hd Ha) as Hs. destruct (internalData _ _ _ _ _ _) as [a d'].
    destruct Hs as (Hd' & -> & _ & Hv). rewrite <- Hm. split_and!; [done| |].
    + destruct (early _ _ _) eqn:Ee; [|done]. destruct (early_view _ _ _ _ Ee) as [Hv0 [n ->]]. rewrite Hv0.
      destruct Hr as [Hn Hc]. cbn [fst reply set_step]. unfold read, get_property. cbn [obj_get]. by rewrite Hn, Hc.
    + intros e' p. cbn [snd]. rewrite Hv. by case_decide.
  - destruct (internalRemoveData_step e ns pvt d Hd Ha) as (Hd' & _ & Hv). split_and!; [done..|].
    intros e' p. cbn [snd]. rewrite Hv, <- !Hm. done.
Qed.

(** C22: The shared cache with its reused numbers implements a plain map from elements
    and kinds to objects: for all calls of [data], [_data], [removeData] and
    [_removeData] of a page, in any order and on any elements that accept data, the
    answers and the objects of all elements are those of the map.  So no
    element ever sees data of another, also when numbers are reused.  The
    invariant of the cache holds throughout.  The calls do not read names of
    [Object.prototype], and private calls do not use the names [data] and [toJSON], under
    which the library keeps the public object and hides its own from serialization; a private
    object is seen without these two. *)
Theorem data_refines cs :
  Forall usual cs →
  let '(answers, d) := calls cs no_data in
  let '(answers', m) := calls_map cs (λ _ _, []) in
  answers = answers' ∧ data_inv d ∧ ∀ e p, view d e p = m e p.
Proof.
  assert (Hgen : ∀ d m, data_inv d → (∀ e p, view d e p = m e p) → Forall usual cs →
    let '(answers, d) := calls cs d in let '(answers', m) := calls_map cs m in
    answers = answers' ∧ data_inv d ∧ ∀ e p, view d e p = m e p).
  2:{ apply Hgen; [apply no_data_inv|]. intros e p. unfold view, lookup_entry. cbn.
      destruct (is_node e); [by rewrite lookup_empty|by rewrite lookup_empty]. }
  induction cs as [|c cs IH]; intros d m Hd Hm Hu; [done|]. apply Forall_cons in Hu as [Hc Hu]. cbn [calls calls_map].
  destruct (call_simulated c d m Hd Hc Hm) as (Hd' & Ha & Hv).
  destruct (call_data c d) as [a d'], (call_map c m) as [a' m']. cbn [fst snd] in *.
  specialize (IH d' m' Hd' Hv Hu). destruct (calls cs d') as [l d2], (calls_map cs m') as [l' m2].
  destruct IH as (-> & Hd2 & Hv2). by rewrite Ha.
Qed.
End spec.

(** Two elements of a page; the number of the first is given to the second. *)
Definition a_div : elem := Elem 1 1 (js "DIV") None.
Definition a_link : elem := Elem 2 1 (js "A") None.
Definition some_calls : list (elem * bool * op (V := nat)) :=
  [(a_div, false, Call (Named (js "a-b") (Some 5))); (a_div, false, Remove (Name (js "a-b")));
   (a_link, false, Call (Named (js "size") (Some 7))); (a_div, false, Call (Named (js "aB") None));
   (a_link, false, Call (Named (js "size") None))].

Lemma data_refines_witness :
  (let '(answers, d) := @calls ascii_case nat (λ _, false) (λ _, None) some_calls no_data in
   answers = [Value (Some 5); Value None; Value (Some 7); Value None; Value (Some 7)] ∧ expando d !! 2 = Some 1) ∧
  let '(answers, d) := @calls ascii_case nat (λ _, false) (λ _, None) some_calls no_data in
  let '(answers', m) := @calls_map nat (λ _, false) (λ _, None) some_calls (λ _ _, []) in
  answers = answers' ∧ data_inv d ∧ ∀ e p, @view nat d e p = m e p.
Proof.
  split; [by vm_compute|].
  apply (@data_refines ascii_case nat (λ _, false) (λ _, None) some_calls).
  repeat (apply Forall_cons; split; [by vm_compute|]). constructor.
Defined.

Lemma data_read_back_witness :
  let d := (@internalData ascii_case nat (λ _, false) (λ _, None) a_div (Props [(js "a-b", Some 1)]) false no_data).2 in
  let '(a, d') := @internalData ascii_case nat (λ _, false) (λ _, None) a_div (Named (js "a-b") (Some 2)) false d in
  a = Value (Some 1) ∧
  (@internalData ascii_case nat (λ _, false) (λ _, None) a_div (Named (js "a-b") None) false d').1 = a.
Proof.
  intros d.
  pose proof (@data_read_back ascii_case nat (λ _, false) (λ _, None) a_div (js "a-b") 2 false d) as Hb.
  assert (Hd : data_inv d).
  { pose proof (@internalData_step ascii_case nat (λ _, false) (λ _, None) a_div (Props [(js "a-b", Some 1)]) false
      no_data no_data_inv eq_refl) as Hs.
    subst d. destruct (internalData _ _ _ _ _ _) as [a d]. by destruct Hs. }
  specialize (Hb Hd eq_refl eq_refl). subst d. revert Hb. vm_compute. done.
Defined.

End Data.
