(* ===== verification/JqEffects.v ===== *)
(** * Timers and animations of jquery.js

    [Timers]: the list [jQuery.timers] with [jQuery.fx.tick], [timer], [start], [stop]
    and the loops of the methods [stop] and [finish] over it, for timers whose bodies
    run code of the page, which may change the list under the loop.  [Anim]: one
    animation, its tweens, frames and settlement, with the rounding of the language's
    numbers (Binary64.v).  [Options]:
    [jQuery.speed], [genFx] and [propFilter]. *)

From stdpp Require Import base tactics list strings numbers sets gmap sorting.
From Stdlib Require Import ZArith QArith Lqa Lia.
From S2P Require Import Prelude.
From S2P Require Import JsString.
From S2P Require Import JsArray.
From S2P Require Import Binary64.
From S2P Require Import JqCore.

Local Open Scope nat_scope.

Module Timers.

Section timers.
(** The rest of the page; a timer is a name, its body a computation that tells
    whether the animation goes on. *)
Context {P : Type}.
Record state := State {
  timers : list nat;
  timerId : bool;               (* whether the interval runs *)
  fxNow : option Z;
  rest : P;
}.
Context (body : nat → M state bool) (now : P → Z).

Definition with_timers (l : list nat) (s : state) : state := State l (timerId s) (fxNow s) (rest s).
Definition with_id (b : bool) (s : state) : state := State (timers s) b (fxNow s) (rest s).
Definition with_now (t : option Z) (s : state) : state := State (timers s) (timerId s) t (rest s).

Definition fx_start : M state unit := modify (with_id true).
Definition fx_stop : M state unit := modify (with_id false).

(** The loop of [tick]: the length and the entry are read anew after every body.  It
    goes on for ever when the bodies add timers for ever: the fuel ends in [Diverge]. *)
Fixpoint tick_loop (fuel i : nat) : M state unit :=
  match fuel with
  | 0 => throw Diverge
  | S n =>
      s ← get;
      match timers s !! i with
      | None => mret tt
      | Some timer =>
          go_on ← body timer;
          s ← get;
          if negb go_on && bool_decide (timers s !! i = Some timer) then
            modify (with_timers (delete i (timers s))) ≫= λ _, tick_loop n i
          else tick_loop n (S i)
      end
  end.
Definition tick (fuel : nat) : M state unit :=
  modify (λ s, with_now (Some (now (rest s))) s) ≫= λ _,
  tick_loop fuel 0 ≫= λ _,
  s ← get;
  (match timers s with [] => fx_stop | _ => mret tt end) ≫= λ _,
  modify (with_now None).

(** [jQuery.fx.timer]: the timer runs at once; when it does not go on, the last entry
    of the list is dropped. *)
Definition timer (t : nat) : M state unit :=
  modify (λ s, with_timers (timers s ++ [t]) s) ≫= λ _,
  go_on ← body t;
  if go_on : bool then fx_start else modify (λ s, with_timers (removelast (timers s)) s).

(** The loops of [stop] and [finish]: [chosen] is the test of the properties [elem] and
    [queue] of the timer, which the page holds, as an animation that is settled loses its
    [elem]; [stop_anim] is the call [timer.anim.stop(gotoEnd)].  The result tells whether
    no timer was stopped. *)
Context (chosen : nat → P → bool) (stop_anim : nat → M state unit).
Fixpoint stop_loop (index : nat) (dequeue : bool) : M state bool :=
  match index with
  | 0 => mret dequeue
  | S i =>
      s ← get;
      match timers s !! i with
      | Some t =>
          if chosen t (rest s) then
            stop_anim t ≫= λ _,
            modify (λ s, with_timers (delete i (timers s)) s) ≫= λ _, stop_loop i false
          else stop_loop i dequeue
      | None => throw TypeError
      end
  end.
Definition stop_timers : M state bool := s ← get; stop_loop (length (timers s)) true.

(** ** The reference: a queue

    Every timer is taken from the front, runs once, and is kept when it goes on; what
    a body adds waits at the end. *)
Fixpoint process (fuel : nat) (kept todo : list nat) : M state (list nat) :=
  match fuel with
  | 0 => throw Diverge
  | S n =>
      match todo with
      | [] => mret kept
      | t :: todo' =>
          before ← get;
          go_on ← body t;
          s ← get;
          let kept := if go_on : bool then kept ++ [t] else kept in
          let todo := todo' ++ drop (length (timers before)) (timers s) in
          modify (with_timers (kept ++ todo)) ≫= λ _, process n kept todo
      end
  end.
End timers.
Arguments state : clear implicits.
End Timers.

Module TimerFacts.
Import Timers.

Section facts.
Context {P : Type}.
Local Abbreviation state := (state P).
Context (body : nat → M state bool) (now : P → Z).

(** A computation that adds timers at the end and leaves the others. *)
Definition appends {A} (m : M state A) : Prop := ∀ s, ∃ l, timers (m s).2 = timers s ++ l.

Lemma with_timers_same (s : state) : with_timers (timers s) s = s.
Proof. by destruct s. Qed.

Lemma tick_loop_process fuel kept todo s :
  (∀ t, appends (body t)) → timers s = kept ++ todo →
  tick_loop body fuel (length kept) s =
    let '(r, s') := process body fuel kept todo s in
    (match r with Ok _ => Ok tt | Throw e => Throw e end, s').
Proof.
  intros Hb. revert kept todo s. induction fuel as [|n IH]; intros kept todo s Hs; [done|].
  cbn [tick_loop process]. unfold get, mbind, M_bind. cbv beta iota. rewrite Hs.
  destruct todo as [|t todo].
  { rewrite app_nil_r, lookup_ge_None_2 by done. done. }
  rewrite lookup_app_r, Nat.sub_diag by done. cbn [lookup list_lookup].
  destruct (Hb t s) as [l Hl]. destruct (body t s) as [[go_on|e] s1] eqn:Eb; [|done]. cbn [snd] in Hl.
  rewrite Hl, Hs, drop_app_length, <- (assoc_L (++)). rewrite lookup_app_r, Nat.sub_diag by done.
  cbn [app lookup list_lookup]. rewrite bool_decide_true, andb_true_r by done. unfold modify.
  destruct go_on; cbn [negb]; cbv beta iota.
  - replace (S (length kept)) with (length (kept ++ [t])) by (rewrite length_app; simpl; lia).
    assert (Ht : timers s1 = (kept ++ [t]) ++ todo ++ l) by (rewrite Hl, Hs, <- !(assoc_L (++)); done).
    rewrite (IH _ (todo ++ l)) by done. by rewrite <- Ht, with_timers_same.
  - replace (delete (length kept) (kept ++ t :: todo ++ l)) with (kept ++ todo ++ l).
    2: { symmetry. apply delete_middle. }
    by rewrite (IH kept (todo ++ l)).
Qed.

Lemma process_timers fuel kept todo s kept' s' :
  (∀ t, appends (body t)) → timers s = kept ++ todo →
  process body fuel kept todo s = (Ok kept', s') → timers s' = kept'.
Proof.
  intros Hb. revert kept todo s. induction fuel as [|n IH]; intros kept todo s Hs; [done|].
  cbn [process]. destruct todo as [|t todo].
  - intros [= <- <-]. by rewrite Hs, app_nil_r.
  - unfold get, mbind, M_bind. cbv beta iota. destruct (Hb t s) as [l Hl].
    destruct (body t s) as [[go_on|e] s1]; [|done]. unfold modify. cbv beta iota. apply IH. done.
Qed.

(** C25: a tick of the clock runs the timers as a queue: every timer that is in the list
    when the tick begins, and every one that is added while it lasts, runs once, in
    order; those that go on are kept, in order, and nothing else is; then the interval
    is stopped if no timer is left, and the time of the tick is forgotten.  This holds
    for timers whose code starts animations; a timer that throws ends the tick. *)
Theorem tick_refines fuel s :
  (∀ t, appends (body t)) →
  let '(r, s') := process body fuel [] (timers s) (with_now (Some (now (rest s))) s) in
  tick body now fuel s =
    match r with
    | Throw e => (Throw e, s')
    | Ok kept => (Ok tt, with_now None (if bool_decide (kept = []) then with_id false s' else s'))
    end ∧ (∀ kept, r = Ok kept → timers s' = kept).
Proof.
  intros Hb. pose proof (tick_loop_process fuel [] (timers s) (with_now (Some (now (rest s))) s) Hb eq_refl) as Hl.
  pose proof (process_timers fuel [] (timers s) (with_now (Some (now (rest s))) s)) as Ht.
  destruct (process _ _ _ _ _) as [r s'] eqn:Ep. cbn [length] in Hl. split.
  - unfold tick, modify, get, mbind, M_bind. cbv beta iota. rewrite Hl.
    destruct r as [kept|e]; [|done]. rewrite (Ht kept s') by done. by destruct kept.
  - intros kept ->. by apply Ht.
Qed.

(** When no timer adds another, the number of timers is fuel enough. *)
Lemma process_ends fuel kept todo s :
  (∀ t s, timers (body t s).2 = timers s ∧ ∃ b, (body t s).1 = Ok b) →
  timers s = kept ++ todo → length todo < fuel →
  ∃ kept', (process body fuel kept todo s).1 = Ok (kept ++ kept') ∧ kept' `sublist_of` todo.
Proof.
  intros Hb. revert kept todo s. induction fuel as [|n IH]; intros kept todo s Hs Hf; [lia|].
  cbn [process]. destruct todo as [|t todo]; [exists []; by rewrite app_nil_r|].
  unfold get, mbind, M_bind. cbv beta iota. destruct (Hb t s) as [Hl [b Hr]].
  destruct (body t s) as [[go_on|e] s1]; [|done]. cbn [fst snd] in *. rewrite Hl, drop_all, app_nil_r.
  unfold modify. cbv beta iota. simpl in Hf.
  destruct (IH (if go_on then kept ++ [t] else kept) todo
    (with_timers ((if go_on then kept ++ [t] else kept) ++ todo) s1) eq_refl ltac:(lia)) as (kept' & -> & Hsub).
  destruct go_on.
  - exists (t :: kept'). rewrite <- (assoc_L (++)). split; [done|]. by constructor.
  - exists kept'. split; [done|]. by constructor.
Qed.

(** ** Starting and stopping *)

(** [jQuery.fx.timer] with a body that adds no timer. *)
Lemma timer_spec t s :
  (∀ s, timers (body t s).2 = timers s) →
  match (body t (with_timers (timers s ++ [t]) s)).1 with
  | Ok true => timers (timer body t s).2 = timers s ++ [t] ∧ timerId (timer body t s).2 = true
  | Ok false => timers (timer body t s).2 = timers s
  | Throw _ => timers (timer body t s).2 = timers s ++ [t]
  end.
Proof.
  intros Hb. unfold timer, modify, mbind, M_bind. cbv beta iota.
  specialize (Hb (with_timers (timers s ++ [t]) s)).
  destruct (body t _) as [[[|]|e] s1]; cbn [fst snd] in *; [done| |done].
  cbn. rewrite Hb. cbn. rewrite removelast_app by done. apply app_nil_r.
Qed.

(** When the first frame of a timer that ends at once starts another animation, the
    list loses the new timer and keeps the one that has ended. *)
Lemma timer_drops_other t u s :
  (body t (with_timers (timers s ++ [t]) s)).1 = Ok false →
  timers (body t (with_timers (timers s ++ [t]) s)).2 = timers s ++ [t] ++ [u] →
  timers (timer body t s).2 = timers s ++ [t].
Proof.
  intros Hr Ht. unfold timer, modify, mbind, M_bind. cbv beta iota.
  destruct (body t _) as [[[|]|e] s1]; cbn [fst snd] in *; try done. cbn. rewrite Ht, (assoc_L (++)).
  rewrite removelast_app by done. apply app_nil_r.
Qed.

Context (chosen : nat → P → bool) (stop_anim : nat → M state unit).
(** Stopping an animation starts others, and changes what is chosen of none but its own
    timer. *)
Definition stops_one (t : nat) : Prop :=
  appends (stop_anim t) ∧ ∀ u s, u ≠ t → chosen u (rest (stop_anim t s).2) = chosen u (rest s).

Lemma filter_chosen_ext l p q : (∀ u, u ∈ l → chosen u p = chosen u q) →
  base.filter (λ t, chosen t p = false) l = base.filter (λ t, chosen t q = false) l ∧
  existsb (λ t, chosen t p) l = existsb (λ t, chosen t q) l.
Proof.
  induction l as [|u l IH]; intros H; [done|]. destruct IH as [IH1 IH2].
  { intros v Hv. apply H. by constructor. }
  rewrite !filter_cons, IH1. cbn [existsb]. rewrite IH2, (H u) by constructor. done.
Qed.

Lemma stop_loop_spec pre post s dequeue :
  (∀ t, stops_one t) → NoDup pre → timers s = pre ++ post →
  match stop_loop chosen stop_anim (length pre) dequeue s with
  | (Ok b, s') => (∃ l, timers s' = base.filter (λ t, chosen t (rest s) = false) pre ++ post ++ l) ∧
                  b = dequeue && negb (existsb (λ t, chosen t (rest s)) pre)
  | (Throw e, s') => True
  end.
Proof.
  intros Ha. revert post s dequeue. induction pre as [|t pre IH] using rev_ind; intros post s dequeue Hd Hs.
  - cbn. split; [exists []; by rewrite app_nil_r|by rewrite andb_true_r].
  - apply NoDup_app in Hd as (Hd & Hnot & _).
    rewrite length_app, Nat.add_1_r. cbn [stop_loop]. unfold get, mbind, M_bind. cbv beta iota.
    rewrite Hs, <- (assoc_L (++)), lookup_app_r, Nat.sub_diag by done. cbn [app lookup list_lookup].
    rewrite filter_app, existsb_app, filter_cons, filter_nil. cbn [existsb]. rewrite orb_false_r.
    destruct (chosen t (rest s)) eqn:Et.
    + rewrite decide_False by done. destruct (Ha t) as [Hl Hsame]. destruct (Hl s) as [l Hl']. specialize (λ u, Hsame u s).
      destruct (stop_anim t s) as [[[]|e] s1]; [|done].
      cbn [snd] in Hl', Hsame. unfold modify. cbv beta iota.
      assert (Hd' : timers (with_timers (delete (length pre) (timers s1)) s1) = pre ++ (post ++ l)).
      { cbn. rewrite Hl', Hs, <- !(assoc_L (++)). apply delete_middle. }
      specialize (IH (post ++ l) _ false Hd Hd'). destruct (stop_loop _ _ _ _ _) as [[b|e] s2]; [|done].
      cbn [rest with_timers] in IH.
      destruct (filter_chosen_ext pre (rest s1) (rest s)) as [Hf He].
      { intros u Hu. apply Hsame. intros ->. by apply (Hnot t Hu), list_elem_of_singleton. }
      rewrite Hf in IH. destruct IH as [[l2 Hl2] Hb]. split; [|by rewrite Hb, orb_true_r, andb_false_r].
      exists (l ++ l2). by rewrite Hl2, app_nil_r, !(assoc_L (++)).
    + rewrite decide_True by done. assert (Hs' : timers s = pre ++ (t :: post)) by (by rewrite Hs, <- (assoc_L (++))).
      specialize (IH (t :: post) s dequeue Hd Hs'). destruct (stop_loop _ _ _ _ _) as [[b|e] s2]; [|done].
      destruct IH as [[l' Hl'] Hb]. split; [|by rewrite Hb, orb_false_r].
      exists l'. by rewrite Hl', <- (assoc_L (++)).
Qed.

(** [stop] and [finish] take the timers of their element out of the list, and no other
    one, also when stopping runs code that starts animations. *)
Lemma stop_timers_spec s :
  (∀ t, stops_one t) → NoDup (timers s) →
  match stop_timers chosen stop_anim s with
  | (Ok b, s') => (∃ l, timers s' = base.filter (λ t, chosen t (rest s) = false) (timers s) ++ l) ∧
                  b = negb (existsb (λ t, chosen t (rest s)) (timers s))
  | (Throw e, s') => True
  end.
Proof.
  intros Ha Hd. pose proof (stop_loop_spec (timers s) [] s true Ha Hd) as H. rewrite app_nil_r in H.
  specialize (H eq_refl). unfold stop_timers, get, mbind, M_bind. cbv beta iota.
  destruct (stop_loop _ _ _ _ _) as [[b|e] s']; [|done]. done.
Qed.
End facts.

(** Three timers: 1 starts an animation, 4, the first time it runs and then goes on; 2 and
    4 end; 3 goes on. *)
Definition sample_body (t : nat) : M (state (list nat)) bool := λ s,
  let seen := existsb (Nat.eqb t) (rest s) in
  let s := State (timers s ++ (if (t =? 1)%nat && negb seen then [4%nat] else [])) (timerId s) (fxNow s) (t :: rest s) in
  (Ok (negb ((t =? 2)%nat || (t =? 4)%nat)), s).
Lemma tick_refines_witness :
  let s := State [1; 2; 3]%nat true None [] in
  tick sample_body (λ _, 7%Z) 9 s = (Ok tt, State [1; 3]%nat true None [4; 3; 2; 1]%nat).
Proof.
  assert (Hb : ∀ t, appends (sample_body t)) by (intros t s; eexists; reflexivity).
  pose proof (tick_refines sample_body (λ _, 7%Z) 9 (State [1; 2; 3]%nat true None []) Hb) as H.
  assert (E : process sample_body 9 [] [1; 2; 3]%nat (State [1; 2; 3]%nat true (Some 7%Z) []) =
    (Ok [1; 3]%nat, State [1; 3]%nat true (Some 7%Z) [4; 3; 2; 1]%nat)) by (vm_compute; reflexivity).
  cbv beta iota delta [timers with_now rest timerId] in H. rewrite E in H. exact (proj1 H).
Defined.

(** The last timer that ends stops the interval. *)
Example tick_stops : timerId (tick sample_body (λ _, 7%Z) 9 (State [2]%nat true None [])).2 = false.
Proof. vm_compute. reflexivity. Qed.
End TimerFacts.

Module Anim.
Import Binary64.

Local Open Scope Q_scope.

(** A tween: the property, where it starts and ends, its value now, and its unit. *)
Record tween := Tween {
  prop : jsstr;
  start : Q;
  end_ : Q;
  pos : Q;
  now : Q;
  unit_ : jsstr;
  easing_name : jsstr;
}.
(** How an animation was settled: with the last frame, by [stop(true)], or by [stop]. *)
Inductive settlement := Finished | StoppedAtEnd | Stopped.
Record animation := Animation_ {
  startTime : Z;
  duration : Z;
  tweens : list tween;
  stopped : bool;
  settled : option settlement;
  progress : list (Q * Z);        (* what the deferred notified: percent, remaining *)
}.

Section anim.
(** [jQuery.easing[name]] of the position and the duration. *)
Context (easing : jsstr → Q → Z → Q).

Definition linear (p : Q) : Q := p.
(** [jQuery.cssNumber], and a new tween of a property whose value is [cur]: what is not
    given is the standard easing, and pixels for a property that is not a number. *)
Definition cssNumber : list jsstr :=
  js <$> ["columnCount"; "fillOpacity"; "flexGrow"; "flexShrink"; "fontWeight"; "lineHeight"; "opacity"; "order";
          "orphans"; "widows"; "zIndex"; "zoom"]%string.
Definition Tween_init (cur : jsstr → Q) (prop : jsstr) (end_ : Q) (easing unit_ : option jsstr) : tween :=
  Tween prop (cur prop) end_ 0 (cur prop)
    (match unit_ with Some (x :: u) => x :: u | _ => if bool_decide (prop ∈ cssNumber) then [] else js "px" end)
    (match easing with Some (x :: e) => x :: e | _ => js "swing" end).
(** [Tween.prototype.run], with the default hooks: three operations, each rounded. *)
Definition run (opt_duration : Z) (percent : Q) (t : tween) : tween :=
  let eased := if (opt_duration =? 0)%Z then percent else easing (easing_name t) percent opt_duration in
  Tween (prop t) (start t) (end_ t) eased (fadd (fmul (fsub (end_ t) (start t)) eased) (start t))
    (unit_ t) (easing_name t).

(** [1 - (remaining / duration || 0)], two operations that round: [0 / 0] is not a number
    and counts as 0; a duration of 0 has nothing remaining, as clocks do not run
    backwards. *)
Definition percent_of (remaining duration : Z) : Q :=
  fsub 1 (if (remaining =? 0)%Z || (duration =? 0)%Z then 0 else fdiv (inject_Z remaining) (inject_Z duration)).
(** The deferred is settled once; a settled one notifies nobody. *)
Definition settle (x : settlement) (a : animation) : animation :=
  match settled a with
  | Some _ => a
  | None => Animation_ (startTime a) (duration a) (tweens a) (stopped a) (Some x) (progress a)
  end.
Definition notify (p : Q * Z) (a : animation) : animation :=
  match settled a with
  | Some _ => a
  | None => Animation_ (startTime a) (duration a) (tweens a) (stopped a) None (progress a ++ [p])
  end.
Definition with_tweens (l : list tween) (a : animation) : animation :=
  Animation_ (startTime a) (duration a) l (stopped a) (settled a) (progress a).

(** One frame, [tick]: what it returns is a number that is true or false. *)
Definition frame (currentTime : Z) (a : animation) : option Z * animation :=
  if stopped a then (None, a)
  else
    let remaining := Z.max 0 (startTime a + duration a - currentTime) in
    let percent := percent_of remaining (duration a) in
    let a := notify (percent, remaining) (with_tweens (run (duration a) percent <$> tweens a) a) in
    if negb (Qle_bool 1 percent) && negb (length (tweens a) =? 0)%nat then (Some remaining, a)
    else (None, settle Finished a).
Definition goes_on (r : option Z) : bool := match r with Some z => negb (z =? 0)%Z | None => false end.

Definition stop (gotoEnd : bool) (a : animation) : animation :=
  if stopped a then a
  else
    let a := Animation_ (startTime a) (duration a) (tweens a) true (settled a) (progress a) in
    if gotoEnd then settle StoppedAtEnd (with_tweens (run (duration a) 1 <$> tweens a) a) else settle Stopped a.

(** [animation.createTween]: the easing of the property, or that of the animation. *)
Definition createTween (cur : jsstr → Q) (specialEasing : list (jsstr * jsstr)) (opt_easing : option jsstr)
    (prop : jsstr) (end_ : Q) (a : animation) : tween * animation :=
  let easing := match obj_get prop specialEasing with Some (x :: e) => Some (x :: e) | _ => opt_easing end in
  let t := Tween_init cur prop end_ easing None in
  (t, with_tweens (tweens a ++ [t]) a).
Inductive event := Frame (t : Z) | Stop (gotoEnd : bool).
Definition handle (a : animation) (e : event) : animation :=
  match e with Frame t => (frame t a).2 | Stop g => stop g a end.
Definition history (a : animation) (es : list event) : animation := foldl handle a es.
End anim.
End Anim.

Module AnimFacts.
Import Binary64 Binary64Facts.
Import Anim.
Local Open Scope Q_scope.

(** ** The position of a frame *)

Lemma fdiv_0 d : fdiv 0 d = 0.
Proof. unfold fdiv. rewrite (round_proper _ 0); [done|]. unfold Qdiv. apply Qmult_0_l. Qed.
Lemma percent_ratio r d : (0 < d)%Z → percent_of r d = fsub 1 (fdiv (inject_Z r) (inject_Z d)).
Proof.
  intros Hd. unfold percent_of. destruct (Z.eqb_spec r 0) as [->|]; simpl orb; [by rewrite fdiv_0|].
  by destruct (Z.eqb_spec d 0); [lia|].
Qed.
Lemma ratio_le r r' d : (0 < d)%Z → (r' <= r)%Z → inject_Z r' / inject_Z d <= inject_Z r / inject_Z d.
Proof.
  intros Hd Hr. apply Qmult_le_compat_r; [by rewrite <- Zle_Qle|]. apply Qinv_le_0_compat.
  change 0 with (inject_Z 0). rewrite <- Zle_Qle. lia.
Qed.
Lemma percent_le r r' d : (0 < d)%Z → (r' <= r)%Z → percent_of r d <= percent_of r' d.
Proof.
  intros Hd Hr. rewrite !percent_ratio by done. apply round_mono.
  pose proof (round_mono _ _ (ratio_le r r' d Hd Hr)). unfold fdiv. lra.
Qed.
Lemma percent_start d : (0 < d)%Z → percent_of d d = 0.
Proof.
  intros Hd. rewrite percent_ratio by done. unfold fdiv. rewrite (round_proper _ 1); [done|].
  apply Qmult_inv_r. change 0 with (inject_Z 0). rewrite inject_Z_injective. lia.
Qed.
Lemma percent_end d : percent_of 0 d = 1.
Proof. done. Qed.
Lemma percent_bounds r d : (0 < d)%Z → (0 <= r <= d)%Z → 0 <= percent_of r d <= 1.
Proof.
  intros Hd [Hr1 Hr2]. split.
  - rewrite <- (percent_start d) by done. by apply percent_le.
  - rewrite <- (percent_end d). by apply percent_le.
Qed.
(** The rounding does not take a frame before the end to the end: what remains of at most
    [2 ^ 53] milliseconds is at least the distance from 1 to the number before it. *)
Lemma percent_below r d : (0 < d <= 2 ^ 53)%Z → (0 < r)%Z → Qle_bool 1 (percent_of r d) = false.
Proof.
  intros [Hd Hd2] Hr. apply not_true_is_false. rewrite Qle_bool_iff.
  assert (percent_of r d <= 1 - (1 # (2 ^ 53))) as Hm; [|intros Hone; by apply (Qle_trans _ _ _ Hone) in Hm].
  rewrite percent_ratio by done.
  assert (1 # (2 ^ 53) <= inject_Z r / inject_Z d) as H.
  { apply Qle_shift_div_l; [change 0 with (inject_Z 0); by rewrite <- Zlt_Qlt|].
    unfold inject_Z, Qle, Qmult. cbn [Qnum Qden]. lia. }
  apply round_mono in H. change (round64 (1 # 2 ^ 53)) with (1 # (2 ^ 53)) in H.
  change (1 - (1 # 2 ^ 53)) with (1 - (1 # (2 ^ 53))).
  assert (round64 (1 - (1 # (2 ^ 53))) == 1 - (1 # (2 ^ 53))) as <- by (vm_compute; reflexivity).
  apply round_mono. unfold fdiv. lra.
Qed.

Section facts.
Context (easing : jsstr → Q → Z → Q).

Definition remaining_at (a : animation) (t : Z) : Z := Z.max 0 (startTime a + duration a - t).
Definition percent_at (a : animation) (t : Z) : Q := percent_of (remaining_at a t) (duration a).
(** The value at the end: the distance added to the start, both rounded. *)
Definition end_value (t : tween) : Q := fadd (fsub (end_ t) (start t)) (start t).
Definition at_end (t : tween) : Prop := now t = end_value t.
(** It is the end when the distance is a number, as it is between whole pixels. *)
Lemma end_value_exact t : number64 (end_ t - start t) → number64 (end_ t) → end_value t == end_ t.
Proof.
  intros Hd He. unfold end_value, fadd, fsub. unfold number64 in *.
  rewrite (round_proper _ (end_ t)); [done|]. rewrite Hd. ring.
Qed.
Lemma whole_end t a b : start t = inject_Z a → end_ t = inject_Z b → (Z.abs b <= 2 ^ 53)%Z → (Z.abs (b - a) <= 2 ^ 53)%Z →
  end_value t == inject_Z b.
Proof.
  intros Hs He Hb Hd. rewrite end_value_exact, He; [done| |by rewrite He; apply round_int].
  rewrite Hs, He. apply (number64_proper (inject_Z (b - a))); [|by apply round_int].
  unfold Z.sub. by rewrite inject_Z_plus, inject_Z_opp.
Qed.
(** A tween moves only in its value and its position. *)
Definition moves (t t' : tween) : Prop :=
  prop t' = prop t ∧ start t' = start t ∧ end_ t' = end_ t ∧ unit_ t' = unit_ t ∧ easing_name t' = easing_name t.

Lemma run_moves d p t : moves t (run easing d p t).
Proof. done. Qed.
Lemma run_end d t : easing (easing_name t) 1 d == 1 → at_end (run easing d 1 t).
Proof.
  intros He. unfold at_end, end_value, run. cbn [now end_ start]. f_equal.
  assert (fmul (fsub (end_ t) (start t)) 1 = fsub (end_ t) (start t)) as E by (unfold fsub; apply fmul_1).
  destruct (d =? 0)%Z; [done|]. rewrite <- E at 2. unfold fmul. apply round_proper. by rewrite He.
Qed.
Lemma moves_trans l l' d p : Forall2 moves l l' → Forall2 moves l (run easing d p <$> l').
Proof.
  intros H. apply Forall2_fmap_r. eapply Forall2_impl; [exact H|]. intros t t' Ht. exact Ht.
Qed.
Lemma moves_refl l : Forall2 moves l l.
Proof. by apply Forall_Forall2_diag, Forall_true. Qed.
Lemma run_all_end l d : (∀ n, easing n 1 d == 1) → Forall at_end (run easing d 1 <$> l).
Proof. intros He. apply Forall_fmap, Forall_true. intros t. apply run_end, He. Qed.

(** ** Histories of an animation *)

Definition fresh (a : animation) : Prop := stopped a = false ∧ settled a = None ∧ progress a = [].
Definition time_of (e : event) : option Z := match e with Frame t => Some t | Stop _ => None end.
(** What an event settles. *)
Definition settles (a : animation) (e : event) : option settlement :=
  match e with
  | Stop g => Some (if g then StoppedAtEnd else Stopped)
  | Frame t => if (t <? startTime a + duration a)%Z && negb (length (tweens a) =? 0)%nat then None else Some Finished
  end.

Record inv (a : animation) (es : list event) (b : animation) : Prop := Inv {
  inv_start : startTime b = startTime a;
  inv_duration : duration b = duration a;
  inv_tweens : Forall2 moves (tweens a) (tweens b);
  inv_settled : settled b = head (omap (settles a) es);
  inv_stopped : match settled b with
                | None => stopped b = false
                | Some Finished => tweens a = [] ∨ ∃ t, Frame t ∈ es ∧ (startTime a + duration a <= t)%Z
                | Some _ => stopped b = true
                end;
  inv_end : match settled b with Some Finished | Some StoppedAtEnd => Forall at_end (tweens b) | _ => True end;
  inv_progress : ∀ p, p ∈ progress b → ∃ t, Frame t ∈ es ∧ p = (percent_at a t, remaining_at a t);
  inv_sorted : StronglySorted Qle (progress b).*1;
}.

Lemma head_omap_snoc {A B} (f : A → option B) l x :
  head (omap f (l ++ [x])) = match head (omap f l) with Some y => Some y | None => f x end.
Proof.
  rewrite omap_app. destruct (omap f l); simpl; [|done]. by destruct (f x).
Qed.

Lemma inv_fresh a : fresh a → inv a [] a.
Proof.
  intros (Hs & He & Hp). split; rewrite ?He, ?Hs, ?Hp; simpl; try done.
  - apply moves_refl.
  - intros p Hin. by apply not_elem_of_nil in Hin.
  - constructor.
Qed.

(** The tweens of an animation that is over or at its end time are run to their end. *)
Lemma percent_after a t : (startTime a + duration a <= t)%Z → percent_at a t = 1.
Proof. intros H. unfold percent_at, remaining_at. by rewrite Z.max_l by lia. Qed.

(** The last step of a history whose settlement stays. *)
Lemma inv_more a es e b b' :
  inv a es b → startTime b' = startTime b → duration b' = duration b → Forall2 moves (tweens a) (tweens b') →
  settled b' = settled b → settled b ≠ None → (stopped b = true → stopped b' = true) → progress b' = progress b →
  (match settled b with Some Finished | Some StoppedAtEnd => Forall at_end (tweens b') | _ => True end) →
  inv a (es ++ [e]) b'.
Proof.
  intros Hi Hst Hd Ht Hse Hn Hs Hp He. pose proof (inv_stopped _ _ _ Hi) as Hsto.
  pose proof (inv_settled _ _ _ Hi) as Hsett. split.
  - rewrite Hst. apply Hi.
  - rewrite Hd. apply Hi.
  - done.
  - rewrite Hse, Hsett, head_omap_snoc. rewrite Hsett in Hn. by destruct (head _).
  - rewrite Hse. destruct (settled b) as [[]|]; [|by auto|by auto|done].
    destruct Hsto as [|(t & Hin & Hle)]; [by left|]. right. exists t. split; [|done]. apply elem_of_app. by left.
  - by rewrite Hse.
  - rewrite Hp. intros p Hin. destruct (inv_progress _ _ _ Hi p Hin) as (t & Ht' & ->). exists t. split; [|done].
    apply elem_of_app. by left.
  - rewrite Hp. apply Hi.
Qed.

Lemma inv_stop a es b g :
  (∀ n, easing n 1 (duration a) == 1) → inv a es b → inv a (es ++ [Stop g]) (stop easing g b).
Proof.
  intros He Hi. unfold stop. pose proof (inv_stopped _ _ _ Hi) as Hs.
  assert (Htw : ∀ p, Forall2 moves (tweens a) (run easing (duration b) p <$> tweens b))
    by (intros; by apply moves_trans, Hi).
  assert (Hend : Forall at_end (run easing (duration b) 1 <$> tweens b))
    by (apply run_all_end; rewrite (inv_duration _ _ _ Hi); apply He).
  destruct (stopped b) eqn:Eb.
  { eapply inv_more; try done.
    - apply Hi.
    - by destruct (settled b) as [[]|].
    - apply Hi. }
  unfold settle, with_tweens. destruct (settled b) as [x|] eqn:Es.
  - assert (x = Finished) as -> by (by destruct x).
    destruct g; cbn [settled tweens]; rewrite ?Es; eapply inv_more; try done; rewrite ?Es; cbn; try done.
    + apply Hi.
    + pose proof (inv_end _ _ _ Hi) as H. by rewrite Es in H.
  - pose proof (inv_settled _ _ _ Hi) as Hsett. rewrite Es in Hsett.
    destruct g; cbn [settled tweens]; split; cbn; try done; try apply Hi.
    all: try (rewrite head_omap_snoc, <- Hsett; done).
    all: intros p Hin; destruct (inv_progress _ _ _ Hi p Hin) as (t & Ht' & ->); exists t; split; [|done];
      apply elem_of_app; by left.
Qed.

Lemma inv_frame a es b t :
  (∀ n, easing n 1 (duration a) == 1) → (0 < duration a <= 2 ^ 53)%Z →
  (∀ u, Frame u ∈ es → (u <= t)%Z) → inv a es b → inv a (es ++ [Frame t]) (frame easing t b).2.
Proof.
  intros He Hd Ht Hi. unfold frame. pose proof (inv_stopped _ _ _ Hi) as Hs.
  pose proof (inv_settled _ _ _ Hi) as Hsett.
  destruct (stopped b) eqn:Eb.
  { cbn. eapply inv_more; try done; [apply Hi|by destruct (settled b) as [[]|]|apply Hi]. }
  rewrite (inv_start _ _ _ Hi), (inv_duration _ _ _ Hi).
  change (Z.max 0 (startTime a + duration a - t)) with (remaining_at a t).
  change (percent_of (remaining_at a t) (duration a)) with (percent_at a t).
  assert (Htw : Forall2 moves (tweens a) (run easing (duration a) (percent_at a t) <$> tweens b))
    by (apply moves_trans, Hi).
  assert (Hlen : length (tweens b) = length (tweens a)) by (symmetry; eapply Forall2_length, Hi).
  unfold notify, with_tweens. cbn [settled tweens startTime duration stopped progress].
  destruct (settled b) as [x|] eqn:Es.
  { assert (x = Finished) as -> by (by destruct x). cbn in Hs.
    assert (Hend : Forall at_end (run easing (duration a) (percent_at a t) <$> tweens b)).
    { destruct Hs as [Hnil|(u & Hu & Hle)].
      - rewrite Hnil in Hlen. by destruct (tweens b).
      - rewrite percent_after; [by apply run_all_end|]. specialize (Ht u Hu). lia. }
    unfold settle. destruct (negb _ && negb _); cbn [snd settled]; eapply inv_more; try done;
      cbn [startTime duration settled stopped progress tweens]; try rewrite Es; try done. }
  assert (Hprog : ∀ p, p ∈ progress b ++ [(percent_at a t, remaining_at a t)] →
    ∃ u, Frame u ∈ es ++ [Frame t] ∧ p = (percent_at a u, remaining_at a u)).
  { intros p [Hp|Hp%list_elem_of_singleton]%elem_of_app.
    - destruct (inv_progress _ _ _ Hi p Hp) as (u & Hu & ->). exists u. split; [|done]. apply elem_of_app. by left.
    - exists t. split; [|done]. apply elem_of_app. right. by apply list_elem_of_singleton. }
  assert (Hsort : StronglySorted Qle (progress b ++ [(percent_at a t, remaining_at a t)]).*1).
  { rewrite fmap_app. apply StronglySorted_app_2; [|apply Hi|repeat constructor].
    intros x y (p & -> & Hp)%list_elem_of_fmap Hy%list_elem_of_singleton. subst y.
    destruct (inv_progress _ _ _ Hi p Hp) as (u & Hu & ->). cbn. unfold percent_at.
    apply percent_le; [lia|]. specialize (Ht u Hu). unfold remaining_at. lia. }
  cbn [tweens]. rewrite length_fmap, Hlen.
  destruct (decide (startTime a + duration a <= t)%Z) as [Hle|Hlt].
  - rewrite percent_after by done. cbn [negb andb Qle_bool].
    change (negb (Qle_bool 1 1)) with false. cbn [andb snd]. unfold settle. cbn [settled].
    rewrite percent_after in Htw, Hprog, Hsort by done.
    split; cbn [startTime duration tweens stopped settled progress]; try done; try apply Hi.
    + rewrite head_omap_snoc, <- Hsett. cbn [settles]. by destruct (Z.ltb_spec t (startTime a + duration a)); [lia|].
    + right. exists t. split; [|done]. apply elem_of_app. right. by apply list_elem_of_singleton.
    + apply run_all_end, He.
  - assert (Hb : Qle_bool 1 (percent_at a t) = false) by (apply percent_below; [done|unfold remaining_at; lia]).
    rewrite Hb. cbn [negb andb].
    destruct (length (tweens a) =? 0)%nat eqn:El; cbn [negb snd].
    + unfold settle. cbn [settled]. apply Nat.eqb_eq, length_zero_iff_nil in El.
      split; cbn [startTime duration tweens stopped settled progress]; try done; try apply Hi.
      * rewrite head_omap_snoc, <- Hsett. cbn [settles]. rewrite El. cbn. by rewrite andb_false_r.
      * by left.
      * rewrite El in Hlen. by destruct (tweens b).
    + split; cbn [startTime duration tweens stopped settled progress]; try done; try apply Hi.
      rewrite head_omap_snoc, <- Hsett. cbn [settles]. rewrite El.
      by destruct (Z.ltb_spec t (startTime a + duration a)); [|lia].
Qed.

Lemma inv_history a es :
  fresh a → (0 < duration a <= 2 ^ 53)%Z → (∀ n, easing n 1 (duration a) == 1) → StronglySorted Z.le (omap time_of es) →
  inv a es (history easing a es).
Proof.
  intros Hf Hd He. induction es as [|e es IH] using rev_ind; intros Hs; [by apply inv_fresh|].
  rewrite omap_app in Hs. apply StronglySorted_app in Hs as (Hle & Hs & _).
  unfold history. rewrite foldl_app. cbn [foldl]. specialize (IH Hs). destruct e as [t|g]; cbn [handle].
  - apply inv_frame; try done. intros u Hu. apply Hle.
    + apply list_elem_of_omap. by exists (Frame u).
    + by apply list_elem_of_singleton.
  - by apply inv_stop.
Qed.


(** The clock is enough: an animation that gets frames is settled at the latest by the
    first one at its end. *)
Lemma history_ends a es t :
  fresh a → (0 < duration a <= 2 ^ 53)%Z → (∀ n, easing n 1 (duration a) == 1) → StronglySorted Z.le (omap time_of es) →
  Frame t ∈ es → (startTime a + duration a <= t)%Z → settled (history easing a es) ≠ None.
Proof.
  intros Hf Hd He Hs Hin Hle. rewrite (inv_settled _ _ _ (inv_history a es Hf Hd He Hs)).
  intros Hn. assert (Finished ∈ omap (settles a) es) as H.
  { apply list_elem_of_omap. exists (Frame t). split; [done|]. cbn.
    by destruct (Z.ltb_spec t (startTime a + duration a)); [lia|]. }
  destruct (omap (settles a) es); [by apply not_elem_of_nil in H|done].
Qed.

(** After [stop] the frames do nothing, and the timer is dropped at the next tick. *)
Lemma stopped_frame g t a : frame easing t (stop easing g a) = (None, stop easing g a).
Proof.
  unfold stop. destruct (stopped a) eqn:E; [unfold frame; by rewrite E|].
  unfold settle, with_tweens. destruct g; cbn [settled]; destruct (settled a); done.
Qed.

(** What [tick] returns is true for as long as the animation is not over. *)
Lemma frame_goes_on a t :
  (0 < duration a <= 2 ^ 53)%Z → stopped a = false → tweens a ≠ [] →
  goes_on (frame easing t a).1 = (t <? startTime a + duration a)%Z.
Proof.
  intros Hd Hs Ht. unfold frame. rewrite Hs.
  assert (Hl : ∀ p r, tweens (notify (p, r) (with_tweens (run easing (duration a) p <$> tweens a) a)) =
    (run easing (duration a) p <$> tweens a)).
  { intros p r. unfold notify, with_tweens. cbn [settled]. by destruct (settled a). }
  set (r := Z.max 0 (startTime a + duration a - t)). cbv zeta.
  rewrite Hl, length_fmap.
  destruct (tweens a) as [|w ws]; [done|]. cbn [length Nat.eqb negb]. rewrite andb_true_r.
  destruct (Z.ltb_spec t (startTime a + duration a)) as [H|H].
  - rewrite percent_below by (unfold r; lia). cbn. unfold r.
    destruct (Z.eqb_spec (Z.max 0 (startTime a + duration a - t)) 0); [lia|done].
  - unfold r. rewrite Z.max_l by lia. done.
Qed.
End facts.

(** A new tween is where its property is, and at no time before its first frame
    elsewhere. *)
Lemma createTween_spec cur se oe p e a :
  let '(t, a') := createTween cur se oe p e a in
  tweens a' = tweens a ++ [t] ∧ start t = cur p ∧ now t = cur p ∧ end_ t = e ∧ easing_name t ≠ [].
Proof.
  cbn. repeat split. destruct (obj_get p se) as [[|x l]|]; [|done|]; by destruct oe as [[|y l']|].
Qed.
(** Two tweens of an animation of one second that starts at 100, with [linear]. *)
Definition sample_animation : animation :=
  Animation_ 100 1000
    [Tween (js "height") 0 80 0 0 (js "px") (js "linear"); Tween (js "opacity") 1 0 0 1 [] (js "linear")]
    false None [].
Definition sample_events : list event := [Frame 100; Frame 350; Frame 600; Frame 1105; Frame 1118; Stop true].
(** A fade from 1 to 0.1, the nearest number to it, ends at 0.09999999999999998. *)
Definition tenth : Q := round64 (1 # 10).
Lemma fade_misses_end :
  let b := history (λ _ p _, linear p)
    (Animation_ 0 400 [Tween (js "opacity") 1 tenth 0 1 [] (js "linear")] false None []) [Frame 400] in
  settled b = Some Finished ∧ (now <$> tweens b) = [round64 (9999999999999998 # 100000000000000000)] ∧
  Forall (λ t, now t < tenth) (tweens b).
Proof. split; [done|]. split; [by vm_compute|]. constructor; [by vm_compute|constructor]. Qed.

(** A duration that is negative: the animation is over at its first frame. *)
Example negative_duration :
  settled (frame (λ _ p _, linear p) 100 (Animation_ 100 (-5) [Tween (js "height") 0 80 0 0 (js "px") (js "linear")] false None [])).2 =
  Some Finished.
Proof. reflexivity. Qed.
End AnimFacts.

Module Options.

(** ** [jQuery.speed] *)

(** The arguments of an animation: nothing, a function, a text, a number. *)
Inductive arg (F : Type) : Type :=
  | AUndefined
  | AFunction (f : F)
  | AText (s : jsstr)
  | ANumber (z : Z).
Arguments AUndefined {F}. Arguments AFunction {F}. Arguments AText {F}. Arguments ANumber {F}.
Inductive queue_option := QDefault | QFalse | QName (s : jsstr).
Record options (F : Type) := Opts {
  complete : arg F;
  o_duration : arg F;
  o_easing : arg F;
  o_queue : queue_option;
}.
Arguments Opts {F}. Arguments complete {F}. Arguments o_duration {F}. Arguments o_easing {F}. Arguments o_queue {F}.

Section speed.
Context {F : Type}.
Definition truthy (a : arg F) : bool :=
  match a with
  | AUndefined => false
  | AFunction _ => true
  | AText s => negb (str_eqb s [])
  | ANumber z => negb (z =? 0)%Z
  end.
Definition is_function (a : arg F) : bool := match a with AFunction _ => true | _ => false end.
Definition or_ (a b : arg F) : arg F := if truthy a then a else b.
Definition and_ (c : bool) (a : arg F) : arg F := if c then a else AUndefined.

Definition speeds : list (jsstr * Z) := [(js "slow", 600%Z); (js "fast", 200%Z); (js "_default", 400%Z)].
(** The options of the arguments, or a copy of the options given. *)
Definition given (speed : arg F + options F) (easing fn : arg F) : options F :=
  match speed with
  | inr o => o
  | inl speed =>
      Opts (or_ fn (or_ (and_ (negb (truthy fn)) easing) (and_ (is_function speed) speed)))
        speed
        (or_ (and_ (truthy fn) easing) (and_ (truthy easing && negb (is_function easing)) easing))
        QDefault
  end.
(** What [speed] settles: the duration in milliseconds, the queue ([None] for false and
    for the empty name), the easing, and the function that the new [complete] calls
    first.  A text is not the name of a property of Object.prototype. *)
Record settings := Settings { duration_ms : Z; queue_ : option jsstr; easing_ : arg F; old : option F }.
Definition speed (off : bool) (speed : arg F + options F) (easing fn : arg F) : settings :=
  let opt := given speed easing fn in
  let duration :=
    if off then 0%Z
    else match o_duration opt with
         | ANumber z => z
         | AText s => default 400%Z (obj_get s speeds)
         | _ => 400%Z
         end in
  Settings duration
    (match o_queue opt with QDefault => Some (js "fx") | QFalse => None | QName s => if str_eqb s [] then None else Some s end)
    (o_easing opt)
    (match complete opt with AFunction f => Some f | _ => None end).
(** The calls of the new [complete]: the old one, then the queue goes on. *)
Inductive call := Old (f : F) | Dequeue (queue : jsstr).
Definition new_complete (s : settings) : list call :=
  (match old s with Some f => [Old f] | None => [] end) ++ (match queue_ s with Some q => [Dequeue q] | None => [] end).
End speed.
Arguments settings : clear implicits.

(** ** The parameters of standard animations *)

Definition cssExpand : list jsstr := js <$> ["Top"; "Right"; "Bottom"; "Left"]%string.
Fixpoint genFx_loop {T} (fuel i : nat) (includeWidth : nat) (type : T) (attrs : list (jsstr * T)) : list (jsstr * T) :=
  match fuel with
  | 0 => attrs
  | S n =>
      match cssExpand !! i with
      | None => attrs
      | Some which =>
          genFx_loop n (i + 2 - includeWidth) includeWidth type
            (obj_set (js "margin" ++ which) type (obj_set (js "padding" ++ which) type attrs))
      end
  end.
Definition genFx {T} (type : T) (includeWidth : bool) : list (jsstr * T) :=
  let w := if includeWidth then 1 else 0 in
  let attrs := genFx_loop 4 0 w type [(js "height", type)] in
  if includeWidth then obj_set (js "opacity") type (obj_set (js "width") type attrs) else attrs.

(** ** [propFilter]

    The names of properties are not those of Object.prototype; the loop does not come
    to a property that it has added. *)

Section filter.
(** A value of a property is itself, or an array of the value and its easing. *)
Context {V : Type}.
Inductive pvalue := One (v : V) | WithEasing (v : V) (easing : option jsstr).
Context (expand : jsstr → option (V → list (jsstr * V))).
Record filtered := Filtered { props : list (jsstr * pvalue); specialEasing : list (jsstr * option jsstr) }.

Definition filter_prop (st : filtered) (index : jsstr) : filtered :=
  match obj_get index (props st) with
  | None => st                      (* deleted before the loop came to it *)
  | Some value =>
      let name := Core.camelCase index in
      let easing := match value with
                    | WithEasing _ e => e
                    | One _ => default None (obj_get name (specialEasing st))
                    end in
      let v := match value with One v => v | WithEasing v _ => v end in
      let ps := obj_set index (One v) (props st) in
      let ps := if str_eqb index name then ps else obj_delete index (obj_set name (One v) ps) in
      match expand name with
      | Some f =>
          foldl (λ st p,
            if obj_has p.1 (props st) then st
            else Filtered (obj_set p.1 (One p.2) (props st)) (obj_set p.1 easing (specialEasing st)))
            (Filtered (obj_delete name ps) (specialEasing st)) (f v)
      | None => Filtered ps (obj_set name easing (specialEasing st))
      end
  end.
Definition propFilter (ps : list (jsstr * pvalue)) (special : list (jsstr * option jsstr)) : filtered :=
  foldl filter_prop (Filtered ps special) (obj_keys ps).
End filter.

(** ** Tweeners and prefilters *)

Section registry.
(** A tweener is a function of the page: it returns a tween or nothing, and its calls to
    [animation.createTween] change the animation. *)
Context {S T A : Type}.
Local Abbreviation tweener_fn := (A → M S (option T)).
Definition tweener (ps : list jsstr) (callback : tweener_fn) (tweeners : list (jsstr * list tweener_fn))
    : list (jsstr * list tweener_fn) :=
  foldl (λ ts prop, obj_set prop (callback :: default [] (obj_get prop ts)) ts) tweeners ps.
Fixpoint first_tween (collection : list tweener_fn) (a : A) : M S (option T) :=
  match collection with
  | [] => mret None
  | f :: collection => t ← f a; match t with Some t => mret (Some t) | None => first_tween collection a end
  end.
Definition createTween_ (tweeners : list (jsstr * list tweener_fn)) (prop : jsstr) (a : A) : M S (option T) :=
  first_tween (default [] (obj_get prop tweeners) ++ default [] (obj_get (js "*") tweeners)) a.
Definition prefilter {B} (callback : B) (prepend : bool) (l : list B) : list B :=
  if prepend then callback :: l else l ++ [callback].
(** The loop of [Animation] over the prefilters: the first true result is what it returns. *)
Fixpoint run_prefilters {R} (prefilters : list (M S (option R))) : M S (option R) :=
  match prefilters with
  | [] => mret None
  | f :: prefilters => r ← f; match r with Some r => mret (Some r) | None => run_prefilters prefilters end
  end.
End registry.
End Options.

Module OptionFacts.
Import Options.

(** ** [jQuery.speed] *)

(** The function called when the animation is complete is the last argument that is
    given; a text or number before it is the easing, and one without a function too. *)
Lemma given_three {F} (s : arg F) e f :
  given (inl s) e (AFunction f) = Opts (AFunction f) s (if truthy e then e else AUndefined) QDefault.
Proof.
  unfold given. cbn. destruct (truthy e) eqn:He; unfold or_, and_; cbn; rewrite ?He; [done|]. done.
Qed.
Lemma given_two {F} (s : arg F) f : given (inl s) (AFunction f) AUndefined = Opts (AFunction f) s AUndefined QDefault.
Proof. done. Qed.
Lemma given_one {F} (f : F) : given (inl (AFunction f)) AUndefined AUndefined = Opts (AFunction f) (AFunction f) AUndefined QDefault.
Proof. done. Qed.

(** Every animation has a duration, the page's or the standard one, and 0 when animations
    are off. *)
Lemma speed_duration {F} off (s : arg F + options F) e f :
  duration_ms (speed off s e f) =
    if off then 0%Z
    else match o_duration (given s e f) with
         | ANumber z => z
         | AText t => default 400%Z (obj_get t speeds)
         | _ => 400%Z
         end.
Proof. done. Qed.

(** The queue goes on when the animation is complete, once and after the function of the
    page, unless the animation was not queued. *)
Lemma complete_dequeues {F} off (s : arg F + options F) e f :
  let o := speed off s e f in
  (∃ q, queue_ o = Some q ∧ q ≠ [] ∧ last (new_complete o) = Some (Dequeue q) ∧
        length (omap (λ c, match c with Dequeue q => Some q | Old _ => None end) (new_complete o)) = 1) ∨
  (queue_ o = None ∧ ∀ q, Dequeue q ∉ new_complete o).
Proof.
  cbv zeta. unfold speed, new_complete. cbn [queue_ old].
  destruct (o_queue (given s e f)) as [| |q]; [left|right|].
  - exists (js "fx"). repeat split; by destruct (complete (given s e f)).
  - split; [done|]. intros q. destruct (complete (given s e f)); cbn; rewrite ?elem_of_cons, ?elem_of_nil; naive_solver.
  - destruct q as [|x q]; cbn [str_eqb]; [right|left].
    + split; [done|]. intros q. destruct (complete (given s e f)); cbn; rewrite ?elem_of_cons, ?elem_of_nil; naive_solver.
    + exists (x :: q). repeat split; try done; by destruct (complete (given s e f)).
Qed.

(** ** Standard animations *)

Example genFx_show :
  obj_keys (genFx (js "show") true) =
    js <$> ["height"; "paddingTop"; "marginTop"; "paddingRight"; "marginRight"; "paddingBottom"; "marginBottom";
            "paddingLeft"; "marginLeft"; "width"; "opacity"]%string.
Proof. vm_compute. reflexivity. Qed.
Example genFx_slide :
  obj_keys (genFx (js "hide") false) =
    js <$> ["height"; "paddingTop"; "marginTop"; "paddingBottom"; "marginBottom"]%string.
Proof. vm_compute. reflexivity. Qed.

Example propFilter_margin :
  let expand n := if str_eqb n (js "margin") then Some (λ v : nat, [(js "marginTop", v); (js "marginLeft", v)]) else None in
  let st := propFilter expand
    [(js "margin", WithEasing 7 (Some (js "linear"))); (js "font-size", One 3); (js "marginLeft", One 9)] [] in
  props st = [(js "marginLeft", One 9); (js "marginTop", One 7); (js "fontSize", One 3)] ∧
  specialEasing st = [(js "marginTop", Some (js "linear")); (js "fontSize", None); (js "marginLeft", None)].
Proof. vm_compute. split; reflexivity. Qed.

(** ** Tweeners *)

(** The tween of a property is the first that one of its tweeners makes, the newest
    first, then those for all properties; those after it are not asked. *)
Lemma first_tween_none {S T A} (l1 l2 : list (A → M S (option T))) a s s' :
  first_tween l1 a s = (Ok None, s') → first_tween (l1 ++ l2) a s = first_tween l2 a s'.
Proof.
  revert s. induction l1 as [|f l1 IH]; intros s H.
  - by injection H as <-.
  - cbn [app first_tween] in *. unfold mbind, M_bind in *.
    destruct (f a s) as [[[t|]|e] s1]; try done. by apply IH.
Qed.
Lemma first_tween_some {S T A} (l1 l2 : list (A → M S (option T))) a s t s' :
  first_tween l1 a s = (Ok (Some t), s') → first_tween (l1 ++ l2) a s = (Ok (Some t), s').
Proof.
  revert s. induction l1 as [|f l1 IH]; intros s H; [done|].
  cbn [app first_tween] in *. unfold mbind, M_bind in *.
  destruct (f a s) as [[[u|]|e] s1]; try done. by apply IH.
Qed.
Lemma tweener_newest {S T A} p (c : A → M S (option T)) ts :
  obj_get p (tweener [p] c ts) = Some (c :: default [] (obj_get p ts)).
Proof. unfold tweener. cbn. by rewrite obj_get_set, decide_True. Qed.
End OptionFacts.
