(* ===== verification/DomForest.v ===== *)
(** * A document that changes

    The nodes of a page as a forest: the document is one tree, every node that is in no
    tree of another is the root of its own, and a node is known by its number.  The
    operations are those of the document interface: [appendChild], [insertBefore],
    [removeChild], [replaceChild], [cloneNode] and the creation of nodes. *)

From stdpp Require Import base tactics list strings numbers sets gmap.
From Stdlib Require Import NArith ZArith Lia.
From S2P Require Import Prelude.

Module Forest.

Section forest.
(** What a node is, apart from its place. *)
Context {I : Type}.
Inductive tree := Tree (id : nat) (info : I) (kids : list tree).
Definition id_of (t : tree) : nat := let '(Tree i _ _) := t in i.
Definition info_of (t : tree) : I := let '(Tree _ n _) := t in n.
Definition kids_of (t : tree) : list tree := let '(Tree _ _ ks) := t in ks.

Section tree_ind.
Variable P : tree → Prop.
Hypothesis HTree : ∀ i n ks, Forall P ks → P (Tree i n ks).
Fixpoint tree_nested_ind (t : tree) : P t :=
  match t with
  | Tree i n ks =>
      HTree i n ks
        ((fix go (l : list tree) : Forall P l :=
            match l with
            | [] => Forall_nil_2 P
            | t' :: l' => Forall_cons_2 P t' l' (tree_nested_ind t') (go l')
            end) ks)
  end.
End tree_ind.

(** The nodes of a tree, in document order. *)
Fixpoint ids (t : tree) : list nat := let '(Tree i _ ks) := t in i :: (ks ≫= ids).
Definition all_ids (f : list tree) : list nat := f ≫= ids.
Fixpoint nodes (t : tree) : list tree := t :: (let '(Tree _ _ ks) := t in ks ≫= nodes).

Fixpoint find (x : nat) (t : tree) : option tree :=
  let '(Tree i _ ks) := t in if i =? x then Some t else head (omap (find x) ks).
Definition find_in (x : nat) (f : list tree) : option tree := head (omap (find x) f).

(** A place of a tree, relative to a node. *)
Inductive place := FirstOf | LastOf | BeforeIt | AfterIt | InsteadOf | Within.
(** The trees [new] at the place; [Within] replaces the children. *)
Fixpoint graft (pl : place) (x : nat) (new : list tree) (t : tree) : tree :=
  let '(Tree i n ks) := t in
  let ks' := ks ≫= λ k,
    let k' := graft pl x new k in
    if id_of k =? x then
      match pl with
      | BeforeIt => new ++ [k']
      | AfterIt => k' :: new
      | InsteadOf => new
      | _ => [k']
      end
    else [k'] in
  Tree i n
    (if i =? x then
      match pl with FirstOf => new ++ ks' | LastOf => ks' ++ new | Within => new | _ => ks' end
    else ks').
(** The forest without the tree of a node. *)
Definition prune (x : nat) (f : list tree) : list tree :=
  f ≫= λ t, if id_of t =? x then [] else [graft InsteadOf x [] t].
Definition has_kid (x : nat) (ks : list tree) : bool := existsb (λ k, id_of k =? x) ks.
Fixpoint parent (x : nat) (t : tree) : option nat :=
  let '(Tree i _ ks) := t in if has_kid x ks then Some i else head (omap (parent x) ks).
Definition parent_in (x : nat) (f : list tree) : option nat := head (omap (parent x) f).
(** A change of what a node is. *)
Fixpoint update (x : nat) (g : I → I) (t : tree) : tree :=
  let '(Tree i n ks) := t in Tree i (if i =? x then g n else n) (update x g <$> ks).
(** The sibling after a child. *)
Fixpoint after (x : nat) (l : list nat) : option nat :=
  match l with
  | [] => None
  | y :: l => if y =? x then head l else after x l
  end.

(** ** The operations of the document interface *)

Record world (R : Type) := World { forest : list tree; fresh : nat; rest : R }.
Context {R : Type}.
Definition with_forest (f : list tree) (w : world R) : world R := World _ f (fresh _ w) (rest _ w).

(** Whether a node is a document fragment. *)
Context (is_fragment : I → bool).
(** The trees that the insertion of a node moves: the children of a fragment. *)
Definition moved (t : tree) : list tree := if is_fragment (info_of t) then kids_of t else [t].
Definition taken (t : tree) (f : list tree) : list tree :=
  if is_fragment (info_of t) then graft Within (id_of t) [] <$> f else prune (id_of t) f.

(** An error is a [HierarchyRequestError] (a node does not go into its own tree), or a
    [NotFoundError] (the reference is not a child). *)
Definition insertBefore (target node : nat) (ref : option nat) : M (world R) unit := λ w,
  match find_in node (forest _ w), find_in target (forest _ w) with
  | Some t, Some p =>
      let siblings := id_of <$> kids_of p in
      if bool_decide (target ∈ ids t) then (Throw TypeError, w)
      else
        match (if bool_decide (ref = Some node) then after node siblings else ref) with
        | None => (Ok tt, with_forest (graft LastOf target (moved t) <$> taken t (forest _ w)) w)
        | Some r =>
            if bool_decide (r ∈ siblings) then
              (Ok tt, with_forest (graft BeforeIt r (moved t) <$> taken t (forest _ w)) w)
            else (Throw TypeError, w)
        end
  | _, _ => (Throw TypeError, w)
  end.
Definition appendChild (target node : nat) : M (world R) unit := insertBefore target node None.
(** A node that is taken out of its tree goes on as the root of its own. *)
Definition removeChild (target node : nat) : M (world R) unit := λ w,
  match find_in node (forest _ w), find_in target (forest _ w) with
  | Some t, Some p =>
      if has_kid node (kids_of p) then (Ok tt, with_forest (t :: prune node (forest _ w)) w)
      else (Throw TypeError, w)
  | _, _ => (Throw TypeError, w)
  end.
Definition replaceChild (target node old : nat) : M (world R) unit := λ w,
  match find_in node (forest _ w), find_in target (forest _ w), find_in old (forest _ w) with
  | Some t, Some p, Some o =>
      if negb (has_kid old (kids_of p)) || bool_decide (target ∈ ids t) then (Throw TypeError, w)
      else if node =? old then (Ok tt, w)
      else
        let o' := default o (head (taken t [o])) in
        (Ok tt, with_forest (o' :: (graft InsteadOf old (moved t) <$> taken t (forest _ w))) w)
  | _, _, _ => (Throw TypeError, w)
  end.
Definition parentNode (x : nat) : M (world R) (option nat) := λ w, (Ok (parent_in x (forest _ w)), w).
Definition childNodes (x : nat) (w : world R) : list nat :=
  match find_in x (forest _ w) with Some t => id_of <$> kids_of t | None => [] end.

(** [cloneNode(true)]: the same tree of new nodes. *)
Fixpoint copy (t : tree) (n : nat) : tree * nat :=
  let '(Tree _ i ks) := t in
  let go := fix go (ks : list tree) (n : nat) : list tree * nat :=
    match ks with
    | [] => ([], n)
    | k :: ks => let '(k', n) := copy k n in let '(ks', n) := go ks n in (k' :: ks', n)
    end in
  let '(ks', m) := go ks (S n) in (Tree n i ks', m).
Definition cloneNode (x : nat) : M (world R) nat := λ w,
  match find_in x (forest _ w) with
  | Some t =>
      let '(t', n) := copy t (fresh _ w) in
      (Ok (id_of t'), World _ (t' :: forest _ w) n (rest _ w))
  | None => (Throw TypeError, w)
  end.
Definition createNode (i : I) : M (world R) nat := λ w,
  (Ok (fresh _ w), World _ (Tree (fresh _ w) i [] :: forest _ w) (S (fresh _ w)) (rest _ w)).
End forest.
Arguments tree : clear implicits.
Arguments world : clear implicits.
Arguments World {I R} _ _ _.
Arguments forest {I R} _. Arguments fresh {I R} _. Arguments rest {I R} _.
End Forest.

Module ForestFacts.
Import Forest.

Section facts.
Context {I : Type}.
Local Abbreviation tree := (tree I).
Implicit Types (t k u v : tree) (f ks : list tree).

Lemma bind_keep {A} (g : A → list A) l : (∀ a, a ∈ l → g a = [a]) → l ≫= g = l.
Proof.
  induction l as [|a l IH]; intros H; [done|]. cbn. rewrite (H a) by constructor. cbn. f_equal. apply IH.
  intros b Hb. apply H. by constructor.
Qed.
Lemma bind_ext_in {A B} (g h : A → list B) l : (∀ a, a ∈ l → g a = h a) → l ≫= g = l ≫= h.
Proof.
  induction l as [|a l IH]; intros H; [done|]. cbn. rewrite (H a) by constructor. f_equal. apply IH.
  intros b Hb. apply H. by constructor.
Qed.
Lemma bind_fmap_keep {A} (g : A → A) l : l ≫= (λ a, [g a]) = g <$> l.
Proof. induction l as [|a l IH]; [done|]. cbn. by f_equal. Qed.

(** ** The nodes of a forest *)

Lemma ids_tree i n ks : ids (Tree i n ks) = i :: all_ids ks.
Proof. done. Qed.
Lemma all_ids_app f g : all_ids (f ++ g) = all_ids f ++ all_ids g.
Proof. apply bind_app. Qed.
Lemma all_ids_cons t f : all_ids (t :: f) = ids t ++ all_ids f.
Proof. done. Qed.
Lemma in_all_ids x f : x ∈ all_ids f ↔ ∃ t, t ∈ f ∧ x ∈ ids t.
Proof. unfold all_ids. rewrite list_elem_of_bind. naive_solver. Qed.
Lemma id_in_ids t : id_of t ∈ ids t.
Proof. destruct t. by constructor. Qed.
Lemma kid_in_ids k ks : k ∈ ks → id_of k ∈ all_ids ks.
Proof. intros Hk. apply in_all_ids. exists k. split; [done|apply id_in_ids]. Qed.
Lemma NoDup_ids_in f t : NoDup (all_ids f) → t ∈ f → NoDup (ids t).
Proof.
  intros Hd (f1 & f2 & ->)%list_elem_of_split. rewrite all_ids_app, all_ids_cons in Hd.
  apply NoDup_app in Hd as (_ & _ & [Hd _]%NoDup_app). done.
Qed.
Lemma NoDup_ids_kids i n ks : NoDup (ids (Tree i n ks)) → (i ∉ all_ids ks) ∧ NoDup (all_ids ks).
Proof. by intros [??]%NoDup_cons. Qed.
(** Different trees of a forest have no node in common. *)
Lemma same_tree f t t' x : NoDup (all_ids f) → t ∈ f → t' ∈ f → x ∈ ids t → x ∈ ids t' → t = t'.
Proof.
  intros Hd (f1 & f2 & ->)%list_elem_of_split. rewrite all_ids_app, all_ids_cons in Hd.
  apply NoDup_app in Hd as (_ & H1 & (_ & H2 & _)%NoDup_app).
  intros [Ht|[->|Ht]%elem_of_cons]%elem_of_app Hx Hx'; [|done|].
  - exfalso. apply (H1 x); [apply in_all_ids; by exists t'|]. apply elem_of_app. by left.
  - exfalso. apply (H2 x Hx). apply in_all_ids. by exists t'.
Qed.

(** ** Grafting *)

Lemma graft_absent pl x new t : x ∉ ids t → graft pl x new t = t.
Proof.
  induction t as [i n ks IH] using tree_nested_ind. rewrite ids_tree. intros [Hi Hk]%not_elem_of_cons.
  cbn [graft]. rewrite (proj2 (Nat.eqb_neq i x)) by done. f_equal. apply bind_keep. intros k Hin.
  assert (x ∉ ids k) as Hx by (intros Hx; apply Hk, in_all_ids; by exists k).
  rewrite (proj2 (Nat.eqb_neq (id_of k) x)).
  - f_equal. rewrite Forall_forall in IH. by apply IH.
  - intros E. apply Hx. rewrite <- E. apply id_in_ids.
Qed.
Lemma graft_all_absent pl x new f : x ∉ all_ids f → graft pl x new <$> f = f.
Proof.
  intros Hx. etransitivity; [|apply list_fmap_id]. apply list_fmap_ext. intros j t Ht.
  apply graft_absent. intros Hin. apply Hx, in_all_ids. exists t. split; [|done]. by eapply list_elem_of_lookup_2.
Qed.
Lemma id_of_graft pl x new t : id_of (graft pl x new t) = id_of t.
Proof. by destruct t. Qed.
Lemma info_of_graft pl x new t : info_of (graft pl x new t) = info_of t.
Proof. by destruct t. Qed.
Lemma prune_app x f g : prune x (f ++ g) = prune x f ++ prune x g.
Proof. apply bind_app. Qed.
Lemma prune_cons x t f : prune x (t :: f) = (if id_of t =? x then [] else [graft InsteadOf x [] t]) ++ prune x f.
Proof. done. Qed.
Lemma prune_absent x f : x ∉ all_ids f → prune x f = f.
Proof.
  intros Hx. apply bind_keep. intros t Ht. assert (x ∉ ids t) as Hn by (intros H; apply Hx, in_all_ids; by exists t).
  rewrite (proj2 (Nat.eqb_neq (id_of t) x)).
  - by rewrite graft_absent.
  - intros E. apply Hn. rewrite <- E. apply id_in_ids.
Qed.
(** The children of a node whose number is not that of the place. *)
Lemma graft_other pl x new i n ks : i ≠ x →
  graft pl x new (Tree i n ks) =
    Tree i n (ks ≫= λ k, if id_of k =? x then
        match pl with BeforeIt => new ++ [graft pl x new k] | AfterIt => (graft pl x new k :: new) | InsteadOf => new | _ => [graft pl x new k] end
      else [graft pl x new k]).
Proof. intros Hi. cbn [graft]. by rewrite (proj2 (Nat.eqb_neq i x)). Qed.
Lemma graft_prune x t : id_of t ≠ x → graft InsteadOf x [] t = Tree (id_of t) (info_of t) (prune x (kids_of t)).
Proof. intros Hi. destruct t as [i n ks]. by apply graft_other. Qed.
(** At the node itself. *)
Lemma graft_here pl x new n ks : x ∉ all_ids ks →
  graft pl x new (Tree x n ks) =
    Tree x n (match pl with FirstOf => new ++ ks | LastOf => ks ++ new | Within => new | _ => ks end).
Proof.
  intros Hx. cbn [graft]. rewrite Nat.eqb_refl.
  assert (E : ∀ g, (∀ k, g k = graft pl x new k) → (ks ≫= λ k, if id_of k =? x then
      match pl with BeforeIt => new ++ [g k] | AfterIt => (g k :: new) | InsteadOf => new | _ => [g k] end
    else [g k]) = ks).
  { intros g Hg. apply bind_keep. intros k Hk. rewrite (proj2 (Nat.eqb_neq (id_of k) x)).
    - rewrite Hg. f_equal. apply graft_absent. intros H. apply Hx, in_all_ids. by exists k.
    - intros <-. apply Hx. by apply kid_in_ids. }
  rewrite (E (graft pl x new)) by done. done.
Qed.

(** Grafting below a node that is not the one of the place. *)
Definition graft_kids (pl : place) (x : nat) (new : list tree) (ks : list tree) : list tree :=
  ks ≫= λ k,
    if id_of k =? x then
      match pl with
      | BeforeIt => new ++ [graft pl x new k]
      | AfterIt => graft pl x new k :: new
      | InsteadOf => new
      | _ => [graft pl x new k]
      end
    else [graft pl x new k].
Lemma graft_kids_app pl x new f g : graft_kids pl x new (f ++ g) = graft_kids pl x new f ++ graft_kids pl x new g.
Proof. apply bind_app. Qed.
Lemma graft_below pl x new i n ks : i ≠ x → graft pl x new (Tree i n ks) = Tree i n (graft_kids pl x new ks).
Proof. apply graft_other. Qed.
Lemma prune_kids x f : prune x f = graft_kids InsteadOf x [] f.
Proof. done. Qed.
Lemma graft_kids_absent pl x new f : x ∉ all_ids f → graft_kids pl x new f = f.
Proof.
  intros Hx. apply bind_keep. intros t Ht.
  assert (x ∉ ids t) as Hn by (intros H; apply Hx, in_all_ids; by exists t).
  rewrite (proj2 (Nat.eqb_neq (id_of t) x)).
  - by rewrite graft_absent.
  - intros E. apply Hn. rewrite <- E. apply id_in_ids.
Qed.
(** Trees whose roots are not the node. *)
Lemma graft_kids_roots pl x new f : x ∉ id_of <$> f → graft_kids pl x new f = graft pl x new <$> f.
Proof.
  intros Hx. unfold graft_kids. rewrite <- bind_fmap_keep. apply bind_ext_in. intros k Hk.
  rewrite (proj2 (Nat.eqb_neq (id_of k) x)); [done|]. intros <-. apply Hx. by apply list_elem_of_fmap_2.
Qed.
Lemma graft_kids_child pl x new f : pl = FirstOf ∨ pl = LastOf ∨ pl = Within → graft_kids pl x new f = graft pl x new <$> f.
Proof.
  intros Hp. unfold graft_kids. rewrite <- bind_fmap_keep. apply bind_ext_in. intros k _.
  destruct (id_of k =? x); [|done]. by destruct Hp as [->|[->| ->]].
Qed.

(** A node of a forest is in one of its trees. *)
Lemma split_at x f : NoDup (all_ids f) → x ∈ all_ids f →
  ∃ f1 t f2, f = f1 ++ t :: f2 ∧ x ∈ ids t ∧ (x ∉ all_ids f1) ∧ x ∉ all_ids f2.
Proof.
  intros Hd (t & (f1 & f2 & ->)%list_elem_of_split & Hx)%in_all_ids. exists f1, t, f2. split; [done|].
  rewrite all_ids_app, all_ids_cons in Hd. apply NoDup_app in Hd as (_ & H1 & (_ & H2 & _)%NoDup_app).
  split; [done|]. split; [|by apply H2]. intros H. apply (H1 x H). apply elem_of_app. by left.
Qed.

Definition inserts (pl : place) : bool := match pl with InsteadOf | Within => false | _ => true end.
Definition beside (pl : place) : bool := match pl with BeforeIt | AfterIt | InsteadOf => true | _ => false end.

Lemma ids_graft pl x new t :
  inserts pl = true → NoDup (ids t) → x ∈ ids t → (beside pl = true → id_of t ≠ x) →
  ids (graft pl x new t) ≡ₚ ids t ++ all_ids new.
Proof.
  intros Hp. induction t as [i n ks IH] using tree_nested_ind. intros [Hi Hd]%NoDup_ids_kids Hx Hb.
  destruct (decide (i = x)) as [->|Hne].
  - rewrite graft_here by done. rewrite !ids_tree.
    destruct pl; try done; try (by destruct (Hb eq_refl)); rewrite all_ids_app; cbn [app]; solve_Permutation.
  - rewrite graft_below by done. rewrite !ids_tree. cbn [app]. f_equiv.
    rewrite ids_tree in Hx. apply elem_of_cons in Hx as [?|Hx]; [done|].
    destruct (split_at x ks Hd Hx) as (k1 & k & k2 & -> & Hk & H1 & H2).
    rewrite graft_kids_app. change (k :: k2) with ([k] ++ k2). rewrite graft_kids_app.
    rewrite (graft_kids_absent _ _ _ k1), (graft_kids_absent _ _ _ k2) by done.
    rewrite !all_ids_app. cut (all_ids (graft_kids pl x new [k]) ≡ₚ all_ids [k] ++ all_ids new).
    { intros ->. solve_Permutation. }
    assert (NoDup (ids k)) as Hdk by (eapply NoDup_ids_in; [exact Hd|apply elem_of_app; right; constructor]).
    unfold graft_kids. cbn [mbind list_bind]. rewrite app_nil_r.
    destruct (id_of k =? x) eqn:E.
    + apply Nat.eqb_eq in E. destruct k as [j m kk]. cbn in E. subst j.
      apply NoDup_ids_kids in Hdk as [Hk' _].
      rewrite (graft_here pl) by done. destruct pl; try done; rewrite ?all_ids_app, ?all_ids_cons, ?ids_tree, ?all_ids_app;
        cbn [all_ids mbind list_bind]; rewrite ?app_nil_r; try done; solve_Permutation.
    + apply Nat.eqb_neq in E. rewrite Forall_forall in IH. cbn. rewrite !app_nil_r. apply IH; try done.
      apply elem_of_app. right. constructor.
Qed.

Lemma all_ids_graft pl x new f :
  inserts pl = true → NoDup (all_ids f) → x ∈ all_ids f → (beside pl = true → x ∉ id_of <$> f) →
  all_ids (graft pl x new <$> f) ≡ₚ all_ids f ++ all_ids new.
Proof.
  intros Hp Hd Hx Hb. destruct (split_at x f Hd Hx) as (f1 & t & f2 & -> & Ht & H1 & H2).
  rewrite fmap_app, fmap_cons, (graft_all_absent _ _ _ f1), (graft_all_absent _ _ _ f2) by done.
  rewrite !all_ids_app, !all_ids_cons, (ids_graft pl); try done.
  - solve_Permutation.
  - eapply NoDup_ids_in; [exact Hd|]. apply elem_of_app. right. constructor.
  - intros Hbe Hid. apply (Hb Hbe). rewrite fmap_app, elem_of_app, fmap_cons, elem_of_cons. auto.
Qed.

(** ** Finding a node *)

Definition all_nodes (f : list tree) : list tree := f ≫= nodes.
Lemma nodes_tree i n ks : nodes (Tree i n ks) = Tree i n ks :: all_nodes ks.
Proof. done. Qed.
Lemma in_all_nodes u f : u ∈ all_nodes f ↔ ∃ t, t ∈ f ∧ u ∈ nodes t.
Proof. unfold all_nodes. rewrite list_elem_of_bind. naive_solver. Qed.
Lemma all_nodes_app f g : all_nodes (f ++ g) = all_nodes f ++ all_nodes g.
Proof. apply bind_app. Qed.
Lemma nodes_ids t : id_of <$> nodes t = ids t.
Proof.
  induction t as [i n ks IH] using tree_nested_ind. rewrite nodes_tree, ids_tree. cbn [fmap list_fmap id_of]. f_equal.
  induction ks as [|k ks IHk]; [done|]. apply Forall_cons in IH as [Hk IH].
  unfold all_nodes. cbn [mbind list_bind]. rewrite fmap_app, Hk, all_ids_cons. f_equal. by apply IHk.
Qed.
Lemma all_nodes_ids f : id_of <$> all_nodes f = all_ids f.
Proof.
  induction f as [|t f IH]; [done|]. unfold all_nodes. cbn [mbind list_bind]. rewrite fmap_app, nodes_ids, all_ids_cons. f_equal. apply IH.
Qed.
Lemma node_unique f u v : NoDup (all_ids f) → u ∈ all_nodes f → v ∈ all_nodes f → id_of u = id_of v → u = v.
Proof.
  intros Hd (i & Hi)%list_elem_of_lookup_1 (j & Hj)%list_elem_of_lookup_1 E. rewrite <- all_nodes_ids in Hd.
  enough (i = j) as -> by congruence. eapply NoDup_lookup; [exact Hd| |].
  - rewrite list_lookup_fmap, Hi. done.
  - rewrite list_lookup_fmap, Hj. cbn. by rewrite E.
Qed.

Lemma head_omap_some {A B} (g : A → option B) l b : head (omap g l) = Some b → ∃ a, a ∈ l ∧ g a = Some b.
Proof.
  intros H. assert (b ∈ omap g l) as Hb by (destruct (omap g l); [done|injection H as ->; constructor]).
  by apply list_elem_of_omap in Hb.
Qed.
Lemma head_omap_none {A B} (g : A → option B) l : head (omap g l) = None → ∀ a, a ∈ l → g a = None.
Proof.
  intros H a Ha. destruct (g a) as [b|] eqn:E; [|done].
  assert (b ∈ omap g l) as Hb by (apply list_elem_of_omap; eauto). destruct (omap g l); [by apply not_elem_of_nil in Hb|done].
Qed.
Lemma find_some x t u : find x t = Some u → u ∈ nodes t ∧ id_of u = x.
Proof.
  induction t as [i n ks IH] using tree_nested_ind. cbn [find]. destruct (i =? x) eqn:E.
  - intros [= <-]. split; [constructor|]. by apply Nat.eqb_eq.
  - intros (k & Hk & Hf)%head_omap_some. rewrite Forall_forall in IH. destruct (IH k Hk Hf) as [Hu ->].
    split; [|done]. rewrite nodes_tree. right. apply in_all_nodes. by exists k.
Qed.
Lemma find_none x t : find x t = None → x ∉ ids t.
Proof.
  induction t as [i n ks IH] using tree_nested_ind. cbn [find]. destruct (i =? x) eqn:E; [done|].
  intros H. rewrite ids_tree. intros [->|(k & Hk & Hx)%in_all_ids]%elem_of_cons.
  - by rewrite Nat.eqb_refl in E.
  - rewrite Forall_forall in IH. apply (IH k Hk); [|done]. by apply (head_omap_none _ _ H).
Qed.
Lemma find_in_some x f u : find_in x f = Some u → u ∈ all_nodes f ∧ id_of u = x.
Proof.
  intros (t & Ht & Hf)%head_omap_some. apply find_some in Hf as [Hu ->]. split; [|done]. apply in_all_nodes. by exists t.
Qed.
Lemma find_in_none x f : find_in x f = None → x ∉ all_ids f.
Proof. intros H (t & Ht & Hx)%in_all_ids. by apply (find_none x t (head_omap_none _ _ H t Ht)). Qed.
Lemma find_in_iff x f u : NoDup (all_ids f) → find_in x f = Some u ↔ u ∈ all_nodes f ∧ id_of u = x.
Proof.
  intros Hd. split; [apply find_in_some|]. intros [Hu Hx]. destruct (find_in x f) as [v|] eqn:E.
  - apply find_in_some in E as [Hv Ev]. f_equal. apply (node_unique f); [done..|congruence].
  - exfalso. apply find_in_none in E. apply E. rewrite <- all_nodes_ids, <- Hx. by apply list_elem_of_fmap_2.
Qed.
Lemma find_in_is x f : x ∈ all_ids f → ∃ u, find_in x f = Some u.
Proof. intros Hx. destruct (find_in x f) as [u|] eqn:E; [eauto|]. by apply find_in_none in E. Qed.
(** The nodes below a node are nodes of the forest. *)
Lemma nodes_trans u v t : u ∈ nodes v → v ∈ nodes t → u ∈ nodes t.
Proof.
  intros Hu. induction t as [i n ks IH] using tree_nested_ind. rewrite nodes_tree.
  intros [->|(k & Hk & Hv)%in_all_nodes]%elem_of_cons.
  - by rewrite nodes_tree in Hu.
  - right. apply in_all_nodes. exists k. split; [done|]. rewrite Forall_forall in IH. by apply IH.
Qed.
Lemma ids_trans u t x : u ∈ nodes t → x ∈ ids u → x ∈ ids t.
Proof.
  intros Hu Hx. rewrite <- nodes_ids in Hx. apply list_elem_of_fmap in Hx as (v & -> & Hv). rewrite <- nodes_ids.
  apply list_elem_of_fmap_2. by eapply nodes_trans.
Qed.
Lemma all_nodes_trans u v f : u ∈ nodes v → v ∈ all_nodes f → u ∈ all_nodes f.
Proof. intros Hu (t & Ht & Hv)%in_all_nodes. apply in_all_nodes. exists t. split; [done|]. by eapply nodes_trans. Qed.
Lemma NoDup_node f u : NoDup (all_ids f) → u ∈ all_nodes f → NoDup (ids u).
Proof.
  intros Hd (t & Ht & Hu)%in_all_nodes. assert (NoDup (ids t)) as Hdt by (by eapply NoDup_ids_in).
  clear Hd Ht f. induction t as [i n ks IH] using tree_nested_ind. rewrite nodes_tree in Hu.
  apply elem_of_cons in Hu as [->|(k & Hk & Hu)%in_all_nodes]; [done|]. rewrite Forall_forall in IH.
  apply (IH k Hk Hu). apply NoDup_ids_kids in Hdt as [_ Hdt]. by eapply NoDup_ids_in.
Qed.
Lemma node_ids f u x : u ∈ all_nodes f → x ∈ ids u → x ∈ all_ids f.
Proof.
  intros Hu Hx. rewrite <- nodes_ids in Hx. apply list_elem_of_fmap in Hx as (v & -> & Hv).
  rewrite <- all_nodes_ids. apply list_elem_of_fmap_2. by eapply all_nodes_trans.
Qed.

(** ** Taking a tree out *)

Lemma graft_instead_ids x t u :
  NoDup (ids t) → find x t = Some u → id_of t ≠ x → ids t ≡ₚ ids u ++ ids (graft InsteadOf x [] t).
Proof.
  induction t as [i n ks IH] using tree_nested_ind. intros [Hi Hd]%NoDup_ids_kids Hf Hne. cbn in Hne.
  rewrite graft_below by done. rewrite !ids_tree. cbn [find] in Hf. rewrite (proj2 (Nat.eqb_neq i x)) in Hf by done.
  apply head_omap_some in Hf as (k & Hk & Hf). pose proof (find_some _ _ _ Hf) as [Hu Hxu].
  assert (x ∈ ids k) as Hxk by (rewrite <- nodes_ids, <- Hxu; by apply list_elem_of_fmap_2).
  assert (x ∈ all_ids ks) as Hx by (apply in_all_ids; by exists k).
  destruct (split_at x ks Hd Hx) as (k1 & k' & k2 & -> & Hk' & H1 & H2).
  assert (k' = k) as -> by (apply (same_tree _ k' k x Hd); [apply elem_of_app; right; constructor|done..]).
  rewrite graft_kids_app. change (k :: k2) with ([k] ++ k2). rewrite graft_kids_app.
  rewrite (graft_kids_absent _ _ _ k1), (graft_kids_absent _ _ _ k2) by done. rewrite !all_ids_app.
  cut (all_ids [k] ≡ₚ ids u ++ all_ids (graft_kids InsteadOf x [] [k])).
  { intros ->. solve_Permutation. }
  unfold graft_kids. cbn [mbind list_bind all_ids]. rewrite !app_nil_r. destruct (id_of k =? x) eqn:E.
  - destruct k as [j m kk]. cbn in E, Hf. rewrite E in Hf. injection Hf as <-. by rewrite app_nil_r.
  - rewrite Forall_forall in IH. cbn. rewrite app_nil_r. apply IH; [done| |done|by apply Nat.eqb_neq].
    eapply NoDup_ids_in; [exact Hd|]. done.
Qed.
Lemma prune_ids x f u : NoDup (all_ids f) → find_in x f = Some u → all_ids f ≡ₚ ids u ++ all_ids (prune x f).
Proof.
  intros Hd Hf. pose proof (find_in_some _ _ _ Hf) as [Hu Hxu].
  assert (x ∈ all_ids f) as Hx by (rewrite <- all_nodes_ids, <- Hxu; by apply list_elem_of_fmap_2).
  destruct (split_at x f Hd Hx) as (f1 & t & f2 & -> & Ht & H1 & H2).
  rewrite prune_app, prune_cons, (prune_absent _ f1), (prune_absent _ f2) by done.
  rewrite !all_ids_app, all_ids_cons.
  assert (NoDup (ids t)) as Hdt by (eapply NoDup_ids_in; [exact Hd|apply elem_of_app; right; constructor]).
  assert (find x t = Some u) as Hft.
  { destruct (find x t) as [v|] eqn:E; [|by apply find_none in E]. f_equal. apply find_some in E as [Hv Ev].
    apply (node_unique _ v u Hd); [|done|congruence]. apply in_all_nodes. exists t. split; [|done].
    apply elem_of_app. right. constructor. }
  destruct (id_of t =? x) eqn:E.
  - destruct t as [j m kk]. cbn in E, Hft. rewrite E in Hft. injection Hft as <-. cbn. solve_Permutation.
  - apply Nat.eqb_neq in E. rewrite (graft_instead_ids x t u Hdt Hft E). cbn. rewrite app_nil_r. solve_Permutation.
Qed.
Lemma prune_NoDup x f : NoDup (all_ids f) → NoDup (all_ids (prune x f)).
Proof.
  intros Hd. destruct (find_in x f) as [u|] eqn:E.
  - rewrite (prune_ids x f u Hd E) in Hd. by apply NoDup_app in Hd as (_ & _ & Hd).
  - by rewrite prune_absent by (by apply find_in_none).
Qed.
Lemma in_prune_ids x f u y :
  NoDup (all_ids f) → find_in x f = Some u → y ∈ all_ids (prune x f) ↔ y ∈ all_ids f ∧ y ∉ ids u.
Proof.
  intros Hd Hf. pose proof (prune_ids x f u Hd Hf) as Hp. rewrite Hp in Hd |- *.
  apply NoDup_app in Hd as (_ & H & _). rewrite elem_of_app. naive_solver.
Qed.

(** The nodes that stay, with what is left of them. *)
Lemma node_graft_kids pl x new v f :
  (inserts pl = false → ∀ u, u ∈ all_nodes f → id_of u = x → v ∉ nodes u) →
  v ∈ all_nodes f → graft pl x new v ∈ all_nodes (graft_kids pl x new f).
Proof.
  intros Hn (t & Ht & Hv)%in_all_nodes.
  assert (Hlist : ∀ t f, t ∈ f → (pl = InsteadOf → id_of t ≠ x) → graft pl x new t ∈ graft_kids pl x new f).
  { clear. intros t f Ht Hi. apply list_elem_of_bind. exists t. split; [|done]. destruct (id_of t =? x) eqn:E.
    - apply Nat.eqb_eq in E. destruct pl; try by apply list_elem_of_singleton.
      + apply elem_of_app. right. by apply list_elem_of_singleton.
      + by constructor.
      + by destruct (Hi eq_refl).
    - by apply list_elem_of_singleton. }
  assert (Hroot : pl = InsteadOf → id_of t ≠ x).
  { intros -> E. apply (Hn eq_refl t); [|done..]. apply in_all_nodes. exists t. split; [done|]. by destruct t; constructor. }
  apply in_all_nodes. exists (graft pl x new t). split; [by apply Hlist|].
  assert (Hnt : inserts pl = false → ∀ u, u ∈ nodes t → id_of u = x → v ∉ nodes u).
  { intros Hp u Hu. apply Hn; [done|]. apply in_all_nodes. by exists t. }
  clear Hn Ht Hroot f. induction t as [i n ks IH] using tree_nested_ind. pose proof Hv as Hv0. rewrite nodes_tree in Hv.
  apply elem_of_cons in Hv as [->|(k & Hk & Hv)%in_all_nodes].
  - cbn [graft]. by constructor.
  - rewrite Forall_forall in IH.
    assert (graft pl x new v ∈ all_nodes (graft_kids pl x new ks)) as Hin.
    { apply in_all_nodes. exists (graft pl x new k). split.
      - apply Hlist; [done|]. intros -> E. apply (Hnt eq_refl k); [|done..].
        rewrite nodes_tree. right. apply in_all_nodes. exists k. split; [done|]. by destruct k; constructor.
      - apply IH; [done..|]. intros Hp u Hu. apply Hnt; [done|]. rewrite nodes_tree. right. apply in_all_nodes. by exists k. }
    destruct (decide (i = x)) as [->|Hne].
    + assert (inserts pl ≠ false) as Hi by (intros Hp; apply (Hnt Hp (Tree x n ks)); [constructor|done..]).
      cbn [graft]. rewrite Nat.eqb_refl. change (graft pl x new v ∈ nodes (Tree x n
        match pl with FirstOf => new ++ graft_kids pl x new ks | LastOf => graft_kids pl x new ks ++ new
        | Within => new | _ => graft_kids pl x new ks end)).
      rewrite nodes_tree. right. destruct pl; try done; rewrite ?all_nodes_app, ?elem_of_app; auto.
    + rewrite graft_below by done. rewrite nodes_tree. by right.
Qed.
Lemma node_prune x f u v :
  NoDup (all_ids f) → find_in x f = Some u → v ∈ all_nodes f → id_of v ∉ ids u →
  graft InsteadOf x [] v ∈ all_nodes (prune x f).
Proof.
  intros Hd Hf Hv Hn. apply node_graft_kids; [|done].
  intros _ w Hw E Hvw. apply Hn. assert (find_in x f = Some w) as Hfw by (by apply find_in_iff).
  rewrite Hfw in Hf. injection Hf as ->. rewrite <- nodes_ids. by apply list_elem_of_fmap_2.
Qed.
Lemma node_graft pl x new v f :
  inserts pl = true → (beside pl = true → x ∉ id_of <$> f) → v ∈ all_nodes f →
  graft pl x new v ∈ all_nodes (graft pl x new <$> f).
Proof.
  intros Hp Hb Hv. assert (graft pl x new <$> f = graft_kids pl x new f) as ->.
  { symmetry. destruct (beside pl) eqn:E; [apply graft_kids_roots; auto|].
    apply graft_kids_child. destruct pl; auto; done. }
  apply node_graft_kids; [by destruct pl|done].
Qed.
(** Finding in what is left, and in what is extended. *)
Lemma find_prune x y f u v :
  NoDup (all_ids f) → find_in x f = Some u → find_in y f = Some v → y ∉ ids u →
  find_in y (prune x f) = Some (graft InsteadOf x [] v).
Proof.
  intros Hd Hx Hy Hn. apply find_in_some in Hy as [Hv <-].
  apply find_in_iff; [by apply prune_NoDup|]. split; [by eapply node_prune|apply id_of_graft].
Qed.
Lemma find_graft pl x new y f v :
  inserts pl = true → NoDup (all_ids f ++ all_ids new) → x ∈ all_ids f → (beside pl = true → x ∉ id_of <$> f) →
  find_in y f = Some v → find_in y (graft pl x new <$> f) = Some (graft pl x new v).
Proof.
  intros Hp Hd Hx Hb Hy. apply find_in_some in Hy as [Hv <-]. apply find_in_iff.
  - rewrite all_ids_graft; try done. by apply NoDup_app in Hd as (? & _).
  - split; [by apply node_graft|apply id_of_graft].
Qed.

(** ** Places that are the same *)

(** Beside a child. *)
Lemma graft_at_child pl p n l1 k l2 new :
  beside pl = true → NoDup (ids (Tree p n (l1 ++ k :: l2))) →
  graft pl (id_of k) new (Tree p n (l1 ++ k :: l2)) =
    Tree p n (l1 ++ (match pl with BeforeIt => new ++ [k] | AfterIt => k :: new | _ => new end) ++ l2).
Proof.
  intros Hb [Hp Hd]%NoDup_ids_kids. rewrite graft_below.
  2: { intros ->. apply Hp. rewrite all_ids_app, all_ids_cons. apply elem_of_app. right. apply elem_of_app. left. apply id_in_ids. }
  rewrite all_ids_app, all_ids_cons in Hd. apply NoDup_app in Hd as (_ & H1 & (Hk & H2 & _)%NoDup_app).
  rewrite graft_kids_app. change (k :: l2) with ([k] ++ l2). rewrite graft_kids_app.
  rewrite (graft_kids_absent _ _ _ l1), (graft_kids_absent _ _ _ l2).
  - unfold graft_kids. cbn [mbind list_bind]. rewrite Nat.eqb_refl, app_nil_r.
    destruct k as [j m kk]. apply NoDup_ids_kids in Hk as [Hj _]. cbn [id_of].
    destruct pl; try done; by rewrite graft_here.
  - apply H2, id_in_ids.
  - intros H. apply (H1 _ H). apply elem_of_app. left. apply id_in_ids.
Qed.
(** Two places in the tree of a node that are the same there are the same in every tree
    that the node is in. *)
Lemma graft_switch pl1 x1 pl2 x2 new u t :
  NoDup (ids t) → u ∈ nodes t → x1 ∈ ids u → x2 ∈ ids u →
  (beside pl1 = true → x1 ≠ id_of u) → (beside pl2 = true → x2 ≠ id_of u) →
  graft pl1 x1 new u = graft pl2 x2 new u → graft pl1 x1 new t = graft pl2 x2 new t.
Proof.
  intros Hd Hu H1 H2 B1 B2 E. induction t as [i n ks IH] using tree_nested_ind. rewrite nodes_tree in Hu.
  apply elem_of_cons in Hu as [->|Hu]; [done|]. apply NoDup_ids_kids in Hd as [Hi Hd].
  assert (Hx : ∀ x, x ∈ ids u → x ∈ all_ids ks) by (intros x; by apply node_ids).
  rewrite !graft_below by (intros ->; apply Hi; by apply Hx). f_equal.
  apply in_all_nodes in Hu as (k & Hk & Hu).
  assert (Hn : ∀ x, x ∈ ids u → ∀ k', k' ∈ ks → k' ≠ k → x ∉ ids k').
  { intros x Hxu k' Hk' Hne Hx'. apply Hne. apply (same_tree ks k' k x); try done.
    rewrite <- nodes_ids in Hxu. apply list_elem_of_fmap in Hxu as (v & -> & Hv). rewrite <- nodes_ids.
    apply list_elem_of_fmap_2. by eapply nodes_trans. }
  assert (NoDup (ids k)) as Hdk by (by eapply NoDup_ids_in).
  assert (Hroot : ∀ x, x ∈ ids u → x ≠ id_of u → id_of k ≠ x).
  { intros x Hxu Hne <-. destruct k as [j m kk]. rewrite nodes_tree in Hu. apply elem_of_cons in Hu as [->|Hu]; [done|].
    apply NoDup_ids_kids in Hdk as [Hj _]. apply Hj. by eapply node_ids. }
  assert (Hone : ∀ pl x, x ∈ ids u → (beside pl = true → x ≠ id_of u) → ∀ k', k' ∈ ks →
     (if id_of k' =? x then
      match pl with
      | BeforeIt => new ++ [graft pl x new k']
      | AfterIt => graft pl x new k' :: new
      | InsteadOf => new
      | _ => [graft pl x new k']
      end
      else [graft pl x new k']) = [graft pl x new k']).
  { intros pl x Hxu Hb k' Hk'. destruct (id_of k' =? x) eqn:Ex; [|done]. apply Nat.eqb_eq in Ex.
    destruct (beside pl) eqn:Eb; [|by destruct pl]. exfalso.
    assert (k' = k) as ->.
    { apply (same_tree ks k' k x Hd Hk' Hk); [rewrite <- Ex; apply id_in_ids|by eapply ids_trans]. }
    by apply (Hroot x Hxu (Hb eq_refl)). }
  apply bind_ext_in. intros k' Hk'. rewrite !Hone by done. f_equal.
  rewrite Forall_forall in IH. destruct (decide (x1 ∈ ids k')) as [Hin|Hnin].
  - assert (k' = k) as ->; [|by apply IH]. apply (same_tree ks k' k x1); try done. by eapply ids_trans.
  - assert (k' ≠ k) as Hne.
    { intros ->. apply Hnin. by eapply ids_trans. }
    rewrite !graft_absent; [done|by apply (Hn x2)|done].
Qed.
Lemma graft_all_switch pl1 x1 pl2 x2 new u f :
  NoDup (all_ids f) → u ∈ all_nodes f → x1 ∈ ids u → x2 ∈ ids u →
  (beside pl1 = true → x1 ≠ id_of u) → (beside pl2 = true → x2 ≠ id_of u) →
  graft pl1 x1 new u = graft pl2 x2 new u → graft pl1 x1 new <$> f = graft pl2 x2 new <$> f.
Proof.
  intros Hd (t & (f1 & f2 & ->)%list_elem_of_split & Hu)%in_all_nodes H1 H2 B1 B2 E.
  assert (Hn : ∀ x, x ∈ ids u → (x ∉ all_ids f1) ∧ x ∉ all_ids f2).
  { intros x Hx. apply (ids_trans u t) in Hx; [|done]. rewrite all_ids_app, all_ids_cons in Hd.
    apply NoDup_app in Hd as (_ & D1 & (_ & D2 & _)%NoDup_app). split; [|by apply D2].
    intros H. apply (D1 x H). apply elem_of_app. by left. }
  rewrite !fmap_app, !fmap_cons, !(graft_all_absent _ _ _ f1), !(graft_all_absent _ _ _ f2) by naive_solver.
  f_equal. f_equal. eapply graft_switch; try done. eapply NoDup_ids_in; [exact Hd|]. apply elem_of_app. right. constructor.
Qed.

Lemma kid_is_node p n l1 k l2 : id_of k ∈ ids (Tree p n (l1 ++ k :: l2)).
Proof. rewrite ids_tree, all_ids_app, all_ids_cons. right. apply elem_of_app. right. apply elem_of_app. left. apply id_in_ids. Qed.
Lemma kid_not_root p n l1 k l2 : NoDup (ids (Tree p n (l1 ++ k :: l2))) → id_of k ≠ p.
Proof.
  intros [Hp _]%NoDup_ids_kids E. apply Hp. rewrite <- E, all_ids_app, all_ids_cons. apply elem_of_app. right.
  apply elem_of_app. left. apply id_in_ids.
Qed.
Lemma first_is_before p n k ks new f : NoDup (all_ids f) → Tree p n (k :: ks) ∈ all_nodes f →
  graft BeforeIt (id_of k) new <$> f = graft FirstOf p new <$> f.
Proof.
  intros Hd Hp. pose proof (NoDup_node _ _ Hd Hp) as Hdp.
  apply (graft_all_switch _ _ _ _ _ (Tree p n (k :: ks))); try done.
  - apply (kid_is_node p n []).
  - by constructor.
  - intros _. by apply (kid_not_root p n [] k ks).
  - rewrite (graft_at_child BeforeIt p n [] k ks) by done. apply NoDup_ids_kids in Hdp as [Hn _].
    rewrite graft_here by done. cbn. by rewrite <- (assoc_L (++)).
Qed.
Lemma first_is_last p n new f : NoDup (all_ids f) → Tree p n [] ∈ all_nodes f →
  graft LastOf p new <$> f = graft FirstOf p new <$> f.
Proof.
  intros Hd Hp. apply (graft_all_switch _ _ _ _ _ (Tree p n [])); try done; [by constructor..|].
  rewrite !graft_here by (by apply not_elem_of_nil). by rewrite app_nil_r.
Qed.
Lemma after_is_before p n l1 a b l2 new f : NoDup (all_ids f) → Tree p n (l1 ++ a :: b :: l2) ∈ all_nodes f →
  graft BeforeIt (id_of b) new <$> f = graft AfterIt (id_of a) new <$> f.
Proof.
  intros Hd Hp. pose proof (NoDup_node _ _ Hd Hp) as Hdp.
  assert (E : l1 ++ a :: b :: l2 = (l1 ++ [a]) ++ b :: l2) by (by rewrite <- (assoc_L (++))).
  apply (graft_all_switch _ _ _ _ _ (Tree p n (l1 ++ a :: b :: l2))); try done.
  - rewrite E. apply kid_is_node.
  - apply kid_is_node.
  - intros _. rewrite E in Hdp. by apply kid_not_root in Hdp.
  - intros _. by apply kid_not_root in Hdp.
  - rewrite (graft_at_child AfterIt) by done. rewrite E in Hdp |- *. rewrite graft_at_child by done.
    by rewrite <- !(assoc_L (++)).
Qed.
Lemma after_is_last p n l1 a new f : NoDup (all_ids f) → Tree p n (l1 ++ [a]) ∈ all_nodes f →
  graft LastOf p new <$> f = graft AfterIt (id_of a) new <$> f.
Proof.
  intros Hd Hp. pose proof (NoDup_node _ _ Hd Hp) as Hdp.
  apply (graft_all_switch _ _ _ _ _ (Tree p n (l1 ++ [a]))); try done.
  - by constructor.
  - apply kid_is_node.
  - intros _. by apply kid_not_root in Hdp.
  - rewrite (graft_at_child AfterIt) by done. apply NoDup_ids_kids in Hdp as [Hn _]. rewrite graft_here by done.
    by rewrite <- !(assoc_L (++)), app_nil_r.
Qed.

(** ** Parents and siblings *)

Lemma has_kid_spec x ks : has_kid x ks = true ↔ x ∈ id_of <$> ks.
Proof.
  unfold has_kid. rewrite existsb_exists, list_elem_of_fmap. split.
  - intros (k & Hk & E%Nat.eqb_eq). exists k. split; [done|]. by apply list_elem_of_In.
  - intros (k & -> & Hk). exists k. split; [by apply list_elem_of_In|apply Nat.eqb_refl].
Qed.
Lemma parent_some x t p : parent x t = Some p → ∃ n l1 k l2, Tree p n (l1 ++ k :: l2) ∈ nodes t ∧ id_of k = x.
Proof.
  induction t as [i n ks IH] using tree_nested_ind. cbn [parent]. destruct (has_kid x ks) eqn:E.
  - intros [= <-]. apply has_kid_spec, list_elem_of_fmap in E as (k & -> & (l1 & l2 & ->)%list_elem_of_split).
    exists n, l1, k, l2. split; [constructor|done].
  - intros (k & Hk & Hp)%head_omap_some. rewrite Forall_forall in IH. destruct (IH k Hk Hp) as (m & l1 & c & l2 & Hin & Hc).
    exists m, l1, c, l2. split; [|done]. rewrite nodes_tree. right. apply in_all_nodes. by exists k.
Qed.
Lemma parent_in_some x f p : parent_in x f = Some p → ∃ n l1 k l2, Tree p n (l1 ++ k :: l2) ∈ all_nodes f ∧ id_of k = x.
Proof.
  intros (t & Ht & (n & l1 & k & l2 & Hin & Hk)%parent_some)%head_omap_some. exists n, l1, k, l2. split; [|done].
  apply in_all_nodes. by exists t.
Qed.
Lemma parent_none x t : parent x t = None → x ∈ ids t → x = id_of t.
Proof.
  induction t as [i n ks IH] using tree_nested_ind. cbn [parent]. destruct (has_kid x ks) eqn:E; [done|].
  intros Hn [->|(k & Hk & Hx)%in_all_ids]%elem_of_cons; [done|]. exfalso.
  rewrite Forall_forall in IH. assert (x = id_of k) as -> by (apply IH; [done| |done]; by apply (head_omap_none _ _ Hn)).
  apply not_true_iff_false in E. apply E, has_kid_spec. by apply list_elem_of_fmap_2.
Qed.
Lemma parent_in_none x f : parent_in x f = None → x ∈ all_ids f → x ∈ id_of <$> f.
Proof.
  intros Hn (t & Ht & Hx)%in_all_ids. apply parent_none in Hx as ->; [by apply list_elem_of_fmap_2|].
  by apply (head_omap_none _ _ Hn).
Qed.
Lemma parent_in_not_root x f p : NoDup (all_ids f) → parent_in x f = Some p → x ∉ id_of <$> f.
Proof.
  intros Hd (n & l1 & k & l2 & Hin & <-)%parent_in_some (t & E & Ht)%list_elem_of_fmap.
  pose proof Hin as (t' & Ht' & Hin')%in_all_nodes.
  assert (id_of k ∈ ids t') as Hk by (eapply ids_trans; [exact Hin'|apply kid_is_node]).
  assert (t' = t) as -> by (apply (same_tree f t' t (id_of k) Hd Ht' Ht Hk); rewrite E; apply id_in_ids).
  pose proof (NoDup_ids_in _ _ Hd Ht) as Hdt. destruct t as [i m kk]. cbn in E. rewrite nodes_tree in Hin'.
  apply NoDup_ids_kids in Hdt as [Hi Hdt]. apply elem_of_cons in Hin' as [[= <- <- <-]|Hin'].
  - apply Hi. rewrite <- E. rewrite all_ids_app, all_ids_cons. apply elem_of_app. right. apply elem_of_app. left. apply id_in_ids.
  - apply Hi. rewrite <- E. eapply node_ids; [exact Hin'|apply kid_is_node].
Qed.
Lemma after_spec x l1 l2 : x ∉ l1 → after x (l1 ++ x :: l2) = head l2.
Proof.
  induction l1 as [|y l1 IH]; cbn; [by rewrite Nat.eqb_refl|].
  intros [Hx Hl]%not_elem_of_cons. rewrite (proj2 (Nat.eqb_neq y x)) by congruence. by apply IH.
Qed.

Lemma head_omap_unique {A B} (g : A → option B) l a b :
  a ∈ l → g a = Some b → (∀ a' b', a' ∈ l → g a' = Some b' → b' = b) → head (omap g l) = Some b.
Proof.
  intros Ha Hg Hu. destruct (head (omap g l)) as [b'|] eqn:E.
  - apply head_omap_some in E as (a' & Ha' & E). f_equal. by apply (Hu a').
  - by rewrite (head_omap_none _ _ E a Ha) in Hg.
Qed.
Lemma kid_id_in u x : x ∈ id_of <$> kids_of u → x ∈ ids u.
Proof. destruct u as [i n ks]. intros (k & -> & Hk)%list_elem_of_fmap. right. by apply kid_in_ids. Qed.
Lemma parent_of_kid x t u : NoDup (ids t) → u ∈ nodes t → x ∈ id_of <$> kids_of u → parent x t = Some (id_of u).
Proof.
  induction t as [i n ks IH] using tree_nested_ind. intros [Hi Hd]%NoDup_ids_kids Hu Hx. cbn [parent].
  rewrite nodes_tree in Hu. apply elem_of_cons in Hu as [->|(k & Hk & Hu)%in_all_nodes].
  { apply has_kid_spec in Hx. cbn [kids_of] in Hx. by rewrite Hx. }
  assert (Hxk : x ∈ ids k) by (eapply ids_trans; [exact Hu|by apply kid_id_in]).
  pose proof (NoDup_ids_in _ _ Hd Hk) as Hdk.
  destruct (has_kid x ks) eqn:E.
  - exfalso. apply has_kid_spec, list_elem_of_fmap in E as (k' & -> & Hk').
    assert (k' = k) as -> by (apply (same_tree ks k' k (id_of k') Hd Hk' Hk); [apply id_in_ids|done]).
    destruct k as [j m kk]. apply NoDup_ids_kids in Hdk as [Hj Hdk]. cbn in Hx. apply Hj.
    rewrite nodes_tree in Hu. apply elem_of_cons in Hu as [->|Hu].
    + apply list_elem_of_fmap in Hx as (c & -> & Hc). by apply kid_in_ids.
    + eapply node_ids; [exact Hu|by apply kid_id_in].
  - rewrite Forall_forall in IH. apply (head_omap_unique _ _ k); [done|by apply IH|].
    intros k' p' Hk' Hp'. pose proof (parent_some _ _ _ Hp') as (m & l1 & c & l2 & Hin & Hc).
    assert (k' = k) as ->.
    { apply (same_tree ks k' k x Hd Hk' Hk); [|done]. eapply ids_trans; [exact Hin|]. rewrite <- Hc. apply kid_is_node. }
    specialize (IH k Hk Hdk Hu Hx). congruence.
Qed.
Lemma parent_in_of_kid x f u : NoDup (all_ids f) → u ∈ all_nodes f → x ∈ id_of <$> kids_of u → parent_in x f = Some (id_of u).
Proof.
  intros Hd (t & Ht & Hu)%in_all_nodes Hx. apply (head_omap_unique _ _ t); [done| |].
  - apply parent_of_kid; [by eapply NoDup_ids_in|done..].
  - intros t' p' Ht' Hp'. pose proof (parent_some _ _ _ Hp') as (m & l1 & c & l2 & Hin & Hc).
    assert (t' = t) as ->.
    { apply (same_tree f t' t x Hd Ht' Ht); [|eapply ids_trans; [exact Hu|by apply kid_id_in]].
      eapply ids_trans; [exact Hin|]. rewrite <- Hc. apply kid_is_node. }
    rewrite (parent_of_kid x t u) in Hp'; [congruence|by eapply NoDup_ids_in|done..].
Qed.
(** An insertion leaves the children where they are. *)
Lemma graft_kid pl x new u y : inserts pl = true → y ∈ id_of <$> kids_of u → y ∈ id_of <$> kids_of (graft pl x new u).
Proof.
  intros Hp. destruct u as [i n ks]. intros (k & -> & Hk)%list_elem_of_fmap. apply list_elem_of_fmap.
  exists (graft pl x new k). split; [by rewrite id_of_graft|]. cbn [graft kids_of].
  change (ks ≫= _) with (graft_kids pl x new ks).
  assert (graft pl x new k ∈ graft_kids pl x new ks) as Hin.
  { apply list_elem_of_bind. exists k. split; [|done]. destruct (id_of k =? x); destruct pl; try done;
      rewrite ?elem_of_app, ?elem_of_cons, ?elem_of_nil; auto. }
  destruct (i =? x); [|done]. destruct pl; try done; apply elem_of_app; auto.
Qed.

(** ** Copies *)

(** A tree without the numbers of its nodes. *)
Fixpoint erase (t : tree) : tree := let '(Tree _ n ks) := t in Tree 0 n (erase <$> ks).
Definition copies : list tree → nat → list tree * nat :=
  fix go (ks : list tree) (n : nat) : list tree * nat :=
    match ks with
    | [] => ([], n)
    | k :: ks => let '(k', n) := copy k n in let '(ks', n) := go ks n in (k' :: ks', n)
    end.
Lemma copy_tree i n ks m : copy (Tree i n ks) m = let '(ks', m') := copies ks (S m) in (Tree m n ks', m').
Proof. done. Qed.
Lemma copy_spec t n :
  let '(t', m) := copy t n in erase t' = erase t ∧ ids t' = seq n (length (ids t)) ∧ m = n + length (ids t).
Proof.
  revert n. induction t as [i inf ks IH] using tree_nested_ind. intros n. rewrite copy_tree, ids_tree.
  assert (H : ∀ n, let '(ks', m) := copies ks n in
    erase <$> ks' = erase <$> ks ∧ all_ids ks' = seq n (length (all_ids ks)) ∧ m = n + length (all_ids ks)).
  { clear n. induction ks as [|k ks IHk]; intros n; [cbn; repeat split; lia|].
    apply Forall_cons in IH as [Hk IH]. cbn [copies]. specialize (Hk n). destruct (copy k n) as [k' m1].
    destruct Hk as (E1 & E2 & ->). specialize (IHk IH (n + length (ids k))).
    change ((fix go (ks : list tree) (n : nat) : list tree * nat :=
      match ks with [] => ([], n) | k :: ks => let '(k', n) := copy k n in let '(ks', n) := go ks n in (k' :: ks', n) end)
      ks (n + length (ids k))) with (copies ks (n + length (ids k))).
    destruct (copies ks _) as [ks' m2]. destruct IHk as (F1 & F2 & ->).
    rewrite !fmap_cons, E1, F1, !all_ids_cons, E2, F2, length_app, seq_app. repeat split; lia. }
  specialize (H (S n)). destruct (copies ks (S n)) as [ks' m]. destruct H as (E1 & E2 & ->).
  cbn [erase]. rewrite E1, ids_tree, E2. cbn [length seq]. repeat split; lia.
Qed.

(** ** What a graft changes *)

Lemma graft_infos pl x new t u : u ∈ nodes (graft pl x new t) →
  u ∈ all_nodes new ∨ ∃ v, v ∈ nodes t ∧ id_of v = id_of u ∧ info_of v = info_of u.
Proof.
  induction t as [i n ks IH] using tree_nested_ind. cbn [graft]. rewrite nodes_tree.
  intros [->|Hu]%elem_of_cons; [right; exists (Tree i n ks); split; [constructor|done]|].
  assert (Hkids : u ∈ all_nodes (graft_kids pl x new ks) →
    u ∈ all_nodes new ∨ ∃ v, v ∈ nodes (Tree i n ks) ∧ id_of v = id_of u ∧ info_of v = info_of u).
  { intros (t & Ht & Hut)%in_all_nodes. unfold graft_kids in Ht. apply list_elem_of_bind in Ht as (k & Ht & Hk).
    assert (t ∈ new ∨ t = graft pl x new k) as [Hnew|Et].
    { destruct (id_of k =? x); [|right; by apply list_elem_of_singleton in Ht].
      destruct pl; rewrite ?elem_of_app, ?elem_of_cons, ?elem_of_nil in Ht; naive_solver. }
    - left. apply in_all_nodes. by exists t.
    - subst t. rewrite Forall_forall in IH. destruct (IH k Hk Hut) as [Hl|(v & Hv & E1 & E2)]; [by left|]. right. exists v.
      split; [|done]. rewrite nodes_tree. right. apply in_all_nodes. by exists k. }
  destruct (i =? x); [|by apply Hkids].
  destruct pl; try (by apply Hkids); rewrite ?all_nodes_app, ?elem_of_app in Hu; naive_solver.
Qed.
Lemma prune_infos x f u : u ∈ all_nodes (prune x f) → ∃ v, v ∈ all_nodes f ∧ id_of v = id_of u ∧ info_of v = info_of u.
Proof.
  intros (t & Ht & Hu)%in_all_nodes. unfold prune in Ht. apply list_elem_of_bind in Ht as (k & Ht & Hk).
  destruct (id_of k =? x); [by apply elem_of_nil in Ht|]. apply list_elem_of_singleton in Ht as ->.
  apply graft_infos in Hu as [Hu|(v & Hv & E1 & E2)]; [by apply elem_of_nil in Hu|]. exists v. split; [|done].
  apply in_all_nodes. by exists k.
Qed.

(** Trees that are the same but for the numbers have the same nodes. *)
Lemma erase_nodes t t' : erase t = erase t' → Forall2 (λ u v, info_of u = info_of v) (nodes t) (nodes t').
Proof.
  revert t'. induction t as [i n ks IH] using tree_nested_ind. intros [i' n' ks'] [= -> E]. rewrite !nodes_tree.
  constructor; [done|]. revert ks' E. induction ks as [|k ks IHk]; intros [|k' ks'] E; [constructor|done|done|].
  apply Forall_cons in IH as [Hk IH]. injection E as E1 E2. unfold all_nodes. cbn [mbind list_bind].
  apply Forall2_app; [by apply Hk|by apply IHk].
Qed.
Lemma erase_info t t' : erase t = erase t' → info_of t = info_of t'.
Proof. destruct t, t'. by intros [= -> _]. Qed.
Lemma erase_length ks ks' : erase <$> ks = erase <$> ks' → length ks = length ks'.
Proof. intros E. apply (f_equal length) in E. by rewrite !length_fmap in E. Qed.
End facts.

(** ** What the operations do to the forest *)

Section operations.
Context {I : Type} (is_fragment : I → bool).
Local Abbreviation tree := (tree I).
Implicit Types (t k u v : tree) (f ks : list tree).
Local Abbreviation moved := (moved is_fragment).
Local Abbreviation taken := (taken is_fragment).

Lemma graft_within_ids x f t : NoDup (all_ids f) → find_in x f = Some t →
  all_ids f ≡ₚ all_ids (kids_of t) ++ all_ids (graft Within x [] <$> f).
Proof.
  intros Hd Hf. apply find_in_some in Hf as [Ht <-]. revert Hd Ht.
  assert (Hone : ∀ u, NoDup (ids u) → t ∈ nodes u →
    ids u ≡ₚ all_ids (kids_of t) ++ ids (graft Within (id_of t) [] u)).
  { induction u as [i n ks IH] using tree_nested_ind. intros [Hi Hd]%NoDup_ids_kids Ht. rewrite nodes_tree in Ht.
    apply elem_of_cons in Ht as [->|Ht].
    - cbn [id_of kids_of]. rewrite graft_here by done. rewrite !ids_tree. solve_Permutation.
    - assert (id_of t ∈ all_ids ks) as Hx by (rewrite <- all_nodes_ids; by apply list_elem_of_fmap_2).
      rewrite graft_below by (intros ->; done). rewrite graft_kids_child by auto. rewrite !ids_tree.
      apply in_all_nodes in Ht as (k & (k1 & k2 & ->)%list_elem_of_split & Ht).
      assert (id_of t ∈ ids k) as Hxk by (eapply ids_trans; [exact Ht|apply id_in_ids]).
      assert (k ∈ k1 ++ k :: k2) as Hk by (apply elem_of_app; right; constructor).
      rewrite Forall_forall in IH. specialize (IH k Hk (NoDup_ids_in _ _ Hd Hk) Ht).
      rewrite all_ids_app, all_ids_cons in Hd. apply NoDup_app in Hd as (_ & D1 & (_ & D2 & _)%NoDup_app).
      rewrite fmap_app, fmap_cons, (graft_all_absent _ _ _ k1), (graft_all_absent _ _ _ k2).
      + rewrite !all_ids_app, !all_ids_cons, IH. solve_Permutation.
      + by apply D2.
      + intros H. apply (D1 _ H). apply elem_of_app. by left. }
  intros Hd Ht. apply in_all_nodes in Ht as (k & (k1 & k2 & ->)%list_elem_of_split & Ht).
  assert (id_of t ∈ ids k) as Hxk by (eapply ids_trans; [exact Ht|apply id_in_ids]).
  assert (k ∈ k1 ++ k :: k2) as Hk by (apply elem_of_app; right; constructor).
  specialize (Hone k (NoDup_ids_in _ _ Hd Hk) Ht).
  rewrite all_ids_app, all_ids_cons in Hd. apply NoDup_app in Hd as (_ & D1 & (_ & D2 & _)%NoDup_app).
  rewrite fmap_app, fmap_cons, (graft_all_absent _ _ _ k1), (graft_all_absent _ _ _ k2).
  - rewrite !all_ids_app, !all_ids_cons, Hone. solve_Permutation.
  - by apply D2.
  - intros H. apply (D1 _ H). apply elem_of_app. by left.
Qed.
Lemma taken_ids x f t : NoDup (all_ids f) → find_in x f = Some t → all_ids f ≡ₚ all_ids (moved t) ++ all_ids (taken t f).
Proof.
  intros Hd Hf. pose proof (find_in_some _ _ _ Hf) as [_ Hx]. unfold Forest.moved, Forest.taken. rewrite Hx.
  destruct (is_fragment (info_of t)); [by apply graft_within_ids|].
  rewrite (prune_ids x f t Hd Hf). cbn. by rewrite app_nil_r.
Qed.
(** A node that is not above the tree that is taken, nor in it, stays as it is. *)
Lemma node_taken x f t v : NoDup (all_ids f) → find_in x f = Some t → v ∈ all_nodes f →
  x ∉ ids v → id_of v ∉ ids t → v ∈ all_nodes (taken t f).
Proof.
  intros Hd Hf Hv Hx Hn. pose proof (find_in_some _ _ _ Hf) as [Ht Hxt]. unfold Forest.taken. rewrite Hxt.
  assert (Hnot : ∀ w, w ∈ all_nodes f → id_of w = x → v ∉ nodes w).
  { intros w Hw E Hvw. assert (w = t) as -> by (apply (node_unique f); [done..|congruence]).
    apply Hn. rewrite <- nodes_ids. by apply list_elem_of_fmap_2. }
  rewrite <- (graft_absent (if is_fragment (info_of t) then Within else InsteadOf) x [] v) by done.
  destruct (is_fragment (info_of t)).
  - rewrite <- graft_kids_child by auto. by apply node_graft_kids.
  - by apply node_graft_kids.
Qed.
End operations.
End ForestFacts.
