(* ===== verification/JqManip.v ===== *)
(** * Manipulation in jquery.js

    [buildFragment], [clone], [cleanData] and [domManip] with the methods over them:
    [append], [prepend], [before], [after], [replaceWith] and their mirror images,
    [remove], [detach], [empty], [clone], [text], [wrapAll], [wrapInner], [wrap] and
    [unwrap], over a document that changes and the data that the nodes have, for a
    browser that needs none of the workarounds of [support].

    [Manip]: the code.  [ManipFacts]: what it does to the forest of the page. *)

From stdpp Require Import base tactics list strings numbers sets gmap.
From Stdlib Require Import NArith ZArith Lia.
From S2P Require Import Prelude.
From S2P Require Import JsString.
From S2P Require Import JsArray.
From S2P Require Import Regex.
From S2P Require Import JqCore.
From S2P Require Import JqData.
From S2P Require Import DomForest.

(** A node: its kind, its name, the attributes [type] and [src] and, for a text, its
    value. *)
Record info := Info {
  nodeType : N;
  nodeName : jsstr;
  type_ : option jsstr;
  src : jsstr;
  nodeValue : jsstr;
}.
Definition element (name : jsstr) : info := Info 1 name None [] [].
Definition text_node (s : jsstr) : info := Info 3 (js "#text") None [] s.
Definition fragment_node : info := Info 11 (js "#document-fragment") None [] [].
Definition is_fragment (n : info) : bool := (nodeType n =? 11)%N.

(** The private data of a node.  A handler is a value of the page. *)
Inductive pval (H U : Type) :=
  | PFlag (b : bool)
  | PEvents (evs : list (jsstr * list H))
  | PHandle
  | POther (u : U).
Arguments PFlag {H U}. Arguments PEvents {H U}. Arguments PHandle {H U}. Arguments POther {H U}.

(** What manipulation asks of [jQuery.event]: [add], [remove] of all handlers of a type,
    the types that [jQuery.event.special] knows, [removeEvent], and the names under which the
    private data of the document counts the users of a listener that is shared. *)
Class EventLayer (H U L : Type) := {
  event_add : Data.elem → jsstr → H → Data.store (pval H U) * L → Data.store (pval H U) * L;
  event_remove : Data.elem → jsstr → Data.store (pval H U) * L → Data.store (pval H U) * L;
  special : jsstr → bool;
  removeEvent : Data.elem → jsstr → L → L;
  doc_counts : list jsstr;
}.

(** The data of a node is as it was; that of the document [doc] up to the counts. *)
Definition doc_node (doc : nat) : Data.elem := Data.Elem doc 9 (js "#document") None.
Definition kept_data `{EventLayer H U L} (doc : nat) (e : Data.elem) (d d' : Data.store (pval H U)) : Prop :=
  if decide (Data.same (doc_node doc) e) then
    Data.view d' e false = Data.view d e false ∧
    ∀ name, name ∉ doc_counts → obj_get name (Data.view d' e true) = obj_get name (Data.view d e true)
  else Data.lookup_entry e d' = Data.lookup_entry e d.
#[export] Instance kept_data_preorder `{EventLayer H U L} doc e : PreOrder (kept_data doc e).
Proof.
  unfold kept_data. destruct (decide _); split; [done| |done|intros d1 d2 d3; congruence].
  intros d1 d2 d3 [A1 A2] [B1 B2]. split; [congruence|]. intros name Hn. by rewrite B2, A2.
Qed.

(** What is known of removing the handlers of a type: the data stays in order, and no
    other node loses anything. *)
Class EventLaws (H U L : Type) `{UnicodeCase} `{EventLayer H U L} (doc : nat) := {
  event_remove_inv : ∀ e ty p, Data.data_inv p.1 → Data.data_inv (event_remove e ty p).1;
  event_remove_other : ∀ e ty p e', Data.data_inv p.1 → ¬ Data.same e e' → kept_data doc e' p.1 (event_remove e ty p).1;
}.

Module Manip.
Import Forest.

Section manip.
Context `{UnicodeCase} {Handler U L : Type} `{Ev : EventLayer Handler U L}.
Local Abbreviation pval := (pval Handler U).
(** The rest of the page: the data of the nodes, what the events need, and the scripts
    that were evaluated. *)
Inductive act := EvalUrl (src : jsstr) | GlobalEval (code : jsstr).
Record more := More { data : Data.store pval; listeners : L; evaluated : list act }.
Local Abbreviation page := (world info more).
Local Abbreviation tree := (tree info).

(** The page: its document, the parser of [innerHTML], and [jQuery(html)]. *)
Context (document : nat) (parse : jsstr → list tree) (serialize : list tree → jsstr).

Definition info_of_id (w : page) (x : nat) : info :=
  match find_in x (forest w) with Some t => info_of t | None => Info 0 [] None [] [] end.
Definition named (n : info) (name : jsstr) : bool := str_eqb (to_lower (nodeName n)) (to_lower name).
Definition contains (w : page) (x : nat) : bool :=
  match find_in document (forest w) with Some t => bool_decide (x ∈ ids t) && negb (x =? document) | None => false end.
Definition node_data (w : page) (x : nat) : Data.elem :=
  let n := info_of_id w x in Data.Elem x (nodeType n) (nodeName n) None.
Definition with_data (d : Data.store pval) (w : page) : page :=
  World (forest w) (fresh w) (More d (listeners (rest w)) (evaluated (rest w))).
Definition with_events (p : Data.store pval * L) (w : page) : page :=
  World (forest w) (fresh w) (More p.1 p.2 (evaluated (rest w))).
Definition with_act (a : act) (w : page) : page :=
  World (forest w) (fresh w) (More (data (rest w)) (listeners (rest w)) (evaluated (rest w) ++ [a])).
Definition events_of (w : page) : Data.store pval * L := (data (rest w), listeners (rest w)).

(** [getAll]: the elements below a node, and the node itself when it fits. *)
Inductive tag := Undefined | False_ | Named (name : jsstr).
Definition fits (tg : tag) (n : info) : bool :=
  (nodeType n =? 1)%N && match tg with Named name => named n name | _ => true end.
Definition below (tg : tag) (t : tree) : list nat :=
  id_of <$> base.filter (λ u, fits tg (info_of u) = true) (tail (nodes t)).
Definition getAll (w : page) (x : nat) (tg : tag) : list nat :=
  match find_in x (forest w) with
  | None => []
  | Some t =>
      let found := below tg t in
      match tg with
      | Undefined => x :: found
      | False_ => found
      | Named name => if named (info_of t) name then x :: found else found
      end
  end.

(** ** Scripts *)

Definition modify_info (x : nat) (g : info → info) : M page unit :=
  modify (λ w, with_forest (update x g <$> forest w) w).
Definition set_type (ty : option jsstr) (n : info) : info := Info (nodeType n) (nodeName n) ty (src n) (nodeValue n).
Definition disabled (n : info) : info :=
  set_type (Some ((if bool_decide (is_Some (type_ n)) then js "true" else js "false") ++ js "/" ++ default [] (type_ n))) n.
(** The pattern takes what follows up to the end of the line. *)
Definition rscriptTypeMasked : regex := seqs [RBol; lit "true/"; RGroup 1 (star dot)].
Definition restored (n : info) : info :=
  match exec rscriptTypeMasked (default [] (type_ n)) with
  | Some m => set_type (Some (capture_str m 1)) n
  | None => set_type None n
  end.
Definition disableScript (x : nat) : M page unit := modify_info x disabled.
Definition restoreScript (x : nat) : M page unit := modify_info x restored.

Definition is_null (v : pval) : bool := false.
Definition no_inherited (name : jsstr) : option pval := None.
Definition _data (x : nat) (r : Data.request pval) (w : page) : Data.answer pval * page :=
  let '(a, d) := Data.internalData is_null no_inherited (node_data w x) r true (data (rest w)) in (a, with_data d w).
Definition read_flag (x : nat) : M page (option pval) := λ w,
  match _data x (Data.Named (js "globalEval") None) w with
  | (Data.Value v, w) => (Ok v, w)
  | (_, w) => (Ok None, w)
  end.
Definition write_flag (x : nat) (v : option pval) : M page unit := λ w,
  (Ok tt, (_data x (Data.Named (js "globalEval") v) w).2).
Fixpoint setGlobalEval (elems : list nat) (refElements : option (list nat)) : M page unit :=
  match elems with
  | [] => mret tt
  | x :: elems =>
      v ← match refElements with
          | None => mret (Some (PFlag true))
          | Some (y :: _) => read_flag y
          | Some [] => throw TypeError
          end;
      write_flag x v ≫= λ _, setGlobalEval elems (tail <$> refElements)
  end.

(** ** Clones *)

(** The data and the handlers of a node are given to its clone; the public data is
    copied. *)
Definition add_events (dest : Data.elem) (evs : list (jsstr * list Handler)) (p : Data.store pval * L)
    : Data.store pval * L :=
  foldl (λ p ev, foldl (λ p h, event_add dest ev.1 h p) p ev.2) p evs.
Definition cloneCopyEvent (source dest : nat) : M page unit := λ w,
  let es := node_data w source in
  let ed := node_data w dest in
  if negb (nodeType (info_of_id w dest) =? 1)%N || negb (Data.hasData es (data (rest w))) then (Ok tt, w)
  else
    match Data.lookup_entry es (data (rest w)) with
    | None => (Ok tt, w)
    | Some old =>
        let w := (_data dest (Data.Props (prod_map id Some <$> Data.private old)) w).2 in
        match Data.lookup_entry ed (data (rest w)) with
        | None => (Throw TypeError, w)
        | Some cur =>
            let public := match Data.public old with Some o => Some o | None => Data.public cur end in
            match obj_get (js "events") (Data.private old) with
            | Some (PEvents evs) =>
                let private := obj_set (js "events") (PEvents []) (obj_delete (js "handle") (Data.private cur)) in
                let w := with_data (Data.set_entry ed (Data.Entry private public) (data (rest w))) w in
                (Ok tt, with_events (add_events ed evs (events_of w)) w)
            | _ => (Ok tt, with_data (Data.set_entry ed (Data.Entry (Data.private cur) public) (data (rest w))) w)
            end
        end
    end.
Fixpoint copy_events (srcElements destElements : list nat) : M page unit :=
  match srcElements, destElements with
  | x :: srcElements, y :: destElements => cloneCopyEvent x y ≫= λ _, copy_events srcElements destElements
  | [], _ => mret tt
  | _ :: _, [] => throw TypeError
  end.
Definition clone (elem : nat) (dataAndEvents deepDataAndEvents : bool) : M page nat :=
  w ← get;
  let inPage := contains w elem in
  c ← cloneNode elem;
  (if dataAndEvents then
     if deepDataAndEvents then
       w ← get; copy_events (getAll w elem Undefined) (getAll w c Undefined)
     else cloneCopyEvent elem c
   else mret tt) ≫= λ _,
  w ← get;
  let destElements := getAll w c (Named (js "script")) in
  (match destElements with
   | [] => mret tt
   | _ => setGlobalEval destElements (if inPage then None else Some (getAll w elem (Named (js "script"))))
   end) ≫= λ _, mret c.

(** ** [cleanData] *)

Definition clean_one (x : nat) : M page unit := λ w,
  let e := node_data w x in
  if negb (Data.acceptData e) then (Ok tt, w)
  else
    match Data.lookup_entry e (data (rest w)) with
    | None => (Ok tt, w)
    | Some en =>
        let p := match obj_get (js "events") (Data.private en) with
          | Some (PEvents evs) =>
              foldl (λ p ev, if special ev.1 then event_remove e ev.1 p else (p.1, removeEvent e ev.1 p.2)) (events_of w) evs
          | _ => events_of w
          end in
        let w := with_events p w in
        match Data.lookup_entry e p.1 with
        | Some _ => (Ok tt, with_data (Data.destroy e p.1) w)
        | None => (Ok tt, w)
        end
    end.
Fixpoint cleanData (elems : list nat) : M page unit :=
  match elems with
  | [] => mret tt
  | x :: elems => clean_one x ≫= λ _, cleanData elems
  end.

(** ** [buildFragment] *)

(** What may be inserted: nothing (undefined, null, false and the empty text), a node, a
    set or list of nodes, and a text. *)
Inductive content := CNothing | CNode (x : nat) | CSet (xs : list nat) | CText (s : jsstr).

Definition entity : regex := seqs [lit "&"; opt (lit "#"); plus (RSet is_word); lit ";"].
Definition rhtml : regex := RAlt (lit "<") entity.
Definition rtagName : regex := RSeq (lit "<") (RGroup 1 (plus (RSet (λ c, is_word c || cls ":" c)))).
(** The expression of [rxhtmlTag] is [gi]: the names are compared without their case. *)
Definition no_case (s : String.string) : regex :=
  seqs ((λ c, RSet (λ d, N.eqb (ascii_lower_unit c) (ascii_lower_unit d))) <$> js s).
Definition void_tags : list String.string :=
  ["area"; "br"; "col"; "embed"; "hr"; "img"; "input"; "link"; "meta"; "param"]%string.
Definition rxhtmlTag : regex :=
  seqs [lit "<"; RNot (alts (no_case <$> void_tags));
        RGroup 1 (RSeq (RGroup 2 (plus (RSet (λ c, is_word c || cls ":" c)))) (star (RSet (ncls ">")))); lit "/>"].
Definition expand_tags (s : jsstr) : jsstr :=
  replace_all rxhtmlTag (λ m, js "<" ++ capture_str m 1 ++ js "></" ++ capture_str m 2 ++ js ">") s.

(** [wrapMap], for a browser that serializes html: how deep the content is, and what is
    written around it. *)
Definition wrapMap : list (jsstr * (nat * jsstr * jsstr)) :=
  let table := (1, js "<table>", js "</table>") in
  let select := (1, js "<select multiple='multiple'>", js "</select>") in
  let cell := (3, js "<table><tbody><tr>", js "</tr></tbody></table>") in
  [(js "option", select); (js "legend", (1, js "<fieldset>", js "</fieldset>"));
   (js "area", (1, js "<map>", js "</map>")); (js "param", (1, js "<object>", js "</object>"));
   (js "thead", table); (js "tr", (2, js "<table><tbody>", js "</tbody></table>"));
   (js "col", (2, js "<table><tbody></tbody><colgroup>", js "</colgroup></table>")); (js "td", cell);
   (js "optgroup", select); (js "tbody", table); (js "tfoot", table); (js "colgroup", table); (js "caption", table);
   (js "th", cell)].
Definition wrap_of (elem : jsstr) : nat * jsstr * jsstr :=
  let tag := match exec rtagName elem with Some m => to_lower (capture_str m 1) | None => [] end in
  default (0, [], []) (obj_get tag wrapMap).
Fixpoint descend (j : nat) (kids : list tree) : option (list tree) :=
  match j with
  | 0 => Some kids
  | S j => match last kids with Some t => descend j (kids_of t) | None => None end
  end.
(** The nodes of a text; those of html are the new nodes of the parser, which are taken
    out of its [div]. *)
Definition nodes_of_text (s : jsstr) : M page (list nat) :=
  if negb (test rhtml s) then x ← createNode (text_node s); mret [x]
  else
    let '(depth, before, behind) := wrap_of s in
    match descend depth (parse (before ++ expand_tags s ++ behind)) with
    | None => throw TypeError
    | Some kids => λ w,
        let '(new, n) := ForestFacts.copies kids (fresh w) in
        (Ok (id_of <$> new), World (new ++ forest w) n (rest w))
    end.
Fixpoint nodes_of (elems : list content) : M page (list nat) :=
  match elems with
  | [] => mret []
  | c :: elems =>
      xs ← match c with
           | CNothing | CText [] => mret []
           | CNode x => mret [x]
           | CSet xs => mret xs
           | CText s => nodes_of_text s
           end;
      ys ← nodes_of elems; mret (xs ++ ys)
  end.

(** The types of scripts that are run. *)
Definition rscriptType : regex :=
  RAlt (RSeq RBol REol) (seqs [lit "/"; RAlt (no_case "java") (no_case "ecma"); no_case "script"]).
Fixpoint gather (fr : nat) (scripts : bool) (selection : list nat) (elems : list nat) : M page (list nat) :=
  match elems with
  | [] => mret []
  | x :: elems =>
      if bool_decide (x ∈ selection) then gather fr scripts selection elems
      else
        w ← get;
        let inside := contains w x in
        appendChild is_fragment fr x ≫= λ _,
        w ← get;
        let tmp := getAll w x (Named (js "script")) in
        (if inside then setGlobalEval tmp None else mret tt) ≫= λ _,
        w ← get;
        let captured := if scripts
          then base.filter (λ y, test rscriptType (default [] (type_ (info_of_id w y))) = true) tmp else [] in
        ys ← gather fr scripts selection elems; mret (captured ++ ys)
  end.
Definition buildFragment (elems : list content) (scripts : bool) (selection : list nat) : M page (nat * list nat) :=
  safe ← createNode fragment_node;
  nodes ← nodes_of elems;
  captured ← gather safe scripts selection nodes;
  mret (safe, captured).

(** ** [domManip] *)

Definition is_row (w : page) (content : nat) : M page bool :=
  if negb (nodeType (info_of_id w content) =? 11)%N then mret (named (info_of_id w content) (js "tr"))
  else match childNodes content w with
    | c :: _ => mret (named (info_of_id w c) (js "tr"))
    | [] => throw TypeError
    end.
Definition manipulationTarget (elem content : nat) : M page nat :=
  w ← get;
  if negb (named (info_of_id w elem) (js "table")) then mret elem
  else
    row ← is_row w content;
    if row : bool then
      match (t ← find_in elem (forest w); head (below (Named (js "tbody")) t)) with
      | Some tbody => mret tbody
      | None => tbody ← createNode (element (js "tbody")); appendChild is_fragment elem tbody ≫= λ _, mret tbody
      end
    else mret elem.
Definition holds_nodes (n : info) : bool := (nodeType n =? 1)%N || (nodeType n =? 11)%N || (nodeType n =? 9)%N.
Definition nextSibling (w : page) (p x : nat) : option nat := after x (childNodes p w).
(** The callbacks of [append], [prepend], [before], [after] and [replaceWith], which
    tell the parent. *)
Definition callback (pl : place) (this elem : nat) : M page (option nat) :=
  w ← get;
  match pl with
  | LastOf | FirstOf | Within =>
      if holds_nodes (info_of_id w this) then
        target ← manipulationTarget this elem;
        w ← get;
        insertBefore is_fragment target elem (match pl with FirstOf => head (childNodes target w) | _ => None end) ≫= λ _,
        mret (Some target)
      else mret None
  | BeforeIt | AfterIt =>
      p ← parentNode this;
      match p with
      | Some p =>
          insertBefore is_fragment p elem (match pl with BeforeIt => Some this | _ => nextSibling w p this end) ≫= λ _,
          mret (Some p)
      | None => mret None
      end
  | InsteadOf =>
      p ← parentNode this;
      cleanData (getAll w this Undefined) ≫= λ _,
      match p with
      | Some p => replaceChild is_fragment p elem this ≫= λ _, mret (Some p)
      | None => mret None
      end
  end.

(** The code of a script, without the marks of comments and sections around it. *)
Definition rcleanScript : regex :=
  RAlt (seqs [RBol; star (RSet is_space); lit "<!"; RAlt (lit "[CDATA[") (lit "--")])
       (seqs [RAlt (lit "]]") (lit "--"); lit ">"; star (RSet is_space); REol]).
Definition text_of (t : tree) : jsstr :=
  nodes t ≫= λ u, if ((nodeType (info_of u) =? 3) || (nodeType (info_of u) =? 4))%N then nodeValue (info_of u) else [].
Definition run_script (x : nat) : M page unit :=
  w ← get;
  let n := info_of_id w x in
  if negb (test rscriptType (default [] (type_ n))) then mret tt
  else
    flag ← read_flag x;
    let evaled := match flag with Some (PFlag b) => b | Some _ => true | None => false end in
    w ← get;
    if evaled || negb (contains w x) then mret tt
    else
      modify (with_act
        match src n with
        | [] => GlobalEval (replace_all rcleanScript (λ _, []) (match find_in x (forest w) with Some t => text_of t | None => [] end))
        | url => EvalUrl url
        end).
Fixpoint for_each {A B} (f : A → M page B) (l : list A) : M page unit :=
  match l with [] => mret tt | x :: l => f x ≫= λ _, for_each f l end.

(** The loop over the targets: all but the last get clones.  The scripts of the clones
    are kept for later; the result is that of the last callback. *)
Fixpoint insert_loop {A} (call : nat → nat → M page A) (fragment : nat) (hasScripts : bool) (targets : list nat)
    : M page (option A * list nat) :=
  match targets with
  | [] => mret (None, [])
  | [t] => a ← call t fragment; mret (Some a, [])
  | t :: targets =>
      c ← clone fragment true true;
      w ← get;
      let scripts := if hasScripts then getAll w c (Named (js "script")) else [] in
      call t c ≫= λ _,
      r ← insert_loop call fragment hasScripts targets;
      mret (r.1, scripts ++ r.2)
  end.
Definition domManip_nodes {A} (set : list nat) (args : list content) (call : nat → nat → M page A) : M page (option A) :=
  match set with
  | [] => mret None
  | _ =>
      r ← buildFragment args false set;
      w ← get;
      match childNodes r.1 w with
      | [] => mret None
      | first :: others =>
          let fragment := match others with [] => first | _ => r.1 end in
          let scripts := getAll w fragment (Named (js "script")) in
          for_each disableScript scripts ≫= λ _,
          a ← insert_loop call fragment (negb (bool_decide (scripts = []))) set;
          for_each restoreScript (if bool_decide (scripts = []) then [] else scripts ++ a.2) ≫= λ _,
          for_each run_script scripts ≫= λ _,
          mret a.1
      end
  end.
(** [innerHTML] without the numbers that old browsers write. *)
Definition rinlinejQuery : regex :=
  seqs [lit " jQuery"; plus (RSet is_digit); lit "="; lit_units [34%N]; RAlt (lit "null") (plus (RSet is_digit)); lit_units [34%N]].
Definition html_of (w : page) (x : nat) : option jsstr :=
  match find_in x (forest w) with
  | Some t => if (nodeType (info_of t) =? 1)%N then Some (replace_all rinlinejQuery (λ _, []) (serialize (kids_of t))) else None
  | None => None
  end.
(** The arguments after [concat.apply([], args)]; a function comes first, and is called
    for every element. *)
Inductive args :=
  | Contents (l : list content)
  | Computed (value : nat → nat → option jsstr → M page (list content)) (l : list content).
Fixpoint each_computed {A} (value : nat → nat → option jsstr → M page (list content)) (l : list content)
    (call : nat → nat → M page A) (index : nat) (set : list nat) (a : option A) : M page (option A) :=
  match set with
  | [] => mret a
  | x :: set =>
      w ← get;
      cs ← value x index (html_of w x);
      b ← domManip_nodes [x] (cs ++ l) call;
      each_computed value l call (Datatypes.S index) set (match b with Some _ => b | None => a end)
  end.
Definition domManip {A} (set : list nat) (a : args) (call : nat → nat → M page A) : M page (option A) :=
  match a with
  | Contents l => domManip_nodes set l call
  | Computed value l => each_computed value l call 0 set None
  end.

(** ** The methods of sets *)

Definition append (set : list nat) (a : args) : M page unit := domManip set a (callback LastOf) ≫= λ _, mret tt.
Definition prepend (set : list nat) (a : args) : M page unit := domManip set a (callback FirstOf) ≫= λ _, mret tt.
Definition before (set : list nat) (a : args) : M page unit := domManip set a (callback BeforeIt) ≫= λ _, mret tt.
Definition after_ (set : list nat) (a : args) : M page unit := domManip set a (callback AfterIt) ≫= λ _, mret tt.

(** [remove] of the elements that the selector leaves; [detach] keeps the data. *)
Definition remove_one (keepData : bool) (x : nat) : M page unit :=
  w ← get;
  (if negb keepData && (nodeType (info_of_id w x) =? 1)%N then cleanData (getAll w x Undefined) else mret tt) ≫= λ _,
  p ← parentNode x;
  match p with
  | None => mret tt
  | Some p =>
      w ← get;
      (if keepData && contains w x then setGlobalEval (getAll w x (Named (js "script"))) None else mret tt) ≫= λ _,
      removeChild p x
  end.
Definition remove (elems : list nat) (keepData : bool) : M page unit := for_each (remove_one keepData) elems.
Definition detach (elems : list nat) : M page unit := remove elems true.

(** [while (elem.firstChild) elem.removeChild(elem.firstChild)]. *)
Definition empty_one (x : nat) : M page unit :=
  w ← get;
  (if (nodeType (info_of_id w x) =? 1)%N then cleanData (getAll w x False_) else mret tt) ≫= λ _,
  w ← get;
  for_each (removeChild x) (childNodes x w).
Definition empty (set : list nat) : M page unit := for_each empty_one set.
Definition clone_method (set : list nat) (dataAndEvents deepDataAndEvents : option bool) : M page (list nat) :=
  let data := default false dataAndEvents in
  let deep := default data deepDataAndEvents in
  (fix go (set : list nat) : M page (list nat) :=
    match set with
    | [] => mret []
    | x :: set => c ← clone x data deep; cs ← go set; mret (c :: cs)
    end) set.
Definition text (w : page) (set : list nat) : jsstr :=
  set ≫= λ x, match find_in x (forest w) with Some t => text_of t | None => [] end.
Definition set_text (set : list nat) (value : jsstr) : M page unit :=
  empty set ≫= λ _,
  x ← createNode (text_node value);
  append set (Contents [CNode x]).

(** The new content of a set: [innerHTML] when nothing in the text needs more. *)
Definition rnoInnerhtml : regex := RSeq (lit "<") (alts (no_case <$> ["script"; "style"; "link"]%string)).
Definition set_inner (value : jsstr) (x : nat) : M page unit :=
  w ← get;
  if (nodeType (info_of_id w x) =? 1)%N then
    cleanData (getAll w x False_) ≫= λ _,
    for_each (removeChild x) (childNodes x w) ≫= λ _,
    modify (λ w, let '(new, n) := ForestFacts.copies (parse value) (fresh w) in
      World (graft Within x new <$> forest w) n (rest w))
  else mret tt.
Definition set_html (set : list nat) (value : content) : M page unit :=
  let fallback := empty set ≫= λ _, append set (Contents [value]) in
  match value with
  | CText s =>
      let tag := match exec rtagName s with Some m => to_lower (capture_str m 1) | None => [] end in
      if negb (test rnoInnerhtml s) && bool_decide (obj_get tag wrapMap = None) then for_each (set_inner (expand_tags s)) set
      else fallback
  | _ => fallback
  end.

(** The last callback tells the parent; without one the first argument counts: whether
    it has a length or is a node (a function has the number of its parameters, here 0). *)
Definition counts (a : args) : bool :=
  match a with
  | Contents (CNode _ :: _) | Contents (CText (_ :: _) :: _) | Contents (CSet (_ :: _) :: _) => true
  | Computed _ _ => false
  | _ => false
  end.
Definition replaceWith (set : list nat) (a : args) : M page unit :=
  p ← domManip set a (callback InsteadOf);
  match p with
  | Some (Some _) => mret tt
  | Some None => remove set false
  | None => if counts a then mret tt else remove set false
  end.

(** [appendTo] and the others: the set goes to every target, copies to all but the last.
    The result is the set that the method returns. *)
Fixpoint mirrored (method : list nat → args → M page unit) (this targets : list nat) : M page (list nat) :=
  match targets with
  | [] => mret []
  | [t] => method [t] (Contents [CSet this]) ≫= λ _, mret this
  | t :: targets =>
      elems ← clone_method this (Some true) None;
      method [t] (Contents [CSet elems]) ≫= λ _,
      r ← mirrored method this targets; mret (elems ++ r)
  end.
Definition appendTo := mirrored append.
Definition prependTo := mirrored prepend.
Definition insertBefore_ := mirrored before.
Definition insertAfter := mirrored after_.
Definition replaceAll := mirrored replaceWith.

(** ** Wrapping *)

(** From a node down its first children, as long as they are elements. *)
Fixpoint innermost (t : tree) : nat :=
  match t with
  | Tree i _ (k :: _) => if (nodeType (info_of k) =? 1)%N then innermost k else i
  | Tree i _ [] => i
  end.
(** [wrap] is the set [jQuery(html, ownerDocument)]. *)
Definition wrapAll (wrapper : M page (list nat)) (set : list nat) : M page unit :=
  match set with
  | [] => mret tt
  | x :: _ =>
      ws ← wrapper;
      wrap ← clone_method (take 1 ws) (Some true) None;
      p ← parentNode x;
      (match p with Some _ => mirrored before wrap [x] ≫= λ _, mret tt | None => mret tt end) ≫= λ _,
      w ← get;
      append (omap (λ c, innermost <$> find_in c (forest w)) wrap) (Contents [CSet set])
  end.
(** An element without content gets the argument itself, [html]. *)
Definition wrapInner_one (wrapper : M page (list nat)) (html : content) (x : nat) : M page unit :=
  w ← get;
  match childNodes x w with
  | [] => append [x] (Contents [html])
  | contents => wrapAll wrapper contents
  end.
(** The wrapper may be computed from the index of the element. *)
Definition wrapInner (wrapper : nat → M page (list nat)) (html : nat → content) (set : list nat) : M page unit :=
  for_each (λ p, wrapInner_one (wrapper p.1) (html p.1) p.2) (imap pair set).
Definition wrap (wrapper : nat → M page (list nat)) (set : list nat) : M page unit :=
  for_each (λ p, wrapAll (wrapper p.1) [p.2]) (imap pair set).
(** The parents of the set, in the order of [parent()]. *)
Definition unwrap (parents : list nat) : M page unit :=
  for_each (λ p, w ← get;
    if named (info_of_id w p) (js "body") then mret tt
    else replaceWith [p] (Contents [CSet (childNodes p w)])) parents.
End manip.
End Manip.

Module ManipFacts.
Import Forest ForestFacts Manip.

Section facts.
Context `{UnicodeCase} {Handler U L : Type} `{Ev : EventLayer Handler U L}.
Local Abbreviation page := (world info (more (Handler := Handler) (U := U) (L := L))).
Local Abbreviation tree := (tree info).
Context (document : nat) (parse : jsstr → list tree) (serialize : list tree → jsstr).
Implicit Types (w : page) (t u : tree) (f : list tree).

Lemma get_then {S A} (k : S → M S A) (s : S) : (get ≫= k) s = k s s.
Proof. done. Qed.

(** ** Pages *)

(** Every number is that of one node, and the next one is that of none. *)
Definition wf w : Prop := NoDup (all_ids (forest w)) ∧ ∀ x, x ∈ all_ids (forest w) → x < fresh w.
(** The scripts that were run, and no other part of what is not the forest. *)
Definition acts w : list act := evaluated (rest w).

Lemma wf_perm w f n (m : more) : wf w → all_ids f ≡ₚ all_ids (forest w) → fresh w ≤ n → wf (World f n m).
Proof.
  intros [Hd Hf] Hp Hn'. split; cbn; [by rewrite Hp|]. intros x Hx. rewrite Hp in Hx. specialize (Hf x Hx). lia.
Qed.
(** New trees are put in front. *)
Lemma wf_new w new n (m : more) :
  wf w → all_ids new = seq (fresh w) (n - fresh w) → fresh w ≤ n → wf (World (new ++ forest w) n m).
Proof.
  intros [Hd Hf] Hp Hn'. split; cbn [forest fresh].
  - rewrite all_ids_app, Hp. apply NoDup_app. split; [apply NoDup_seq|]. split; [|done]. intros x Hx Hin. specialize (Hf x Hin).
    apply elem_of_seq in Hx. lia.
  - intros x. rewrite all_ids_app, Hp. intros [Hx|Hx]%elem_of_app; [apply elem_of_seq in Hx; lia|].
    specialize (Hf x Hx). lia.
Qed.

Lemma createNode_spec n w :
  wf w → ∃ w', createNode n w = (Ok (fresh w), w') ∧ forest w' = Tree (fresh w) n [] :: forest w ∧
    rest w' = rest w ∧ fresh w' = Datatypes.S (fresh w) ∧ wf w'.
Proof.
  intros Hw. eexists. split; [reflexivity|]. split; [done|]. split; [done|]. split; [done|].
  apply (wf_new w [Tree (fresh w) n []]); [done| |lia]. cbn. by replace (_ - _) with 1 by lia.
Qed.
Lemma copies_spec (ks : list tree) n : let '(ks', m) := copies ks n in
  erase (I := info) <$> ks' = erase <$> ks ∧ all_ids ks' = seq n (m - n) ∧ n ≤ m.
Proof.
  revert n. induction ks as [|k ks IH]; intros n; cbn [copies].
  - split; [done|]. split; [|lia]. by replace (n - n) with 0 by lia.
  - pose proof (copy_spec k n) as Hk. destruct (copy k n) as [k' m]. destruct Hk as (E & Hi & ->).
    specialize (IH (n + length (ids k))).
    change ((fix go (ks : list tree) (n : nat) : list tree * nat :=
      match ks with [] => ([], n) | k :: ks => let '(k', n) := copy k n in let '(ks', n) := go ks n in (k' :: ks', n) end)
      ks (n + length (ids k))) with (copies ks (n + length (ids k))).
    destruct (copies ks _) as [ks' m]. destruct IH as (E' & Hi' & Hle). rewrite !fmap_cons, E, E', all_ids_cons, Hi, Hi'.
    split; [done|]. split; [|lia]. rewrite <- seq_app. f_equal. lia.
Qed.
(** The content becomes nodes; new ones are roots of their own. *)
Lemma nodes_of_spec cs w xs w' :
  wf w → nodes_of parse cs w = (Ok xs, w') →
  ∃ new, forest w' = new ++ forest w ∧ rest w' = rest w ∧ fresh w ≤ fresh w' ∧ wf w'.
Proof.
  revert w xs. induction cs as [|c cs IH]; intros w xs Hw.
  - intros [= <- <-]. exists []. repeat split; try done; apply Hw.
  - cbn [nodes_of]. intros (ys & w1 & H1 & (zs & w2 & H2 & H3)%bind_ok_inv)%bind_ok_inv. injection H3 as <- ->.
    assert (∃ new, forest w1 = new ++ forest w ∧ rest w1 = rest w ∧ fresh w ≤ fresh w1 ∧ wf w1) as (new & Hf & Hr & Hle & Hw1).
    { assert (Hdone : (Ok (A := list nat) ys, w) = (Ok ys, w1) → ∃ new, forest w1 = new ++ forest w ∧ rest w1 = rest w ∧ fresh w ≤ fresh w1 ∧ wf w1).
      { intros [= <-]. exists []. repeat split; try done; apply Hw. }
      destruct c as [|x|zs'|[|a s]]; cbn in H1; try (injection H1 as <- <-; by apply Hdone).
      unfold nodes_of_text in H1. destruct (negb (test rhtml (a :: s))).
      - destruct (createNode_spec (text_node (a :: s)) w Hw) as (w3 & E & Hf & Hr & Hfr & Hw3).
        rewrite (bind_ok _ _ _ _ _ E) in H1. injection H1 as <- <-. exists [Tree (fresh w) (text_node (a :: s)) []].
        repeat split; try done; try apply Hw3. lia.
      - destruct (wrap_of (a :: s)) as [[depth b] e]. destruct (descend depth _) as [kids|]; [|done].
        pose proof (copies_spec kids (fresh w)) as Hc. destruct (copies kids (fresh w)) as [new n].
        injection H1 as <- <-. destruct Hc as (_ & Hi & Hle). exists new. split; [done|]. split; [done|]. split; [done|].
        by apply wf_new. }
    destruct (IH w1 zs Hw1 H2) as (new' & Hf' & Hr' & Hle' & Hw'). exists (new' ++ new).
    split; [by rewrite Hf', Hf, (assoc_L (++))|]. split; [congruence|]. split; [lia|done].
Qed.

(** ** Content that is moved *)

(** A node that is no fragment, no script, and may have data if it is an element. *)
Definition accepted (n : info) : bool := Data.acceptData (Data.Elem 0 (nodeType n) (nodeName n) None).
Definition plain (n : info) : bool :=
  negb (is_fragment n) && negb (named n (js "script")) && (negb (nodeType n =? 1)%N || accepted n).
Definition plain_tree t : Prop := ∀ u, u ∈ nodes t → plain (info_of u) = true.
Definition movable f (x : nat) : Prop := ∃ t, find_in x f = Some t ∧ plain_tree t.

Lemma plain_tree_graft pl x new t : plain_tree t → Forall plain_tree new → plain_tree (graft pl x new t).
Proof.
  intros Ht Hn u [(k & Hk & Hu)%in_all_nodes|(v & Hv & _ & <-)]%graft_infos; [|by apply Ht].
  rewrite Forall_forall in Hn. by apply (Hn k).
Qed.
Lemma plain_prune x f : Forall plain_tree f → Forall plain_tree (prune x f).
Proof.
  rewrite !Forall_forall. intros Hf t Ht u Hu.
  destruct (prune_infos x f u) as (v & (k & Hk & Hv)%in_all_nodes & _ & <-); [apply in_all_nodes; by exists t|].
  by apply (Hf k).
Qed.
Lemma not_script n : (nodeName n = js "#document-fragment") → named n (js "script") = false.
Proof. intros E. unfold named. rewrite E, !to_lower_ascii by (repeat constructor). by vm_compute. Qed.
Lemma below_plain t : (∀ u, u ∈ tail (nodes t) → plain (info_of u) = true) → below (Named (js "script")) t = [].
Proof.
  intros H1. unfold below. destruct (base.filter _ _) as [|u l] eqn:E; [done|]. exfalso.
  assert (u ∈ u :: l) as Hu by constructor. rewrite <- E in Hu. apply list_elem_of_filter in Hu as [Hf Hu].
  unfold fits in Hf. apply andb_true_iff in Hf as [_ Hf]. specialize (H1 u Hu). unfold plain in H1.
  rewrite Hf in H1. cbn in H1. by rewrite andb_false_r in H1.
Qed.
(** There are no scripts in such content, nor in a fragment of it. *)
Lemma no_scripts w x t :
  find_in x (forest w) = Some t → (∀ u, u ∈ tail (nodes t) → plain (info_of u) = true) →
  named (info_of t) (js "script") = false → getAll w x (Named (js "script")) = [].
Proof. intros Hf H1 H2. unfold getAll. rewrite Hf, H2. by apply below_plain. Qed.
Lemma plain_no_scripts w x t :
  find_in x (forest w) = Some t → plain_tree t → getAll w x (Named (js "script")) = [].
Proof.
  intros Hf Ht. apply (no_scripts w x t Hf).
  - intros u Hu. apply Ht. destruct t. by right.
  - specialize (Ht t). unfold plain in Ht. destruct (named (info_of t) (js "script")); [|done].
    rewrite andb_false_r in Ht. destruct t. by discriminate Ht; constructor.
Qed.

(** ** The reference: nodes are collected

    A node is taken out of the collection or of the rest of the page, where it is, and
    put at the end of the collection. *)
Definition collect_one (p : list tree * list tree) (x : nat) : list tree * list tree :=
  match find_in x (p.2 ++ p.1) with Some t => (prune x p.1 ++ [t], prune x p.2) | None => p end.
Definition collect (xs : list nat) (p : list tree * list tree) : list tree * list tree := foldl collect_one p xs.

(** A page whose fragment [fr] holds the collection. *)
Definition holds w (f1 : list tree) (fr : nat) (ts f2 : list tree) : Prop :=
  wf w ∧ forest w = f1 ++ Tree fr fragment_node ts :: f2.

Lemma holds_ids w f1 fr ts f2 : holds w f1 fr ts f2 →
  NoDup (fr :: all_ids (f1 ++ f2 ++ ts)) ∧ all_ids (forest w) ≡ₚ fr :: all_ids (f1 ++ f2 ++ ts).
Proof.
  intros [[Hd _] E]. assert (Hp : all_ids (forest w) ≡ₚ fr :: all_ids (f1 ++ f2 ++ ts)).
  { rewrite E, !all_ids_app, all_ids_cons, ids_tree. solve_Permutation. }
  split; [|done]. by rewrite <- Hp.
Qed.
Lemma holds_nodes_in w f1 fr ts f2 u : holds w f1 fr ts f2 → u ∈ all_nodes ((f1 ++ f2) ++ ts) → u ∈ all_nodes (forest w).
Proof.
  intros [_ ->]. unfold all_nodes. rewrite !bind_app. cbn. rewrite !elem_of_app, elem_of_cons, elem_of_app. tauto.
Qed.
(** Apart from the fragment, the same nodes are found. *)
Lemma holds_find w f1 fr ts f2 x t : holds w f1 fr ts f2 → x ≠ fr →
  find_in x (forest w) = Some t → find_in x ((f1 ++ f2) ++ ts) = Some t.
Proof.
  intros Hh Hx Hf. pose proof (holds_ids _ _ _ _ _ Hh) as [Hd Hp]. destruct Hh as [[Hdw _] E].
  apply find_in_iff; [by apply NoDup_cons in Hd as [_ Hd]; rewrite <- (assoc_L (++))|].
  apply find_in_some in Hf as [Ht Et]. split; [|done]. rewrite E in Ht. unfold all_nodes in *.
  rewrite !bind_app in *. cbn in Ht. rewrite !elem_of_app in *. cbn in Ht.
  rewrite !elem_of_cons, elem_of_app in Ht. destruct Ht as [Ht|[->|[Ht|Ht]]]; [by auto|by cbn in Et|by auto|by auto].
Qed.
Lemma holds_root w f1 fr ts f2 t : holds w f1 fr ts f2 → t ∈ all_nodes (forest w) → fr ∈ ids t → id_of t = fr.
Proof.
  intros Hh Ht Hfr. pose proof (holds_ids _ _ _ _ _ Hh) as [[Hn _]%NoDup_cons _]. destruct Hh as [[Hd _] E].
  rewrite E in Ht. apply in_all_nodes in Ht as (k & Hk & Ht).
  assert (fr ∈ ids k) as Hfk by (by eapply ids_trans). rewrite !all_ids_app, !elem_of_app in Hn.
  apply elem_of_app in Hk as [Hk|[->|Hk]%elem_of_cons].
  - destruct Hn. left. apply in_all_ids. by exists k.
  - rewrite nodes_tree in Ht. apply elem_of_cons in Ht as [->|Ht]; [done|]. destruct Hn. right. right. by eapply node_ids.
  - destruct Hn. right. left. apply in_all_ids. by exists k.
Qed.

(** One node goes to the fragment. *)
Lemma append_to_fragment w f1 fr ts f2 x t :
  holds w f1 fr ts f2 → x ≠ fr → find_in x (forest w) = Some t → is_fragment (info_of t) = false →
  ∃ w', appendChild is_fragment fr x w = (Ok tt, w') ∧
    holds w' (prune x f1) fr (prune x ts ++ [t]) (prune x f2) ∧
    rest w' = rest w ∧ fresh w' = fresh w ∧ all_ids (forest w') ≡ₚ all_ids (forest w).
Proof.
  intros Hh Hx Hf Hnf. pose proof (holds_ids _ _ _ _ _ Hh) as [[Hn Hd']%NoDup_cons Hp]. pose proof Hh as [[Hd Hlt] E].
  pose proof (find_in_some _ _ _ Hf) as [Ht Et].
  assert (Hfr : find_in fr (forest w) = Some (Tree fr fragment_node ts)).
  { apply find_in_iff; [done|]. split; [|done]. rewrite E. apply in_all_nodes.
    exists (Tree fr fragment_node ts). split; [apply elem_of_app; right; by constructor|constructor]. }
  assert (Hnot : fr ∉ ids t).
  { intros H1. apply Hx. rewrite <- Et. by eapply holds_root. }
  unfold appendChild, insertBefore. rewrite Hf, Hfr, bool_decide_false by done. cbn [kids_of].
  rewrite (bool_decide_false (None = Some x)) by done.
  eexists. split; [reflexivity|]. unfold moved, taken. rewrite Hnf, Et.
  rewrite !all_ids_app, !elem_of_app in Hn.
  assert (Hpr : ∀ l : list tree, fr ∉ all_ids l → fr ∉ all_ids (prune x l)).
  { intros l Hl. rewrite <- all_nodes_ids. intros (v & -> & (u & Hu & E1 & _)%prune_infos)%list_elem_of_fmap.
    apply Hl. rewrite <- E1, <- all_nodes_ids. by apply list_elem_of_fmap_2. }
  assert ((fr ∉ all_ids f1) ∧ (fr ∉ all_ids f2) ∧ fr ∉ all_ids ts) as (Hn1 & Hn2 & Hn3) by tauto.
  assert (Efor : graft LastOf fr [t] <$> prune x (forest w) =
    prune x f1 ++ Tree fr fragment_node (prune x ts ++ [t]) :: prune x f2).
  { rewrite E, prune_app, prune_cons. cbn [id_of]. rewrite (proj2 (Nat.eqb_neq fr x)) by done. cbn [app].
    rewrite graft_prune by done. cbn [id_of info_of kids_of]. rewrite fmap_app, fmap_cons, graft_here by auto.
    rewrite !graft_all_absent by auto. done. }
  assert (Hids : all_ids (graft LastOf fr [t] <$> prune x (forest w)) ≡ₚ all_ids (forest w)).
  { rewrite (prune_ids x (forest w) t Hd Hf), all_ids_graft; try done.
    - cbn. rewrite app_nil_r. apply Permutation_app_comm.
    - by apply prune_NoDup.
    - apply (in_prune_ids x _ t); [done|done|]. split; [|done]. rewrite Hp. constructor. }
  unfold with_forest. split; [|done]. split; [|done]. apply (wf_perm w); [done|done|lia].
Qed.
Lemma movable_step w w' f1 fr ts f2 x t y :
  holds w f1 fr ts f2 → holds w' (prune x f1) fr (prune x ts ++ [t]) (prune x f2) → x ≠ fr →
  find_in x (forest w) = Some t → plain_tree t → y ≠ fr → movable (forest w) y → movable (forest w') y.
Proof.
  intros Hh Hh' Hx Hf Hpt Hy (v & Hv & Hpv). pose proof Hh as [[Hd _] E]. pose proof Hh' as [[Hd' _] E'].
  pose proof (find_in_some _ _ _ Hv) as [Hvin Eid]. pose proof (find_in_some _ _ _ Hf) as [Htin Et].
  assert (Hin : ∀ u, u ∈ all_nodes (prune x f1) ∨ u ∈ all_nodes (prune x ts ++ [t]) ∨ u ∈ all_nodes (prune x f2) →
    u ∈ all_nodes (forest w')).
  { intros u Hu. rewrite E', all_nodes_app. unfold all_nodes in *. cbn. rewrite !elem_of_app, elem_of_cons, elem_of_app. tauto. }
  destruct (decide (y ∈ ids t)) as [Hyt|Hyt].
  - assert (v ∈ nodes t) as Hvt.
    { rewrite <- nodes_ids in Hyt. apply list_elem_of_fmap in Hyt as (u & Eu & Hu).
      assert (v = u) as ->; [|done]. apply (node_unique (forest w)); [done|done| |congruence].
      by eapply all_nodes_trans. }
    exists v. split; [|done]. apply find_in_iff; [done|]. split; [|done]. apply Hin. right. left.
    rewrite all_nodes_app. apply elem_of_app. right. apply in_all_nodes. exists t. split; [|done]. by apply list_elem_of_singleton.
  - exists (graft InsteadOf x [] v). split; [|by apply plain_tree_graft].
    apply find_in_iff; [done|]. rewrite id_of_graft. split; [|done]. apply Hin.
    assert (graft InsteadOf x [] v ∈ all_nodes (prune x (forest w))) as Hvp by (by apply (node_prune x _ t); [..|rewrite Eid]).
    rewrite E, prune_app, prune_cons in Hvp. cbn [id_of] in Hvp. rewrite (proj2 (Nat.eqb_neq fr x)) in Hvp by done.
    cbn [app] in Hvp. rewrite (graft_prune x (Tree fr fragment_node ts)) in Hvp by done. cbn [id_of info_of kids_of] in Hvp.
    rewrite all_nodes_app in *. unfold all_nodes in *. cbn in Hvp. rewrite !elem_of_app, elem_of_cons, elem_of_app in *.
    destruct Hvp as [?|[Er|[?|?]]]; [by auto| |by auto|by auto].
    exfalso. apply Hy. rewrite <- Eid, <- (id_of_graft InsteadOf x []), Er. done.
Qed.

(** [gather] does what the reference does, to nodes without scripts. *)
Lemma gather_spec sel xs : ∀ w f1 fr ts f2,
  holds w f1 fr ts f2 → Forall plain_tree ts →
  (∀ x, x ∈ xs → x ∉ sel → x ≠ fr ∧ movable (forest w) x) →
  ∃ w' f1' ts' f2', gather document fr false sel xs w = (Ok [], w') ∧
    collect (base.filter (λ x, x ∉ sel) xs) (ts, f1 ++ f2) = (ts', f1' ++ f2') ∧
    holds w' f1' fr ts' f2' ∧ Forall plain_tree ts' ∧ rest w' = rest w ∧ fresh w' = fresh w ∧
    all_ids (forest w') ≡ₚ all_ids (forest w).
Proof.
  induction xs as [|x xs IH]; intros w f1 fr ts f2 Hh Hpl Hm.
  { exists w, f1, ts, f2. done. }
  cbn [gather]. rewrite filter_cons. destruct (decide (x ∈ sel)) as [Hs|Hs].
  - rewrite bool_decide_true, decide_False by tauto. apply IH; [done..|]. intros y Hy. apply Hm. by constructor.
  - rewrite bool_decide_false, decide_True by done. destruct (Hm x) as [Hx (t & Hf & Hpt)]; [constructor|done|].
    assert (Hnf : is_fragment (info_of t) = false).
    { specialize (Hpt t). unfold plain in Hpt. destruct (is_fragment (info_of t)); [|done].
      destruct t. by discriminate Hpt; constructor. }
    destruct (append_to_fragment w f1 fr ts f2 x t Hh Hx Hf Hnf) as (w1 & E1 & Hh1 & Hr1 & Hfr1 & Hi1).
    rewrite get_then, (bind_ok _ _ _ _ _ E1).
    assert (Hf1 : find_in x (forest w1) = Some t).
    { apply find_in_some in Hf as [_ Et]. apply find_in_iff; [apply Hh1|]. split; [|done]. destruct Hh1 as [_ ->].
      apply in_all_nodes. exists (Tree fr fragment_node (prune x ts ++ [t])). split; [apply elem_of_app; right; by constructor|].
      rewrite nodes_tree. right. apply in_all_nodes. exists t. split; [apply elem_of_app; right; by apply list_elem_of_singleton|].
      destruct t. constructor. }
    rewrite get_then, (plain_no_scripts w1 x t Hf1 Hpt).
    assert (∀ b : bool, (if b then setGlobalEval [] None else mret tt) w1 = (Ok tt, w1)) as Eb by (by intros []).
    rewrite (bind_ok _ _ _ _ _ (Eb _)), get_then.
    destruct (IH w1 _ _ _ _ Hh1) as (w2 & f1' & ts' & f2' & E2 & Ec & Hh2 & Hp2 & Hr2 & Hfr2 & Hi2).
    + apply Forall_app. split; [by apply plain_prune|by apply Forall_singleton].
    + intros y Hy Hys. destruct (Hm y) as [Hyf Hym]; [by constructor|done|]. split; [done|]. by apply (movable_step w w1 f1 fr ts f2 x t).
    + rewrite (bind_ok _ _ _ _ _ E2). exists w2, f1', ts', f2'. split; [done|]. split.
      { change (collect (x :: ?l) ?p) with (collect l (collect_one p x)). rewrite <- Ec. f_equal. unfold collect_one.
        cbn [fst snd]. by rewrite (holds_find w f1 fr ts f2 x t Hh Hx Hf), prune_app. }
      split; [done|]. split; [done|]. split; [congruence|]. split; [congruence|]. by rewrite Hi2.
Qed.

(** ** Clones *)

Lemma node_data_accepts w x : Data.acceptData (node_data w x) = accepted (info_of_id w x).
Proof. done. Qed.
Lemma set_entry_found e (en : Data.entry (pval Handler U)) d :
  is_Some (Data.lookup_entry e d) → Data.lookup_entry e (Data.set_entry e en d) = Some en.
Proof.
  unfold Data.lookup_entry, Data.set_entry. destruct (Data.is_node e) eqn:En.
  - destruct (Data.expando d !! Data.self e) as [id|] eqn:E; [|by intros [? ?]]. intros _. cbn. rewrite E. cbn.
    apply lookup_insert_eq.
  - intros _. cbn. apply lookup_insert_eq.
Qed.
Lemma ensure_found e (d : Data.store (pval Handler U)) : is_Some (Data.lookup_entry e (Data.ensure e d)).
Proof.
  unfold Data.ensure. set (d0 := if Data.is_node e then _ else d).
  assert (Hd0 : Data.is_node e = true → is_Some (Data.expando d0 !! Data.self e)).
  { intros En. unfold d0. rewrite En. destruct (Data.expando d !! Data.self e) as [id|] eqn:E; [by exists id|].
    unfold Data.new_id. destruct (Data.deletedIds d); cbn; rewrite lookup_insert_eq; eauto. }
  destruct (Data.lookup_entry e d0) as [en|] eqn:E; [by exists en|]. unfold Data.lookup_entry, Data.set_entry.
  destruct (Data.is_node e) eqn:En.
  - destruct (Hd0 eq_refl) as [id Hid]. rewrite Hid. cbn. rewrite Hid. cbn. rewrite lookup_insert_eq. eauto.
  - cbn. rewrite lookup_insert_eq. eauto.
Qed.
Lemma internalData_found e ps (d : Data.store (pval Handler U)) :
  Data.acceptData e = true →
  is_Some (Data.lookup_entry e (Data.internalData is_null no_inherited e (Data.Props ps) true d).2).
Proof.
  intros Ha. unfold Data.internalData. rewrite Ha. cbn [negb orb Data.early].
  destruct (Data.lookup_entry e (Data.ensure e d)) as [en|] eqn:E.
  - cbn [snd]. rewrite set_entry_found by (by exists en). eauto.
  - pose proof (ensure_found e d) as [? Hs]. congruence.
Qed.

(** Only the data changes, and what the events need. *)
Definition same_forest w w' : Prop := forest w' = forest w ∧ fresh w' = fresh w ∧ acts w' = acts w.
Lemma same_forest_trans w1 w2 w3 : same_forest w1 w2 → same_forest w2 w3 → same_forest w1 w3.
Proof. intros (A1 & A2 & A3) (B1 & B2 & B3). repeat split; congruence. Qed.
Lemma _data_same x r w : same_forest w (_data x r w).2.
Proof. unfold _data. by destruct (Data.internalData _ _ _ _ _ _) as [a d]. Qed.
Lemma cloneCopyEvent_ok x y w :
  negb (nodeType (info_of_id w y) =? 1)%N || accepted (info_of_id w y) = true →
  ∃ w', cloneCopyEvent x y w = (Ok tt, w') ∧ same_forest w w'.
Proof.
  intros Hy. unfold cloneCopyEvent. destruct (negb (nodeType (info_of_id w y) =? 1)%N) eqn:Ey; [by exists w|].
  cbn [orb] in Hy |- *. destruct (negb (Data.hasData _ _)); [by exists w|].
  destruct (Data.lookup_entry (node_data w x) _) as [old|]; [|by exists w].
  pose proof (_data_same y (Data.Props (prod_map id Some <$> Data.private old)) w) as Hs.
  unfold _data in Hs |- *. pose proof (internalData_found (node_data w y) (prod_map id Some <$> Data.private old) (data (rest w))) as Hf.
  rewrite node_data_accepts in Hf. specialize (Hf Hy). destruct (Data.internalData _ _ _ _ _ _) as [a d]. cbn [snd] in *.
  cbn [data rest with_data]. destruct Hf as [cur ->].
  destruct (obj_get _ _) as [[b|evs| |u]|]; eexists; (split; [reflexivity|]); done.
Qed.
Lemma same_forest_info w w' x : same_forest w w' → info_of_id w' x = info_of_id w x.
Proof. intros (E & _ & _). unfold info_of_id. by rewrite E. Qed.
Lemma copy_events_ok xs ys : ∀ w,
  length xs = length ys →
  (∀ y, y ∈ ys → negb (nodeType (info_of_id w y) =? 1)%N || accepted (info_of_id w y) = true) →
  ∃ w', copy_events xs ys w = (Ok tt, w') ∧ same_forest w w'.
Proof.
  revert ys. induction xs as [|x xs IH]; intros [|y ys] w Hl Hy; try done; [by exists w|].
  cbn [copy_events]. destruct (cloneCopyEvent_ok x y w) as (w1 & E1 & H1); [apply Hy; constructor|].
  rewrite (bind_ok _ _ _ _ _ E1). destruct (IH ys w1) as (w2 & E2 & H2).
  - by injection Hl.
  - intros z Hz. rewrite (same_forest_info w w1) by done. apply Hy. by constructor.
  - exists w2. split; [done|]. by eapply same_forest_trans.
Qed.

(** What can be cloned: plain content, and a fragment of it. *)
Definition clonable t : Prop :=
  (∀ u, u ∈ tail (nodes t) → plain (info_of u) = true) ∧ named (info_of t) (js "script") = false ∧
  negb (nodeType (info_of t) =? 1)%N || accepted (info_of t) = true.
Lemma plain_clonable t : plain_tree t → clonable t.
Proof.
  intros Ht. assert (plain (info_of t) = true) as Hr by (apply Ht; destruct t; constructor). split.
  - intros u Hu. apply Ht. destruct t. by right.
  - unfold plain in Hr. apply andb_true_iff in Hr as [[_ Hr]%andb_true_iff Ha]. split; [|done].
    by apply negb_true_iff in Hr.
Qed.
Lemma fragment_clonable fr ts : Forall plain_tree ts → clonable (Tree fr fragment_node ts).
Proof.
  intros Hts. split; [|split; [by apply not_script|done]]. cbn. intros u (t & Hu & Ht)%list_elem_of_bind.
  rewrite Forall_forall in Hts. by apply (Hts t).
Qed.
Lemma tail_infos t t' : Forall2 (λ u v, info_of u = info_of v) (nodes t) (nodes t') →
  Forall2 (λ u v, info_of u = info_of v) (tail (nodes t)) (tail (nodes t')) ∧ info_of t = info_of t'.
Proof. destruct t, t'. rewrite !nodes_tree. intros [H1 H2]%Forall2_cons. done. Qed.
Lemma clonable_copy t t' : erase t = erase t' → clonable t → clonable t'.
Proof.
  intros [Hn Hi]%erase_nodes%tail_infos (H1 & H2 & H3). rewrite Hi in H2, H3. split; [|done].
  intros v Hv. apply list_elem_of_lookup_1 in Hv as [i Hi']. destruct (Forall2_lookup_r _ _ _ _ _ Hn Hi') as (u & Hu & <-).
  apply H1. by eapply list_elem_of_lookup_2.
Qed.
Lemma below_length tg t t' : erase t = erase t' → length (below tg t) = length (below tg t').
Proof.
  intros [Hn _]%erase_nodes%tail_infos. unfold below. rewrite !length_fmap.
  induction Hn as [|u v l l' E _ IH]; [done|]. rewrite !filter_cons, E. destruct (decide _); cbn; by rewrite IH.
Qed.
Lemma in_below tg t x : x ∈ below tg t → ∃ u, u ∈ tail (nodes t) ∧ id_of u = x.
Proof. unfold below. intros (u & -> & [_ Hu]%list_elem_of_filter)%list_elem_of_fmap. by exists u. Qed.
Lemma info_of_node w u : wf w → u ∈ all_nodes (forest w) → info_of_id w (id_of u) = info_of u.
Proof. intros [Hd _] Hu. unfold info_of_id. by rewrite (proj2 (find_in_iff _ _ _ Hd) (conj Hu eq_refl)). Qed.
Lemma find_new t f : find_in (id_of t) (t :: f) = Some t.
Proof. destruct t as [i n ks]. unfold find_in. cbn. by rewrite Nat.eqb_refl. Qed.

Lemma clone_spec w x t :
  wf w → find_in x (forest w) = Some t → clonable t →
  ∃ w' t', clone document x true true w = (Ok (id_of t'), w') ∧ forest w' = t' :: forest w ∧
    erase t' = erase t ∧ (∀ y, y ∈ ids t' → fresh w ≤ y) ∧ wf w' ∧ acts w' = acts w ∧ fresh w ≤ fresh w'.
Proof.
  intros Hw Hf Hc. unfold clone. rewrite get_then. pose proof (copy_spec t (fresh w)) as Hcopy.
  destruct (copy t (fresh w)) as [t' n] eqn:Ecopy. destruct Hcopy as (Ee & Hids & Hn).
  set (w1 := World (t' :: forest w) n (rest w)).
  assert (cloneNode x w = (Ok (id_of t'), w1)) as E1 by (unfold cloneNode; by rewrite Hf, Ecopy).
  rewrite (bind_ok _ _ _ _ _ E1).
  assert (Hw1 : wf w1).
  { apply (wf_new w [t']); [done| |lia]. cbn. rewrite app_nil_r, Hids. f_equal. lia. }
  assert (Hc' : clonable t') by (by apply (clonable_copy t)).
  assert (Hxw1 : find_in x (forest w1) = Some t).
  { apply find_in_some in Hf as [Ht <-]. apply find_in_iff; [apply Hw1|]. split; [|done]. unfold all_nodes. cbn.
    apply elem_of_app. by right. }
  assert (Hcw1 : find_in (id_of t') (forest w1) = Some t') by apply find_new.
  destruct (copy_events_ok (getAll w1 x Undefined) (getAll w1 (id_of t') Undefined) w1) as (w2 & E2 & H2).
  { unfold getAll. rewrite Hxw1, Hcw1. cbn. f_equal. by apply below_length. }
  { intros y Hy. unfold getAll in Hy. rewrite Hcw1 in Hy.
    assert (∃ u, u ∈ nodes t' ∧ id_of u = y) as (u & Hu & <-).
    { apply elem_of_cons in Hy as [->|(u & Hu & Eu)%in_below]; [exists t'; split; [by destruct t'; constructor|done]|].
      exists u. split; [|done]. destruct t'. by right. }
    rewrite info_of_node; [|done|unfold all_nodes; cbn; apply elem_of_app; by left].
    destruct Hc' as (H1 & _ & H3). destruct t' as [j m kk]. rewrite nodes_tree in Hu.
    apply elem_of_cons in Hu as [->|Hu]; [done|]. specialize (H1 u Hu). unfold plain in H1.
    by apply andb_true_iff in H1 as [_ H1]. }
  assert (E2' : (w ← get; copy_events (getAll w x Undefined) (getAll w (id_of t') Undefined)) w1 = (Ok tt, w2))
    by (by rewrite get_then).
  rewrite (bind_ok _ _ _ _ _ E2'), get_then. destruct H2 as (F2 & N2 & A2).
  assert (Hcw2 : find_in (id_of t') (forest w2) = Some t') by (by rewrite F2).
  destruct Hc' as (H1 & H3 & _). rewrite (no_scripts w2 (id_of t') t' Hcw2 H1 H3).
  exists w2, t'. split; [done|]. split; [by rewrite F2|]. split; [done|]. split.
  { intros y Hy. rewrite Hids in Hy. apply elem_of_seq in Hy. lia. }
  split; [destruct Hw1 as [B1 B2]; split; [by rewrite F2|by rewrite F2, N2]|]. split; [by rewrite A2|]. rewrite N2. cbn. lia.
Qed.

(** ** The callbacks *)

(** The node whose children change: the target, which holds nodes, or its parent. *)
Definition anchor pl f (target : nat) u : Prop :=
  find_in (id_of u) f = Some u ∧
  if beside pl then target ∈ id_of <$> kids_of u
  else id_of u = target ∧ holds_nodes (info_of u) = true.
Lemma moved_taken w x t : wf w → find_in x (forest w) = Some t →
  NoDup (all_ids (taken is_fragment t (forest w))).
Proof.
  intros [Hd _] Hf. rewrite (taken_ids is_fragment x (forest w) t Hd Hf) in Hd. by apply NoDup_app in Hd as (_ & _ & Hd).
Qed.
Lemma insert_ref w x t u (ref : option nat) :
  find_in x (forest w) = Some t → find_in (id_of u) (forest w) = Some u → id_of u ∉ ids t → x ∉ ids u →
  (∀ r, ref = Some r → r ∈ id_of <$> kids_of u) →
  insertBefore is_fragment (id_of u) x ref w =
    (Ok tt, with_forest (match ref with
      | None => graft LastOf (id_of u) (moved is_fragment t)
      | Some r => graft BeforeIt r (moved is_fragment t)
      end <$> taken is_fragment t (forest w)) w).
Proof.
  intros Hf Hu Hut Hxu Hr. unfold insertBefore. rewrite Hf, Hu, bool_decide_false by done.
  rewrite bool_decide_false.
  2: { intros E. apply Hxu. destruct u as [i n ks]. right. specialize (Hr x E). cbn in Hr.
       apply list_elem_of_fmap in Hr as (k & -> & Hk). by apply kid_in_ids. }
  destruct ref as [r|]; [|done]. by rewrite bool_decide_true by (by apply Hr).
Qed.
Lemma callback_spec pl w x t target u :
  inserts pl = true → wf w → find_in x (forest w) = Some t → anchor pl (forest w) target u →
  x ∉ ids u → id_of u ∉ ids t →
  (beside pl = false → manipulationTarget target x w = (Ok target, w)) →
  ∃ p, callback pl target x w =
    (Ok p, with_forest (graft pl target (moved is_fragment t) <$> taken is_fragment t (forest w)) w).
Proof.
  intros Hp Hw Hf [Hu Ha] Hxu Hut Hstraight. pose proof (moved_taken w x t Hw Hf) as Hdt.
  assert (Hin : u ∈ all_nodes (taken is_fragment t (forest w))).
  { apply (node_taken is_fragment x); [apply Hw|done| |done|done]. by apply find_in_some in Hu as [? _]. }
  assert (Hc : childNodes (id_of u) w = id_of <$> kids_of u) by (unfold childNodes; by rewrite Hu).
  unfold callback. rewrite get_then. destruct (beside pl) eqn:Eb.
  - assert (u ∈ all_nodes (forest w)) as Hpar by (by apply find_in_some in Hu as [? _]).
    pose proof (parent_in_of_kid _ _ _ (proj1 Hw) Hpar Ha) as Hpa. destruct u as [p n ks]. cbn [id_of kids_of] in *.
    apply list_elem_of_fmap in Ha as (k & Ek & (l1 & l2 & ->)%list_elem_of_split). symmetry in Ek.
    assert (parentNode target w = (Ok (Some p), w)) as E1 by (unfold parentNode; by rewrite Hpa).
    assert (Hdu : NoDup (ids (Tree p n (l1 ++ k :: l2)))) by (eapply NoDup_node; [apply Hw|done]).
    assert (Hkids : id_of <$> (l1 ++ k :: l2) = (id_of <$> l1) ++ target :: (id_of <$> l2)).
    { rewrite fmap_app. cbn. by rewrite Ek. }
    pose proof (insert_ref w x t (Tree p n (l1 ++ k :: l2))) as Ei. cbn [id_of kids_of] in Ei, Hc.
    destruct pl; try done; rewrite (bind_ok _ _ _ _ _ E1).
    + rewrite (bind_ok _ _ _ _ _ (Ei (Some target) Hf Hu Hut Hxu
        ltac:(intros r [= <-]; rewrite Hkids; apply elem_of_app; right; constructor))).
      by eexists.
    + unfold nextSibling. rewrite Hc, Hkids, after_spec.
      2: { apply NoDup_ids_kids in Hdu as [_ Hdu]. rewrite all_ids_app, all_ids_cons in Hdu.
           apply NoDup_app in Hdu as (_ & Hdu & _). intros (k' & Ek' & Hk')%list_elem_of_fmap.
           apply (Hdu target); [rewrite Ek'; by apply kid_in_ids|]. apply elem_of_app. left. rewrite <- Ek. apply id_in_ids. }
      destruct l2 as [|b l2]; cbn [fmap list_fmap head].
      * rewrite (bind_ok _ _ _ _ _ (Ei None Hf Hu Hut Hxu ltac:(done))).
        eexists. rewrite <- Ek. by rewrite (after_is_last _ _ _ _ _ _ Hdt Hin).
      * rewrite (bind_ok _ _ _ _ _ (Ei (Some (id_of b)) Hf Hu Hut Hxu
          ltac:(intros r [= <-]; rewrite Hkids; apply elem_of_app; right; right; constructor))).
        eexists. rewrite <- Ek. by rewrite (after_is_before _ _ _ _ _ _ _ _ Hdt Hin).
  - destruct Ha as (<- & Hh). specialize (Hstraight eq_refl) as E1.
    assert (Hi : info_of_id w (id_of u) = info_of u) by (unfold info_of_id; by rewrite Hu).
    rewrite Hi, Hh. destruct pl; try done; rewrite (bind_ok _ _ _ _ _ E1), get_then.
    + rewrite Hc. destruct u as [i n [|k ks]]; cbn [kids_of fmap list_fmap head id_of] in *.
      * rewrite (bind_ok _ _ _ _ _ (insert_ref w x t (Tree i n []) None Hf Hu Hut Hxu ltac:(done))).
        eexists. cbn [id_of]. by rewrite (first_is_last i n _ _ Hdt Hin).
      * pose proof (insert_ref w x t (Tree i n (k :: ks)) (Some (id_of k)) Hf Hu Hut Hxu) as Ei.
        cbn [id_of] in Ei. rewrite (bind_ok _ _ _ _ _ (Ei ltac:(intros r [= <-]; constructor))).
        eexists. by rewrite (first_is_before i n _ _ _ _ Hdt Hin).
    + rewrite (bind_ok _ _ _ _ _ (insert_ref w x t u None Hf Hu Hut Hxu ltac:(done))). by eexists.
Qed.

(** ** The reference: the content is put at every target

    A table that is given rows gets them in its first [tbody], at any depth, or in a new
    one that is appended to it. *)
Definition rows (new : list tree) : bool := match new with t :: _ => named (info_of t) (js "tr") | [] => false end.
Definition is_table (f : list tree) (target : nat) : bool :=
  match find_in target f with Some u => named (info_of u) (js "table") | None => false end.
Definition tbody_of (f : list tree) (target : nat) : option nat :=
  t ← find_in target f; head (below (Named (js "tbody")) t).
Definition through_tbody (pl : place) (new f : list tree) (target : nat) : bool :=
  negb (beside pl) && is_table f target && rows new.
Definition new_tbody (n : nat) : tree := Tree n (element (js "tbody")) [].
Inductive put (pl : place) (new : list tree) (target : nat) (f : list tree) : list tree → Prop :=
  | put_here : through_tbody pl new f target = false → put pl new target f (graft pl target new <$> f)
  | put_tbody b : through_tbody pl new f target = true → tbody_of f target = Some b →
      put pl new target f (graft pl b new <$> f)
  | put_new_tbody n : through_tbody pl new f target = true → tbody_of f target = None → n ∉ all_ids (f ++ new) →
      put pl new target f (graft pl n new <$> (graft LastOf target [new_tbody n] <$> f)).

(** All targets but the last get copies of the content, with nodes that are new. *)
Inductive placed (pl : place) (ts : list tree) : list nat → list tree → list tree → Prop :=
  | placed_last target f f' : put pl ts target f f' → placed pl ts [target] f f'
  | placed_copy target target' set f cs f1 f' :
      erase <$> cs = erase <$> ts → NoDup (all_ids cs) → (∀ x, x ∈ all_ids cs → x ∉ all_ids (f ++ ts)) →
      put pl cs target f f1 → placed pl ts (target' :: set) f1 f' →
      placed pl ts (target :: target' :: set) f f'.

(** A target where the content can be put. *)
Definition good pl f (target : nat) : Prop := ∃ u, anchor pl f target u.
Lemma good_in pl f target : good pl f target → target ∈ all_ids f.
Proof.
  intros (u & Hu & Ha). apply find_in_some in Hu as [Hu _]. eapply node_ids; [exact Hu|].
  destruct (beside pl); [by apply kid_id_in|]. destruct Ha as (<- & _). apply id_in_ids.
Qed.
Lemma good_not_root pl f target : NoDup (all_ids f) → good pl f target → beside pl = true → target ∉ id_of <$> f.
Proof.
  intros Hd (u & Hu & Ha) Hb. rewrite Hb in Ha. apply find_in_some in Hu as [Hu _].
  eapply parent_in_not_root; [done|]. by apply (parent_in_of_kid _ _ u).
Qed.
Lemma good_graft pl x new f target :
  inserts pl = true → NoDup (all_ids f ++ all_ids new) → good pl f x → good pl f target →
  good pl (graft pl x new <$> f) target.
Proof.
  intros Hp Hd Hx (u & Hu & Ha). exists (graft pl x new u). assert (NoDup (all_ids f)) as Hdf by (by apply NoDup_app in Hd as [? _]).
  split.
  - rewrite id_of_graft. apply find_graft; try done; [by apply good_in with pl|by intros; apply good_not_root with pl].
  - destruct (beside pl) eqn:Eb; [by apply graft_kid|]. by rewrite id_of_graft, info_of_graft.
Qed.

Definition emptied (g : nat) : tree := Tree g fragment_node [].
Lemma emptied_ids gs : all_ids (emptied <$> gs) = gs.
Proof. induction gs as [|g gs IH]; [done|]. by rewrite fmap_cons, all_ids_cons, IH. Qed.
(** The page in the loop: the fragments that were emptied, and the collection. *)
Definition around w (gs : list nat) (f1 : list tree) (fr : nat) (ts f2 : list tree) : Prop :=
  wf w ∧ forest w = (emptied <$> gs) ++ f1 ++ Tree fr fragment_node ts :: f2.
Lemma around_ids w gs f1 fr ts f2 : around w gs f1 fr ts f2 →
  all_ids (forest w) ≡ₚ gs ++ fr :: all_ids ts ++ all_ids (f1 ++ f2) ∧
  NoDup (gs ++ fr :: all_ids ts ++ all_ids (f1 ++ f2)).
Proof.
  intros [[Hd _] E]. assert (Hp : all_ids (forest w) ≡ₚ gs ++ fr :: all_ids ts ++ all_ids (f1 ++ f2)).
  { rewrite E, !all_ids_app, all_ids_cons, ids_tree, emptied_ids. solve_Permutation. }
  split; [done|]. by rewrite <- Hp.
Qed.
Lemma around_find w gs f1 fr ts f2 x u : around w gs f1 fr ts f2 →
  find_in x (f1 ++ f2) = Some u → find_in x (forest w) = Some u.
Proof.
  intros [[Hd _] E] Hu. apply find_in_some in Hu as [Hu <-]. apply find_in_iff; [done|]. split; [|done].
  rewrite E. unfold all_nodes in *. rewrite !bind_app in *. cbn. rewrite !elem_of_app in *.
  rewrite elem_of_cons, elem_of_app. tauto.
Qed.
(** A graft in the rest of the page. *)
Lemma around_graft pl w gs f1 fr ts f2 target new : around w gs f1 fr ts f2 → target ∈ all_ids (f1 ++ f2) →
  graft pl target new <$> forest w =
    (emptied <$> gs) ++ (graft pl target new <$> f1) ++ Tree fr fragment_node ts :: (graft pl target new <$> f2).
Proof.
  intros Ha Ht. pose proof (around_ids _ _ _ _ _ _ Ha) as [_ Hd]. destruct Ha as [_ E].
  apply NoDup_app in Hd as (_ & Hg & [Hfr Hd]%NoDup_cons). apply NoDup_app in Hd as (_ & Hts & _).
  rewrite E, !fmap_app, fmap_cons. rewrite (graft_all_absent _ _ _ (emptied <$> gs)).
  - rewrite (graft_absent _ _ _ (Tree fr fragment_node ts)); [done|]. rewrite ids_tree.
    intros [->|Hin]%elem_of_cons; [|by apply (Hts target)]. apply Hfr, elem_of_app. by right.
  - rewrite emptied_ids. intros Hin. apply (Hg target Hin). right. apply elem_of_app. by right.
Qed.

(** What is put: the fragment, or its only child. *)
Definition content_of (fr : nat) (ts : list tree) (node : nat) (t : tree) : Prop :=
  (node = fr ∧ t = Tree fr fragment_node ts) ∨ (ts = [t] ∧ node = id_of t ∧ is_fragment (info_of t) = false).
Lemma content_found w gs f1 fr ts f2 node t : around w gs f1 fr ts f2 → content_of fr ts node t →
  find_in node (forest w) = Some t ∧ moved is_fragment t = ts ∧
  taken is_fragment t (forest w) = (emptied <$> (gs ++ [])) ++ f1 ++ emptied fr :: f2 ∧
  ∀ y, y ∈ ids t → y = fr ∨ y ∈ all_ids ts.
Proof.
  intros Ha Hc. pose proof (around_ids _ _ _ _ _ _ Ha) as [Hp Hd]. rewrite app_nil_r. destruct Ha as [[Hdw _] E].
  apply NoDup_app in Hd as (_ & Hg & [Hfr Hd]%NoDup_cons). apply NoDup_app in Hd as (_ & Hts & _).
  assert (HT : Tree fr fragment_node ts ∈ forest w) by (rewrite E; apply elem_of_app; right; apply elem_of_app; right; constructor).
  destruct Hc as [[-> ->]|(-> & -> & Hnf)].
  - split; [|split; [done|split]].
    + apply find_in_iff; [done|]. split; [|done]. apply in_all_nodes. eexists. split; [exact HT|constructor].
    + unfold taken. cbn [info_of id_of]. change (is_fragment fragment_node) with true. cbv iota.
      rewrite E, !fmap_app, fmap_cons. rewrite all_ids_app, !elem_of_app in Hfr.
      rewrite (graft_all_absent _ _ _ (emptied <$> gs)).
      * rewrite !graft_all_absent by tauto. rewrite graft_here by tauto. done.
      * rewrite emptied_ids. intros Hin. apply (Hg fr Hin). constructor.
    + intros y. rewrite ids_tree. by intros [->|Hy]%elem_of_cons; [left|right].
  - split; [|split; [|split]].
    + apply find_in_iff; [done|]. split; [|done]. apply in_all_nodes. eexists. split; [exact HT|].
      rewrite nodes_tree. right. destruct t. by constructor.
    + unfold moved. by rewrite Hnf.
    + unfold taken. rewrite Hnf, E, !prune_app, prune_cons. cbn [id_of].
      rewrite (prune_absent _ (emptied <$> gs)).
      * rewrite !prune_absent.
        -- rewrite (proj2 (Nat.eqb_neq fr (id_of t))).
           ++ cbn [app]. rewrite graft_prune.
              ** cbn [id_of info_of kids_of]. rewrite prune_cons, Nat.eqb_refl. done.
              ** cbn. intros ->. apply Hfr. cbn. rewrite app_nil_r. apply elem_of_app. left. apply id_in_ids.
           ++ intros ->. apply Hfr. cbn. rewrite app_nil_r. apply elem_of_app. left. apply id_in_ids.
        -- intros Hin. apply (Hts (id_of t)); [cbn; rewrite app_nil_r; apply id_in_ids|]. rewrite all_ids_app. apply elem_of_app. by right.
        -- intros Hin. apply (Hts (id_of t)); [cbn; rewrite app_nil_r; apply id_in_ids|]. rewrite all_ids_app. apply elem_of_app. by left.
      * rewrite emptied_ids. intros Hin. apply (Hg _ Hin). right. apply elem_of_app. left. cbn. rewrite app_nil_r. apply id_in_ids.
    + intros y Hy. right. cbn. by rewrite app_nil_r.
Qed.

(** One callback that does not look for a [tbody]: the trees that the node stands for go to
    the target. *)
Lemma put_spec pl w x t target gs f1 fr ts f2 :
  inserts pl = true → wf w → find_in x (forest w) = Some t →
  taken is_fragment t (forest w) = (emptied <$> gs) ++ f1 ++ Tree fr fragment_node ts :: f2 →
  (∀ u, u ∈ all_nodes (f1 ++ f2) → u ∈ all_nodes (forest w)) →
  (∀ y, y ∈ ids t → y ∉ all_ids (f1 ++ f2)) → good pl (f1 ++ f2) target →
  (beside pl = false → manipulationTarget target x w = (Ok target, w)) →
  let new := moved is_fragment t in
  ∃ a w', callback pl target x w = (Ok a, w') ∧ acts w' = acts w ∧
    around w' gs (graft pl target new <$> f1) fr ts (graft pl target new <$> f2).
Proof.
  intros Hp Hw Hf Et Hsub Hdis Hgood Hstraight new. pose proof Hgood as (u & Hu & Ha).
  pose proof (find_in_some _ _ _ Hf) as [_ Ex]. pose proof (find_in_some _ _ _ Hu) as [Hun _].
  assert (Hfu : find_in (id_of u) (forest w) = Some u) by (apply find_in_iff; [apply Hw|]; split; [by apply Hsub|done]).
  assert (Hids : ∀ y, y ∈ ids u → y ∈ all_ids (f1 ++ f2)) by (intros y; by apply node_ids).
  destruct (callback_spec pl w x t target u Hp Hw Hf) as [a E].
  { by split. }
  { intros Hx. apply (Hdis x); [rewrite <- Ex; apply id_in_ids|by apply Hids]. }
  { intros Hx. apply (Hdis (id_of u) Hx), Hids, id_in_ids. }
  { done. }
  exists a. eexists. split; [exact E|]. split; [done|].
  pose proof (taken_ids is_fragment x (forest w) t (proj1 Hw) Hf) as Hperm.
  pose proof (moved_taken w x t Hw Hf) as Hdt. fold new in Hperm |- *.
  assert (Har : around (with_forest (taken is_fragment t (forest w)) w) gs f1 fr ts f2).
  { split; [|exact Et]. split; [exact Hdt|]. intros y Hy. apply Hw. rewrite Hperm. apply elem_of_app. by right. }
  pose proof (around_ids _ _ _ _ _ _ Har) as [Hpt Hnd]. pose proof (good_in _ _ _ Hgood) as Hin.
  split; [|exact (around_graft pl _ gs f1 fr ts f2 target new Har Hin)].
  apply (wf_perm w); [done| |done]. rewrite all_ids_graft; [by rewrite Hperm, (comm (++))|done|done| |].
  - cbn [forest with_forest] in Hpt. rewrite Hpt. apply elem_of_app. right. right. apply elem_of_app. by right.
  - intros Hb. rewrite Et, !fmap_app, fmap_cons. cbn [id_of].
    apply NoDup_app in Hnd as (_ & Hg & [Hfr Hnd]%NoDup_cons). apply NoDup_app in Hnd as (_ & _ & Hnd).
    pose proof (good_not_root pl (f1 ++ f2) target Hnd Hgood Hb) as Hroot. rewrite fmap_app, elem_of_app in Hroot.
    rewrite !elem_of_app, elem_of_cons. intros [Hin'|[Hin'|[->|Hin']]]; [|by auto| |by auto].
    + apply list_elem_of_fmap in Hin' as (e & -> & (g & -> & Hg')%list_elem_of_fmap). apply (Hg g Hg').
      right. apply elem_of_app. by right.
    + apply Hfr, elem_of_app. by right.
Qed.

Lemma around_sub w gs f1 fr ts f2 u : around w gs f1 fr ts f2 → u ∈ all_nodes (f1 ++ f2) → u ∈ all_nodes (forest w).
Proof.
  intros [_ ->] Hu. unfold all_nodes in *. rewrite !bind_app in *. cbn. rewrite !elem_of_app in *.
  rewrite elem_of_cons, elem_of_app. tauto.
Qed.
(** *** The target of rows in a table *)

Lemma named_tbody n : named n (js "tbody") = true → named n (js "table") = false.
Proof.
  unfold named, str_eqb. intros E%bool_decide_eq_true. rewrite E, !to_lower_ascii by (repeat constructor). by vm_compute.
Qed.
Lemma is_row_spec w x t : wf w → find_in x (forest w) = Some t → moved is_fragment t ≠ [] →
  is_row w x w = (Ok (rows (moved is_fragment t)), w).
Proof.
  intros Hw Hf Hm. pose proof (find_in_some _ _ _ Hf) as [Ht Ex].
  assert (Hi : info_of_id w x = info_of t) by (unfold info_of_id; by rewrite Hf). unfold is_row. rewrite Hi.
  unfold moved, is_fragment in *. destruct (nodeType (info_of t) =? 11)%N; [|done]. cbn [negb].
  unfold childNodes. rewrite Hf. destruct t as [i n [|k ks]]; [done|]. cbn [kids_of fmap list_fmap rows].
  rewrite (info_of_node w k); [done|done|]. eapply all_nodes_trans; [|exact Ht]. rewrite nodes_tree. right.
  apply in_all_nodes. exists k. split; [constructor|]. destruct k. constructor.
Qed.
Section target.
Context (w : page) (x : nat) (t u : tree).
Hypothesis (Hw : wf w) (Hf : find_in x (forest w) = Some t) (Hm : moved is_fragment t ≠ []).
Hypothesis Hu : find_in (id_of u) (forest w) = Some u.
Let through : bool := named (info_of u) (js "table") && rows (moved is_fragment t).
Lemma target_cases :
  manipulationTarget (id_of u) x w =
    if through then
      match head (below (Named (js "tbody")) u) with
      | Some b => (Ok b, w)
      | None => (tbody ← createNode (element (js "tbody")); appendChild is_fragment (id_of u) tbody ≫= λ _, mret tbody) w
      end
    else (Ok (id_of u), w).
Proof.
  unfold manipulationTarget, through. rewrite get_then.
  assert (Hi : info_of_id w (id_of u) = info_of u) by (unfold info_of_id; by rewrite Hu). rewrite Hi.
  destruct (named (info_of u) (js "table")); [|done]. cbn [negb andb].
  rewrite (bind_ok _ _ _ _ _ (is_row_spec w x t Hw Hf Hm)). destruct (rows _); [|done].
  rewrite Hu. cbn [mbind option_bind]. by destruct (head _).
Qed.
Lemma new_tbody_spec : id_of u ∈ all_ids (forest w) →
  let w' := World (graft LastOf (id_of u) [new_tbody (fresh w)] <$> forest w) (Datatypes.S (fresh w)) (rest w) in
  (tbody ← createNode (element (js "tbody")); appendChild is_fragment (id_of u) tbody ≫= λ _, mret tbody) w = (Ok (fresh w), w') ∧
  wf w'.
Proof.
  intros Hin w'. destruct (createNode_spec (element (js "tbody")) w Hw) as (w0 & E0 & F0 & R0 & N0 & Hw0).
  rewrite (bind_ok _ _ _ _ _ E0). fold (new_tbody (fresh w)) in F0.
  assert (Hne : fresh w ∉ all_ids (forest w)) by (intros Hx; destruct Hw as [_ Hlt]; specialize (Hlt _ Hx); lia).
  assert (Hu0 : find_in (id_of u) (forest w0) = Some u).
  { apply find_in_some in Hu as [Hun _]. apply find_in_iff; [apply Hw0|]. split; [|done]. rewrite F0. by right. }
  assert (Hidu : ∀ y, y ∈ ids u → y ∈ all_ids (forest w)) by (intros y; apply node_ids; by apply find_in_some in Hu as [? _]).
  assert (Hu1 : id_of u ∉ ids (new_tbody (fresh w))).
  { unfold new_tbody. rewrite ids_tree, list_elem_of_singleton. intros E. apply Hne. by rewrite <- E. }
  assert (Ht1 : taken is_fragment (new_tbody (fresh w)) (forest w0) = forest w).
  { unfold taken. cbn [info_of id_of new_tbody]. change (is_fragment (element (js "tbody"))) with false. cbv iota.
    rewrite F0. unfold new_tbody. rewrite prune_cons. cbn [id_of]. rewrite Nat.eqb_refl. by rewrite prune_absent. }
  pose proof (insert_ref w0 (fresh w) (new_tbody (fresh w)) u None) as E1. rewrite Ht1 in E1. unfold appendChild.
  rewrite (bind_ok _ _ _ _ _ (E1 ltac:(rewrite F0; apply (find_new (new_tbody (fresh w)))) Hu0 Hu1 ltac:(intros Hx; by apply Hne, Hidu) ltac:(done))).
  assert (Ew : with_forest (graft LastOf (id_of u) (moved is_fragment (new_tbody (fresh w))) <$> forest w) w0 = w').
  { unfold with_forest, w'. by rewrite N0, R0. }
  rewrite Ew. split; [done|]. apply (wf_perm w0); [done| |lia]. rewrite F0, all_ids_graft; [|done|apply Hw|done|done].
  rewrite all_ids_cons. cbn. apply Permutation_app_comm.
Qed.
End target.

(** A call with a table is a call with the [tbody]. *)
Lemma callback_via pl w w1 x target b :
  beside pl = false → inserts pl = true → holds_nodes (info_of_id w target) = true → manipulationTarget target x w = (Ok b, w1) →
  holds_nodes (info_of_id w1 b) = true → manipulationTarget b x w1 = (Ok b, w1) →
  callback pl target x w = callback pl b x w1.
Proof.
  intros Hb Hi H1 E1 H2 E2. unfold callback. rewrite !get_then, H1, H2.
  destruct pl; try done; by rewrite (bind_ok _ _ _ _ _ E1), (bind_ok _ _ _ _ _ E2).
Qed.

Lemma erase_kids t t' : erase t = erase t' → erase <$> kids_of t = erase <$> kids_of t'.
Proof. destruct t, t'. by intros [= _ E]. Qed.

(** The clone of the content is put as the content itself would be. *)
Definition left_over (t : tree) : list nat := if is_fragment (info_of t) then [id_of t] else [].
Lemma clone_moved t t' : erase t' = erase t →
  erase <$> moved is_fragment t' = erase <$> moved is_fragment t ∧
  ∀ f, id_of t' ∉ all_ids f → id_of t' ∉ all_ids (kids_of t') → info_of t = fragment_node ∨ is_fragment (info_of t) = false →
    taken is_fragment t' (t' :: f) = (emptied <$> left_over t') ++ f.
Proof.
  intros E. pose proof (erase_info _ _ E) as Ei. unfold moved, taken, left_over. rewrite Ei. split.
  - destruct (is_fragment _); [by apply erase_kids|by cbn; rewrite E].
  - intros f Hf Hk [Ht|Hnf].
    + rewrite Ht in *. change (is_fragment fragment_node) with true. cbv iota.
      rewrite fmap_cons, graft_all_absent by done. destruct t' as [i n ks]. cbn [id_of info_of kids_of] in *. subst n. by rewrite graft_here.
    + rewrite Hnf. rewrite prune_cons, Nat.eqb_refl, prune_absent by done. done.
Qed.

Lemma content_clonable fr ts node t : Forall plain_tree ts → content_of fr ts node t → clonable t.
Proof.
  intros Hts [[-> ->]|(-> & -> & _)]; [by apply fragment_clonable|]. apply plain_clonable. by rewrite Forall_singleton in Hts.
Qed.

(** *** One callback

    The page when the callback is called, with what is put: the content itself, or a copy
    of it in front. *)
Inductive loaded w x t gs f1 fr ts f2 : list nat → list tree → Prop :=
  | load_content : around w gs f1 fr ts f2 → content_of fr ts x t → loaded w x t gs f1 fr ts f2 gs []
  | load_copy :
      wf w → forest w = t :: (emptied <$> gs) ++ f1 ++ Tree fr fragment_node ts :: f2 → x = id_of t →
      (∀ f, id_of t ∉ all_ids f → taken is_fragment t (t :: f) = (emptied <$> left_over t) ++ f) →
      loaded w x t gs f1 fr ts f2 (left_over t ++ gs) ts.
Definition behind w t : page := World (tail (forest w)) (fresh w) (rest w).
Lemma behind_around w t gs f1 fr ts f2 :
  wf w → forest w = t :: (emptied <$> gs) ++ f1 ++ Tree fr fragment_node ts :: f2 →
  around (behind w t) gs f1 fr ts f2 ∧ ∀ y, y ∈ ids t → y ∉ all_ids (tail (forest w)).
Proof.
  intros [Hd Hlt] E. unfold behind. rewrite E. cbn [tail]. rewrite E, all_ids_cons in Hd. apply NoDup_app in Hd as (_ & Hdis & Hd).
  split; [|done]. split; [|done]. split; [done|]. cbn [forest fresh]. intros y Hy. apply Hlt. rewrite E, all_ids_cons, elem_of_app. by right.
Qed.
Lemma loaded_facts w x t gs f1 fr ts f2 gs' ts' : loaded w x t gs f1 fr ts f2 gs' ts' →
  wf w ∧ find_in x (forest w) = Some t ∧
  taken is_fragment t (forest w) = (emptied <$> gs') ++ f1 ++ Tree fr fragment_node ts' :: f2 ∧
  (∀ v, v ∈ all_nodes (f1 ++ f2) → v ∈ all_nodes (forest w)) ∧ (∀ y, y ∈ ids t → y ∉ all_ids (f1 ++ f2)).
Proof.
  intros [Har Hc|Hw E -> Ht].
  - destruct (content_found w gs f1 fr ts f2 x t Har Hc) as (Hf & _ & Ht & Hids). rewrite app_nil_r in Ht.
    pose proof (around_ids _ _ _ _ _ _ Har) as [_ Hnd]. split; [apply Har|]. split; [done|]. split; [done|]. split.
    { intros v. by eapply around_sub. }
    intros y Hy Hin. apply NoDup_app in Hnd as (_ & _ & [Hfr Hd]%NoDup_cons). apply NoDup_app in Hd as (_ & Hd & _).
    destruct (Hids y Hy) as [->|Hyt]; [|by apply (Hd y)]. apply Hfr, elem_of_app. by right.
  - destruct (behind_around w t gs f1 fr ts f2 Hw E) as [Har Hdis]. split; [done|]. split; [rewrite E; apply find_new|].
    assert (Hsub : ∀ v, v ∈ all_nodes (f1 ++ f2) → v ∈ all_nodes (tail (forest w))) by (intros v; apply (around_sub _ _ _ _ _ _ _ Har)).
    split; [|split].
    + rewrite E, Ht; [by rewrite fmap_app, <- (assoc_L (++))|]. rewrite E in Hdis. apply Hdis, id_in_ids.
    + intros v Hv%Hsub. rewrite E in *. cbn [tail] in Hv. unfold all_nodes in *. cbn. apply elem_of_app. by right.
    + intros y Hy Hin. apply (Hdis y Hy). rewrite <- all_nodes_ids in Hin. apply list_elem_of_fmap in Hin as (v & -> & Hv). eapply node_ids; [by apply Hsub|apply id_in_ids].
Qed.
Lemma loaded_NoDup w x t gs f1 fr ts f2 gs' ts' : loaded w x t gs f1 fr ts f2 gs' ts' →
  NoDup (all_ids (f1 ++ f2) ++ all_ids (moved is_fragment t)) ∧
  ∀ y, y ∈ all_ids ((f1 ++ f2) ++ moved is_fragment t) → y < fresh w.
Proof.
  intros (Hw & Hf & Ht & _)%loaded_facts. pose proof (taken_ids is_fragment x (forest w) t (proj1 Hw) Hf) as Hp.
  rewrite Ht, !all_ids_app, all_ids_cons in Hp. destruct Hw as [Hd Hlt].
  assert (Hsub : all_ids (forest w) ≡ₚ (all_ids (f1 ++ f2) ++ all_ids (moved is_fragment t)) ++ all_ids (emptied <$> gs') ++ ids (Tree fr fragment_node ts')).
  { rewrite Hp, all_ids_app. solve_Permutation. }
  split; [rewrite Hsub in Hd; by apply NoDup_app in Hd as [? _]|]. intros y. rewrite all_ids_app. intros Hy. apply Hlt. rewrite Hsub.
  apply elem_of_app. by left.
Qed.
Lemma loaded_new_tbody w w' x t gs f1 fr ts f2 gs' ts' target n :
  loaded w x t gs f1 fr ts f2 gs' ts' → target ∈ all_ids (f1 ++ f2) → wf w' →
  forest w' = graft LastOf target [new_tbody n] <$> forest w →
  loaded w' x t gs (graft LastOf target [new_tbody n] <$> f1) fr ts (graft LastOf target [new_tbody n] <$> f2) gs' ts'.
Proof.
  intros Hl Ht Hw' E'. pose proof (loaded_facts _ _ _ _ _ _ _ _ _ _ Hl) as (_ & _ & _ & _ & Hdis). destruct Hl as [Har Hc|Hw E Ex Htk].
  - apply load_content; [|done]. split; [done|]. rewrite E'. by eapply around_graft.
  - apply load_copy; [done| |done|done]. destruct (behind_around w t gs f1 fr ts f2 Hw E) as [Har _].
    rewrite E', E, fmap_cons, graft_absent by (intros Hin; by apply (Hdis target)). f_equal.
    pose proof (around_graft LastOf _ gs f1 fr ts f2 target [new_tbody n] Har Ht) as Hg. unfold behind in Hg.
    rewrite E in Hg. cbn [forest tail] in Hg. exact Hg.
Qed.
Lemma put_straight pl w x t target gs f1 fr ts f2 gs' ts' :
  inserts pl = true → loaded w x t gs f1 fr ts f2 gs' ts' → good pl (f1 ++ f2) target →
  (beside pl = false → manipulationTarget target x w = (Ok target, w)) →
  let f1' := graft pl target (moved is_fragment t) <$> f1 in
  let f2' := graft pl target (moved is_fragment t) <$> f2 in
  ∃ a w', callback pl target x w = (Ok a, w') ∧ acts w' = acts w ∧ around w' gs' f1' fr ts' f2' ∧
    ∀ y, good pl (f1 ++ f2) y → good pl (f1' ++ f2') y.
Proof.
  intros Hp Hl Hg Hs f1' f2'. pose proof (loaded_facts _ _ _ _ _ _ _ _ _ _ Hl) as (Hw & Hf & Ht & Hsub & Hdis).
  destruct (put_spec pl w x t target gs' f1 fr ts' f2) as (a & w' & E & Ha & Har); try done.
  exists a, w'. split; [done|]. split; [done|]. split; [done|]. intros y Hy. unfold f1', f2'. rewrite <- fmap_app.
  apply good_graft; [done| |done|done]. by apply (loaded_NoDup _ _ _ _ _ _ _ _ _ _ Hl).
Qed.
Lemma good_inside pl f y : beside pl = false → good pl f y ↔ good LastOf f y.
Proof. intros Hb. unfold good, anchor. by rewrite Hb. Qed.
(** The new [tbody] is found, and the content can be put in it. *)
Lemma find_new_tbody f target n u :
  NoDup (n :: all_ids f) → find_in target f = Some u →
  find_in n (graft LastOf target [new_tbody n] <$> f) = Some (new_tbody n).
Proof.
  intros [Hn Hd]%NoDup_cons Hu. assert (Hin : target ∈ all_ids f).
  { apply find_in_some in Hu as [Hu <-]. eapply node_ids; [exact Hu|apply id_in_ids]. }
  assert (Hdn : NoDup (all_ids f ++ all_ids [new_tbody n])).
  { cbn. apply NoDup_app. split; [done|]. split; [|apply NoDup_singleton]. by intros y Hy ->%list_elem_of_singleton. }
  pose proof (find_graft LastOf target [new_tbody n] target f u eq_refl Hdn Hin ltac:(done) Hu) as Hg.
  apply find_in_some in Hg as [Hg _]. apply find_in_some in Hu as [Hu Eu].
  apply find_in_iff; [by rewrite all_ids_graft|]. split; [|done]. eapply all_nodes_trans; [|exact Hg].
  destruct u as [i m ks]. cbn in Eu. subst i. assert (target ∉ all_ids ks).
  { apply NoDup_node in Hu; [|done]. by apply NoDup_ids_kids in Hu as [? _]. }
  rewrite graft_here by done. rewrite nodes_tree. right. rewrite all_nodes_app. apply elem_of_app. right. by left.
Qed.
Lemma put_any pl w x t target gs f1 fr ts f2 gs' ts' :
  inserts pl = true → loaded w x t gs f1 fr ts f2 gs' ts' → moved is_fragment t ≠ [] → good pl (f1 ++ f2) target →
  ∃ a w' f1' f2', callback pl target x w = (Ok a, w') ∧ acts w' = acts w ∧ around w' gs' f1' fr ts' f2' ∧
    put pl (moved is_fragment t) target (f1 ++ f2) (f1' ++ f2') ∧ ∀ y, good pl (f1 ++ f2) y → good pl (f1' ++ f2') y.
Proof.
  intros Hp Hl Hm Hg. pose proof (loaded_facts _ _ _ _ _ _ _ _ _ _ Hl) as (Hw & Hf & _ & Hsub & _).
  assert (Hdirect : through_tbody pl (moved is_fragment t) (f1 ++ f2) target = false →
    (beside pl = false → manipulationTarget target x w = (Ok target, w)) →
    ∃ a w' f1' f2', callback pl target x w = (Ok a, w') ∧ acts w' = acts w ∧ around w' gs' f1' fr ts' f2' ∧
    put pl (moved is_fragment t) target (f1 ++ f2) (f1' ++ f2') ∧ ∀ y, good pl (f1 ++ f2) y → good pl (f1' ++ f2') y).
  { intros Hth Hs. destruct (put_straight pl w x t target gs f1 fr ts f2 gs' ts' Hp Hl Hg Hs) as (a & w' & E & Ha & Har & Hgs).
    do 4 eexists. split; [exact E|]. split; [done|]. split; [exact Har|]. split; [|exact Hgs]. rewrite <- fmap_app. by constructor. }
  destruct (beside pl) eqn:Eb; [apply Hdirect; [unfold through_tbody; by rewrite Eb|done]|].
  pose proof Hg as (u & Hu & Ha). rewrite Eb in Ha. destruct Ha as [<- Hh].
  assert (Hfind : ∀ v, v ∈ all_nodes (f1 ++ f2) → find_in (id_of v) (forest w) = Some v).
  { intros v Hv. apply find_in_iff; [apply Hw|]. split; [by apply Hsub|done]. }
  assert (Hun : u ∈ all_nodes (f1 ++ f2)) by (by apply find_in_some in Hu as [? _]).
  pose proof (Hfind u Hun) as Hfu. pose proof (target_cases w x t u Hw Hf Hm Hfu) as Hcases.
  assert (Hth : through_tbody pl (moved is_fragment t) (f1 ++ f2) (id_of u) = named (info_of u) (js "table") && rows (moved is_fragment t)).
  { unfold through_tbody, is_table. by rewrite Hu, Eb. }
  destruct (named (info_of u) (js "table") && rows (moved is_fragment t)) eqn:Eth; [|by apply Hdirect].
  assert (Htb : tbody_of (f1 ++ f2) (id_of u) = head (below (Named (js "tbody")) u)) by (unfold tbody_of; by rewrite Hu).
  assert (Hhu : holds_nodes (info_of_id w (id_of u)) = true) by (unfold info_of_id; by rewrite Hfu).
  destruct (head (below (Named (js "tbody")) u)) as [b|] eqn:Eh.
  - (* the first tbody below *)
    apply head_Some_elem_of in Eh as Hb. apply list_elem_of_fmap in Hb as (v & -> & [Hfit Hv]%list_elem_of_filter).
    assert (Hvn : v ∈ all_nodes (f1 ++ f2)).
    { eapply all_nodes_trans; [|exact Hun]. destruct u. by right. }
    unfold fits in Hfit. apply andb_true_iff in Hfit as [Hty Hnm].
    assert (Hhv : holds_nodes (info_of v) = true) by (unfold holds_nodes; by rewrite Hty).
    pose proof (Hfind v Hvn) as Hfv. pose proof (target_cases w x t v Hw Hf Hm Hfv) as Hcv.
    rewrite (named_tbody _ Hnm) in Hcv. cbn [andb] in Hcv.
    assert (Hgv : good pl (f1 ++ f2) (id_of v)).
    { exists v. split; [apply find_in_iff; [|done]|rewrite Eb; done].
      pose proof (loaded_NoDup _ _ _ _ _ _ _ _ _ _ Hl) as [Hd _]. by apply NoDup_app in Hd as [? _]. }
    destruct (put_straight pl w x t (id_of v) gs f1 fr ts f2 gs' ts' Hp Hl Hgv ltac:(done)) as (a & w' & E & Ha & Har & Hgs).
    do 4 eexists. rewrite (callback_via pl w w x (id_of u) (id_of v)); try done; [|unfold info_of_id; by rewrite Hfv].
    split; [exact E|]. split; [done|]. split; [exact Har|]. split; [|exact Hgs]. rewrite <- fmap_app. by apply put_tbody.
  - (* a new tbody *)
    assert (Hin : id_of u ∈ all_ids (f1 ++ f2)) by (eapply node_ids; [exact Hun|apply id_in_ids]).
    assert (Hin' : id_of u ∈ all_ids (forest w)) by (eapply node_ids; [by apply Hsub|apply id_in_ids]).
    destruct (new_tbody_spec w u Hw Hfu Hin') as [E1 Hw1]. rewrite E1 in Hcases. set (n := fresh w) in *.
    set (w1 := World _ _ _) in *.
    pose proof (loaded_new_tbody w w1 x t gs f1 fr ts f2 gs' ts' (id_of u) n Hl Hin Hw1 eq_refl) as Hl1.
    pose proof (loaded_NoDup _ _ _ _ _ _ _ _ _ _ Hl) as [Hd Hlt].
    assert (Hn : n ∉ all_ids ((f1 ++ f2) ++ moved is_fragment t)) by (intros Hx%Hlt; unfold n in Hx; lia).
    rewrite all_ids_app, elem_of_app in Hn. apply NoDup_app in Hd as (Hd & _ & _).
    assert (Hdn : NoDup (n :: all_ids (f1 ++ f2))) by (apply NoDup_cons; tauto).
    pose proof (find_new_tbody (f1 ++ f2) (id_of u) n u Hdn Hu) as Hv. rewrite fmap_app in Hv.
    assert (Hgn : good pl ((graft LastOf (id_of u) [new_tbody n] <$> f1) ++ (graft LastOf (id_of u) [new_tbody n] <$> f2)) n)
      by (exists (new_tbody n); split; [exact Hv|by rewrite Eb]).
    pose proof (loaded_facts _ _ _ _ _ _ _ _ _ _ Hl1) as (_ & Hf1 & _ & Hsub1 & _).
    assert (Hfv : find_in n (forest w1) = Some (new_tbody n)).
    { apply find_in_some in Hv as [Hv _]. apply find_in_iff; [apply Hw1|]. split; [by apply Hsub1|done]. }
    pose proof (target_cases w1 x t (new_tbody n) Hw1 Hf1 Hm Hfv) as Hcv. cbn [info_of new_tbody id_of] in Hcv.
    assert (Hnt : named (element (js "tbody")) (js "table") = false).
    { unfold named. cbn [nodeName element]. rewrite !to_lower_ascii by (repeat constructor). by vm_compute. }
    rewrite Hnt in Hcv. cbn [andb] in Hcv.
    destruct (put_straight pl w1 x t n _ _ fr ts _ gs' ts' Hp Hl1 Hgn ltac:(done)) as (a & w' & E & Ha & Har & Hgs).
    do 4 eexists. rewrite (callback_via pl w w1 x (id_of u) n); try done; [|unfold info_of_id; by rewrite Hfv].
    split; [exact E|]. split; [done|]. split; [exact Har|]. split.
    + rewrite <- !fmap_app. apply put_new_tbody; [done|done|]. rewrite all_ids_app, elem_of_app. tauto.
    + intros y Hy. apply Hgs. rewrite <- fmap_app. apply good_inside; [done|]. apply good_inside in Hy; [|done].
      apply good_inside in Hg; [|done].
      apply good_graft; [done| |done|done]. cbn. apply NoDup_app. split; [done|]. split; [|apply NoDup_singleton].
      intros z Hz ->%list_elem_of_singleton. tauto.
Qed.

Lemma insert_loop_spec pl fr ts node t set : ∀ w gs f1 f2,
  inserts pl = true → around w gs f1 fr ts f2 → content_of fr ts node t → Forall plain_tree ts → ts ≠ [] → set ≠ [] →
  (∀ target, target ∈ set → good pl (f1 ++ f2) target) →
  ∃ a w' gs' f1' f2', insert_loop document (callback pl) node false set w = (Ok (a, []), w') ∧
    around w' gs' f1' fr [] f2' ∧ placed pl ts set (f1 ++ f2) (f1' ++ f2') ∧ acts w' = acts w.
Proof.
  induction set as [|target set IH]; intros w gs f1 f2 Hp Har Hc Hpl Hts Hne Hgood; [done|].
  destruct (content_found w gs f1 fr ts f2 node t Har Hc) as (Hf & Hm & _ & _).
  pose proof (around_ids _ _ _ _ _ _ Har) as [Hpw Hnd].
  destruct set as [|target' set].
  - destruct (put_any pl w node t target gs f1 fr ts f2 gs [] Hp) as (p & w' & f1' & f2' & E & Ha & Har' & Hput & _).
    { by apply load_content. }
    { by rewrite Hm. }
    { apply Hgood. constructor. }
    rewrite Hm in Hput. cbn [insert_loop]. rewrite (bind_ok _ _ _ _ _ E). do 5 eexists. split; [reflexivity|].
    split; [exact Har'|]. split; [|done]. by constructor.
  - change (insert_loop document (callback pl) node false (target :: target' :: set) w) with
      ((c ← clone document node true true; get ≫= λ w, callback pl target c ≫= λ _,
        r ← insert_loop document (callback pl) node false (target' :: set); mret (r.1, [] ++ r.2)) w).
    destruct (clone_spec w node t) as (w1 & t' & E1 & F1 & Ee & Hfresh & Hw1 & Ha1 & Hn1);
      [apply Har|done|by eapply content_clonable|]. rewrite (bind_ok _ _ _ _ _ E1), get_then.
    destruct (clone_moved t t' Ee) as [Hcs Htaken].
    assert (Hnew : ∀ y, y ∈ ids t' → y ∉ all_ids (forest w)).
    { intros y Hy Hin. pose proof (Hfresh y Hy). destruct Har as [[_ Hlt] _]. specialize (Hlt y Hin). lia. }
    assert (Hdt' : NoDup (ids t')) by (destruct Hw1 as [Hd1 _]; rewrite F1 in Hd1; by apply NoDup_app in Hd1 as [? _]).
    set (cs := moved is_fragment t') in *.
    assert (Hcsne : cs ≠ []).
    { intros E. rewrite E, Hm in Hcs. destruct ts; [done|]. by discriminate Hcs. }
    destruct (put_any pl w1 (id_of t') t' target gs f1 fr ts f2 (left_over t' ++ gs) ts Hp)
      as (p & w2 & f12 & f22 & E2 & Ha2 & Har2 & Hput & Hgs).
    { apply load_copy; [done| |done|].
      - rewrite F1. destruct Har as [_ ->]. done.
      - intros f Hfr. apply Htaken; [done| |].
        + destruct t' as [i n ks]. by apply NoDup_ids_kids in Hdt' as [? _].
        + destruct Hc as [[_ ->]|(_ & _ & ?)]; [by left|by right]. }
    { exact Hcsne. }
    { apply Hgood. constructor. }
    rewrite (bind_ok _ _ _ _ _ E2).
    assert (Hcsin : ∀ y, y ∈ all_ids cs → y ∈ ids t').
    { intros y. unfold cs, moved. destruct (is_fragment (info_of t')); [|by rewrite all_ids_cons, app_nil_r].
      destruct t' as [i n ks]. intros Hy. by right. }
    assert (Hdcs : NoDup (all_ids cs)).
    { unfold cs, moved. destruct (is_fragment (info_of t')); [|by rewrite all_ids_cons, app_nil_r]. destruct t'. by apply NoDup_ids_kids in Hdt' as [_ ?]. }
    destruct (IH w2 _ f12 f22 Hp Har2 Hc Hpl Hts ltac:(done)) as (a3 & w3 & gs3 & f13 & f23 & E3 & Har3 & Hpl3 & Ha3).
    { intros y Hy. apply Hgs, Hgood. by right. }
    rewrite (bind_ok _ _ _ _ _ E3). do 5 eexists. split; [reflexivity|]. split; [exact Har3|]. split; [|congruence].
    apply (placed_copy _ _ _ _ _ _ cs (f12 ++ f22)); [by rewrite Hcs, Hm|done| |exact Hput|exact Hpl3].
    intros y Hy. rewrite all_ids_app, elem_of_app. intros Hin. apply (Hnew y (Hcsin y Hy)).
    rewrite Hpw. apply elem_of_app. right. right. apply elem_of_app. tauto.
Qed.

(** ** [domManip] *)

(** A forest without the fragments that were emptied. *)
Definition live (f : list tree) : list tree :=
  base.filter (λ t, is_fragment (info_of t) && bool_decide (length (kids_of t) = 0) = false) f.
Lemma live_app f g : live (f ++ g) = live f ++ live g.
Proof. apply filter_app. Qed.
Lemma live_emptied gs : live (emptied <$> gs) = [].
Proof. induction gs as [|g gs IH]; [done|]. unfold live. rewrite fmap_cons, filter_cons. rewrite decide_False by (by vm_compute). exact IH. Qed.
Lemma live_around w gs f1 fr f2 : around w gs f1 fr [] f2 → live (forest w) = live (f1 ++ f2).
Proof.
  intros [_ ->]. rewrite !live_app, live_emptied. cbn [app]. by f_equal.
Qed.
Lemma for_each_nil {A B} (f : A → M page B) w : for_each f [] w = (Ok tt, w).
Proof. done. Qed.

Lemma domManip_nodes_spec pl cs set w xs w1 :
  inserts pl = true → wf w → set ≠ [] →
  nodes_of parse cs (createNode fragment_node w).2 = (Ok xs, w1) →
  (∀ x, x ∈ xs → x ∉ set → x ≠ fresh w ∧ movable (forest w1) x) →
  let '(ts, f) := collect (base.filter (λ x, x ∉ set) xs) ([], prune (fresh w) (forest w1)) in
  (∀ target, target ∈ set → good pl f target) →
  ∃ a w' f', domManip_nodes document parse set cs (callback pl) w = (Ok a, w') ∧
    wf w' ∧ acts w' = acts w ∧ live (forest w') = live f' ∧
    match ts with [] => f' = f | _ => placed pl ts set f f' end.
Proof.
  intros Hp Hw Hne Hn Hm.
  destruct (createNode_spec fragment_node w Hw) as (w0 & E0 & F0 & R0 & N0 & Hw0). rewrite E0 in Hn. cbn [snd] in Hn.
  destruct (nodes_of_spec cs w0 xs w1 Hw0 Hn) as (new & F1 & R1 & N1 & Hw1). rewrite F0 in F1.
  assert (Hh : holds w1 new (fresh w) [] (forest w)) by (by split).
  pose proof (holds_ids _ _ _ _ _ Hh) as [[Hfr Hd]%NoDup_cons _]. rewrite app_nil_r in Hfr. rewrite all_ids_app, elem_of_app in Hfr.
  assert (Hpr : prune (fresh w) (forest w1) = new ++ forest w).
  { rewrite F1, prune_app, prune_cons. cbn [id_of]. rewrite Nat.eqb_refl, !prune_absent by tauto. done. }
  rewrite Hpr. destruct (gather_spec set xs w1 new (fresh w) [] (forest w) Hh ltac:(constructor) Hm)
    as (w2 & f1 & ts & f2 & E2 & Ec & Hh2 & Hpl & R2 & N2 & _).
  rewrite Ec. intros Hgood. unfold domManip_nodes. destruct set as [|target0 set]; [done|].
  assert (Eb : buildFragment document parse cs false (target0 :: set) w = (Ok (fresh w, []), w2)).
  { unfold buildFragment. rewrite (bind_ok _ _ _ _ _ E0), (bind_ok _ _ _ _ _ Hn), (bind_ok _ _ _ _ _ E2). done. }
  rewrite (bind_ok _ _ _ _ _ Eb), get_then. cbn [fst].
  assert (Har : around w2 [] f1 (fresh w) ts f2) by (destruct Hh2; by split).
  assert (Hfr2 : find_in (fresh w) (forest w2) = Some (Tree (fresh w) fragment_node ts)).
  { destruct (content_found w2 [] f1 (fresh w) ts f2 (fresh w) (Tree (fresh w) fragment_node ts) Har) as [? _]; [by left|done]. }
  assert (Hch : childNodes (fresh w) w2 = id_of <$> ts) by (unfold childNodes; by rewrite Hfr2).
  rewrite Hch. destruct ts as [|t ts].
  - exists None, w2, (f1 ++ f2). split; [done|]. split; [apply Har|]. split; [unfold acts; congruence|]. split; [|done].
    by eapply live_around.
  - rewrite fmap_cons. set (node := match id_of <$> ts with [] => id_of t | _ => fresh w end).
    assert (∃ tc, content_of (fresh w) (t :: ts) node tc) as [tc Hc].
    { unfold node. destruct ts as [|t2 ts]; [|by eexists; left].
      exists t. right. split; [done|]. split; [done|]. rewrite Forall_singleton in Hpl. specialize (Hpl t).
      unfold plain in Hpl. destruct (is_fragment (info_of t)); [|done]. destruct t. by discriminate Hpl; constructor. }
    destruct (content_found w2 [] f1 (fresh w) (t :: ts) f2 node tc Har Hc) as (Hfc & _).
    destruct (content_clonable _ _ _ _ Hpl Hc) as (C1 & C2 & _).
    rewrite (no_scripts w2 node tc Hfc C1 C2). cbn [for_each]. rewrite bind_ret.
    rewrite (bool_decide_true ([] = [])) by done. cbn [negb].
    destruct (insert_loop_spec pl (fresh w) (t :: ts) node tc (target0 :: set) w2 [] f1 f2 Hp Har Hc Hpl ltac:(done) ltac:(done) Hgood)
      as (a & w3 & gs3 & f13 & f23 & E3 & Har3 & Hplaced & A3).
    rewrite (bind_ok _ _ _ _ _ E3). exists a, w3, (f13 ++ f23). split; [done|]. split; [apply Har3|].
    split; [unfold acts in *; congruence|]. split; [by eapply live_around|done].
Qed.

(** ** [remove] and [detach] *)

Section removal.
Context `{!EventLaws Handler U L document}.
Local Abbreviation kept := (kept_data document).

Lemma remove_events_spec e evs (p : Data.store (pval Handler U) * L) :
  Data.data_inv p.1 →
  let p' := foldl (λ p ev, if special ev.1 then event_remove e ev.1 p else (p.1, removeEvent e ev.1 p.2)) p (evs : list (jsstr * list Handler)) in
  Data.data_inv p'.1 ∧ ∀ e', ¬ Data.same e e' → kept e' p.1 p'.1.
Proof.
  revert p. induction evs as [|[ty hs] evs IH]; intros p Hp; [done|]. cbn [foldl fst].
  assert (H1 : Data.data_inv (if special ty then event_remove e ty p else (p.1, removeEvent e ty p.2)).1)
    by (destruct (special ty); [by apply event_remove_inv|done]).
  destruct (IH _ H1) as [H2 H3]. split; [exact H2|]. intros e' He.
  etransitivity; [|by apply H3]. destruct (special ty); [by apply event_remove_other|done].
Qed.
(** A node that accepts data loses its entry; the others keep theirs. *)
Lemma clean_one_spec w x : Data.data_inv (data (rest w)) →
  ∃ w', clean_one x w = (Ok tt, w') ∧ same_forest w w' ∧ Data.data_inv (data (rest w')) ∧
    (∀ e, Data.same (node_data w x) e → accepted (info_of_id w x) = true → Data.lookup_entry e (data (rest w')) = None) ∧
    ∀ e, ¬ Data.same (node_data w x) e → kept e (data (rest w)) (data (rest w')).
Proof.
  intros Hd. unfold clean_one. rewrite node_data_accepts. set (e0 := node_data w x).
  destruct (accepted (info_of_id w x)) eqn:Ea; cbn [negb].
  2: { exists w. split; [done|]. split; [done|]. by split. }
  destruct (Data.lookup_entry e0 (data (rest w))) as [en|] eqn:El.
  2: { exists w. split; [done|]. split; [done|]. split; [done|]. split; [|done].
       intros e Hs _. by rewrite (Data.lookup_entry_same e0). }
  set (p := match obj_get (js "events") (Data.private en) with Some (PEvents evs) => _ | _ => _ end).
  assert (Hp : Data.data_inv p.1 ∧ ∀ e', ¬ Data.same e0 e' → kept e' (data (rest w)) p.1).
  { unfold p. destruct (obj_get _ _) as [[b|evs| |u]|]; try (split; [done|by intros]). by apply (remove_events_spec e0 evs (events_of w)). }
  destruct Hp as [Hp1 Hp2]. cbv zeta. destruct (Data.lookup_entry e0 p.1) as [en'|] eqn:El'.
  - eexists. split; [reflexivity|]. split; [done|]. destruct (Data.destroy_spec e0 p.1 Hp1) as [Hd1 Hd2].
    split; [exact Hd1|]. cbn [data rest with_data]. split.
    + intros e Hs _. by rewrite Hd2, decide_True.
    + intros e Hs. etransitivity; [by apply Hp2|]. unfold kept_data, Data.view. rewrite Hd2, (decide_False (P := Data.same e0 e)) by done.
      by destruct (decide (Data.same (doc_node document) e)).
  - eexists. split; [reflexivity|]. split; [done|]. split; [exact Hp1|]. cbn [data rest with_events]. split; [|done].
    intros e Hs _. by rewrite (Data.lookup_entry_same e0).
Qed.
(** The elements of the list have no data any more, the other nodes the same. *)
Lemma cleanData_spec xs : ∀ w, Data.data_inv (data (rest w)) → document ∉ xs →
  ∃ w', cleanData xs w = (Ok tt, w') ∧ same_forest w w' ∧ Data.data_inv (data (rest w')) ∧
    (∀ x e, x ∈ xs → Data.same (node_data w x) e → accepted (info_of_id w x) = true →
      Data.lookup_entry e (data (rest w')) = None) ∧
    (∀ e, (∀ x, x ∈ xs → ¬ Data.same (node_data w x) e) → kept e (data (rest w)) (data (rest w'))).
Proof.
  induction xs as [|x xs IH]; intros w Hd Hdoc.
  { exists w. split; [done|]. split; [done|]. split; [done|]. split; [|done]. intros x e Hx. by apply elem_of_nil in Hx. }
  apply not_elem_of_cons in Hdoc as [Hx Hdoc].
  destruct (clean_one_spec w x Hd) as (w1 & E1 & S1 & D1 & G1 & L1). destruct (IH w1 D1 Hdoc) as (w2 & E2 & S2 & D2 & N2 & K2).
  assert (Hn : ∀ y, node_data w1 y = node_data w y).
  { intros y. unfold node_data. by rewrite (same_forest_info w w1). }
  exists w2. cbn [cleanData]. rewrite (bind_ok _ _ _ _ _ E1). split; [done|]. split; [by eapply same_forest_trans|].
  split; [done|]. split.
  - intros y e Hy Hs Ha. destruct (decide (y ∈ xs)) as [Hin|Hnin].
    + apply (N2 y); [done|by rewrite Hn|]. by rewrite (same_forest_info w w1).
    + apply elem_of_cons in Hy as [->|]; [|done].
      assert (Hk : kept e (data (rest w1)) (data (rest w2))).
      { apply K2. intros z Hz [_ Hs2]. rewrite Hn in Hs2. destruct Hs as [_ Hs]. cbn in Hs, Hs2.
        apply Hnin. by rewrite Hs, <- Hs2. }
      unfold kept_data in Hk. rewrite decide_False in Hk.
      * rewrite Hk. by apply G1.
      * intros [_ Hs2]. destruct Hs as [_ Hs]. cbn in Hs, Hs2. congruence.
  - intros e He. etransitivity; [apply L1|apply K2].
    + apply He. constructor.
    + intros y Hy. rewrite Hn. apply He. by constructor.
Qed.

Lemma removeChild_ok w x t p : wf w → find_in x (forest w) = Some t → parent_in x (forest w) = Some p →
  removeChild p x w = (Ok tt, with_forest (t :: prune x (forest w)) w) ∧ wf (with_forest (t :: prune x (forest w)) w).
Proof.
  intros Hw Hf Hp. pose proof (parent_in_some _ _ _ Hp) as (n & l1 & k & l2 & Hin & Hk).
  assert (find_in p (forest w) = Some (Tree p n (l1 ++ k :: l2))) as Hfp by (apply find_in_iff; [apply Hw|done]).
  split.
  - unfold removeChild. rewrite Hf, Hfp. cbn [kids_of]. rewrite (proj2 (has_kid_spec x _)); [done|].
    rewrite fmap_app. apply elem_of_app. right. rewrite fmap_cons, Hk. constructor.
  - apply (wf_perm w); [done| |done]. rewrite all_ids_cons. symmetry. by apply prune_ids; [apply Hw|].
Qed.
Lemma getAll_ids w x t : wf w → find_in x (forest w) = Some t → ∀ y, y ∈ getAll w x Undefined ↔
  y = x ∨ ∃ u, u ∈ tail (nodes t) ∧ (nodeType (info_of u) =? 1)%N = true ∧ id_of u = y.
Proof.
  intros Hw Hf y. unfold getAll, below. rewrite Hf, elem_of_cons, list_elem_of_fmap. setoid_rewrite list_elem_of_filter.
  unfold fits. setoid_rewrite andb_true_r. naive_solver.
Qed.
(** The data of a node of the page. *)
Definition entry_of w u : option (Data.entry (pval Handler U)) :=
  Data.lookup_entry (Data.Elem (id_of u) (nodeType (info_of u)) (nodeName (info_of u)) None) (data (rest w)).
Lemma node_data_of w u : wf w → u ∈ all_nodes (forest w) →
  node_data w (id_of u) = Data.Elem (id_of u) (nodeType (info_of u)) (nodeName (info_of u)) None.
Proof. intros Hw Hu. unfold node_data. by rewrite (info_of_node w u Hw Hu). Qed.

(** ** The scripts of a detached tree are marked as evaluated *)

Definition is_script t : bool := fits (Named (js "script")) (info_of t).
Definition flagged (o : option (Data.entry (pval Handler U))) : Data.entry (pval Handler U) :=
  let en := default (Data.Entry [] None) o in
  Data.Entry (obj_set (js "globalEval") (PFlag true) (Data.private en)) (Data.public en).
Lemma flagged_again o : flagged (Some (flagged o)) = flagged o.
Proof. unfold flagged. cbn. by rewrite obj_set_set. Qed.

Lemma write_flag_spec x w : Data.data_inv (data (rest w)) →
  ∃ w', write_flag x (Some (PFlag true)) w = (Ok tt, w') ∧ same_forest w w' ∧ Data.data_inv (data (rest w')) ∧
    ∀ e, Data.lookup_entry e (data (rest w')) =
      if decide (Data.same (node_data w x) e ∧ accepted (info_of_id w x) = true)
      then Some (flagged (Data.lookup_entry e (data (rest w)))) else Data.lookup_entry e (data (rest w)).
Proof.
  intros Hd. unfold write_flag, _data, Data.internalData. rewrite node_data_accepts. set (e0 := node_data w x).
  destruct (accepted (info_of_id w x)); cbn [negb orb Data.early].
  2: { eexists. split; [reflexivity|]. split; [done|]. split; [done|]. intros e. by rewrite decide_False by (by intros [_ ?]). }
  destruct (Data.ensure_spec e0 (data (rest w)) Hd) as (Hd1 & He & Ho). rewrite He. cbv zeta.
  eexists. split; [reflexivity|]. split; [done|]. cbn [snd data rest with_data].
  split; [apply Data.set_entry_inv; [done|by rewrite He]|]. intros e. rewrite Data.set_entry_lookup by (by rewrite ?He).
  destruct (decide (Data.same e0 e)) as [Hs|Hs].
  - rewrite decide_True by done. by rewrite (Data.lookup_entry_same e0 e).
  - rewrite decide_False by (by intros [? _]). by apply Ho.
Qed.
Lemma setGlobalEval_spec xs : ∀ w, Data.data_inv (data (rest w)) →
  ∃ w', setGlobalEval xs None w = (Ok tt, w') ∧ same_forest w w' ∧ Data.data_inv (data (rest w')) ∧
    (∀ x e, x ∈ xs → Data.same (node_data w x) e → accepted (info_of_id w x) = true →
      Data.lookup_entry e (data (rest w')) = Some (flagged (Data.lookup_entry e (data (rest w))))) ∧
    (∀ e, (∀ x, x ∈ xs → ¬ Data.same (node_data w x) e) →
      Data.lookup_entry e (data (rest w')) = Data.lookup_entry e (data (rest w))).
Proof.
  induction xs as [|x xs IH]; intros w Hd.
  { exists w. split; [done|]. split; [done|]. split; [done|]. split; [|done]. intros x e Hx. by apply elem_of_nil in Hx. }
  destruct (write_flag_spec x w Hd) as (w1 & E1 & S1 & D1 & L1). destruct (IH w1 D1) as (w2 & E2 & S2 & D2 & N2 & K2).
  assert (Hn : ∀ y, node_data w1 y = node_data w y).
  { intros y. unfold node_data. by rewrite (same_forest_info w w1). }
  exists w2. cbn [setGlobalEval].
  rewrite (bind_ok (mret (Some (PFlag true))) _ w (Some (PFlag true)) w eq_refl), (bind_ok _ _ _ _ _ E1).
  split; [exact E2|]. split; [by eapply same_forest_trans|]. split; [done|]. split.
  - intros y e Hy Hs Ha. destruct (decide (y ∈ xs)) as [Hin|Hnin].
    + rewrite (N2 y) by (rewrite ?Hn, ?(same_forest_info w w1); done). rewrite L1. destruct (decide _); [|done]. by rewrite flagged_again.
    + apply elem_of_cons in Hy as [->|]; [|done]. rewrite K2.
      * by rewrite L1, decide_True.
      * intros z Hz [_ Hs2]. rewrite Hn in Hs2. destruct Hs as [_ Hs]. cbn in Hs, Hs2. apply Hnin. by rewrite Hs, <- Hs2.
  - intros e He. rewrite K2.
    + rewrite L1, decide_False; [done|]. intros [Hs _]. revert Hs. apply He. constructor.
    + intros y Hy. rewrite Hn. apply He. by constructor.
Qed.
Lemma getAll_scripts w x t : find_in x (forest w) = Some t → nodeType (info_of t) = 1%N → ∀ y,
  y ∈ getAll w x (Named (js "script")) ↔ ∃ u, u ∈ nodes t ∧ is_script u = true ∧ id_of u = y.
Proof.
  intros Hf Ht y. pose proof (find_in_some _ _ _ Hf) as [_ Ex]. unfold getAll, is_script. rewrite Hf.
  assert (Hr : named (info_of t) (js "script") = fits (Named (js "script")) (info_of t)) by (unfold fits; by rewrite Ht).
  rewrite Hr. clear Hr. unfold below. destruct t as [i n ks]. rewrite nodes_tree in *. cbn [tail info_of id_of] in *. subst i.
  assert (Hb : y ∈ id_of <$> base.filter (λ u, fits (Named (js "script")) (info_of u) = true) (ks ≫= nodes) ↔
    ∃ u, u ∈ ks ≫= nodes ∧ fits (Named (js "script")) (info_of u) = true ∧ id_of u = y).
  { rewrite list_elem_of_fmap. setoid_rewrite list_elem_of_filter. naive_solver. }
  setoid_rewrite elem_of_cons. destruct (fits (Named (js "script")) n) eqn:En; [rewrite elem_of_cons|]; rewrite Hb.
  - split; [intros [->|(u & ? & ? & ?)]|intros (u & [->|Hu] & ? & ?)]; [exists (Tree x n ks)|exists u|left|right; exists u]; tauto || done.
  - split; [intros (u & ? & ? & ?); exists u; tauto|]. intros (u & [->|Hu] & Hs & ?); [by rewrite (En : fits _ (info_of (Tree x n ks)) = _) in Hs|exists u; tauto].
Qed.

(** [remove] of one element, when its data was cleaned or its scripts were marked. *)
Lemma remove_one_steps (keepData : bool) w w1 x t p :
  wf w → find_in x (forest w) = Some t → nodeType (info_of t) = 1%N → parent_in x (forest w) = Some p →
  (if keepData then if contains document w x then setGlobalEval (getAll w x (Named (js "script"))) None else mret tt
   else cleanData (getAll w x Undefined)) w = (Ok tt, w1) → same_forest w w1 →
  let w' := with_forest (t :: prune x (forest w)) w1 in remove document [x] keepData w = (Ok tt, w') ∧ wf w'.
Proof.
  intros Hw Hf Ht Hp E1 (F1 & N1 & A1) w'.
  assert (Hi : info_of_id w x = info_of t).
  { pose proof (find_in_some _ _ _ Hf) as [Htin <-]. by apply info_of_node. }
  assert (Hw1 : wf w1) by (destruct Hw as [A B]; split; [by rewrite F1|by rewrite F1, N1]).
  destruct (removeChild_ok w1 x t p Hw1) as [E2 W2]; [by rewrite F1..|]. rewrite F1 in E2, W2.
  split; [|exact W2].
  assert (E : remove_one document keepData x w = (Ok tt, w')).
  { unfold remove_one. rewrite get_then, Hi, Ht. destruct keepData; cbn [negb andb N.eqb Pos.eqb] in *.
    - rewrite (bind_ok _ _ w tt w eq_refl).
      assert (E3 : parentNode x w = (Ok (Some p), w)) by (unfold parentNode; by rewrite Hp).
      by rewrite (bind_ok _ _ _ _ _ E3), get_then, (bind_ok _ _ _ _ _ E1).
    - rewrite (bind_ok _ _ _ _ _ E1).
      assert (E3 : parentNode x w1 = (Ok (Some p), w1)) by (unfold parentNode; by rewrite F1, Hp).
      by rewrite (bind_ok _ _ _ _ _ E3), get_then, (bind_ok _ _ w1 tt w1 eq_refl). }
  unfold remove. cbn [for_each]. by rewrite (bind_ok _ _ _ _ _ E).
Qed.

(** What the removal of [x] has done with its tree [t]: it is out of its parent, whole, and
    everything else is in place.  [remove] has taken the data of the elements of the tree that
    may have data, and no other; [detach] has kept it all, and marked the scripts of a tree
    that was in the page as evaluated. *)
Record removed (keepData : bool) (x : nat) t w w' : Prop := {
  removed_forest : forest w' = t :: prune x (forest w);
  removed_wf : wf w';
  removed_acts : acts w' = acts w;
  removed_data : Data.data_inv (data (rest w'));
  removed_cleaned : keepData = false → ∀ u, u ∈ nodes t → nodeType (info_of u) = 1%N → accepted (info_of u) = true →
    entry_of w' u = None;
  removed_others : keepData = false → ∀ u, u ∈ all_nodes (forest w) → ¬ (u ∈ nodes t ∧ nodeType (info_of u) = 1%N) →
    kept (Data.Elem (id_of u) (nodeType (info_of u)) (nodeName (info_of u)) None) (data (rest w)) (data (rest w'));
  detached_scripts : keepData = true → contains document w x = true → ∀ u, u ∈ nodes t → is_script u = true →
    accepted (info_of u) = true → entry_of w' u = Some (flagged (entry_of w u));
  detached_others : keepData = true → ∀ u, u ∈ all_nodes (forest w) →
    ¬ (contains document w x = true ∧ u ∈ nodes t ∧ is_script u = true) → entry_of w' u = entry_of w u;
}.
Section one.
Variables (w : page) (x : nat) (t : tree) (p : nat).
Hypotheses (Hw : wf w) (Hd : Data.data_inv (data (rest w))).
Hypotheses (Hf : find_in x (forest w) = Some t) (Ht : nodeType (info_of t) = 1%N) (Hp : parent_in x (forest w) = Some p).

Lemma below_node u : u ∈ nodes t → u ∈ all_nodes (forest w).
Proof. intros Hu. eapply all_nodes_trans; [exact Hu|]. by eapply find_in_some. Qed.
(** The element of a list of nodes of the tree that has the data of [u]. *)
Lemma same_node u v : u ∈ all_nodes (forest w) → v ∈ nodes t →
  Data.same (node_data w (id_of v)) (Data.Elem (id_of u) (nodeType (info_of u)) (nodeName (info_of u)) None) → u = v.
Proof. intros Hu Hv [_ Hs]. cbn in Hs. apply (node_unique (forest w)); [apply Hw|done|by apply below_node|done]. Qed.
Lemma same_self u : u ∈ all_nodes (forest w) →
  Data.same (node_data w (id_of u)) (Data.Elem (id_of u) (nodeType (info_of u)) (nodeName (info_of u)) None).
Proof. intros Hu. by rewrite (node_data_of w u Hw Hu). Qed.

Lemma detach_removed : ∃ w', remove document [x] true w = (Ok tt, w') ∧ removed true x t w w'.
Proof.
  assert (∃ w1, (if contains document w x then setGlobalEval (getAll w x (Named (js "script"))) None else mret tt) w = (Ok tt, w1) ∧
    same_forest w w1 ∧ Data.data_inv (data (rest w1)) ∧
    (∀ u, contains document w x = true → u ∈ nodes t → is_script u = true → accepted (info_of u) = true →
      entry_of w1 u = Some (flagged (entry_of w u))) ∧
    (∀ u, u ∈ all_nodes (forest w) → ¬ (contains document w x = true ∧ u ∈ nodes t ∧ is_script u = true) →
      entry_of w1 u = entry_of w u)) as (w1 & E1 & S1 & D1 & G1 & K1).
  { destruct (contains document w x) eqn:Ec; [|by exists w].
    destruct (setGlobalEval_spec (getAll w x (Named (js "script"))) w Hd) as (w1 & E1 & S1 & D1 & G1 & K1).
    exists w1. split; [done|]. split; [done|]. split; [done|]. split.
    - intros u _ Hu Hs Ha. pose proof (below_node u Hu) as Hin. apply (G1 (id_of u)).
      + apply (getAll_scripts w x t Hf Ht). by exists u.
      + by apply same_self.
      + by rewrite (info_of_node w u Hw Hin).
    - intros u Hu Hn. apply K1. intros y (v & Hv & Hs & <-)%(getAll_scripts w x t Hf Ht) Hsame.
      apply (same_node u v Hu Hv) in Hsame as ->. by apply Hn. }
  destruct (remove_one_steps true w w1 x t p Hw Hf Ht Hp E1 S1) as [E W].
  eexists. split; [exact E|]. split; [done|exact W|apply S1|exact D1|done|done| |].
  - intros _ Hc u. by apply G1.
  - intros _ u. apply K1.
Qed.
Lemma remove_removed : nodeType (info_of_id w document) ≠ 1%N →
  ∃ w', remove document [x] false w = (Ok tt, w') ∧ removed false x t w w'.
Proof.
  intros Hdoc. pose proof (getAll_ids w x t Hw Hf) as Hids.
  assert (Hel : ∀ y, y ∈ getAll w x Undefined → ∃ v, v ∈ nodes t ∧ nodeType (info_of v) = 1%N ∧ id_of v = y).
  { intros y [->|(v & Hv & Hv1%N.eqb_eq & Ey)]%Hids.
    - exists t. split; [destruct t; constructor|]. split; [done|]. by apply (find_in_some _ _ _ Hf).
    - exists v. split; [destruct t; by right|]. done. }
  destruct (cleanData_spec (getAll w x Undefined) w Hd) as (w1 & E1 & S1 & D1 & N1 & K1).
  { intros (v & Hv & Hv1 & Ey)%Hel. rewrite <- Ey, (info_of_node w v Hw (below_node v Hv)) in Hdoc. done. }
  destruct (remove_one_steps false w w1 x t p Hw Hf Ht Hp E1 S1) as [E W].
  eexists. split; [exact E|]. split; [done|exact W|apply S1|exact D1| | |done|done].
  - intros _ u Hu H1 Ha. apply (N1 (id_of u)).
    + apply Hids. destruct t as [i n ks]. rewrite nodes_tree in Hu. apply elem_of_cons in Hu as [->|Hu].
      * left. by apply (find_in_some _ _ _ Hf).
      * right. exists u. by rewrite H1.
    + by apply same_self, below_node.
    + by rewrite (info_of_node w u Hw (below_node u Hu)).
  - intros _ u Hu Hn. apply K1. intros y (v & Hv & Hv1 & <-)%Hel Hs. apply (same_node u v Hu Hv) in Hs as ->. by apply Hn.
Qed.
End one.
(** Any implementation of the handlers that has the laws. *)
Lemma removal keepData w x t p :
  wf w → Data.data_inv (data (rest w)) → nodeType (info_of_id w document) ≠ 1%N →
  find_in x (forest w) = Some t → nodeType (info_of t) = 1%N → parent_in x (forest w) = Some p →
  ∃ w', remove document [x] keepData w = (Ok tt, w') ∧ removed keepData x t w w'.
Proof. intros Hw Hd Hdoc Hf Ht Hp. destruct keepData; [by eapply detach_removed|by eapply remove_removed]. Qed.
End removal.


(** ** Scripts are disabled and restored *)

Lemma run_lit_here (t : jsstr) p (s : jsstr) c : run (lit_units t) (MState p (t ++ s) c) = [MState (p + length t) s c].
Proof.
  revert p. induction t as [|a t IH]; intros p; [cbn; by rewrite Nat.add_0_r|].
  destruct t as [|b t].
  - cbn. by rewrite N.eqb_refl.
  - change (lit_units (a :: b :: t)) with (RSeq (RSet (N.eqb a)) (lit_units (b :: t))). cbn [run m_rest app].
    rewrite N.eqb_refl. cbn [mbind list_bind]. rewrite app_nil_r. unfold advance. cbn [m_pos m_rest m_caps].
    change (drop 1 (a :: b :: t ++ s)) with ((b :: t) ++ s). rewrite IH. cbn. do 2 f_equal. lia.
Qed.
Lemma masked_type s : Forall (λ c, is_line_term c = false) s →
  ∃ m, exec rscriptTypeMasked (js "true/" ++ s) = Some m ∧ capture_str m 1 = s.
Proof.
  intros Hs. unfold exec. change (search_from rscriptTypeMasked 0 (js "true/" ++ s)) with
    (match match_at rscriptTypeMasked 0 (js "true/" ++ s) with
     | Some m => Some m | None => search_from rscriptTypeMasked 1 (drop 1 (js "true/" ++ s)) end).
  unfold match_at, rscriptTypeMasked, seqs, lit. cbn [run m_pos Nat.eqb]. cbn [mbind list_bind]. rewrite app_nil_r.
  rewrite run_lit_here. cbn [mbind list_bind]. rewrite app_nil_r.
  destruct (star_set_greedy (λ c, negb (is_line_term c)) (MState (0 + length (js "true/")) s ∅)) as (st & u & Hh & [Hr Hp] & _ & Hstop).
  unfold dot. destruct (run (star _) _) as [|st' l]; [done|]. injection Hh as ->. cbn [fmap list_fmap].
  assert (u = s) as ->.
  { cbn in Hr. destruct (m_rest st) as [|c r]; [by rewrite Hr, app_nil_r|]. exfalso.
    rewrite Hr in Hs. apply Forall_app in Hs as [_ [Hc _]%Forall_cons]. by rewrite Hc in Hstop. }
  eexists. split; [reflexivity|]. unfold capture_str, capture, set_cap. cbn [r_caps m_caps]. rewrite lookup_insert_eq.
  unfold consumed. cbn [default m_rest m_pos] in *. rewrite Hp. unfold id. apply take_ge. lia.
Qed.
(** A script has its type back, or no type, as it was before the insertion. *)
Lemma restored_disabled (n : info) :
  (∀ s, type_ n = Some s → Forall (λ c, is_line_term c = false) s) → restored (disabled n) = n.
Proof.
  intros Hs. destruct n as [ty name at_ sr v]. unfold restored, disabled, set_type. cbn [type_ nodeType nodeName src nodeValue] in *.
  destruct at_ as [s|].
  - rewrite bool_decide_true by eauto. destruct (masked_type s (Hs s eq_refl)) as (m & Em & Ec).
    change (match exec rscriptTypeMasked (js "true/" ++ s) with
      | Some m => Info ty name (Some (capture_str m 1)) sr v | None => Info ty name None sr v end = Info ty name (Some s) sr v).
    by rewrite Em, Ec.
  - rewrite bool_decide_false by (by intros [? ?]). done.
Qed.
End facts.

(** ** A small page

    Two lists; the item of the second, and a text, go to both. *)
#[local] Existing Instance ascii_case.
Definition no_events : EventLayer unit unit unit :=
  {| event_add := λ _ _ _ p, p; event_remove := λ _ _ p, p; special := λ _, false; removeEvent := λ _ _ s, s; doc_counts := [] |}.
#[local] Existing Instance no_events.
Definition small_forest : list (tree info) :=
  [Tree 0 (Info 9 (js "#document") None [] [])
    [Tree 1 (element (js "UL")) [Tree 2 (element (js "LI")) []; Tree 3 (element (js "LI")) []];
     Tree 4 (element (js "OL")) [Tree 5 (element (js "LI")) [Tree 6 (text_node (js "b")) []]]]].
Definition small_page : world info (more (Handler := unit) (U := unit) (L := unit)) :=
  World small_forest 7 (More Data.no_data tt []).
Lemma small_wf : wf small_page.
Proof.
  split; [by apply (bool_decide_unpack (NoDup (all_ids small_forest)))|].
  apply Forall_forall. by apply (bool_decide_unpack (Forall (λ x, x < 7) (all_ids small_forest))).
Qed.

Definition small_content : list content := [CNode 5; CText (js "x"); CNode 1].
Definition small_append :=
  domManip 0 (λ _, []) (λ _, []) [1; 4] (Contents small_content) (callback LastOf) small_page.
Example small_append_runs :
  all_ids (forest small_append.2) = [9; 7; 0; 1; 2; 3; 10; 11; 12; 4; 5; 6; 8].
Proof. vm_compute. reflexivity. Qed.

(** A row for two tables: the first has no [tbody] and gets a new one, with a copy. *)
Definition tables : world info (more (Handler := unit) (U := unit) (L := unit)) :=
  World [Tree 0 (Info 9 (js "#document") None [] [])
           [Tree 1 (element (js "TABLE")) []; Tree 2 (element (js "TABLE")) [Tree 3 (element (js "TBODY")) []]];
         Tree 4 (element (js "TR")) []] 5 (More Data.no_data tt []).
Definition bare (t : tree info) : bool := is_fragment (info_of t) && (length (kids_of t) =? 0).
Example rows_into_tables :
  base.filter (λ t, bare t = false) (forest (domManip 0 (λ _, []) (λ _, []) [1; 2] (Contents [CNode 4]) (callback LastOf) tables).2) =
    [Tree 0 (Info 9 (js "#document") None [] [])
      [Tree 1 (element (js "TABLE")) [Tree 7 (element (js "tbody")) [Tree 6 (element (js "TR")) []]];
       Tree 2 (element (js "TABLE")) [Tree 3 (element (js "TBODY")) [Tree 4 (element (js "TR")) []]]]].
Proof. vm_compute. reflexivity. Qed.

(** The page with the new text, without the item, and what is collected. *)
Definition item : tree info := Tree 5 (element (js "LI")) [Tree 6 (text_node (js "b")) []].
Definition new_text : tree info := Tree 8 (text_node (js "x")) [].
Definition rest_of_page : list (tree info) :=
  [Tree 0 (Info 9 (js "#document") None [] [])
    [Tree 1 (element (js "UL")) [Tree 2 (element (js "LI")) []; Tree 3 (element (js "LI")) []];
     Tree 4 (element (js "OL")) []]].
End ManipFacts.
