(* ===== verification/JqManipEvents.v ===== *)
(** * Manipulation with the handlers of jquery.js

    [EventStore]: [jQuery.event.add] and [jQuery.event.remove] of [JqEvents], over the data
    that the nodes of a document have ([JqData]), as the event layer that manipulation
    asks for ([JqManip]), with the listeners on the document that stand in for [focusin]
    and [focusout] where the browser does not let [focus] and [blur] bubble.  The laws that
    [cleanData] relies on are proved, and with them what [remove] and [detach] do. *)

From stdpp Require Import base tactics list strings numbers sets gmap.
From Stdlib Require Import NArith ZArith Lia.
From S2P Require Import Prelude.
From S2P Require Import JsString.
From S2P Require Import JsArray.
From S2P Require Import Regex.
From S2P Require Import JqCore.
From S2P Require Import JqData.
From S2P Require Import JqEvents.
From S2P Require Import DomForest.
From S2P Require Import JqManip.

Module EventStore.

(** ** Definitions *)

(** What the browser and the library keep outside of the data: the types that a node listens
    to, the capturing listeners of the document, and what all elements share. *)
Record native := Native {
  listening : gmap nat (list jsstr);
  capturing : list jsstr;
  shared : Events.shared;
}.
Local Abbreviation pval := (pval Events.handleObj Z).
Local Abbreviation state := (Data.store pval * native)%type.

Section store.
Context `{UnicodeCase} `{Events.RegExpConstructor}.
(** [support.focusinBubbles], the document, and [jQuery.expr.match.needsContext.test]. *)
Context (focusinBubbles : bool) (document : nat) (needs_context : jsstr → bool).
Local Abbreviation table := (Events.special_table focusinBubbles).

(** The keys of [jQuery.event.special].  The names that it inherits are never types with
    handlers: [add] fails for them. *)
Definition special_types : list jsstr :=
  js <$> ["load"; "focus"; "blur"; "click"; "beforeunload"; "mouseenter"; "mouseleave"; "pointerenter";
          "pointerleave"]%string.
Definition is_special (ty : jsstr) : bool := existsb (str_eqb ty) special_types || Events.own_setup (table ty).

(** The private data of a node, as [JqEvents] has it; the number of delegated handlers is
    how many of them have a selector. *)
Definition queue_of (hs : list Events.handleObj) : Events.queue :=
  Events.Queue hs (length (base.filter (λ h, Events.missing (Events.selector h) = false) hs)).
Definition private_of (e : Data.elem) (d : Data.store pval) : list (jsstr * pval) := Data.view d e true.
Definition element_of (e : Data.elem) (p : state) : Events.element :=
  Events.Element (Data.acceptData e)
    (match obj_get (js "events") (private_of e p.1) with
     | Some (PEvents evs) => Some (prod_map id queue_of <$> evs)
     | _ => None
     end)
    (bool_decide (is_Some (obj_get (js "handle") (private_of e p.1))))
    (default [] (listening p.2 !! Data.self e)).
Definition set_private (e : Data.elem) (f : list (jsstr * pval) → list (jsstr * pval)) (d : Data.store pval) : Data.store pval :=
  match Data.lookup_entry e d with
  | Some en => Data.set_entry e (Data.Entry (f (Data.private en)) (Data.public en)) d
  | None => d
  end.
Definition PTable (t : list (jsstr * Events.queue)) : pval := PEvents (prod_map id Events.hs <$> t).
Definition listens (e : Data.elem) (new : Events.element) (l : native) : native :=
  Native (<[Data.self e := Events.listening new]> (listening l)) (capturing l) (shared l).

(** ** [focusin] and [focusout]

    The document counts their users under their names. *)
Definition doc : Data.elem := doc_node document.
Definition attaches (fix_ : jsstr) (d : Data.store pval) : option Z :=
  match Data.internalData Manip.is_null Manip.no_inherited doc (Data.Named fix_ None) true d with
  | (Data.Value (Some (POther n)), _) => Some n
  | _ => None
  end.
Definition set_attaches (fix_ : jsstr) (n : Z) (d : Data.store pval) : Data.store pval :=
  (Data.internalData Manip.is_null Manip.no_inherited doc (Data.Named fix_ (Some (POther n))) true d).2.
Definition orig_of (fix_ : jsstr) : jsstr := if str_eqb fix_ (js "focusin") then js "focus" else js "blur".
Definition capture (orig : jsstr) (l : native) : native :=
  Native (listening l) (if bool_decide (orig ∈ capturing l) then capturing l else capturing l ++ [orig]) (shared l).
Definition release (orig : jsstr) (l : native) : native :=
  Native (listening l) (base.filter (λ t, t ≠ orig) (capturing l)) (shared l).
Definition setup (fix_ : jsstr) (p : state) : state :=
  let n := default 0%Z (attaches fix_ p.1) in
  (set_attaches fix_ (n + 1) p.1, if (n =? 0)%Z then capture (orig_of fix_) p.2 else p.2).
(** [undefined - 1] is not a number, and not true. *)
Definition teardown (fix_ : jsstr) (p : state) : state :=
  let rest := match attaches fix_ p.1 with Some n => (n - 1)%Z | None => 0%Z end in
  if (rest =? 0)%Z then
    (Data.internalRemoveData Manip.no_inherited doc (Data.Name fix_) true p.1, release (orig_of fix_) p.2)
  else (set_attaches fix_ rest p.1, p.2).
(** The types that the first element has handlers for and the second has none. *)
Definition gone (old new : Events.element) : list jsstr :=
  base.filter (λ ty, ty ∉ obj_keys (Events.table new)) (obj_keys (Events.table old)).
Definition hooks (f : jsstr → state → state) (tys : list jsstr) (p : state) : state :=
  foldl (λ p ty, if Events.own_setup (table ty) then f ty p else p) p tys.

(** ** [jQuery.event.add(elem, type, handleObj)] *)
Definition event_add (e : Data.elem) (ty : jsstr) (h : Events.handleObj) (p : state) : state :=
  if negb (Data.acceptData e) then p
  else
    let d := (Data.internalData Manip.is_null Manip.no_inherited e Data.All true p.1).2 in
    let old := element_of e (d, p.2) in
    let '(new, g) := Events.add table needs_context ty (Events.handler h) None [] (Some h) old (shared p.2) in
    let d := set_private e (λ o,
      let o := obj_set (js "events") (PTable (Events.table new)) o in
      if Events.handle old then o else obj_set (js "handle") PHandle o) d in
    let l := listens e new p.2 in
    hooks setup (gone new old) (d, Native (listening l) (capturing l) g).

(** ** [jQuery.event.remove(elem, type)]

    The type is one under which the handlers are kept.  It has no dots, so that the handlers
    are found at once and no pattern is built. *)
Definition event_remove (e : Data.elem) (ty : jsstr) (p : state) : state :=
  if negb (Data.acceptData e && Data.hasData e p.1) then p
  else
    let old := element_of e p in
    match Events.events old, Events.remove table 2 false None [] ty old with
    | Some _, Ok new =>
        let p := hooks teardown (gone old new) p in
        (match Events.events new with
         | Some t => set_private e (obj_set (js "events") (PTable t)) p.1
         | None =>
             Data.internalRemoveData Manip.no_inherited e (Data.Name (js "events")) true
               (set_private e (obj_delete (js "handle")) p.1)
         end, listens e new p.2)
    | _, _ => p
    end.
Definition removeEvent (e : Data.elem) (ty : jsstr) (l : native) : native :=
  Native (<[Data.self e := base.filter (λ t, t ≠ ty) (default [] (listening l !! Data.self e))]> (listening l))
    (capturing l) (shared l).

#[export] Instance store_layer : EventLayer Events.handleObj Z native := {|
  JqManip.event_add := event_add;
  JqManip.event_remove := event_remove;
  JqManip.special := is_special;
  JqManip.removeEvent := removeEvent;
  JqManip.doc_counts := [js "focusin"; js "focusout"];
|}.
End store.

(** ** The laws *)

Section facts.
Context `{UnicodeCase} `{Events.RegExpConstructor}.
Context (focusinBubbles : bool) (document : nat) (needs_context : jsstr → bool).
#[local] Instance the_layer : EventLayer Events.handleObj Z native := store_layer focusinBubbles document needs_context.
Implicit Types (e : Data.elem) (d : Data.store pval) (p : state).
Local Abbreviation kept := (kept_data document).

Lemma set_private_spec e f d : Data.data_inv d →
  Data.data_inv (set_private e f d) ∧ ∀ e', ¬ Data.same e e' → Data.lookup_entry e' (set_private e f d) = Data.lookup_entry e' d.
Proof.
  intros Hd. unfold set_private. destruct (Data.lookup_entry e d) as [en|] eqn:El; [|done]. split.
  - apply Data.set_entry_inv; [done|by rewrite El].
  - intros e' Hs. by rewrite Data.set_entry_lookup, decide_False by (by rewrite ?El).
Qed.
Lemma lookup_kept e d d' : Data.lookup_entry e d' = Data.lookup_entry e d → kept e d d'.
Proof. intros E. unfold kept_data, Data.view. rewrite E. by destruct (decide _). Qed.

(** The counts are kept under two names, which are their camel cased names. *)
Lemma count_names fix_ : Events.own_setup (Events.special_table focusinBubbles fix_) = true →
  fix_ ∈ [js "focusin"; js "focusout"] ∧ Core.camelCase fix_ = fix_ ∧ split_unit 32 fix_ = [fix_].
Proof.
  unfold Events.special_table.
  repeat match goal with |- context [str_eqb fix_ ?s] => destruct (str_eqb_spec fix_ s) as [->|_] end.
  all: try (vm_compute; done). all: intros _; split; [set_solver|split; vm_compute; reflexivity].
Qed.
(** A call on the document that uses one of these names. *)
Lemma doc_kept fix_ d d' e : fix_ ∈ [js "focusin"; js "focusout"] →
  (∀ e', ¬ Data.same (doc_node document) e' → Data.lookup_entry e' d' = Data.lookup_entry e' d) →
  Data.view d' (doc_node document) false = Data.view d (doc_node document) false →
  (∀ name, name ≠ fix_ → obj_get name (Data.view d' (doc_node document) true) = obj_get name (Data.view d (doc_node document) true)) →
  kept e d d'.
Proof.
  intros Hfix Hf Hp Hn. unfold kept_data. destruct (decide _) as [Hs|Hs]; [|by apply Hf].
  assert (Hv : ∀ (x : Data.store pval) b, Data.view x e b = Data.view x (doc_node document) b)
    by (intros x b; unfold Data.view; by rewrite (Data.lookup_entry_same (doc_node document) e)).
  split; [by rewrite !Hv|]. intros name Hname. rewrite !Hv. apply Hn. intros ->. by apply Hname.
Qed.
Lemma set_attaches_spec fix_ n d : Data.data_inv d → Events.own_setup (Events.special_table focusinBubbles fix_) = true →
  Data.data_inv (set_attaches document fix_ n d) ∧ ∀ e, kept e d (set_attaches document fix_ n d).
Proof.
  intros Hd (Hin & Hcase & _)%count_names. unfold set_attaches, doc. split; [by apply Data.internalData_inv|]. intros e.
  destruct (Data.acceptData (doc_node document)) eqn:Ea.
  - pose proof (Data.internalData_step Manip.is_null Manip.no_inherited (doc_node document)
      (Data.Named fix_ (Some (POther n))) true d Hd Ea) as Hs.
    pose proof (λ e', Data.internalData_frame Manip.is_null Manip.no_inherited (doc_node document)
      (Data.Named fix_ (Some (POther n))) true d e' Hd) as Hf.
    destruct (Data.internalData _ _ _ _ _ _) as [a d']. cbn [snd] in *. destruct Hs as (_ & _ & _ & Hv).
    apply (doc_kept fix_); [done..| |].
    + rewrite Hv. by rewrite decide_False by (by intros [_ ?]).
    + intros name Hne. rewrite Hv, decide_True by done. cbn [Data.set_step]. rewrite Hcase, obj_get_set. by rewrite decide_False.
  - apply lookup_kept. unfold Data.internalData. by rewrite Ea.
Qed.
Lemma remove_attaches_spec fix_ d : Data.data_inv d → Events.own_setup (Events.special_table focusinBubbles fix_) = true →
  let d' := Data.internalRemoveData Manip.no_inherited (doc_node document) (Data.Name fix_) true d in
  Data.data_inv d' ∧ ∀ e, kept e d d'.
Proof.
  intros Hd (Hin & Hcase & Hsplit)%count_names d'. split; [by apply Data.internalRemoveData_inv|]. intros e.
  destruct (Data.acceptData (doc_node document)) eqn:Ea.
  - destruct (Data.internalRemoveData_step Manip.no_inherited (doc_node document) (Data.Name fix_) true d Hd Ea) as (_ & _ & Hv).
    apply (doc_kept fix_); [done| | |].
    + intros e' Hs. by apply Data.internalRemoveData_frame.
    + unfold d'. rewrite Hv, decide_True by done. cbn [andb]. by destruct (negb _) eqn:En; [destruct fix_; [by set_solver|]|].
    + intros name Hne. unfold d'. rewrite Hv, decide_True by done. destruct fix_ as [|c fix_]; [by set_solver|].
      change (Data.has_name (Data.Name (c :: fix_))) with true. cbn [andb negb bool_decide]. unfold Data.remove_step.
      change (Data.has_name (Data.Name (c :: fix_))) with true. cbv iota.
      assert (Data.removed_keys Manip.no_inherited (Data.Name (c :: fix_)) (Data.view d (doc_node document) true) = [c :: fix_]) as ->.
      { unfold Data.removed_keys. rewrite Hcase. by destruct (Data.has_property _ _ _). }
      unfold Data.delete_keys. cbn [reverse rev_append foldl]. rewrite bool_decide_true by done. cbn.
      rewrite obj_get_delete. by rewrite decide_False.
  - apply lookup_kept. unfold d', Data.internalRemoveData. by rewrite Ea.
Qed.
Lemma teardown_spec fix_ p : Data.data_inv p.1 → Events.own_setup (Events.special_table focusinBubbles fix_) = true →
  Data.data_inv (teardown document fix_ p).1 ∧ ∀ e, kept e p.1 (teardown document fix_ p).1.
Proof.
  intros Hd Hs. unfold teardown. destruct (_ =? 0)%Z; cbn [fst]; [by apply remove_attaches_spec|by apply set_attaches_spec].
Qed.
Lemma setup_spec fix_ p : Data.data_inv p.1 → Events.own_setup (Events.special_table focusinBubbles fix_) = true →
  Data.data_inv (setup document fix_ p).1 ∧ ∀ e, kept e p.1 (setup document fix_ p).1.
Proof. apply set_attaches_spec. Qed.
Lemma hooks_spec f tys p :
  (∀ fix_ p, Data.data_inv p.1 → Events.own_setup (Events.special_table focusinBubbles fix_) = true →
    Data.data_inv (f fix_ p).1 ∧ ∀ e, kept e p.1 (f fix_ p).1) →
  Data.data_inv p.1 →
  Data.data_inv (hooks focusinBubbles f tys p).1 ∧ ∀ e, kept e p.1 (hooks focusinBubbles f tys p).1.
Proof.
  intros Hf. unfold hooks. revert p. induction tys as [|ty tys IH]; intros p Hd; [done|]. cbn [foldl].
  destruct (Events.own_setup _) eqn:Es; [|by apply IH].
  destruct (Hf ty p Hd Es) as [Hd1 Hk1]. destruct (IH _ Hd1) as [Hd2 Hk2]. split; [done|].
  intros e. etransitivity; [apply Hk1|apply Hk2].
Qed.

(** Binding, too, leaves the data of the other nodes. *)
Lemma event_add_spec e ty h p : Data.data_inv p.1 →
  let p' := event_add focusinBubbles document needs_context e ty h p in
  Data.data_inv p'.1 ∧ ∀ e', ¬ Data.same e e' → kept e' p.1 p'.1.
Proof.
  intros Hd. cbv zeta. unfold event_add. destruct (negb _); [done|]. set (d := (Data.internalData _ _ _ _ _ _).2).
  assert (Hd1 : Data.data_inv d) by (by apply Data.internalData_inv).
  destruct (Events.add _ _ _ _ _ _ _ _ _) as [new g]. set (f := λ o, _). cbv zeta.
  destruct (set_private_spec e f d Hd1) as [Hd2 Hk2].
  match goal with |- context [hooks _ _ ?tys ?q] => destruct (hooks_spec (setup document) tys q setup_spec Hd2) as [Hd3 Hk3] end.
  split; [done|]. intros e' Hs. etransitivity; [|apply Hk3]. apply lookup_kept. cbn [fst]. rewrite Hk2 by done.
  by apply Data.internalData_frame.
Qed.
#[export] Instance store_laws : EventLaws Events.handleObj Z native document.
Proof.
  assert (Hall : ∀ e ty p, Data.data_inv p.1 → Data.data_inv (event_remove focusinBubbles document e ty p).1 ∧
    ∀ e', ¬ Data.same e e' → kept e' p.1 (event_remove focusinBubbles document e ty p).1).
  { intros e ty p Hd. unfold event_remove. destruct (negb _); [done|].
    destruct (Events.events _); [|done]. destruct (Events.remove _ _ _ _ _ _ _) as [new|]; [|done]. cbv zeta. cbn [fst].
    destruct (hooks_spec (teardown document) (gone (element_of e p) new) p teardown_spec Hd) as [Hd1 Hk1]. set (p1 := hooks _ _ _ p) in *. clearbody p1.
    destruct (Events.events new) as [t|].
    - destruct (set_private_spec e (obj_set (js "events") (PTable t)) p1.1 Hd1) as [Hd2 Hk2]. split; [done|].
      intros e' Hs. etransitivity; [apply Hk1|]. by apply lookup_kept, Hk2.
    - destruct (set_private_spec e (obj_delete (js "handle")) p1.1 Hd1) as [Hd2 Hk2].
      split; [by apply Data.internalRemoveData_inv|]. intros e' Hs. etransitivity; [apply Hk1|]. apply lookup_kept.
      rewrite Data.internalRemoveData_frame by done. by apply Hk2. }
  split; intros e ty p; [intros Hd; by apply (Hall e ty p)|]. intros e' Hd Hs. by apply (Hall e ty p).
Qed.

(** A type under which handlers are kept has no dots or spaces: [remove] finds them. *)
Lemma event_remove_runs ty (e : Events.element) :
  ty ≠ [] → Events.undotted ty → Events.spaceless ty → is_Some (Events.events e) →
  Events.remove (Events.special_table focusinBubbles) 2 false None [] ty e =
    Ok (Events.drop_empty (Events.remove_type (Events.special_table focusinBubbles) false None [] ty None e)).
Proof.
  intros Hne Hu Hs He. apply (Events.remove_one_type _ 1 false None [] ty ty []); [done|done|done|by apply Events.parse_type_plain|done|].
  by vm_compute.
Qed.

(** C6: [remove] and [detach] of an element with a parent: its tree is taken out of its parent,
    whole, every other part of the page stays where it is, and the numbering of the nodes and
    the cache stay in order.  [remove] takes the data of every element of the tree that may
    have data, with its handlers, and leaves the data of all other nodes as it is; only the
    counts that the document keeps of the elements that use [focusin] and [focusout] may change.
    [detach] leaves the data of all nodes as it is, except that the scripts of a tree that was
    in the document are marked as evaluated.  The handlers are those of [jQuery.event] with the
    special events of the library. *)
Theorem removal_spec keepData (w : Forest.world info (Manip.more (Handler := Events.handleObj) (U := Z) (L := native))) x t parent :
  ManipFacts.wf w → Data.data_inv (Manip.data (Forest.rest w)) →
  nodeType (Manip.info_of_id w document) ≠ 1%N →
  Forest.find_in x (Forest.forest w) = Some t → nodeType (Forest.info_of t) = 1%N → Forest.parent_in x (Forest.forest w) = Some parent →
  ∃ w', Manip.remove document [x] keepData w = (Ok tt, w') ∧ ManipFacts.removed document keepData x t w w'.
Proof. apply (ManipFacts.removal document (λ _, []) (λ _, [])). Qed.
End facts.

(** ** A small page

    The item of a list has a click handler; the list handles the focus of its items. *)
#[local] Existing Instance ascii_case.
#[local] Instance no_patterns : Events.RegExpConstructor := λ _, Throw (UserError 0).
#[local] Instance small_layer : EventLayer Events.handleObj Z native := store_layer false 0 (λ _, false).
Definition handler_for (ty sel : jsstr) (f : nat) : Events.handleObj :=
  Events.HandleObj ty ty None (Events.Fn f false) f sel false [].
Definition node_4 : Data.elem := Data.Elem 4 1 (js "OL") None.
Definition node_5 : Data.elem := Data.Elem 5 1 (js "LI") None.
Definition nothing_bound : state :=
  (Data.no_data, Native ∅ [] (Events.Shared ∅ 1 ∅)).
Definition clicks := event_add false 0 (λ _, false) node_5 (js "click") (handler_for (js "click") [] 7) nothing_bound.
Definition bound := event_add false 0 (λ _, false) node_4 (js "focusin") (handler_for (js "focusin") (js "li") 8) clicks.
Definition bound_page (p : state) :=
  Forest.World ManipFacts.small_forest 7 (Manip.More p.1 p.2 []).
Lemma bound_inv : Data.data_inv bound.1.
Proof.
  apply (event_add_spec false 0 (λ _, false)). apply (event_add_spec false 0 (λ _, false)). by apply Data.no_data_inv.
Qed.
Example bound_counts : Data.view bound.1 (doc_node 0) true = [(js "focusin", POther 1%Z)] ∧
  (bound.2.(capturing), bound.2.(listening) !! 5) = ([js "focus"], Some [js "click"]).
Proof. vm_compute. done. Qed.
Definition page_without (p : state) := (Manip.remove 0 [4] false (bound_page p)).2.
(** Both lose their data, and the document its count. *)
Example unbound : Data.expando (Manip.data (Forest.rest (page_without bound))) = ∅ ∧
  capturing (Manip.listeners (Forest.rest (page_without bound))) = [].
Proof. vm_compute. done. Qed.

(** A handler of [focus] that is bound with a selector is kept under [focusin].  Removing the
    element then does not find it, since its own type is [focus]: the document keeps its
    count and its listener for ever. *)
Definition delegated := event_add false 0 (λ _, false) node_4 (js "focusin")
  (Events.HandleObj (js "focusin") (js "focus") None (Events.Fn 8 false) 8 (js "li") false []) nothing_bound.
Lemma delegated_focus_leaks :
  let w := page_without delegated in
  Data.view (Manip.data (Forest.rest w)) node_4 true = [] ∧
  Data.view (Manip.data (Forest.rest w)) (doc_node 0) true = [(js "focusin", POther 1%Z)] ∧
  capturing (Manip.listeners (Forest.rest w)) = [js "focus"].
Proof. vm_compute. done. Qed.

Lemma removal_spec_witness :
  Data.view bound.1 node_5 true ≠ [] ∧
  Data.lookup_entry node_5 (Manip.data (Forest.rest (page_without bound))) = None ∧
  ManipFacts.wf (page_without bound).
Proof.
  split; [by vm_compute|].
  destruct (removal_spec false 0 (λ _, false) false (bound_page bound) 4 (Forest.Tree 4 (element (js "OL")) [ManipFacts.item]) 0)
    as (w' & E & R).
  - exact ManipFacts.small_wf.
  - exact bound_inv.
  - done.
  - reflexivity.
  - reflexivity.
  - reflexivity.
  - assert (page_without bound = w') as -> by exact (f_equal snd E). split; [|apply R].
    apply (ManipFacts.removed_cleaned _ _ _ _ _ _ R eq_refl (Forest.Tree 5 (element (js "LI")) [Forest.Tree 6 (text_node (js "b")) []])).
    + right. left.
    + reflexivity.
    + reflexivity.
Defined.
End EventStore.
