(* ===== verification/JqAttr.v ===== *)
(** * Attributes, properties and values in jquery.js

    [Access]: [jQuery.access], which reads one element and writes all.  [Attr]:
    [jQuery.attr], [removeAttr] and [prop] of an element of an html page.  [Val]: [val] of
    fields, options and select boxes.  Everywhere the browser is one whose tests of
    [support] succeed. *)

From stdpp Require Import base tactics list strings numbers sets gmap.
From Stdlib Require Import NArith ZArith Lia.
From S2P Require Import Prelude.
From S2P Require Import JsString.
From S2P Require Import JsArray.
From S2P Require Import Regex.
From S2P Require Import JqCallbacks.
From S2P Require Import JqClasses.

Module Access.

Section access.
(** The elements, the values, and the store of the page.  [fn] reads without a value and
    writes with one. *)
Context {E V S : Type} (fn : E → jsstr → option V → M S (option V)).

(** What is set: a value, or a function of the element, its index and its value. *)
Inductive given := Raw (v : V) | Computed (f : E → nat → option V → M S (option V)).
(** A key is a name or an object, whose values may be undefined; it is never null here. *)
Inductive key := Name (k : jsstr) | Names (l : list (jsstr * option given)).
Inductive result := Chain | Value (v : option V).

Fixpoint set_loop (k : jsstr) (value : given) (elems : list E) (i : nat) : M S unit :=
  match elems with
  | [] => mret tt
  | e :: elems =>
      v ← match value with
          | Raw v => mret (Some v)
          | Computed f => cur ← fn e k None; f e i cur
          end;
      fn e k v ≫= λ _, set_loop k value elems (i + 1)
  end.
Definition access_one (elems : list E) (k : jsstr) (value : option given) (chainable : bool) (emptyGet : option V)
    : M S result :=
  match value with
  | Some value => set_loop k value elems 0 ≫= λ _, mret Chain
  | None =>
      if chainable then mret Chain
      else match elems with [] => mret (Value emptyGet) | e :: _ => v ← fn e k None; mret (Value v) end
  end.
Fixpoint access_names (elems : list E) (l : list (jsstr * option given)) (emptyGet : option V) : M S unit :=
  match l with
  | [] => mret tt
  | (k, v) :: l => access_one elems k v true emptyGet ≫= λ _, access_names elems l emptyGet
  end.
Definition access (elems : list E) (k : key) (value : option given) (chainable : bool) (emptyGet : option V)
    : M S result :=
  match k with
  | Name k => access_one elems k value chainable emptyGet
  | Names l => access_names elems l emptyGet ≫= λ _, mret Chain
  end.
End access.
Arguments given : clear implicits.
Arguments key : clear implicits.
End Access.

Module Attr.

Section attr.
Context `{UnicodeCase}.

(** A value: a number is its text. *)
Inductive value := VUndefined | VNull | VBool (b : bool) | VText (s : jsstr).
#[export] Instance value_eq_dec : EqDecision value.
Proof. solve_decision. Defined.
Definition to_text (v : value) : jsstr :=
  match v with
  | VUndefined => js "undefined"
  | VNull => js "null"
  | VBool b => js (if b then "true" else "false")
  | VText s => s
  end.
(** A node, with the attributes of an element, whose names have no capitals, and its
    properties, which keep what they are assigned.  The names are ones that [setAttribute]
    takes and that [Object.prototype] does not have. *)
Record elem := Elem { nodeType : N; attributes : list (jsstr * jsstr); properties : list (jsstr * value) }.
(** The browser only lowers the letters of ASCII. *)
Definition lowercase (name : jsstr) : jsstr := ascii_lower_unit <$> name.
Definition setAttribute (name v : jsstr) (e : elem) : elem :=
  Elem (nodeType e) (obj_set (lowercase name) v (attributes e)) (properties e).
Definition getAttribute (name : jsstr) (e : elem) : option jsstr := obj_get (lowercase name) (attributes e).
Definition removeAttribute (name : jsstr) (e : elem) : elem :=
  Elem (nodeType e) (obj_delete (lowercase name) (attributes e)) (properties e).
Definition set_property (name : jsstr) (v : value) (e : elem) : elem :=
  Elem (nodeType e) (attributes e) (obj_set name v (properties e)).

Definition booleans : list jsstr :=
  js <$> ["checked"; "selected"; "async"; "autofocus"; "autoplay"; "controls"; "defer"; "disabled"; "hidden"; "ismap";
          "loop"; "multiple"; "open"; "readonly"; "required"; "scoped"]%string.
(** [Expr.match.bool] does not look at case. *)
Definition is_bool (name : jsstr) : bool := bool_decide (lowercase name ∈ booleans).
Definition propFix : list (jsstr * jsstr) :=
  [(js "for", js "htmlFor"); (js "class", js "className")] ++
  ((λ s, (ascii_lower_unit <$> s, s)) <$>
     (js <$> ["tabIndex"; "readOnly"; "maxLength"; "cellSpacing"; "cellPadding"; "rowSpan"; "colSpan"; "useMap";
              "frameBorder"; "contentEditable"]%string)).
Definition fixed (name : jsstr) : jsstr := default name (obj_get name propFix).

(** [jQuery.find.attr]: a boolean attribute is its own name. *)
Definition find_attr (name : jsstr) (e : elem) : option jsstr :=
  match getAttribute name e with
  | Some v => Some (if is_bool (to_lower name) then to_lower name else v)
  | None => None
  end.
(** [jQuery.attr] with a value that is no null and no false: a boolean attribute is set to
    its name. *)
Definition set_attr (name : jsstr) (v : value) (e : elem) : value * elem :=
  if is_bool name then (VText name, setAttribute name name e) else (v, setAttribute name (to_text v) e).
(** [removeAttr]: what is not boolean is emptied by [jQuery.attr] before it goes. *)
Definition remove_one (e : elem) (name : jsstr) : elem :=
  let e := if is_bool name then set_property (fixed name) (VBool false) e
           else (set_attr (to_lower name) (VText []) e).2 in
  removeAttribute name e.
Definition removeAttr (e : elem) (names : jsstr) : elem :=
  if (nodeType e =? 1)%N then foldl remove_one e (Callbacks.words names) else e.

(** [jQuery.prop], for properties without hooks: all but [tabIndex]. *)
Definition no_attributes (n : N) : bool := (n =? 3)%N || (n =? 8)%N || (n =? 2)%N.
Definition prop (e : elem) (name : jsstr) (v : value) : value * elem :=
  if no_attributes (nodeType e) then (VUndefined, e)
  else
    let name := fixed name in
    match v with
    | VUndefined => (default VUndefined (obj_get name (properties e)), e)
    | _ => (v, set_property name v e)
    end.
(** [jQuery.attr].  Only elements have [getAttribute]. *)
Definition attr (e : elem) (name : jsstr) (v : value) : value * elem :=
  if no_attributes (nodeType e) then (VUndefined, e)
  else if negb (nodeType e =? 1)%N then prop e name v
  else
    let name := to_lower name in
    match v with
    | VUndefined => (match find_attr name e with Some s => VText s | None => VUndefined end, e)
    | VNull => (VUndefined, removeAttr e name)
    | VBool false => if is_bool name then (VText name, removeAttr e name) else set_attr name v e
    | _ => set_attr name v e
    end.

(** ** What is set is read *)

Lemma lowercase_idemp s : lowercase (lowercase s) = lowercase s.
Proof. unfold lowercase. rewrite <- list_fmap_compose. apply list_fmap_ext. intros. apply ascii_lower_unit_idemp. Qed.
Lemma getAttribute_set n m v e :
  getAttribute n (setAttribute m v e) = if decide (lowercase n = lowercase m) then Some v else getAttribute n e.
Proof. apply obj_get_set. Qed.
Lemma getAttribute_remove n m e :
  getAttribute n (removeAttribute m e) = if decide (lowercase n = lowercase m) then None else getAttribute n e.
Proof. apply obj_get_delete. Qed.
Lemma getAttribute_set_attr n m v e :
  getAttribute n (set_attr m v e).2 =
  if decide (lowercase n = lowercase m) then Some (if is_bool m then m else to_text v) else getAttribute n e.
Proof. unfold set_attr. destruct (is_bool m); apply getAttribute_set. Qed.

Lemma remove_one_get n m e :
  to_lower m = lowercase m →
  getAttribute n (remove_one e m) = if decide (lowercase n = lowercase m) then None else getAttribute n e.
Proof.
  intros Hm. unfold remove_one. rewrite getAttribute_remove. case_decide as Hn; [done|].
  destruct (is_bool m); [done|]. rewrite getAttribute_set_attr, Hm, lowercase_idemp. by rewrite decide_False.
Qed.
Lemma remove_one_same n e : getAttribute n (remove_one e n) = None.
Proof. unfold remove_one. rewrite getAttribute_remove. by rewrite decide_True. Qed.
Lemma remove_one_nodeType e n : nodeType (remove_one e n) = nodeType e.
Proof. unfold remove_one. cbn. destruct (is_bool n); [done|]. unfold set_attr. by case_match. Qed.

Lemma removeAttr_element e names : nodeType e = 1%N → removeAttr e names = foldl remove_one e (Callbacks.words names).
Proof. unfold removeAttr. by intros ->. Qed.

(** [removeAttr] removes the attributes whose names it is given, and no other. *)
Theorem removeAttr_spec e names n :
  nodeType e = 1%N → (∀ w, w ∈ Callbacks.words names → is_ascii w) →
  getAttribute n (removeAttr e names) =
  if decide (lowercase n ∈ lowercase <$> Callbacks.words names) then None else getAttribute n e.
Proof.
  intros He. rewrite (removeAttr_element _ _ He). clear He. generalize (Callbacks.words names) as ws. intros ws.
  revert e. induction ws as [|w ws IH]; intros e Hws; [done|]. cbn [foldl fmap list_fmap].
  rewrite IH by (intros; apply Hws; by right).
  rewrite remove_one_get by (apply to_lower_ascii, Hws; by left).
  repeat case_decide; set_solver.
Qed.

(** What [attr] reads after it has set. *)
Definition stored (name : jsstr) (v : value) : value :=
  match v with
  | VUndefined | VNull => VUndefined
  | VBool false => if is_bool name then VUndefined else VText (js "false")
  | _ => VText (if is_bool name then name else to_text v)
  end.
(** An attribute that was set is read as it was set: a boolean one as its name, a null and a
    boolean one that was set to false as undefined. *)
Theorem attr_read_back e name v :
  nodeType e = 1%N → Callbacks.words (to_lower name) = [to_lower name] → v ≠ VUndefined →
  (attr (attr e name v).2 name VUndefined).1 = stored (to_lower name) v.
Proof.
  intros He Hw Hv. assert (Hset : ∀ v, (set_attr (to_lower name) v e).2 =
    setAttribute (to_lower name) (if is_bool (to_lower name) then to_lower name else to_text v) e)
    by (intros u; unfold set_attr; by destruct (is_bool _)).
  assert (Hrem : getAttribute (to_lower name) (removeAttr e (to_lower name)) = None).
  { rewrite removeAttr_element, Hw by done. apply remove_one_same. }
  assert (Hget : ∀ e', nodeType e' = 1%N → (attr e' name VUndefined).1 =
    match getAttribute (to_lower name) e' with
    | Some s => VText (if is_bool (to_lower name) then to_lower name else s)
    | None => VUndefined
    end).
  { intros e' He'. unfold attr. rewrite He'. cbn. unfold find_attr. rewrite to_lower_idemp. by destruct (getAttribute _ e'). }
  assert (Ht : nodeType (removeAttr e (to_lower name)) = 1%N).
  { rewrite removeAttr_element, Hw by done. cbn [foldl]. by rewrite remove_one_nodeType. }
  unfold attr at 2. rewrite He. change (no_attributes 1) with false. change (negb (1 =? 1)%N) with false. cbv iota zeta.
  assert (Hs : ∀ v, (attr (set_attr (to_lower name) v e).2 name VUndefined).1 =
    VText (if is_bool (to_lower name) then to_lower name else to_text v)).
  { intros u. rewrite Hset, Hget, getAttribute_set, decide_True by done. by destruct (is_bool _). }
  destruct v as [| |[]|s]; [done| |apply Hs| |apply Hs].
  - by cbn [snd]; rewrite Hget, Hrem.
  - unfold stored. destruct (is_bool (to_lower name)) eqn:Eb; [by cbn [snd]; rewrite Hget, Hrem|].
    by rewrite Hs, ?Eb.
Qed.
End attr.
End Attr.

(** ** [val] *)

Module Val.
Import Attr.

Section val.
(** An option: its [value] attribute, its text, its [disabled] property, and whether its
    parent is a disabled [optgroup].  [selected] holds the positions of the selected ones. *)
Record option_ := Option_ { value_attr : option jsstr; text : jsstr; opt_disabled : bool;
                            parent_disabled : bool; in_optgroup : bool }.
Record select := Select { multiple : bool; dropdown : bool; options : list option_; selected : gset nat }.

(** What the browser does to a select box (HTML, the select element): a box of one row that
    takes one option always has one, the first that is not disabled if nothing else was
    chosen, unless [selectedIndex] is assigned. *)
Definition selectable (o : option_) : bool := negb (opt_disabled o) && negb (parent_disabled o && in_optgroup o).
Definition reset (s : select) : select :=
  if negb (multiple s) && dropdown s && bool_decide (selected s = ∅) then
    match list_find (λ o, selectable o = true) (options s) with
    | Some (i, _) => Select (multiple s) (dropdown s) (options s) {[i]}
    | None => s
    end
  else s.
Definition set_selected (i : nat) (b : bool) (s : select) : select :=
  reset (Select (multiple s) (dropdown s) (options s)
    (if b then (if multiple s then {[i]} ∪ selected s else {[i]}) else selected s ∖ {[i]})).
Definition set_none (s : select) : select := Select (multiple s) (dropdown s) (options s) ∅.
Definition is_selected (s : select) (i : nat) : bool := bool_decide (i ∈ selected s).
Definition selectedIndex (s : select) : Z :=
  match list_find (λ i, is_selected s i = true) (seq 0 (length (options s))) with
  | Some (_, i) => Z.of_nat i
  | None => -1
  end.

(** [valHooks.option.get]. *)
Definition option_value (o : option_) : jsstr := match value_attr o with Some v => v | None => Classes.trim (text o) end.

(** What [val()] returns. *)
Inductive got := Undefined | Null | Text (v : jsstr) | Texts (l : list jsstr) | Other (v : value).
(** [valHooks.select.get]. *)
Fixpoint select_loop (s : select) (one : bool) (index : Z) (positions : list nat) (values : list jsstr) : got :=
  match positions with
  | [] => if one then Null else Texts values
  | i :: positions =>
      match options s !! i with
      | Some o =>
          if (is_selected s i || (Z.of_nat i =? index)%Z) && negb (opt_disabled o) &&
             (negb (parent_disabled o) || negb (in_optgroup o)) then
            if one then Text (option_value o)
            else select_loop s one index positions (values ++ [option_value o])
          else select_loop s one index positions values
      | None => select_loop s one index positions values
      end
  end.
Definition select_get (s : select) : got :=
  let index := selectedIndex s in
  let one := negb (multiple s) || (index <? 0)%Z in
  let max := if one then (index + 1)%Z else Z.of_nat (length (options s)) in
  let i := if (index <? 0)%Z then max else if one then index else 0%Z in
  select_loop s one index (seq (Z.to_nat i) (Z.to_nat (max - i))) [].

(** [valHooks.select.set]: [i] options are left.  Only a text can be the value of an option. *)
Definition wanted (values : list value) (o : option_) : bool := bool_decide (VText (option_value o) ∈ values).
Fixpoint select_set_loop (values : list value) (i : nat) (optionSet : bool) (s : select) : bool * select :=
  match i with
  | 0 => (optionSet, s)
  | S i =>
      match options s !! i with
      | Some o =>
          if wanted values o then select_set_loop values i true (set_selected i true s)
          else select_set_loop values i optionSet (set_selected i false s)
      | None => select_set_loop values i optionSet s
      end
  end.
Definition select_set (s : select) (values : list value) : select :=
  let (optionSet, s) := select_set_loop values (length (options s)) false s in
  if optionSet then s else set_none s.

(** The elements [val] knows: select boxes, options, radio buttons and checkboxes, the other
    elements with their [value] property, and nodes that are no elements.  [assign] is what
    a field makes of the value it is assigned. *)
Context (assign : value → value).
Inductive node :=
  | NSelect (s : select)
  | NOption (o : option_)
  | NCheck (value : jsstr) (checked : bool)
  | NField (value : value)
  | NNode.
Definition rreturn (s : jsstr) : jsstr := base.filter (λ c, c ≠ 13%N) s.
(** [val()] of the first element. *)
Definition field_get (v : value) : got :=
  match v with
  | VText s => Text (rreturn s)
  | VUndefined | VNull => Text []
  | VBool _ => Other v
  end.
Definition get (n : node) : got :=
  match n with
  | NSelect s => select_get s
  | NOption o => Text (option_value o)
  | NCheck v _ => field_get (VText v)
  | NField v => field_get v
  | NNode => field_get VUndefined
  end.
Definition val (l : list node) : got := match l with [] => Undefined | n :: _ => get n end.

(** A value to set, or a list of them. *)
Inductive setting := One (v : value) | Many (l : list value).
Definition text_of (v : value) : jsstr := match v with VUndefined | VNull => [] | _ => to_text v end.
Definition prepare (g : setting) : setting :=
  match g with
  | One (VUndefined | VNull) => One (VText [])
  | One v => One v
  | Many l => Many ((λ v, VText (text_of v)) <$> l)
  end.
Definition makeArray (g : setting) : list value := match g with One v => [v] | Many l => l end.
(** What the property [value] is assigned: a list becomes its text. *)
Definition assigned (g : setting) : value :=
  match g with One v => v | Many l => VText (join (js ",") (text_of <$> l)) end.
Definition set_prepared (g : setting) (n : node) : node :=
  match n with
  | NSelect s => NSelect (select_set s (makeArray g))
  | NCheck v c =>
      match g with
      | Many l => NCheck v (bool_decide (VText (rreturn v) ∈ l))
      | One u => NCheck (to_text u) c
      end
  | NOption o =>
      NOption (Option_ (Some (to_text (assigned g))) (text o) (opt_disabled o) (parent_disabled o) (in_optgroup o))
  | NField _ => NField (assign (assigned g))
  | NNode => NNode
  end.
(** [val] with a value or with a function of the position and the present value. *)
Inductive setter := SetTo (g : setting) | SetBy (f : nat → got → setting).
Definition set_one (v : setter) (i : nat) (n : node) : node :=
  match n with
  | NNode => NNode
  | _ => set_prepared (prepare (match v with SetTo g => g | SetBy f => f i (val [n]) end)) n
  end.
Definition set_val (v : setter) (l : list node) : list node := imap (set_one v) l.
End val.
End Val.

Module ValFacts.
Import Attr Val.

Lemma list_find_snoc {A} (P : A → Prop) `{∀ x, Decision (P x)} l x :
  list_find P (l ++ [x]) =
  match list_find P l with Some r => Some r | None => if decide (P x) then Some (length l, x) else None end.
Proof.
  induction l as [|y l IH]; simpl; [by destruct (decide (P x))|]. destruct (decide (P y)); [done|]. rewrite IH.
  destruct (list_find P l) as [[]|]; [done|]. by destruct (decide (P x)).
Qed.

Section facts.
Implicit Types (s : select) (o : option_) (vs : list value).

Definition within s : Prop := ∀ j, j ∈ selected s → j < length (options s).
Definition enabled (o : option_) : Prop := selectable o = true.
Definition wanting vs (o : option_) : Prop := wanted vs o = true.
#[local] Instance enabled_dec o : Decision (enabled o) := decide (selectable o = true).
#[local] Instance wanting_dec vs o : Decision (wanting vs o) := decide (wanted vs o = true).

(** *** The browser *)

Lemma reset_frame s : multiple (reset s) = multiple s ∧ options (reset s) = options s.
Proof. unfold reset. by repeat case_match. Qed.
Lemma reset_selected s : multiple s = true ∨ selected s ≠ ∅ → reset s = s.
Proof.
  intros Hs. unfold reset. destruct (multiple s); [done|]. destruct Hs as [?|Hs]; [done|].
  by rewrite bool_decide_false, andb_false_r by done.
Qed.
Lemma set_selected_frame i b s : multiple (set_selected i b s) = multiple s ∧ options (set_selected i b s) = options s.
Proof. unfold set_selected. exact (reset_frame (Select _ _ _ _)). Qed.
Lemma set_selected_multiple i b s :
  multiple s = true → selected (set_selected i b s) = if b then {[i]} ∪ selected s else selected s ∖ {[i]}.
Proof. intros Hm. unfold set_selected. rewrite reset_selected by (by left). cbn. by rewrite Hm. Qed.
Lemma set_selected_single i s : multiple s = false → selected (set_selected i true s) = {[i]}.
Proof. intros Hm. unfold set_selected. rewrite Hm, reset_selected; [done|]. right. cbn. set_solver. Qed.
Lemma unset_selected_single i k s :
  selected s = {[k]} → i ≠ k → selected (set_selected i false s) = {[k]}.
Proof.
  intros Hk Hi. assert (E : selected s ∖ {[i]} = {[k]}) by (rewrite Hk; set_solver).
  unfold set_selected. rewrite E, reset_selected; [done|]. right. cbn. set_solver.
Qed.

(** *** Setting *)

Lemma select_set_loop_frame vs i f s :
  multiple (select_set_loop vs i f s).2 = multiple s ∧ options (select_set_loop vs i f s).2 = options s.
Proof.
  revert f s. induction i as [|i IH]; intros f s; [done|]. cbn.
  destruct (options s !! i) as [o|]; [|apply IH].
  destruct (wanted vs o); (split; [rewrite (proj1 (IH _ _))|rewrite (proj2 (IH _ _))]; apply set_selected_frame).
Qed.
(** A box that takes one option takes the first wanted one. *)
Lemma select_set_loop_single vs i f s :
  multiple s = false → i ≤ length (options s) →
  (f = true → ∃ k, selected s = {[k]} ∧ i ≤ k) →
  match list_find (wanting vs) (take i (options s)) with
  | Some (k, _) => (select_set_loop vs i f s).1 = true ∧ selected (select_set_loop vs i f s).2 = {[k]}
  | None => (select_set_loop vs i f s).1 = f ∧ (f = true → selected (select_set_loop vs i f s).2 = selected s)
  end.
Proof.
  revert f s. induction i as [|i IH]; intros f s Hm Hi Hf; [by rewrite take_0|].
  destruct (lookup_lt_is_Some_2 (options s) i) as [o Ho]; [lia|].
  cbn [select_set_loop]. rewrite Ho. rewrite (take_S_r _ _ _ Ho), list_find_snoc.
  destruct (wanted vs o) eqn:Hw.
  - destruct (set_selected_frame i true s) as [Em Eo].
    specialize (IH true (set_selected i true s)). rewrite Em, Eo, set_selected_single in IH by done.
    specialize (IH Hm ltac:(lia) (λ _, ex_intro _ i (conj eq_refl (le_n i)))).
    destruct (list_find (wanting vs) (take i (options s))) as [[k o']|]; [done|].
    rewrite decide_True by done. rewrite length_take_le by lia. naive_solver.
  - destruct (set_selected_frame i false s) as [Em Eo].
    specialize (IH f (set_selected i false s)). rewrite Em, Eo in IH.
    assert (Hsel : f = true → selected (set_selected i false s) = selected s).
    { intros (k & Hk & ?)%Hf. rewrite Hk. apply unset_selected_single; [done|lia]. }
    specialize (IH Hm ltac:(lia)).
    assert (Hpre : f = true → ∃ k, selected (set_selected i false s) = {[k]} ∧ i ≤ k).
    { intros E. rewrite (Hsel E). destruct (Hf E) as (k & ? & ?). exists k. split; [done|lia]. }
    specialize (IH Hpre). destruct (list_find (wanting vs) (take i (options s))) as [[k o']|]; [done|].
    rewrite decide_False by (unfold wanting; by rewrite Hw). destruct IH as [-> IH]. split; [done|].
    intros E. by rewrite (IH E), (Hsel E).
Qed.
(** A box that takes many takes all of them. *)
Lemma select_set_loop_multiple vs i f s :
  multiple s = true → i ≤ length (options s) →
  (select_set_loop vs i f s).1 = f || existsb (wanted vs) (take i (options s)) ∧
  ∀ j, j ∈ selected (select_set_loop vs i f s).2 ↔
       if decide (j < i) then ∃ o, options s !! j = Some o ∧ wanted vs o = true else j ∈ selected s.
Proof.
  revert f s. induction i as [|i IH]; intros f s Hm Hi.
  { split; [by rewrite take_0, orb_false_r|]. intros j. by rewrite decide_False by lia. }
  destruct (lookup_lt_is_Some_2 (options s) i) as [o Ho]; [lia|].
  cbn [select_set_loop]. rewrite Ho, (take_S_r _ _ _ Ho), existsb_app. cbn. rewrite orb_false_r.
  assert (Hstep : ∀ b f', wanted vs o = b → f' = f || b →
    (select_set_loop vs i f' (set_selected i b s)).1 = f || (existsb (wanted vs) (take i (options s)) || b) ∧
    ∀ j, j ∈ selected (select_set_loop vs i f' (set_selected i b s)).2 ↔
         if decide (j < S i) then ∃ o, options s !! j = Some o ∧ wanted vs o = true else j ∈ selected s).
  { intros b f' Hb ->. destruct (set_selected_frame i b s) as [Em Eo].
    destruct (IH (f || b) (set_selected i b s)) as [IH1 IH2]; [congruence|rewrite Eo; lia|]. rewrite Eo in IH1, IH2.
    split; [rewrite IH1; by destruct f, b, (existsb _ _)|]. intros j. rewrite IH2, set_selected_multiple by done.
    destruct (decide (j < i)) as [Hj|Hj]; [by rewrite decide_True by lia|].
    destruct (decide (j = i)) as [->|Hne].
    - rewrite decide_True by lia. rewrite Ho. destruct b.
      + rewrite elem_of_union, elem_of_singleton. split; [intros _; by exists o|intros _; by left].
      + rewrite elem_of_difference, elem_of_singleton. split; [tauto|intros (o' & [= <-] & Hw); congruence].
    - rewrite decide_False by lia. destruct b.
      + rewrite elem_of_union, elem_of_singleton. tauto.
      + rewrite elem_of_difference, elem_of_singleton. tauto. }
  destruct (wanted vs o); [exact (Hstep true true eq_refl (eq_sym (orb_true_r f)))|].
  exact (Hstep false f eq_refl (eq_sym (orb_false_r f))).
Qed.

(** *** Reading *)

Lemma selectedIndex_none s : selected s = ∅ → selectedIndex s = (-1)%Z.
Proof.
  intros E. unfold selectedIndex. destruct (list_find _ _) as [[j i]|] eqn:F; [|done].
  apply list_find_Some in F as (_ & F & _). unfold is_selected in F. rewrite bool_decide_eq_true, E in F. set_solver.
Qed.
Lemma selectedIndex_some s k : k ∈ selected s → k < length (options s) → ∃ i, i ∈ selected s ∧ selectedIndex s = Z.of_nat i.
Proof.
  intros Hk Hlt. unfold selectedIndex. destruct (list_find _ _) as [[j i]|] eqn:F.
  - apply list_find_Some in F as (_ & F & _). unfold is_selected in F. rewrite bool_decide_eq_true in F. by exists i.
  - apply list_find_None in F. rewrite Forall_forall in F. destruct (F k).
    + apply elem_of_seq. lia.
    + by apply bool_decide_eq_true.
Qed.
Lemma select_loop_many s index values positions :
  (∀ i, index = Z.of_nat i → i ∈ selected s) →
  select_loop s false index positions values =
  Texts (values ++ omap (λ i, o ← options s !! i; if is_selected s i && selectable o then Some (option_value o) else None) positions).
Proof.
  intros Hindex. revert values. induction positions as [|i l IH]; intros values; cbn; [by rewrite app_nil_r|].
  destruct (options s !! i) as [o|]; [|apply IH]. cbn.
  assert (E : (is_selected s i || (Z.of_nat i =? index)%Z) = is_selected s i).
  { destruct (Z.eqb_spec (Z.of_nat i) index) as [Hi|]; [|by rewrite orb_false_r].
    rewrite orb_true_r. symmetry. by apply bool_decide_eq_true, Hindex. }
  rewrite E, <- andb_assoc. unfold selectable at 1. rewrite negb_andb.
  destruct (is_selected s i && _); [|apply IH]. rewrite IH. by rewrite <- app_assoc.
Qed.

(** *** What is set is read *)

(** The value of a select box after [val] was given [vs]: of one that takes one option the
    first with a wanted value, of one that takes many all of them, without those that are
    disabled; null when there is none. *)
Definition chosen s vs : got :=
  if multiple s then
    match base.filter (wanting vs) (options s) with
    | [] => Null
    | l => Texts (option_value <$> base.filter enabled l)
    end
  else
    match list_find (wanting vs) (options s) with
    | Some (_, o) => if selectable o then Text (option_value o) else Null
    | None => Null
    end.

Lemma select_get_none s : selected s = ∅ → select_get s = Null.
Proof. intros E. unfold select_get. rewrite selectedIndex_none by done. by rewrite orb_true_r. Qed.
Lemma select_get_single s k o :
  multiple s = false → selected s = {[k]} → options s !! k = Some o →
  select_get s = if selectable o then Text (option_value o) else Null.
Proof.
  intros Hm Hk Ho. destruct (selectedIndex_some s k) as (i & Hi & E); [set_solver|by eapply lookup_lt_Some|].
  assert (i = k) as -> by set_solver. unfold select_get. rewrite E, Hm. cbn [negb orb].
  rewrite (proj2 (Z.ltb_ge (Z.of_nat k) 0)) by lia.
  replace (Z.to_nat (Z.of_nat k + 1 - Z.of_nat k)) with 1 by lia. rewrite Nat2Z.id. cbn. rewrite Ho.
  unfold is_selected. rewrite Hk, bool_decide_true by set_solver. cbn. unfold selectable. by rewrite negb_andb.
Qed.
Lemma omap_seq {A B} (f : A → option B) (g : nat → option B) (l : list A) n :
  (∀ i x, l !! i = Some x → g (n + i) = f x) → omap g (seq n (length l)) = omap f l.
Proof.
  revert n. induction l as [|x l IH]; intros n Hg; [done|]. cbn. rewrite <- (Hg 0 x), Nat.add_0_r by done.
  rewrite (IH (S n)); [done|]. intros i y Hy. rewrite <- (Hg (S i) y) by done. f_equal. lia.
Qed.
Lemma select_get_multiple s (P : option_ → Prop) `{∀ o, Decision (P o)} :
  multiple s = true → (∀ j, j ∈ selected s ↔ ∃ o, options s !! j = Some o ∧ P o) →
  select_get s = match base.filter P (options s) with [] => Null | l => Texts (option_value <$> base.filter enabled l) end.
Proof.
  intros Hm Hsel. destruct (base.filter P (options s)) as [|o l] eqn:E.
  - apply select_get_none, set_eq. intros j. rewrite Hsel. split; [|set_solver]. intros (o & Ho & HP).
    assert (Hin : o ∈ base.filter P (options s)) by (apply list_elem_of_filter; split; [done|by eapply list_elem_of_lookup_2]).
    rewrite E in Hin. set_solver.
  - assert (Hin : o ∈ base.filter P (options s)) by (rewrite E; by left). rewrite <- E. clear E.
    apply list_elem_of_filter in Hin as [HP [k Hk]%list_elem_of_lookup_1].
    destruct (selectedIndex_some s k) as (i & Hi & Ei); [apply Hsel; by exists o|by eapply lookup_lt_Some|].
    unfold select_get. rewrite Ei, Hm. rewrite (proj2 (Z.ltb_ge (Z.of_nat i) 0)) by lia. cbn [negb orb].
    rewrite Z.sub_0_r, Nat2Z.id, select_loop_many by (by intros ? ->%Nat2Z.inj). cbn [app Z.to_nat]. f_equal.
    rewrite (omap_seq (λ o, if bool_decide (P o) && selectable o then Some (option_value o) else None)).
    + clear. induction (options s) as [|o l IH]; [done|]. rewrite filter_cons. cbn [omap list_omap]. case_bool_decide as HP.
      * rewrite decide_True by done. rewrite filter_cons. case_decide as Ho; unfold enabled in Ho.
        { rewrite Ho. cbn [andb]. by rewrite IH. }
        { apply not_true_is_false in Ho. by rewrite Ho. }
      * by rewrite decide_False.
    + intros j o' Ho'. change (Z.to_nat 0 + j) with j. rewrite Ho'. cbn. unfold is_selected.
      rewrite (bool_decide_ext (j ∈ selected s) (P o')); [done|]. rewrite Hsel. naive_solver.
Qed.

Lemma select_set_chosen s vs : within s → select_get (select_set s vs) = chosen s vs.
Proof.
  intros Hin. pose proof (select_set_loop_frame vs (length (options s)) false s) as [Em Eo].
  unfold chosen. destruct (multiple s) eqn:Hm.
  - destruct (select_set_loop_multiple vs (length (options s)) false s Hm (le_n _)) as [Hf Hsel].
    unfold select_set. destruct (select_set_loop _ _ _ _) as [f s'] eqn:E. cbn in *.
    assert (Hj : ∀ j, j ∈ selected s' ↔ ∃ o, options s' !! j = Some o ∧ wanting vs o).
    { intros j. rewrite Hsel, Eo. case_decide as Hj; [done|]. split; [by intros ?%Hin|].
      by intros (o & ?%lookup_lt_Some & _). }
    rewrite firstn_all in Hf. destruct f.
    + rewrite (select_get_multiple s' (wanting vs)) by (done || congruence). rewrite <- Eo.
      destruct (base.filter (wanting vs) (options s')) eqn:Ef; [done|done].
    + rewrite select_get_none by done. destruct (base.filter (wanting vs) (options s)) as [|o l] eqn:Ef; [done|].
      assert (Ho : o ∈ base.filter (wanting vs) (options s)) by (rewrite Ef; by left).
      apply list_elem_of_filter in Ho as [Hw Ho]. symmetry in Hf. rewrite existsb_false in Hf. unfold wanting in Hw. by rewrite (Hf o Ho) in Hw.
  - pose proof (select_set_loop_single vs (length (options s)) false s Hm (le_n _) ltac:(done)) as Hfind.
    rewrite firstn_all in Hfind. unfold select_set. destruct (select_set_loop _ _ _ _) as [f s'] eqn:E. cbn in *.
    destruct (list_find (wanting vs) (options s)) as [[k o]|] eqn:Ef.
    + destruct Hfind as [-> Hk]. apply list_find_Some in Ef as (Ho & _). apply (select_get_single s' k); congruence.
    + destruct Hfind as [-> _]. by apply select_get_none.
Qed.

(** C24: when [val] has set a value or a list of values on a select box, [val] reads what was
    set: a box that takes one option gives the first option with one of the values, one that
    takes several gives all of them in the order of the document; disabled options are left
    out, and null says that there is none.  What was selected before does not matter. *)
Theorem val_read_back (assign : value → value) s g l :
  within s →
  val (set_val assign (SetTo g) (NSelect s :: l)) = chosen s (makeArray (prepare g)).
Proof. apply select_set_chosen. Qed.
End facts.

Definition colours (many : bool) : select :=
  Select many true
    [Option_ None (js " red ") false false false; Option_ (Some (js "g")) (js "green") true false false;
     Option_ (Some (js "b")) (js "blue") false true true; Option_ (Some (js "g")) (js "grey") false false false;
     Option_ (Some (js "red")) [] false true false] {[1]}.
Lemma val_read_back_witness :
  within (colours true) ∧
  val (set_val id (SetTo (Many [VText (js "red"); VText (js "g"); VText (js "b")])) [NSelect (colours true)]) =
    Texts [js "red"; js "g"; js "red"] ∧
  val (set_val id (SetTo (One (VText (js "red")))) [NSelect (colours false)]) = Text (js "red") ∧
  val (set_val id (SetTo (One (VText (js "g")))) [NSelect (colours false)]) = Null.
Proof.
  assert (W : ∀ many, within (colours many)) by (intros many j Hj; change (j ∈ ({[1]} : gset nat)) in Hj; apply elem_of_singleton in Hj as ->; cbn; lia).
  split; [apply W|]. rewrite !val_read_back by (apply W).
  split; [vm_compute; reflexivity|]. split; vm_compute; reflexivity.
Defined.
End ValFacts.
