(* ===== verification/JqQueue.v ===== *)
(** * Function queues of jquery.js

    [jQuery.queue], [jQuery.dequeue], [_queueHooks] and the methods on sets: queues of
    functions that the private data of an element refer to, run one after the other.
    A function of a queue is called with [next], and the queue goes on when the
    function, or code that runs later, calls it.  Arrays and hooks are referred to by
    number, because the code holds them across calls. *)

From stdpp Require Import base tactics list strings numbers sets gmap.
From Stdlib Require Import NArith ZArith Lia.
From S2P Require Import Prelude.
From S2P Require Import JsString.
From S2P Require Import JsArray.
From S2P Require Import JqCallbacks.
From S2P Require Import JqCore.
From S2P Require Import JqData.

Module Queue.
Import Data.

#[export] Instance elem_eq_dec : EqDecision elem.
Proof. solve_decision. Defined.

(** ** Definitions *)

(** A function of the page, and what it does when a queue calls it. *)
Inductive fn := Fn (id : nat) (body : list act)
with act :=
  | Next                                    (* [next()] *)
  | SetStop (stop : nat)                    (* [hooks.stop = stop] *)
  | Enqueue (e : elem) (type : jsstr) (f : fn)
  | Dequeue (e : elem) (type : jsstr).
(** The entries of a queue; [Sentinel] is ["inprogress"]. *)
Inductive item := Sentinel | Func (f : fn).
(** What the private data hold: arrays and hooks, by number. *)
Inductive qval := QArray (a : nat) | QHooks (h : nat).
(** The functions in the callback lists of hooks. *)
Inductive cbfn := Cleanup (e : elem) (type : jsstr) | Resolve (p : nat).
#[export] Instance cbfn_eq_dec : EqDecision cbfn.
Proof. solve_decision. Defined.

Record hook := Hook { empty : Callbacks.cbs cbfn unit; stop : option nat }.
(** The page: the data of its elements, what they refer to, the calls of queued
    functions so far, and for every promise of [promise] its variable [count] and
    whether its deferred was resolved. *)
Record world := World {
  data : store qval;
  arrays : gmap nat (list item);
  hooks : gmap nat hook;
  next_ref : nat;
  log : list nat;
  promises : nat;
  counts : gmap nat nat;
  resolved : list nat;
}.
Definition set_data x w := World x (arrays w) (hooks w) (next_ref w) (log w) (promises w) (counts w) (resolved w).
Definition set_array a l w :=
  World (data w) (<[a := l]> (arrays w)) (hooks w) (next_ref w) (log w) (promises w) (counts w) (resolved w).
Definition set_hook h x w :=
  World (data w) (arrays w) (<[h := x]> (hooks w)) (next_ref w) (log w) (promises w) (counts w) (resolved w).
Definition set_log l w := World (data w) (arrays w) (hooks w) (next_ref w) l (promises w) (counts w) (resolved w).
Definition set_count p n w :=
  World (data w) (arrays w) (hooks w) (next_ref w) (log w) (promises w) (<[p := n]> (counts w)) (resolved w).
Definition set_resolved l w := World (data w) (arrays w) (hooks w) (next_ref w) (log w) (promises w) (counts w) l.
(** A number that refers to nothing yet. *)
Definition bump w :=
  World (data w) (arrays w) (hooks w) (S (next_ref w)) (log w) (promises w) (counts w) (resolved w).
Definition fresh : M world nat := λ w, (Ok (next_ref w), bump w).
Definition bump_promise w :=
  World (data w) (arrays w) (hooks w) (next_ref w) (log w) (S (promises w)) (counts w) (resolved w).
Definition new_promise : M world nat := λ w, (Ok (promises w), bump_promise w).

Section queues.
Context `{UnicodeCase}.

(** [jQuery._data(e, name, v)] and [jQuery._removeData(e, name)]. *)
Definition internal (e : elem) (name : jsstr) (v : option qval) : M world (option qval) := λ w,
  let '(a, d) := internalData (λ _, false) (λ _, None) e (Named name v) true (data w) in
  (Ok (match a with Value v => v | Whole _ => None end), set_data d w).
Definition remove_internal (e : elem) (name : jsstr) : M world unit :=
  modify (λ w, set_data (internalRemoveData (λ _, None) e (Name name) true (data w)) w).

Definition new_array (l : list item) : M world nat := a ← fresh; _ ← modify (set_array a l); mret a.
Definition get_array (a : nat) : M world (list item) := w ← get; mret (default [] (arrays w !! a)).
(** [queue.shift()] and [queue.unshift(x)]. *)
Definition shift (a : nat) : M world (option item) :=
  l ← get_array a; _ ← modify (set_array a (tail l)); mret (head l).
Definition unshift (a : nat) (x : item) : M world unit :=
  l ← get_array a; modify (set_array a (x :: l)).

Definition or_fx (type : jsstr) : jsstr := match type with [] => js "fx" | _ => type end.
(** The argument [data] of [queue]: a function or an array. *)
Inductive added := One (f : fn) | Many (l : list fn).
(** [jQuery.queue(elem, type, data)]. *)
Definition queue (e : elem) (type : jsstr) (dt : option added) : M world nat :=
  let key := or_fx type ++ js "queue" in
  q ← internal e key None;
  q ← match dt with
      | None => mret q
      | Some dt =>
          match q, dt with
          | Some (QArray a), One f =>
              l ← get_array a; _ ← modify (set_array a (l ++ [Func f])); mret q
          | _, _ =>
              a ← new_array (Func <$> match dt with One f => [f] | Many l => l end);
              internal e key (Some (QArray a))
          end
      end;
  match q with Some (QArray a) => mret a | _ => new_array [] end.

(** The callbacks of [empty], and the list of given hooks. *)
Definition once_memory : Callbacks.flags := Callbacks.createOptions (js "once memory").
Definition get_list (h : nat) (w : world) : Callbacks.cbs cbfn unit :=
  match hooks w !! h with Some x => empty x | None => Callbacks.Callbacks once_memory end.
Definition set_list (h : nat) (s : Callbacks.cbs cbfn unit) (w : world) : world :=
  set_hook h (Hook s (hooks w !! h ≫= stop)) w.
(** [resolve] of [promise]. *)
Definition resolve (p : nat) : M world unit :=
  w ← get;
  let n := default 0 (counts w !! p) - 1 in
  _ ← modify (set_count p n);
  if bool_decide (n = 0) then modify (λ w, set_resolved (resolved w ++ [p]) w) else mret tt.
Definition call_empty (f : cbfn) (_ : unit) : M world bool :=
  _ ← match f with
      | Cleanup e type =>
          _ ← remove_internal e (type ++ js "queue"); remove_internal e (type ++ js "queueHooks")
      | Resolve p => resolve p
      end;
  mret false.
Definition add_empty (k h : nat) (f : cbfn) : M world unit :=
  Callbacks.add (get_list h) (set_list h) once_memory call_empty k [Callbacks.Fun f].
Definition fire_empty (k h : nat) : M world unit :=
  Callbacks.fireWith (get_list h) (set_list h) once_memory call_empty k tt.

(** [jQuery._queueHooks]: [None] when the element accepts no data. *)
Definition queueHooks (k : nat) (e : elem) (type : jsstr) : M world (option nat) :=
  let key := type ++ js "queueHooks" in
  v ← internal e key None;
  v ← match v with
      | Some _ => mret v
      | None =>
          h ← fresh;
          _ ← modify (set_hook h (Hook (Callbacks.Callbacks once_memory) None));
          _ ← add_empty k h (Cleanup e type);
          internal e key (Some (QHooks h))
      end;
  mret (match v with Some (QHooks h) => Some h | _ => None end).

Section with_dequeue.
(** [jQuery.dequeue], with less fuel. *)
Variable dequeue : elem → jsstr → M world unit.
Variable k : nat.

(** The loop of the method [queue] for one element. *)
Definition queue_one (type : jsstr) (dt : added) (e : elem) : M world unit :=
  a ← queue e type (Some dt);
  _ ← queueHooks k e type;
  l ← get_array a;
  if bool_decide (type = js "fx") && match l with Sentinel :: _ => false | _ => true end
  then dequeue e type else mret tt.
Definition run_act (e : elem) (type : jsstr) (h : nat) (x : act) : M world unit :=
  match x with
  | Next => dequeue e type
  | SetStop s => modify (λ w, set_hook h (Hook (get_list h w) (Some s)) w)
  | Enqueue e type f => queue_one type (One f) e
  | Dequeue e type => dequeue e type
  end.
Fixpoint run_body (e : elem) (type : jsstr) (h : nat) (body : list act) : M world unit :=
  match body with
  | [] => mret tt
  | x :: body => _ ← run_act e type h x; run_body e type h body
  end.
(** [delete hooks.stop; fn.call(elem, next, hooks)]. *)
Definition call_queued (e : elem) (type : jsstr) (hk : option nat) (x : item) : M world unit :=
  match hk, x with
  | Some h, Func (Fn id body) =>
      _ ← modify (λ w, set_hook h (Hook (get_list h w) None) w);
      _ ← modify (λ w, set_log (log w ++ [id]) w);
      run_body e type h body
  | _, _ => throw TypeError
  end.
End with_dequeue.

(** [jQuery.dequeue(elem, type)]. *)
Fixpoint dequeue (k : nat) (e : elem) (type : jsstr) : M world unit :=
  match k with
  | 0 => throw Diverge
  | S k =>
      let type := or_fx type in
      a ← queue e type None;
      l ← get_array a;
      let startLength := length l in
      f ← shift a;
      hk ← queueHooks k e type;
      fn ← match f with
           | Some Sentinel => f ← shift a; mret (f, startLength - 1)
           | _ => mret (f, startLength)
           end;
      _ ← match fn.1 with
          | Some x =>
              _ ← if bool_decide (type = js "fx") then unshift a Sentinel else mret tt;
              call_queued (dequeue k) k e type hk x
          | None => mret tt
          end;
      match fn.2, hk with
      | 0, Some h => fire_empty k h
      | _, _ => mret tt
      end
  end.

(** The methods on sets. *)
Fixpoint each (f : elem → M world unit) (es : list elem) : M world unit :=
  match es with [] => mret tt | e :: es => _ ← f e; each f es end.
Definition queue_method (k : nat) (es : list elem) (type : option jsstr) (dt : added) : M world unit :=
  each (queue_one (dequeue k) k (default (js "fx") type) dt) es.
Definition dequeue_method (k : nat) (es : list elem) (type : jsstr) : M world unit :=
  each (λ e, dequeue k e type) es.
Definition clearQueue (k : nat) (es : list elem) (type : jsstr) : M world unit :=
  queue_method k es (Some (or_fx type)) (Many []).
(** [jQuery.fn.delay]: the queued function starts a timer that calls [next]. *)
Definition delay (k : nat) (es : list elem) (timer : nat) (type : jsstr) : M world unit :=
  queue_method k es (Some (or_fx type)) (One (Fn timer [SetStop timer])).
(** The loop of [promise] over the elements, from the last. *)
Fixpoint promise_loop (k : nat) (type : jsstr) (p : nat) (es : list elem) : M world unit :=
  match es with
  | [] => mret tt
  | e :: es =>
      tmp ← internal e (type ++ js "queueHooks") None;
      _ ← match tmp with
          | Some (QHooks h) =>
              _ ← modify (λ w, set_count p (S (default 0 (counts w !! p))) w);
              add_empty k h (Resolve p)
          | _ => mret tt
          end;
      promise_loop k type p es
  end.
Definition promise (k : nat) (es : list elem) (type : jsstr) : M world nat :=
  p ← new_promise;
  _ ← modify (set_count p 1);
  _ ← promise_loop k (or_fx type) p (reverse es);
  _ ← resolve p;
  mret p.
End queues.

Definition start_page : world := World no_data ∅ ∅ 0 [] 0 ∅ [].
Definition example_run : M world unit :=
  let H := ascii_case in
  _ ← queue_method 9 [a_div] None (One (Fn 1 []));
  _ ← queue_method 9 [a_div] None (One (Fn 2 [Next]));
  _ ← promise 9 [a_div] [];
  _ ← queue_method 9 [a_div] None (One (Fn 3 []));
  _ ← dequeue 9 a_div (js "fx");
  _ ← dequeue 9 a_div (js "fx");
  mret tt.
Example run_ex :
  let '(r, w) := example_run start_page in
  (r, log w, resolved w, cache (data w)) = (Ok tt, [1; 2; 3], [0], ∅).
Proof. vm_compute. reflexivity. Qed.

(** ** Steps of the page *)

Section steps.
Context `{UnicodeCase}.
Variable e : elem.
Hypothesis He : acceptData e = true.

Lemma bind_modify {A} (f : world → world) (c : unit → M world A) w : (modify f ≫= c) w = c tt (f w).
Proof. done. Qed.
Lemma bind_get {A} (c : world → M world A) w : (get ≫= c) w = c w w.
Proof. done. Qed.
Lemma bind_upd {A} h f (c : unit → M world A) w :
  (Callbacks.upd (get_list h) (set_list h) f ≫= c) w = c tt (set_list h (f (get_list h w)) w).
Proof. done. Qed.
Lemma bind_fresh {A} (c : nat → M world A) w : (fresh ≫= c) w = c (next_ref w) (bump w).
Proof. done. Qed.
Lemma bind_new_promise {A} (c : nat → M world A) w : (new_promise ≫= c) w = c (promises w) (bump_promise w).
Proof. done. Qed.
Lemma get_array_ok a l w : arrays w !! a = Some l → get_array a w = (Ok l, w).
Proof. intros Ha. unfold get_array. rewrite bind_get. by rewrite Ha. Qed.
Lemma shift_ok a l w : arrays w !! a = Some l → shift a w = (Ok (head l), set_array a (tail l) w).
Proof. intros Ha. unfold shift. by rewrite (bind_ok _ _ _ _ _ (get_array_ok a l w Ha)). Qed.
Lemma unshift_ok a x l w : arrays w !! a = Some l → unshift a x w = (Ok tt, set_array a (x :: l) w).
Proof. intros Ha. unfold unshift. by rewrite (bind_ok _ _ _ _ _ (get_array_ok a l w Ha)). Qed.

(** The private object of the element. *)
Definition own w : list (jsstr * qval) := view (data w) e true.
Definition plain (key : jsstr) : Prop := Core.camelCase key = key ∧ (32%N ∉ key) ∧ key ≠ [].

Lemma internal_get key w :
  data_inv (data w) → plain key →
  ∃ d, internal e key None w = (Ok (obj_get key (own w)), set_data d w) ∧ data_inv d ∧
    view d e true = own w.
Proof.
  intros Hd [Hk _]. pose proof (internalData_step (λ _, false) (λ _, None) e (Named key None) true (data w) Hd He) as Hs.
  unfold internal. destruct (internalData _ _ _ _ _ _) as [a d]. destruct Hs as (Hd' & -> & _ & Hv).
  exists d. rewrite Hv, decide_True by done. split_and!; [|done..]. f_equal. f_equal. fold (own w).
  destruct (early _ _ _) eqn:Ee.
  - destruct (early_view _ _ _ _ Ee) as [Hv0 _]. unfold own. by rewrite Hv0.
  - cbn [reply set_step]. unfold read, get_property. fold (own w). rewrite Hk. by destruct (obj_get key (own w)).
Qed.
Lemma internal_set key v w :
  data_inv (data w) → plain key →
  ∃ d, internal e key (Some v) w = (Ok (Some v), set_data d w) ∧ data_inv d ∧
    view d e true = obj_set key v (own w).
Proof.
  intros Hd [Hk _]. pose proof (internalData_step (λ _, false) (λ _, None) e (Named key (Some v)) true (data w) Hd He) as Hs.
  unfold internal. destruct (internalData _ _ _ _ _ _) as [a d]. destruct Hs as (Hd' & -> & _ & Hv).
  exists d. rewrite Hv, decide_True by done. cbn [early reply set_step]. rewrite Hk. split_and!; [|done..].
  f_equal. f_equal. unfold read, get_property. by rewrite obj_get_set, decide_True.
Qed.
Lemma remove_internal_ok key w :
  data_inv (data w) → plain key →
  ∃ d, remove_internal e key w = (Ok tt, set_data d w) ∧ data_inv d ∧
    view d e true = obj_delete key (own w).
Proof.
  intros Hd (Hk & Hsp & Hne).
  destruct (internalRemoveData_step (λ _, None) e (Name key) true (data w) Hd He) as (Hd' & _ & Hv).
  eexists. split; [done|]. split; [done|]. rewrite Hv, decide_True by done. cbn [has_name negb andb].
  unfold remove_step. cbn [has_name]. rewrite (bool_decide_false (key = [])) by done. cbn [negb andb].
  rewrite bool_decide_true by done. fold (own w). unfold removed_keys. rewrite Hk.
  destruct (has_property _ _ _); [done|]. by rewrite split_unit_word.
Qed.

(** ** Firing the hooks of an idle queue *)

Definition fx : jsstr := js "fx".
(** The list of hooks: the cleanup, and the promises that wait for the queue. *)
Definition callbacks_of (ps : list nat) : list cbfn := Cleanup e fx :: (Resolve <$> ps).
Definition ready (ps : list nat) : Callbacks.cbs cbfn unit :=
  Callbacks.Cbs false None false 0 0 0 (Some (callbacks_of ps)) None.
Definition firing_at (ps : list nat) (i : nat) : Callbacks.cbs cbfn unit :=
  Callbacks.Cbs true (Some tt) true (Z.of_nat (S (length ps))) (Z.of_nat i) 0 (Some (callbacks_of ps)) None.
Lemma once_memory_flags : once_memory = Callbacks.Flags true true false false.
Proof. by vm_compute. Qed.

(** What firing the hooks leaves alone. *)
Definition quiet w w' : Prop :=
  arrays w' = arrays w ∧ log w' = log w ∧ promises w' = promises w.
Lemma quiet_trans w1 w2 w3 : quiet w1 w2 → quiet w2 w3 → quiet w1 w3.
Proof. unfold quiet. intros (-> & -> & ->). done. Qed.

Lemma get_list_set h s w : get_list h (set_list h s w) = s.
Proof. unfold get_list, set_list, set_hook. cbn. by rewrite lookup_insert_eq. Qed.

Local Abbreviation loop h := (Callbacks.fire_loop (get_list h) (set_list h) once_memory call_empty).

(** One turn of the loop. *)
Lemma loop_turn h ps i f k w w1 :
  get_list h w = firing_at ps i → callbacks_of ps !! i = Some f →
  call_empty f tt w = (Ok false, w1) → get_list h w1 = firing_at ps i →
  loop h (S k) tt w = loop h k tt (set_list h (firing_at ps (S i)) w1).
Proof.
  intros Hg Hf Hc Hg1. cbn [Callbacks.fire_loop]. rewrite bind_get, Hg. cbn [Callbacks.list_ firing_at Callbacks.firingIndex Callbacks.firingLength].
  assert (Hi : i < S (length ps)).
  { apply lookup_lt_Some in Hf. unfold callbacks_of in Hf. cbn [length] in Hf. by rewrite length_fmap in Hf. }
  rewrite (proj2 (Z.ltb_lt _ _)) by lia. rewrite (proj2 (Z.ltb_ge _ _)) by lia.
  rewrite Nat2Z.id, Hf, (bind_ok _ _ _ _ _ Hc). cbn [andb]. rewrite bind_upd, Hg1.
  unfold Callbacks.set_index, firing_at. cbn [Callbacks.firing Callbacks.memory Callbacks.fired Callbacks.firingLength
    Callbacks.firingIndex Callbacks.firingStart Callbacks.list_ Callbacks.stack]. do 4 f_equal. lia.
Qed.
Lemma loop_end h ps k w : get_list h w = firing_at ps (S (length ps)) → loop h (S k) tt w = (Ok tt, w).
Proof.
  intros Hg. cbn [Callbacks.fire_loop]. rewrite bind_get, Hg. cbn [Callbacks.list_ firing_at Callbacks.firingIndex Callbacks.firingLength].
  by rewrite (proj2 (Z.ltb_ge _ _)) by lia.
Qed.

Lemma resolve_last p w :
  counts w !! p = Some 1 → resolve p w = (Ok tt, set_resolved (resolved w ++ [p]) (set_count p 0 w)).
Proof. intros Hp. unfold resolve. rewrite bind_get, Hp. cbn [from_option]. by rewrite bind_modify. Qed.

Lemma loop_resolves h ps k i w :
  get_list h w = firing_at ps (S i) → length (drop i ps) < k → NoDup (drop i ps) →
  (∀ p, p ∈ drop i ps → counts w !! p = Some 1) → i ≤ length ps →
  ∃ w', loop h k tt w = (Ok tt, w') ∧ get_list h w' = firing_at ps (S (length ps)) ∧
    quiet w w' ∧ data w' = data w ∧ resolved w' = resolved w ++ drop i ps.
Proof.
  revert i w. induction k as [|k IH]; intros i w Hg Hk Hnd Hc Hi; [lia|].
  destruct (decide (i = length ps)) as [->|Hne].
  { exists w. rewrite drop_all, app_nil_r in *. split; [by eapply loop_end|done]. }
  destruct (lookup_lt_is_Some_2 ps i) as [p Hp]; [lia|]. rewrite (drop_S _ _ _ Hp) in *. cbn [length] in Hk.
  apply NoDup_cons in Hnd as [Hni Hnd].
  set (w1 := set_resolved (resolved w ++ [p]) (set_count p 0 w)).
  rewrite (loop_turn h ps (S i) (Resolve p) k w w1); [|done| | |done].
  2:{ change ((Resolve <$> ps) !! i = Some (Resolve p)). by rewrite list_lookup_fmap, Hp. }
  2:{ unfold call_empty. by rewrite (bind_ok _ _ _ _ _ (resolve_last p w (Hc p ltac:(by left)))). }
  destruct (IH (S i) (set_list h (firing_at ps (S (S i))) w1)) as (w' & Hr & Hg' & Hq & Hd & Hres).
  - by rewrite get_list_set.
  - lia.
  - done.
  - intros q Hq. cbn. rewrite lookup_insert_ne by (intros ->; done). apply Hc. by right.
  - lia.
  - exists w'. rewrite Hr, Hd, Hres. split_and!; [done..|]. cbn. by rewrite <- app_assoc.
Qed.

Definition qkey : jsstr := js "fxqueue".
Definition hkey : jsstr := js "fxqueueHooks".
Lemma plain_qkey : plain qkey.
Proof. split; [by vm_compute|]. split; [|done]. apply (bool_decide_unpack _). by vm_compute. Qed.
Lemma plain_hkey : plain hkey.
Proof. split; [by vm_compute|]. split; [|done]. apply (bool_decide_unpack _). by vm_compute. Qed.
Lemma keys_differ : qkey ≠ hkey.
Proof. done. Qed.

(** The element has no queue. *)
Definition idle w : Prop := data_inv (data w) ∧ obj_get qkey (own w) = None ∧ obj_get hkey (own w) = None.

Lemma cleanup_ok w :
  data_inv (data w) →
  ∃ d, call_empty (Cleanup e fx) tt w = (Ok false, set_data d w) ∧ idle (set_data d w).
Proof.
  intros Hd. destruct (remove_internal_ok qkey w Hd plain_qkey) as (d1 & R1 & Hd1 & V1).
  destruct (remove_internal_ok hkey (set_data d1 w) Hd1 plain_hkey) as (d2 & R2 & Hd2 & V2).
  exists d2. split.
  - unfold call_empty. change (fx ++ js "queue") with qkey. change (fx ++ js "queueHooks") with hkey.
    by rewrite bind_assoc, (bind_ok _ _ _ _ _ R1), (bind_ok _ _ _ _ _ R2).
  - split; [done|]. unfold own in *. cbn [data set_data] in *. rewrite V2, V1, !obj_get_delete.
    rewrite decide_False, decide_True, decide_True by (done || apply keys_differ). done.
Qed.

Lemma fire_ready h ps k w :
  data_inv (data w) → get_list h w = ready ps → S (S (length ps)) < k → NoDup ps →
  (∀ p, p ∈ ps → counts w !! p = Some 1) →
  ∃ w', fire_empty k h w = (Ok tt, w') ∧ idle w' ∧ quiet w w' ∧ resolved w' = resolved w ++ ps.
Proof.
  intros Hd Hg Hk Hnd Hc. unfold fire_empty, Callbacks.fireWith. rewrite bind_get, Hg.
  cbn [ready Callbacks.disabled Callbacks.list_ Callbacks.fired Callbacks.firing negb andb orb].
  destruct k as [|k]; [lia|]. cbn [Callbacks.fire]. rewrite bind_upd, Hg. destruct k as [|k]; [lia|].
  set (w1 := set_list h _ w).
  assert (Hg1 : get_list h w1 = firing_at ps 0).
  { unfold w1. rewrite get_list_set. unfold Callbacks.fire_begin. rewrite once_memory_flags.
    unfold ready, firing_at, callbacks_of. cbn. by rewrite length_fmap. }
  destruct (cleanup_ok w1 Hd) as (d & Rc & Hidle). set (w2 := set_list h (firing_at ps 1) (set_data d w1)).
  assert (Rt : loop h (S k) tt w1 = loop h k tt w2) by by eapply loop_turn.
  destruct (loop_resolves h ps k 0 w2) as (w3 & Rl & Hg3 & Hq3 & Hd3 & Hr3).
  { apply get_list_set. } { rewrite drop_0. lia. } { by rewrite drop_0. } { by rewrite drop_0. } { lia. }
  rewrite <- Rt in Rl. rewrite (bind_ok _ _ _ _ _ Rl). rewrite bind_upd, bind_get, Hg3, get_list_set.
  cbn. eexists. split; [done|]. split; [|split].
  - unfold idle, own in *. cbn. rewrite Hd3. exact Hidle.
  - exact Hq3.
  - exact Hr3.
Qed.

(** ** The states of a queue *)

(** The element has a queue [a] with the entries [l], and promises [ps] wait for it. *)
Record busy w (a h : nat) (l : list item) (ps : list nat) : Prop := {
  b_inv : data_inv (data w);
  b_queue : obj_get qkey (own w) = Some (QArray a);
  b_hooks : obj_get hkey (own w) = Some (QHooks h);
  b_array : arrays w !! a = Some l;
  b_list : get_list h w = ready ps;
  b_once : NoDup ps;
  b_counts : ∀ p, p ∈ ps → counts w !! p = Some 1 ∧ p < promises w;
}.

(** Reading private data changes nothing that is seen. *)
Definition reads w w' : Prop := ∃ d, w' = set_data d w ∧ data_inv d ∧ view d e true = own w.
Lemma busy_reads w w' a h l ps : reads w w' → busy w a h l ps → busy w' a h l ps.
Proof. intros (d & -> & Hd & Hv) []. split; unfold own in *; cbn; by rewrite ?Hv. Qed.
Lemma busy_array w a h l l' ps : busy w a h l ps → busy (set_array a l' w) a h l' ps.
Proof. intros []. split; try done. cbn. by rewrite lookup_insert_eq. Qed.
Lemma busy_log w a h l ps lg : busy w a h l ps → busy (set_log lg w) a h l ps.
Proof. intros []. by split. Qed.
Lemma busy_stop w a h l ps x : busy w a h l ps → busy (set_hook h (Hook (get_list h w) x) w) a h l ps.
Proof. intros []. split; try done. unfold get_list at 1. cbn. by rewrite lookup_insert_eq. Qed.

Lemma queue_lookup w a :
  data_inv (data w) → obj_get qkey (own w) = Some (QArray a) →
  ∃ w', queue e fx None w = (Ok a, w') ∧ reads w w'.
Proof.
  intros Hd Hq. destruct (internal_get qkey w Hd plain_qkey) as (d & R & Hd' & Hv). exists (set_data d w).
  split; [|by exists d]. unfold queue. change (or_fx fx ++ js "queue") with qkey. rewrite (bind_ok _ _ _ _ _ R), Hq. done.
Qed.
Lemma hooks_lookup k w h :
  data_inv (data w) → obj_get hkey (own w) = Some (QHooks h) →
  ∃ w', queueHooks k e fx w = (Ok (Some h), w') ∧ reads w w'.
Proof.
  intros Hd Hq. destruct (internal_get hkey w Hd plain_hkey) as (d & R & Hd' & Hv). exists (set_data d w).
  split; [|by exists d]. unfold queueHooks. change (fx ++ js "queueHooks") with hkey. rewrite (bind_ok _ _ _ _ _ R), Hq. done.
Qed.

Definition waiting_list (l : list cbfn) : Callbacks.cbs cbfn unit :=
  Callbacks.Cbs false None false 0 0 0 (Some l) None.
Lemma add_waiting k h f l w :
  get_list h w = waiting_list l →
  add_empty k h f w = (Ok tt, set_list h (waiting_list (l ++ [f])) w).
Proof.
  intros Hg. unfold add_empty, Callbacks.add. rewrite bind_get, Hg. cbn [waiting_list Callbacks.list_].
  rewrite bind_upd, Hg. cbn [Callbacks.firing Callbacks.memory]. rewrite once_memory_flags. done.
Qed.

(** New hooks. *)
Lemma hooks_new k w :
  data_inv (data w) → obj_get hkey (own w) = None →
  ∃ h w', queueHooks k e fx w = (Ok (Some h), w') ∧ data_inv (data w') ∧
    own w' = obj_set hkey (QHooks h) (own w) ∧ get_list h w' = ready [] ∧ quiet w w' ∧
    resolved w' = resolved w.
Proof.
  intros Hd Hq. destruct (internal_get hkey w Hd plain_hkey) as (d & R & Hd' & Hv). exists (next_ref w).
  set (h := next_ref w).
  set (w1 := set_list h (ready []) (set_hook h (Hook (Callbacks.Callbacks once_memory) None)
    (bump (set_data d w)))).
  destruct (internal_set hkey (QHooks h) w1 Hd' plain_hkey) as (d2 & R2 & Hd2 & Hv2).
  exists (set_data d2 w1). split_and!; [|done| |apply get_list_set|done|done].
  - unfold queueHooks. change (fx ++ js "queueHooks") with hkey. rewrite (bind_ok _ _ _ _ _ R), Hq.
    rewrite bind_assoc, bind_fresh, bind_assoc, bind_modify, bind_assoc.
    fold h. set (w0 := set_hook h (Hook (Callbacks.Callbacks once_memory) None) (bump (set_data d w))).
    assert (Hg0 : get_list h w0 = waiting_list []).
    { unfold w0, get_list. cbn [hooks set_hook]. by rewrite lookup_insert_eq, once_memory_flags. }
    rewrite (bind_ok _ _ _ _ _ (add_waiting k h (Cleanup e fx) [] w0 Hg0)).
    fold w1. cbn [app]. by rewrite (bind_ok _ _ _ _ _ R2).
  - unfold own at 1. cbn [data set_data]. rewrite Hv2. f_equal. unfold own. exact Hv.
Qed.

(** [next] on an element without a queue. *)
Lemma dequeue_idle k w :
  idle w → 4 < k →
  ∃ w', dequeue k e fx w = (Ok tt, w') ∧ idle w' ∧ log w' = log w ∧ promises w' = promises w ∧
    resolved w' = resolved w.
Proof.
  intros (Hd & Hq & Hh) Hk. destruct k as [|k]; [lia|]. cbn [dequeue]. cbv zeta. change (or_fx fx) with fx.
  destruct (internal_get qkey w Hd plain_qkey) as (d & R & Hd' & Hv).
  set (a := next_ref w).
  set (w1 := set_array a [] (bump (set_data d w))).
  assert (Rq : queue e fx None w = (Ok a, w1)).
  { unfold queue. change (or_fx fx ++ js "queue") with qkey. by rewrite (bind_ok _ _ _ _ _ R), Hq. }
  assert (Ha : arrays w1 !! a = Some []) by apply lookup_insert_eq.
  rewrite (bind_ok _ _ _ _ _ Rq), (bind_ok _ _ _ _ _ (get_array_ok a [] w1 Ha)), (bind_ok _ _ _ _ _ (shift_ok a [] w1 Ha)).
  destruct (hooks_new k (set_array a [] w1) Hd') as (h & w2 & R2 & Hd2 & Hv2 & Hg2 & Hq2 & Hr2).
  { unfold own in *. cbn. by rewrite Hv. }
  rewrite (bind_ok _ _ _ _ _ R2). cbn [head].
  destruct (fire_ready h [] k w2 Hd2 Hg2) as (w3 & R3 & Hidle & Hq3 & Hr3).
  { cbn. lia. } { by apply NoDup_nil. } { intros p Hp. by apply elem_of_nil in Hp. }
  exists w3. split; [exact R3|]. split; [done|]. destruct Hq2 as (_ & Hl2 & Hp2), Hq3 as (_ & Hl3 & Hp3).
  rewrite Hl3, Hl2, Hp3, Hp2, Hr3, Hr2, app_nil_r. done.
Qed.

(** ** A queue that runs *)

(** Functions that call [next] at once, and functions for which later code does. *)
Definition fn_of (x : nat * bool) : fn := Fn x.1 (if x.2 then [Next] else []).
Definition entries (l : list (nat * bool)) : list item := (λ x, Func (fn_of x)) <$> l.
(** The calls when the queue goes on, and what is left: [None] when it is done. *)
Fixpoint start (l : list (nat * bool)) : list nat * option (list (nat * bool)) :=
  match l with
  | [] => ([], None)
  | x :: l => if x.2 then (x.1 :: (start l).1, (start l).2) else ([x.1], Some l)
  end.
Definition sentinel (b : bool) : list item := if b then [Sentinel] else [].
(** The state after the queue of [w] went on. *)
Definition went_on w (l : list (nat * bool)) (ps : list nat) w' : Prop :=
  log w' = log w ++ (start l).1 ∧ promises w' = promises w ∧
  match (start l).2 with
  | Some l' => (∃ a h, busy w' a h (Sentinel :: entries l') ps) ∧ resolved w' = resolved w
  | None => idle w' ∧ resolved w' = resolved w ++ ps
  end.

(** The first steps of [dequeue]: the array is read, the sentinel taken off, and the
    first function put behind a new one. *)
Lemma dequeue_begin k w a h b l ps :
  busy w a h (sentinel b ++ entries l) ps →
  ∃ w', busy w' a h (tail (entries l)) ps ∧ log w' = log w ∧ promises w' = promises w ∧ resolved w' = resolved w ∧
    dequeue (S k) e fx w =
    (_ ← match entries l with
         | x :: _ => _ ← unshift a Sentinel; call_queued (dequeue k) k e fx (Some h) x
         | [] => mret tt
         end;
     match entries l with [] => fire_empty k h | _ => mret tt end) w'.
Proof.
  intros Hb. cbn [dequeue]. cbv zeta. change (or_fx fx) with fx.
  destruct (queue_lookup w a) as (w1 & R1 & Hr1); [apply Hb|apply Hb|]. apply (busy_reads _ _ _ _ _ _ Hr1) in Hb as Hb1.
  rewrite (bind_ok _ _ _ _ _ R1), (bind_ok _ _ _ _ _ (get_array_ok _ _ _ (b_array _ _ _ _ _ Hb1))),
    (bind_ok _ _ _ _ _ (shift_ok _ _ _ (b_array _ _ _ _ _ Hb1))).
  apply (busy_array _ _ _ _ (tail (sentinel b ++ entries l))) in Hb1 as Hb2.
  destruct (hooks_lookup k _ h (b_inv _ _ _ _ _ Hb2) (b_hooks _ _ _ _ _ Hb2)) as (w2 & R2 & Hr2).
  apply (busy_reads _ _ _ _ _ _ Hr2) in Hb2 as Hb3. rewrite (bind_ok _ _ _ _ _ R2).
  assert (Hsame : log w2 = log w ∧ promises w2 = promises w ∧ resolved w2 = resolved w).
  { by destruct Hr1 as (d1 & -> & _), Hr2 as (d2 & -> & _). }
  destruct b.
  - exists (set_array a (tail (entries l)) w2). split_and!; [by eapply busy_array|apply Hsame..|].
    cbn [sentinel app head tail length]. rewrite bind_assoc, (bind_ok _ _ _ _ _ (shift_ok _ _ _ (b_array _ _ _ _ _ Hb3))).
    destruct l as [|x l]; done.
  - exists w2. split_and!; [done|apply Hsame..|]. cbn [sentinel app]. destruct l as [|x l]; done.
Qed.

Lemma dequeue_busy l k w a h b ps :
  busy w a h (sentinel b ++ entries l) ps → length l + length ps + 4 < k →
  ∃ w', dequeue k e fx w = (Ok tt, w') ∧ went_on w l ps w'.
Proof.
  revert k w a h b. induction l as [|[i sync] l IH]; intros [|k] w a h b Hb Hk; [lia| |lia|].
  all: destruct (dequeue_begin k w a h b _ ps Hb) as (w1 & Hb1 & Hl1 & Hp1 & Hr1 & ->).
  - destruct (fire_ready h ps k w1) as (w2 & R2 & Hi2 & (_ & Hl2 & Hp2) & Hr2); [apply Hb1..|cbn in Hk; lia|apply Hb1| |].
    { intros p Hp. by apply (b_counts _ _ _ _ _ Hb1). }
    exists w2. split; [exact R2|]. unfold went_on. cbn [start fst snd]. rewrite app_nil_r. split_and!; [congruence..|done|congruence].
  - cbn [length] in Hk. unfold entries. cbn [fmap list_fmap tail] in *.
    rewrite bind_assoc, (bind_ok _ _ _ _ _ (unshift_ok _ _ _ _ (b_array _ _ _ _ _ Hb1))).
    unfold call_queued, fn_of at 1. cbn [fst snd]. rewrite bind_assoc, bind_modify, bind_assoc, bind_modify.
    apply (busy_array _ _ _ _ (Sentinel :: entries l)) in Hb1 as Hb2.
    apply (busy_stop _ _ _ _ _ None) in Hb2 as Hb3. apply (busy_log _ _ _ _ _ (log w ++ [i])) in Hb3 as Hb4.
    set (w2 := set_log _ _) in Hb4. match goal with |- context [set_log ?x ?y] => set (w2' := set_log x y) end.
    assert (w2' = w2) as -> by (unfold w2', w2; cbn; by rewrite Hl1).
    destruct sync; cbn [run_body run_act].
    + destruct (IH k w2 a h true Hb4) as (w3 & R3 & Hw); [lia|].
      exists w3. rewrite bind_assoc, (bind_ok _ _ _ _ _ R3). split; [done|]. unfold went_on in *.
      cbn [start fst snd]. destruct Hw as (-> & -> & Hw). cbn. rewrite <- app_assoc, Hp1. split_and!; [done..|].
      destruct (start l).2; [|]; destruct Hw as [? ->]; cbn; by rewrite Hr1.
    + exists w2. split; [done|]. split_and!; [done|done|]. cbn [start snd]. split; [by exists a, h|done].
Qed.

(** ** The methods on the element *)

Definition outside w w' : Prop := log w' = log w ∧ promises w' = promises w ∧ resolved w' = resolved w.
Lemma reads_outside w w' : reads w w' → outside w w'.
Proof. by intros (d & -> & _). Qed.

Lemma enqueue_busy k w a h l ps x :
  busy w a h (Sentinel :: entries l) ps →
  ∃ w', queue_one (dequeue k) k fx (One (fn_of x)) e w = (Ok tt, w') ∧
    busy w' a h (Sentinel :: entries (l ++ [x])) ps ∧ outside w w'.
Proof.
  intros Hb. destruct (internal_get qkey w (b_inv _ _ _ _ _ Hb) plain_qkey) as (d & R & Hd & Hv).
  assert (Hr : reads w (set_data d w)) by by exists d.
  apply (busy_reads _ _ _ _ _ _ Hr) in Hb as Hb1. set (w1 := set_data d w) in *.
  apply (busy_array _ _ _ _ (Sentinel :: entries (l ++ [x]))) in Hb1 as Hb2. set (w2 := set_array _ _ w1) in *.
  assert (Rq : queue e fx (Some (One (fn_of x))) w = (Ok a, w2)).
  { unfold queue. change (or_fx fx ++ js "queue") with qkey. rewrite (bind_ok _ _ _ _ _ R), (b_queue _ _ _ _ _ Hb).
    cbv beta iota. rewrite bind_assoc, (bind_ok _ _ _ _ _ (get_array_ok _ _ _ (b_array _ _ _ _ _ Hb1))).
    rewrite bind_assoc, bind_modify. unfold w2, entries. by rewrite fmap_app. }
  destruct (hooks_lookup k w2 h (b_inv _ _ _ _ _ Hb2) (b_hooks _ _ _ _ _ Hb2)) as (w3 & R3 & Hr3).
  apply (busy_reads _ _ _ _ _ _ Hr3) in Hb2 as Hb3. exists w3. split_and!; [|done|by destruct Hr3 as (? & -> & _)].
  unfold queue_one. rewrite (bind_ok _ _ _ _ _ Rq), (bind_ok _ _ _ _ _ R3).
  rewrite (bind_ok _ _ _ _ _ (get_array_ok _ _ _ (b_array _ _ _ _ _ Hb3))). by rewrite andb_false_r.
Qed.

Lemma enqueue_idle k w x :
  idle w →
  ∃ a h w', queue_one (dequeue k) k fx (One (fn_of x)) e w = dequeue k e fx w' ∧
    busy w' a h (entries [x]) [] ∧ outside w w'.
Proof.
  intros (Hd & Hq & Hh). destruct (internal_get qkey w Hd plain_qkey) as (d & R & Hd1 & Hv).
  set (a := next_ref w). set (w1 := set_array a (entries [x]) (bump (set_data d w))).
  destruct (internal_set qkey (QArray a) w1 Hd1 plain_qkey) as (d2 & R2 & Hd2 & Hv2). set (w2 := set_data d2 w1) in *.
  assert (Ho2 : own w2 = obj_set qkey (QArray a) (own w)) by (unfold own in *; cbn; by rewrite Hv2, <- Hv).
  assert (Rq : queue e fx (Some (One (fn_of x))) w = (Ok a, w2)).
  { unfold queue. change (or_fx fx ++ js "queue") with qkey. rewrite (bind_ok _ _ _ _ _ R), Hq, !bind_assoc.
    unfold new_array. rewrite bind_assoc, bind_fresh, bind_assoc, bind_modify, bind_ret.
    change (set_array _ _ _) with w1. by rewrite (bind_ok _ _ _ _ _ R2). }
  destruct (hooks_new k w2 Hd2) as (h & w3 & R3 & Hd3 & Hv3 & Hg3 & (Ha3 & Hl3 & Hp3) & Hr3).
  { by rewrite Ho2, obj_get_set, decide_False by (apply not_eq_sym, keys_differ). }
  assert (Ha : arrays w3 !! a = Some (entries [x])) by (rewrite Ha3; apply lookup_insert_eq).
  exists a, h, w3. split_and!; [| |done].
  - unfold queue_one. rewrite (bind_ok _ _ _ _ _ Rq), (bind_ok _ _ _ _ _ R3), (bind_ok _ _ _ _ _ (get_array_ok _ _ _ Ha)). done.
  - split; [done| | |done|done|by apply NoDup_nil|by intros p Hp%elem_of_nil].
    + by rewrite Hv3, obj_get_set, decide_False, Ho2, obj_get_set, decide_True by (done || apply keys_differ).
    + by rewrite Hv3, obj_get_set, decide_True.
Qed.

Lemma promise_idle k w :
  idle w →
  ∃ w', promise k [e] fx w = (Ok (promises w), w') ∧ idle w' ∧ log w' = log w ∧
    promises w' = S (promises w) ∧ resolved w' = resolved w ++ [promises w].
Proof.
  intros (Hd & Hq & Hh). set (p := promises w).
  set (w1 := set_count p 1 (bump_promise w)).
  destruct (internal_get hkey w1 Hd plain_hkey) as (d & R & Hd1 & Hv).
  assert (Hp : counts (set_data d w1) !! p = Some 1) by apply lookup_insert_eq.
  eexists. split_and!.
  - unfold promise. rewrite bind_new_promise, bind_modify. change (or_fx fx) with fx. fold p. fold w1.
    cbn [reverse rev_append promise_loop]. change (fx ++ js "queueHooks") with hkey.
    rewrite bind_assoc, (bind_ok _ _ _ _ _ R). change (own w1) with (own w). rewrite Hh. cbv beta iota.
    rewrite bind_assoc, !bind_ret, (bind_ok _ _ _ _ _ (resolve_last p _ Hp)). done.
  - split; [done|]. unfold own in *. cbn in *. by rewrite Hv.
  - done.
  - done.
  - done.
Qed.

Lemma promise_busy k w a h l ps :
  busy w a h l ps →
  ∃ w', promise k [e] fx w = (Ok (promises w), w') ∧ busy w' a h l (ps ++ [promises w]) ∧
    log w' = log w ∧ promises w' = S (promises w) ∧ resolved w' = resolved w.
Proof.
  intros Hb. set (p := promises w). set (w1 := set_count p 1 (bump_promise w)).
  destruct (internal_get hkey w1 (b_inv _ _ _ _ _ Hb) plain_hkey) as (d & R & Hd & Hv). change (own w1) with (own w) in *.
  rewrite (b_hooks _ _ _ _ _ Hb) in R. set (w2 := set_count p 2 (set_data d w1)).
  assert (Hg : get_list h w2 = waiting_list (callbacks_of ps)) by exact (b_list _ _ _ _ _ Hb).
  set (w3 := set_list h (waiting_list (callbacks_of ps ++ [Resolve p])) w2).
  exists (set_count p 1 w3). split_and!; [| |done..].
  - unfold promise. rewrite bind_new_promise, bind_modify. change (or_fx fx) with fx. fold p. fold w1.
    cbn [reverse rev_append promise_loop]. change (fx ++ js "queueHooks") with hkey.
    rewrite bind_assoc, (bind_ok _ _ _ _ _ R), !bind_assoc, bind_modify.
    replace (default 0 (counts (set_data d w1) !! p)) with 1 by (cbn; by rewrite lookup_insert_eq). fold w2.
    rewrite (bind_ok _ _ _ _ _ (add_waiting k h (Resolve p) _ w2 Hg)), bind_ret. fold w3.
    assert (Rr : resolve p w3 = (Ok tt, set_count p 1 w3)); [|by rewrite (bind_ok _ _ _ _ _ Rr)].
    unfold resolve. rewrite bind_get. replace (default 0 (counts w3 !! p)) with 2 by (cbn; by rewrite lookup_insert_eq). done.
  - destruct Hb as [H1 H2 H3 H4 H5 H6 H7]. split; [done|by unfold own in *; cbn; rewrite ?Hv|by unfold own in *; cbn; rewrite ?Hv|done| | |].
    + unfold get_list. cbn. rewrite lookup_insert_eq. cbn. unfold waiting_list, ready, callbacks_of. by rewrite fmap_app.
    + apply NoDup_app. split_and!; [done| |by apply NoDup_singleton].
      intros q Hq ->%list_elem_of_singleton. destruct (H7 _ Hq). unfold p in *. lia.
    + intros q [Hq|Hq%list_elem_of_singleton]%elem_of_app; cbn.
      * destruct (H7 _ Hq) as [Hc Hlt]. rewrite !lookup_insert_ne by (unfold p; lia). split; [done|lia].
      * subst q. rewrite lookup_insert_eq. unfold p. split; [done|lia].
Qed.

(** ** The specification: one function runs, the others wait in order *)

(** What the page does with the element: it queues a function, a function that ran
    earlier calls [next], or it asks for a promise. *)
Inductive event := EQueue (x : nat * bool) | ENext | EPromise.
Definition handle (k : nat) (ev : event) : M world unit :=
  match ev with
  | EQueue x => queue_method k [e] None (One (fn_of x))
  | ENext => dequeue k e fx
  | EPromise => _ ← promise k [e] fx; mret tt
  end.
Fixpoint handle_all (k : nat) (evs : list event) : M world unit :=
  match evs with [] => mret tt | ev :: evs => _ ← handle k ev; handle_all k evs end.

(** [pending] is [None] when nothing runs; otherwise the functions and the promises
    that wait. *)
Record spec := Spec {
  pending : option (list (nat * bool) * list nat);
  called : list nat;
  asked : nat;
  kept : list nat;
}.
Definition go_on (l : list (nat * bool)) (ps : list nat) (s : spec) : spec :=
  match (start l).2 with
  | Some l' => Spec (Some (l', ps)) (called s ++ (start l).1) (asked s) (kept s)
  | None => Spec None (called s ++ (start l).1) (asked s) (kept s ++ ps)
  end.
Definition spec_step (ev : event) (s : spec) : spec :=
  match ev, pending s with
  | EQueue x, Some (l, ps) => Spec (Some (l ++ [x], ps)) (called s) (asked s) (kept s)
  | EQueue x, None => go_on [x] [] s
  | ENext, Some (l, ps) => go_on l ps s
  | ENext, None => s
  | EPromise, Some (l, ps) => Spec (Some (l, ps ++ [asked s])) (called s) (S (asked s)) (kept s)
  | EPromise, None => Spec None (called s) (S (asked s)) (kept s ++ [asked s])
  end.

Definition implements (s : spec) w : Prop :=
  log w = called s ∧ promises w = asked s ∧ resolved w = kept s ∧
  match pending s with
  | None => idle w
  | Some (l, ps) => ∃ a h, busy w a h (Sentinel :: entries l) ps
  end.
Definition size (s : spec) : nat :=
  match pending s with Some (l, ps) => length l + length ps | None => 0 end.

Lemma went_on_implements l ps s w w1 w' :
  log w = called s → promises w = asked s → resolved w = kept s → outside w w1 →
  went_on w1 l ps w' → implements (go_on l ps s) w'.
Proof.
  intros Hl Hp Hr (Hl1 & Hp1 & Hr1) (Hl' & Hp' & Hc). unfold go_on, implements.
  destruct (start l) as [lg [l'|]]; cbn [fst snd] in *; cbn [pending called asked kept]; destruct Hc as [Hc Hr'];
    rewrite ?Hl', ?Hp', ?Hr', ?Hl1, ?Hp1, ?Hr1, ?Hl, ?Hp, ?Hr; done.
Qed.
Lemma start_length l l' : (start l).2 = Some l' → length l' < length l.
Proof.
  induction l as [|[i b] l IH]; [done|]. cbn [start length]. destruct b; cbn [fst snd].
  - intros H'%IH. lia.
  - intros [= <-]. lia.
Qed.
Lemma go_on_size l ps s : size (go_on l ps s) ≤ length l + length ps.
Proof.
  unfold go_on, size. destruct (start l).2 as [l'|] eqn:El; cbn [pending]; [|lia].
  apply start_length in El. lia.
Qed.
Lemma spec_step_size ev s : size (spec_step ev s) ≤ S (size s).
Proof.
  destruct s as [[[l ps]|] lg n r], ev as [x| |]; unfold spec_step; cbn [pending];
    try (etrans; [apply go_on_size|]); unfold size; cbn [pending]; rewrite ?length_app; cbn [length]; lia.
Qed.

Lemma handle_implements k ev s w :
  implements s w → size s + 5 < k → ∃ w', handle k ev w = (Ok tt, w') ∧ implements (spec_step ev s) w'.
Proof.
  destruct s as [pd lg n r]. intros (Hl & Hp & Hr & Hs) Hk. cbn [pending called asked kept] in *.
  unfold size in Hk. cbn [pending] in Hk. destruct ev as [x| |]; cbn [handle]; unfold spec_step; cbn [pending].
  - unfold queue_method. cbn [each from_option]. destruct pd as [[l ps]|].
    + destruct Hs as (a & h & Hb). destruct (enqueue_busy k w a h l ps x Hb) as (w' & R & Hb' & (Hl' & Hp' & Hr')).
      exists w'. rewrite (bind_ok _ _ _ _ _ R). split; [done|].
      repeat (split; [cbn; congruence|]). by exists a, h.
    + destruct (enqueue_idle k w x Hs) as (a & h & w1 & R & Hb & Ho).
      destruct (dequeue_busy [x] k w1 a h false [] Hb) as (w' & R' & Hw); [cbn; lia|].
      exists w'. rewrite R' in R. rewrite (bind_ok _ _ _ _ _ R). split; [done|]. by eapply went_on_implements.
  - destruct pd as [[l ps]|].
    + destruct Hs as (a & h & Hb). destruct (dequeue_busy l k w a h true ps Hb) as (w' & R' & Hw); [lia|].
      exists w'. split; [done|]. by eapply went_on_implements.
    + destruct (dequeue_idle k w Hs) as (w' & R & Hi & Hl' & Hp' & Hr'); [lia|]. exists w'. split; [done|].
      repeat (split; [cbn; congruence|]). done.
  - destruct pd as [[l ps]|].
    + destruct Hs as (a & h & Hb). destruct (promise_busy k w a h _ ps Hb) as (w' & R & Hb' & Hl' & Hp' & Hr').
      exists w'. rewrite (bind_ok _ _ _ _ _ R). split; [done|]. rewrite Hp in *.
      repeat (split; [cbn; congruence|]). by exists a, h.
    + destruct (promise_idle k w Hs) as (w' & R & Hi & Hl' & Hp' & Hr').
      exists w'. rewrite (bind_ok _ _ _ _ _ R). split; [done|]. rewrite Hp in *.
      repeat (split; [cbn; congruence|]). done.
Qed.

(** The functions that were queued, in order. *)
Definition queued (evs : list event) : list nat := omap (λ ev, match ev with EQueue x => Some x.1 | _ => None end) evs.
Definition waiting (s : spec) : list nat := match pending s with Some (l, _) => l.*1 | None => [] end.
Lemma start_order l : (start l).1 ++ from_option (fmap fst) [] (start l).2 = l.*1.
Proof. induction l as [|[i b] l IH]; [done|]. cbn [start]. destruct b; cbn [fst snd fmap list_fmap]; [|done]. cbn. by rewrite <- IH. Qed.
Lemma go_on_order l ps s : called (go_on l ps s) ++ waiting (go_on l ps s) = called s ++ l.*1.
Proof.
  rewrite <- (start_order l). unfold go_on, waiting. by destruct (start l) as [lg [l'|]]; cbn; rewrite <- app_assoc.
Qed.
Lemma spec_order ev s :
  called (spec_step ev s) ++ waiting (spec_step ev s) = called s ++ waiting s ++ queued [ev].
Proof.
  destruct s as [[[l ps]|] lg n r], ev as [x| |]; unfold spec_step; cbn [pending]; rewrite ?go_on_order;
    unfold waiting; cbn [pending called fmap list_fmap queued omap list_omap]; by rewrite ?fmap_app, ?app_nil_r.
Qed.
End steps.

Definition spec_run (evs : list event) : spec := foldl (λ s ev, spec_step ev s) (Spec None [] 0 []) evs.

(** C23: A queue of type "fx" implements a machine that runs one function at a time: for
    all queued functions, calls of [next] and promises, in any order, the calls so
    far, the promises resolved so far and whether anything runs are those of the
    machine.  Functions are called once each and in the order in which they were
    queued; a promise is resolved when the queue is first empty; and then
    the queue and its hooks are gone from the data of the element. *)
Theorem fx_queue_refines `{UnicodeCase} (e : elem) (evs : list event) (k : nat) :
  acceptData e = true → length evs + 5 < k →
  ∃ w, handle_all e k evs start_page = (Ok tt, w) ∧ implements e (spec_run evs) w ∧
    log w ++ waiting (spec_run evs) = queued evs.
Proof.
  intros He Hk.
  assert (Hgen : ∀ s w, implements e s w → size s + length evs + 5 < k →
    ∃ w', handle_all e k evs w = (Ok tt, w') ∧ implements e (foldl (λ s ev, spec_step ev s) s evs) w' ∧
      called (foldl (λ s ev, spec_step ev s) s evs) ++ waiting (foldl (λ s ev, spec_step ev s) s evs) =
        called s ++ waiting s ++ queued evs).
  { clear Hk. induction evs as [|ev evs IH]; intros s w Hs Hk.
    { exists w. cbn. by rewrite app_nil_r. }
    cbn [length] in Hk. destruct (handle_implements e He k ev s w Hs) as (w1 & R & Hs1); [lia|].
    pose proof (spec_step_size ev s). destruct (IH (spec_step ev s) w1 Hs1) as (w' & R' & Hs' & Ho); [lia|].
    exists w'. cbn [handle_all foldl]. rewrite (bind_ok _ _ _ _ _ R). split_and!; [done..|].
    rewrite Ho, app_assoc, spec_order. change (ev :: evs) with ([ev] ++ evs). unfold queued. by rewrite omap_app, <- !app_assoc. }
  destruct (Hgen (Spec None [] 0 []) start_page) as (w & R & Hw & Ho); [|cbn; lia|].
  - split_and!; [done..|]. split; [apply no_data_inv|]. unfold own, view, lookup_entry. cbn.
    destruct (is_node e); by rewrite lookup_empty.
  - exists w. split_and!; [done..|]. destruct Hw as (-> & _). exact Ho.
Qed.

Definition some_events : list event := [EQueue (1, false); EQueue (2, true); EPromise; EQueue (3, false); ENext].
Lemma fx_queue_refines_witness :
  ∃ w, @handle_all ascii_case a_div 12 some_events start_page = (Ok tt, w) ∧
    implements a_div (Spec (Some ([], [0])) [1; 2; 3] 1 []) w ∧ log w ++ [] = [1; 2; 3].
Proof. apply (@fx_queue_refines ascii_case a_div some_events 12); [by vm_compute|cbn; lia]. Defined.

End Queue.
