(* ===== verification/SzTree.v ===== *)
(** * Documents as the selector engine sees them (Sizzle in jquery.js)

    The nodes that a script can reach are those of some trees, the document and
    detached ones; a node is named by its path.  The document order of Sizzle's
    fallback ([sortOrder] without [compareDocumentPosition]), [siblingCheck],
    [contains], [getText] and [uniqueSort] work on them. *)

From stdpp Require Import base tactics list strings numbers sets gmap.
From Stdlib Require Import NArith ZArith Sorted Lia.
From S2P Require Import Prelude.
From S2P Require Import JsString.
From S2P Require Import JsArray.

Module Tree.

(** ** Nodes *)

(** What the engine reads of a node; [attribute] is [getAttribute]. *)
Record info := Info {
  nodeType : N;
  nodeName : jsstr;
  nodeValue : jsstr;
  attribute : jsstr → option jsstr;
  className : option jsstr;        (* when it is a string *)
  id : jsstr;
  elemType : jsstr;                (* the property [type] *)
  lang : jsstr;
  disabled : option bool;
  checked : bool;
  selected : bool;
}.
Inductive tree := Tree (node : info) (kids : list tree).
Definition root_info (t : tree) : info := let '(Tree i _) := t in i.
Definition kids_of (t : tree) : list tree := let '(Tree _ ts) := t in ts.
Definition blank : info := Info 0 [] [] (λ _, None) None [] [] [] None false false.

(** A node: its position among the children of its parent, then the parent; the last
    number is that of the tree. *)
Definition path : Type := list nat.

Section page.
Variable page : list tree.

Fixpoint subtree (p : path) : option tree :=
  match p with
  | [] => None
  | i :: q => match q with [] => page !! i | _ => t ← subtree q; kids_of t !! i end
  end.
Definition node_info (p : path) : info := match subtree p with Some t => root_info t | None => blank end.
Definition childCount (p : path) : nat := match subtree p with Some t => length (kids_of t) | None => 0 end.
Definition exists_node (p : path) : Prop := is_Some (subtree p).
Definition is_element (p : path) : bool := (nodeType (node_info p) =? 1)%N.
Definition childNodes (p : path) : list path := (λ i, i :: p) <$> seq 0 (childCount p).
Definition firstChild (p : path) : option path := head (childNodes p).
Definition lastChild (p : path) : option path := last (childNodes p).

(** The links that loops follow, and the nodes they lead to one after the other. *)
Inductive dir := parentNode | previousSibling | nextSibling.
#[export] Instance dir_eq_dec : EqDecision dir.
Proof. solve_decision. Defined.
Definition step (d : dir) (p : path) : option path :=
  match p with
  | i :: (_ :: _) as q =>
      match d with
      | parentNode => Some q
      | previousSibling => match i with S j => Some (j :: q) | 0 => None end
      | nextSibling => if S i <? childCount q then Some (S i :: q) else None
      end
  | _ => None
  end.
Fixpoint ancestors (p : path) : list path :=
  match p with
  | _ :: (_ :: _) as q => q :: ancestors q
  | _ => []
  end.
Definition along (d : dir) (p : path) : list path :=
  match d with
  | parentNode => ancestors p
  | previousSibling => match p with i :: (_ :: _) as q => (λ j, j :: q) <$> reverse (seq 0 i) | _ => [] end
  | nextSibling =>
      match p with i :: (_ :: _) as q => (λ j, j :: q) <$> seq (S i) (childCount q - S i) | _ => [] end
  end.

(** ** The functions of Sizzle *)

(** [contains], the branch that walks up. *)
Definition contains (a b : path) : bool := existsb (λ p, bool_decide (p = a)) (along parentNode b).

(** [getText] without a native [textContent]; an array is a list of nodes. *)
Fixpoint getText_tree (t : tree) : jsstr :=
  let '(Tree i ts) := t in
  if (nodeType i =? 1)%N || (nodeType i =? 9)%N || (nodeType i =? 11)%N then ts ≫= getText_tree
  else if (nodeType i =? 3)%N || (nodeType i =? 4)%N then nodeValue i
  else [].
Definition getText (ps : list path) : jsstr :=
  ps ≫= λ p, match subtree p with Some t => getText_tree t | None => [] end.

(** [siblingCheck], for browsers without [sourceIndex]; [None] is undefined. *)
Definition siblingCheck (a b : option path) : Z :=
  match a, b with
  | Some a, Some b =>
      if existsb (λ p, bool_decide (p = b)) (along nextSibling a) then (-1)%Z else 1%Z
  | Some _, None => 1%Z
  | None, _ => (-1)%Z
  end.

(** The nodes from the root down to [p]. *)
Definition root_path (p : path) : list path := reverse (p :: along parentNode p).
(** [while (ap[i] === bp[i]) i++] for different nodes: how far they agree, and the
    first entries that differ. *)
Fixpoint diverge (ap bp : list path) (i : nat) : nat * option path * option path :=
  match ap, bp with
  | a :: ap', b :: bp' => if bool_decide (a = b) then diverge ap' bp' (S i) else (i, Some a, Some b)
  | _, _ => (i, head ap, head bp)
  end.
Definition indexOf (l : list path) (p : path) : Z := 
  match list_find (λ q, q = p) l with Some (i, _) => Z.of_nat i | None => (-1)%Z end.

(** The document that was set, and the one of the window. *)
Variables doc preferredDoc : path.
(** [sortInput]: the array before the sort, where sorts are not stable. *)
Variable sortInput : option (list path).
Definition input_order (a b : path) : Z :=
  match sortInput with Some l => (indexOf l a - indexOf l b)%Z | None => 0%Z end.
(** [sortOrder], the branch for browsers without [compareDocumentPosition]. *)
Definition sortOrder (a b : path) : Z :=
  if bool_decide (a = b) then 0%Z
  else
    match step parentNode a, step parentNode b with
    | Some aup, Some bup =>
        if bool_decide (aup = bup) then siblingCheck (Some a) (Some b)
        else
          let '(i, x, y) := diverge (root_path a) (root_path b) 0 in
          match i with
          | 0 =>
              if bool_decide (x = Some preferredDoc) then (-1)%Z
              else if bool_decide (y = Some preferredDoc) then 1%Z else 0%Z
          | S _ => siblingCheck x y
          end
    | aup, bup =>
        if bool_decide (a = doc) then (-1)%Z
        else if bool_decide (b = doc) then 1%Z
        else match aup, bup with
          | Some _, _ => (-1)%Z
          | None, Some _ => 1%Z
          | None, None => input_order a b
          end
    end.

(** [compareDocumentPosition] of the browser. *)
Variable position : path → path → N.
Variable sortDetached : bool.
(** [sortOrder], the branch that uses it, for nodes of one document. *)
Definition sortOrder_native (a b : path) : Z :=
  if bool_decide (a = b) then 0%Z
  else
    let compare := position a b in
    if N.testbit compare 0 || (negb sortDetached && (position b a =? compare)%N) then
      if bool_decide (a = doc) || contains preferredDoc a then (-1)%Z
      else if bool_decide (b = doc) || contains preferredDoc b then 1%Z
      else input_order a b
    else if N.testbit compare 2 then (-1)%Z else 1%Z.

(** [uniqueSort]: the indexes of the elements that are followed by themselves, and the
    splices from the last one on.  [seen] is whether the sort compared an element with
    itself; [compare] is the order in use. *)
Variable compare : path → path → Z.
Fixpoint duplicates (results : list path) (i : nat) : list nat :=
  match results with
  | x :: (y :: _) as rest => if bool_decide (x = y) then S i :: duplicates rest (S i) else duplicates rest (S i)
  | _ => []
  end.
Definition uniqueSort (seen : bool) (results : list path) : list path :=
  let sorted := js_sort compare results in
  if seen then foldl (λ l j, delete j l) sorted (reverse (duplicates sorted 0)) else sorted.
End page.

(** ** Document order *)

Section order.
Variable page : list tree.
Implicit Types (p q a b : path).
Local Abbreviation exists_node := (exists_node page).

Lemma along_step d p : along page d p = match step page d p with Some q => q :: along page d q | None => [] end.
Proof.
  destruct p as [|i [|j q]]; [by destruct d..|]. destruct d; cbn [along step]; [done| |].
  - destruct i as [|i]; [done|]. rewrite seq_S, reverse_app. done.
  - destruct (S i <? childCount page (j :: q)) eqn:E.
    + apply Nat.ltb_lt in E. by replace (childCount page (j :: q) - S i) with (S (childCount page (j :: q) - S (S i))) by lia.
    + apply Nat.ltb_ge in E. by replace (childCount page (j :: q) - S i) with 0 by lia.
Qed.

Lemma subtree_cons i q : q ≠ [] → subtree page (i :: q) = t ← subtree page q; kids_of t !! i.
Proof. by destruct q. Qed.
Lemma exists_suffix p q : q ≠ [] → exists_node (p ++ q) → exists_node q.
Proof.
  intros Hq. induction p as [|i p IH]; [done|]. intros [t Ht]. apply IH. cbn [app] in Ht.
  rewrite subtree_cons in Ht by (by destruct p). apply bind_Some in Ht as (t' & Ht' & _). by exists t'.
Qed.
Lemma exists_child i q : q ≠ [] → exists_node (i :: q) ↔ exists_node q ∧ i < childCount page q.
Proof.
  intros Hq. unfold Tree.exists_node, childCount. rewrite subtree_cons by done. destruct (subtree page q) as [t|]; cbn.
  - rewrite lookup_lt_is_Some. split; [by intros|by intros []].
  - split; [by intros []|by intros [[]]].
Qed.

(** [a] comes before [b] in the document: at the first difference on the way from the
    root, or as an ancestor. *)
Definition names_from_root (p : path) : list N := N.of_nat <$> reverse p.
Definition before a b : bool := str_ltb (names_from_root a) (names_from_root b).

Lemma names_inj a b : names_from_root a = names_from_root b → a = b.
Proof. intros E. apply (inj reverse). unfold names_from_root in E. by apply (inj (fmap N.of_nat)) in E. Qed.
Lemma before_irrefl a : before a a = false.
Proof. apply str_ltb_irrefl. Qed.
Lemma before_trans a b c : before a b = true → before b c = true → before a c = true.
Proof. apply str_ltb_trans. Qed.
Lemma before_total a b : a ≠ b → before a b = negb (before b a).
Proof.
  intros Hne. unfold before. destruct (str_ltb (names_from_root a) (names_from_root b)) eqn:E1,
    (str_ltb (names_from_root b) (names_from_root a)) eqn:E2; [|done..|].
  - by rewrite (str_ltb_asym _ _ E1) in E2.
  - destruct Hne. apply names_inj. by apply str_ltb_total.
Qed.

(** The way down from the root. *)
Fixpoint way (l : list nat) (acc : path) : list path :=
  match l with [] => [] | x :: l => (x :: acc) :: way l (x :: acc) end.
Lemma root_path_way p : p ≠ [] → root_path page p = way (reverse p) [].
Proof.
  intros Hp. unfold root_path. cbn [along].
  assert (Hw : ∀ l m acc, way (l ++ m) acc = way l acc ++ way m (reverse l ++ acc)).
  { clear. intros l. induction l as [|x l IH]; intros m acc; [done|]. cbn [way app]. by rewrite IH, reverse_cons, <- app_assoc. }
  induction p as [|i p IH]; [done|]. destruct p as [|j q]; [done|].
  change (ancestors (i :: j :: q)) with ((j :: q) :: ancestors (j :: q)).
  specialize (IH ltac:(done)). unfold path in *. rewrite reverse_cons, IH.
  rewrite (reverse_cons (j :: q) i), Hw. cbn [way]. by rewrite app_nil_r, reverse_involutive.
Qed.

(** Siblings are compared by their numbers. *)
Lemma siblingCheck_siblings i j q :
  q ≠ [] → exists_node (j :: q) → i ≠ j → siblingCheck page (Some (i :: q)) (Some (j :: q)) = if i <? j then (-1)%Z else 1%Z.
Proof.
  intros Hq Hj Hne. apply exists_child in Hj as [_ Hj]; [|done]. unfold siblingCheck.
  assert (Hb : existsb (λ p, bool_decide (p = j :: q)) (along page nextSibling (i :: q)) = (i <? j)).
  { destruct q as [|k q]; [done|]. cbn [along]. destruct (i <? j) eqn:E.
    - apply Nat.ltb_lt in E. apply existsb_elem_of. exists (j :: k :: q). rewrite bool_decide_true by done. split; [|done].
      apply list_elem_of_fmap. exists j. split; [done|]. apply elem_of_seq. lia.
    - apply Nat.ltb_ge in E. apply existsb_false. intros x (m & -> & Hm%elem_of_seq)%list_elem_of_fmap.
      apply bool_decide_eq_false. intros [= ->]. lia. }
  by rewrite Hb.
Qed.

Lemma diverge_way l m acc n :
  l ≠ m → acc ≠ [] → exists_node (reverse m ++ acc) → 
  let '(i, x, y) := diverge (way l acc) (way m acc) n in
  n ≤ i ∧ siblingCheck page x y = if str_ltb (N.of_nat <$> l) (N.of_nat <$> m) then (-1)%Z else 1%Z.
Proof.
  revert m acc n. induction l as [|i l IH]; intros [|j m] acc n Hne Hacc Hm; [done|done|done|]. cbn [way diverge].
  case_bool_decide as Hij.
  - injection Hij as ->. rewrite reverse_cons, <- app_assoc in Hm. specialize (IH m (j :: acc) (S n)).
    destruct (diverge _ _ _) as [[k x] y]. destruct IH as [Hk Hs]; [congruence|done|done|].
    split; [lia|]. rewrite Hs, !fmap_cons. cbn [str_ltb]. by rewrite N.eqb_refl.
  - split; [done|]. assert (Hnij : i ≠ j) by congruence. rewrite siblingCheck_siblings; [|done| |done].
    + rewrite !fmap_cons. cbn [str_ltb]. rewrite (proj2 (N.eqb_neq _ _)) by lia.
      destruct (i <? j) eqn:E; [apply Nat.ltb_lt in E; by rewrite (proj2 (N.ltb_lt _ _)) by lia|].
      apply Nat.ltb_ge in E. by rewrite (proj2 (N.ltb_ge _ _)) by lia.
    + rewrite reverse_cons, <- app_assoc in Hm. by apply exists_suffix in Hm.
Qed.

(** The nodes of the tree with number [r]. *)
Definition in_tree (r : nat) (p : path) : Prop := last p = Some r ∧ exists_node p.
Lemma in_tree_inv r p : in_tree r p → ∃ q, p = q ++ [r].
Proof. intros [(q & ->)%last_Some _]. by exists q. Qed.
Lemma before_root r p : p ≠ [] → before [r] (p ++ [r]) = true.
Proof.
  intros Hp. unfold before, names_from_root. rewrite reverse_app. destruct p as [|i p _] using rev_ind; [done|].
  rewrite reverse_app. cbn. by rewrite N.eqb_refl.
Qed.
Lemma before_suffix p q c : before (p ++ c) (q ++ c) = before p q.
Proof.
  unfold before, names_from_root. rewrite !reverse_app, !fmap_app.
  induction (N.of_nat <$> reverse c) as [|x l IH]; [done|]. cbn. by rewrite N.eqb_refl.
Qed.
Lemma before_single i j : before [i] [j] = (i <? j).
Proof.
  change (str_ltb [N.of_nat i] [N.of_nat j] = (i <? j)). cbn [str_ltb].
  destruct (N.eqb_spec (N.of_nat i) (N.of_nat j)), (N.ltb_spec (N.of_nat i) (N.of_nat j)), (Nat.ltb_spec i j); done || lia.
Qed.
Lemma sortOrder_tree r preferred input a b :
  in_tree r a → in_tree r b → a ≠ b →
  sortOrder page [r] preferred input a b = if before a b then (-1)%Z else 1%Z.
Proof.
  intros Ha Hb Hne. destruct (in_tree_inv _ _ Ha) as [p ->], (in_tree_inv _ _ Hb) as [q ->].
  unfold sortOrder. rewrite bool_decide_false by done.
  destruct (decide (p = [])) as [->|Hp], (decide (q = [])) as [->|Hq]; [done| | |].
  - cbn [app step]. by rewrite before_root, bool_decide_true by done.
  - rewrite before_total by done. cbn [app]. rewrite before_root by done.
    rewrite (bool_decide_false (p ++ [r] = [r])) by done. rewrite bool_decide_true by done. by destruct (step _ _ (p ++ [r])).
  - assert (Hup : ∀ s, s ≠ [] → step page parentNode (s ++ [r]) = Some (tail s ++ [r])).
    { intros [|i [|j s]] Hs; [done|done|done]. }
    rewrite !Hup by done. destruct (decide (tail p ++ [r] = tail q ++ [r])) as [Ht|Ht].
    + rewrite bool_decide_true by done. destruct p as [|i p], q as [|j q]; [done..|]. cbn [app tail] in *. rewrite Ht.
      rewrite siblingCheck_siblings; [|by destruct q|by destruct Hb|by intros ->; rewrite Ht in Hne].
      pose proof (before_suffix [i] [j] (q ++ [r])) as Eb. cbn [app] in Eb. by rewrite Eb, before_single.
    + rewrite bool_decide_false by done. rewrite !root_path_way, !reverse_app by (by destruct p, q).
      change (reverse [r]) with [r]. cbn [app way diverge]. rewrite bool_decide_true by done.
      pose proof (diverge_way (reverse p) (reverse q) [r] 1) as Hd. destruct (diverge _ _ _) as [[k x] y].
      destruct Hd as [Hk ->].
      * by intros E%(inj reverse); rewrite E in Hne.
      * done.
      * rewrite reverse_involutive. by destruct Hb.
      * destruct k as [|k]; [lia|]. by rewrite before_suffix.
Qed.

(** *** Sorting without duplicates *)

(** The array without the elements that repeat the one before. *)
Fixpoint squeeze (l : list path) : list path :=
  match l with
  | x :: (y :: _) as rest => if bool_decide (x = y) then squeeze rest else x :: squeeze rest
  | _ => l
  end.
Lemma squeeze_cons x y l :
  squeeze (x :: y :: l) = if bool_decide (x = y) then squeeze (y :: l) else x :: squeeze (y :: l).
Proof. done. Qed.
Lemma squeeze_head x l : ∃ l', squeeze (x :: l) = x :: l'.
Proof.
  revert x. induction l as [|y l IH]; intros x; [by exists []|]. rewrite squeeze_cons. case_bool_decide as E; [|by eauto].
  rewrite E. apply IH.
Qed.
Lemma squeeze_elem l x : x ∈ squeeze l ↔ x ∈ l.
Proof.
  induction l as [|y [|z l] IH]; [done|done|]. rewrite squeeze_cons. case_bool_decide as E.
  - rewrite IH, E, !elem_of_cons. tauto.
  - by rewrite !(elem_of_cons _ _ y), IH.
Qed.
Lemma splices_squeeze l pre :
  foldl (λ l j, delete j l) (pre ++ l) (reverse (duplicates l (length pre))) = pre ++ squeeze l.
Proof.
  revert pre. induction l as [|x [|y l] IH]; intros pre; [done|done|].
  specialize (IH (pre ++ [x])). rewrite length_app, Nat.add_1_r, <- !app_assoc in IH. cbn [app] in IH.
  rewrite squeeze_cons. destruct (squeeze_head y l) as [l' Hl]. rewrite Hl in *.
  cbn [duplicates]. case_bool_decide as E; [|done].
  rewrite reverse_cons, foldl_app. setoid_rewrite IH. cbn [foldl]. subst y.
  clear. induction pre as [|z pre IH]; [done|]. cbn. by f_equal.
Qed.
Lemma squeeze_sorted l :
  StronglySorted (λ a b, a = b ∨ before a b = true) l → StronglySorted (λ a b, before a b = true) (squeeze l).
Proof.
  induction 1 as [|x [|y l] Hl IH Hx]; [constructor|by repeat constructor|]. rewrite squeeze_cons.
  case_bool_decide as E; [done|]. constructor; [done|]. apply Forall_forall. intros z Hz. rewrite squeeze_elem in Hz.
  pose proof (proj1 (Forall_forall _ _) Hx) as Hxz. destruct (Hxz z Hz) as [<-|]; [exfalso|done].
  destruct (Hxz y) as [|Hxy]; [by left|done|]. apply elem_of_cons in Hz as [|Hz]; [done|].
  apply StronglySorted_inv in Hl as [_ Hl]. rewrite Forall_forall in Hl. destruct (Hl x Hz) as [->|Hyx]; [done|].
  pose proof (before_trans _ _ _ Hxy Hyx) as Hxx. by rewrite before_irrefl in Hxx.
Qed.

Definition document_order (r : nat) (compare : path → path → Z) : Prop :=
  ∀ a b, in_tree r a → in_tree r b → compare a b = if bool_decide (a = b) then 0%Z else if before a b then (-1)%Z else 1%Z.
Lemma document_order_le r compare a b :
  document_order r compare → in_tree r a → in_tree r b → (compare a b ≤ 0)%Z ↔ a = b ∨ before a b = true.
Proof.
  intros H Ha Hb. rewrite (H _ _ Ha Hb). case_bool_decide as E; [split; [by left|lia]|].
  destruct (before a b); split; [by right|lia|lia|by intros [|]].
Qed.
Lemma document_order_consistent r compare : document_order r compare → Consistent compare (in_tree r).
Proof.
  intros H. split.
  - intros a b Ha Hb. rewrite !(document_order_le r) by done.
    destruct (decide (a = b)) as [|Hne]; [by left; left|]. rewrite (before_total a b) by done.
    destruct (before b a); [by right; right|by left; right].
  - intros a b c Ha Hb Hc. rewrite !(document_order_le r) by done.
    intros [->|Hab] [->|Hbc]; [by left|by right..|]. right. by eapply before_trans.
Qed.
Lemma uniqueSort_sorted r compare (seen : bool) results :
  document_order r compare → Forall (in_tree r) results → (seen = false → NoDup results) →
  let out := uniqueSort compare seen results in
  StronglySorted (λ a b, before a b = true) out ∧ ∀ x, x ∈ out ↔ x ∈ results.
Proof.
  intros H Hin Hseen. unfold uniqueSort. pose proof (js_sort_perm compare results) as Hp.
  pose proof (document_order_consistent _ _ H) as Hcons.
  assert (Hs : StronglySorted (λ a b, a = b ∨ before a b = true) (js_sort compare results)).
  { eapply (StronglySorted_impl_in (cmp_le compare)).
    - intros a b Ha Hb. rewrite Hp in Ha, Hb. rewrite Forall_forall in Hin.
      by apply (document_order_le r); [|apply Hin..].
    - by apply (js_sort_sorted compare (in_tree r)). }
  destruct seen; cbn zeta iota.
  - pose proof (splices_squeeze (js_sort compare results) []) as Hq. cbn [app length] in Hq. rewrite Hq. split; [by apply squeeze_sorted|]. intros x. by rewrite squeeze_elem, Hp.
  - split; [|by intros x; rewrite Hp]. specialize (Hseen eq_refl). rewrite <- Hp in Hseen.
    clear Hp. induction Hs as [|a l Hl IH Ha]; constructor.
    + apply IH. by inversion Hseen.
    + apply NoDup_cons in Hseen as [Hna _]. apply Forall_forall. intros b Hb.
      destruct (proj1 (Forall_forall _ _) Ha b Hb) as [->|]; [done|done].
Qed.

Lemma sortOrder_document r preferred input : document_order r (sortOrder page [r] preferred input).
Proof.
  intros a b Ha Hb. case_bool_decide as E; [|by apply sortOrder_tree]. unfold sortOrder. by rewrite bool_decide_true.
Qed.

(** Where the browser compares nodes as the standard says (the bits DISCONNECTED,
    FOLLOWING and PRECEDING), the comparator that asks it and the one that walks the tree
    give the same answer on any two nodes of the document, whatever the order was before
    and whatever is known of the sort of detached nodes. *)
Theorem sortOrder_agree r preferred preferred' input input' position sortDetached a b
    (Hpos : ∀ a b, in_tree r a → in_tree r b → a ≠ b →
      position a b = if before a b then 4%N else 2%N)
    (Ha : in_tree r a) (Hb : in_tree r b) :
  sortOrder_native page [r] preferred input position sortDetached a b = sortOrder page [r] preferred' input' a b.
Proof.
  rewrite (sortOrder_document r preferred' input' a b) by done. unfold sortOrder_native.
  case_bool_decide as E; [done|]. rewrite !Hpos, (before_total a b) by done.
  by destruct (before b a), sortDetached.
Qed.

(** C33: the nodes that [uniqueSort] returns stand in document order, each once, and they
    are the nodes that it was given: for the comparator of Sizzle's fallback, on nodes of
    the document, when the comparator met a duplicate or there is none. *)
Theorem uniqueSort_document_order r preferred input (seen : bool) results
    (Hin : Forall (in_tree r) results) (Hseen : seen = false → NoDup results) :
  let out := uniqueSort (sortOrder page [r] preferred input) seen results in
  StronglySorted (λ a b, before a b = true) out ∧ ∀ x, x ∈ out ↔ x ∈ results.
Proof. apply (uniqueSort_sorted r); [apply sortOrder_document|done|done]. Qed.
End order.

(** ** Examples *)

Definition element (name : String.string) (kids : list tree) : tree :=
  Tree (Info 1 (js name) [] (λ _, None) None [] [] [] None false false) kids.
(** A document with two lists, and a detached item. *)
Definition sample : list tree :=
  [Tree (Info 9 [] [] (λ _, None) None [] [] [] None false false)
     [element "HTML" [element "UL" [element "LI" []; element "LI" []]; element "OL" [element "LI" []]]];
   element "LI" [element "B" []]].

Lemma sortOrder_agree_witness :
  sortOrder_native sample [0] [0] None (λ a b, if before a b then 4%N else 2%N) false [1; 0; 0; 0] [0; 1; 0; 0] =
  sortOrder sample [0] [0] None [1; 0; 0; 0] [0; 1; 0; 0].
Proof.
  apply (sortOrder_agree sample 0 [0] [0] None None (λ a b, if before a b then 4%N else 2%N) false).
  - done.
  - split; [done|by eexists].
  - split; [done|by eexists].
Defined.
Lemma uniqueSort_document_order_witness :
  StronglySorted (λ a b, before a b = true)
    (uniqueSort (sortOrder sample [0] [0] None) true [[0; 1; 0; 0]; [1; 0; 0; 0]; [0; 0]; [1; 0; 0; 0]]) ∧
  uniqueSort (sortOrder sample [0] [0] None) true [[0; 1; 0; 0]; [1; 0; 0; 0]; [0; 0]; [1; 0; 0; 0]] =
    [[0; 0]; [1; 0; 0; 0]; [0; 1; 0; 0]].
Proof.
  split; [|by vm_compute].
  apply (uniqueSort_document_order sample 0 [0] None true [[0; 1; 0; 0]; [1; 0; 0; 0]; [0; 0]; [1; 0; 0; 0]]); [|done].
  repeat constructor; by eexists.
Defined.

(** In the fallback a detached root sorts after its own descendants. *)
Example detached_root_last : sortOrder sample [0] [0] None [1] [0; 1] = 1%Z ∧ before [1] [0; 1] = true.
Proof. by vm_compute. Qed.

End Tree.
