(* ===== verification/SzTokens.v ===== *)
(** * The tokens of selectors in jquery.js (Sizzle)

    The patterns of selector syntax, [Expr.preFilter], [tokenize] and [toSelector]. *)

From stdpp Require Import base tactics list strings numbers sets gmap.
From Stdlib Require Import NArith ZArith Lia.
From S2P Require Import Prelude.
From S2P Require Import JsString.
From S2P Require Import Regex.

Module Tokens.

(** ** Patterns *)

Definition is_ws : N → bool := λ c, existsb (N.eqb c) [32; 9; 13; 10; 12]%N.
Definition whitespace : regex := RSet is_ws.
Definition ws : regex := star whitespace.
Definition backslash : N := 92%N.
Definition escape_pair : regex := RSeq (RSet (N.eqb backslash)) dot.
(** [(?:\\.|[\w-]|[^\x00-\xa0])+], with further units in the class for two variants. *)
Definition encoding (extra : N → bool) : regex :=
  plus (alts [escape_pair; RSet (λ c, is_word c || N.eqb c 45 || extra c); RSet (λ c, (160 <? c)%N)]).
Definition characterEncoding : regex := encoding (λ _, false).
Definition identifier : regex := encoding (N.eqb 35).
(** A string between quotes [q], its text in group [n]. *)
Definition quoted (q : N) (n : nat) : regex :=
  seqs [RSet (N.eqb q);
        RGroup n (star (RAlt escape_pair (RSet (λ c, negb (N.eqb c backslash || N.eqb c q)))));
        RSet (N.eqb q)].
(** [attributes], with its groups numbered from [n]. *)
Definition attributes_at (n : nat) : regex :=
  seqs [lit "["; ws; RGroup n characterEncoding;
        RAlt (seqs [ws; RGroup (n + 1) (RSeq (opt (RSet (cls "*^$|!~"))) (lit "=")); ws;
                    alts [quoted 39 (n + 2); quoted 34 (n + 3); RGroup (n + 4) identifier]])
             REmpty;
        ws; lit "]"].
Definition attributes : regex := attributes_at 1.
(** The groups of [attributes] inside [pseudos] are 7 to 11. *)
Definition pseudos : regex :=
  seqs [lit ":"; RGroup 1 characterEncoding;
        RAlt (seqs [lit "(";
                    RGroup 2 (alts [RGroup 3 (RAlt (quoted 39 4) (quoted 34 5));
                                    RGroup 6 (star (alts [escape_pair; RSet (ncls "\()[]"); attributes_at 7]));
                                    star dot]);
                    lit ")"])
             REmpty].

Definition rtrim : regex :=
  RAlt (RSeq RBol (plus whitespace))
       (seqs [RGroup 1 (RSeq (RAlt RBol (RSet (λ c, negb (N.eqb c backslash)))) (star escape_pair));
              plus whitespace; REol]).
(** [s.replace(rtrim, "$1")] and [s.replace(rtrim, " ")]. *)
Definition trim_ws (s : jsstr) : jsstr := replace_all rtrim (λ m, capture_str m 1) s.
Definition space_for_ws (s : jsstr) : jsstr := replace_all rtrim (λ _, js " ") s.

Definition rcomma : regex := seqs [RBol; ws; lit ","; ws].
Definition rcombinators : regex := seqs [RBol; ws; RGroup 1 (RAlt (RSet (cls ">+~")) whitespace); ws].
Definition rpseudo : regex := pseudos.
Definition ridentifier : regex := seqs [RBol; identifier; REol].

(** A literal under the flag [i]. *)
Definition liti (s : String.string) : regex :=
  seqs ((λ c, RSet (λ d, N.eqb (ascii_lower_unit d) c)) <$> js s).
Definition sign (n : nat) : regex := RGroup n (RAlt (RSet (cls "+-")) REmpty).
Definition digits : regex := star (RSet is_digit).
Definition r_TAG : regex := RSeq RBol (RGroup 1 (encoding (N.eqb 42))).
Definition r_CLASS : regex := seqs [RBol; lit "."; RGroup 1 characterEncoding].
Definition r_ID : regex := seqs [RBol; lit "#"; RGroup 1 characterEncoding].
Definition r_ATTR : regex := RSeq RBol attributes.
Definition r_PSEUDO : regex := RSeq RBol pseudos.
Definition r_CHILD : regex :=
  seqs [RBol; lit ":";
        RGroup 1 (alts [liti "only"; liti "first"; liti "last"; liti "nth"; liti "nth-last"]);
        lit "-"; RGroup 2 (RAlt (liti "child") (liti "of-type"));
        RAlt (seqs [lit "("; ws;
                RGroup 3 (alts [liti "even"; liti "odd";
                  seqs [RGroup 4 (RAlt (seqs [sign 5; RGroup 6 digits; liti "n"]) REmpty); ws;
                        RAlt (seqs [sign 7; ws; RGroup 8 (plus (RSet is_digit))]) REmpty]]);
                ws; lit ")"])
             REmpty].
(** The look-ahead at the end of the pattern is only tested, so it is matched. *)
Definition r_needsContext : regex :=
  RAlt (seqs [RBol; ws; RSet (cls ">+~")])
       (seqs [lit ":"; alts [liti "even"; liti "odd"; liti "eq"; liti "gt"; liti "lt"; liti "nth"; liti "first"; liti "last"];
              RAlt (seqs [lit "("; ws; RSeq (RAlt (RSeq (lit "-") (RSet is_digit)) REmpty) digits; ws; lit ")"]) REmpty;
              RAlt (RSet (λ c, negb (N.eqb c 45))) REol]).
Definition rsibling : regex := RSet (cls "+~").

(** ** Escapes *)

Definition is_hex (c : N) : bool := is_digit c || in_range 97 102 (ascii_lower_unit c).
Fixpoint up_to (n : nat) (r : regex) : regex :=
  match n with 0 => REmpty | S k => opt (RSeq r (up_to k r)) end.
Definition runescape : regex :=
  RSeq (RSet (N.eqb backslash))
    (RGroup 1 (alts [seqs [RSet is_hex; up_to 5 (RSet is_hex); opt whitespace]; RGroup 2 whitespace; dot])).
Definition hex_digit (c : N) : N := if is_digit c then (c - 48)%N else (ascii_lower_unit c - 87)%N.
(** [+("0x" + escaped)]: [None] for NaN. *)
Definition hex_number (escaped : jsstr) : option N :=
  match base.filter (λ c, negb (is_ws c) = true) escaped with
  | [] => None
  | ds => if forallb is_hex ds then Some (foldl (λ n c, (16 * n + hex_digit c)%N) 0%N ds) else None
  end.
Definition funescape (m : match_result) : jsstr :=
  let escaped := capture_str m 1 in
  match capture m 2, hex_number escaped with
  | None, Some n =>
      if (n <? 65536)%N then [n]
      else let high := (n - 65536)%N in
           [(N.lor (N.shiftr high 10) 55296 `mod` 65536)%N; N.lor (N.land high 1023) 56320]
  | _, _ => escaped
  end.
Definition unescape (s : jsstr) : jsstr := replace_all runescape funescape s.

(** ** Tokens *)

(** The type of a token with what [matches] holds for it.  A CHILD has its numbers
    when its type begins with "nth". *)
Inductive token_type :=
  | TComb (type : jsstr)
  | TTag (name : jsstr)
  | TClass (name : jsstr)
  | TAttr (name : jsstr) (operator : option jsstr) (check : jsstr)
  | TChild (type what : jsstr) (nth : option (Z * Z))
  | TPseudo (name : jsstr) (argument : option jsstr)
  | TId (name : jsstr).
Record token := Token { value : jsstr; type : token_type }.

#[export] Instance token_type_eq_dec : EqDecision token_type.
Proof. solve_decision. Defined.
#[export] Instance token_eq_dec : EqDecision token.
Proof. solve_decision. Defined.

Definition toSelector (tokens : list token) : jsstr := concat (value <$> tokens).

Definition syntax_error : error := UserError 0.

(** The first capture that is neither unset nor empty, as [a || b || ...]. *)
Fixpoint first_capture (m : match_result) (ns : list nat) : jsstr :=
  match ns with
  | [] => []
  | n :: ns => match capture_str m n with [] => first_capture m ns | s => s end
  end.
(** The numeral of an optional sign and digits, [+s]. *)
Definition number (sg ds : jsstr) : Z :=
  let n := foldl (λ n c, (10 * n + Z.of_N (c - 48))%Z) 0%Z ds in
  if str_eqb sg (js "-") then (- n)%Z else n.
Definition is_nth (ty : jsstr) : bool := prefixb (js "nth") ty.

Section tokens.
Context `{UnicodeCase}.

Definition preFilter_ATTR (m : match_result) : token_type :=
  let check := unescape (first_capture m [3; 4; 5]) in
  TAttr (unescape (capture_str m 1)) (capture m 2)
    (if bool_decide (capture m 2 = Some (js "~=")) then js " " ++ check ++ js " " else check).
(** [Sizzle.error] for an argument that is missing or not allowed. *)
Definition preFilter_CHILD (m : match_result) : outcome token_type :=
  let ty := to_lower (capture_str m 1) in
  let arg := capture_str m 3 in
  if is_nth ty then
    match arg with
    | [] => Throw syntax_error
    | _ =>
        let parity := str_eqb arg (js "even") || str_eqb arg (js "odd") in
        let first :=
          match capture_str m 4 with
          | [] => if parity then 2%Z else 0%Z
          | _ => number (capture_str m 5) (match capture_str m 6 with [] => js "1" | ds => ds end)
          end in
        let last :=
          match capture_str m 8 with
          | [] => if str_eqb arg (js "odd") then 1%Z else 0%Z
          | ds => number (capture_str m 7) ds
          end in
        Ok (TChild ty (capture_str m 2) (Some (first, last)))
    end
  else match arg with [] => Ok (TChild ty (capture_str m 2) None) | _ => Throw syntax_error end.
(** The matched text and the token, or [None] for null.  [excess] is
    [tokenize(unquoted, true)]. *)
Definition preFilter_PSEUDO (excess : jsstr → outcome nat) (m : match_result) :
    outcome (option (jsstr * token_type)) :=
  let text := r_text m in
  let name := capture_str m 1 in
  if test r_CHILD text then Ok None
  else
    match capture_str m 3 with
    | _ :: _ => Ok (Some (text, TPseudo name (Some (first_capture m [4; 5]))))
    | [] =>
        let plain := Ok (Some (text, TPseudo name (capture m 2))) in
        match capture_str m 6, capture_str m 2 with
        | [], (_ :: _) as unquoted =>
            if test rpseudo unquoted then
              match excess unquoted with
              | Throw e => Throw e
              | Ok 0 => plain
              | Ok n =>
                  let at_ := (indexOf_from unquoted (js ")") (length unquoted - n) - zlen unquoted)%Z in
                  Ok (Some (slice text 0 at_, TPseudo name (Some (slice unquoted 0 at_))))
              end
            else plain
        | _, _ => plain
        end
    end.

(** The types of [Expr.filter] in the order of its properties: [ID] comes last. *)
Inductive filter_type := FTag | FClass | FAttr | FChild | FPseudo | FId.
Definition filter_types : list filter_type := [FTag; FClass; FAttr; FChild; FPseudo; FId].
Definition match_filter (excess : jsstr → outcome nat) (ty : filter_type) (soFar : jsstr) :
    outcome (option (jsstr * token_type)) :=
  let plain r f := Ok (match exec r soFar with Some m => Some (r_text m, f (capture_str m 1)) | None => None end) in
  match ty with
  | FTag => plain r_TAG TTag
  | FClass => plain r_CLASS TClass
  | FId => plain r_ID TId
  | FAttr => Ok (match exec r_ATTR soFar with Some m => Some (r_text m, preFilter_ATTR m) | None => None end)
  | FChild =>
      match exec r_CHILD soFar with
      | None => Ok None
      | Some m => match preFilter_CHILD m with Ok t => Ok (Some (r_text m, t)) | Throw e => Throw e end
      end
  | FPseudo =>
      match exec r_PSEUDO soFar with
      | None => Ok None
      | Some m => preFilter_PSEUDO excess m
      end
  end.
(** [for (type in Expr.filter)]: the tokens found, what is left, and whether any was. *)
Fixpoint match_filters (excess : jsstr → outcome nat) (tys : list filter_type) (soFar : jsstr)
    (tokens : list token) (matched : bool) : outcome (list token * jsstr * bool) :=
  match tys with
  | [] => Ok (tokens, soFar, matched)
  | ty :: tys =>
      match match_filter excess ty soFar with
      | Throw e => Throw e
      | Ok None => match_filters excess tys soFar tokens matched
      | Ok (Some (text, t)) =>
          match_filters excess tys (drop (length text) soFar) (tokens ++ [Token text t]) true
      end
  end.
(** The combinator in front of what is left. *)
Definition match_combinator (soFar : jsstr) (tokens : list token) : list token * jsstr * bool :=
  match exec rcombinators soFar with
  | Some m =>
      (tokens ++ [Token (r_text m) (TComb (space_for_ws (capture_str m 1)))], drop (length (r_text m)) soFar, true)
  | None => (tokens, soFar, false)
  end.
(** The comma that ends a group; a trailing comma stays. *)
Definition match_comma (soFar : jsstr) : option jsstr :=
  match exec rcomma soFar with
  | Some m => Some (match drop (length (r_text m)) soFar with [] => soFar | s => s end)
  | None => None
  end.

(** The loop of [tokenize]: [first] in its first round, [groups] without the last one,
    [tokens] of which is the last; the result is the groups and what is left. *)
Fixpoint tokenize_loop (k : nat) (first : bool) (soFar : jsstr) (groups : list (list token))
    (tokens : list token) : outcome (list (list token) * jsstr) :=
  match soFar, k with
  | [], _ => Ok (if first then groups else groups ++ [tokens], [])
  | _, 0 => Throw Diverge
  | _, S k =>
      let '(groups, tokens, soFar) :=
        match (if first then None else match_comma soFar) with
        | Some soFar => (groups ++ [tokens], [], soFar)
        | None => (groups, tokens, soFar)
        end in
      let '(tokens, soFar, matched) := match_combinator soFar tokens in
      let excess s :=
        match tokenize_loop k true s [] [] with Ok (_, rest) => Ok (length rest) | Throw e => Throw e end in
      match match_filters excess filter_types soFar tokens matched with
      | Throw e => Throw e
      | Ok (tokens, soFar, matched) =>
          if matched then tokenize_loop k false soFar groups tokens
          else Ok (groups ++ [tokens], soFar)
      end
  end.
(** [tokenize(selector)]: one round more than there are characters is enough. *)
Definition tokenize (selector : jsstr) : outcome (list (list token)) :=
  match tokenize_loop (S (length selector)) true selector [] [] with
  | Throw e => Throw e
  | Ok (groups, []) => Ok groups
  | Ok (_, _ :: _) => Throw syntax_error
  end.
End tokens.

Example trim_ex : trim_ws (js "  a b  ") = js "a b" ∧ trim_ws (js "a\ ") = js "a\ " ∧ space_for_ws [9%N] = js " ".
Proof. vm_compute. done. Qed.
Example unescape_ex : unescape (js "\31 23\.x") = js "123.x".
Proof. vm_compute. reflexivity. Qed.
Example tokenize_ex :
  (map type <$> match @tokenize ascii_case (js "div.a > #b:nth-child(2n+1), p [x^=v]:not(i:hover )") with Ok g => g | _ => [] end) =
  [[TTag (js "div"); TClass (js "a"); TComb (js ">"); TId (js "b");
    TChild (js "nth") (js "child") (Some (2, 1)%Z)];
   [TTag (js "p"); TComb (js " "); TAttr (js "x") (Some (js "^=")) (js "v"); TPseudo (js "not") (Some (js "i:hover "))]].
Proof. vm_compute. reflexivity. Qed.

(** ** The text of the tokens *)

Section facts.
Context `{UnicodeCase}.

(** A comma between groups, with the white space around it. *)
Definition comma (s : jsstr) : Prop :=
  ∃ a b, s = a ++ js "," ++ b ∧ Forall (λ c, is_ws c = true) a ∧ Forall (λ c, is_ws c = true) b.
(** The text of further groups, each after a comma. *)
Fixpoint spelled (gs : list (list token)) (s : jsstr) : Prop :=
  match gs with
  | [] => s = []
  | g :: gs => ∃ sep t, s = sep ++ toSelector g ++ t ∧ comma sep ∧ spelled gs t
  end.

Lemma toSelector_app a b : toSelector (a ++ b) = toSelector a ++ toSelector b.
Proof. unfold toSelector. by rewrite fmap_app, concat_app. Qed.

(** A match that a step of the loop takes. *)
Definition takes (soFar : jsstr) (text : jsstr) : Prop := text ≠ [] ∧ ∃ rest, soFar = text ++ rest.
Lemma takes_drop soFar text : takes soFar text → soFar = text ++ drop (length text) soFar ∧ length (drop (length text) soFar) < length soFar.
Proof.
  intros [Hne [rest ->]]. rewrite drop_app_length, length_app. split; [done|]. destruct text; [done|simpl; lia].
Qed.
Lemma exec_takes r soFar m : consuming r = true → exec (RSeq RBol r) soFar = Some m → takes soFar (r_text m).
Proof.
  intros Hc Hm. split; [by eapply exec_bol_consuming|]. apply exec_bol_Some in Hm as (_ & _ & _ & _ & _ & Hs). by eexists.
Qed.

Lemma lit_steps t st st' : st' ∈ run (lit_units t) st → steps_by t st st' ∧ m_caps st' = m_caps st.
Proof. intros (s & E & ->)%run_lit_units. split; [by eapply steps_by_advance|done]. Qed.

(** What [pseudos] matches around its argument. *)
Lemma pseudo_text soFar m u :
  exec r_PSEUDO soFar = Some m → capture m 2 = Some u → ∃ n, r_text m = js ":" ++ n ++ js "(" ++ u ++ js ")".
Proof.
  intros (st' & Hin & _ & Hcaps & Hafter & Htext)%exec_bol_Some Hu. unfold capture in Hu. rewrite Hcaps in Hu.
  cbn [pseudos seqs] in Hin. set (R := RGroup 2 _) in Hin.
  apply run_seq in Hin as (st1 & [S1 C1]%lit_steps & Hin).
  apply run_seq in Hin as (st2 & (st2' & H2 & ->)%run_group & Hin).
  apply run_caps in H2 as C2; [|done]. apply run_forward in H2 as [n S2].
  apply run_alt in Hin as [Hin| ->%run_empty].
  2:{ cbn [m_caps set_cap] in Hu. rewrite lookup_insert_ne, C2, C1 in Hu by done. done. }
  apply run_seq in Hin as (st3 & [S3 _]%lit_steps & Hin).
  apply run_seq in Hin as (st4 & H4 & [S5 C5]%lit_steps). subst R.
  apply run_group in H4 as (st4' & H4 & ->). apply run_forward in H4 as [w S4].
  rewrite C5 in Hu. cbn [m_caps set_cap] in Hu. rewrite lookup_insert_eq in Hu. injection Hu as <-.
  rewrite (steps_by_consumed _ _ _ S4). exists n. apply (app_inv_tail (r_after m)). rewrite <- Htext, Hafter.
  assert (St : steps_by (js ":" ++ n ++ js "(" ++ w ++ js ")") (MState 0 soFar ∅) st').
  { eapply steps_by_trans; [exact S1|]. eapply steps_by_trans; [exact S2|]. eapply steps_by_trans; [exact S3|].
    eapply steps_by_trans; [exact S4|exact S5]. }
  exact (proj1 St).
Qed.

(** The text that a pseudo takes, also when its argument was cut back. *)
Lemma preFilter_PSEUDO_takes excess soFar m text t :
  exec r_PSEUDO soFar = Some m → preFilter_PSEUDO excess m = Ok (Some (text, t)) → takes soFar text.
Proof.
  intros Hm Hp. pose proof (exec_takes pseudos soFar m eq_refl Hm) as Ht.
  unfold preFilter_PSEUDO in Hp. destruct (test r_CHILD _); [done|].
  destruct (capture_str m 3) as [|c3 s3]; [|by injection Hp as <- _].
  destruct (capture_str m 6); [|by injection Hp as <- _].
  unfold capture_str in Hp. destruct (capture m 2) as [[|c u]|] eqn:Eu; cbn [from_option id] in Hp; [by injection Hp as <- _| |by injection Hp as <- _].
  destruct (test rpseudo _); [|by injection Hp as <- _].
  destruct (excess _) as [[|n]|]; [by injection Hp as <- _| |done]. revert Hp. set (u' := c :: u) in *.
  set (i := (indexOf_from _ _ _ - _)%Z). intros [= <- _].
  destruct (pseudo_text _ _ _ Hm Eu) as [n' En].
  assert (Hi : (- zlen u' - 1 ≤ i < 0)%Z).
  { unfold i, indexOf_from. destruct (index_of _ _) as [j|] eqn:Ej.
    - apply index_of_Some in Ej as [E Hj]. apply (f_equal length) in E. rewrite !length_app, !length_drop, length_take in E.
      rewrite length_drop in *. change (length (js ")")) with 1 in E. unfold zlen. lia.
    - unfold zlen. lia. }
  assert (Hl : length (r_text m) = length u' + length n' + 3).
  { rewrite En, !length_app. change (length (js ":")) with 1. change (length (js "(")) with 1. change (length (js ")")) with 1. lia. }
  assert (Hs : slice (r_text m) 0 i = take (length (r_text m) - Z.to_nat (- i)) (r_text m)).
  { unfold slice, slice_nat, rel_index. rewrite (proj2 (Z.ltb_ge 0 0)) by lia. rewrite (proj2 (Z.ltb_lt i 0)) by lia.
    unfold zlen in *. rewrite Z.min_l by lia. cbn [Z.to_nat]. rewrite drop_0. f_equal. lia. }
  rewrite Hs. destruct Ht as [_ [rest ->]]. split.
  - intros Hnil. apply (f_equal length) in Hnil. rewrite length_take in Hnil. unfold zlen in *. simpl in *. lia.
  - eexists. by rewrite <- (take_drop (length (r_text m) - Z.to_nat (- i)) (r_text m)) at 1; rewrite <- app_assoc.
Qed.

Lemma match_filter_takes excess ty soFar text t :
  match_filter excess ty soFar = Ok (Some (text, t)) → takes soFar text.
Proof.
  destruct ty; cbn [match_filter].
  - destruct (exec r_TAG soFar) as [m|] eqn:E; [|done]. intros [= <- _]. by refine (exec_takes _ _ _ _ E).
  - destruct (exec r_CLASS soFar) as [m|] eqn:E; [|done]. intros [= <- _]. by refine (exec_takes _ _ _ _ E).
  - destruct (exec r_ATTR soFar) as [m|] eqn:E; [|done]. intros [= <- _]. by refine (exec_takes _ _ _ _ E).
  - destruct (exec r_CHILD soFar) as [m|] eqn:E; [|done]. destruct (preFilter_CHILD m); [|done].
    intros [= <- _]. by refine (exec_takes _ _ _ _ E).
  - destruct (exec r_PSEUDO soFar) as [m|] eqn:E; [|done]. by apply preFilter_PSEUDO_takes.
  - destruct (exec r_ID soFar) as [m|] eqn:E; [|done]. intros [= <- _]. by refine (exec_takes _ _ _ _ E).
Qed.

(** One round over the filters: the text of the new tokens is taken off. *)
Lemma match_filters_spec excess tys soFar tokens matched r :
  match_filters excess tys soFar tokens matched = Ok r →
  ∃ ts rest, r = (tokens ++ ts, rest, matched || negb (bool_decide (ts = []))) ∧ soFar = toSelector ts ++ rest ∧
    length rest + length ts ≤ length soFar.
Proof.
  revert soFar tokens matched. induction tys as [|ty tys IH]; intros soFar tokens matched; cbn [match_filters].
  - intros [= <-]. exists [], soFar. rewrite app_nil_r, orb_false_r. split_and!; [done|done|simpl; lia].
  - destruct (match_filter excess ty soFar) as [[[text t]|]|] eqn:E; [| |done].
    + apply match_filter_takes in E as Ht. apply takes_drop in Ht as [Hs Hl].
      intros (ts & rest & -> & Hr & Hlen)%IH. exists (Token text t :: ts), rest.
      rewrite <- app_assoc, orb_true_r. split_and!; [done| |].
      * rewrite Hs, Hr. unfold toSelector. cbn. by rewrite app_assoc.
      * cbn [length]. lia.
    + apply IH.
Qed.
Lemma match_filters_error excess tys soFar tokens matched :
  (∀ s, length s < length soFar → excess s ≠ Throw Diverge) →
  match_filters excess tys soFar tokens matched ≠ Throw Diverge.
Proof.
  revert soFar tokens matched. induction tys as [|ty tys IH]; intros soFar tokens matched He; [done|]. cbn [match_filters].
  destruct (match_filter excess ty soFar) as [[[text t]|]|e] eqn:E.
  - apply IH. apply match_filter_takes, takes_drop in E as [_ Hl]. intros s Hs. apply He. lia.
  - by apply IH.
  - intros [= ->]. destruct ty; cbn [match_filter] in E; try done.
    + destruct (exec r_CHILD soFar); [|done]. unfold preFilter_CHILD in E.
      destruct (is_nth _), (capture_str m 3); try done.
    + destruct (exec r_PSEUDO soFar) as [m|] eqn:Em; [|done]. unfold preFilter_PSEUDO in E.
      destruct (test r_CHILD _); [done|]. destruct (capture_str m 3); [|done]. destruct (capture_str m 6); [|done].
      unfold capture_str in E. destruct (capture m 2) as [[|c u]|] eqn:Eu; cbn [from_option id] in E; try done.
      destruct (test rpseudo _); [|done]. destruct (excess (c :: u)) as [[|n]|e] eqn:Ex; try done.
      injection E as ->. revert Ex. apply He. destruct (pseudo_text _ _ _ Em Eu) as [n En].
      destruct (exec_takes pseudos _ _ eq_refl Em) as [_ [rest Hr]]. rewrite Hr, En, !length_app. change (length (js ":")) with 1. lia.
Qed.

Lemma match_comma_spec soFar s :
  match_comma soFar = Some s → s = soFar ∧ comma soFar ∨ ∃ sep, soFar = sep ++ s ∧ comma sep ∧ s ≠ [].
Proof.
  unfold match_comma. destruct (exec rcomma soFar) as [m|] eqn:E; [|done]. intros [= <-].
  apply exec_bol_Some in E as (st' & Hin & _ & _ & Ha & Ht).
  assert (Hcm : comma (r_text m)).
  { assert (Hc : eats (seqs [ws; lit ","; ws]) (λ w, ∃ a v, w = a ++ v ∧ Forall (λ c, is_ws c = true) a ∧
      ∃ u b, v = u ++ b ∧ u = js "," ∧ Forall (λ c, is_ws c = true) b)).
    { cbn [seqs]. apply eats_seq; [apply eats_star|]. apply eats_seq; [apply eats_lit|apply eats_star]. }
    apply Hc in Hin as (w & r & Er & (a & v & -> & Ha' & u & b & -> & -> & Hb) & ->). cbn in Er.
    rewrite Ha in Ht. cbn in Ht. rewrite Er, drop_app_length in Ht. apply app_inv_tail in Ht. rewrite <- Ht.
    by exists a, b. }
  assert (Hd : drop (length (r_text m)) soFar = r_after m) by by rewrite Ht, drop_app_length.
  rewrite Hd. destruct (r_after m) as [|c s'] eqn:Ed.
  - left. split; [done|]. rewrite Ht. by rewrite app_nil_r.
  - right. by exists (r_text m).
Qed.
Lemma match_combinator_spec soFar tokens :
  ∃ ts rest matched, match_combinator soFar tokens = (tokens ++ ts, rest, matched) ∧ soFar = toSelector ts ++ rest ∧
    matched = negb (bool_decide (ts = [])) ∧ length rest + length ts ≤ length soFar.
Proof.
  unfold match_combinator. destruct (exec rcombinators soFar) as [m|] eqn:E.
  - assert (Ht : takes soFar (r_text m)) by (by refine (exec_takes _ _ _ _ E)).
    apply takes_drop in Ht as [Hs Hl]. eexists [_], _, true. split_and!; [done| |done|cbn; lia].
    rewrite Hs at 1. unfold toSelector. cbn. by rewrite app_nil_r.
  - exists [], soFar, false. rewrite app_nil_r. split_and!; [done..|simpl; lia].
Qed.

(** After a comma no white space is left. *)
Lemma rcomma_after s m : exec rcomma s = Some m → match r_after m with c :: _ => is_ws c = false | [] => True end.
Proof.
  intros (k & Hk & Hm & _)%search_from_Some. unfold match_at in Hm.
  apply bind_Some in Hm as (st' & Hh & [= <-]). cbn [r_after].
  set (P st := match m_rest st with c :: _ => is_ws c = false | [] => True end). change (P st').
  unfold rcomma in Hh. cbn [seqs run] in Hh. revert Hh. destruct (_ =? 0); [|done]. cbn [mbind list_bind].
  rewrite app_nil_r. apply head_bind. intros st1 y1 _. apply head_bind. intros st2 y2 _ H2.
  destruct (star_set_greedy is_ws st2) as (st3 & u & H3 & _ & _ & Hr).
  change (run (star (RSet is_ws)) st2) with (run ws st2) in H3. rewrite H2 in H3. by injection H3 as ->.
Qed.

Definition all_ws : jsstr → Prop := Forall (λ c, is_ws c = true).
(** White space and a comma, and then only white space. *)
Definition trail (s : jsstr) : Prop := ∃ a b, s = a ++ js "," ++ b ∧ all_ws a ∧ all_ws b.

(** No filter matches white space or a comma. *)
Lemma no_filter excess ty s c : is_ws c = true ∨ c = 44%N → match_filter excess ty (c :: s) = Ok None.
Proof.
  intros Hc. assert (Hcs : c ∈ [32; 9; 13; 10; 12; 44]%N).
  { destruct Hc as [Hc| ->]; [|set_solver]. apply existsb_elem_of in Hc as (d & Hd & ->%N.eqb_eq). set_solver. }
  assert (Hr : ∀ r, r ∈ [r_TAG; r_CLASS; r_ATTR; r_CHILD; r_PSEUDO; r_ID] → exec r (c :: s) = None).
  { clear Hc. intros r Hr.
    repeat (apply elem_of_cons in Hr as [->|Hr]; [apply exec_bol_None;
      repeat (apply elem_of_cons in Hcs as [->|Hcs]; [reflexivity|]); by apply elem_of_nil in Hcs|]).
    by apply elem_of_nil in Hr. }
  destruct ty; cbn [match_filter]; rewrite Hr by set_solver; done.
Qed.
Lemma trail_head s : trail s → ∃ c s', s = c :: s' ∧ (is_ws c = true ∨ c = 44%N).
Proof.
  intros ([|c a] & b & -> & Ha & Hb); [by exists 44%N, b; auto|].
  inversion Ha; subst. exists c, (a ++ js "," ++ b). auto.
Qed.
Lemma trail_filters excess tys s tokens m : trail s → match_filters excess tys s tokens m = Ok (tokens, s, m).
Proof.
  intros (c & s' & -> & Hc)%trail_head. induction tys as [|ty tys IH]; [done|]. cbn [match_filters].
  by rewrite no_filter.
Qed.
Lemma comma_not_ws : is_ws 44 = false.
Proof. done. Qed.
Lemma trail_suffix text rest s : trail s → s = text ++ rest → 44%N ∉ text → trail rest.
Proof.
  intros (a & b & -> & Ha & Hb) E Hn. symmetry in E.
  apply app_eq_inv in E as [(k & -> & E)|(k & -> & ->)].
  - destruct k as [|c k]; [exists [], b; split_and!; [done|by constructor|done]|]. injection E as <- _. destruct Hn. apply elem_of_app. right. by left.
  - apply Forall_app in Ha as [_ Ha]. by exists k, b.
Qed.
Lemma star_steps p st st' : st' ∈ run (star (RSet p)) st → ∃ u, steps_by u st st' ∧ Forall (λ c, p c = true) u.
Proof. intros (u & s & E & Hu & ->)%run_star_set. exists u. split; [by eapply steps_by_advance|done]. Qed.
Lemma set_steps p st st' : st' ∈ run (RSet p) st → ∃ c, steps_by [c] st st' ∧ p c = true.
Proof. intros (c & s & E & Hc & ->)%run_set. exists c. split; [by apply (steps_by_advance [c] st s)|done]. Qed.
Lemma trail_combinator s tokens :
  trail s → ∃ ts rest, match_combinator s tokens = (tokens ++ ts, rest, negb (bool_decide (ts = []))) ∧ trail rest ∧
    length rest + length ts ≤ length s.
Proof.
  intros Ht. destruct (match_combinator_spec s tokens) as (ts & rest & m & Hm & Hs & -> & Hl).
  exists ts, rest. split_and!; [done| |done]. apply (trail_suffix (toSelector ts) rest s); [done..|].
  unfold match_combinator in Hm. destruct (exec rcombinators s) as [mr|] eqn:E.
  2:{ injection Hm as Hts _ _. rewrite <- (app_nil_r tokens) in Hts at 1. apply app_inv_head in Hts as <-. by apply not_elem_of_nil. }
  injection Hm as Hts _ _. apply app_inv_head in Hts as <-. unfold toSelector. cbn. rewrite app_nil_r.
  apply exec_bol_Some in E as (st' & Hin & _ & _ & Ha & Htext). cbn [seqs] in Hin.
  apply run_seq in Hin as (st1 & (u1 & S1 & Hu1)%star_steps & Hin).
  apply run_seq in Hin as (st2 & (st2' & Hin2 & ->)%run_group & (u3 & S3 & Hu3)%star_steps).
  assert (H2 : ∃ c, steps_by [c] st1 st2' ∧ (c ≠ 44)%N).
  { apply run_alt in Hin2 as [(c & S2 & Hc)%set_steps|(c & S2 & Hc)%set_steps]; exists c; (split; [done|]); intros ->; by vm_compute in Hc. }
  destruct H2 as (c & S2 & Hc).
  assert (Hall : r_text mr = u1 ++ [c] ++ u3).
  { apply (app_inv_tail (r_after mr)). rewrite <- Htext, Ha.
    assert (St : steps_by (u1 ++ [c] ++ u3) (MState 0 s ∅) st') by (do 2 (eapply steps_by_trans; [eassumption|]); exact S3).
    exact (proj1 St). }
  assert (Hws : ∀ u, all_ws u → 44%N ∉ u).
  { intros u Hu Hin. unfold all_ws in Hu. rewrite Forall_forall in Hu. specialize (Hu _ Hin). by rewrite comma_not_ws in Hu. }
  rewrite Hall, elem_of_app. cbn [app]. rewrite elem_of_cons. intros [H1|[H1|H1]]; [by eapply Hws in H1|congruence|by eapply Hws in H1].
Qed.
Lemma trail_comma s s' : trail s → match_comma s = Some s' → s' = s.
Proof.
  intros Ht Hm. apply match_comma_spec in Hm as Hc. destruct Hc as [[? _]|(sep & E & (a1 & b1 & -> & Ha1 & Hb1) & Hne)]; [done|].
  unfold match_comma in Hm. destruct (exec rcomma s) as [m|] eqn:Em; [|done]. apply rcomma_after in Em as Hafter.
  apply exec_bol_Some in Em as (_ & _ & _ & _ & _ & Htext). rewrite Htext, drop_app_length in Hm.
  injection Hm as Hm. destruct (r_after m) as [|c after]; [by rewrite app_nil_r in *; congruence|]. subst s'.
  exfalso. destruct Ht as (a & b & -> & Ha & Hb). symmetry in E.
  assert (Hws : ∀ u v w x, u ++ js "," ++ v = w ++ js "," ++ x → all_ws u → all_ws w → u = w ∧ v = x).
  { clear. intros u v w x E Hu Hw. revert w E Hw. induction Hu as [|c u Hc Hu IH]; intros [|d w] E Hw.
    - by injection E as ->.
    - injection E as <- _. inversion Hw; subst. done.
    - injection E as Ec _. rewrite Ec in Hc. by vm_compute in Hc.
    - injection E as -> E. inversion Hw; subst. by apply IH in E as [-> ->]. }
  rewrite <- !app_assoc in E. apply Hws in E as [_ E]; [|done..]. rewrite <- E in Hb.
  apply Forall_app in Hb as [_ Hb]. inversion Hb; subst. congruence.
Qed.

(** A round of the loop after the comma. *)
Definition excess_in (k : nat) (s : jsstr) : outcome nat :=
  match tokenize_loop k true s [] [] with Ok (_, rest) => Ok (length rest) | Throw e => Throw e end.
Definition round (k : nat) (groups : list (list token)) (tokens : list token) (soFar : jsstr) :
    outcome (list (list token) * jsstr) :=
  let '(tokens, soFar, matched) := match_combinator soFar tokens in
  match match_filters (excess_in k) filter_types soFar tokens matched with
  | Throw e => Throw e
  | Ok (tokens, soFar, matched) =>
      if matched then tokenize_loop k false soFar groups tokens else Ok (groups ++ [tokens], soFar)
  end.
Lemma tokenize_loop_S k first soFar groups tokens :
  soFar ≠ [] →
  tokenize_loop (S k) first soFar groups tokens =
  match (if first then None else match_comma soFar) with
  | Some soFar => round k (groups ++ [tokens]) [] soFar
  | None => round k groups tokens soFar
  end.
Proof. destruct soFar as [|c s]; [done|]. intros _. cbn [tokenize_loop]. by destruct (if first then _ else _). Qed.

(** The loop stops in front of a comma that only white space follows. *)
Lemma trail_loop k soFar groups tokens gs rest :
  trail soFar → tokenize_loop k false soFar groups tokens = Ok (gs, rest) → rest ≠ [].
Proof.
  revert soFar groups tokens. induction k as [|k IH]; intros soFar groups tokens Ht.
  { destruct (trail_head _ Ht) as (c & s & -> & _). done. }
  rewrite tokenize_loop_S by (by destruct (trail_head _ Ht) as (c & s & -> & _)).
  assert (Hr : ∀ groups tokens, round k groups tokens soFar = Ok (gs, rest) → rest ≠ []).
  { intros groups' tokens'. unfold round. destruct (trail_combinator soFar tokens' Ht) as (ts & s' & -> & Ht' & _).
    rewrite trail_filters by done. destruct (negb _); [by apply IH|]. intros [= _ <-].
    by destruct (trail_head _ Ht') as (c & s & -> & _). }
  destruct (match_comma soFar) as [s'|] eqn:Ec; [|by apply Hr]. apply trail_comma in Ec as ->; [|done]. by apply Hr.
Qed.

(** What is added to the groups so far and the tokens of the last one; [strict] when
    something has to be found. *)
Definition extends (strict : bool) (groups : list (list token)) (tokens : list token) (soFar : jsstr)
    (r : outcome (list (list token) * jsstr)) : Prop :=
  match r with
  | Throw e => e ≠ Diverge
  | Ok (gs, rest) => rest = [] → ∃ ts more u,
      gs = groups ++ (tokens ++ ts) :: more ∧ spelled more u ∧ soFar = toSelector ts ++ u ∧
      (strict = true → ts ≠ []) ∧ Forall (λ g, g ≠ []) more
  end.

Lemma round_extends k groups tokens soFar :
  soFar ≠ [] → length soFar ≤ S k →
  (∀ first s groups tokens, length s ≤ k → s ≠ [] → extends first groups tokens s (tokenize_loop k first s groups tokens)) →
  extends true groups tokens soFar (round k groups tokens soFar).
Proof.
  intros Hne Hk IH. unfold round. destruct (match_combinator_spec soFar tokens) as (ts1 & s1 & m & -> & Hs1 & -> & Hl1).
  destruct (match_filters (excess_in k) filter_types s1 (tokens ++ ts1) _) as [[[tk s2] matched]|e] eqn:E.
  2:{ intros ->. revert E. apply match_filters_error. intros s Hs. unfold excess_in.
      destruct (decide (s = [])) as [->|Hs0]; [by destruct k|].
      specialize (IH true s [] [] ltac:(lia) Hs0). destruct (tokenize_loop k true s [] []) as [[gs r]|e]; [done|]. congruence. }
  apply match_filters_spec in E as (ts2 & rest & [= -> -> ->] & Hs2 & Hl2).
  destruct (negb (bool_decide (ts1 = [])) || negb (bool_decide (ts2 = []))) eqn:Em.
  - assert (Hts : ts1 ++ ts2 ≠ []).
    { intros [-> ->]%app_nil. by rewrite !bool_decide_true in Em. }
    assert (Hlen : length rest ≤ k).
    { apply Nat.lt_succ_r. assert (0 < length (ts1 ++ ts2)) by (by destruct (ts1 ++ ts2); [|simpl; lia]).
      rewrite length_app in *. lia. }
    destruct (decide (rest = [])) as [->|Hr].
    { assert (Hl : tokenize_loop k false [] groups ((tokens ++ ts1) ++ ts2) = Ok (groups ++ [(tokens ++ ts1) ++ ts2], []))
        by (by destruct k). rewrite Hl. intros _.
      exists (ts1 ++ ts2), [], []. rewrite <- app_assoc, toSelector_app, app_nil_r. rewrite app_nil_r in Hs2.
      split_and!; [done|done|by rewrite Hs1, Hs2|done|constructor]. }
    specialize (IH false rest groups ((tokens ++ ts1) ++ ts2) Hlen Hr).
    destruct (tokenize_loop _ _ _ _ _) as [[gs r]|e]; [|done]. intros Hr0.
    destruct (IH Hr0) as (ts3 & more & u & -> & Hsp & -> & _ & Hm). exists (ts1 ++ ts2 ++ ts3), more, u.
    rewrite !toSelector_app, Hs1, Hs2, <- !app_assoc. split_and!; [done..| |done].
    intros _. rewrite app_assoc. by destruct (ts1 ++ ts2).
  - apply orb_false_iff in Em as [E1%negb_false_iff%bool_decide_eq_true E2%negb_false_iff%bool_decide_eq_true]. subst.
    intros ->. by destruct Hne.
Qed.

Lemma tokenize_loop_extends k first soFar groups tokens :
  length soFar ≤ k → soFar ≠ [] → extends first groups tokens soFar (tokenize_loop k first soFar groups tokens).
Proof.
  revert first soFar groups tokens. induction k as [|k IH]; intros first soFar groups tokens Hk Hne.
  { destruct soFar; [done|simpl in Hk; lia]. }
  rewrite tokenize_loop_S by done.
  assert (Hr : ∀ g t s, s ≠ [] → length s ≤ S k → extends true g t s (round k g t s)).
  { intros g t s Hs Hl. apply round_extends; [done..|]. intros f s' g' t' ??. by apply IH. }
  destruct (if first then None else match_comma soFar) as [s'|] eqn:Ec.
  2:{ specialize (Hr groups tokens soFar Hne Hk). destruct (round _ _ _ _) as [[gs rest]|e]; [|done]. intros Hrest.
      destruct (Hr Hrest) as (ts & more & u & -> & ? & ? & Hs & ?). exists ts, more, u. split_and!; [done..| |done].
      intros _. by apply Hs. }
  destruct first; [done|]. apply match_comma_spec in Ec as [[-> Ht]|(sep & -> & Hsep & Hs')].
  - specialize (Hr (groups ++ [tokens]) [] soFar Hne Hk). destruct (round _ _ _ _) as [[gs rest]|e] eqn:Er; [|done].
    intros ->. exfalso. unfold round in Er. destruct (trail_combinator soFar [] Ht) as (ts & s2 & Hm & Ht2 & _).
    rewrite Hm, trail_filters in Er by done. destruct (negb _); [by eapply trail_loop in Er|].
    injection Er as _ ->. by destruct (trail_head _ Ht2) as (? & ? & ? & _).
  - rewrite length_app in Hk. specialize (Hr (groups ++ [tokens]) [] s' Hs' ltac:(lia)).
    destruct (round _ _ _ _) as [[gs rest]|e]; [|done]. intros Hrest.
    destruct (Hr Hrest) as (ts & more & u & -> & Hsp & -> & Hts & Hm). exists [], (ts :: more), (sep ++ toSelector ts ++ u).
    rewrite app_nil_r, <- app_assoc. split_and!; [done|by exists sep, u|done|done|].
    constructor; [by apply Hts|done].
Qed.

Lemma tokenize_spelled (selector : jsstr) :
  match tokenize selector with
  | Throw e => e ≠ Diverge
  | Ok [] => selector = []
  | Ok (g :: gs) =>
      ∃ u, selector = toSelector g ++ u ∧ spelled gs u ∧ Forall (λ g, g ≠ []) (g :: gs)
  end.
Proof.
  unfold tokenize. destruct (decide (selector = [])) as [->|Hne]; [done|].
  pose proof (tokenize_loop_extends (S (length selector)) true selector [] [] ltac:(lia) Hne) as He.
  destruct (tokenize_loop _ _ _ _ _) as [[gs [|c rest]]|e]; [|done..].
  destruct (He eq_refl) as (ts & more & u & -> & Hsp & Hs & Hts & Hm). cbn [app].
  exists u. split_and!; [done..|]. constructor; [by apply Hts|done].
Qed.

(** The arguments of pseudos are shorter than the text. *)
Lemma capture_shorter soFar m n : exec r_PSEUDO soFar = Some m → length (capture_str m n) < length (r_text m).
Proof.
  intros (st' & Hin & _ & Hc & Ha & Ht)%exec_bol_Some. cbn [pseudos seqs] in Hin.
  apply run_seq in Hin as (st1 & [S1 C1]%lit_steps & Hin).
  apply run_forward in Hin as Hf. destruct Hf as [u S2]. apply (run_within 1) in Hin as [Hw1 Hw].
  - destruct (steps_by_trans _ _ _ _ _ S1 S2) as [H1 H2]. cbn [m_rest m_pos] in H1, H2.
    assert (Hl : length (r_text m) = m_pos st').
    { rewrite H1, Ha in Ht. apply app_inv_tail in Ht. by rewrite <- Ht, H2. }
    unfold capture_str, capture. rewrite Hc, Hl. destruct (m_caps st' !! n) as [v|] eqn:E; [|cbn; lia]. apply Hw in E. cbn. lia.
  - destruct S1 as [_ S1]. change (length (js ":")) with 1 in S1. cbn in S1.
    split; [lia|]. intros k v Hk. rewrite C1 in Hk. cbn in Hk. by rewrite lookup_empty in Hk.
Qed.
Lemma slice_shorter {A} (l : list A) a b : length (slice l a b) ≤ length l.
Proof. unfold slice, slice_nat. rewrite length_take, length_drop. lia. Qed.
Lemma preFilter_PSEUDO_argument excess soFar m text name a :
  exec r_PSEUDO soFar = Some m → preFilter_PSEUDO excess m = Ok (Some (text, TPseudo name (Some a))) → length a < length soFar.
Proof.
  intros Hm Hp. assert (Hl : ∀ n, length (capture_str m n) < length soFar).
  { intros n. pose proof (capture_shorter _ _ n Hm). apply exec_bol_Some in Hm as (_ & _ & _ & _ & _ & Hs).
    rewrite Hs, length_app. lia. }
  assert (Hplain : ∀ u, capture m 2 = Some u → length u < length soFar).
  { intros u Hu. specialize (Hl 2). unfold capture_str in Hl. by rewrite Hu in Hl. }
  unfold preFilter_PSEUDO in Hp. destruct (test r_CHILD _); [done|]. destruct (capture_str m 3) as [|c3 s3].
  2:{ injection Hp as _ _ <-. unfold first_capture. pose proof (Hl 4). pose proof (Hl 5).
      destruct (capture_str m 4); [destruct (capture_str m 5); cbn in *; lia|done]. }
  destruct (capture_str m 6); [|by injection Hp as _ _ ?; apply Hplain].
  destruct (capture_str m 2) as [|c u] eqn:Eu; [by injection Hp as _ _ ?; apply Hplain|].
  destruct (test rpseudo _); [|by injection Hp as _ _ ?; apply Hplain].
  destruct (excess _) as [[|n]|]; [by injection Hp as _ _ ?; apply Hplain| |done].
  injection Hp as _ _ <-. eapply Nat.le_lt_trans; [apply slice_shorter|]. rewrite <- Eu. apply Hl.
Qed.
Lemma match_filter_argument excess ty soFar text name a :
  match_filter excess ty soFar = Ok (Some (text, TPseudo name (Some a))) → length a < length soFar.
Proof.
  destruct ty; cbn [match_filter].
  - by destruct (exec r_TAG soFar).
  - by destruct (exec r_CLASS soFar).
  - by destruct (exec r_ATTR soFar).
  - destruct (exec r_CHILD soFar) as [m|]; [|done]. unfold preFilter_CHILD.
    by destruct (is_nth _), (capture_str m 3).
  - destruct (exec r_PSEUDO soFar) as [m|] eqn:E; [|done]. by apply preFilter_PSEUDO_argument.
  - by destruct (exec r_ID soFar).
Qed.
Definition argument_below (L : nat) (t : token) : Prop := ∀ name a, type t = TPseudo name (Some a) → length a < L.
Lemma match_filters_argument L excess tys soFar tokens matched r :
  length soFar ≤ L → Forall (argument_below L) tokens → match_filters excess tys soFar tokens matched = Ok r →
  Forall (argument_below L) r.1.1.
Proof.
  revert soFar tokens matched. induction tys as [|ty tys IH]; intros soFar tokens matched Hl Ht; cbn [match_filters].
  - by intros [= <-].
  - destruct (match_filter excess ty soFar) as [[[text t]|]|] eqn:E; [| |done]; [|by apply IH].
    apply IH; [rewrite length_drop; lia|]. apply Forall_app. split; [done|]. constructor; [|constructor].
    intros name a Ha. cbn in Ha. subst t. apply match_filter_argument in E. lia.
Qed.
Lemma tokenize_loop_argument L k first soFar groups tokens gs rest :
  length soFar ≤ L → Forall (Forall (argument_below L)) groups → Forall (argument_below L) tokens →
  tokenize_loop k first soFar groups tokens = Ok (gs, rest) → Forall (Forall (argument_below L)) gs.
Proof.
  revert first soFar groups tokens. induction k as [|k IH]; intros first soFar groups tokens Hl Hg Ht;
    (destruct (decide (soFar = [])) as [->|Hne];
      [cbn; intros [= <- _]; destruct first; [done|]; apply Forall_app; by repeat constructor|]); [by destruct soFar|].
  rewrite tokenize_loop_S by done.
  assert (Hr : ∀ g t s, length s ≤ L → Forall (Forall (argument_below L)) g → Forall (argument_below L) t →
    round k g t s = Ok (gs, rest) → Forall (Forall (argument_below L)) gs).
  { intros g t s Hs Hg' Ht'. unfold round. unfold match_combinator. destruct (exec rcombinators s) as [m|].
    - destruct (match_filters _ _ _ _ _) as [[[tk s2] md]|e] eqn:E; [|done].
      pose proof (match_filters_spec _ _ _ _ _ _ E) as (ts & r & [= -> -> ->] & _ & Hlen).
      apply (match_filters_argument L) in E; [|rewrite length_drop; lia|apply Forall_app; split; [done|by repeat constructor]].
      cbn [fst] in E. rewrite length_drop in Hlen.
      apply IH; [lia|done|done].
    - destruct (match_filters _ _ _ _ _) as [[[tk s2] md]|e] eqn:E; [|done].
      pose proof (match_filters_spec _ _ _ _ _ _ E) as (ts & r & [= -> -> ->] & _ & Hlen).
      apply (match_filters_argument L) in E; [|done..]. cbn [fst] in E.
      match goal with |- (if ?b then _ else _) = _ → _ => destruct b end; [apply IH; [lia|done|done]|]. intros [= <- _]. apply Forall_app. by repeat constructor. }
  destruct (if first then None else match_comma soFar) as [s'|] eqn:Ec; [|by apply Hr]. destruct first; [done|].
  apply Hr; [|apply Forall_app; by repeat constructor|constructor].
  apply match_comma_spec in Ec as [[-> _]|(sep & -> & _)]; [done|]. rewrite length_app in Hl. lia.
Qed.
Lemma tokenize_argument selector gs :
  tokenize selector = Ok gs → Forall (Forall (argument_below (length selector))) gs.
Proof.
  unfold tokenize. destruct (tokenize_loop _ _ _ _ _) as [[g [|c rest]]|] eqn:E; [|done..]. intros [= <-].
  by eapply tokenize_loop_argument in E.
Qed.
Lemma trim_shorter s : length (trim_ws s) ≤ length s.
Proof. apply replace_all_shorter. intros pos rest m. apply match_at_capture. Qed.

(** C10: [tokenize] ends on every text, and the tokens it returns spell the text: the
    groups, each printed by [toSelector], separated by the commas, are the selector
    itself, without gaps; and no group is empty.  Otherwise it throws. *)
Theorem tokenize_covers (selector : jsstr) :
  match tokenize selector with
  | Throw e => e ≠ Diverge
  | Ok [] => selector = []
  | Ok (g :: gs) =>
      ∃ u, selector = toSelector g ++ u ∧ spelled gs u ∧ Forall (λ g, g ≠ []) (g :: gs)
  end.
Proof. apply tokenize_spelled. Qed.
End facts.
End Tokens.
