(* ===== verification/SzMatch.v ===== *)
(** * Matchers of the selector engine in jquery.js (Sizzle)

    What [compile] makes of a selector: functions from elements to booleans.  Those that
    keep nothing are functions here ([MTest]); the others are a data type, so that the
    names that their caches are kept under can be seen.  [eval] runs a matcher with the
    caches that the engine puts on elements; [sem] is what it means, without them. *)

From stdpp Require Import base tactics list strings numbers sets gmap.
From Stdlib Require Import NArith ZArith Lia.
From S2P Require Import Prelude.
From S2P Require Import JsString.
From S2P Require Import Regex.
From S2P Require Import SzTree.
From S2P Require Import SzTokens.
Import Tree Tokens.

Module Matchers.

#[export] Instance dir_countable : Countable dir.
Proof.
  refine (inj_countable' (λ d, match d with parentNode => 0 | previousSibling => 1 | nextSibling => 2 end)
    (λ n, match n with 0 => parentNode | 1 => previousSibling | _ => nextSibling end) _).
  by intros [].
Defined.

(** [Expr.relative]: the link and whether only the closest element is checked. *)
Definition relative : Type := dir * bool.
Definition relative_of (type : jsstr) : relative :=
  if str_eqb type (js ">") then (parentNode, true)
  else if str_eqb type (js "+") then (previousSibling, true)
  else if str_eqb type (js "~") then (previousSibling, false)
  else (parentNode, false).

(** The functions that [addCombinator], [elementMatcher], [matcherFromTokens] and the
    filters return.  [MCall] is a function that may throw; [MNth] is a CHILD filter that caches; [MNot] holds the element
    matchers of the function that [compile] made of its argument. *)
Inductive matcher :=
  | MTest (f : path → bool)
  | MCall (f : path → outcome bool)
  | MNth (backward : bool) (first last : Z)
  | MNot (elementMatchers : list matcher)
  | MHas (selector : jsstr)
  | MComb (rel : relative) (doneName : nat) (sub : matcher)
  | MContext (leadingRelative : bool) (rel : relative) (doneContext doneAny : nat)
  | MAll (matchers : list matcher).

Definition elementMatcher (matchers : list matcher) : matcher :=
  match matchers with [m] => m | _ => MAll matchers end.

(** ** Loops of the matchers, for any store *)

Section loops.
Context {S A : Type}.
(** [while (j < length)] up to the first matcher that agrees. *)
Definition any_of (f : A → M S bool) : list A → M S bool :=
  fix go l := match l with
    | [] => mret false
    | a :: l => b ← f a; if (b : bool) then mret true else go l
    end.
(** [while (i--)] down to the first matcher that fails. *)
Definition all_from_last (f : A → M S bool) : list A → M S bool :=
  fix go l := match l with
    | [] => mret true
    | a :: l => b ← go l; if (b : bool) then f a else mret false
    end.
(** The nodes of a walk: the closest one that is checked, or all of them. *)
Definition closest (check : A → bool) (f : A → M S bool) : list A → M S bool :=
  fix go l := match l with
    | [] => mret false
    | a :: l => if check a then f a else go l
    end.
Definition any_on (check : A → bool) (f : A → M S bool) : list A → M S bool :=
  fix go l := match l with
    | [] => mret false
    | a :: l => if check a then (b ← f a; if (b : bool) then mret true else go l) else go l
    end.
End loops.

(** ** The store of the engine *)

(** What a matcher is called with: null (in [:not]), a node, or an array. *)
Inductive ctx := CNull | CNode (p : path) | CNodes (l : list path).
(** [outermostContext]: it is false for the document. *)
Inductive outermost_ctx := OUndefined | OFalse | ONode (p : path).
#[export] Instance outermost_ctx_eq_dec : EqDecision outermost_ctx.
Proof. solve_decision. Defined.
(** [[dirruns, doneName, value]], an array that several elements share; undefined is
    [None], and any other value is its truth. *)
Record cell := Cell { c_run : Z; c_done : nat; c_value : option bool }.

Record engine := Engine {
  dirruns : Z;                               (* in units of 2^-53 *)
  runs : list Z;                             (* what dirruns has been, newest first *)
  outermostContext : outermost_ctx;
  cells : list cell;
  dircache : gmap (path * dir) nat;          (* elem[expando][dir] *)
  nth_cache : gmap path (Z * nat * nat);     (* parent[expando]["nth"] *)
  nth_last_cache : gmap path (Z * nat);      (* elem[expando]["nth-last"] *)
}.
Definition set_run t s :=
  Engine t (runs s) (outermostContext s) (cells s) (dircache s) (nth_cache s) (nth_last_cache s).
Definition start_run t s :=
  Engine t (t :: runs s) (outermostContext s) (cells s) (dircache s) (nth_cache s) (nth_last_cache s).
Definition set_outermost o s :=
  Engine (dirruns s) (runs s) o (cells s) (dircache s) (nth_cache s) (nth_last_cache s).
Definition set_cells l s :=
  Engine (dirruns s) (runs s) (outermostContext s) l (dircache s) (nth_cache s) (nth_last_cache s).
Definition set_dircache m s :=
  Engine (dirruns s) (runs s) (outermostContext s) (cells s) m (nth_cache s) (nth_last_cache s).
Definition set_nth m s :=
  Engine (dirruns s) (runs s) (outermostContext s) (cells s) (dircache s) m (nth_last_cache s).
Definition set_nth_last m s :=
  Engine (dirruns s) (runs s) (outermostContext s) (cells s) (dircache s) (nth_cache s) m.
Definition engine0 : engine := Engine 0 [0%Z] OUndefined [] ∅ ∅ ∅.

Section page.
Variable page : list tree.
Variable documentIsHTML : bool.
Local Abbreviation xml := (negb documentIsHTML).
Local Abbreviation node_info := (node_info page).
Local Abbreviation along := (along page).
Local Abbreviation is_element := (is_element page).

(** [dirruns += Math.random() || 0.1] for the run with the number [n]. *)
Variable nested_run : nat → Z → Z.
(** [dirrunsUnique = (dirruns += contextBackup == null ? 1 : Math.random() || 0.1)]. *)
Definition next_run : M engine Z :=
  s ← get;
  let t := match outermostContext s with
    | OUndefined => (dirruns s + 2 ^ 53)%Z
    | _ => nested_run (length (runs s)) (dirruns s)
    end in
  _ ← put (start_run t s); mret t.

(** ** Combinators *)

Definition checks (base : bool) (d : dir) (p : path) : bool := is_element p || (base && bool_decide (d = parentNode)).

(** The second loop of [addCombinator]; [newCache] is the number of its cell. *)
Definition cached_any (d : dir) (doneName newCache : nat) (check : path → bool) (f : path → M engine bool) :
    list path → M engine bool :=
  fix go l := match l with
    | [] => mret false
    | elem :: l =>
        if check elem then
          s ← get;
          let write (v : option bool) : M engine unit :=
            modify (λ s, set_cells (alter (λ x, Cell (c_run x) (c_done x) v) newCache (cells s)) s) in
          match dircache s !! (elem, d) ≫= (λ c, cells s !! c) with
          | Some x =>
              if (c_run x =? dirruns s)%Z && (c_done x =? doneName) then
                _ ← write (c_value x); mret (default false (c_value x))
              else
                _ ← modify (λ s, set_dircache (<[(elem, d) := newCache]> (dircache s)) s);
                b ← f elem; _ ← write (Some b); if (b : bool) then mret true else go l
          | None =>
              _ ← modify (λ s, set_dircache (<[(elem, d) := newCache]> (dircache s)) s);
              b ← f elem; _ ← write (Some b); if (b : bool) then mret true else go l
          end
        else go l
    end.
(** What [addCombinator(matcher, combinator, base)] returns, called on [elem]. *)
Definition combinator (rel : relative) (base : bool) (doneName : nat) (f : path → M engine bool) (elem : path) :
    M engine bool :=
  let '(d, first) := rel in
  if first then closest (checks base d) f (along d elem)
  else if xml then any_on (checks base d) f (along d elem)
  else
    s ← get;
    _ ← put (set_cells (cells s ++ [Cell (dirruns s) doneName None]) s);
    cached_any d doneName (length (cells s)) (checks base d) f (along d elem).

(** ** Positions among siblings *)

(** [diff === first || (diff % first === 0 && diff / first >= 0)] after [diff -= last].  The
    numbers are exact here and doubles in the browser: they agree as long as the numbers of the
    selector are at most 2^52, since positions are small. *)
Definition nth_check (first last : Z) (position : nat) : bool :=
  let diff := (Z.of_nat position - last)%Z in
  (diff =? first)%Z || (negb (first =? 0)%Z && (Z.rem diff first =? 0)%Z && (0 <=? Z.quot diff first)%Z).
(** The loop that seeks [elem] among [l], the first of which has the index [i], with
    [diff] counted before: the index and the count where it is found. *)
Fixpoint seek (counts : path → bool) (elem : path) (l : list path) (i diff : nat) : option (nat * nat) :=
  match l with
  | [] => None
  | node :: l =>
      if counts node then
        if bool_decide (node = elem) then Some (i, S diff) else seek counts elem l (S i) (S diff)
      else seek counts elem l (S i) diff
  end.
Definition position (counts : path → bool) (elem : path) (l : list path) : nat :=
  match seek counts elem l 0 0 with Some (_, diff) => diff | None => 0 end.
(** From the index that the cache of the parent holds, then from the start. *)
Definition nth_forward (parent elem : path) : M engine nat :=
  s ← get;
  let nodes := childNodes page parent in
  let found :=
    match nth_cache s !! parent with
    | Some (run, S k as i, diff) =>
        if (run =? dirruns s)%Z then seek is_element elem (drop (S i) nodes) (S i) diff else None
    | _ => None
    end in
  match (match found with Some r => Some r | None => seek is_element elem nodes 0 0 end) with
  | Some (i, diff) => _ ← put (set_nth (<[parent := (dirruns s, i, diff)]> (nth_cache s)) s); mret diff
  | None => mret 0
  end.
(** Backwards, with a cache on every element that the loop counts. *)
Fixpoint count_back (elem : path) (l : list path) (diff : nat) : M engine nat :=
  match l with
  | [] => mret 0
  | node :: l =>
      if is_element node then
        _ ← modify (λ s, set_nth_last (<[node := (dirruns s, S diff)]> (nth_last_cache s)) s);
        if bool_decide (node = elem) then mret (S diff) else count_back elem l (S diff)
      else count_back elem l diff
  end.
Definition nth_backward (parent elem : path) : M engine nat :=
  s ← get;
  match nth_last_cache s !! elem with
  | Some (run, diff) =>
      if (run =? dirruns s)%Z then mret diff else count_back elem (reverse (childNodes page parent)) 0
  | None => count_back elem (reverse (childNodes page parent)) 0
  end.

(** ** Running matchers *)

(** [Sizzle(selector, elem)], for [:has]. *)
Variable sizzle : jsstr → path → M engine (list path).

(** [checkContext], [matchContext] and [matchAnyContext], and the foundational matcher
    that checks with them that the context is reached. *)
Definition reaches_context (rel : relative) (doneContext doneAny : nat) (elem : path) (context : ctx) : M engine bool :=
  match context with
  | CNull => throw TypeError
  | CNode p => combinator rel true doneContext (λ e, mret (bool_decide (e = p))) elem
  | CNodes ps => combinator rel true doneAny (λ e, mret (bool_decide (e ∈ ps))) elem
  end.
Definition same_context (context : ctx) (o : outermost_ctx) : bool :=
  match context, o with CNode p, ONode q => bool_decide (p = q) | _, _ => false end.
Definition foundational (leading : bool) (rel : relative) (doneContext doneAny : nat) (elem : path) (context : ctx) :
    M engine bool :=
  s ← get;
  if negb leading && (xml || negb (same_context context (outermostContext s))) then mret true
  else reaches_context rel doneContext doneAny elem context.

(** Calling a function that the compiler made; the cases of [:not] and [:has] are those
    of [Expr.pseudos]. *)
Fixpoint eval (m : matcher) (elem : path) (context : ctx) : M engine bool :=
  match m with
  | MTest f => mret (f elem)
  | MCall f => λ s, (f elem, s)
  | MNth backward first last =>
      match step page parentNode elem with
      | None => mret false
      | Some parent =>
          diff ← (if backward then nth_backward parent elem else nth_forward parent elem);
          mret (nth_check first last diff)
      end
  | MNot ms =>
      (* the function made of the argument, with the element as seed and no context *)
      _ ← next_run;
      b ← any_of (λ n, eval n elem CNull) ms;
      mret (negb b)
  | MHas selector => found ← sizzle selector elem; mret (match found with [] => false | _ => true end)
  | MComb rel doneName sub => combinator rel false doneName (λ e, eval sub e context) elem
  | MContext leading rel doneContext doneAny => foundational leading rel doneContext doneAny elem context
  | MAll ms => all_from_last (λ n, eval n elem context) ms
  end.

(** The loop of [superMatcher] over its elements, when it has no set matchers. *)
Fixpoint match_elements (ms : list matcher) (context : ctx) (unique : option Z) (elems : list path) :
    M engine (list path) :=
  match elems with
  | [] => mret []
  | elem :: elems =>
      b ← any_of (λ m, eval m elem context) ms;
      _ ← modify (λ s, match unique with Some t => set_run t s | None => s end);
      found ← match_elements ms context unique elems;
      mret (if (b : bool) then elem :: found else found)
  end.
(** [superMatcher(elems, context, xml, [], outermost)]: [outermost] is whether it was
    given, and [document] the document. *)
Definition superMatcher (document : path) (ms : list matcher) (elems : list path) (context : path) (outermost : bool) :
    M engine (list path) :=
  s ← get;
  let contextBackup := outermostContext s in
  t ← next_run;
  if outermost then
    _ ← modify (set_outermost (if bool_decide (context = document) then OFalse else ONode context));
    found ← match_elements ms (CNode context) (Some t) elems;
    _ ← modify (λ s, set_outermost contextBackup (set_run t s));
    mret found
  else match_elements ms (CNode context) None elems.
End page.

(** ** What a matcher means *)

Section meaning.
Variable page : list tree.
Variable documentIsHTML : bool.
(** Whether [:has(selector)] holds of an element. *)
Variable has_match : jsstr → path → M unit bool.
Variable outermost : outermost_ctx.
Local Abbreviation along := (along page).
Local Abbreviation checks := (checks page).
Local Abbreviation is_element := (is_element page).

(** One node on the way that a relation leads, or the closest that is checked. *)
Definition related (rel : relative) (base : bool) (f : path → M unit bool) (elem : path) : M unit bool :=
  let '(d, first) := rel in
  (if (first : bool) then closest else any_on) (checks base d) f (along d elem).
Definition is_context (context : ctx) (elem : path) : bool :=
  match context with
  | CNull => false
  | CNode p => bool_decide (elem = p)
  | CNodes ps => bool_decide (elem ∈ ps)
  end.
Definition within (leading : bool) (rel : relative) (elem : path) (context : ctx) : M unit bool :=
  if negb leading && (negb documentIsHTML || negb (same_context context outermost)) then mret true
  else match context with
    | CNull => throw TypeError
    | _ => related rel true (λ e, mret (is_context context e)) elem
    end.

Fixpoint sem (m : matcher) (elem : path) (context : ctx) : M unit bool :=
  match m with
  | MTest f => mret (f elem)
  | MCall f => λ s, (f elem, s)
  | MNth backward first last =>
      match step page parentNode elem with
      | None => mret false
      | Some parent =>
          let nodes := childNodes page parent in
          mret (nth_check first last (position is_element elem (if backward then reverse nodes else nodes)))
      end
  | MNot ms => b ← any_of (λ n, sem n elem CNull) ms; mret (negb b)
  | MHas selector => has_match selector elem
  | MComb rel _ sub => related rel false (λ e, sem sub e context) elem
  | MContext leading rel _ _ => within leading rel elem context
  | MAll ms => all_from_last (λ n, sem n elem context) ms
  end.

(** The names that a matcher keeps results under, with the link and the verdict that
    belong to each: whether one of the nodes from [e] on is right. *)
Fixpoint own (m : matcher) : list nat :=
  match m with
  | MComb _ doneName sub => doneName :: own sub
  | MContext _ _ d1 d2 => [d1; d2]
  | MAll ms => ms ≫= own
  | _ => []
  end.
Definition verdict : Type := dir * (path → M unit bool).
Definition verdict_of (rel : relative) (base : bool) (f : path → M unit bool) : verdict :=
  (rel.1, λ e, any_on (checks base rel.1) f (e :: along rel.1 e)).
Fixpoint combs (m : matcher) (context : ctx) : list (nat * verdict) :=
  match m with
  | MComb rel doneName sub => (doneName, verdict_of rel false (λ e, sem sub e context)) :: combs sub context
  | MContext _ rel d1 d2 =>
      match context with
      | CNull => []
      | CNode _ => [(d1, verdict_of rel true (λ e, mret (is_context context e)))]
      | CNodes _ => [(d2, verdict_of rel true (λ e, mret (is_context context e)))]
      end
  | MAll ms => ms ≫= λ n, combs n context
  | _ => []
  end.
(** The names that the functions in it use: those of [:not], at any depth. *)
Fixpoint nested (m : matcher) : list nat :=
  match m with
  | MNot ms => (ms ≫= own) ++ (ms ≫= nested)
  | MComb _ _ sub => nested sub
  | MAll ms => ms ≫= nested
  | _ => []
  end.
End meaning.

(** What the compiler gives: the names of one function differ from each other, and from
    those that the functions in it use. *)
Definition separate (ms : list matcher) : Prop :=
  NoDup (ms ≫= own) ∧ ∀ d, d ∈ ms ≫= own → d ∉ ms ≫= nested.
Fixpoint well_named (m : matcher) : Prop :=
  match m with
  | MNot ms => separate ms ∧ foldr (λ n P, well_named n ∧ P) True ms
  | MComb _ _ sub => well_named sub
  | MAll ms => foldr (λ n P, well_named n ∧ P) True ms
  | _ => True
  end.

(** Induction with hypotheses for the matchers in lists. *)
Lemma matcher_nested_ind (P : matcher → Prop) :
  (∀ f, P (MTest f)) → (∀ f, P (MCall f)) → (∀ b i j, P (MNth b i j)) → (∀ ms, Forall P ms → P (MNot ms)) → (∀ q, P (MHas q)) →
  (∀ rel d m, P m → P (MComb rel d m)) → (∀ l rel d1 d2, P (MContext l rel d1 d2)) → (∀ ms, Forall P ms → P (MAll ms)) →
  ∀ m, P m.
Proof.
  intros H1 H0 H2 H3 H4 H5 H6 H7. fix IH 1. intros [f|f|b i j|ms|q|rel d m|l rel d1 d2|ms]; [apply H1|apply H0|apply H2| |apply H4|by apply H5|apply H6|].
  - apply H3. induction ms as [|m ms IHms]; constructor; [apply IH|apply IHms].
  - apply H7. induction ms as [|m ms IHms]; constructor; [apply IH|apply IHms].
Qed.

(** ** The runs only grow *)

Definition grows {A} (m : M engine A) : Prop := ∀ s, ∃ new, runs (m s).2 = new ++ runs s.
Create HintDb grows.

Lemma grows_ret {A} (a : A) : grows (mret a).
Proof. intros s. by exists []. Qed.
Lemma grows_throw {A} e : grows (throw e : M engine A).
Proof. intros s. by exists []. Qed.
Lemma grows_bind {A B} (m : M engine A) (k : A → M engine B) : grows m → (∀ a, grows (k a)) → grows (m ≫= k).
Proof.
  intros Hm Hk s. unfold mbind, M_bind. destruct (Hm s) as [new Hn]. destruct (m s) as [[a|e] s1]; [|by exists new].
  destruct (Hk a s1) as [new' Hn']. exists (new' ++ new). rewrite Hn'. cbn in Hn. by rewrite Hn, app_assoc.
Qed.
Lemma grows_get {B} (k : engine → M engine B) : (∀ s, grows (k s)) → grows (get ≫= k).
Proof. intros Hk s. exact (Hk s s). Qed.
Lemma grows_get_put {B} f (k : engine → unit → M engine B) :
  (∀ s, runs (f s) = runs s) → (∀ s u, grows (k s u)) → grows (s ← get; put (f s) ≫= k s).
Proof. intros Hf Hk s. destruct (Hk s tt (f s)) as [new Hn]. exists new. rewrite Hf in Hn. exact Hn. Qed.
Lemma grows_modify f : (∀ s, runs (f s) = runs s) → grows (modify f).
Proof. intros Hf s. exists []. apply Hf. Qed.
Lemma grows_any_of {A} (f : A → M engine bool) l : (∀ a, a ∈ l → grows (f a)) → grows (any_of f l).
Proof.
  induction l as [|a l IH]; intros Hf; cbn; [apply grows_ret|]. apply grows_bind; [apply Hf; by left|].
  intros []; [apply grows_ret|]. apply IH. intros b Hb. apply Hf. by right.
Qed.
Lemma grows_all {A} (f : A → M engine bool) l : (∀ a, a ∈ l → grows (f a)) → grows (all_from_last f l).
Proof.
  induction l as [|a l IH]; intros Hf; cbn; [apply grows_ret|]. apply grows_bind; [apply IH; intros b Hb; apply Hf; by right|].
  intros []; [|apply grows_ret]. apply Hf. by left.
Qed.
Lemma grows_closest {A} check (f : A → M engine bool) l : (∀ a, grows (f a)) → grows (closest check f l).
Proof. intros Hf. induction l as [|a l IH]; cbn; [apply grows_ret|]. by destruct (check a). Qed.
Lemma grows_any_on {A} check (f : A → M engine bool) l : (∀ a, grows (f a)) → grows (any_on check f l).
Proof.
  intros Hf. induction l as [|a l IH]; cbn; [apply grows_ret|]. destruct (check a); [|done].
  apply grows_bind; [done|]. intros []; [apply grows_ret|done].
Qed.
#[export] Hint Resolve grows_ret grows_throw grows_bind grows_get grows_modify grows_any_of grows_all grows_closest grows_any_on : grows.

Section runs.
Variable page : list tree.
Variable documentIsHTML : bool.
Variable nested_run : nat → Z → Z.
Variable sizzle : jsstr → path → M engine (list path).
Hypothesis sizzle_grows : ∀ q e, grows (sizzle q e).

Lemma next_run_grows : grows (next_run nested_run).
Proof. intros s. unfold next_run. cbn. destruct (outermostContext s); by eexists [_]. Qed.
Lemma cached_any_grows d doneName c check f l : (∀ e, grows (f e)) → grows (cached_any d doneName c check f l).
Proof.
  intros Hf. induction l as [|e l IH]; cbn [cached_any]; [auto with grows|]. fold (cached_any d doneName c check f).
  destruct (check e); [|done]. apply grows_get. intros s.
  assert (Hmiss : grows (_ ← modify (λ s, set_dircache (<[(e, d) := c]> (dircache s)) s); b ← f e;
    _ ← modify (λ s, set_cells (alter (λ x, Cell (c_run x) (c_done x) (Some b)) c (cells s)) s);
    if (b : bool) then mret true else cached_any d doneName c check f l)).
  { apply grows_bind; [by apply grows_modify|]. intros _. apply grows_bind; [done|]. intros b.
    apply grows_bind; [by apply grows_modify|]. intros _. destruct b; [apply grows_ret|done]. }
  destruct (_ ≫= _) as [x|]; [|done]. destruct (_ && _); [|done].
  apply grows_bind; [by apply grows_modify|]. intros _. apply grows_ret.
Qed.
Lemma combinator_grows rel base doneName f elem : (∀ e, grows (f e)) → grows (combinator page documentIsHTML rel base doneName f elem).
Proof.
  intros Hf. unfold combinator. destruct rel as [d []]; [by apply grows_closest|].
  destruct (negb documentIsHTML); [by apply grows_any_on|]. apply grows_get_put; [done|].
  intros s _. by apply cached_any_grows.
Qed.
(** Positions are found without a new run. *)
Lemma count_back_runs elem l diff s : runs (count_back page elem l diff s).2 = runs s.
Proof.
  revert diff s. induction l as [|e l IH]; intros diff s; cbn [count_back]; [done|].
  destruct (is_element page e); [|done]. unfold modify, mbind, M_bind. case_bool_decide; [done|]. by rewrite IH.
Qed.
Lemma nth_forward_runs parent elem s : runs (nth_forward page parent elem s).2 = runs s.
Proof. unfold nth_forward, get, put, mbind, M_bind. by repeat case_match; simplify_eq. Qed.
Lemma nth_backward_runs parent elem s : runs (nth_backward page parent elem s).2 = runs s.
Proof.
  unfold nth_backward, get, mbind, M_bind. destruct (nth_last_cache s !! elem) as [[run diff]|]; [|apply count_back_runs].
  destruct (run =? dirruns s)%Z; [done|apply count_back_runs].
Qed.
Lemma nth_runs (backward : bool) parent elem s :
  runs ((if backward then nth_backward page parent elem else nth_forward page parent elem) s).2 = runs s.
Proof. destruct backward; [apply nth_backward_runs|apply nth_forward_runs]. Qed.
Lemma eval_grows m elem context : grows (eval page documentIsHTML nested_run sizzle m elem context).
Proof.
  revert elem context.
  induction m as [f|f|b i j|ms IH|q|rel d m IH|l rel d1 d2|ms IH] using matcher_nested_ind; intros elem context; cbn [eval].
  - apply grows_ret.
  - intros s. by exists [].
  - destruct (step page parentNode elem) as [parent|]; [|apply grows_ret].
    apply grows_bind; [intros s; exists []; apply nth_runs|]. intros n. apply grows_ret.
  - apply grows_bind; [apply next_run_grows|]. intros _. rewrite Forall_forall in IH. auto with grows.
  - auto with grows.
  - by apply combinator_grows.
  - unfold foundational. apply grows_get. intros s. destruct (_ && _); [apply grows_ret|]. unfold reaches_context.
    destruct context; [apply grows_throw|apply combinator_grows..]; intros e; apply grows_ret.
  - rewrite Forall_forall in IH. auto with grows.
Qed.
End runs.

(** ** Agreement of a computation with caches and one without *)

Definition returns {A} (o : outcome A) : Prop := match o with Ok _ => True | Throw _ => False end.
(** From a store in [P], and when no run number was drawn twice: the same result, and a
    store in [Q] when it returns. *)
Definition agree {A} (P Q : engine → Prop) (m : M engine A) (m0 : M unit A) : Prop :=
  ∀ s, P s → NoDup (runs (m s).2) → (m s).1 = (m0 tt).1 ∧ (returns (m s).1 → Q (m s).2).

Lemma agree_ret {A} (P : engine → Prop) (a : A) : agree P P (mret a) (mret a).
Proof. by intros s Hs _. Qed.
Lemma agree_throw {A} (P Q : engine → Prop) e : agree P Q (throw e : M engine A) (throw e).
Proof. by intros s Hs _. Qed.
Lemma agree_bind_eq {A B} P Q R (m : M engine A) m0 (k : A → M engine B) k0 :
  agree P Q m m0 → (∀ a, grows (k a)) → (∀ a, (m0 tt).1 = Ok a → agree Q R (k a) (k0 a)) → agree P R (m ≫= k) (m0 ≫= k0).
Proof.
  intros Hm Hg Hk s Hs. specialize (Hm s Hs). unfold mbind, M_bind.
  destruct (m s) as [[a|e] s1], (m0 tt) as [o []]; cbn in *.
  - intros Hd. destruct (Hg a s1) as [new Hn].
    destruct Hm as [<- HQ]. { rewrite Hn in Hd. by apply NoDup_app in Hd as (_ & _ & ?). }
    apply Hk; [done|by apply HQ|done].
  - intros Hd. destruct Hm as [<- _]; [done|]. done.
Qed.
Lemma agree_bind {A B} P Q R (m : M engine A) m0 (k : A → M engine B) k0 :
  agree P Q m m0 → (∀ a, grows (k a)) → (∀ a, agree Q R (k a) (k0 a)) → agree P R (m ≫= k) (m0 ≫= k0).
Proof. intros Hm Hg Hk. eapply agree_bind_eq; [done..|]. intros a _. apply Hk. Qed.
Lemma agree_modify {B} (P Q R : engine → Prop) f (k : M engine B) k0 :
  (∀ s, P s → Q (f s)) → agree Q R k k0 → agree P R (_ ← modify f; k) k0.
Proof. intros Hf Hk s Hs. exact (Hk (f s) (Hf s Hs)). Qed.
Lemma agree_get {B} P R (k : engine → M engine B) m0 :
  (∀ s, P s → agree (λ s', s' = s) R (k s) m0) → agree P R (get ≫= k) m0.
Proof. intros Hk s Hs. by apply (Hk s Hs s). Qed.
Lemma agree_any_of {A} P (f : A → M engine bool) f0 l :
  (∀ a, a ∈ l → grows (f a)) → (∀ a, a ∈ l → agree P P (f a) (f0 a)) → agree P P (any_of f l) (any_of f0 l).
Proof.
  induction l as [|a l IH]; intros Hg Hf; cbn; [apply agree_ret|].
  assert (Hg' : ∀ b, b ∈ l → grows (f b)) by (intros b Hb; apply Hg; by right).
  eapply agree_bind; [apply Hf; by left| |].
  - intros []; [apply grows_ret|by apply grows_any_of].
  - intros []; [apply agree_ret|]. apply IH; [done|]. intros b Hb. apply Hf. by right.
Qed.
Lemma agree_all {A} P (f : A → M engine bool) f0 l :
  (∀ a, a ∈ l → grows (f a)) → (∀ a, a ∈ l → agree P P (f a) (f0 a)) →
  agree P P (all_from_last f l) (all_from_last f0 l).
Proof.
  induction l as [|a l IH]; intros Hg Hf; cbn; [apply agree_ret|]. eapply agree_bind.
  - apply IH; intros b Hb; [apply Hg|apply Hf]; by right.
  - intros []; [apply Hg; by left|apply grows_ret].
  - intros []; [apply Hf; by left|apply agree_ret].
Qed.
Lemma agree_closest {A} P check (f : A → M engine bool) f0 l :
  (∀ a, agree P P (f a) (f0 a)) → agree P P (closest check f l) (closest check f0 l).
Proof. intros Hf. induction l as [|a l IH]; cbn; [apply agree_ret|]. by destruct (check a). Qed.
Lemma agree_any_on {A} P check (f : A → M engine bool) f0 l :
  (∀ a, grows (f a)) → (∀ a, agree P P (f a) (f0 a)) → agree P P (any_on check f l) (any_on check f0 l).
Proof.
  intros Hg Hf. induction l as [|a l IH]; cbn; [apply agree_ret|]. destruct (check a); [|done].
  eapply agree_bind; [apply Hf| |].
  - intros []; [apply grows_ret|by apply grows_any_on].
  - intros []; [apply agree_ret|done].
Qed.

(** ** Seeking a position *)

Section seek.
Variable counts : path → bool.
Definition count (l : list path) : nat := length (base.filter (λ p, counts p = true) l).
Lemma count_cons p l : count (p :: l) = (if counts p then 1 else 0) + count l.
Proof. unfold count. rewrite filter_cons. by destruct (counts p); case_decide. Qed.
Lemma count_app l1 l2 : count (l1 ++ l2) = count l1 + count l2.
Proof. unfold count. by rewrite filter_app, length_app. Qed.
Lemma seek_app elem l1 l2 i diff :
  seek counts elem (l1 ++ l2) i diff =
  match seek counts elem l1 i diff with
  | Some r => Some r
  | None => seek counts elem l2 (i + length l1) (diff + count l1)
  end.
Proof.
  revert i diff. induction l1 as [|p l1 IH]; intros i diff; cbn [app seek length].
  - by rewrite !Nat.add_0_r.
  - rewrite count_cons. destruct (counts p); [case_bool_decide; [done|]|]; rewrite IH; destruct (seek _ _ l1 _ _); f_equal; lia.
Qed.
Lemma seek_absent elem l i diff : elem ∉ l → seek counts elem l i diff = None.
Proof.
  revert i diff. induction l as [|p l IH]; intros i diff Hl; [done|]. apply not_elem_of_cons in Hl as [Hp Hl]. cbn.
  rewrite bool_decide_false by done. rewrite !IH by done. by destruct (counts p).
Qed.
Lemma seek_Some elem l i diff j n :
  seek counts elem l i diff = Some (j, n) →
  ∃ l1 l2, l = l1 ++ elem :: l2 ∧ j = i + length l1 ∧ n = diff + S (count l1) ∧ counts elem = true.
Proof.
  revert i diff. induction l as [|p l IH]; intros i diff; [done|]. cbn. destruct (counts p) eqn:E; [case_bool_decide as Hp|].
  - intros [= <- <-]. exists [], l. subst. rewrite Nat.add_0_r. split_and!; [done..| |done]. unfold count. cbn. lia.
  - intros (l1 & l2 & -> & -> & -> & Hc)%IH. exists (p :: l1), l2. rewrite count_cons, E. split_and!; [done|cbn; lia|lia|done].
  - intros (l1 & l2 & -> & -> & -> & Hc)%IH. exists (p :: l1), l2. rewrite count_cons, E. split_and!; [done|cbn; lia|lia|done].
Qed.
Lemma position_mid elem l1 l2 : elem ∉ l1 → counts elem = true → position counts elem (l1 ++ elem :: l2) = S (count l1).
Proof.
  intros Hl Hc. unfold position. rewrite seek_app, seek_absent by done. cbn. by rewrite Hc, bool_decide_true.
Qed.
(** A search that starts after [k] nodes finds what the one from the start finds. *)
Lemma seek_drop elem l k r :
  NoDup l → k ≤ length l → seek counts elem (drop k l) k (count (take k l)) = Some r → seek counts elem l 0 0 = Some r.
Proof.
  intros Hd Hk E. rewrite <- (take_drop k l) in Hd |- * at 1. rewrite seek_app. apply NoDup_app in Hd as (_ & Hd & _).
  destruct r as [j n]. apply seek_Some in E as H. destruct H as (l1 & l2 & Hl & _ & _ & _).
  rewrite seek_absent.
  - cbn. by rewrite length_take, Nat.min_l by done.
  - intros Hin. apply (Hd _ Hin). rewrite Hl. set_solver.
Qed.
End seek.

(** ** The invariant of the caches *)

Section invariant.
Variable page : list tree.
(** The run numbers from before the query: what is kept under them says nothing of the
    page as it is. *)
Variable before : list Z.
Local Abbreviation is_element := (is_element page).
Implicit Types (s : engine) (d : dir).

(** What may be said of an entry that [elem[expando][d]] holds: the name and the run of
    the array, which array it is, the element, and the value. *)
Definition claim : Type := nat → Z → nat → path → dir → option bool → Prop.
(** The positions that are kept under the run numbers of [valid] are those of the page. *)
Definition nth_right (valid : Z → Prop) s : Prop :=
  (∀ parent run i diff, nth_cache s !! parent = Some (run, i, diff) → valid run →
     i < childCount page parent ∧ diff = count is_element (take (S i) (childNodes page parent))) ∧
  (∀ e run diff parent, nth_last_cache s !! e = Some (run, diff) → valid run → step page parentNode e = Some parent →
     diff = position is_element e (reverse (childNodes page parent))).
(** The run numbers that positions are kept under are numbers that were drawn. *)
Definition nth_tagged s : Prop :=
  (∀ p x, nth_cache s !! p = Some x → x.1.1 ∈ runs s) ∧ (∀ e x, nth_last_cache s !! e = Some x → x.1 ∈ runs s).
(** [old] are the run numbers from before the current run, [K] arrays that stay as they
    are, [o] is the outermost context. *)
Record Inv (old : list Z) (G : claim) (K : gmap nat cell) (o : outermost_ctx) s : Prop := {
  inv_run : dirruns s ∉ old;
  inv_runs : dirruns s ∈ runs s;
  inv_old : ∀ t, t ∈ old → t ∈ runs s;
  inv_outer : outermostContext s = o;
  inv_tags : ∀ c x, cells s !! c = Some x → c_run x ∈ runs s;
  inv_valid : ∀ e d c, dircache s !! (e, d) = Some c → c < length (cells s);
  inv_claim : ∀ e d c x, dircache s !! (e, d) = Some c → cells s !! c = Some x →
    G (c_done x) (c_run x) c e d (c_value x);
  inv_keep : ∀ c x, K !! c = Some x → cells s !! c = Some x;
  inv_base : ∀ t, t ∈ before → t ∈ old;
  inv_nth : nth_right (λ t, t ∉ before) s;
  inv_nth_tags : nth_tagged s;
}.

Lemma childNodes_NoDup p : NoDup (childNodes page p).
Proof. apply NoDup_fmap_2; [|apply NoDup_seq]. by intros i j [= ->]. Qed.
Lemma childNodes_length p : length (childNodes page p) = childCount page p.
Proof. unfold childNodes. by rewrite length_fmap, length_seq. Qed.
Lemma childNodes_parent p q : p ≠ [] → q ∈ childNodes page p → step page parentNode q = Some p.
Proof. intros Hp (i & -> & _)%list_elem_of_fmap. by destruct p. Qed.
Lemma step_parent_nonempty e parent : step page parentNode e = Some parent → parent ≠ [].
Proof. destruct e as [|i [|j q]]; [done..|]. by intros [= <-]. Qed.

(** A search leaves everything but its cache, which it writes under the current run. *)
Definition only_nth s s' : Prop :=
  ∃ m m', s' = set_nth_last m' (set_nth m s) ∧
    (∀ p x, m !! p = Some x → nth_cache s !! p = Some x ∨ x.1.1 = dirruns s) ∧
    (∀ e x, m' !! e = Some x → nth_last_cache s !! e = Some x ∨ x.1 = dirruns s).
Lemma only_nth_refl s : only_nth s s.
Proof. exists (nth_cache s), (nth_last_cache s). split; [by destruct s|]. split; by left. Qed.
Lemma only_nth_trans s1 s2 s3 : only_nth s1 s2 → only_nth s2 s3 → only_nth s1 s3.
Proof.
  intros (m & m' & -> & H1 & H2) (n & n' & -> & H3 & H4). exists n, n'. split; [by destruct s1|]. split.
  - intros p x [Hx|Hx]%H3; [by apply H1|by right].
  - intros e x [Hx|Hx]%H4; [by apply H2|by right].
Qed.
Lemma only_nth_run s s' : only_nth s s' → dirruns s' = dirruns s.
Proof. by intros (m & m' & -> & _). Qed.
Lemma Inv_only_nth old G K o s s' : only_nth s s' → nth_right (λ t, t ∉ before) s' → Inv old G K o s → Inv old G K o s'.
Proof.
  intros (m & m' & -> & Hm & Hm') Hn [H1 H2 H3 H4 H5 H6 H7 H8 H9 _ [T1 T2]]. split; try done. split; cbn.
  - intros p x [Hx| ->]%Hm; [by eapply T1|done].
  - intros e x [Hx| ->]%Hm'; [by eapply T2|done].
Qed.

(** What a search of positions has to give, from a store whose entries of [valid] are
    right, under a run number that is one of them. *)
Section valid.
Variable valid : Z → Prop.
Definition finds (m : M engine nat) (n : nat) : Prop := ∀ s,
  valid (dirruns s) → nth_right valid s → (m s).1 = Ok n ∧ nth_right valid (m s).2 ∧ only_nth s (m s).2.

(** [parent[expando]["nth"]] is a place where the search may go on. *)
Lemma nth_forward_finds parent elem :
  finds (nth_forward page parent elem) (position is_element elem (childNodes page parent)).
Proof.
  intros s Hrun Hs. unfold nth_forward, get, put, mbind, M_bind. cbv beta zeta iota. set (nodes := childNodes page parent).
  match goal with |- context [match ?f with Some r => Some r | None => seek _ _ _ 0 0 end] => set (found := f) end.
  assert (Hf : (match found with Some r => Some r | None => seek is_element elem nodes 0 0 end) = seek is_element elem nodes 0 0).
  { unfold found. destruct (nth_cache s !! parent) as [[[run [|i]] diff]|] eqn:E; [done| |done].
    destruct (Z.eqb_spec run (dirruns s)) as [->|]; [|done]. destruct Hs as [Hn _].
    apply Hn in E as [Hi ->]; [|done]. destruct (seek _ _ (drop _ _) _ _) as [r|] eqn:Es; [|done].
    symmetry. eapply seek_drop; [apply childNodes_NoDup| |exact Es]. unfold nodes. rewrite childNodes_length. lia. }
  rewrite Hf. destruct (seek is_element elem nodes 0 0) as [[i diff]|] eqn:E; unfold position; rewrite E.
  2:{ split; [done|]. split; [done|apply only_nth_refl]. }
  cbn [fst snd]. split; [done|]. split.
  - destruct Hs as [Hn Hl]. split; [|done].
    intros p run j n. cbn. destruct (decide (p = parent)) as [->|Hp]; [|rewrite lookup_insert_ne by done; apply Hn].
    rewrite lookup_insert_eq. intros [= <- <- <-] _. apply seek_Some in E as (l1 & l2 & Hl1 & -> & -> & Hc).
    rewrite <- childNodes_length. fold nodes. rewrite Hl1. split; [rewrite length_app; cbn; lia|].
    rewrite cons_middle, app_assoc, take_app_length' by (rewrite length_app; cbn; lia).
    rewrite count_app, count_cons, Hc. unfold count at 3. cbn. lia.
  - exists (<[parent := (dirruns s, i, diff)]> (nth_cache s)), (nth_last_cache s). split; [done|]. split; [|by left].
    intros p x. destruct (decide (p = parent)) as [->|Hp]; [|rewrite lookup_insert_ne by done; by left].
    rewrite lookup_insert_eq. intros [= <-]. by right.
Qed.
Lemma count_back_finds parent elem l1 l :
  parent ≠ [] → reverse (childNodes page parent) = l1 ++ l → elem ∉ l1 ∨ is_element elem = false →
  finds (count_back page elem l (count is_element l1)) (position is_element elem (reverse (childNodes page parent))).
Proof.
  intros Hp. revert l1. induction l as [|node l IH]; intros l1 Hl Hin; cbn [count_back].
  - assert (Hz : position is_element elem (reverse (childNodes page parent)) = 0).
    { unfold position. destruct (seek _ _ _ _ _) as [[j n]|] eqn:E; [|done].
      apply seek_Some in E as (m1 & m2 & Hm & _ & _ & Hc). rewrite Hl, app_nil_r in Hm.
      destruct Hin as [Hin|]; [|congruence]. destruct Hin. rewrite Hm. set_solver. }
    intros s _ Hs. rewrite Hz. split; [done|]. split; [done|apply only_nth_refl].
  - assert (Hd : NoDup (l1 ++ node :: l)) by (rewrite <- Hl, reverse_Permutation; apply childNodes_NoDup).
    assert (Hn1 : node ∉ l1). { intros Hn. apply NoDup_app in Hd as (_ & Hd & _). apply (Hd _ Hn). by left. }
    assert (Hl' : reverse (childNodes page parent) = (l1 ++ [node]) ++ l) by (by rewrite <- app_assoc).
    assert (Hc : count is_element (l1 ++ [node]) = (if is_element node then 1 else 0) + count is_element l1).
    { rewrite count_app, count_cons. unfold count at 2. cbn. lia. }
    destruct (is_element node) eqn:E.
    2:{ cbn in Hc. rewrite <- Hc. apply IH; [done|]. destruct (decide (node = elem)) as [->|]; [by right|].
        destruct Hin as [Hin|]; [left; set_solver|by right]. }
    intros s Hrun Hs. unfold modify, mbind, M_bind at 1. cbn [fst snd].
    set (s1 := set_nth_last _ s). assert (Hs1 : nth_right valid s1).
    { destruct Hs as [Hn Hla]. split; [done|].
      intros e run diff p. cbn. destruct (decide (e = node)) as [->|He]; [|rewrite lookup_insert_ne by done; apply Hla].
      rewrite lookup_insert_eq. intros [= <- <-] _ Hpar. rewrite (childNodes_parent parent) in Hpar; [|done|].
      - injection Hpar as <-. by rewrite Hl, position_mid.
      - rewrite <- elem_of_reverse, Hl. set_solver. }
    assert (Ho1 : only_nth s s1).
    { exists (nth_cache s), (<[node := (dirruns s, S (count is_element l1))]> (nth_last_cache s)). split; [by destruct s|].
      split; [by left|].
      intros e x. destruct (decide (e = node)) as [->|He]; [|rewrite lookup_insert_ne by done; by left].
      rewrite lookup_insert_eq. intros [= <-]. by right. }
    case_bool_decide as Hne; [|].
    + split; [|done]. subst node. cbn [fst]. by rewrite Hl, position_mid.
    + assert (IH' := IH (l1 ++ [node]) Hl'). rewrite Hc in IH'. destruct (IH') with (s := s1) as (H1 & H2 & H3); [|done|done|].
      { destruct Hin as [Hin|]; [left; set_solver|by right]. }
      split; [done|]. split; [done|]. by eapply only_nth_trans.
Qed.
Lemma nth_backward_finds parent elem :
  step page parentNode elem = Some parent →
  finds (nth_backward page parent elem) (position is_element elem (reverse (childNodes page parent))).
Proof.
  intros Hp s Hrun Hs. pose proof (step_parent_nonempty _ _ Hp) as Hne.
  assert (Hb := count_back_finds parent elem [] _ Hne eq_refl (or_introl (not_elem_of_nil elem)) s Hrun Hs).
  unfold nth_backward, get, mbind, M_bind. destruct (nth_last_cache s !! elem) as [[run diff]|] eqn:E; [|done].
  destruct (Z.eqb_spec run (dirruns s)) as [->|]; [|done].
  destruct Hs as [Hn Hl]. rewrite (Hl _ _ _ _ E Hrun Hp). split; [done|]. split; [done|apply only_nth_refl].
Qed.
Lemma nth_finds (backward : bool) parent elem : step page parentNode elem = Some parent →
  finds (if backward then nth_backward page parent elem else nth_forward page parent elem)
    (position is_element elem (if backward then reverse (childNodes page parent) else childNodes page parent)).
Proof. destruct backward; [apply nth_backward_finds|intros _; apply nth_forward_finds]. Qed.
End valid.

Lemma nth_agree old G K o (backward : bool) parent elem : step page parentNode elem = Some parent →
  agree (Inv old G K o) (Inv old G K o) (if backward then nth_backward page parent elem else nth_forward page parent elem)
    (mret (position is_element elem (if backward then reverse (childNodes page parent) else childNodes page parent))).
Proof.
  intros Hp s Hs _. destruct (nth_finds (λ t, t ∉ before) backward parent elem Hp s) as (H1 & H2 & H3); [|apply Hs|].
  - intros Hin. by apply (inv_run _ _ _ _ _ Hs), (inv_base _ _ _ _ _ Hs).
  - split; [done|]. intros _. by eapply Inv_only_nth.
Qed.
End invariant.

(** ** The cache of a combinator *)

Section combinators.
Variable page : list tree.
Variable documentIsHTML : bool.
Variable before : list Z.
Local Abbreviation Inv := (Inv page before).
Local Abbreviation along := (along page).
Local Abbreviation checks := (checks page).
Implicit Types (s : engine) (d : dir) (G : claim) (K : gmap nat cell).

(** Nothing is said of the name [n]; or what a verdict says. *)
Definition free (G : claim) (n : nat) : Prop := ∀ t c e d v, G n t c e d v.
Definition covers (old : list Z) (G : claim) (n : nat) (w : verdict) : Prop :=
  ∀ t c e d v, t ∉ old → G n t c e d v ↔ d = w.1 ∧ (w.2 e tt).1 = Ok (default false v).
(** While the array [c] of the name [n] is filled in, the elements of [V] hold it. *)
Definition filling (G : claim) (n c : nat) (V : list path) (d0 : dir) : claim := λ n' t c' e d v,
  if decide (n' = n ∧ c' = c) then d = d0 ∧ e ∈ V else G n' t c' e d v.

Lemma covers_filling old G n c V d n' w : n' ≠ n → covers old G n' w → covers old (filling G n c V d) n' w.
Proof. intros Hn Hc t c' e d' v. unfold filling. rewrite decide_False by (by intros []). apply Hc. Qed.
Lemma free_filling G n c V d n' : n' ≠ n → free G n' → free (filling G n c V d) n'.
Proof. intros Hn Hf t c' e d' v. unfold filling. rewrite decide_False by (by intros []). apply Hf. Qed.

Lemma along_NoDup d p : NoDup (along d p).
Proof.
  destruct d; cbn [along].
  - assert (Hlt : ∀ q r, r ∈ ancestors q → length r < length q).
    { intros q. induction q as [|i [|j q] IH]; intros r Hr; [by apply elem_of_nil in Hr..|].
      change (r ∈ (j :: q) :: ancestors (j :: q)) in Hr. apply elem_of_cons in Hr as [->|Hr]; [cbn; lia|].
      apply IH in Hr. cbn in *. lia. }
    induction p as [|i [|j q] IH]; [constructor..|]. change (NoDup ((j :: q) :: ancestors (j :: q))). constructor; [|done].
    intros Hin%Hlt. lia.
  - destruct p as [|i [|j q]]; [constructor..|]. apply NoDup_fmap_2; [by intros x y [= ->]|].
    rewrite reverse_Permutation. apply NoDup_seq.
  - destruct p as [|i [|j q]]; [constructor..|]. apply NoDup_fmap_2; [by intros x y [= ->]|]. apply NoDup_seq.
Qed.

Lemma Inv_start old G K o s n d :
  Inv old G K o s →
  K !! length (cells s) = None ∧
  Inv old (filling G n (length (cells s)) [] d) (<[length (cells s) := Cell (dirruns s) n None]> K) o
    (set_cells (cells s ++ [Cell (dirruns s) n None]) s).
Proof.
  intros [H1 H2 H3 H4 H5 H6 H7 H8 HB HN HT]. split.
  { destruct (K !! _) as [x|] eqn:E; [|done]. apply H8, lookup_lt_Some in E. lia. }
  split; cbn; [done..| | | | |done|done|done].
  - intros c x [Hx|[_ Hx]]%lookup_app_Some; [by eapply H5|]. by apply list_lookup_singleton_Some in Hx as [_ <-].
  - intros e d' c Hc%H6. rewrite length_app. cbn. lia.
  - intros e d' c x Hp. apply H6 in Hp as Hl. rewrite lookup_app_l by done. intros Hx. unfold filling.
    rewrite decide_False by lia. by apply H7.
  - intros c x. destruct (decide (c = length (cells s))) as [->|Hc].
    + rewrite lookup_insert_eq. intros [= <-]. by rewrite lookup_app_r, Nat.sub_diag.
    + rewrite lookup_insert_ne by done. intros Hx%H8. by apply lookup_app_l_Some.
Qed.
Lemma Inv_point old G K o s n d c V t v q :
  Inv old (filling G n c V d) (<[c := Cell t n v]> K) o s →
  Inv old (filling G n c (q :: V) d) (<[c := Cell t n v]> K) o (set_dircache (<[(q, d) := c]> (dircache s)) s).
Proof.
  intros [H1 H2 H3 H4 H5 H6 H7 H8 HB HN HT].
  assert (Hc : cells s !! c = Some (Cell t n v)) by (apply H8; by rewrite lookup_insert_eq).
  split; cbn; [done..| | |done|done|done|done].
  - intros e d' c'. destruct (decide ((e, d') = (q, d))) as [Heq|He].
    + rewrite Heq, lookup_insert_eq. intros [= <-]. by eapply lookup_lt_Some.
    + rewrite lookup_insert_ne by done. apply H6.
  - intros e d' c' x. destruct (decide ((e, d') = (q, d))) as [Heq|He].
    + rewrite Heq, lookup_insert_eq. injection Heq as -> ->. intros [= <-]. rewrite Hc. intros [= <-]. unfold filling.
      rewrite decide_True by done. split; [done|by left].
    + rewrite lookup_insert_ne by done. intros Hp Hx. specialize (H7 _ _ _ _ Hp Hx). unfold filling in *.
      case_decide; [|done]. destruct H7. split; [done|by right].
Qed.
Lemma Inv_write old G K o s n d c V t v v' :
  Inv old (filling G n c V d) (<[c := Cell t n v]> K) o s →
  Inv old (filling G n c V d) (<[c := Cell t n v']> K) o
    (set_cells (alter (λ x, Cell (c_run x) (c_done x) v') c (cells s)) s).
Proof.
  intros [H1 H2 H3 H4 H5 H6 H7 H8 HB HN HT].
  assert (Hc : cells s !! c = Some (Cell t n v)) by (apply H8; by rewrite lookup_insert_eq).
  assert (Ha : alter (λ x, Cell (c_run x) (c_done x) v') c (cells s) !! c = Some (Cell t n v')).
  { by rewrite list_lookup_alter_eq, Hc. }
  split; cbn; [done..| | | | |done|done|done].
  - intros c' x. destruct (decide (c' = c)) as [->|Hn].
    + rewrite Ha. intros [= <-]. exact (H5 _ _ Hc).
    + rewrite list_lookup_alter_ne by done. apply H5.
  - intros e d' c'. rewrite length_alter. apply H6.
  - intros e d' c' x Hp. destruct (decide (c' = c)) as [->|Hn].
    + rewrite Ha. intros [= <-]. specialize (H7 _ _ _ _ Hp Hc). unfold filling in *. cbn in *.
      by rewrite decide_True in * by done.
    + rewrite list_lookup_alter_ne by done. apply (H7 _ _ _ _ Hp).
  - intros c' x. destruct (decide (c' = c)) as [->|Hn]; [by rewrite Ha, lookup_insert_eq|].
    rewrite lookup_insert_ne, list_lookup_alter_ne by done. intros Hk. apply H8. by rewrite lookup_insert_ne.
Qed.
Lemma Inv_filled old G K o s n c V t v (w : verdict) :
  covers old G n w → t ∉ old → K !! c = None → (∀ e, e ∈ V → (w.2 e tt).1 = Ok (default false v)) →
  Inv old (filling G n c V w.1) (<[c := Cell t n v]> K) o s → Inv old G K o s.
Proof.
  intros Hw Ht HK HV [H1 H2 H3 H4 H5 H6 H7 H8 HB HN HT]. split; [done..| | |done|done|done].
  - intros e d' c' x Hp Hx. specialize (H7 _ _ _ _ Hp Hx). unfold filling in H7. case_decide as Hd; [|done].
    destruct Hd as [Hn ->], H7 as [-> HeV]. rewrite H8 with (x := Cell t n v) in Hx by (by rewrite lookup_insert_eq).
    injection Hx as <-. cbn. apply Hw; [done|]. split; [done|by apply HV].
  - intros c' x Hk. apply H8. rewrite lookup_insert_ne; [done|]. intros ->. by rewrite HK in Hk.
Qed.

Lemma cached_any_agree old G K o n c t d (base : bool) (f : path → M engine bool) f0 :
  covers old G n (verdict_of page (d, false) base f0) → t ∉ old → K !! c = None → (∀ e, grows (f e)) →
  (∀ V v e, let P := Inv old (filling G n c V d) (<[c := Cell t n v]> K) o in agree P P (f e) (f0 e)) →
  ∀ l p, l = along d p → ∀ V v, default false v = false → (∀ e, e ∈ V → e ∉ l) →
  (∀ e, e ∈ V → (any_on (checks base d) f0 (e :: along d e) tt).1 = (any_on (checks base d) f0 l tt).1) →
  agree (Inv old (filling G n c V d) (<[c := Cell t n v]> K) o) (Inv old G K o)
    (cached_any d n c (checks base d) f l) (any_on (checks base d) f0 l).
Proof.
  intros Hw Ht HK Hg Hf l. induction l as [|q l IH]; intros p Hl V v Hv Hfresh HV.
  - intros s Hs _. split; [done|]. intros _. eapply Inv_filled; [exact Hw|done..| |exact Hs]. intros e He. rewrite Hv. exact (HV e He).
  - assert (Hq : l = along d q).
    { rewrite along_step in Hl. destruct (step page d p) as [q'|]; [|done]. by injection Hl as -> ->. }
    assert (Hql : q ∉ l). { pose proof (along_NoDup d p) as Hd. rewrite <- Hl in Hd. by inversion Hd. }
    cbn [cached_any any_on]. fold (cached_any d n c (checks base d) f) (any_on (checks base d) f0).
    destruct (checks base d q) eqn:Eq.
    2:{ apply (IH q Hq V v Hv).
        - intros e He Hin. apply (Hfresh e He). by right.
        - intros e He. rewrite (HV e He). cbn. by rewrite Eq. }
    assert (Hany : any_on (checks base d) f0 (q :: l) = (b ← f0 q; if (b : bool) then mret true else any_on (checks base d) f0 l)).
    { cbn. by rewrite Eq. }
    rewrite <- Hany. apply agree_get. intros s Hs.
    set (P V v := Inv old (filling G n c V d) (<[c := Cell t n v]> K) o).
    (* the element is not in the cache: it shares the new array *)
    assert (Hmiss : agree (P V v) (Inv old G K o)
      (_ ← modify (λ s, set_dircache (<[(q, d) := c]> (dircache s)) s); b ← f q;
       _ ← modify (λ s, set_cells (alter (λ x, Cell (c_run x) (c_done x) (Some b)) c (cells s)) s);
       if (b : bool) then mret true else cached_any d n c (checks base d) f l) (any_on (checks base d) f0 (q :: l))).
    { rewrite Hany. eapply (agree_modify _ (P (q :: V) v)); [by intros s1; apply Inv_point|].
      eapply agree_bind_eq; [apply Hf| |].
      { intros b. apply grows_bind; [by apply grows_modify|]. intros _. destruct b; [apply grows_ret|by apply cached_any_grows]. }
      intros b Hb. eapply (agree_modify _ (P (q :: V) (Some b))); [by intros s1; apply Inv_write|].
      assert (HqV : ∀ e, e ∈ q :: V → (any_on (checks base d) f0 (e :: along d e) tt).1 =
        if b then Ok true else (any_on (checks base d) f0 l tt).1).
      { assert (Hql' : (any_on (checks base d) f0 (q :: l) tt).1 = if b then Ok true else (any_on (checks base d) f0 l tt).1).
        { rewrite Hany. unfold mbind, M_bind. destruct (f0 q tt) as [r []]. cbn in Hb. rewrite Hb. by destruct b. }
        intros e [->|He]%elem_of_cons; [by rewrite <- Hq|]. etrans; [exact (HV e He)|done]. }
      destruct b.
      - intros s1 Hs1 _. split; [done|]. intros _. eapply Inv_filled; [exact Hw|done..| |exact Hs1]. exact HqV.
      - apply (IH q Hq); [done| |exact HqV]. intros e [->|He]%elem_of_cons; [done|]. intros Hin. apply (Hfresh e He). by right. }
    destruct (dircache s !! (q, d) ≫= _) as [x|] eqn:Ex; [|intros s' ->; by apply Hmiss].
    destruct (_ && _) eqn:Ehit; [|intros s' ->; by apply Hmiss].
    (* a result of this run under this name is the verdict for the element *)
    apply andb_true_iff in Ehit as [Er%Z.eqb_eq En%Nat.eqb_eq]. apply bind_Some in Ex as (c' & Hp & Hx).
    pose proof (inv_claim _ _ _ _ _ _ _ Hs _ _ _ _ Hp Hx) as Hcl. unfold filling in Hcl.
    rewrite En in Hcl. case_decide as Hd.
    { destruct Hd as [_ ->], Hcl as [_ HqV]. destruct (Hfresh q HqV). by left. }
    apply Hw in Hcl as [_ Hcl]; [|rewrite Er; by apply Hs]. cbn [snd verdict_of fst] in Hcl. rewrite <- Hq in Hcl.
    intros s' -> _. split; [symmetry; exact Hcl|]. intros _. cbn. eapply Inv_filled; [exact Hw|exact Ht|exact HK| |].
    { intros e He. etrans; [exact (HV e He)|exact Hcl]. }
    eapply Inv_write. exact Hs.
Qed.

Lemma combinator_agree old G K o rel base n (f : path → M engine bool) f0 elem :
  covers old G n (verdict_of page rel base f0) → (∀ e, grows (f e)) →
  (∀ G' K' e, (∀ n', n' ≠ n → (∀ w, covers old G n' w → covers old G' n' w) ∧ (free G n' → free G' n')) →
     agree (Inv old G' K' o) (Inv old G' K' o) (f e) (f0 e)) →
  agree (Inv old G K o) (Inv old G K o) (combinator page documentIsHTML rel base n f elem) (related page rel base f0 elem).
Proof.
  intros Hw Hg Hf. assert (Hf0 : ∀ e, agree (Inv old G K o) (Inv old G K o) (f e) (f0 e)) by (intros e; by apply Hf).
  unfold combinator, related. destruct rel as [d []]; [by apply agree_closest|]. destruct (negb documentIsHTML); [by apply agree_any_on|].
  intros s Hs. destruct (Inv_start old G K o s n d Hs) as [HK Hs1].
  refine (cached_any_agree old G K o n (length (cells s)) (dirruns s) d base f f0 Hw (inv_run _ _ _ _ _ _ _ Hs) HK Hg _
    (along d elem) elem eq_refl [] None eq_refl _ _ _ Hs1).
  - intros V v e P. apply Hf. intros n' Hn. split; [intros w; by apply covers_filling|by apply free_filling].
  - intros e He. by apply elem_of_nil in He.
  - intros e He. by apply elem_of_nil in He.
Qed.
End combinators.

(** ** Evaluation with the caches *)

Section evaluation.
Variable page : list tree.
Variable documentIsHTML : bool.
Variable nested_run : nat → Z → Z.
(** The browser answers the queries of [:has]. *)
Variable native : jsstr → path → outcome (list path).
Implicit Types (s : engine) (d : dir) (G : claim) (K : gmap nat cell).

Definition native_sizzle (q : jsstr) (e : path) : M engine (list path) := λ s, (native q e, s).
Definition native_has (q : jsstr) (e : path) : M unit bool :=
  found ← (λ u, (native q e, u)) : M unit (list path); mret (match found with [] => false | _ => true end).
Local Abbreviation eval := (eval page documentIsHTML nested_run native_sizzle).
Local Abbreviation sem := (sem page documentIsHTML native_has).
Local Abbreviation combs := (combs page documentIsHTML native_has).

Lemma native_grows q e : grows (native_sizzle q e).
Proof. intros s. by exists []. Qed.
#[local] Hint Resolve native_grows : core.
Lemma eval_grows' m e context : grows (eval m e context).
Proof. by apply eval_grows. Qed.

Lemma combs_own o m context : (combs o m context).*1 `sublist_of` own m.
Proof.
  induction m as [f|f|b i j|ms IH|q|rel n m IH|l rel d1 d2|ms IH] using matcher_nested_ind; cbn; try apply sublist_nil_l.
  - by apply sublist_skip.
  - destruct context; cbn; [apply sublist_nil_l|apply sublist_skip, sublist_nil_l|apply sublist_cons; by apply sublist_skip].
  - induction IH as [|m ms Hm _ IHms]; [done|]. cbn. rewrite fmap_app. by apply sublist_app.
Qed.
Lemma combs_list_own o ms context : (ms ≫= λ m, combs o m context).*1 `sublist_of` (ms ≫= own).
Proof. exact (combs_own o (MAll ms) context). Qed.

Section invariants.
Variable before : list Z.
Local Abbreviation Inv := (Inv page before).

(** The claims of a run of the functions [ms]. *)
Definition run_claims (old : list Z) (cs : list (nat * verdict)) (names : list nat) (G : claim) : claim := λ n t c e d v,
  (∀ w, (n, w) ∈ cs → t ∈ old ∨ (d = w.1 ∧ (w.2 e tt).1 = Ok (default false v))) ∧ (n ∉ names → G n t c e d v).

Section claims.
Context (old : list Z) (cs : list (nat * verdict)) (names : list nat) (G : claim).
Hypothesis Hsub : cs.*1 `sublist_of` names.
Hypothesis Hnames : NoDup names.

Lemma run_claims_covers n w : (n, w) ∈ cs → covers old (run_claims old cs names G) n w.
Proof.
  intros Hw t c e d v Ht. split; [intros [H _]; by destruct (H w Hw)|]. intros H. split.
  - intros w' Hw'. right. assert (Hd : NoDup cs.*1) by (by eapply sublist_NoDup).
    assert (w' = w) as ->; [|done]. apply (inj Some).
    etrans; [symmetry|]; by apply (elem_of_list_to_map (M := gmap nat) cs n).
  - intros Hn. destruct Hn. eapply sublist_subseteq; [exact Hsub|]. apply list_elem_of_fmap. by exists (n, w).
Qed.
Lemma run_claims_free n : n ∉ names → free G n → free (run_claims old cs names G) n.
Proof.
  intros Hn Hf t c e d v. split; [|intros _; apply Hf]. intros w Hw. destruct Hn.
  eapply sublist_subseteq; [exact Hsub|]. apply list_elem_of_fmap. by exists (n, w).
Qed.
End claims.

Lemma Inv_run_start old G K o o' cs names s t :
  Inv old G K o s → t ∉ runs s →
  Inv (runs s) (run_claims (runs s) cs names G) K o' (set_outermost o' (start_run t s)).
Proof.
  intros [H1 H2 H3 H4 H5 H6 H7 H8 HB HN [T1 T2]] Ht. split; cbn; [done|by left|by right|done| |done| |done| |done|].
  - intros c x Hx. right. by eapply H5.
  - intros e d c x Hp Hx. split; [|intros _; by eapply H7]. intros w _. left. by eapply H5.
  - intros u Hu. by apply H3, HB.
  - split; intros p x Hx; right; [by eapply T1|by eapply T2].
Qed.
Lemma Inv_run_end old old' G K o o' cs names s :
  (∀ t, t ∈ before → t ∈ old) → (∀ n, n ∈ names → free G n) → (∀ t, t ∈ old → t ∈ old') → Inv old' (run_claims old' cs names G) K o s →
  Inv old G K o' (set_outermost o' s).
Proof.
  intros Hbase Hf Ho [H1 H2 H3 H4 H5 H6 H7 H8 HB HN HT].
  split; cbn; [intros Hin%Ho; done|done|by intros t Ht%Ho%H3|done|done|done| |done|done|done|done].
  intros e d c x Hp Hx. destruct (H7 _ _ _ _ Hp Hx) as [_ Hg].
  destruct (decide (c_done x ∈ names)) as [Hn|Hn]; [by apply Hf|by apply Hg].
Qed.
Lemma set_outermost_id o s : outermostContext s = o → set_outermost o s = s.
Proof. intros <-. by destruct s. Qed.

(** What is asked of a matcher and of the claims on the names that it uses. *)
Record usable (old : list Z) (G : claim) (o : outermost_ctx) (m : matcher) (context : ctx) : Prop := {
  use_NoDup : NoDup (own m);
  use_apart : ∀ n, n ∈ own m → n ∉ nested m;
  use_named : well_named m;
  use_covers : ∀ n w, (n, w) ∈ combs o m context → covers old G n w;
  use_free : ∀ n, n ∈ nested m → free G n;
}.
Lemma foldr_and (P : matcher → Prop) ms : foldr (λ n Q, P n ∧ Q) True ms ↔ ∀ m, m ∈ ms → P m.
Proof.
  induction ms as [|m ms IH]; cbn; [split; [by intros _ m Hm%elem_of_nil|done]|]. rewrite IH.
  split; [intros [H1 H2] n [->|Hn]%elem_of_cons; auto|]. intros H. split; [apply H; by left|intros n Hn; apply H; by right].
Qed.
Lemma NoDup_bind_elem {A} (f : A → list nat) l a : a ∈ l → NoDup (l ≫= f) → NoDup (f a).
Proof.
  induction l as [|b l IH]; intros Ha; [by apply elem_of_nil in Ha|]. cbn. intros (Hb & _ & Hl)%NoDup_app.
  apply elem_of_cons in Ha as [->|Ha]; [done|by apply IH].
Qed.
Lemma usable_all old G o ms context m : usable old G o (MAll ms) context → m ∈ ms → usable old G o m context.
Proof.
  intros [H1 H2 H3 H4 H5] Hm. cbn in *. split.
  - by eapply NoDup_bind_elem.
  - intros n Hn Hn'. apply (H2 n); apply list_elem_of_bind; eauto.
  - by apply (proj1 (foldr_and _ _) H3).
  - intros n w Hw. apply H4. apply list_elem_of_bind. eauto.
  - intros n Hn. apply H5. apply list_elem_of_bind. eauto.
Qed.

Lemma next_run_grows_agree {A} old G K o ms (k : M engine A) k0 :
  grows k → (∀ n, n ∈ ms ≫= own → free G n) →
  (∀ s, Inv old G K o s → let G' := run_claims (runs s) (ms ≫= λ m, combs o m CNull) (ms ≫= own) G in
     agree (Inv (runs s) G' K o) (Inv (runs s) G' K o) k k0) →
  agree (Inv old G K o) (Inv old G K o) (_ ← next_run nested_run; k) k0.
Proof.
  intros Hg Hf Hk s Hs Hd. unfold next_run in *. unfold mbind, M_bind, get, put in *. cbn in *.
  set (t := match outermostContext s with OUndefined => _ | _ => _ end) in *.
  destruct (Hg (start_run t s)) as [new Hn].
  assert (Ht : t ∉ runs s).
  { rewrite Hn in Hd. apply NoDup_app in Hd as (_ & _ & Hd). by inversion Hd. }
  assert (Hs' := Inv_run_start old G K o o (ms ≫= λ m, combs o m CNull) (ms ≫= own) s t Hs Ht).
  rewrite set_outermost_id in Hs' by apply Hs.
  destruct (Hk s Hs _ Hs' Hd) as [-> HI]. split; [done|]. intros Hr%HI.
  rewrite <- (set_outermost_id o (k (start_run t s)).2) by apply Hr.
  eapply Inv_run_end; [apply Hs|done|apply Hs|exact Hr].
Qed.

Lemma eval_agree m elem context old G K o :
  usable old G o m context → agree (Inv old G K o) (Inv old G K o) (eval m elem context) (sem o m elem context).
Proof.
  revert elem context old G K.
  induction m as [f|f|b i j|ms IH|q|rel n m IH|l rel d1 d2|ms IH] using matcher_nested_ind;
    intros elem context old G K Hu; cbn [Matchers.eval Matchers.sem].
  - apply agree_ret.
  - intros s Hs _. by destruct (f elem).
  - destruct (step page parentNode elem) as [parent|] eqn:Ep; [|apply agree_ret].
    change (mret (nth_check i j (position (is_element page) elem (if b then reverse (childNodes page parent) else childNodes page parent))))
      with ((mret (position (is_element page) elem (if b then reverse (childNodes page parent) else childNodes page parent)) : M unit nat)
        ≫= λ diff, mret (nth_check i j diff)).
    eapply agree_bind; [|intros a; apply grows_ret|intros a; apply agree_ret].
    by apply nth_agree.
  - destruct Hu as [_ _ [[Hd Hap] Hwn] _ Hfree]. cbn in Hfree. rewrite Forall_forall in IH.
    apply next_run_grows_agree with (ms := ms).
    + apply grows_bind; [apply grows_any_of; intros n _; apply eval_grows'|]. intros b. apply grows_ret.
    + intros n Hn. apply Hfree, elem_of_app. by left.
    + intros s Hs G'. eapply agree_bind; [|intros b; apply grows_ret|intros b; apply agree_ret].
      apply agree_any_of; [intros n _; apply eval_grows'|]. intros n Hn. apply IH; [done|].
      apply (usable_all _ _ _ ms); [|done]. split; [done|done|done| |].
      * intros n' w Hw. apply run_claims_covers; [apply combs_list_own|done|done].
      * intros n' Hn'. apply run_claims_free; [apply combs_list_own|intros Hin; by apply (Hap n')|].
        apply Hfree, elem_of_app. by right.
  - intros s Hs _. unfold native_has, native_sizzle, mbind, M_bind. by destruct (native q elem).
  - destruct Hu as [H1 H2 H3 H4 H5]. cbn in *. apply NoDup_cons in H1 as [H1 H1'].
    apply combinator_agree; [apply H4; by left|intros e; apply eval_grows'|].
    intros G' K' e Hk. apply IH. split; [done| |done| |].
    + intros n' Hn'. apply H2. by right.
    + intros n' w Hw. apply Hk; [|apply H4; by right]. intros ->. apply H1.
      eapply sublist_subseteq; [apply combs_own|]. apply list_elem_of_fmap. by exists (n, w).
    + intros n' Hn'. apply Hk; [|by apply H5]. intros ->. apply (H2 n); [by left|done].
  - unfold foundational. apply agree_get. intros s Hs. rewrite (inv_outer _ _ _ _ _ _ _ Hs). unfold within.
    destruct (_ && _); [by intros s' -> _|]. intros s' -> Hd. revert Hd.
    enough (agree (Inv old G K o) (Inv old G K o) (reaches_context page documentIsHTML rel d1 d2 elem context)
      (match context with CNull => throw TypeError | _ => related page rel true (λ e, mret (is_context context e)) elem end))
      as Ha by (apply Ha; exact Hs).
    unfold reaches_context. destruct context as [|p|ps]; [apply agree_throw|..].
    + apply combinator_agree; [apply (use_covers _ _ _ _ _ Hu); by left|intros e; apply grows_ret|]. intros G' K' e _. apply agree_ret.
    + apply combinator_agree; [apply (use_covers _ _ _ _ _ Hu); by left|intros e; apply grows_ret|]. intros G' K' e _. apply agree_ret.
  - rewrite Forall_forall in IH. apply agree_all; [intros n _; apply eval_grows'|]. intros n Hn. apply IH; [done|]. by eapply usable_all.
Qed.

(** *** The loop over the elements *)

(** The elements that [f] holds of, in order. *)
Fixpoint select_by (f : path → M unit bool) (elems : list path) : M unit (list path) :=
  match elems with
  | [] => mret []
  | elem :: elems => b ← f elem; found ← select_by f elems; mret (if (b : bool) then elem :: found else found)
  end.
Lemma agree_recall {A} P t (m : M engine A) m0 :
  grows m → agree P P m m0 → agree (λ s, P s ∧ t ∈ runs s) (λ s, P s ∧ t ∈ runs s) m m0.
Proof.
  intros Hg Hm s [Hs Ht] Hd. destruct (Hm s Hs Hd) as [-> HP]. split; [done|]. intros Hr. split; [by apply HP|].
  destruct (Hg s) as [new ->]. apply elem_of_app. by right.
Qed.
Lemma match_elements_grows ms context unique elems :
  grows (match_elements page documentIsHTML nested_run native_sizzle ms context unique elems).
Proof.
  induction elems as [|e elems IH]; cbn; [apply grows_ret|].
  apply grows_bind; [apply grows_any_of; intros m _; apply eval_grows'|]. intros b.
  apply grows_bind; [by apply grows_modify; destruct unique|]. intros _. apply grows_bind; [done|]. intros found. apply grows_ret.
Qed.
Lemma match_elements_agree old G K o t ms context elems :
  t ∉ old → usable old G o (MAll ms) context →
  let P s := Inv old G K o s ∧ t ∈ runs s in
  agree P P (match_elements page documentIsHTML nested_run native_sizzle ms context (Some t) elems)
    (select_by (λ e, any_of (λ m, sem o m e context) ms) elems).
Proof.
  intros Ht Hu P. induction elems as [|e elems IH]; cbn; [apply agree_ret|].
  eapply (agree_bind _ P).
  - apply agree_recall; [apply grows_any_of; intros m _; apply eval_grows'|]. apply agree_any_of; [intros m _; apply eval_grows'|].
    intros m Hm. apply eval_agree. by eapply usable_all.
  - intros b. apply grows_bind; [by apply grows_modify|]. intros _. apply grows_bind; [apply match_elements_grows|].
    intros found. apply grows_ret.
  - intros b. apply (agree_modify _ P).
    + intros s [[H1 H2 H3 H4 H5 H6 H7 H8 HB HN HT] Hr]. by split.
    + eapply agree_bind; [exact IH|intros found; apply grows_ret|intros found; apply agree_ret].
Qed.

End invariants.

(** *** Queries *)

(** A store between two queries: the number of the run is one that was drawn, and so are
    those that results are kept under.  The results may be anything. *)
Record between_queries s : Prop := {
  btw_run : dirruns s ∈ runs s;
  btw_tags : ∀ c x, cells s !! c = Some x → c_run x ∈ runs s;
  btw_valid : ∀ e d c, dircache s !! (e, d) = Some c → c < length (cells s);
  btw_nth : nth_tagged s;
}.
Lemma Inv_query o cs names s t :
  between_queries s → t ∉ runs s →
  Inv page (runs s) (runs s) (run_claims (runs s) cs names (λ _ _ _ _ _ _, True)) ∅ o (set_outermost o (start_run t s)).
Proof.
  intros [H1 H2 H3 [T1 T2]] Ht. split; cbn; [done|by left|by right|done| |done| |done|done| |].
  - intros c x Hx. right. by eapply H2.
  - intros e d c x Hp Hx. split; [|done]. intros w _. left. by eapply H2.
  - split; cbn; [intros p run i diff Hx%T1 Hrun|intros e run diff p Hx%T2 Hrun]; by destruct Hrun.
  - split; intros p x Hx; right; [by eapply T1|by eapply T2].
Qed.
Definition outermost_of (document context : path) : outermost_ctx :=
  if bool_decide (context = document) then OFalse else ONode context.
Lemma superMatcher_agree document ms elems context :
  separate ms → (∀ m, m ∈ ms → well_named m) →
  agree between_queries between_queries
    (superMatcher page documentIsHTML nested_run native_sizzle document ms elems context true)
    (select_by (λ e, any_of (λ m, sem (outermost_of document context) m e (CNode context)) ms) elems).
Proof.
  intros [Hd Hap] Hwn s Hs. set (o := outermost_of document context). unfold superMatcher, next_run, mbind, M_bind, get, put, modify.
  set (t := match outermostContext s with OUndefined => _ | _ => _ end). fold (outermost_of document context). fold o. cbn.
  set (s1 := set_outermost o (start_run t s)). set (cs := ms ≫= λ m, combs o m (CNode context)).
  set (G := run_claims (runs s) cs (ms ≫= own) (λ _ _ _ _ _ _, True)).
  pose proof (match_elements_grows ms (CNode context) (Some t) elems s1) as [new Hn].
  assert (Hu : usable (runs s) G o (MAll ms) (CNode context)).
  { split; [done|done|by apply foldr_and| |].
    - intros n w Hw. apply run_claims_covers; [apply combs_list_own|done|done].
    - intros n Hn'. apply run_claims_free; [apply combs_list_own|intros Hin; by apply (Hap n)|done]. }
  assert (Hm : NoDup (runs (match_elements page documentIsHTML nested_run native_sizzle ms (CNode context) (Some t) elems s1).2) →
    let r := match_elements page documentIsHTML nested_run native_sizzle ms (CNode context) (Some t) elems s1 in
    r.1 = (select_by (λ e, any_of (λ m, sem o m e (CNode context)) ms) elems tt).1 ∧
    (returns r.1 → Inv page (runs s) (runs s) G ∅ o r.2 ∧ t ∈ runs r.2)).
  { intros Hnd. assert (Ht : t ∉ runs s). { rewrite Hn in Hnd. apply NoDup_app in Hnd as (_ & _ & Hnd). by inversion Hnd. }
    apply (match_elements_agree (runs s) (runs s) G ∅ o t ms (CNode context) elems Ht Hu s1); [|done].
    split; [by apply Inv_query|]. by left. }
  destruct (match_elements _ _ _ _ _ _ _ _ s1) as [[found|e] s2]; cbn in *; intros Hnd; destruct (Hm Hnd) as [<- HI]; [|done].
  split; [done|]. intros _. destruct (HI I) as [[H1 H2 H3 H4 H5 H6 H7 H8 HB HN HT] Ht]. by split.
Qed.

(** ** Positions *)

Lemma nth_check_spec first last k :
  nth_check first last k = true ↔ ∃ n, (0 ≤ n ∧ Z.of_nat k = first * n + last)%Z.
Proof.
  unfold nth_check. set (diff := (Z.of_nat k - last)%Z). rewrite orb_true_iff, !andb_true_iff, negb_true_iff, Z.eqb_neq, !Z.eqb_eq, Z.leb_le.
  split.
  - intros [Hd|[[Hf Hr] Hq]]; [exists 1%Z; lia|]. exists (Z.quot diff first). split; [done|].
    pose proof (Z.quot_rem' diff first). lia.
  - intros (n & Hn & Hk). destruct (decide (first = 0%Z)) as [->|Hf]; [left; lia|right].
    assert (Hd : diff = (n * first)%Z) by lia. rewrite Hd, Z.rem_mul, Z.quot_mul by done. done.
Qed.
Lemma count_reverse counts l : count counts (reverse l) = count counts l.
Proof. unfold count. by rewrite reverse_Permutation. Qed.

(** The positions that a page asks for in one run, one after the other. *)
Fixpoint ask (context : ctx) (asked : list (bool * Z * Z * path)) : M engine (list bool) :=
  match asked with
  | [] => mret []
  | (backward, a, b, elem) :: asked =>
      r ← eval (MNth backward a b) elem context; rs ← ask context asked; mret (r :: rs)
  end.
(** How many elements with the same parent come before (after) an element, and itself. *)
Definition place (backward : bool) (elem : path) : nat :=
  match elem with
  | i :: parent =>
      let nodes := childNodes page parent in
      S (count (is_element page) (if backward then drop (S i) nodes else take i nodes))
  | [] => 0
  end.
(** An element below another node of the page. *)
Definition child_element (elem : path) : Prop :=
  is_element page elem = true ∧
  match elem with i :: (_ :: _) as parent => i < childCount page parent | _ => False end.
Lemma position_place (backward : bool) i parent :
  i < childCount page parent → is_element page (i :: parent) = true →
  position (is_element page) (i :: parent) (if backward then reverse (childNodes page parent) else childNodes page parent) =
    place backward (i :: parent).
Proof.
  intros Hi He. unfold place. set (nodes := childNodes page parent).
  assert (Hl : nodes !! i = Some (i :: parent)).
  { unfold nodes, childNodes. rewrite list_lookup_fmap, lookup_seq_lt by done. done. }
  assert (Hnodes : nodes = take i nodes ++ (i :: parent) :: drop (S i) nodes) by (by rewrite take_drop_middle).
  assert (Hd : NoDup (take i nodes ++ (i :: parent) :: drop (S i) nodes)) by (rewrite <- Hnodes; apply childNodes_NoDup).
  destruct backward.
  - assert (Hrev : reverse nodes = reverse (drop (S i) nodes) ++ (i :: parent) :: reverse (take i nodes)).
    { rewrite Hnodes at 1. by rewrite reverse_app, reverse_cons, <- app_assoc. }
    rewrite Hrev, position_mid; [by rewrite count_reverse| |done]. rewrite elem_of_reverse. intros Hin.
    apply NoDup_app in Hd as (_ & _ & Hd). by inversion Hd.
  - rewrite Hnodes, position_mid; [|intros Hin; apply NoDup_app in Hd as (_ & Hd & _); apply (Hd _ Hin); by left|done].
    by rewrite <- Hnodes.
Qed.

(** C11: in a run whose number no cached position has yet, [:nth-child(an+b)] and
    [:nth-last-child(an+b)], asked of any child elements in any order, hold of an element
    exactly when its place among the elements with its parent, from the front or from the
    back, is [a*n+b] for some [n] that is not negative.  What earlier runs left in the
    caches on the parents and on the siblings may be anything, and what this run leaves
    there is used.  The numbers are integers below [2 ^ 52] in size, where the doubles of
    the program are exact. *)
Theorem nth_child_positions context asked s
    (Hfresh : (∀ p x, nth_cache s !! p = Some x → x.1.1 ≠ dirruns s) ∧
              (∀ e x, nth_last_cache s !! e = Some x → x.1 ≠ dirruns s))
    (Hasked : Forall (λ q, child_element q.2) asked) :
  ∃ rs, (ask context asked s).1 = Ok rs ∧
    Forall2 (λ q r, r = true ↔ ∃ n, (0 ≤ n ∧ Z.of_nat (place q.1.1.1 q.2) = q.1.1.2 * n + q.1.2)%Z) asked rs.
Proof.
  assert (Hs : nth_right page (λ t, t = dirruns s) s).
  { split; [intros p run i diff Hx%Hfresh|intros e run diff p Hx%Hfresh]; done. }
  clear Hfresh. revert s Hs. induction Hasked as [|[[[backward a] b] elem] asked [He Hp] _ IH]; intros s Hs; [by exists []|].
  cbn [fst snd] in *. destruct elem as [|i [|j parent]]; [done..|].
  cbn [ask Matchers.eval]. change (step page parentNode (i :: j :: parent)) with (Some (j :: parent)). cbv iota beta.
  destruct (nth_finds page (λ t, t = dirruns s) backward (j :: parent) (i :: j :: parent) eq_refl s eq_refl Hs) as (H1 & H2 & H3).
  rewrite position_place in H1 by done. unfold mbind, M_bind.
  destruct ((if backward then nth_backward page (j :: parent) (i :: j :: parent)
             else nth_forward page (j :: parent) (i :: j :: parent)) s) as [r s1]. cbn [fst snd] in *. subst r. cbn [mret].
  rewrite <- (only_nth_run _ _ H3) in H2. destruct (IH s1 H2) as (rs & Hrs & HF).
  unfold mret, M_ret. destruct (ask context asked s1) as [r s2]. cbn [fst] in Hrs. subst r.
  exists (nth_check a b (place backward (i :: j :: parent)) :: rs). split; [done|]. constructor; [apply nth_check_spec|done].
Qed.
End evaluation.

Lemma between_queries_start : between_queries engine0.
Proof. split; [by left|done|done|by split]. Qed.
(** The second item of a list is the first from the end, and [2n] of both, although the
    caches of an earlier run say otherwise. *)
Definition stale : engine :=
  Engine 2 [2%Z; 1%Z] OUndefined [] ∅ {[ [0; 0; 0] := (1%Z, 1, 7) ]} {[ [1; 0; 0; 0] := (1%Z, 5) ]}.
Definition sample_ask : list (bool * Z * Z * path) :=
  [(true, 2%Z, 1%Z, [1; 0; 0; 0]); (false, 2%Z, 0%Z, [1; 0; 0; 0]); (false, 2%Z, 0%Z, [0; 0; 0; 0])].
Lemma nth_child_positions_witness :
  (ask sample true (λ _ d, (d + 1)%Z) (λ _ _, Ok []) CNull sample_ask stale).1 = Ok [true; true; false] ∧
  ∃ rs, (ask sample true (λ _ d, (d + 1)%Z) (λ _ _, Ok []) CNull sample_ask stale).1 = Ok rs ∧
    Forall2 (λ q r, r = true ↔ ∃ n, (0 ≤ n ∧ Z.of_nat (place sample q.1.1.1 q.2) = q.1.1.2 * n + q.1.2)%Z) sample_ask rs.
Proof.
  split; [by vm_compute|]. apply (nth_child_positions sample true (λ _ d, (d + 1)%Z) (λ _ _, Ok []) CNull sample_ask stale).
  - split; [intros p x|intros e x]; cbn; rewrite lookup_singleton_Some; by intros [_ <-].
  - repeat constructor; by vm_compute.
Defined.

End Matchers.
