(* ===== verification/SzCompile.v ===== *)
(** * The compiler of the selector engine in jquery.js (Sizzle)

    [Expr.filter], [Expr.pseudos], [matcherFromTokens], [compile] with its cache of
    limited size, and [Sizzle.matches].  [meaning] says without names and caches what a
    selector means. *)

From stdpp Require Import base tactics list strings numbers sets gmap.
From Stdlib Require Import NArith ZArith Lia.
From S2P Require Import Prelude.
From S2P Require Import JsString.
From S2P Require Import Regex.
From S2P Require Import JsArray.
From S2P Require Import SzTree.
From S2P Require Import SzTokens.
From S2P Require Import SzMatch.
Import Tree Tokens Matchers.

Module Compiler.

(** ** [createCache] *)

Section cache.
Context {A : Type}.
Record cache := Cache { c_keys : list jsstr; c_entries : gmap jsstr A }.
Definition cache0 : cache := Cache [] ∅.
Definition cacheLength : nat := 50.
(** [cache(key, value)]. *)
Definition cache_put (key : jsstr) (v : A) (c : cache) : cache :=
  let keys := c_keys c ++ [key] in
  if cacheLength <? length keys then
    Cache (tail keys) (<[key := v]> (match keys with k :: _ => delete k (c_entries c) | [] => c_entries c end))
  else Cache keys (<[key := v]> (c_entries c)).
Definition cache_get (key : jsstr) (c : cache) : option A := c_entries c !! key.

(** The cache keeps its size: every entry has its key in the queue, which is short. *)
Definition cache_bounded (c : cache) : Prop :=
  length (c_keys c) ≤ cacheLength ∧ ∀ k, is_Some (cache_get k c) → k ∈ c_keys c.
Lemma cache_put_entries key v c k x :
  cache_get k (cache_put key v c) = Some x → (k = key ∧ x = v) ∨ cache_get k c = Some x.
Proof.
  unfold cache_put, cache_get. destruct (cacheLength <? _); cbn; destruct (decide (k = key)) as [->|Hk].
  - rewrite lookup_insert_eq. intros [= <-]. by left.
  - rewrite lookup_insert_ne by done. destruct (c_keys c ++ [key]) as [|k0 ks]; [by right|].
    intros [_ ?]%lookup_delete_Some. by right.
  - rewrite lookup_insert_eq. intros [= <-]. by left.
  - rewrite lookup_insert_ne by done. by right.
Qed.
Lemma cache_put_get key v c : cache_get key (cache_put key v c) = Some v.
Proof. unfold cache_put, cache_get. destruct (_ <? _); cbn; by rewrite lookup_insert_eq. Qed.
Lemma cache_put_bounded key v c : cache_bounded c → cache_bounded (cache_put key v c).
Proof.
  intros [Hl Hk]. unfold cache_put. destruct (Nat.ltb_spec cacheLength (length (c_keys c ++ [key]))) as [Hlt|Hge]; split.
  - cbn. rewrite length_app in Hlt. cbn in Hlt. destruct (c_keys c ++ [key]) as [|k ks] eqn:E; [cbn; lia|].
    apply (f_equal length) in E. rewrite length_app in E. cbn in *. lia.
  - intros k [x Hx]. cbn. unfold cache_get in *. cbn in Hx. destruct (c_keys c) as [|k0 ks] eqn:E; [cbn in Hlt; unfold cacheLength in Hlt; lia|].
    cbn. cbn in Hx. destruct (decide (k = key)) as [->|Hkk]; [set_solver|]. rewrite lookup_insert_ne in Hx by done.
    apply lookup_delete_Some in Hx as [Hne Hx]. assert (Hin : k ∈ k0 :: ks) by (apply Hk; by exists x). set_solver.
  - cbn. lia.
  - intros k [x Hx]. cbn. unfold cache_get in *. cbn in Hx. destruct (decide (k = key)) as [->|Hkk]; [set_solver|].
    rewrite lookup_insert_ne in Hx by done. apply elem_of_app. left. apply Hk. by exists x.
Qed.
End cache.
Arguments cache A : clear implicits.

(** ** Filters *)

Section page.
Context `{UnicodeCase}.
Variable page : list tree.
Variable documentIsHTML : bool.
Local Abbreviation node_info := (node_info page).
Local Abbreviation along := (along page).
Local Abbreviation is_element := (is_element page).
(** What the browser says of the page: the root element, [location.hash], the element
    that has the focus as [:focus] asks for it, and the text of a node, in browsers that
    have [textContent]; [innerText] adds nothing to an empty one. *)
Variable docElem : path.
Variable hash : jsstr.
Variable focused : path → bool.
Variable textContent : path → option jsstr.
(** [Expr.attrHandle], which scripts may fill: undefined is [None]. *)
Variable attrHandle : jsstr → option (path → jsstr → option (option jsstr)).
(** Class names in which a letter or digit is escaped, as patterns of the language. *)
Variable escaped_class : jsstr → jsstr → bool.
(** The functions in [Expr.pseudos] under other names: those that scripts add, which keep
    nothing, and the members of Object.prototype, which may throw when they are called
    (as [__defineGetter__] does, and [__proto__], which is no function). *)
Variable extra : jsstr → option (path → outcome bool).

Definition nodeName_lower (e : path) : jsstr := to_lower (nodeName (node_info e)).
(** [nodeName.toLowerCase()] under the flag [i] of a pattern. *)
Definition nodeName_ascii (e : path) : jsstr := ascii_lower_unit <$> nodeName (node_info e).

Definition filter_TAG (nodeNameSelector : jsstr) (e : path) : bool :=
  str_eqb nodeNameSelector (js "*") ||
  (negb (str_eqb (nodeName (node_info e)) []) && str_eqb (nodeName_lower e) (to_lower (unescape nodeNameSelector))).
Definition filter_ID (name : jsstr) (e : path) : bool :=
  bool_decide (attribute (node_info e) (js "id") = Some (unescape name)).

(** The text that [className] matches as a pattern, when it escapes neither letters
    nor digits. *)
Fixpoint class_text (s : jsstr) : option jsstr :=
  match s with
  | 92%N :: c :: s => if is_word c && negb (N.eqb c 95) then None else t ← class_text s; Some (c :: t)
  | c :: s => t ← class_text s; Some (c :: t)
  | [] => Some []
  end.
Definition class_pattern (text : jsstr) : regex :=
  seqs [RAlt RBol whitespace; lit_units text; RAlt whitespace REol].
Definition class_of (e : path) : jsstr :=
  match className (node_info e) with
  | Some ((_ :: _) as s) => s
  | _ => default [] (attribute (node_info e) (js "class"))
  end.
Definition filter_CLASS (name : jsstr) (e : path) : bool :=
  match class_text name with
  | Some text => test (class_pattern text) (class_of e)
  | None => escaped_class name (class_of e)
  end.

(** [Sizzle.attr]. *)
Definition attr (e : path) (name : jsstr) : option jsstr :=
  match attrHandle (to_lower name) with
  | Some fn => match fn e name with Some v => v | None => attribute (node_info e) name end
  | None => attribute (node_info e) name
  end.
Definition filter_ATTR (name : jsstr) (operator : option jsstr) (check : jsstr) (e : path) : bool :=
  match attr e name, operator with
  | None, op => bool_decide (op = Some (js "!="))
  | Some _, None => true
  | Some result, Some op =>
      if str_eqb op (js "=") then str_eqb result check
      else if str_eqb op (js "!=") then negb (str_eqb result check)
      else if str_eqb op (js "^=") then negb (str_eqb check []) && prefixb check result
      else if str_eqb op (js "*=") then negb (str_eqb check []) && contains_str result check
      else if str_eqb op (js "$=") then negb (str_eqb check []) && str_eqb (slice_from result (- zlen check)) check
      else if str_eqb op (js "~=") then
        contains_str (js " " ++ replace_all (plus whitespace) (λ _, js " ") result ++ js " ") check
      else if str_eqb op (js "|=") then
        str_eqb result check || str_eqb (slice result 0 (zlen check + 1)) (check ++ js "-")
      else false
  end.

(** What a filter makes of its arguments: a function that keeps nothing, one that may
    throw, a CHILD filter with caches, [:not] or [:has] with a selector, or a positional pseudo. *)
Inductive test_kind :=
  | Pure (f : path → bool)
  | Call (f : path → outcome bool)
  | Nth (backward : bool) (first last : Z)
  | Not (selector : jsstr)
  | Has (selector : jsstr)
  | Positional.

Definition has_parent (e : path) : bool := match step page parentNode e with Some _ => true | None => false end.
Definition filter_CHILD (ty what : jsstr) (nth : option (Z * Z)) : test_kind :=
  let simple := negb (is_nth ty) in
  let forward := negb (str_eqb (slice_from ty (-4)) (js "last")) in
  let ofType := str_eqb what (js "of-type") in
  let counts e node := if ofType then str_eqb (nodeName_lower node) (nodeName_lower e) else is_element node in
  match nth with
  | Some (1, 0)%Z => Pure has_parent
  | _ =>
      if simple then
        Pure (λ e,
          let none d := negb (existsb (counts e) (along d e)) in
          has_parent e && none (if forward then previousSibling else nextSibling) &&
            (if str_eqb ty (js "only") then none nextSibling else true))
      else
        let '(first, last) := default (0, 0)%Z nth in
        if negb documentIsHTML || ofType then
          Pure (λ e,
            match step page parentNode e with
            | Some parent =>
                let nodes := childNodes page parent in
                nth_check first last (position (counts e) e (if forward then nodes else reverse nodes))
            | None => false
            end)
        else Nth (negb forward) first last
  end.

(** *** Pseudos *)

Definition is_input (ty : jsstr) (e : path) : bool :=
  str_eqb (nodeName_lower e) (js "input") && str_eqb (elemType (node_info e)) ty.
Definition is_button (ty : jsstr) (e : path) : bool :=
  (str_eqb (nodeName_lower e) (js "input") || str_eqb (nodeName_lower e) (js "button")) &&
  str_eqb (elemType (node_info e)) ty.
Definition pseudo_empty (e : path) : bool := negb (existsb (λ p, (nodeType (node_info p) <? 6)%N) (childNodes page e)).
Definition pseudo_checked (e : path) : bool :=
  (str_eqb (nodeName_lower e) (js "input") && checked (node_info e)) ||
  (str_eqb (nodeName_lower e) (js "option") && selected (node_info e)).
Definition pseudo_header (e : path) : bool :=
  match nodeName_ascii e with [104%N; d] => is_digit d | _ => false end.
Definition pseudo_text (e : path) : bool :=
  is_input (js "text") e &&
  match attribute (node_info e) (js "type") with None => true | Some t => str_eqb (to_lower t) (js "text") end.
Definition plain_pseudos : list (jsstr * (path → bool)) := [
  (js "target", λ e, negb (str_eqb hash []) && str_eqb (slice_from hash 1) (id (node_info e)));
  (js "root", λ e, bool_decide (e = docElem));
  (js "focus", focused);
  (js "enabled", λ e, bool_decide (disabled (node_info e) = Some false));
  (js "disabled", λ e, bool_decide (disabled (node_info e) = Some true));
  (js "checked", pseudo_checked);
  (js "selected", λ e, selected (node_info e));
  (js "empty", pseudo_empty);
  (js "parent", λ e, negb (pseudo_empty e));
  (js "header", pseudo_header);
  (js "input", λ e, existsb (str_eqb (nodeName_ascii e)) [js "input"; js "select"; js "textarea"; js "button"]);
  (js "button", λ e, is_input (js "button") e || str_eqb (nodeName_lower e) (js "button"));
  (js "text", pseudo_text);
  (js "radio", is_input (js "radio")); (js "checkbox", is_input (js "checkbox")); (js "file", is_input (js "file"));
  (js "password", is_input (js "password")); (js "image", is_input (js "image"));
  (js "submit", is_button (js "submit")); (js "reset", is_button (js "reset"))].
Definition positionals : list jsstr :=
  [js "first"; js "last"; js "eq"; js "even"; js "odd"; js "lt"; js "gt"; js "nth"].

Definition pseudo_contains (text : jsstr) (e : path) : bool :=
  contains_str (match textContent e with Some s => s | None => getText page [e] end) text.
(** The nearest language in effect decides. *)
Definition lang_of (e : path) : jsstr :=
  if documentIsHTML then lang (node_info e)
  else match attribute (node_info e) (js "xml:lang") with
    | Some ((_ :: _) as s) => s
    | _ => default [] (attribute (node_info e) (js "lang"))
    end.
Fixpoint lang_matches (language : jsstr) (nodes : list path) : bool :=
  match nodes with
  | [] => false
  | e :: nodes =>
      match lang_of e with
      | [] => match nodes with p :: _ => if is_element p then lang_matches language nodes else false | [] => false end
      | s => str_eqb (to_lower s) language || prefixb (language ++ js "-") (to_lower s)
      end
  end.
Definition pseudo_lang (language : jsstr) (e : path) : bool :=
  lang_matches (to_lower (unescape language)) (e :: along parentNode e).

(** The function that [Expr.pseudos] has under a name, given the argument. *)
Definition own_pseudo (name : jsstr) (argument : option jsstr) : option (outcome test_kind) :=
  if str_eqb name (js "not") then
    Some (match argument with Some s => Ok (Not (trim_ws s)) | None => Throw TypeError end)
  else if str_eqb name (js "has") then
    Some (Ok (match argument with Some s => Has s | None => Pure (λ _, false) end))
  else if str_eqb name (js "contains") then
    Some (match argument with Some s => Ok (Pure (pseudo_contains (unescape s))) | None => Throw TypeError end)
  else if str_eqb name (js "lang") then
    Some (match argument with
      | Some s => if test ridentifier s then Ok (Pure (pseudo_lang s)) else Throw syntax_error
      | None => Throw syntax_error
      end)
  else if bool_decide (name ∈ positionals) then Some (Ok Positional)
  else match obj_get name plain_pseudos with
    | Some f => Some (Ok (Pure f))
    | None => match extra name with Some f => Some (Ok (Call f)) | None => None end
    end.
Definition filter_PSEUDO (pseudo : jsstr) (argument : option jsstr) : outcome test_kind :=
  match own_pseudo pseudo argument with
  | Some r => r
  | None => match own_pseudo (to_lower pseudo) argument with Some r => r | None => Throw syntax_error end
  end.

(** [Expr.filter[token.type].apply(null, token.matches)]; combinators have no filter. *)
Definition filter_of (t : token_type) : outcome test_kind :=
  match t with
  | TComb _ => Throw TypeError
  | TTag name => Ok (Pure (filter_TAG name))
  | TClass name => Ok (Pure (filter_CLASS name))
  | TId name => Ok (Pure (filter_ID name))
  | TAttr name operator check => Ok (Pure (filter_ATTR name operator check))
  | TChild ty what nth => Ok (filter_CHILD ty what nth)
  | TPseudo name argument => filter_PSEUDO name argument
  end.

(** ** Compilation *)

(** The counter [done] and the cache of compiled functions.  A function made of element
    matchers is their list; [None] is one that needs set matchers, for a positional
    pseudo. *)
Definition compiled : Type := option (list matcher).
Record compiler := Compilers { done : nat; compilerCache : cache compiled }.
Definition compiler0 : compiler := Compilers 0 cache0.
Definition fresh : M compiler nat := s ← get; _ ← put (Compilers (S (done s)) (compilerCache s)); mret (done s).

Section tokens.
(** [compile], for the argument of [:not]. *)
Variable compile_argument : jsstr → M compiler compiled.

Definition filter_matcher (t : token_type) : M compiler (option matcher) :=
  match filter_of t with
  | Throw e => throw e
  | Ok (Pure f) => mret (Some (MTest f))
  | Ok (Call f) => mret (Some (MCall f))
  | Ok (Nth backward first last) => mret (Some (MNth backward first last))
  | Ok (Not selector) => ms ← compile_argument selector; mret (MNot <$> (ms : compiled))
  | Ok (Has selector) => mret (Some (MHas selector))
  | Ok Positional => mret None
  end.
(** The loop of [matcherFromTokens]; a positional pseudo ends it, and the tokens behind it
    are given to [set_matcher]. *)
Fixpoint add_matchers (set_matcher : list token → M compiler (option matcher)) (tokens : list token)
    (matchers : list matcher) : M compiler (option matcher) :=
  match tokens with
  | [] => mret (Some (elementMatcher matchers))
  | t :: tokens =>
      match type t with
      | TComb c => d ← fresh; add_matchers set_matcher tokens [MComb (relative_of c) d (elementMatcher matchers)]
      | ty =>
          m ← filter_matcher ty;
          match m with Some m => add_matchers set_matcher tokens (matchers ++ [m]) | None => set_matcher tokens end
      end
  end.
(** The tokens up to the next relative operator, and those from it on. *)
Fixpoint next_relative (tokens : list token) : list token * list token :=
  match tokens with
  | [] => ([], [])
  | t :: rest =>
      match type t with
      | TComb _ => ([], tokens)
      | _ => let (filters, finder) := next_relative rest in (t :: filters, finder)
      end
  end.
(** The arguments of [setMatcher] that are compiled: the post-filter and the post-finder.
    What [setMatcher] makes of them is not modelled. *)
Definition setMatcher (matcherFromTokens : list token → M compiler (option matcher)) (tokens : list token) :
    M compiler (option matcher) :=
  let (filters, finder) := next_relative tokens in
  _ ← (match filters with [] => mret None | _ => matcherFromTokens filters end);
  _ ← (match finder with [] => mret None | _ => matcherFromTokens finder end);
  mret None.
(** The fuel bounds the number of tokens. *)
Fixpoint matcherFromTokens_at (fuel : nat) (tokens : list token) : M compiler (option matcher) :=
  match fuel, tokens with
  | 0, _ => throw Diverge
  | S k, [] => throw TypeError
  | S k, t :: rest =>
      let leadingRelative := match type t with TComb c => Some (relative_of c) | _ => None end in
      let implicitRelative := default (parentNode, false) leadingRelative in
      matchContext ← fresh;
      matchAnyContext ← fresh;
      let matchers := [MContext (bool_decide (is_Some leadingRelative)) implicitRelative matchContext matchAnyContext] in
      add_matchers (setMatcher (matcherFromTokens_at k)) (match leadingRelative with Some _ => rest | None => tokens end) matchers
  end.
Definition matcherFromTokens (tokens : list token) : M compiler (option matcher) :=
  matcherFromTokens_at (S (length tokens)) tokens.
(** The loop of [compile] over the groups, from the last one. *)
Fixpoint compile_groups (groups : list (list token)) (elementMatchers : list matcher) (sets : bool) : M compiler compiled :=
  match groups with
  | [] => mret (if sets then None else Some elementMatchers)
  | tokens :: groups =>
      m ← matcherFromTokens tokens;
      match m with
      | Some m => compile_groups groups (elementMatchers ++ [m]) sets
      | None => compile_groups groups elementMatchers true
      end
  end.
End tokens.

(** [compile(selector, match)]; the fuel bounds the depth of [:not]. *)
Fixpoint compile_at (fuel : nat) (selector : jsstr) (match_ : option (list (list token))) : M compiler compiled :=
  match fuel with
  | 0 => throw Diverge
  | S k =>
      s ← get;
      match cache_get selector (compilerCache s) with
      | Some cached => mret cached
      | None =>
          groups ← (match match_ with
            | Some g => mret g
            | None => match tokenize selector with Ok g => mret g | Throw e => throw e end
            end);
          cached ← compile_groups (λ q, compile_at k q None) (reverse groups) [] false;
          _ ← modify (λ s, Compilers (done s) (cache_put selector cached (compilerCache s)));
          mret cached
      end
  end.
Definition compile (selector : jsstr) : M compiler compiled := compile_at (S (length selector)) selector None.

(** ** [Sizzle.matches] *)

Variable nested_run : nat → Z → Z.
Variable native : jsstr → path → outcome (list path).
Variable document : path.

Definition on_engine {A} (m : M engine A) : M (engine * compiler) A := λ s, let '(r, e) := m s.1 in (r, (e, s.2)).
Definition on_compiler {A} (m : M compiler A) : M (engine * compiler) A := λ s, let '(r, c) := m s.2 in (r, (s.1, c)).
(** [Sizzle(expr, null, null, elements)]: with a seed nothing is searched for.  [None]
    stands for the result of a function with set matchers. *)
Definition matches (expr : jsstr) (elements : list path) : M (engine * compiler) (option (list path)) :=
  match expr with
  | [] => mret (Some [])
  | _ =>
      ms ← on_compiler (compile (trim_ws expr));
      match (ms : compiled) with
      | None => mret None
      | Some ms =>
          found ← on_engine (superMatcher page documentIsHTML nested_run (native_sizzle native) document ms elements document true);
          mret (Some found)
      end
  end.
(** [Sizzle.matchesSelector] where the browser has no [matches] that can be used. *)
Definition matchesSelector (elem : path) (expr : jsstr) : M (engine * compiler) (option bool) :=
  let rattributeQuotes := seqs [lit "="; ws; RGroup 1 (RStar false (RSet (λ c, ncls "]'" c && negb (N.eqb c 34)))); ws; lit "]"] in
  found ← matches (replace_all rattributeQuotes (λ m, js "='" ++ capture_str m 1 ++ js "']") expr) [elem];
  mret ((λ l, match l with [] => false | _ => true end) <$> (found : option (list path))).

(** ** The meaning of a selector *)

(** A predicate on elements, given the outermost context and the context. *)
Definition predicate : Type := outermost_ctx → ctx → path → M unit bool.
Definition also (p q : predicate) : predicate := λ o c e, b ← q o c e; if (b : bool) then p o c e else mret false.

Section means.
Variable argument_means : jsstr → outcome (option predicate).
Definition filter_means (t : token_type) : outcome (option predicate) :=
  match filter_of t with
  | Throw e => Throw e
  | Ok (Pure f) => Ok (Some (λ _ _ e, mret (f e)))
  | Ok (Call f) => Ok (Some (λ _ _ e u, (f e, u)))
  | Ok (Nth backward first last) =>
      Ok (Some (λ _ _ e,
        match step page parentNode e with
        | None => mret false
        | Some parent =>
            let nodes := childNodes page parent in
            mret (nth_check first last (position is_element e (if backward then reverse nodes else nodes)))
        end))
  | Ok (Not selector) =>
      match argument_means selector with
      | Throw e => Throw e
      | Ok None => Ok None
      | Ok (Some p) => Ok (Some (λ o _ e, b ← p o CNull e; mret (negb b)))
      end
  | Ok (Has selector) => Ok (Some (λ _ _ e, native_has native selector e))
  | Ok Positional => Ok None
  end.
(** What stands behind a positional pseudo only has to be right: its first error. *)
Fixpoint rest_mean (tokens : list token) : outcome (option predicate) :=
  match tokens with
  | [] => Ok None
  | t :: tokens =>
      match type t with
      | TComb _ => rest_mean tokens
      | ty => match filter_means ty with Throw e => Throw e | Ok _ => rest_mean tokens end
      end
  end.
(** A compound selector after what is left of it. *)
Fixpoint tokens_mean (tokens : list token) (p : predicate) : outcome (option predicate) :=
  match tokens with
  | [] => Ok (Some p)
  | t :: tokens =>
      match type t with
      | TComb c => tokens_mean tokens (λ o x e, related page (relative_of c) false (λ e', p o x e') e)
      | ty =>
          match filter_means ty with
          | Throw e => Throw e
          | Ok None => rest_mean tokens
          | Ok (Some q) => tokens_mean tokens (also p q)
          end
      end
  end.
Definition group_means (tokens : list token) : outcome (option predicate) :=
  match tokens with
  | [] => Throw TypeError
  | t :: rest =>
      match type t with
      | TComb c => tokens_mean rest (λ o x e, within page documentIsHTML o true (relative_of c) e x)
      | _ => tokens_mean tokens (λ o x e, within page documentIsHTML o false (parentNode, false) e x)
      end
  end.
Definition either (ps : list predicate) : predicate := λ o c e, any_of (λ p : predicate, p o c e) ps.
Fixpoint groups_mean (groups : list (list token)) (ps : list predicate) (sets : bool) : outcome (option predicate) :=
  match groups with
  | [] => Ok (if sets then None else Some (either ps))
  | g :: groups =>
      match group_means g with
      | Throw e => Throw e
      | Ok (Some p) => groups_mean groups (ps ++ [p]) sets
      | Ok None => groups_mean groups ps true
      end
  end.
End means.
Fixpoint meaning_at (fuel : nat) (selector : jsstr) : outcome (option predicate) :=
  match fuel with
  | 0 => Throw Diverge
  | S k =>
      match tokenize selector with
      | Throw e => Throw e
      | Ok groups => groups_mean (meaning_at k) (reverse groups) [] false
      end
  end.
(** What a selector means: an error of its syntax, [None] for a selector with a positional
    pseudo, or the predicate that it stands for. *)
Definition meaning (selector : jsstr) : outcome (option predicate) := meaning_at (S (length selector)) selector.

(** ** The fuel is enough *)

Lemma own_pseudo_Not name argument r q :
  own_pseudo name argument = Some r → r = Ok (Not q) → ∃ a, argument = Some a ∧ q = trim_ws a.
Proof.
  unfold own_pseudo. intros Hr ->. destruct (str_eqb name (js "not")).
  { destruct argument as [a|]; [|done]. injection Hr as <-. by exists a. }
  repeat case_match; simplify_eq.
Qed.
Lemma filter_of_Not t q : filter_of t = Ok (Not q) → ∃ name a, t = TPseudo name (Some a) ∧ q = trim_ws a.
Proof.
  destruct t as [c|name|name|name op check|ty what nth|name argument|name]; cbn; try done.
  - unfold filter_CHILD. repeat case_match; done.
  - unfold filter_PSEUDO. destruct (own_pseudo name argument) as [r|] eqn:E.
    + intros Hr. destruct (own_pseudo_Not _ _ _ _ E Hr) as (a & -> & ->). by exists name, a.
    + destruct (own_pseudo (to_lower name) argument) as [r|] eqn:E'; [|done].
      intros Hr. destruct (own_pseudo_Not _ _ _ _ E' Hr) as (a & -> & ->). by exists name, a.
Qed.
Lemma filter_of_total t : filter_of t ≠ Throw Diverge.
Proof.
  destruct t as [c|name|name|name op check|ty what nth|name argument|name]; cbn; try done.
  assert (Hp : ∀ n r, own_pseudo n argument = Some r → r ≠ Throw Diverge).
  { intros n r. unfold own_pseudo. by repeat case_match; intros ?; simplify_eq. }
  unfold filter_PSEUDO. destruct (own_pseudo name argument) as [r|] eqn:E; [by eapply Hp|].
  destruct (own_pseudo (to_lower name) argument) as [r|] eqn:E'; [by eapply Hp|done].
Qed.

Section agreement.
Context (f g : jsstr → outcome (option predicate)) (L : nat).
Hypothesis Hfg : ∀ q, length q < L → f q = g q.
Lemma filter_means_ext t : (∀ name a, t = TPseudo name (Some a) → length a < L) → filter_means f t = filter_means g t.
Proof.
  intros Ht. unfold filter_means. destruct (filter_of t) as [[]|] eqn:E; try done.
  apply filter_of_Not in E as (name & a & -> & ->). rewrite Hfg; [done|]. pose proof (trim_shorter a).
  pose proof (Ht _ _ eq_refl). lia.
Qed.
Lemma rest_mean_ext tokens : Forall (argument_below L) tokens → rest_mean f tokens = rest_mean g tokens.
Proof.
  intros Ht. induction Ht as [|t tokens Ht _ IH]; [done|]. cbn [rest_mean].
  destruct (type t) eqn:E; [done|..]; rewrite filter_means_ext by (intros ? ? Hq; eapply Ht; rewrite E; exact Hq);
    by destruct (filter_means _ _).
Qed.
Lemma tokens_mean_ext tokens p : Forall (argument_below L) tokens → tokens_mean f tokens p = tokens_mean g tokens p.
Proof.
  intros Ht. revert p. induction Ht as [|t tokens Ht Hts IH]; intros p; [done|]. cbn [tokens_mean].
  destruct (type t) eqn:E; [apply IH|..]; (rewrite filter_means_ext by (intros ? ? Hq; eapply Ht; rewrite E; exact Hq);
    destruct (filter_means _ _) as [[]|]; [apply IH|by apply rest_mean_ext|done]).
Qed.
Lemma group_means_ext tokens : Forall (argument_below L) tokens → group_means f tokens = group_means g tokens.
Proof.
  intros Ht. destruct tokens as [|t rest]; [done|]. cbn [group_means]. inversion Ht; subst.
  destruct (type t) eqn:E; by apply tokens_mean_ext.
Qed.
Lemma groups_mean_ext groups ps sets :
  Forall (Forall (argument_below L)) groups → groups_mean f groups ps sets = groups_mean g groups ps sets.
Proof.
  intros Hg. revert ps sets. induction Hg as [|t groups Ht _ IH]; intros ps sets; [done|]. cbn [groups_mean].
  rewrite group_means_ext by done. destruct (group_means g t) as [[]|]; [apply IH|apply IH|done].
Qed.
End agreement.

Lemma meaning_at_enough k k' selector : length selector < k → length selector < k' → meaning_at k selector = meaning_at k' selector.
Proof.
  revert k' selector. induction k as [|k IH]; intros k' selector Hk Hk'; [lia|]. destruct k' as [|k']; [lia|]. cbn [meaning_at].
  destruct (tokenize selector) as [groups|] eqn:E; [|done]. apply tokenize_argument in E.
  apply (groups_mean_ext _ _ (length selector)); [intros q Hq; apply IH; lia|]. by apply Forall_reverse.
Qed.
Lemma meaning_at_meaning k selector : length selector < k → meaning_at k selector = meaning selector.
Proof. intros Hk. apply meaning_at_enough; [done|lia]. Qed.

Lemma meaning_at_total k selector : length selector < k → meaning_at k selector ≠ Throw Diverge.
Proof.
  revert selector. induction k as [|k IH]; intros selector Hk; [lia|]. cbn [meaning_at].
  pose proof (tokenize_spelled selector) as Hsp. destruct (tokenize selector) as [groups|e] eqn:E; [|by intros [= ->]].
  apply tokenize_argument, Forall_reverse in E. clear Hsp.
  assert (Hf : ∀ t, (∀ name a, t = TPseudo name (Some a) → length a < length selector) → filter_means (meaning_at k) t ≠ Throw Diverge).
  { intros t Ht. unfold filter_means. pose proof (filter_of_total t) as Hd. destruct (filter_of t) as [[]|] eqn:Ef; try done.
    - apply filter_of_Not in Ef as (name & a & -> & ->). pose proof (Ht _ _ eq_refl). pose proof (trim_shorter a).
      specialize (IH (trim_ws a) ltac:(lia)). by destruct (meaning_at k (trim_ws a)) as [[]|]; [| |intros [= ->]].
    - by intros [= ->]. }
  assert (Hrest : ∀ tokens, Forall (argument_below (length selector)) tokens → rest_mean (meaning_at k) tokens ≠ Throw Diverge).
  { intros tokens Ht. induction Ht as [|t tokens Ht _ IHt]; [done|]. cbn [rest_mean].
    destruct (type t) eqn:Et; [done|..];
      (match goal with |- context [filter_means _ ?ty] => pose proof (Hf ty) as Hft; destruct (filter_means (meaning_at k) ty) end;
       [done|]); intros [= ->]; (destruct Hft; [|done]); intros ? ? Hq; eapply Ht; rewrite Et; exact Hq. }
  assert (Ht : ∀ tokens p, Forall (argument_below (length selector)) tokens → tokens_mean (meaning_at k) tokens p ≠ Throw Diverge).
  { intros tokens p Ht. revert p. induction Ht as [|t tokens Ht Hts IHt]; intros p; [done|]. cbn [tokens_mean].
    destruct (type t) eqn:Et; [apply IHt|..];
      (match goal with |- context [filter_means _ ?ty] => pose proof (Hf ty) as Hft; destruct (filter_means (meaning_at k) ty) as [[]|] end;
       [apply IHt|by apply Hrest|]); intros [= ->]; (destruct Hft; [|done]); intros ? ? Hq; eapply Ht; rewrite Et; exact Hq. }
  generalize ([] : list predicate) false. induction E as [|g gs Hg _ IHg]; intros ps sets; [done|]. cbn [groups_mean].
  assert (Hgm : group_means (meaning_at k) g ≠ Throw Diverge).
  { destruct g as [|t rest]; [done|]. cbn [group_means]. inversion Hg; subst. destruct (type t); by apply Ht. }
  destruct (group_means _ g) as [[]|]; [apply IHg|apply IHg|by intros [= ->]].
Qed.

(** ** What is compiled means what the selector means *)

Local Abbreviation sem := (sem page documentIsHTML (native_has native)).
Implicit Types (X : list nat) (s : compiler) (ms : list matcher) (p : predicate).

Definition names ms : list nat := (ms ≫= own) ++ (ms ≫= nested).
(** Names that were given out, and not for what is being compiled. *)
Definition names_ok X s (l : list nat) : Prop := ∀ d, d ∈ l → d < done s ∧ d ∉ X.
(** A list of matchers that can be run, of which [all] hold, or [any], when [p] does. *)
Record good (run : (matcher → M unit bool) → list matcher → M unit bool) X s ms p : Prop := {
  good_separate : separate ms;
  good_named : ∀ m, m ∈ ms → well_named m;
  good_names : names_ok X s (names ms);
  good_means : ∀ o c e, run (λ m, sem o m e c) ms tt = p o c e tt;
}.
Definition cache_right X s : Prop := ∀ selector cached,
  cache_get selector (compilerCache s) = Some cached →
  match meaning selector, cached with
  | Ok None, None => True
  | Ok (Some p), Some ms => good any_of X s ms p
  | _, _ => False
  end.
Definition later s s' : Prop := done s ≤ done s'.

Lemma done_later_refl s : later s s.
Proof. unfold later. lia. Qed.
Lemma done_later_trans s1 s2 s3 : later s1 s2 → later s2 s3 → later s1 s3.
Proof. unfold later. lia. Qed.
#[local] Hint Resolve done_later_refl : core.
Lemma names_ok_later X s s' l : later s s' → names_ok X s l → names_ok X s' l.
Proof. intros Hl Hn d [Hd HX]%Hn. unfold later in Hl. split; [lia|done]. Qed.
Lemma good_change run X X' s s' ms p :
  (∀ d, d ∈ names ms → d < done s ∧ d ∉ X → d < done s' ∧ d ∉ X') → good run X s ms p → good run X' s' ms p.
Proof. intros Hc [H1 H2 H3 H4]. split; [done|done| |done]. intros d Hd. apply Hc; [done|by apply H3]. Qed.
Lemma cache_right_change X X' s s' :
  compilerCache s' = compilerCache s → (∀ d, d < done s ∧ d ∉ X → d < done s' ∧ d ∉ X') → cache_right X s → cache_right X' s'.
Proof.
  intros Hs Hc Hr selector cached. rewrite Hs. intros E%Hr. destruct (meaning selector) as [[p|]|], cached as [ms|]; try done.
  eapply good_change; [|done]. intros d _. apply Hc.
Qed.
Lemma cache_right_weaken X Y s : cache_right (X ++ Y) s → cache_right X s.
Proof. apply cache_right_change; [done|]. intros d. rewrite elem_of_app. tauto. Qed.

Lemma elementMatcher_own ms : own (elementMatcher ms) = ms ≫= own.
Proof. destruct ms as [|m [|n ms]]; [done| |done]. cbn. by rewrite app_nil_r. Qed.
Lemma elementMatcher_nested ms : nested (elementMatcher ms) = ms ≫= nested.
Proof. destruct ms as [|m [|n ms]]; [done| |done]. cbn. by rewrite app_nil_r. Qed.
Lemma elementMatcher_named ms : (∀ m, m ∈ ms → well_named m) → well_named (elementMatcher ms).
Proof. intros Hm. destruct ms as [|m [|n ms]]; [done|apply Hm; by left|]. by apply foldr_and. Qed.
Lemma elementMatcher_sem o ms c e : sem o (elementMatcher ms) e c tt = all_from_last (λ m, sem o m e c) ms tt.
Proof. by destruct ms as [|m [|n ms]]. Qed.
Lemma all_snoc {A} (f : A → M unit bool) l a :
  all_from_last f (l ++ [a]) tt = (b ← f a; if (b : bool) then all_from_last f l else mret false) tt.
Proof.
  unfold mbind, M_bind. induction l as [|x l IH].
  - change (all_from_last f ([] ++ [a]) tt) with (f a tt). by destruct (f a tt) as [[[]|] []].
  - cbn. unfold mbind, M_bind. rewrite IH. destruct (f a tt) as [[[]|] []]; cbn; try done.
Qed.
Lemma any_snoc {A} (f : A → M unit bool) l a :
  any_of f (l ++ [a]) tt = (b ← any_of f l; if (b : bool) then mret true else f a) tt.
Proof.
  unfold mbind, M_bind. induction l as [|x l IH]; cbn; unfold mbind, M_bind.
  - by destruct (f a tt) as [[[]|] []].
  - destruct (f x tt) as [[[]|] []]; cbn; try done.
Qed.

(** What is made of the tokens so far, with the cache apart from its names, which are
    [B] or more. *)
Record made (B : nat) (run : (matcher → M unit bool) → list matcher → M unit bool) X s ms p : Prop := {
  made_good : good run X s ms p;
  made_fresh : B ≤ done s ∧ ∀ d, d ∈ ms ≫= own → B ≤ d;
  made_cache : cache_right (X ++ (ms ≫= own)) s;
  made_below : ∀ x, x ∈ X → x < done s;
}.
(** The answer of a part of the compiler, given the meaning. *)
Definition answers {A} X s (r : outcome (option A) * compiler) (m : outcome (option predicate)) (good : A → predicate → Prop) : Prop :=
  cache_right X r.2 ∧ later s r.2 ∧
  match m with
  | Throw e => r.1 = Throw e
  | Ok None => r.1 = Ok None
  | Ok (Some p) => ∃ a, r.1 = Ok (Some a) ∧ good a p
  end.

Lemma fresh_spec s : fresh s = (Ok (done s), Compilers (S (done s)) (compilerCache s)).
Proof. done. Qed.

Section loops.
Variable cmp : jsstr → M compiler compiled.
Variable L : nat.
Hypothesis cmp_spec : ∀ q X s, length q < L → cache_right X s → (∀ x, x ∈ X → x < done s) →
  answers X s (cmp q s) (meaning q) (λ ms p, good any_of X (cmp q s).2 ms p).

(** A matcher without names of its own. *)
Lemma made_test B X s ms p m q :
  own m = [] → well_named m → names_ok (X ++ (ms ≫= own)) s (nested m) →
  (∀ o c e, sem o m e c tt = q o c e tt) → made B all_from_last X s ms p → made B all_from_last X s (ms ++ [m]) (also p q).
Proof.
  intros Ho Hw Hn Hq [[[Hd Hap] Hwn Hok Hm] Hfr Hc Hb].
  assert (Hown : (ms ++ [m]) ≫= own = ms ≫= own) by (rewrite bind_app; cbn; by rewrite Ho, !app_nil_r).
  assert (Hnest : (ms ++ [m]) ≫= nested = (ms ≫= nested) ++ nested m) by (rewrite bind_app; cbn; by rewrite app_nil_r).
  split; [|by rewrite Hown|by rewrite Hown|done]. split.
  - split; rewrite Hown; [done|]. rewrite Hnest. intros d Hin [Hd'|Hd']%elem_of_app; [by apply (Hap d)|].
    apply Hn in Hd' as [_ Hd']. apply Hd', elem_of_app. by right.
  - intros n [Hin|Hin]%elem_of_app; [by apply Hwn|]. by apply list_elem_of_singleton in Hin as ->.
  - intros d. unfold names. rewrite Hown, Hnest. intros [Hin|[Hin|Hin]%elem_of_app]%elem_of_app.
    + apply Hok, elem_of_app. by left.
    + apply Hok, elem_of_app. by right.
    + apply Hn in Hin as [? Hin]. split; [done|]. intros HX. apply Hin, elem_of_app. by left.
  - intros o c e. rewrite all_snoc. unfold also, mbind, M_bind. rewrite Hq.
    destruct (q o c e tt) as [[[]|] []]; [apply Hm|done..].
Qed.
Lemma made_comb B X s ms p c :
  made B all_from_last X s ms p →
  made B all_from_last X (Compilers (S (done s)) (compilerCache s)) [MComb (relative_of c) (done s) (elementMatcher ms)]
    (λ o x e, related page (relative_of c) false (λ e', p o x e') e).
Proof.
  intros [[[Hd Hap] Hwn Hok Hm] [HB Hfr] Hc Hb].
  assert (Hlt : ∀ d, d ∈ names ms → d ≠ done s) by (intros d [Hd' _]%Hok; lia).
  assert (Hown : [MComb (relative_of c) (done s) (elementMatcher ms)] ≫= own = done s :: (ms ≫= own)).
  { cbn. by rewrite app_nil_r, elementMatcher_own. }
  assert (Hnest : [MComb (relative_of c) (done s) (elementMatcher ms)] ≫= nested = ms ≫= nested).
  { cbn. by rewrite app_nil_r, elementMatcher_nested. }
  split; [split|..].
  - split; rewrite Hown.
    + constructor; [|done]. intros Hin. apply (Hlt (done s)); [|done]. apply elem_of_app. by left.
    + rewrite Hnest. intros d [->|Hin]%elem_of_cons Hn; [|by apply (Hap d)]. apply (Hlt (done s)); [|done]. apply elem_of_app. by right.
  - intros m ->%list_elem_of_singleton. by apply elementMatcher_named.
  - intros d. unfold names. rewrite Hown, Hnest. cbn [done app]. intros [->|Hin]%elem_of_cons.
    + split; [lia|]. intros Hx%Hb. lia.
    + apply Hok in Hin as [? ?]. split; [lia|done].
  - intros o x e.
    change (related page (relative_of c) false (λ e', sem o (elementMatcher ms) e' x) e tt =
      related page (relative_of c) false (λ e', p o x e') e tt). unfold related.
    assert (Hf : ∀ e', sem o (elementMatcher ms) e' x tt = p o x e' tt).
    { intros e'. by rewrite elementMatcher_sem, Hm. }
    destruct (relative_of c) as [d first].
    assert (Hl : ∀ l, (if first then closest else any_on) (checks page false d) (λ e', sem o (elementMatcher ms) e' x) l tt =
      (if first then closest else any_on) (checks page false d) (λ e', p o x e') l tt).
    { intros l. destruct first; (induction l as [|a l IH]; [done|]); cbn; (destruct (checks page false d a); [|done]); [apply Hf|].
      unfold mbind, M_bind. rewrite Hf. destruct (p o x a tt) as [[[]|] []]; [done|apply IH|done]. }
    apply Hl.
  - rewrite Hown. cbn. split; [lia|]. intros d [->|Hin]%elem_of_cons; [done|by apply Hfr].
  - rewrite Hown. apply (cache_right_change (X ++ (ms ≫= own)) _ s); [done| |exact Hc]. cbn. intros d [Hd' HX]. split; [lia|].
    rewrite elem_of_app, elem_of_cons in *. intros [?|[->|?]]; [tauto|lia|tauto].
  - cbn. intros x Hx%Hb. lia.
Qed.

Lemma filter_matcher_spec B X s ms p t :
  (∀ name a, t = TPseudo name (Some a) → length a < L) → made B all_from_last X s ms p →
  answers X s (filter_matcher cmp t s) (filter_means meaning t)
    (λ m q, made B all_from_last X (filter_matcher cmp t s).2 (ms ++ [m]) (also p q)).
Proof.
  intros Ht Hm. pose proof (cache_right_weaken _ _ _ (made_cache _ _ _ _ _ _ Hm)) as Hc.
  unfold answers, filter_matcher, filter_means. destruct (filter_of t) as [[f|f|b i j|q|q|]|e] eqn:E; try done.
  - split; [done|]. split; [done|]. eexists. split; [done|]. apply made_test; [done|done|by intros d Hd%elem_of_nil|done|done].
  - split; [done|]. split; [done|]. eexists. split; [done|]. apply made_test; [done|done|by intros d Hd%elem_of_nil|done|done].
  - split; [done|]. split; [done|]. eexists. split; [done|]. apply made_test; [done|done|by intros d Hd%elem_of_nil| |done].
    intros o c x. cbn. by destruct (step page parentNode x).
  - apply filter_of_Not in E as (name & a & -> & ->). specialize (Ht _ _ eq_refl). pose proof (trim_shorter a).
    destruct Hm as [[[Hd Hap] Hwn Hok Hm] [HB Hfr] Hc' Hb].
    destruct (cmp_spec (trim_ws a) (X ++ (ms ≫= own)) s) as (Hcr & Hl & Hr); [lia|done| |].
    { intros x [Hx|Hx]%elem_of_app; [by apply Hb|]. apply Hok, elem_of_app. by left. }
    unfold mbind, M_bind. destruct (cmp (trim_ws a) s) as [r s']. cbn [fst snd] in *.
    destruct (meaning (trim_ws a)) as [[q|]|e].
    + destruct Hr as (msn & -> & [Hs1 Hn1 Ho1 Hm1]). cbn [fst snd]. split; [by apply cache_right_weaken in Hcr|]. split; [done|].
      eexists. split; [done|]. apply made_test; [done| | | |].
      * split; [done|]. by apply foldr_and.
      * exact Ho1.
      * intros o c x. cbn. unfold mbind, M_bind. rewrite Hm1. by destruct (q o CNull x tt) as [[]].
      * unfold later in Hl. split; [split| |done|].
        -- done.
        -- done.
        -- by eapply names_ok_later.
        -- done.
        -- split; [cbn; lia|done].
        -- intros x Hx%Hb. cbn. lia.
    + rewrite Hr. split; [by apply cache_right_weaken in Hcr|]. done.
    + rewrite Hr. split; [by apply cache_right_weaken in Hcr|]. done.
  - split; [done|]. split; [done|]. eexists. split; [done|]. apply made_test; [done|done|by intros d Hd%elem_of_nil|done|done].
Qed.

(** *** What stands behind a positional pseudo *)

Lemma rest_mean_none f tokens : match rest_mean f tokens with Ok (Some _) => False | _ => True end.
Proof.
  induction tokens as [|t tokens IH]; [done|]. cbn [rest_mean]. destruct (type t); try done; by destruct (filter_means _ _).
Qed.
Lemma rest_mean_app f l1 l2 :
  rest_mean f (l1 ++ l2) = match rest_mean f l1 with Throw e => Throw e | Ok _ => rest_mean f l2 end.
Proof.
  induction l1 as [|t l1 IH]; [done|]. cbn [app rest_mean]. destruct (type t); [done|..]; by destruct (filter_means _ _).
Qed.
(** The first error of a compound selector is that of its tokens. *)
Definition errs_as (m rest : outcome (option predicate)) : Prop :=
  match m with Throw e => rest = Throw e | Ok _ => rest = Ok None end.
Lemma tokens_mean_rest f tokens p : errs_as (tokens_mean f tokens p) (rest_mean f tokens).
Proof.
  revert p. induction tokens as [|t tokens IH]; intros p; [done|]. cbn [tokens_mean rest_mean].
  assert (Hrest : errs_as (rest_mean f tokens) (rest_mean f tokens)).
  { pose proof (rest_mean_none f tokens). by destruct (rest_mean f tokens) as [[]|]. }
  destruct (type t); [apply IH|..]; (destruct (filter_means _ _) as [[q|]|]; [apply IH|done|done]).
Qed.
Lemma group_means_rest f tokens : tokens ≠ [] → errs_as (group_means f tokens) (rest_mean f tokens).
Proof.
  intros Hn. destruct tokens as [|t rest]; [done|]. cbn [group_means].
  destruct (type t) eqn:E; [|apply tokens_mean_rest..]. cbn [rest_mean]. rewrite E. apply tokens_mean_rest.
Qed.
Lemma next_relative_app tokens : (next_relative tokens).1 ++ (next_relative tokens).2 = tokens.
Proof.
  induction tokens as [|t tokens IH]; [done|]. cbn [next_relative].
  destruct (type t); [done|..]; destruct (next_relative tokens) as [l1 l2]; cbn in *; by rewrite IH.
Qed.

(** What is asked of the function that gets the tokens behind a positional pseudo. *)
Definition set_right (n : nat) (set : list token → M compiler (option matcher)) : Prop := ∀ tokens X s,
  length tokens < n → Forall (argument_below L) tokens → cache_right X s → (∀ x, x ∈ X → x < done s) →
  answers X s (set tokens s) (rest_mean meaning tokens) (λ _ _, False).
Definition tokens_right (n : nat) (mft : list token → M compiler (option matcher)) : Prop := ∀ tokens X s,
  length tokens < n → Forall (argument_below L) tokens → cache_right X s → (∀ x, x ∈ X → x < done s) →
  answers X s (mft tokens s) (group_means meaning tokens)
    (λ m q, ∃ ms', m = elementMatcher ms' ∧ made (done s) all_from_last X (mft tokens s).2 ms' q).

(** An optional part: its error, or nothing. *)
Lemma part_right n mft X tokens s :
  tokens_right n mft → length tokens < n → Forall (argument_below L) tokens → cache_right X s → (∀ x, x ∈ X → x < done s) →
  let r := (match tokens with [] => mret None | _ => mft tokens end : M compiler (option matcher)) s in
  cache_right X r.2 ∧ later s r.2 ∧
  match rest_mean meaning tokens with Throw e => r.1 = Throw e | Ok _ => ∃ m, r.1 = Ok m end.
Proof.
  intros Hmft Hl Ht Hc Hb r. destruct tokens as [|t tokens]; [split; [done|]; split; [done|by eexists]|].
  destruct (Hmft (t :: tokens) X s Hl Ht Hc Hb) as (H1 & H2 & H3). split; [done|]. split; [done|].
  pose proof (group_means_rest meaning (t :: tokens) ltac:(done)) as He. unfold r, errs_as in *.
  destruct (group_means meaning (t :: tokens)) as [[q|]|e]; rewrite He; [|by eexists|done].
  destruct H3 as (m & -> & _). by eexists.
Qed.
Lemma setMatcher_right n mft : tokens_right n mft → set_right n (setMatcher mft).
Proof.
  intros Hmft tokens X s Hl Ht Hc Hb. unfold setMatcher. pose proof (next_relative_app tokens) as Happ.
  destruct (next_relative tokens) as [filters finder]. cbn [fst snd] in Happ. subst tokens.
  rewrite length_app in Hl. apply Forall_app in Ht as [Ht1 Ht2]. rewrite rest_mean_app.
  destruct (part_right n mft X filters s Hmft ltac:(lia) Ht1 Hc Hb) as (H1 & H2 & H3).
  unfold mbind, M_bind. destruct ((match filters with [] => mret None | _ => mft filters end : M compiler (option matcher)) s) as [r1 s1].
  cbn [fst snd] in *. destruct (rest_mean meaning filters) as [o|e]; [|by rewrite H3].
  destruct H3 as [m1 ->]. unfold later in H2.
  destruct (part_right n mft X finder s1 Hmft ltac:(lia) Ht2 H1) as (H4 & H5 & H6); [intros x Hx%Hb; lia|].
  destruct ((match finder with [] => mret None | _ => mft finder end : M compiler (option matcher)) s1) as [r2 s2].
  cbn [fst snd] in *. unfold later in H5. pose proof (rest_mean_none meaning finder) as Hnone.
  unfold answers. destruct (rest_mean meaning finder) as [[q|]|e]; [done| |].
  - destruct H6 as [m2 ->]. split; [done|]. split; [unfold later; cbn; lia|done].
  - rewrite H6. split; [done|]. split; [unfold later; cbn; lia|done].
Qed.

Lemma add_matchers_spec set n B X tokens s ms p :
  set_right n set → length tokens ≤ n → Forall (argument_below L) tokens → made B all_from_last X s ms p →
  answers X s (add_matchers cmp set tokens ms s) (tokens_mean meaning tokens p)
    (λ m q, ∃ ms', m = elementMatcher ms' ∧ made B all_from_last X (add_matchers cmp set tokens ms s).2 ms' q).
Proof.
  intros Hset Hn Ht. revert s ms p. induction Ht as [|t tokens Ht Hts IH]; intros s ms p Hm.
  { split; [exact (cache_right_weaken _ _ _ (made_cache _ _ _ _ _ _ Hm))|]. split; [done|]. eexists. split; [done|]. by exists ms. }
  cbn [length] in Hn. specialize (IH ltac:(lia)). cbn [add_matchers tokens_mean].
  assert (Hfilter : ∀ ty, type t = ty → answers X s
      ((m ← filter_matcher cmp ty; match m with Some m => add_matchers cmp set tokens (ms ++ [m]) | None => set tokens end) s)
      (match filter_means meaning ty with Throw e => Throw e | Ok None => rest_mean meaning tokens | Ok (Some q) => tokens_mean meaning tokens (also p q) end)
      (λ m q, ∃ ms', m = elementMatcher ms' ∧ made B all_from_last X
        ((m ← filter_matcher cmp ty; match m with Some m => add_matchers cmp set tokens (ms ++ [m]) | None => set tokens end) s).2 ms' q)).
  { intros ty Hty. destruct (filter_matcher_spec B X s ms p ty) as (Hc & Hl & Hr); [|done|].
    { intros name a ->. by eapply Ht. }
    unfold mbind, M_bind. destruct (filter_matcher cmp ty s) as [r s']. cbn [fst snd] in *.
    destruct (filter_means meaning ty) as [[q|]|e]; [| |by rewrite Hr].
    2:{ rewrite Hr. destruct (Hset tokens X s' ltac:(lia) Hts Hc) as (Hc' & Hl' & Hr').
        { intros x Hx. pose proof (made_below _ _ _ _ _ _ Hm x Hx). unfold later in Hl. lia. }
        split; [done|]. split; [unfold later in *; lia|]. pose proof (rest_mean_none meaning tokens).
        by destruct (rest_mean meaning tokens) as [[]|]. }
    destruct Hr as (m & -> & Hm'). destruct (IH _ _ _ Hm') as (Hc' & Hl' & Hr'). split; [done|]. split; [|done].
    unfold later in *. lia. }
  destruct (type t) eqn:E; try by apply Hfilter.
  unfold mbind, M_bind. rewrite fresh_spec. destruct (IH _ _ _ (made_comb B X s ms p type0 Hm)) as (Hc & Hl & Hr).
  split; [done|]. split; [|done]. unfold later in *. cbn in Hl. lia.
Qed.

Lemma matcherFromTokens_at_spec k : tokens_right k (matcherFromTokens_at cmp k).
Proof.
  induction k as [|k IH]; intros tokens X s Hk Ht Hc Hb; [lia|]. destruct tokens as [|t rest]; [done|].
  set (s2 := Compilers (S (S (done s))) (compilerCache s)).
  assert (Hm : ∀ lead rel p, (∀ o c e, sem o (MContext lead rel (done s) (S (done s))) e c tt = p o c e tt) →
    made (done s) all_from_last X s2 [MContext lead rel (done s) (S (done s))] p).
  { intros lead rel p Hp. split; [split|..].
    - split; [|intros d _; apply not_elem_of_nil]. apply NoDup_cons. split; [|apply NoDup_singleton].
      rewrite list_elem_of_singleton. lia.
    - by intros m ->%list_elem_of_singleton.
    - intros d. unfold names. cbn. rewrite !elem_of_cons. intros Hd. assert (Hd' : d = done s ∨ d = S (done s)).
      { destruct Hd as [?|[?|Hd]]; [by left|by right|by apply elem_of_nil in Hd]. }
      split; [lia|]. intros Hx%Hb. lia.
    - exact Hp.
    - cbn. split; [lia|]. intros d. rewrite !elem_of_cons. intros [->|[->|Hd]]; [lia|lia|by apply elem_of_nil in Hd].
    - apply (cache_right_change X _ s); [done| |done]. cbn. intros d [Hd HX]. split; [lia|].
      rewrite elem_of_app, !elem_of_cons, elem_of_nil. intros [?|[?|[?|[]]]]; [done|lia|lia].
    - cbn. intros x Hx%Hb. lia. }
  set (set := setMatcher (matcherFromTokens_at cmp k)).
  assert (Hstart : ∀ tokens' lead rel p, length tokens' ≤ k → Forall (argument_below L) tokens' →
    (∀ o c e, sem o (MContext lead rel (done s) (S (done s))) e c tt = p o c e tt) →
    answers X s (add_matchers cmp set tokens' [MContext lead rel (done s) (S (done s))] s2) (tokens_mean meaning tokens' p)
      (λ m q, ∃ ms', m = elementMatcher ms' ∧
        made (done s) all_from_last X (add_matchers cmp set tokens' [MContext lead rel (done s) (S (done s))] s2).2 ms' q)).
  { intros tokens' lead rel p Hk' Ht' Hp.
    destruct (add_matchers_spec set k (done s) X tokens' s2 _ p (setMatcher_right k _ IH) Hk' Ht' (Hm lead rel p Hp)) as (H1 & H2 & H3).
    split; [done|]. split; [|done]. unfold later in *. cbn in H2. lia. }
  assert (Ht' : Forall (argument_below L) rest) by (by inversion Ht).
  cbn [length] in Hk. cbn [matcherFromTokens_at group_means]. unfold mbind, M_bind. rewrite !fresh_spec. cbn [done compilerCache].
  destruct (type t); apply Hstart; try done; cbn; lia.
Qed.
Lemma matcherFromTokens_spec X tokens s :
  Forall (argument_below L) tokens → cache_right X s → (∀ x, x ∈ X → x < done s) →
  answers X s (matcherFromTokens cmp tokens s) (group_means meaning tokens)
    (λ m q, ∃ ms', m = elementMatcher ms' ∧ made (done s) all_from_last X (matcherFromTokens cmp tokens s).2 ms' q).
Proof. apply matcherFromTokens_at_spec. lia. Qed.

Lemma compile_groups_spec X groups s ms ps sets :
  Forall (Forall (argument_below L)) groups → made 0 any_of X s ms (either ps) →
  answers X s (compile_groups cmp groups ms sets s) (groups_mean meaning groups ps sets)
    (λ ms' p, made 0 any_of X (compile_groups cmp groups ms sets s).2 ms' p).
Proof.
  intros Hg. revert s ms ps sets. induction Hg as [|g gs Hg _ IH]; intros s ms ps sets Hm.
  { split; [exact (cache_right_weaken _ _ _ (made_cache _ _ _ _ _ _ Hm))|]. split; [done|]. destruct sets; [done|]. by eexists. }
  cbn [compile_groups groups_mean]. pose proof Hm as [[[Hd Hap] Hwn Hok Hme] _ Hc Hb].
  assert (Hb' : ∀ x, x ∈ X ++ (ms ≫= own) → x < done s).
  { intros x [Hx|Hx]%elem_of_app; [by apply Hb|]. apply Hok, elem_of_app. by left. }
  destruct (matcherFromTokens_spec (X ++ (ms ≫= own)) g s Hg Hc Hb') as (Hc' & Hl & Hr).
  unfold mbind, M_bind. destruct (matcherFromTokens cmp g s) as [r s']. cbn [fst snd] in *. unfold later in Hl.
  assert (Hms : made 0 any_of X s' ms (either ps)).
  { split; [split; [done|done|by eapply names_ok_later|done]|split; [lia|intros; lia]|done|intros x Hx%Hb; lia]. }
  destruct (group_means meaning g) as [[q|]|e].
  - destruct Hr as (m & -> & ms' & -> & [[[Hd' Hap'] Hwn' Hok' Hme'] [_ Hfr'] Hc'' _]).
    assert (Hown : (ms ++ [elementMatcher ms']) ≫= own = (ms ≫= own) ++ (ms' ≫= own)).
    { rewrite bind_app. cbn. by rewrite app_nil_r, elementMatcher_own. }
    assert (Hnest : (ms ++ [elementMatcher ms']) ≫= nested = (ms ≫= nested) ++ (ms' ≫= nested)).
    { rewrite bind_app. cbn. by rewrite app_nil_r, elementMatcher_nested. }
    assert (Hout : ∀ d, d ∈ names ms' → d ∉ ms ≫= own).
    { intros d Hn Hin. apply Hok' in Hn as [_ Hn]. apply Hn, elem_of_app. by right. }
    assert (Hnew : made 0 any_of X s' (ms ++ [elementMatcher ms']) (either (ps ++ [q]))).
    { split; [split|..].
      - split; rewrite Hown.
        + apply NoDup_app. split; [done|]. split; [|done]. intros d Hin Hin'. apply (Hout d); [|done]. apply elem_of_app. by left.
        + rewrite Hnest. intros d [Hin|Hin]%elem_of_app [Hn|Hn]%elem_of_app.
          * by apply (Hap d).
          * apply (Hout d); [|done]. apply elem_of_app. by right.
          * apply Hfr' in Hin. destruct (Hok d) as [Hlt _]; [apply elem_of_app; by right|]. lia.
          * by apply (Hap' d).
      - intros m [Hin|Hin]%elem_of_app; [by apply Hwn|]. apply list_elem_of_singleton in Hin as ->. by apply elementMatcher_named.
      - intros d. unfold names. rewrite Hown, Hnest, !elem_of_app. intros Hin.
        assert (Hin' : d ∈ names ms ∨ d ∈ names ms') by (unfold names; rewrite !elem_of_app; tauto).
        destruct Hin' as [Hn|Hn]; [apply Hok in Hn as [? ?]; split; [lia|done]|]. apply Hok' in Hn as [? Hn].
        split; [done|]. intros HX. apply Hn, elem_of_app. by left.
      - intros o c e. unfold either. rewrite !any_snoc. unfold mbind, M_bind.
        rewrite Hme. unfold either. destruct (any_of _ ps tt) as [[[]|] []]; [done| |done]. by rewrite elementMatcher_sem, Hme'.
      - split; [lia|]. intros; lia.
      - by rewrite Hown, app_assoc.
      - intros x Hx%Hb. lia. }
    destruct (IH _ _ _ sets Hnew) as (H1 & H2 & H3). split; [done|]. split; [|done]. unfold later in *. lia.
  - rewrite Hr. destruct (IH _ _ _ true Hms) as (H1 & H2 & H3). split; [done|]. split; [|done]. unfold later in *. lia.
  - rewrite Hr. split; [by apply cache_right_weaken in Hc'|]. done.
Qed.
End loops.

Lemma compile_at_S k selector s :
  compile_at (S k) selector None s =
  match cache_get selector (compilerCache s) with
  | Some cached => (Ok cached, s)
  | None =>
      match tokenize selector with
      | Throw e => (Throw e, s)
      | Ok groups =>
          match compile_groups (λ q, compile_at k q None) (reverse groups) [] false s with
          | (Ok cached, s') => (Ok cached, Compilers (done s') (cache_put selector cached (compilerCache s')))
          | (Throw e, s') => (Throw e, s')
          end
      end
  end.
Proof.
  cbn [compile_at]. unfold get, mbind at 1, M_bind at 1. destruct (cache_get selector (compilerCache s)); [done|].
  by destruct (tokenize selector).
Qed.
Lemma compile_at_spec k selector X s :
  length selector < k → cache_right X s → (∀ x, x ∈ X → x < done s) →
  answers X s (compile_at k selector None s) (meaning selector)
    (λ ms p, good any_of X (compile_at k selector None s).2 ms p).
Proof.
  revert selector X s. induction k as [|k IH]; intros selector X s Hk Hc Hb; [lia|]. rewrite compile_at_S.
  destruct (cache_get selector (compilerCache s)) as [cached|] eqn:E.
  { pose proof (Hc _ _ E) as Hr. split; [done|]. split; [apply done_later_refl|].
    destruct (meaning selector) as [[p|]|], cached as [ms|]; try done. by eexists. }
  assert (Hmean : meaning selector = match tokenize selector with
    Throw e => Throw e | Ok groups => groups_mean meaning (reverse groups) [] false end).
  { unfold meaning at 1. cbn [meaning_at]. destruct (tokenize selector) as [groups|] eqn:Et; [|done].
    apply tokenize_argument, Forall_reverse in Et. apply (groups_mean_ext _ _ (length selector)); [|done].
    intros q Hq. by apply meaning_at_meaning. }
  rewrite Hmean. destruct (tokenize selector) as [groups|e] eqn:Et; [|by split_and!; [|apply done_later_refl|]].
  apply tokenize_argument, Forall_reverse in Et.
  assert (Hcmp : ∀ q X s, length q < length selector → cache_right X s → (∀ x, x ∈ X → x < done s) →
    answers X s (compile_at k q None s) (meaning q) (λ ms p, good any_of X (compile_at k q None s).2 ms p)).
  { intros q X' s' Hq. apply IH. lia. }
  assert (H0 : made 0 any_of X s [] (either [])).
  { split; [split|split; [lia|]| |done]; try done.
    - split; [constructor|]. intros d Hd. by apply elem_of_nil in Hd.
    - intros m Hm. by apply elem_of_nil in Hm.
    - intros d Hd. by apply elem_of_nil in Hd.
    - intros d Hd. by apply elem_of_nil in Hd.
    - cbn. by rewrite app_nil_r. }
  destruct (compile_groups_spec (λ q, compile_at k q None) (length selector) Hcmp X (reverse groups) s [] [] false Et H0)
    as (Hc' & Hl & Hr).
  destruct (compile_groups _ _ _ _ s) as [r s']. cbn [fst snd] in *.
  assert (Hput : ∀ cached, match groups_mean meaning (reverse groups) [] false, cached with
      Ok None, None => True | Ok (Some p), Some ms => good any_of X s' ms p | _, _ => False end →
    cache_right X (Compilers (done s') (cache_put selector cached (compilerCache s')))).
  { intros cached Hcached q c Hq. cbn [compilerCache] in Hq.
    assert (Hq' : match meaning q, c with Ok None, None => True | Ok (Some p), Some ms => good any_of X s' ms p | _, _ => False end).
    { apply cache_put_entries in Hq as [[-> ->]|Hq]; [by rewrite Hmean|by apply Hc' in Hq]. }
    destruct (meaning q) as [[p|]|], c as [ms|]; try done. by eapply good_change; [|exact Hq']. }
  destruct (groups_mean meaning (reverse groups) [] false) as [[p|]|e].
  - destruct Hr as (ms & -> & Hm). split; [|split; [done|]].
    + apply (Hput (Some ms)). apply Hm.
    + exists ms. split; [done|]. eapply good_change; [|apply Hm]. done.
  - rewrite Hr. split; [by apply (Hput None)|]. split; [done|done].
  - rewrite Hr. done.
Qed.

(** ** Queries *)

Definition expected (expr : jsstr) (elements : list path) : outcome (option (list path)) :=
  match expr with
  | [] => Ok (Some [])
  | _ =>
      match meaning (trim_ws expr) with
      | Throw e => Throw e
      | Ok None => Ok None
      | Ok (Some p) =>
          match (select_by (p OFalse (CNode document)) elements tt).1 with Ok found => Ok (Some found) | Throw e => Throw e end
      end
  end.
Definition ready (st : engine * compiler) : Prop := between_queries st.1 ∧ cache_right [] st.2.

Lemma superMatcher_grows ms elements context outermost :
  grows (superMatcher page documentIsHTML nested_run (native_sizzle native) document ms elements context outermost).
Proof.
  apply grows_get. intros s. apply grows_bind; [apply next_run_grows|]. intros t. destruct outermost; [|apply match_elements_grows].
  apply grows_bind; [by apply grows_modify|]. intros _. apply grows_bind; [apply match_elements_grows|]. intros found.
  apply grows_bind; [by apply grows_modify|]. intros _. apply grows_ret.
Qed.
Lemma matches_grows expr elements st : ∃ new, runs (matches expr elements st).2.1 = new ++ runs st.1.
Proof.
  unfold matches. destruct expr as [|c expr]; [by exists []|]. unfold on_compiler, mbind at 1, M_bind at 1.
  destruct (compile _ st.2) as [[[ms|]|e] s']; [|by exists []..].
  destruct (superMatcher_grows ms elements document true st.1) as [new Hn]. exists new. revert Hn. unfold on_engine, mbind, M_bind. cbn.
  by destruct (superMatcher _ _ _ _ _ _ _ _ _ st.1) as [[found|e] e'].
Qed.
Lemma select_by_ext (f g : path → M unit bool) elems : (∀ e, f e tt = g e tt) → select_by f elems tt = select_by g elems tt.
Proof.
  intros Hf. induction elems as [|e elems IH]; [done|]. cbn. unfold mbind, M_bind. rewrite Hf.
  destruct (g e tt) as [[b|] []]; [|done]. by rewrite IH.
Qed.
Lemma matches_spec expr elements st :
  ready st → NoDup (runs (matches expr elements st).2.1) →
  (matches expr elements st).1 = expected expr elements ∧ (returns (matches expr elements st).1 → ready (matches expr elements st).2).
Proof.
  intros [He Hc]. unfold matches, expected. destruct expr as [|c expr]; [done|]. set (sel := trim_ws _).
  destruct (compile_at_spec (S (length sel)) sel [] st.2) as (Hc' & _ & Hr); [lia|done|by intros x Hx%elem_of_nil|].
  fold (compile sel) in *. unfold on_compiler, mbind at 1 3 5 7, M_bind at 1 3 5 7.
  destruct (compile sel st.2) as [r s']. cbn [fst snd] in *.
  destruct (meaning sel) as [[p|]|e].
  - destruct Hr as (ms & -> & [Hs Hn _ Hm]). unfold on_engine, mbind, M_bind. cbn [fst snd].
    pose proof (superMatcher_agree page documentIsHTML nested_run native document ms elements document Hs Hn st.1 He) as Ha.
    assert (Ho : outermost_of document document = OFalse) by (unfold outermost_of; by rewrite bool_decide_true).
    rewrite Ho in Ha. rewrite (select_by_ext _ (p OFalse (CNode document))) in Ha by (intros x; apply Hm).
    destruct (superMatcher _ _ _ _ _ _ _ _ _ st.1) as [[found|e] e']; cbn in *; intros Hd; destruct (Ha Hd) as [<- HI]; [|done].
    split; [done|]. intros _. split; [by apply HI|done].
  - rewrite Hr. done.
  - rewrite Hr. done.
Qed.

(** What a page does: queries, and in between anything that changes the engine's numbers
    and what it keeps on elements: queries that are not modelled, elements that are moved
    or copied with their caches, caches that are lost. *)
Inductive event := Query (expr : jsstr) (elements : list path) | Other (f : engine → engine).
Fixpoint session (events : list event) : M (engine * compiler) (list (option (list path))) :=
  match events with
  | [] => mret []
  | Query expr elements :: events => r ← matches expr elements; rs ← session events; mret (r :: rs)
  | Other f :: events => _ ← on_engine (modify f); session events
  end.
Fixpoint expected_session (events : list event) : outcome (list (option (list path))) :=
  match events with
  | [] => Ok []
  | Query expr elements :: events =>
      match expected expr elements with
      | Throw e => Throw e
      | Ok r => match expected_session events with Ok rs => Ok (r :: rs) | Throw e => Throw e end
      end
  | Other _ :: events => expected_session events
  end.
(** A query without positional pseudos; a change that leaves results under run numbers that
    were drawn, and forgets none of these. *)
Definition allowed (ev : event) : Prop :=
  match ev with
  | Query expr elements => expr = [] ∨ meaning (trim_ws expr) ≠ Ok None
  | Other f => (∀ e, ∃ new, runs (f e) = new ++ runs e) ∧ ∀ e, between_queries e → between_queries (f e)
  end.
Lemma session_grows events st : Forall allowed events → ∃ new, runs (session events st).2.1 = new ++ runs st.1.
Proof.
  intros Hev. revert st. induction Hev as [|ev events Ha _ IH]; intros st; [by exists []|].
  destruct ev as [expr elements|f]; cbn [session]; unfold mbind, M_bind.
  - destruct (matches_grows expr elements st) as [new Hn]. destruct (matches expr elements st) as [[r|e] st']; [|by exists new].
    destruct (IH st') as [new' Hn']. destruct (session events st') as [[rs|e] st'']; cbn in *; exists (new' ++ new); by rewrite Hn', Hn, app_assoc.
  - destruct Ha as [Hg _], (Hg st.1) as [new Hn], (IH (f st.1, st.2)) as [new' Hn']. exists (new' ++ new).
    cbn in *. by rewrite Hn', Hn, app_assoc.
Qed.
Lemma session_spec events st :
  Forall allowed events → ready st → NoDup (runs (session events st).2.1) → (session events st).1 = expected_session events.
Proof.
  intros Hev. revert st. induction Hev as [|ev events Ha Hev IH]; intros st Hst; [done|].
  destruct ev as [expr elements|f]; cbn [session expected_session]; unfold mbind, M_bind.
  - pose proof (matches_spec expr elements st Hst) as Hm. destruct (matches expr elements st) as [[r|e] st'] eqn:E; cbn [fst snd] in *.
    + intros Hd. destruct (session_grows events st' Hev) as [new Hn]. specialize (IH st').
      assert (Hd' : NoDup (runs (session events st').2.1)) by (by destruct (session events st') as [[rs|e] st'']).
      destruct Hm as [<- Hr]; [rewrite Hn in Hd'; by apply NoDup_app in Hd' as (_ & _ & ?)|].
      rewrite <- IH by (by try apply Hr). by destruct (session events st') as [[rs|e] st''].
    + intros Hd. by destruct (Hm Hd) as [<- _].
  - destruct Hst as [He Hc], Ha as [_ Hb]. apply (IH (f st.1, st.2)). by split; [apply Hb|].
Qed.
Lemma ready_start : ready (engine0, compiler0).
Proof. split; [apply between_queries_start|]. intros selector cached. unfold cache_get. cbn. by rewrite lookup_empty. Qed.

(** C2: whatever queries without positional pseudos a page makes one after the other, while
    its tree stays as it is and the browser answers the queries of [:has]: with the
    results that the combinators, the positions and the compiler keep from one element,
    one matcher and one query to the next, every query gives the elements that its
    selector means, in the order given, or the error that the selector means; as long as
    no number of a run is drawn twice.  In between the run numbers may grow and the caches
    that the engine keeps on elements may be changed in any way that leaves results under
    numbers that were drawn before, so nothing that was kept in an earlier query is
    relied on. *)
Theorem session_meaning events (Hallowed : Forall allowed events)
    (Hruns : NoDup (runs (session events (engine0, compiler0)).2.1)) :
  (session events (engine0, compiler0)).1 = expected_session events.
Proof. apply session_spec; [done|apply ready_start|done]. Qed.

(** C32: the compiler ends on every selector, nested as deep as it may be, and it gives an
    error exactly when the selector has none of the meanings: the first error of its
    tokens, those behind a positional pseudo included. *)
Theorem compile_terminates selector :
  (compile selector compiler0).1 ≠ Throw Diverge ∧
  ∀ e, (compile selector compiler0).1 = Throw e ↔ meaning selector = Throw e.
Proof.
  destruct (compile_at_spec (S (length selector)) selector [] compiler0) as (_ & _ & Hr); [lia|apply ready_start|by intros x Hx%elem_of_nil|].
  pose proof (meaning_at_total (S (length selector)) selector ltac:(lia)) as Ht. fold (meaning selector) in Ht.
  assert (Hcmp : ∀ r, (compile_at (S (length selector)) selector None compiler0).1 = r → (compile selector compiler0).1 = r) by done.
  destruct (meaning selector) as [[p|]|e].
  - destruct Hr as (ms & Hr%Hcmp & _). by rewrite Hr.
  - apply Hcmp in Hr. by rewrite Hr.
  - apply Hcmp in Hr. rewrite Hr. split; [intros [= ->]; by destruct Ht|]. intros e'. by split; intros [= ->].
Qed.
End page.

(** ** Examples *)

(** A browser that answers no query itself, on the sample document; its random numbers
    grow. *)
Definition sample_session : list event → M (engine * compiler) (list (option (list path))) :=
  @session ascii_case sample true [0; 0] [] (λ _, false) (λ _, None) (λ _, None) (λ _ _, false) (λ _, None)
    (λ n d, (d + Z.of_nat n + 1)%Z) (λ _ _, Ok []) [0].
Definition items : list path := [[0; 0; 0; 0]; [1; 0; 0; 0]; [0; 1; 0; 0]].
(** The positions that the first query keeps are wrong when the third one is made. *)
Definition spoil (s : engine) : engine :=
  set_nth ((λ x, (x.1.1, 1, 7)) <$> nth_cache s) s.
Definition item_queries : list event :=
  [Query (js "ul > li:nth-child(2n), ol li:not(ul *)") items; Query (js "ul li") items; Other spoil;
   Query (js "li:nth-child(2)") items; Query (js "li:not(ul li)") items].

Lemma session_meaning_witness :
  (sample_session item_queries (engine0, compiler0)).1 =
    Ok [Some [[1; 0; 0; 0]; [0; 1; 0; 0]]; Some [[0; 0; 0; 0]; [1; 0; 0; 0]]; Some [[1; 0; 0; 0]]; Some [[0; 1; 0; 0]]] ∧
  (sample_session item_queries (engine0, compiler0)).1 =
    @expected_session ascii_case sample true [0; 0] [] (λ _, false) (λ _, None) (λ _, None) (λ _ _, false) (λ _, None)
      (λ _ _, Ok []) [0] item_queries.
Proof.
  split; [by vm_compute|].
  apply (@session_meaning ascii_case sample true [0; 0] [] (λ _, false) (λ _, None) (λ _, None) (λ _ _, false) (λ _, None)
    (λ n d, (d + Z.of_nat n + 1)%Z) (λ _ _, Ok []) [0] item_queries).
  - repeat apply Forall_cons_2; [right; vm_compute; discriminate..| |right; vm_compute; discriminate|right; vm_compute; discriminate|apply Forall_nil_2].
    split; [by intros s; exists []|]. intros s [H1 H2 H3 [T1 T2]]. split; [done..|]. split; [|done].
    intros p x. cbn. rewrite lookup_fmap, fmap_Some. intros (y & Hy & ->). exact (T1 _ _ Hy).
  - apply (bool_decide_unpack _). by vm_compute.
Defined.

(** A selector that begins with a combinator is accepted in [:not], and an element that
    is checked against it then raises a TypeError; the outermost context stays set. *)
Example not_relative :
  let r := sample_session [Query (js ":not(> li)") items] (engine0, compiler0) in
  r.1 = Throw TypeError ∧ outermostContext r.2.1 = OFalse.
Proof. by vm_compute. Qed.
(** What stands behind a positional pseudo is compiled, and its errors are thrown. *)
Example behind_positional :
  (sample_session [Query (js ":first:bogus") items] (engine0, compiler0)).1 = Throw syntax_error ∧
  (sample_session [Query (js "li:first > a:bogus") items] (engine0, compiler0)).1 = Throw syntax_error ∧
  (sample_session [Query (js "li:first > a:empty") items] (engine0, compiler0)).1 = Ok [None].
Proof. by vm_compute. Qed.
(** The pattern of CHILD ignores case, the filter does not. *)
Example nth_child_case :
  (sample_session [Query (js "li:nth-child(even)") items; Query (js "li:nth-child(EVEN)") items] (engine0, compiler0)).1 =
  Ok [Some [[1; 0; 0; 0]]; Some []].
Proof. by vm_compute. Qed.
(** The class of an element is read from its [className], or else from the attribute. *)
Example class_read :
  let classed c a := [Tree (Info 1 (js "B") [] (λ _, a) c [] [] [] None false false) []] in
  @filter_CLASS (classed (Some (js "x big")) None) (λ _ _, false) (js "x") [0] = true ∧
  @filter_CLASS (classed None (Some (js "big x"))) (λ _ _, false) (js "big") [0] = true ∧
  @filter_CLASS (classed (Some (js "bigger")) None) (λ _ _, false) (js "big") [0] = false.
Proof. by vm_compute. Qed.
(** The CLASS filter does not unescape, and in XML the context is not asked for. *)
Example class_escape : class_text (js "\31") = None ∧ unescape (js "\31") = js "1".
Proof. by vm_compute. Qed.
Example xml_context :
  let contained html := (within sample html (ONode [0; 0]) false (parentNode, false) [1] (CNode [0; 0]) tt).1 in
  contained true = Ok false ∧ contained false = Ok true.
Proof. by vm_compute. Qed.

End Compiler.
