(* ===== verification/SzSelect.v ===== *)
(** * Selecting elements in jquery.js (Sizzle)

    [Expr.find], [select] without a seed, and [Sizzle] with its shortcuts through the
    browser.  What the browser finds is a parameter. *)

From stdpp Require Import base tactics list strings numbers sets gmap.
From Stdlib Require Import NArith ZArith Lia.
From S2P Require Import Prelude.
From S2P Require Import JsString.
From S2P Require Import Regex.
From S2P Require Import JsArray.
From S2P Require Import SzTree.
From S2P Require Import SzTokens.
From S2P Require Import SzMatch.
From S2P Require Import SzCompile.
Import Tree Tokens Matchers Compiler.

Module Select.

Section page.
Context `{UnicodeCase}.
Variable page : list tree.
Variable documentIsHTML : bool.
Variable docElem : path.
Variable hash : jsstr.
Variable focused : path → bool.
Variable textContent : path → option jsstr.
Variable attrHandle : jsstr → option (path → jsstr → option (option jsstr)).
Variable escaped_class : jsstr → jsstr → bool.
Variable extra : jsstr → option (path → outcome bool).
Variable nested_run : nat → Z → Z.
Variable native : jsstr → path → outcome (list path).
Variable document : path.
Local Abbreviation node_info := (node_info page).
Local Abbreviation compile_at := (compile_at page documentIsHTML docElem hash focused textContent attrHandle escaped_class extra).
Local Abbreviation filter_of := (filter_of page documentIsHTML docElem hash focused textContent attrHandle escaped_class extra).
Local Abbreviation meaning := (meaning page documentIsHTML docElem hash focused textContent attrHandle escaped_class extra native).

(** The browser: [context.getElementsByTagName(tag)], which lists no comments,
    [context.getElementsByClassName(name)] where it is native, [context.getElementById]
    of a node that has it, and [querySelectorAll], which may throw; [support.getById],
    [support.qsa], and the selectors that [rbuggyQSA] keeps from it. *)
Variable getElementsByTagName : jsstr → path → list path.
Variable getElementsByClassName : option (jsstr → path → list path).
Variable getElementById : path → option (jsstr → option path).
Variable querySelectorAll : jsstr → path → outcome (list path).
Variable getById : bool.
Variable qsa : bool.
Variable rbuggyQSA : jsstr → bool.

Definition has_type (n : N) (p : path) : bool := (nodeType (node_info p) =? n)%N.
Definition parent_of (p : path) : option path := step page parentNode p.
(** The functions of [Expr.find] on the argument of a token; [None] is undefined, of a
    type without such a function too.  A document fragment has neither of the first two
    methods. *)
Definition find_TAG (tag : jsstr) (context : path) : outcome (option (list path)) :=
  if negb (has_type 11 context) then Ok (Some (getElementsByTagName tag context))
  else if qsa then match querySelectorAll tag context with Ok l => Ok (Some l) | Throw e => Throw e end
  else Ok None.
Definition find_CLASS (name : jsstr) (context : path) : outcome (option (list path)) :=
  match getElementsByClassName with
  | Some f =>
      if negb documentIsHTML then Ok None
      else if has_type 11 context then Throw TypeError
      else Ok (Some (f name context))
  | None => Ok None
  end.
Definition find_ID (name : jsstr) (context : path) : option (list path) :=
  match getElementById context with
  | Some f =>
      if getById && documentIsHTML then
        Some (match f name with
          | Some m => match parent_of m with Some _ => [m] | None => [] end
          | None => []
          end)
      else None
  | None => None
  end.
Definition find (t : token_type) (context : path) : outcome (option (list path)) :=
  match t with
  | TTag name => find_TAG (unescape name) context
  | TClass name => find_CLASS (unescape name) context
  | TId name => Ok (find_ID (unescape name) context)
  | _ => Ok None
  end.

Definition is_comb (t : token) : bool := match type t with TComb _ => true | _ => false end.
(** [testContext(context.parentNode) || context], where [rsibling] is found. *)
Definition widened (text : jsstr) (context : path) : path :=
  match parent_of context with
  | Some parent => if test rsibling text && negb (has_type 11 parent) then parent else context
  | None => context
  end.
Definition type_text (t : token) : jsstr := match type t with TComb c => c | _ => [] end.

(** The loop that fetches a seed set: from the last token back to a combinator.  It gives
    the tokens without the one that was used, and what was found for it. *)
Fixpoint fetch_seed (rev_tokens : list token) (context : path) (after : list token) :
    outcome (option (list token * list path)) :=
  match rev_tokens with
  | [] => Ok None
  | t :: rev_before =>
      if is_comb t then Ok None
      else match find (type t) context with
        | Throw e => Throw e
        | Ok (Some seed) => Ok (Some (reverse rev_before ++ after, seed))
        | Ok None => fetch_seed rev_before context (t :: after)
        end
  end.
(** The shortcut for a selector that begins with an ID: the new context and the tokens
    that are left; [Some None] when there is no such element. *)
Definition id_context (tokens : list token) (context : path) : option (option path) :=
  match tokens with
  | t :: t' :: _ :: _ =>
      match type t with
      | TId _ =>
          if getById && has_type 9 context && documentIsHTML && is_comb t' then
            Some (match find (type t) context with Ok (Some (p :: _)) => Some p | _ => None end)
          else None
      | _ => None
      end
  | _ => None
  end.

(** The matchers at work: [compile(selector, match)(seed, context, ...)]. *)
Definition run_compiled (selector : jsstr) (groups : list (list token)) (seed : option (list path)) (context : path) :
    M (engine * compiler) (option (list path)) :=
  ms ← on_compiler (compile_at (S (length selector)) selector (Some groups));
  match (ms : compiled) with
  | None => mret None
  | Some ms =>
      elems ← (match seed, ms with
        | Some l, _ => mret l
        | None, [] => mret []
        | None, _ =>
            match find_TAG (js "*") (widened selector context) with
            | Ok (Some l) => mret l
            | Ok None => throw TypeError
            | Throw e => throw e
            end
        end);
      found ← on_engine (superMatcher page documentIsHTML nested_run (native_sizzle native) document ms elems context true);
      mret (Some found)
  end.
(** [select(selector, context)] of a selector that is a string. *)
Definition select (selector : jsstr) (context : path) : M (engine * compiler) (option (list path)) :=
  match tokenize selector with
  | Throw e => throw e
  | Ok [tokens] =>
      let narrowed selector tokens context :=
        let first := match tokens with t :: _ => type_text t | [] => [] end in
        match (if test r_needsContext selector then Ok None
               else fetch_seed (reverse tokens) (widened first context) []) with
        | Throw e => throw e
        | Ok (Some (tokens, seed)) =>
            match seed, toSelector tokens with
            | [], _ | _, [] => mret (Some seed)
            | _, selector => run_compiled selector [tokens] (Some seed) context
            end
        | Ok None => run_compiled selector [tokens] None context
        end in
      match id_context tokens context with
      | Some None => mret (Some [])
      | Some (Some p) =>
          narrowed (drop (match tokens with t :: _ => length (value t) | [] => 0 end) selector) (tail tokens) p
      | None => narrowed selector tokens context
      end
  | Ok groups => run_compiled selector groups None context
  end.

(** [Sizzle(selector, context)] for a context in the document that was set.  For an
    element the query of the browser is made under its ID: [querySelectorAll] is given
    the text that Sizzle writes, and the context for which it writes it. *)
Definition rquickExpr : regex :=
  RSeq RBol (RSeq (alts [seqs [lit "#"; RGroup 1 (plus (RSet (λ c, is_word c || N.eqb c 45)))];
                         RGroup 2 (plus (RSet is_word));
                         seqs [lit "."; RGroup 3 (plus (RSet (λ c, is_word c || N.eqb c 45)))]]) REol).
Definition by_id (node : path) (name : jsstr) : option path := getElementById node ≫= λ f, f name.
Definition quick (m : match_result) (selector : jsstr) (context : path) : option (list path) :=
  match capture_str m 1 with
  | (_ :: _) as i =>
      if has_type 9 context then
        match by_id context i with
        | Some elem =>
            match parent_of elem with
            | Some _ => if str_eqb (id (node_info elem)) i then Some [elem] else None
            | None => Some []
            end
        | None => Some []
        end
      else match by_id document i with
        | Some elem => if contains page context elem && str_eqb (id (node_info elem)) i then Some [elem] else None
        | None => None
        end
  | [] =>
      match capture_str m 2, capture_str m 3, getElementsByClassName with
      | _ :: _, _, _ => Some (getElementsByTagName selector context)
      | [], (_ :: _) as c, Some f => Some (f c context)
      | _, _, _ => None
      end
  end.
(** [nid + toSelector(group)] for every group. *)
Definition rooted (nid : jsstr) (groups : list (list token)) : jsstr :=
  join (js ",") ((λ g, js "[id='" ++ nid ++ js "'] " ++ toSelector g) <$> groups).
Definition rescape_replace (s : jsstr) : jsstr := s ≫= λ c, if N.eqb c 39 || N.eqb c 92 then [92%N; c] else [c].
Definition sizzle_query (expando : jsstr) (selector : jsstr) (context : path) : outcome (option (list path)) :=
  let query text node := Ok (match querySelectorAll text node with Ok l => Some l | Throw _ => None end) in
  if negb (has_type 1 context) then query selector context
  else if str_eqb (to_lower (nodeName (node_info context))) (js "object") then Ok None
  else match tokenize selector with
    | Throw e => Throw e
    | Ok groups =>
        let nid := match attribute (node_info context) (js "id") with
          | Some ((_ :: _) as old) => rescape_replace old
          | _ => expando
          end in
        match rooted nid groups with
        | [] => Ok None
        | text => query text (widened selector context)
        end
    end.
Definition Sizzle (expando : jsstr) (selector : jsstr) (context : path) : M (engine * compiler) (option (list path)) :=
  let others := select (trim_ws selector) context in
  if str_eqb selector [] || negb (existsb (λ n, has_type n context) [1; 9; 11]%N) then mret (Some [])
  else if negb documentIsHTML then others
  else match (if has_type 11 context then None else m ← exec rquickExpr selector; quick m selector context) with
    | Some found => mret (Some found)
    | None =>
        if qsa && negb (rbuggyQSA selector) then
          match sizzle_query expando selector context with
          | Throw e => throw e
          | Ok (Some found) => mret (Some found)
          | Ok None => others
          end
        else others
    end.

(** ** Narrowing keeps the answer *)

Local Abbreviation filter_means := (filter_means page documentIsHTML docElem hash focused textContent attrHandle escaped_class extra native).
Local Abbreviation tokens_mean := (tokens_mean page documentIsHTML docElem hash focused textContent attrHandle escaped_class extra native).
Local Abbreviation group_means := (group_means page documentIsHTML docElem hash focused textContent attrHandle escaped_class extra native).
Local Abbreviation groups_mean := (groups_mean page documentIsHTML docElem hash focused textContent attrHandle escaped_class extra native).
Local Abbreviation ready := (ready page documentIsHTML docElem hash focused textContent attrHandle escaped_class extra native).
Implicit Types (p q : predicate) (tokens : list token).

(** Where [f] holds the two predicates agree, and the first only holds there. *)
Definition narrows (f : path → bool) p q : Prop :=
  ∀ o c e, (f e = true → p o c e tt = q o c e tt) ∧ (f e = false → (p o c e tt).1 ≠ Ok true).
Lemma narrows_also f p q r : narrows f p q → narrows f (also p r) (also q r).
Proof.
  intros Hn o c e. destruct (Hn o c e) as [H1 H2]. unfold also, mbind, M_bind. destruct (r o c e tt) as [[[]|] []]; split; try done.
Qed.
Lemma narrows_token f p : narrows f (also p (λ _ _ e, mret (f e))) p.
Proof. intros o c e. unfold also, mbind, M_bind. cbn. by destruct (f e). Qed.

Section means.
Variable arg : jsstr → outcome (option predicate).
Local Abbreviation rest_mean := (rest_mean page documentIsHTML docElem hash focused textContent attrHandle escaped_class extra native).
(** What stands behind a positional pseudo has no meaning. *)
Lemma rest_mean_some l P : rest_mean arg l ≠ Ok (Some P).
Proof.
  intros E. pose proof (rest_mean_none page documentIsHTML docElem hash focused textContent attrHandle escaped_class extra native arg l) as Hn.
  by rewrite E in Hn.
Qed.
Lemma tokens_mean_app l1 l2 p :
  tokens_mean arg (l1 ++ l2) p =
    match tokens_mean arg l1 p with Ok (Some q) => tokens_mean arg l2 q | Ok None => rest_mean arg l2 | Throw e => Throw e end.
Proof.
  revert p. induction l1 as [|t l1 IH]; intros p; [done|]. cbn [app Compiler.tokens_mean].
  destruct (type t); [apply IH|..]; (match goal with |- context [filter_means arg ?ty] => destruct (filter_means arg ty) as [[]|] end; [apply IH| |done]).
  all: rewrite rest_mean_app; pose proof (rest_mean_some l1) as Hn; destruct (rest_mean arg l1) as [[P|]|]; try done; by destruct (Hn P).
Qed.
Lemma tokens_mean_narrows f post p q P :
  Forall (λ t, is_comb t = false) post → narrows f p q → tokens_mean arg post p = Ok (Some P) →
  ∃ Q, tokens_mean arg post q = Ok (Some Q) ∧ narrows f P Q.
Proof.
  intros Hp. revert p q. induction Hp as [|t post Ht _ IH]; intros p q Hn; cbn [Compiler.tokens_mean].
  - intros [= <-]. by exists q.
  - unfold is_comb in Ht. destruct (type t); [done|..];
      (match goal with |- context [filter_means arg ?ty] => destruct (filter_means arg ty) as [[r|]|] end;
       [apply IH; by apply narrows_also|by intros ?%rest_mean_some|done]).
Qed.
Lemma single_means t f P :
  is_comb t = false → filter_of (type t) = Ok (Pure f) → group_means arg [t] = Ok (Some P) →
  P = also (λ o x e, within page documentIsHTML o false (parentNode, false) e x) (λ _ _ e, mret (f e)).
Proof.
  unfold is_comb. cbn [Compiler.group_means Compiler.tokens_mean]. unfold Compiler.filter_means.
  destruct (type t); [done|..]; intros _ ->; by intros [= <-].
Qed.
(** A filter taken out of the last compound. *)
Lemma group_means_without f pre t post P :
  Forall (λ t, is_comb t = false) post → is_comb t = false → pre ++ post ≠ [] → filter_of (type t) = Ok (Pure f) →
  group_means arg (pre ++ t :: post) = Ok (Some P) → ∃ Q, group_means arg (pre ++ post) = Ok (Some Q) ∧ narrows f P Q.
Proof.
  intros Hpost Ht Hne Hf.
  assert (Hmid : ∀ l p, tokens_mean arg (l ++ t :: post) p = Ok (Some P) → ∃ Q, tokens_mean arg (l ++ post) p = Ok (Some Q) ∧ narrows f P Q).
  { intros l p. rewrite !tokens_mean_app. destruct (tokens_mean arg l p) as [[q|]|]; [|by intros ?%rest_mean_some|done]. cbn [Compiler.tokens_mean].
    assert (Hfm : filter_means arg (type t) = Ok (Some (λ _ _ e, mret (f e)))) by (unfold Compiler.filter_means; by rewrite Hf).
    unfold is_comb in Ht. destruct (type t) eqn:E; [done|..]; rewrite Hfm; apply tokens_mean_narrows; try done; apply narrows_token. }
  destruct pre as [|t0 pre].
  - cbn [app] in *. destruct post as [|t1 post]; [done|]. cbn [Compiler.group_means]. inversion Hpost as [|? ? H1 H2]; subst.
    unfold is_comb in Ht, H1. destruct (type t) eqn:E; [done|..]; (destruct (type t1) eqn:E1; [done|..]); intros HP; apply (Hmid [] _ HP).
  - cbn [app Compiler.group_means]. destruct (type t0); [apply (Hmid pre)|..]; apply (Hmid (t0 :: pre)).
Qed.
End means.

Lemma fetch_seed_spec rev_tokens context after rest seed :
  fetch_seed rev_tokens context after = Ok (Some (rest, seed)) → Forall (λ t, is_comb t = false) after →
  ∃ pre t post, reverse rev_tokens ++ after = pre ++ t :: post ∧ rest = pre ++ post ∧ find (type t) context = Ok (Some seed) ∧
    is_comb t = false ∧ Forall (λ t, is_comb t = false) post.
Proof.
  revert after. induction rev_tokens as [|t l IH]; intros after; [done|]. cbn [fetch_seed]. destruct (is_comb t) eqn:Ec; [done|].
  rewrite reverse_cons, <- app_assoc. destruct (find (type t) context) as [[found|]|] eqn:Ef; [| |done].
  - intros [= <- <-] Ha. by exists (reverse l), t, after.
  - intros Hs Ha. apply IH in Hs; [exact Hs|]. by constructor.
Qed.
Lemma fetch_seed_ok rev_tokens context after e :
  has_type 11 context = false → fetch_seed rev_tokens context after ≠ Throw e.
Proof.
  intros Hc. revert after. induction rev_tokens as [|t l IH]; intros after; [done|]. cbn [fetch_seed]. destruct (is_comb t); [done|].
  assert (Hf : find (type t) context ≠ Throw e).
  { unfold find, find_TAG, find_CLASS. rewrite Hc. by repeat case_match. }
  destruct (find (type t) context) as [[]|]; [done|apply IH|congruence].
Qed.
Lemma select_by_narrowed (f : path → bool) (P Q : path → M unit bool) l found :
  (∀ e, (f e = true → P e tt = Q e tt) ∧ (f e = false → (P e tt).1 ≠ Ok true)) →
  (select_by P l tt).1 = Ok found → (select_by Q (base.filter (λ e, f e = true) l) tt).1 = Ok found.
Proof.
  intros Hf. revert found. induction l as [|e l IH]; intros found; [done|]. cbn [select_by]. unfold mbind, M_bind.
  destruct (Hf e) as [H1 H2]. destruct (P e tt) as [[b|err] []] eqn:E; [|done].
  destruct (select_by P l tt) as [[found'|err] []]; [|done]. cbn [fst].
  specialize (IH found' eq_refl). intros [= <-]. rewrite filter_cons. destruct (f e) eqn:Ef; case_decide; try done.
  - cbn [select_by]. unfold mbind, M_bind. rewrite <- H1 by done. destruct (select_by Q _ tt) as [[l'|] []]; [|done].
    cbn in IH. by injection IH as ->.
  - destruct b; [|done]. by destruct (H2 eq_refl).
Qed.

Lemma compile_match k selector groups s :
  tokenize selector = Ok groups → compile_at (S k) selector (Some groups) s = compile_at (S k) selector None s.
Proof. intros E. cbn [Compiler.compile_at]. by rewrite E. Qed.
Lemma outermost_document : outermost_of document document = OFalse.
Proof. unfold outermost_of. by rewrite bool_decide_true. Qed.
Lemma select_by_never P l : (∀ e, P e tt = (Ok false, tt)) → (select_by P l tt).1 = Ok [].
Proof.
  intros HP. induction l as [|e l IH]; [done|]. cbn [select_by]. unfold mbind, M_bind. rewrite HP.
  destruct (select_by P l tt) as [[] []]; [|done]. cbn in IH. by injection IH as ->.
Qed.
(** The elements that are searched: the seed, or all elements. *)
Definition searched selector (seed : option (list path)) : list path :=
  match seed with Some l => l | None => getElementsByTagName (js "*") (widened selector document) end.
Lemma run_compiled_spec selector groups seed q found st :
  ready st → tokenize selector = Ok groups → meaning selector = Ok (Some q) → has_type 11 (widened selector document) = false →
  (select_by (q OFalse (CNode document)) (searched selector seed) tt).1 = Ok found →
  NoDup (runs (run_compiled selector groups seed document st).2.1) →
  (run_compiled selector groups seed document st).1 = Ok (Some found).
Proof.
  intros [He Hc] Et Hm Hfrag Hf. unfold run_compiled, on_compiler, mbind at 1 4, M_bind at 1 4. rewrite (compile_match _ _ _ _ Et).
  pose proof (compile_at_spec page documentIsHTML docElem hash focused textContent attrHandle escaped_class extra nested_run native
    (S (length selector)) selector [] st.2) as Hs.
  destruct Hs as (_ & _ & Hr); [lia|done|by intros x Hx%elem_of_nil|]. rewrite Hm in Hr.
  destruct (compile_at _ selector None st.2) as [r s']. cbn [fst snd] in *. destruct Hr as (ms & -> & [Hsep Hn _ Hmean]).
  unfold find_TAG. rewrite Hfrag. cbn [negb]. unfold on_engine, mbind, M_bind.
  set (elems := match seed, ms with Some l, _ => l | None, [] => [] | None, _ => searched selector None end).
  assert (Hel : (select_by (q OFalse (CNode document)) elems tt).1 = Ok found).
  { destruct seed as [l|]; [done|]. destruct ms; [|done]. rewrite select_by_never in Hf by (intros e; by rewrite <- Hmean). done. }
  assert (He' : ∀ s, (match seed, ms with
      | Some l, _ => mret l | None, [] => mret [] | None, _ => mret (getElementsByTagName (js "*") (widened selector document)) end : M (engine * compiler) (list path)) s =
      (Ok elems, s)) by (intros s; by destruct seed, ms).
  rewrite He'. cbn [fst snd].
  pose proof (superMatcher_agree page documentIsHTML nested_run native document ms elems document Hsep Hn st.1 He) as Ha.
  rewrite outermost_document in Ha. rewrite (select_by_ext _ (q OFalse (CNode document))) in Ha by (intros x; apply Hmean).
  destruct (superMatcher _ _ _ _ _ _ _ _ _ st.1) as [[l|e] e']; cbn [fst snd] in *; intros Hd; destruct (Ha Hd) as [E _].
  - rewrite Hel in E. by injection E as ->.
  - by rewrite Hel in E.
Qed.

(** What the browser finds for a token is what the filter of the token accepts. *)
Definition finds_filtered (t : token) : Prop := ∀ seed, find (type t) document = Ok (Some seed) →
  ∃ f, filter_of (type t) = Ok (Pure f) ∧
    seed = base.filter (λ e, f e = true) (getElementsByTagName (js "*") document).
(** The text that is left of a group reads back as the tokens that are left. *)
Definition reads_back tokens : Prop := ∀ rest seed,
  fetch_seed (reverse tokens) document [] = Ok (Some (rest, seed)) → rest ≠ [] → tokenize (toSelector rest) = Ok [rest].

Lemma meaning_single selector tokens :
  tokenize selector = Ok [tokens] →
  meaning selector = match group_means (meaning_at page documentIsHTML docElem hash focused textContent attrHandle escaped_class extra native (length selector)) tokens with
    | Throw e => Throw e | Ok None => Ok None | Ok (Some p) => Ok (Some (either [p])) end.
Proof.
  intros E. unfold Compiler.meaning. cbn [Compiler.meaning_at]. rewrite E. change (reverse [tokens]) with [tokens]. cbn [Compiler.groups_mean].
  by destruct (Compiler.group_means _ _ _ _ _ _ _ _ _ _ _ tokens) as [[]|].
Qed.
Lemma either_single p o c e : either [p] o c e tt = p o c e tt.
Proof. unfold either. cbn. unfold mbind, M_bind. by destruct (p o c e tt) as [[[]|] []]. Qed.
Lemma select_by_always P l : (∀ e, P e tt = (Ok true, tt)) → (select_by P l tt).1 = Ok l.
Proof.
  intros HP. induction l as [|e l IH]; [done|]. cbn [select_by]. unfold mbind, M_bind. rewrite HP.
  destruct (select_by P l tt) as [[]  []]; [|done]. cbn in IH. by injection IH as ->.
Qed.
Lemma within_document e : within page documentIsHTML OFalse false (parentNode, false) e (CNode document) tt = (Ok true, tt).
Proof. unfold within. cbn. by rewrite orb_true_r. Qed.
Hypothesis root : parent_of document = None.
Hypothesis no_fragment : has_type 11 document = false.
Lemma widened_root text : widened text document = document.
Proof. unfold widened. by rewrite root. Qed.

(** The seed that was fetched, with the meaning of what is left. *)
Lemma seed_means selector tokens rest seed p found :
  tokenize selector = Ok [tokens] → Forall finds_filtered tokens → meaning selector = Ok (Some p) →
  (select_by (p OFalse (CNode document)) (getElementsByTagName (js "*") document) tt).1 = Ok found →
  fetch_seed (reverse tokens) document [] = Ok (Some (rest, seed)) →
  (rest = [] ∧ found = seed) ∨
  (rest ≠ [] ∧ ∃ q, group_means meaning rest = Ok (Some q) ∧ (select_by (q OFalse (CNode document)) seed tt).1 = Ok found).
Proof.
  intros Et Hfind Hm Hfound Hseed. rewrite (meaning_single _ _ Et) in Hm. pose proof (tokenize_argument _ _ Et) as Ha.
  inversion Ha as [|? ? Hg _]; subst. clear Ha.
  rewrite (group_means_ext _ _ _ _ _ _ _ _ _ _ _ meaning (length selector)) in Hm; [|intros q Hq; by apply meaning_at_meaning|exact Hg].
  destruct (group_means meaning tokens) as [[P|]|] eqn:HP; [|done..]. injection Hm as <-.
  rewrite (select_by_ext _ (P OFalse (CNode document))) in Hfound by (intros; apply either_single).
  apply fetch_seed_spec in Hseed as (pre & t & post & Etok & -> & Ef & Ht & Hpost); [|constructor].
  rewrite reverse_involutive, app_nil_r in Etok. subst tokens.
  assert (Hff : finds_filtered t) by (rewrite Forall_app, Forall_cons in Hfind; apply Hfind).
  destruct (Hff _ Ef) as (f & Hf & ->).
  destruct (decide (pre ++ post = [])) as [E|Hne].
  - left. split; [done|]. apply app_nil in E as [-> ->]. cbn [app Compiler.group_means] in HP.
    apply (single_means _ _ f) in HP; [|done..]. subst P.
    assert (Hs : (select_by (λ e, within page documentIsHTML OFalse false (parentNode, false) e (CNode document))
      (base.filter (λ e, f e = true) (getElementsByTagName (js "*") document)) tt).1 = Ok found).
    { eapply select_by_narrowed; [|exact Hfound]. intros e. apply (narrows_token f (λ o x e, within page documentIsHTML o false (parentNode, false) e x)). }
    rewrite select_by_always in Hs by (intros; by apply within_document). by injection Hs.
  - right. split; [done|]. destruct (group_means_without _ f _ _ _ _ Hpost Ht Hne Hf HP) as (q & Hq & Hn). exists q. split; [done|].
    eapply select_by_narrowed; [|exact Hfound]. intros e. apply Hn.
Qed.

(** C3: Fetching a seed set does not change the answer.  [select] of one group with the
    document as context gives, in document order, exactly the elements that the selector
    means: whether it searches all elements, or lets the browser find those for one token
    of the last compound, removes the token and runs the rest on them, or returns them as
    they are.  It is assumed that the browser finds for a token what the filter of the
    token accepts, that what is left reads back as its tokens, that the shortcut for an
    ID does not apply, and that the numbers of the runs differ. *)
Theorem select_meaning selector tokens p found st :
  ready st → tokenize selector = Ok [tokens] → id_context tokens document = None →
  Forall finds_filtered tokens → reads_back tokens → meaning selector = Ok (Some p) →
  (select_by (p OFalse (CNode document)) (getElementsByTagName (js "*") document) tt).1 = Ok found →
  NoDup (runs (select selector document st).2.1) →
  (select selector document st).1 = Ok (Some found).
Proof.
  intros Hst Et Hid Hfind Hback Hm Hfound. unfold select. rewrite Et, Hid, widened_root.
  assert (Hrun : ∀ sel g seed q, tokenize sel = Ok g → meaning sel = Ok (Some q) →
    (select_by (q OFalse (CNode document)) (searched sel seed) tt).1 = Ok found →
    NoDup (runs (run_compiled sel g seed document st).2.1) → (run_compiled sel g seed document st).1 = Ok (Some found)).
  { intros sel g seed q Hg Hq. apply run_compiled_spec; [done..|]. by rewrite widened_root. }
  assert (Hall : (select_by (p OFalse (CNode document)) (searched selector None) tt).1 = Ok found) by (cbn; by rewrite widened_root).
  destruct (test r_needsContext selector); [by eapply Hrun|].
  destruct (fetch_seed (reverse tokens) document []) as [[[rest seed]|]|] eqn:Es; [|by eapply Hrun|by apply fetch_seed_ok in Es].
  destruct (seed_means _ _ _ _ _ _ Et Hfind Hm Hfound Es) as [[-> ->]|(Hne & q & Hq & Hs)].
  { by destruct seed. }
  pose proof (Hback _ _ Es Hne) as Eb. destruct seed as [|e seed]; [intros _; cbn in Hs; by injection Hs as <-|].
  destruct (toSelector rest) as [|c text] eqn:Etext; [done|]. rewrite <- Etext in Eb |- *.
  apply Hrun with (q := either [q]); [done| |].
  - rewrite (meaning_single _ _ Eb). pose proof (tokenize_argument _ _ Eb) as Ha. inversion Ha as [|? ? Hg _]; subst.
    rewrite (group_means_ext _ _ _ _ _ _ _ _ _ _ _ meaning (length (toSelector rest)));
      [by rewrite Hq|intros x Hx; by apply meaning_at_meaning|exact Hg].
  - rewrite (select_by_ext _ (q OFalse (CNode document))) by (intros; apply either_single). exact Hs.
Qed.
End page.

(** ** Examples *)

(** A browser for the sample document, which has no native class or selector queries. *)
Definition sample_elements : list path := [[0; 0]; [0; 0; 0]; [0; 0; 0; 0]; [1; 0; 0; 0]; [1; 0; 0]; [0; 1; 0; 0]].
Definition sample_tag (tag : jsstr) (context : path) : list path :=
  base.filter (λ e, contains sample context e && (str_eqb tag (js "*") || str_eqb (@nodeName_lower ascii_case sample e) tag) = true)
    sample_elements.
Definition sample_select (selector : jsstr) (context : path) : M (engine * compiler) (option (list path)) :=
  @select ascii_case sample true [0; 0] [] (λ _, false) (λ _, None) (λ _, None) (λ _ _, false) (λ _, None)
    (λ n d, (d + Z.of_nat n + 1)%Z) (λ _ _, Ok []) [0] sample_tag None (λ _, None) (λ _ _, Throw syntax_error) false false
    selector context.
Definition even_items : jsstr := js "ul > li:nth-child(2n)".
Definition sample_meaning : predicate :=
  match @meaning ascii_case sample true [0; 0] [] (λ _, false) (λ _, None) (λ _, None) (λ _ _, false) (λ _, None) (λ _ _, Ok []) even_items with
  | Ok (Some p) => p
  | _ => λ _ _ _, mret false
  end.
Lemma some_meaning (r : outcome (option predicate)) p :
  match r with Ok (Some _) => true | _ => false end = true → r = Ok (Some match r with Ok (Some p) => p | _ => p end).
Proof. by destruct r as [[]|]. Qed.

Lemma select_meaning_witness :
  (sample_select even_items [0] (engine0, compiler0)).1 = Ok (Some [[1; 0; 0; 0]]).
Proof.
  apply (@select_meaning ascii_case sample true [0; 0] [] (λ _, false) (λ _, None) (λ _, None) (λ _ _, false) (λ _, None)
    (λ n d, (d + Z.of_nat n + 1)%Z) (λ _ _, Ok []) [0] sample_tag None (λ _, None) (λ _ _, Throw syntax_error) false false
    eq_refl eq_refl even_items
    [Token (js "ul") (TTag (js "ul")); Token (js " > ") (TComb (js ">")); Token (js "li") (TTag (js "li"));
     Token (js ":nth-child(2n)") (TChild (js "nth") (js "child") (Some (2, 0)%Z))] sample_meaning [[1; 0; 0; 0]]).
  - apply ready_start.
  - by vm_compute.
  - by vm_compute.
  - repeat constructor; intros seed E; try discriminate E; injection E as <-; eexists; (split; [reflexivity|by vm_compute]).
  - intros rest seed E _. vm_compute in E. injection E as <- <-. by vm_compute.
  - apply some_meaning. by vm_compute.
  - by vm_compute.
  - apply (bool_decide_unpack _). by vm_compute.
Defined.

End Select.
