(* ===== verification/JqTraverse.v ===== *)
(** * Traversing and filtering sets in jquery.js

    [winnow] with [filter], [not] and [is]; [find], [has], [closest], [index], [add];
    [dir], [sibling] and the methods made from them; [jQuery.fn.init] on texts.  The
    selector engine is used through the class [SelectorEngine]; its laws are stated by
    [SelectorLaws], against which the theorems are proved, and the compiler of SzCompile
    satisfies them. *)

From stdpp Require Import base tactics list strings numbers sets gmap.
From Stdlib Require Import NArith ZArith Sorted Lia.
From S2P Require Import Prelude.
From S2P Require Import JsString.
From S2P Require Import Regex.
From S2P Require Import JsArray.
From S2P Require Import JqCore.
From S2P Require Import SzTree.
From S2P Require Import SzTokens.
From S2P Require Import SzMatch.
From S2P Require Import SzCompile.
From S2P Require Import SzSelect.
Import Tree.

(** What the functions on sets ask of the selector engine, and of its state. *)
Class SelectorEngine (E : Type) := {
  find_matches : jsstr → list path → M E (list path);
  find_matchesSelector : path → jsstr → M E bool;
  find_in : jsstr → path → M E (list path);
}.

Module Traverse.

Definition rneedsContext : regex := Tokens.r_needsContext.
(** A text without the units of a class, an ID, a pseudo, an attribute or a comma,
    from the second unit on. *)
Definition risSimple : regex := seqs [RBol; dot; star (RSet (ncls ":#[.,")); REol].
(** A text with markup, or an ID. *)
Definition rquickExpr : regex :=
  seqs [RBol;
        RAlt (seqs [star (RSet is_space); RGroup 1 (seqs [lit "<"; plus (RSet (λ _, true)); lit ">"]);
                    star (RSet (ncls ">"))])
             (seqs [lit "#"; RGroup 2 (star (RSet (λ c, is_word c || N.eqb c 45)))]);
        REol].
(** The names that begin with [parents], [prevUntil] or [prevAll]. *)
Definition rparentsprev : regex := RSeq RBol (RAlt (lit "parents") (RSeq (lit "prev") (RAlt (lit "Until") (lit "All")))).

Section traverse.
Variable page : list tree.
Context {E : Type} `{SelectorEngine E}.
(** The order of nodes that [jQuery.unique] sorts by, and whether its sort met two
    equal nodes. *)
Variable compare : path → path → Z.
Variable met_equal : list path → bool.
Local Abbreviation is_element := (is_element page).
Local Abbreviation along := (along page).
Definition type_of (p : path) : N := nodeType (node_info page p).
Definition unique (l : list path) : list path := uniqueSort compare (met_equal l) l.

(** ** Filtering *)

(** [jQuery.filter(expr, elems, not)]. *)
Definition filter_ (expr : jsstr) (elems : list path) (not : bool) : M E (list path) :=
  let expr := if not then js ":not(" ++ expr ++ js ")" else expr in
  let matches := find_matches expr (base.filter (λ e, Is_true (is_element e)) elems) in
  match elems with
  | [elem] =>
      if is_element elem then b ← find_matchesSelector elem expr; mret (if (b : bool) then [elem] else [])
      else matches
  | _ => matches
  end.

(** The argument of [filter], [not] and [is]: a function, a node, a text, or a set. *)
Inductive qualifier : Type :=
  | QFunction (f : path → nat → M E bool)
  | QNode (p : path)
  | QString (s : jsstr)
  | QSet (l : list path).
Definition in_array (elem : path) (l : list path) : bool := bool_decide (elem ∈ l).
Definition winnow (elements : list path) (q : qualifier) (not : bool) : M E (list path) :=
  match q with
  | QFunction f => Core.grep elements (λ elem i, b ← f elem i; mret (xorb b not)) false
  | QNode p => Core.grep elements (λ elem _, mret (xorb (bool_decide (elem = p)) not)) false
  | QString s =>
      if test risSimple s then filter_ s elements not
      else
        l ← filter_ s elements false;
        Core.grep elements (λ elem _, mret (xorb (in_array elem l) not)) false
  | QSet l => Core.grep elements (λ elem _, mret (xorb (in_array elem l) not)) false
  end.
(** [selector || []]. *)
Definition or_empty (q : qualifier) : qualifier :=
  match q with QString [] => QSet [] | _ => q end.
Definition set : Type := Core.jq path.
Definition nodes (this : set) : list path := Core.elems_of this.
Definition filter (this : set) (q : qualifier) : M E set :=
  l ← winnow (nodes this) (or_empty q) false; mret (Core.pushStack this l).
Definition not_ (this : set) (q : qualifier) : M E set :=
  l ← winnow (nodes this) (or_empty q) true; mret (Core.pushStack this l).

(** ** [jQuery(selector, context)] on texts and nodes *)

(** The document, [getElementById], the nodes that [parseHTML] makes, and what [ready]
    does with a function. *)
Context (document : path) (byId : jsstr → option path) (parseHTML : jsstr → M E (list path)).
Context (on_ready : (path → nat → M E bool) → M E unit).

(** [find]: in every element of the set, then sorted when there are several. *)
Fixpoint find_loop (selector : jsstr) (l ret : list path) : M E (list path) :=
  match l with
  | [] => mret ret
  | c :: l' => found ← find_in selector c; find_loop selector l' (ret ++ found)
  end.
Definition find_string (this : set) (selector : jsstr) : M E set :=
  ret ← find_loop selector (nodes this) [];
  mret (Core.pushStack this (if 1 <? length (nodes this) then unique ret else ret)).
Definition find_nodes (this : set) (targets : list path) : M E set :=
  l ← filter (Core.Jq targets None) (QFunction (λ t _, mret (existsb (λ c, contains page c t) (nodes this))));
  mret (Core.pushStack this (nodes l)).

Definition root : set := Core.Jq [document] None.
(** [jQuery(selector, context)]: [context] is the set to search in, if one is given.
    A match of an element whose ID is not the one asked for is searched for as a
    selector. *)
Definition init_string (selector : jsstr) (context : option set) : M E set :=
  match selector with
  | [] => mret (Core.Jq [] None)
  | _ =>
      let expr := find_string (default root context) selector in
      let html s := l ← parseHTML s; mret (Core.Jq (Core.merge [] l) None) in
      if str_eqb (charAt selector 0) (js "<") && str_eqb (charAt selector (length selector - 1)) (js ">")
         && (3 <=? length selector) then html selector
      else
        match exec rquickExpr selector with
        | None => expr
        | Some m =>
            match capture_str m 1 with
            | (_ :: _) as s => html s
            | [] =>
                match context with
                | Some _ => expr
                | None =>
                    match byId (capture_str m 2) with
                    | Some elem =>
                        match step page parentNode elem with
                        | Some _ =>
                            if str_eqb (id (node_info page elem)) (capture_str m 2) then mret (Core.Jq [elem] None)
                            else find_string root selector
                        | None => mret (Core.Jq [] None)
                        end
                    | None => mret (Core.Jq [] None)
                    end
                end
            end
        end
  end.
(** The argument of [jQuery]; a function is kept until the document is ready. *)
Definition jquery (q : qualifier) (context : option set) : M E set :=
  match q with
  | QString s => init_string s context
  | QNode p => mret (Core.Jq [p] None)
  | QSet l => mret (Core.Jq (Core.merge [] l) None)
  | QFunction f => on_ready f ≫= λ _, mret root
  end.

Definition is_ (this : set) (q : qualifier) : M E bool :=
  q ← (match q with
       | QString s =>
           if test rneedsContext s then found ← jquery q None; mret (QSet (nodes found)) else mret (or_empty q)
       | _ => mret q
       end);
  l ← winnow (nodes this) q false;
  mret (match l with [] => false | _ => true end).

(** ** Walking *)

(** The loop of [dir] over the nodes that the link leads to. *)
Fixpoint dir_loop (until : option qualifier) (l matched : list path) : M E (list path) :=
  match l with
  | [] => mret matched
  | cur :: l' =>
      if N.eqb (type_of cur) 9 then mret matched
      else
        go_on ← match until with
                | None => mret true
                | Some q => if is_element cur then b ← is_ (Core.Jq [cur] None) q; mret (negb b) else mret true
                end;
        if go_on : bool then dir_loop until l' (if is_element cur then matched ++ [cur] else matched)
        else mret matched
  end.
Definition dir_ (elem : path) (d : dir) (until : option qualifier) : M E (list path) :=
  dir_loop until (along d elem) [].
(** [jQuery.sibling(n, elem)]; [None] is undefined. *)
Definition sibling_ (n : option path) (elem : option path) : list path :=
  match n with
  | None => []
  | Some n =>
      base.filter (λ p, Is_true (is_element p && negb (bool_decide (Some p = elem)))) (n :: along nextSibling n)
  end.
(** [sibling(cur, dir)]. *)
Definition sibling (cur : path) (d : dir) : option path := List.find is_element (along d cur).

(** The document of an [iframe]. *)
Context (contentDocument : path → option path).

Inductive method := Parent | Parents | ParentsUntil | Next | Prev | NextAll | PrevAll
  | NextUntil | PrevUntil | Siblings | Children | Contents.
Definition name_of (m : method) : jsstr :=
  match m with
  | Parent => js "parent" | Parents => js "parents" | ParentsUntil => js "parentsUntil"
  | Next => js "next" | Prev => js "prev" | NextAll => js "nextAll" | PrevAll => js "prevAll"
  | NextUntil => js "nextUntil" | PrevUntil => js "prevUntil" | Siblings => js "siblings"
  | Children => js "children" | Contents => js "contents"
  end.
Definition one (p : option path) : Core.mapped path :=
  match p with Some p => Core.MOne p | None => Core.MNone end.
Definition many (m : M E (list path)) : M E (Core.mapped path) := l ← m; mret (Core.MMany l).
Definition is_iframe (elem : path) : bool :=
  str_eqb (ascii_lower_unit <$> nodeName (node_info page elem)) (js "iframe").
Definition fn (m : method) (elem : path) (until : option qualifier) : M E (Core.mapped path) :=
  match m with
  | Parent =>
      mret (one (match step page parentNode elem with
                 | Some p => if N.eqb (type_of p) 11 then None else Some p
                 | None => None
                 end))
  | Parents => many (dir_ elem parentNode None)
  | ParentsUntil => many (dir_ elem parentNode until)
  | Next => mret (one (sibling elem nextSibling))
  | Prev => mret (one (sibling elem previousSibling))
  | NextAll => many (dir_ elem nextSibling None)
  | PrevAll => many (dir_ elem previousSibling None)
  | NextUntil => many (dir_ elem nextSibling until)
  | PrevUntil => many (dir_ elem previousSibling until)
  | Siblings =>
      many (mret (sibling_ (step page parentNode elem ≫= firstChild page) (Some elem)))
  | Children => many (mret (sibling_ (firstChild page elem) None))
  | Contents =>
      if is_iframe elem then mret (one (contentDocument elem))
      else many (mret (Core.merge [] (childNodes page elem)))
  end.
Definition guaranteedUnique (m : method) : bool :=
  match m with Children | Contents | Next | Prev => true | _ => false end.
Definition is_until (m : method) : bool :=
  str_eqb (slice_from (name_of m) (-5)) (js "Until").

(** [this[name](until, selector)]. *)
Definition traverse (m : method) (this : set) (until selector : option qualifier) : M E set :=
  ret ← Core.map (nodes this) (λ elem _, fn m elem until);
  let selector := if is_until m then selector else until in
  ret ← match selector with Some (QString ((_ :: _) as s)) => filter_ s ret false | _ => mret ret end;
  let ret :=
    if 1 <? length (nodes this) then
      let ret := if guaranteedUnique m then ret else unique ret in
      if test rparentsprev (name_of m) then reverse ret else ret
    else ret in
  mret (Core.pushStack this ret).

(** ** Methods of sets *)

Definition has (this : set) (target : qualifier) : M E set :=
  targets ← jquery target (Some this);
  filter this (QFunction (λ elem _, mret (existsb (λ t, contains page elem t) (nodes targets)))).

(** The walk of [closest] from one element: the nodes up to the context. *)
Fixpoint closest_walk (check : path → M E bool) (context : option path) (l : list path) : M E (option path) :=
  match l with
  | [] => mret None
  | cur :: l' =>
      if bool_decide (Some cur = context) then mret None
      else
        b ← (if (type_of cur <? 11)%N then check cur else mret false);
        if b : bool then mret (Some cur) else closest_walk check context l'
  end.
Fixpoint closest_loop (check : path → M E bool) (context : option path) (l matched : list path) : M E (list path) :=
  match l with
  | [] => mret matched
  | e :: l' =>
      r ← closest_walk check context (e :: along parentNode e);
      closest_loop check context l' (match r with Some p => matched ++ [p] | None => matched end)
  end.
(** [this_context] is the property [context] of the set. *)
Definition closest (this : set) (selectors : qualifier) (context this_context : option path) : M E set :=
  let as_set p := Core.Jq [p] None in
  let positional := match selectors with QString s => test rneedsContext s | _ => true end in
  check ← (if positional then
             pos ← jquery selectors (as_set <$> match context with Some c => Some c | None => this_context end);
             mret (λ cur, mret (in_array cur (nodes pos)))
           else
             mret (λ cur, if is_element cur then
                            match selectors with QString s => find_matchesSelector cur s | _ => mret false end
                          else mret false));
  matched ← closest_loop check context (nodes this) [];
  mret (Core.pushStack this (if 1 <? length matched then unique matched else matched)).

Fixpoint position (elem : path) (l : list path) (i : nat) : Z :=
  match l with
  | [] => (-1)%Z
  | x :: l' => if bool_decide (x = elem) then Z.of_nat i else position elem l' (S i)
  end.
(** [index()], and [index] of a selector, a node or a set. *)
Definition index (this : set) (arg : option qualifier) : M E Z :=
  match arg with
  | None | Some (QString []) =>
      match nodes this with
      | [] => mret (-1)%Z
      | e :: _ =>
          match step page parentNode e with
          | None => mret (-1)%Z
          | Some _ => r ← traverse PrevAll (Core.first_ this) None None; mret (zlen (nodes r))
          end
      end
  | Some (QString s) =>
      found ← jquery (QString s) None;
      mret (match nodes this with e :: _ => position e (nodes found) 0 | [] => (-1)%Z end)
  | Some (QNode p) => mret (position p (nodes this) 0)
  | Some (QSet l) => mret (match l with e :: _ => position e (nodes this) 0 | [] => (-1)%Z end)
  | Some (QFunction _) => mret (-1)%Z
  end.

Definition add (this : set) (selector : qualifier) (context : option set) : M E set :=
  found ← jquery selector context;
  mret (Core.pushStack this (unique (Core.merge (Core.toArray this) (nodes found)))).
Definition addBack (this : set) (selector : option qualifier) : M E set :=
  let prev := match this with Core.Jq _ (Some p) => p | Core.Jq _ None => Core.Jq [] None end in
  l ← match selector with None => mret prev | Some q => filter prev q end;
  add this (QSet (nodes l)) None.
End traverse.
Arguments QFunction {E}. Arguments QNode {E}. Arguments QString {E}. Arguments QSet {E}.
End Traverse.

(** ** The laws of the engine

    [means s f]: the selector [s] has no error, and stands for the elements [f]; a text
    that has a meaning is not empty.  The engine keeps a state between queries, which is
    [ready]; its promises hold of the runs that end in a [fine] state (no number of a run
    was drawn twice), and a state that is not fine never becomes so again. *)
Class SelectorLaws (E : Type) `{SelectorEngine E} := {
  ready : E → Prop;
  fine : E → Prop;
  means : jsstr → (path → bool) → Prop;
  means_text s f : means s f → s ≠ [];
  matches_keeps s l : keeps (λ e e', fine e' → fine e) (find_matches s l);
  matchesSelector_keeps p s : keeps (λ e e', fine e' → fine e) (find_matchesSelector p s);
  matches_law s f l e : means s f → ready e → fine (find_matches s l e).2 →
    (find_matches s l e).1 = Ok (base.filter (λ p, Is_true (f p)) l) ∧ ready (find_matches s l e).2;
  matchesSelector_law s f p e : means s f → ready e → fine (find_matchesSelector p s e).2 →
    (find_matchesSelector p s e).1 = Ok (f p) ∧ ready (find_matchesSelector p s e).2;
}.

Module TraverseFacts.
Import Traverse.

Section yields.
Context {E : Type} `{SelectorLaws E}.

Definition back (e e' : E) : Prop := fine e' → fine e.
#[export] Instance back_preorder : PreOrder back.
Proof. split; [by intros e He|intros a b c H1 H2 H3; auto]. Qed.

(** A computation that returns [a] from every ready state, as long as its run is fine. *)
Definition yields {A} (m : M E A) (a : A) : Prop :=
  keeps back m ∧ ∀ e, ready e → fine (m e).2 → (m e).1 = Ok a ∧ ready (m e).2.

Lemma yields_ret {A} (a : A) : yields (mret a) a.
Proof. split; [apply keeps_ret, _|]. by intros e He _. Qed.
Lemma yields_bind {A B} (m : M E A) (k : A → M E B) a b :
  yields m a → (∀ a', keeps back (k a')) → yields (k a) b → yields (m ≫= k) b.
Proof.
  intros [Hk Hm] Hkk [_ Hb]. split; [by apply keeps_bind; [apply _|..]|]. intros e He Hf.
  unfold mbind, M_bind in *. specialize (Hm e He). destruct (m e) as [r e1]. cbn [fst snd] in *.
  destruct r as [a'|err].
  - destruct Hm as [Ha Hr]; [by apply (Hkk a' e1)|]. injection Ha as ->. by apply Hb.
  - destruct (Hm Hf) as [? _]. done.
Qed.
Lemma yields_ret_bind {A B} (k : A → M E B) a b : yields (k a) b → yields (mret a ≫= k) b.
Proof. done. Qed.
Lemma yields_eq {A} (m : M E A) a b : yields m a → a = b → yields m b.
Proof. by intros Hm <-. Qed.
Lemma yields_matches s f l : means s f → yields (find_matches s l) (base.filter (λ p, Is_true (f p)) l).
Proof. intros Hs. split; [apply matches_keeps|]. intros e. by apply matches_law. Qed.
Lemma yields_matchesSelector s f p : means s f → yields (find_matchesSelector p s) (f p).
Proof. intros Hs. split; [apply matchesSelector_keeps|]. intros e. by apply matchesSelector_law. Qed.
End yields.

Lemma keeps_back_bind {E} `{SelectorLaws E} {A B} (m : M E A) (k : A → M E B) :
  keeps back m → (∀ a, keeps back (k a)) → keeps back (m ≫= k).
Proof. apply keeps_bind, _. Qed.
Lemma keeps_back_ret {E} `{SelectorLaws E} {A} (a : A) : keeps back (mret (M := M E) a).
Proof. apply keeps_ret, _. Qed.
Create HintDb back.
#[export] Hint Resolve keeps_back_bind keeps_back_ret matches_keeps matchesSelector_keeps : back.
Ltac back := repeat (first [progress intros | apply keeps_back_ret | apply matches_keeps | apply matchesSelector_keeps
  | apply keeps_back_bind | case_match | assumption | solve [eauto with back]]).

Section facts.
Variable page : list tree.
Context {E : Type} `{SelectorLaws E}.
Variable compare : path → path → Z.
Variable met_equal : list path → bool.
Local Abbreviation is_element := (is_element page).
Local Abbreviation along := (along page).

Lemma keeps_grep {A} (cb : A → nat → M E bool) expect l i matches :
  (∀ x i, keeps back (cb x i)) → keeps back (Core.grep_loop cb expect l i matches).
Proof. intros Hcb. revert i matches. induction l as [|x l IH]; intros i matches; cbn [Core.grep_loop]; back. Qed.

Lemma yields_grep {A} (cb : A → nat → M E bool) (q : A → bool) l :
  (∀ x i, yields (cb x i) (q x)) → yields (Core.grep l cb false) (base.filter (λ x, Is_true (q x)) l).
Proof.
  intros Hcb. unfold Core.grep. cbn [negb].
  assert (Hk : ∀ x i, keeps back (cb x i)) by (intros x i; apply Hcb).
  assert (Hloop : ∀ i matches, yields (Core.grep_loop cb true l i matches) (matches ++ base.filter (λ x, Is_true (q x)) l)).
  { induction l as [|x l IH]; intros i matches; [rewrite app_nil_r; apply yields_ret|]. cbn [Core.grep_loop].
    eapply yields_bind; [apply Hcb|intros; by apply keeps_grep|].
    rewrite filter_cons. destruct (q x); cbn [negb Bool.eqb]; [|apply IH].
    rewrite decide_True by done. specialize (IH (S i) (matches ++ [x])). by rewrite <- (assoc_L (++)) in IH. }
  apply Hloop.
Qed.

(** ** Filtering *)

Definition elements (l : list path) : list path := base.filter (λ e, Is_true (is_element e)) l.
Definition selected (f : path → bool) (l : list path) : list path := base.filter (λ e, Is_true (f e)) l.
Lemma selected_and f g l : selected f (selected g l) = selected (λ x, g x && f x) l.
Proof.
  unfold selected. rewrite list_filter_filter. apply list_filter_iff. intros x. rewrite andb_True. tauto.
Qed.

Lemma keeps_filter s l not : keeps back (filter_ page s l not).
Proof. unfold filter_. back. Qed.
Lemma yields_filter s f l : means s f → yields (filter_ page s l false) (selected (λ x, is_element x && f x) l).
Proof.
  intros Hs. rewrite <- selected_and. unfold filter_. assert (Hm := yields_matches s f (elements l) Hs).
  destruct l as [|x [|y l]]; [done| |done]. unfold elements, selected in *. rewrite !filter_cons in *.
  destruct (is_element x); cbn [decide] in *.
  - rewrite decide_True in * by done. eapply yields_bind; [by apply yields_matchesSelector|back|].
    rewrite !filter_nil, filter_cons, filter_nil. destruct (f x); cbn; [rewrite decide_True by done|rewrite decide_False by tauto]; apply yields_ret.
  - rewrite decide_False in * by tauto. done.
Qed.

(** What a qualifier stands for on elements: a selector that does not depend on the
    rest of the page, a node, or a set. *)
Inductive stands_for : qualifier (E := E) → (path → bool) → Prop :=
  | stands_text s f : means s f → stands_for (QString s) f
  | stands_node p : stands_for (QNode p) (λ x, bool_decide (x = p))
  | stands_set l : stands_for (QSet l) (λ x, in_array x l).

Lemma or_empty_text s f : means s f → or_empty (E := E) (QString s) = QString s.
Proof. intros Hs%means_text. by destruct s. Qed.
Lemma selected_ext f g l : (∀ x, x ∈ l → f x = g x) → selected f l = selected g l.
Proof.
  intros Hfg. unfold selected. induction l as [|x l IH]; [done|]. rewrite !filter_cons, Hfg by (by left).
  rewrite IH by (intros y Hy; apply Hfg; by right). done.
Qed.
Lemma in_array_selected f l x : x ∈ l → in_array x (selected f l) = f x.
Proof.
  intros Hx. unfold in_array, selected. destruct (f x) eqn:Ef.
  - apply bool_decide_eq_true, list_elem_of_filter. by rewrite Ef.
  - apply bool_decide_eq_false. rewrite list_elem_of_filter, Ef. by intros [[] _].
Qed.
Lemma selected_all l : selected (λ _, true) l = l.
Proof. unfold selected. by apply list_filter_all. Qed.

Lemma keeps_winnow l q not : (∀ f x i, q = QFunction f → keeps back (f x i)) → keeps back (winnow page l q not).
Proof.
  intros Hq. unfold winnow, Core.grep. destruct q as [f|p|s|r].
  - apply keeps_grep. intros x i. apply keeps_back_bind; [by eapply Hq|back].
  - apply keeps_grep. back.
  - destruct (test risSimple s); [apply keeps_filter|]. apply keeps_back_bind; [apply keeps_filter|].
    intros r. apply keeps_grep. back.
  - apply keeps_grep. back.
Qed.
Lemma stands_for_keeps q g l not : stands_for q g → keeps back (winnow page l q not).
Proof. intros Hq. apply keeps_winnow. intros f x i ->. inversion Hq. Qed.

(** [filter] with a text keeps the elements that it means, and no other node. *)
Lemma winnow_text s f l : means s f → yields (winnow page l (QString s) false) (selected (λ x, is_element x && f x) l).
Proof.
  intros Hs. unfold winnow. destruct (test risSimple s); [by apply yields_filter|].
  eapply yields_bind; [by apply yields_filter|intros r; apply keeps_grep; back|].
  eapply yields_eq; [apply yields_grep; intros x i; apply yields_ret|].
  apply selected_ext. intros x Hx. by rewrite in_array_selected, xorb_false_r.
Qed.
(** [not] with a text: a simple one is negated by the engine, which sees elements
    only; with any other the nodes that [filter] would not keep stay. *)
Lemma winnow_not s f g l :
  means s f → means (js ":not(" ++ s ++ js ")") g →
  yields (winnow page l (QString s) true)
    (if test risSimple s then selected (λ x, is_element x && g x) l else selected (λ x, negb (is_element x && f x)) l).
Proof.
  intros Hs Hg. unfold winnow. destruct (test risSimple s).
  - rewrite <- (selected_and g is_element). pose proof (yields_matches _ _ (elements l) Hg) as Hm.
    unfold filter_. destruct l as [|x [|y l]]; [done| |done]. unfold elements, selected in *. rewrite !filter_cons in *.
    destruct (is_element x).
    + rewrite decide_True in * by done. eapply yields_bind; [by apply yields_matchesSelector|back|].
      rewrite !filter_nil, filter_cons, filter_nil.
      destruct (g x); cbn; [rewrite decide_True by done|rewrite decide_False by tauto]; apply yields_ret.
    + rewrite decide_False in * by tauto. done.
  - eapply yields_bind; [by apply yields_filter|intros r; apply keeps_grep; back|].
    eapply yields_eq; [apply yields_grep; intros x i; apply yields_ret|].
    apply selected_ext. intros x Hx. by rewrite in_array_selected, xorb_true_r.
Qed.

(** ** [is] on one element, as [dir] asks *)

Context (document : path) (byId : jsstr → option path) (parseHTML : jsstr → M E (list path)).
Context (on_ready : (path → nat → M E bool) → M E unit).
Local Abbreviation is_ := (is_ page compare met_equal document byId parseHTML on_ready).
Local Abbreviation dir_loop := (dir_loop page compare met_equal document byId parseHTML on_ready).

Definition local (q : qualifier (E := E)) : bool :=
  match q with QString s => negb (test rneedsContext s) | QFunction _ => false | _ => true end.

Lemma is_local this q :
  local q = true →
  is_ this q = (l ← winnow page (nodes this) (or_empty q) false; mret (match l with [] => false | _ => true end)).
Proof.
  intros Hl. unfold Traverse.is_. destruct q as [f|p|s|r]; [done|reflexivity| |reflexivity].
  simpl in Hl. apply negb_true_iff in Hl. by rewrite Hl.
Qed.
Lemma or_empty_stands q g : stands_for q g → or_empty q = q.
Proof. intros Hq. destruct Hq; [by eapply or_empty_text|done..]. Qed.

Lemma yields_winnow_one q g x :
  stands_for q g → is_element x = true → yields (winnow page [x] q false) (if g x then [x] else []).
Proof.
  intros Hq Hx. assert (Hsel : ∀ f : path → bool, selected f [x] = if f x then [x] else []).
  { intros f. unfold selected. rewrite filter_cons, filter_nil. by destruct (f x). }
  destruct Hq as [s f Hs|p|l].
  - eapply yields_eq; [by apply winnow_text|]. rewrite Hsel. by rewrite Hx.
  - eapply yields_eq; [apply yields_grep; intros y i; apply yields_ret|].
    etrans; [apply (Hsel (λ y, xorb (bool_decide (y = p)) false))|]. by rewrite xorb_false_r.
  - eapply yields_eq; [apply yields_grep; intros y i; apply yields_ret|].
    etrans; [apply (Hsel (λ y, xorb (in_array y l) false))|]. by rewrite xorb_false_r.
Qed.
Lemma keeps_is q g this : stands_for q g → local q = true → keeps back (is_ this q).
Proof.
  intros Hq Hl. rewrite is_local, (or_empty_stands _ _ Hq) by done.
  apply keeps_back_bind; [by eapply stands_for_keeps|back].
Qed.
Lemma yields_is q g x :
  stands_for q g → local q = true → is_element x = true → yields (is_ (Core.Jq [x] None) q) (g x).
Proof.
  intros Hq Hl Hx. rewrite is_local, (or_empty_stands _ _ Hq) by done.
  eapply yields_bind; [by apply yields_winnow_one|back|]. destruct (g x); apply yields_ret.
Qed.

(** ** Walks *)

(** What an argument [until] stops at. *)
Definition until_for (until : option (qualifier (E := E))) (g : path → bool) : Prop :=
  match until with
  | None => g = λ _, false
  | Some q => stands_for q g ∧ local q = true
  end.
(** The elements of a walk up to the document or to the first element to stop at. *)
Fixpoint walked (g : path → bool) (l : list path) : list path :=
  match l with
  | [] => []
  | cur :: l' =>
      if N.eqb (type_of page cur) 9 || (is_element cur && g cur) then []
      else if is_element cur then cur :: walked g l' else walked g l'
  end.

Lemma keeps_dir_loop until g l matched : until_for until g → keeps back (dir_loop until l matched).
Proof.
  intros Hu. revert matched. induction l as [|cur l IH]; intros matched; cbn [Traverse.dir_loop]; [back|].
  destruct (N.eqb (type_of page cur) 9); [back|]. apply keeps_back_bind.
  - destruct until as [q|]; [|back]. destruct Hu as [Hq Hl]. destruct (is_element cur); [|back].
    apply keeps_back_bind; [by eapply keeps_is|back].
  - intros [|]; [apply IH|back].
Qed.
Lemma yields_dir_loop until g l matched :
  until_for until g → yields (dir_loop until l matched) (matched ++ walked g l).
Proof.
  intros Hu. revert matched. induction l as [|cur l IH]; intros matched; cbn [Traverse.dir_loop walked].
  - rewrite app_nil_r. apply yields_ret.
  - destruct (N.eqb (type_of page cur) 9); cbn [orb]; [rewrite app_nil_r; apply yields_ret|].
    assert (Hgo : yields (match until with
        | None => mret true
        | Some q => if is_element cur then b ← is_ (Core.Jq [cur] None) q; mret (negb b) else mret true
        end) (negb (is_element cur && g cur))).
    { destruct until as [q|]; [|rewrite Hu, andb_false_r; apply yields_ret]. destruct Hu as [Hq Hl].
      destruct (is_element cur) eqn:Hc; [|apply yields_ret].
      eapply yields_bind; [by apply yields_is|back|apply yields_ret]. }
    eapply yields_bind; [exact Hgo|intros [|]; [by eapply keeps_dir_loop|back]|].
    destruct (is_element cur && g cur); cbn [negb]; [rewrite app_nil_r; apply yields_ret|].
    specialize (IH (if is_element cur then matched ++ [cur] else matched)).
    destruct (is_element cur); [|done]. by rewrite <- (assoc_L (++)) in IH.
Qed.

(** ** The methods *)

Context (contentDocument : path → option path).
Local Abbreviation fn := (fn page compare met_equal document byId parseHTML on_ready contentDocument).
Local Abbreviation traverse := (traverse page compare met_equal document byId parseHTML on_ready contentDocument).

(** The nodes that a method adds for one node of the set. *)
Definition to_list (p : option path) : list path := match p with Some p => [p] | None => [] end.
Definition steps (m : method) (g : path → bool) (elem : path) : list path :=
  let never _ := false in
  match m with
  | Parent => base.filter (λ p, type_of page p ≠ 11%N) (to_list (step page parentNode elem))
  | Parents => walked never (along parentNode elem)
  | ParentsUntil => walked g (along parentNode elem)
  | Next => to_list (sibling page elem nextSibling)
  | Prev => to_list (sibling page elem previousSibling)
  | NextAll => walked never (along nextSibling elem)
  | PrevAll => walked never (along previousSibling elem)
  | NextUntil => walked g (along nextSibling elem)
  | PrevUntil => walked g (along previousSibling elem)
  | Siblings =>
      match step page parentNode elem with
      | Some p => base.filter (λ x, Is_true (is_element x) ∧ x ≠ elem) (childNodes page p)
      | None => []
      end
  | Children => elements (childNodes page elem)
  | Contents => if is_iframe page elem then to_list (contentDocument elem) else childNodes page elem
  end.

Lemma sibling_children p elem :
  sibling_ page (firstChild page p) elem =
    base.filter (λ x, Is_true (is_element x && negb (bool_decide (Some x = elem)))) (childNodes page p).
Proof.
  unfold sibling_, firstChild, childNodes. destruct (childCount page p) as [|n] eqn:En; [done|].
  change (seq 0 (S n)) with (0 :: seq 1 n). rewrite fmap_cons. cbn [head]. do 2 f_equal.
  destruct p as [|j p]; [done|]. cbn [Tree.along]. rewrite En. by rewrite Nat.sub_succ, Nat.sub_0_r.
Qed.

Lemma keeps_map cb l i ret :
  (∀ x i, keeps back (cb x i)) → keeps back (Core.map_loop (B := path) (A := path) (S := E) cb l i ret).
Proof. intros Hcb. revert i ret. induction l as [|x l IH]; intros i ret; cbn [Core.map_loop]; back. Qed.

Lemma yields_map (cb : path → nat → M E (Core.mapped path)) (F : path → list path) l :
  (∀ x i, ∃ r, yields (cb x i) r ∧ Core.concat_mapped [r] = F x) → yields (Core.map l cb) (l ≫= F).
Proof.
  intros Hcb. assert (Hk : ∀ x i, keeps back (cb x i)) by (intros x i; destruct (Hcb x i) as (r & [? _] & _); done).
  assert (Hloop : ∀ i ret, ∃ R, yields (Core.map_loop cb l i ret) R ∧
    Core.concat_mapped R = Core.concat_mapped ret ++ (l ≫= F)).
  { induction l as [|x l IH]; intros i ret; [exists ret; split; [apply yields_ret|by rewrite app_nil_r]|].
    destruct (Hcb x i) as (r & Hr & HF). cbn [Core.map_loop].
    destruct (IH (S i) (match r with Core.MNone => ret | _ => ret ++ [r] end)) as (R & HR & Hc).
    exists R. split; [eapply yields_bind; [exact Hr|intros; by apply keeps_map|exact HR]|].
    rewrite Hc, bind_cons, <- HF, (assoc_L (++)). f_equal. unfold Core.concat_mapped.
    by destruct r; rewrite ?bind_app, ?app_nil_r. }
  destruct (Hloop 0 []) as (R & HR & Hc). unfold Core.map.
  eapply yields_bind; [exact HR|back|]. rewrite Hc. apply yields_ret.
Qed.

Lemma yields_fn m g elem until :
  until_for until g → ∃ r, yields (fn m elem until) r ∧ Core.concat_mapped [r] = steps m g elem.
Proof.
  intros Hu. assert (Hn : until_for None (λ _, false)) by done.
  assert (Hdir : ∀ d u g, until_for u g →
    ∃ r, yields (many (dir_ page compare met_equal document byId parseHTML on_ready elem d u)) r ∧
      Core.concat_mapped [r] = walked g (along d elem)).
  { intros d u g' Hu'. exists (Core.MMany (walked g' (along d elem))). split; [|apply app_nil_r]. unfold many, dir_.
    eapply yields_bind; [by apply yields_dir_loop|back|apply yields_ret]. }
  assert (Hone : ∀ p, ∃ r, yields (mret (one p)) r ∧ Core.concat_mapped [r] = to_list p).
  { intros p. exists (one p). split; [apply yields_ret|]. by destruct p. }
  assert (Hmany : ∀ l, ∃ r, yields (many (mret l)) r ∧ Core.concat_mapped [r] = l).
  { intros l. exists (Core.MMany l). split; [|apply app_nil_r]. eapply yields_bind; [apply yields_ret|back|apply yields_ret]. }
  destruct m; cbn [Traverse.fn steps]; try (by apply Hdir); try (by apply Hone).
  - destruct (step page parentNode elem) as [p|]; [|apply Hone]. cbn [to_list]. rewrite filter_cons, filter_nil.
    destruct (N.eqb_spec (type_of page p) 11); [rewrite decide_False by tauto|rewrite decide_True by done]; apply Hone.
  - edestruct Hmany as (r & Hr & Hc). exists r. split; [exact Hr|]. rewrite Hc.
    destruct (step page parentNode elem) as [p|]; [|done]. cbn [mbind option_bind]. rewrite sibling_children.
    apply list_filter_iff. intros x. rewrite andb_True, negb_True, bool_decide_spec. naive_solver.
  - edestruct Hmany as (r & Hr & Hc). exists r. split; [exact Hr|]. rewrite Hc, sibling_children.
    apply list_filter_iff. intros x. rewrite andb_True, negb_True, bool_decide_spec. naive_solver.
  - destruct (is_iframe page elem); [apply Hone|]. rewrite Core.merge_app. apply Hmany.
Qed.
Lemma keeps_fn m g elem until : until_for until g → keeps back (fn m elem until).
Proof. intros Hu. destruct (yields_fn m g elem until Hu) as (r & [? _] & _). done. Qed.

(** ** Traversal *)

(** The selector of a traversal: none, or a text that is not empty. *)
Definition chosen_by (selector : option (qualifier (E := E))) (f : list path → list path) : Prop :=
  match selector with
  | Some (QString s) => ∃ g, means s g ∧ ∀ l, f l = selected (λ x, is_element x && g x) l
  | _ => ∀ l, f l = l
  end.
(** What a traversal finds before it is sorted. *)
Definition found (m : method) (g : path → bool) (f : list path → list path) (l : list path) : list path :=
  f (l ≫= steps m g).
Definition arranged (m : method) (several : bool) (l : list path) : list path :=
  if several then
    let l := if guaranteedUnique m then l else unique compare met_equal l in
    if test rparentsprev (name_of m) then reverse l else l
  else l.

Lemma yields_traverse m g f this until selector :
  until_for until g → chosen_by (if is_until m then selector else until) f →
  yields (traverse m this until selector)
    (Core.pushStack this (arranged m (1 <? length (nodes this)) (found m g f (nodes this)))).
Proof.
  intros Hu Hf. unfold Traverse.traverse.
  eapply yields_bind; [apply (yields_map _ (steps m g)); intros x i; by apply yields_fn| |].
  { intros ret. apply keeps_back_bind; [|back]. repeat case_match; try apply keeps_filter; back. }
  apply (yields_bind _ _ (found m g f (nodes this))); [|back|apply yields_ret].
  unfold found. destruct (if is_until m then selector else until) as [[h|p|[|c s]|l]|]; cbn in Hf;
    try (rewrite Hf; apply yields_ret).
  - destruct Hf as (g' & Hm & _). by apply means_text in Hm.
  - destruct Hf as (g' & Hm & Hfl). rewrite Hfl. by apply yields_filter.
Qed.

(** ** Where the walks lead *)

Lemma walked_along g l x : x ∈ walked g l → x ∈ l.
Proof.
  induction l as [|c l IH]; [done|]. cbn [walked]. destruct (_ || _); [by intros ?%elem_of_nil|].
  destruct (is_element c); rewrite ?elem_of_cons; tauto.
Qed.
Lemma along_parent p x : x ∈ along parentNode p → ∃ u, u ≠ [] ∧ p = u ++ x ∧ x ≠ [].
Proof.
  cbn [Tree.along]. induction p as [|i p IH]; [by intros ?%elem_of_nil|]. cbn [ancestors].
  destruct p as [|j p]; [by intros ?%elem_of_nil|]. intros [->|Hx]%elem_of_cons; [by exists [i]|].
  destruct (IH Hx) as (u & _ & -> & Hne). by exists (i :: u).
Qed.
Lemma in_tree_suffix r u p : p ≠ [] → in_tree page r (u ++ p) → in_tree page r p.
Proof.
  intros Hp [Hl He]. split; [|by eapply exists_suffix]. destruct p as [|i p _] using rev_ind; [done|].
  rewrite (assoc_L (++)), last_snoc in Hl. by rewrite last_snoc.
Qed.
Lemma in_tree_child r i p : in_tree page r p → i < childCount page p → in_tree page r (i :: p).
Proof.
  intros [Hl He] Hi. destruct p as [|j p]; [done|]. split; [done|].
  apply exists_child; [done|]. by split.
Qed.
Lemma in_tree_parent r i p : p ≠ [] → in_tree page r (i :: p) → in_tree page r p ∧ i < childCount page p.
Proof.
  intros Hp Hin. split; [exact (in_tree_suffix r [i] p Hp Hin)|]. destruct Hin as [_ He].
  by apply exists_child in He as [_ He].
Qed.
Lemma along_in_tree r d p x : in_tree page r p → x ∈ along d p → in_tree page r x.
Proof.
  intros Hp Hx. destruct d.
  - apply along_parent in Hx as (u & _ & -> & Hne). by eapply in_tree_suffix.
  - destruct p as [|i [|j q]]; [by apply elem_of_nil in Hx..|]. cbn [Tree.along] in Hx.
    apply list_elem_of_fmap in Hx as (k & -> & Hk%elem_of_reverse%elem_of_seq).
    apply in_tree_parent in Hp as [Hp Hi]; [|done]. apply in_tree_child; [done|lia].
  - destruct p as [|i [|j q]]; [by apply elem_of_nil in Hx..|]. cbn [Tree.along] in Hx.
    apply list_elem_of_fmap in Hx as (k & -> & Hk%elem_of_seq).
    apply in_tree_parent in Hp as [Hp Hi]; [|done]. apply in_tree_child; [done|lia].
Qed.
Lemma childNodes_elem p x : x ∈ childNodes page p ↔ ∃ i, x = i :: p ∧ i < childCount page p.
Proof.
  unfold childNodes. rewrite list_elem_of_fmap. setoid_rewrite elem_of_seq.
  split; intros (i & -> & Hi); exists i; (split; [done|lia]).
Qed.
Lemma childNodes_in_tree r p x : in_tree page r p → x ∈ childNodes page p → in_tree page r x.
Proof. intros Hp (i & -> & Hi)%childNodes_elem. by apply in_tree_child. Qed.
Lemma step_along d p x : step page d p = Some x → x ∈ along d p.
Proof. intros Hs. rewrite along_step, Hs. by left. Qed.

Lemma steps_in_tree r m g elem x :
  in_tree page r elem → (m = Contents → is_iframe page elem = false) → x ∈ steps m g elem → in_tree page r x.
Proof.
  intros Hin Hm Hx. destruct m; cbn [steps] in Hx;
    try (by eapply along_in_tree; [exact Hin|eapply walked_along]).
  - destruct (step page parentNode elem) as [p|] eqn:Es; [|by apply elem_of_nil in Hx]. cbn [to_list] in Hx.
    apply list_elem_of_filter in Hx as [_ ->%list_elem_of_singleton]. eapply along_in_tree; [exact Hin|by apply step_along].
  - unfold sibling in Hx. destruct (List.find _ _) as [y|] eqn:Ef; [|by apply elem_of_nil in Hx].
    apply list_elem_of_singleton in Hx as ->. apply List.find_some in Ef as [Ef%list_elem_of_In _]. by eapply along_in_tree.
  - unfold sibling in Hx. destruct (List.find _ _) as [y|] eqn:Ef; [|by apply elem_of_nil in Hx].
    apply list_elem_of_singleton in Hx as ->. apply List.find_some in Ef as [Ef%list_elem_of_In _]. by eapply along_in_tree.
  - destruct (step page parentNode elem) as [p|] eqn:Es; [|by apply elem_of_nil in Hx].
    apply list_elem_of_filter in Hx as [_ Hx]. eapply childNodes_in_tree; [|exact Hx].
    eapply along_in_tree; [exact Hin|by apply step_along].
  - unfold elements in Hx. apply list_elem_of_filter in Hx as [_ Hx]. by eapply childNodes_in_tree.
  - rewrite Hm in Hx by done. by eapply childNodes_in_tree.
Qed.

(** ** The methods that need no sorting *)

Lemma find_upwards (f : path → bool) (h : nat → path) a n y :
  List.find f (h <$> seq a n) = Some y → ∃ j, y = h j ∧ a ≤ j ∧ f (h j) = true ∧ ∀ k, a ≤ k → k < j → f (h k) = false.
Proof.
  revert a. induction n as [|n IH]; intros a; [done|]. cbn [seq fmap list_fmap List.find].
  destruct (f (h a)) eqn:Ea.
  - intros [= <-]. exists a. split; [done|]. split; [done|]. split; [done|]. intros k. lia.
  - intros (j & -> & Hj & Hf & Hk)%IH. exists j. split; [done|]. split; [lia|]. split; [done|].
    intros k Ha Hkj. destruct (decide (k = a)) as [->|]; [done|]. apply Hk; lia.
Qed.
Lemma find_downwards (f : path → bool) (h : nat → path) n y :
  List.find f (h <$> reverse (seq 0 n)) = Some y → ∃ j, y = h j ∧ j < n ∧ f (h j) = true ∧ ∀ k, j < k → k < n → f (h k) = false.
Proof.
  induction n as [|n IH]; [done|]. rewrite seq_S, reverse_app. cbn [reverse app fmap list_fmap List.find Nat.add].
  change (reverse [n]) with [n]. cbn [app fmap list_fmap List.find].
  destruct (f (h n)) eqn:En.
  - intros [= <-]. exists n. split; [done|]. split; [lia|]. split; [done|]. intros k. lia.
  - intros (j & -> & Hj & Hf & Hk)%IH. exists j. split; [done|]. split; [lia|]. split; [done|].
    intros k Hjk Hkn. destruct (decide (k = n)) as [->|]; [done|]. apply Hk; lia.
Qed.

(** Two elements do not have the same next or previous element. *)
Lemma sibling_inj d a b y :
  d ≠ parentNode → is_element a = true → is_element b = true →
  sibling page a d = Some y → sibling page b d = Some y → a = b.
Proof.
  intros Hd Ha Hb. unfold sibling. destruct d; [done| |].
  - destruct a as [|i [|j q]]; [done..|]. destruct b as [|i' [|j' q']]; [done..|]. cbn [Tree.along].
    intros (k & -> & Hk & _ & H1)%(find_downwards _ (λ n, n :: j :: q)).
    intros (k' & [= <- <- <-] & Hk' & _ & H2)%(find_downwards _ (λ n, n :: j' :: q')).
    destruct (decide (i = i')) as [->|Hne]; [done|]. exfalso. destruct (decide (i < i')).
    + by rewrite H2 in Ha by lia.
    + by rewrite H1 in Hb by lia.
  - destruct a as [|i [|j q]]; [done..|]. destruct b as [|i' [|j' q']]; [done..|]. cbn [Tree.along].
    intros (k & -> & Hk & _ & H1)%(find_upwards _ (λ n, n :: j :: q)).
    intros (k' & [= <- <- <-] & Hk' & _ & H2)%(find_upwards _ (λ n, n :: j' :: q')).
    destruct (decide (i = i')) as [->|Hne]; [done|]. exfalso. destruct (decide (i < i')).
    + by rewrite H1 in Hb by lia.
    + by rewrite H2 in Ha by lia.
Qed.

Lemma child_nodes_NoDup p : NoDup (childNodes page p).
Proof. apply NoDup_fmap_2; [intros i j Hij; by injection Hij|apply NoDup_seq]. Qed.

Lemma steps_unique m g l :
  guaranteedUnique m = true → NoDup l → Forall (λ e, is_element e = true) l →
  (m = Contents → Forall (λ e, is_iframe page e = false) l) → NoDup (l ≫= steps m g).
Proof.
  intros Hm Hl He Hc. rewrite Forall_forall in He. apply NoDup_bind; [| |done].
  - intros a b y Ha Hb Hya Hyb. destruct m; try done; cbn [steps] in *.
    + apply (sibling_inj nextSibling a b y); [done|by apply He..| |].
      * destruct (sibling page a nextSibling); [by apply list_elem_of_singleton in Hya as ->|by apply elem_of_nil in Hya].
      * destruct (sibling page b nextSibling); [by apply list_elem_of_singleton in Hyb as ->|by apply elem_of_nil in Hyb].
    + apply (sibling_inj previousSibling a b y); [done|by apply He..| |].
      * destruct (sibling page a previousSibling); [by apply list_elem_of_singleton in Hya as ->|by apply elem_of_nil in Hya].
      * destruct (sibling page b previousSibling); [by apply list_elem_of_singleton in Hyb as ->|by apply elem_of_nil in Hyb].
    + apply list_elem_of_filter in Hya as [_ (i & -> & _)%childNodes_elem].
      by apply list_elem_of_filter in Hyb as [_ (j & [= _ <-] & _)%childNodes_elem].
    + specialize (Hc eq_refl). rewrite Forall_forall in Hc. rewrite Hc in Hya, Hyb by done.
      apply childNodes_elem in Hya as (i & -> & _). by apply childNodes_elem in Hyb as (j & [= _ <-] & _).
  - intros e Hin. destruct m; try done; cbn [steps].
    + destruct (sibling page e nextSibling); [apply NoDup_singleton|constructor].
    + destruct (sibling page e previousSibling); [apply NoDup_singleton|constructor].
    + apply NoDup_filter, child_nodes_NoDup.
    + specialize (Hc eq_refl). rewrite Forall_forall in Hc. rewrite Hc by done. apply child_nodes_NoDup.
Qed.

Lemma chosen_by_sub selector f l x : chosen_by selector f → x ∈ f l → x ∈ l.
Proof.
  intros Hf Hx. destruct selector as [[h|p|s|r]|]; cbn in Hf; try (rewrite Hf in Hx; exact Hx).
  destruct Hf as (g & _ & Hf). rewrite Hf in Hx. by apply list_elem_of_filter in Hx as [_ Hx].
Qed.
Lemma chosen_by_NoDup selector f l : chosen_by selector f → NoDup l → NoDup (f l).
Proof.
  intros Hf Hl. destruct selector as [[h|p|s|r]|]; cbn in Hf; try (by rewrite Hf).
  destruct Hf as (g & _ & Hf). rewrite Hf. by apply NoDup_filter.
Qed.
Lemma runs_in_reverse m :
  test rparentsprev (name_of m) = match m with Parents | ParentsUntil | PrevAll | PrevUntil => true | _ => false end.
Proof. by destruct m. Qed.

(** C4: every traversal method, from a set of nodes of one document, through the
    engine: the nodes it gives are those that its walks reach from the nodes of the
    set, up to what [until] stands for, and that the selector means; from several
    nodes they come each once, in document order, or in the reverse order for
    parents, prevAll and their variants; from one node in the order of the walk; and
    the methods that are not sorted give each node once when the set is made of
    different elements. *)
Theorem traverse_spec r m g f this until selector e :
  document_order page r compare → (∀ l, met_equal l = false → NoDup l) →
  Forall (in_tree page r) (nodes this) →
  (m = Contents → Forall (λ x, is_iframe page x = false) (nodes this)) →
  until_for until g → chosen_by (if is_until m then selector else until) f →
  ready e → fine (traverse m this until selector e).2 →
  let reached := f (nodes this ≫= steps m g) in
  ∃ R, (traverse m this until selector e).1 = Ok (Core.pushStack this R) ∧
    ready (traverse m this until selector e).2 ∧
    (∀ x, x ∈ R ↔ x ∈ reached) ∧
    (1 < length (nodes this) → guaranteedUnique m = false →
      StronglySorted (λ a b, before a b = true) (if test rparentsprev (name_of m) then reverse R else R)) ∧
    (length (nodes this) ≤ 1 → R = reached) ∧
    (guaranteedUnique m = true → NoDup (nodes this) → Forall (λ x, is_element x = true) (nodes this) → NoDup R).
Proof.
  intros Hord Hmet Hin Hc Hu Hf He Hfine reached.
  destruct (yields_traverse m g f this until selector Hu Hf) as [_ Hy].
  destruct (Hy e He Hfine) as [Hres Hready]. eexists. split; [exact Hres|]. split; [exact Hready|].
  unfold found. fold reached. rewrite runs_in_reverse. unfold arranged. rewrite runs_in_reverse.
  assert (Hre : Forall (in_tree page r) reached).
  { apply Forall_forall. intros x Hx. apply (chosen_by_sub _ _ _ _ Hf), list_elem_of_bind in Hx as (y & Hx & Hy').
    rewrite Forall_forall in Hin. eapply steps_in_tree; [by apply Hin| |exact Hx].
    intros Hm. specialize (Hc Hm). rewrite Forall_forall in Hc. by apply Hc. }
  destruct (uniqueSort_sorted page r compare (met_equal reached) reached Hord Hre (Hmet reached)) as [Hs Hel].
  fold (unique compare met_equal reached) in Hs, Hel.
  split_and!.
  - intros x. destruct (1 <? length (nodes this)); [|done].
    by destruct m; cbn [guaranteedUnique]; rewrite ?elem_of_reverse, ?Hel.
  - intros Hlen Hm. rewrite (proj2 (Nat.ltb_lt _ _)) by done. rewrite Hm.
    by destruct m; rewrite ?reverse_involutive.
  - intros Hlen. by rewrite (proj2 (Nat.ltb_ge _ _)) by lia.
  - intros Hm Hnd Hel'. rewrite Hm.
    assert (Hr : NoDup reached) by (by eapply chosen_by_NoDup, steps_unique).
    destruct (1 <? _); [|done]. by destruct m.
Qed.

(** ** The nearest match *)

Local Abbreviation closest := (closest page compare met_equal document byId parseHTML on_ready).
Fixpoint nearest (f : path → bool) (context : option path) (l : list path) : option path :=
  match l with
  | [] => None
  | cur :: l' =>
      if bool_decide (Some cur = context) then None
      else if is_element cur && f cur then Some cur else nearest f context l'
  end.

Lemma nearest_elem f context l x : nearest f context l = Some x → x ∈ l.
Proof.
  induction l as [|y l IH]; [done|]. cbn [nearest]. destruct (bool_decide _); [done|].
  destruct (_ && _); [intros [= ->]; by left|]. intros Hx. right. by apply IH.
Qed.

Lemma yields_closest_walk check f context l :
  (∀ x, yields (check x) (is_element x && f x)) →
  yields (closest_walk page check context l) (nearest f context l).
Proof.
  intros Hcheck. assert (Hk : ∀ x, keeps back (check x)) by (intros x; apply Hcheck).
  assert (Hkw : ∀ l, keeps back (closest_walk page check context l)).
  { clear l. induction l as [|x l IH]; cbn [closest_walk]; [back|]. destruct (bool_decide _); [back|].
    apply keeps_back_bind; [destruct (_ <? _)%N; [apply Hk|back]|]. intros [|]; [back|apply IH]. }
  induction l as [|x l IH]; cbn [closest_walk nearest]; [apply yields_ret|].
  destruct (bool_decide _); [apply yields_ret|].
  eapply (yields_bind _ _ (is_element x && f x)); [|intros [|]; [back|apply Hkw]|].
  - destruct (N.ltb_spec (type_of page x) 11) as [|Hge]; [apply Hcheck|].
    assert (Hx : is_element x = false); [|rewrite Hx; apply yields_ret].
    unfold Tree.is_element. unfold type_of in Hge. apply N.eqb_neq. lia.
  - destruct (is_element x && f x); [apply yields_ret|apply IH].
Qed.

Lemma yields_closest_loop check f context l matched :
  (∀ x, yields (check x) (is_element x && f x)) →
  yields (closest_loop page check context l matched)
    (matched ++ omap (λ x, nearest f context (x :: along parentNode x)) l).
Proof.
  intros Hcheck. assert (Hw := λ l, yields_closest_walk check f context l Hcheck).
  assert (Hkl : ∀ l matched, keeps back (closest_loop page check context l matched)).
  { clear l matched. induction l as [|x l IH]; intros matched; cbn [closest_loop]; [back|].
    apply keeps_back_bind; [apply Hw|]. intros [y|]; apply IH. }
  revert matched. induction l as [|x l IH]; intros matched; cbn [closest_loop omap list_omap].
  - rewrite app_nil_r. apply yields_ret.
  - eapply yields_bind; [apply Hw|intros; apply Hkl|].
    destruct (nearest f context (x :: along parentNode x)) as [y|]; [|apply IH].
    specialize (IH (matched ++ [y])). by rewrite <- (assoc_L (++)) in IH.
Qed.

(** Closest with a text gives, for every node of the set, the nearest of the node
    and its ancestors below the context that is an element the text means, each once
    and in document order. *)
Theorem closest_spec r s f this context this_context e :
  document_order page r compare → (∀ l, met_equal l = false → NoDup l) →
  Forall (in_tree page r) (nodes this) →
  means s f → test rneedsContext s = false →
  ready e → fine (closest this (QString s) context this_context e).2 →
  ∃ R, (closest this (QString s) context this_context e).1 = Ok (Core.pushStack this R) ∧
    ready (closest this (QString s) context this_context e).2 ∧
    StronglySorted (λ a b, before a b = true) R ∧
    ∀ x, x ∈ R ↔ ∃ y, y ∈ nodes this ∧ nearest f context (y :: along parentNode y) = Some x.
Proof.
  intros Hord Hmet Hin Hs Hn He Hfine.
  set (matched := omap (λ x, nearest f context (x :: along parentNode x)) (nodes this)).
  assert (Hy : yields (closest this (QString s) context this_context)
    (Core.pushStack this (if 1 <? length matched then unique compare met_equal matched else matched))).
  { unfold Traverse.closest. rewrite Hn.
    apply yields_ret_bind.
    eapply yields_bind; [|back|apply yields_ret]. apply (yields_closest_loop _ f).
    intros x. destruct (is_element x); [by apply yields_matchesSelector|apply yields_ret]. }
  destruct Hy as [_ Hy]. destruct (Hy e He Hfine) as [Hres Hready]. eexists. split; [exact Hres|]. split; [exact Hready|].
  assert (Hm : Forall (in_tree page r) matched).
  { apply Forall_forall. intros x (y & Hy' & Hx)%list_elem_of_omap. rewrite Forall_forall in Hin.
    specialize (Hin y Hy'). apply nearest_elem in Hx. apply elem_of_cons in Hx as [->|Hx]; [done|].
    by eapply along_in_tree. }
  assert (Hin' : ∀ x, x ∈ matched ↔ ∃ y, y ∈ nodes this ∧ nearest f context (y :: along parentNode y) = Some x)
    by (intros x; apply list_elem_of_omap).
  destruct (uniqueSort_sorted page r compare (met_equal matched) matched Hord Hm (Hmet matched)) as [Hsort Hel].
  destruct (1 <? length matched) eqn:El.
  - split; [exact Hsort|]. intros x. by rewrite <- Hin', <- Hel.
  - split; [|done]. apply Nat.ltb_ge in El. destruct matched as [|x [|y l]]; [constructor|repeat constructor|].
    simpl in El. lia.
Qed.
End facts.
End TraverseFacts.

(** ** The compiler satisfies the laws *)

Module Implementation.
Import Matchers Tokens.

Section engine.
Context `{UnicodeCase}.
Variable page : list tree.
Variable documentIsHTML : bool.
Variable docElem : path.
Variable hash : jsstr.
Variable focused : path → bool.
Variable textContent : path → option jsstr.
Variable attrHandle : jsstr → option (path → jsstr → option (option jsstr)).
Variable escaped_class : jsstr → jsstr → bool.
Variable extra : jsstr → option (path → outcome bool).
Variable nested_run : nat → Z → Z.
Variable native : jsstr → path → outcome (list path).
Variable document : path.
(** [jQuery.find(selector, context)], which SzSelect defines for a browser. *)
Variable sizzle : jsstr → path → M (engine * Compiler.compiler) (option (list path)).
Local Abbreviation matches := (Compiler.matches page documentIsHTML docElem hash focused textContent attrHandle
  escaped_class extra nested_run native document).
Local Abbreviation meaning := (Compiler.meaning page documentIsHTML docElem hash focused textContent attrHandle
  escaped_class extra native).
Local Abbreviation matchesSelector := (Compiler.matchesSelector page documentIsHTML docElem hash focused textContent
  attrHandle escaped_class extra nested_run native document).
Local Abbreviation E := (engine * Compiler.compiler)%type.

(** A selector with positional parts is not modelled: the computation ends there. *)
Definition answered {A} (r : option A) : M E A := match r with Some x => mret x | None => throw Diverge end.
#[export] Instance compiler_engine : SelectorEngine E := {
  find_matches s l := (r ← matches s l; answered r);
  find_matchesSelector p s := (r ← matchesSelector p s; answered r);
  find_in s c := (r ← sizzle s c; answered r);
}.

(** The text that [matchesSelector] asks for. *)
Definition quoted_text (expr : jsstr) : jsstr :=
  let rattributeQuotes := seqs [lit "="; ws; RGroup 1 (RStar false (RSet (λ c, ncls "]'" c && negb (N.eqb c 34)))); ws; lit "]"] in
  replace_all rattributeQuotes (λ m, js "='" ++ capture_str m 1 ++ js "']") expr.
Definition text_means (s : jsstr) (f : path → bool) : Prop :=
  s ≠ [] ∧ ∃ p, meaning (trim_ws s) = Ok (Some p) ∧ ∀ e, (p OFalse (CNode document) e tt).1 = Ok (f e).

Lemma select_by_pure (p : path → M unit bool) (f : path → bool) l :
  (∀ e, (p e tt).1 = Ok (f e)) → (select_by p l tt).1 = Ok (base.filter (λ e, Is_true (f e)) l).
Proof.
  intros Hp. induction l as [|x l IH]; [done|]. cbn [select_by]. rewrite filter_cons. unfold mbind, M_bind.
  specialize (Hp x). destruct (p x tt) as [[b|] []]; [|done]. injection Hp as ->.
  destruct (select_by p l tt) as [[r|] []]; [|done]. injection IH as ->. by destruct (f x).
Qed.

Lemma expected_means s f l :
  text_means s f → Compiler.expected page documentIsHTML docElem hash focused textContent attrHandle escaped_class extra native
    document s l = Ok (Some (base.filter (λ e, Is_true (f e)) l)).
Proof.
  intros (Hs & p & Hm & Hp). unfold Compiler.expected. destruct s as [|c s]; [done|]. rewrite Hm.
  by rewrite (select_by_pure _ f).
Qed.

Definition fine_run (e : E) : Prop := NoDup (runs e.1).
Lemma matches_back s l : keeps (λ e e', fine_run e' → fine_run e) (matches s l).
Proof.
  intros e Hf. destruct (Compiler.matches_grows page documentIsHTML docElem hash focused textContent attrHandle
    escaped_class extra nested_run native document s l e) as [new Hn]. unfold fine_run in *.
  rewrite Hn in Hf. by apply NoDup_app in Hf as (_ & _ & ?).
Qed.
Lemma answered_back {A} (r : option A) : keeps (λ e e', fine_run e' → fine_run e) (answered r).
Proof. destruct r; intros e He; exact He. Qed.
#[local] Instance fine_back_preorder : PreOrder (λ e e', fine_run e' → fine_run e).
Proof. split; [by intros e|intros a b c; auto]. Qed.

Lemma matches_answer s f l e :
  text_means s f → Compiler.ready page documentIsHTML docElem hash focused textContent attrHandle escaped_class extra native e →
  fine_run (matches s l e).2 →
  (matches s l e).1 = Ok (Some (base.filter (λ x, Is_true (f x)) l)) ∧
  Compiler.ready page documentIsHTML docElem hash focused textContent attrHandle escaped_class extra native (matches s l e).2.
Proof.
  intros Hs He Hf. destruct (Compiler.matches_spec page documentIsHTML docElem hash focused textContent attrHandle
    escaped_class extra nested_run native document s l e He Hf) as [Hr Hready].
  rewrite (expected_means s f l Hs) in Hr. split; [done|]. apply Hready. by rewrite Hr.
Qed.

Lemma matchesSelector_unfold p s :
  matchesSelector p s = (found ← matches (quoted_text s) [p];
    mret ((λ l, match l with [] => false | _ => true end) <$> (found : option (list path)))).
Proof. reflexivity. Qed.

Lemma bind_state {A B} (m : M E A) (k : A → M E B) a e :
  (m e).1 = Ok a → (m ≫= k) e = k a (m e).2.
Proof. intros Hm. unfold mbind, M_bind. destruct (m e) as [r e']. cbn [fst snd] in *. by rewrite Hm. Qed.

(** The compiler's promise: a selector that means the same with quotes around its
    attribute values. *)
#[export] Program Instance compiler_laws : SelectorLaws E := {
  ready := Compiler.ready page documentIsHTML docElem hash focused textContent attrHandle escaped_class extra native;
  fine := fine_run;
  means s f := text_means s f ∧ text_means (quoted_text s) f;
}.
Next Obligation. by intros s f [[? _] _]. Qed.
Next Obligation.
  intros s l. apply keeps_bind; [apply _|apply matches_back|apply answered_back].
Qed.
Next Obligation.
  intros p s. cbn [find_matchesSelector compiler_engine]. rewrite matchesSelector_unfold.
  apply keeps_bind; [apply _| |apply answered_back].
  apply keeps_bind; [apply _|apply matches_back|intros; apply keeps_ret, _].
Qed.
Next Obligation.
  intros s f l e [Hs _] He. cbn [find_matches compiler_engine]. intros Hf.
  assert (Hf' : fine_run (matches s l e).2).
  { revert Hf. unfold mbind, M_bind. destruct (matches s l e) as [[r|err] e']; [|done]. by destruct r. }
  destruct (matches_answer s f l e Hs He Hf') as [Hr Hready]. rewrite (bind_state _ _ _ _ Hr). done.
Qed.
Next Obligation.
  intros s f p e [_ Hq] He. cbn [find_matchesSelector compiler_engine]. rewrite matchesSelector_unfold. intros Hf.
  assert (Hf' : fine_run (matches (quoted_text s) [p] e).2).
  { revert Hf. unfold mbind, M_bind. destruct (matches (quoted_text s) [p] e) as [[r|err] e']; [|done]. by destruct r. }
  destruct (matches_answer _ f [p] e Hq He Hf') as [Hr Hready].
  assert (Hm : ((found ← matches (quoted_text s) [p];
    mret ((λ l, match l with [] => false | _ => true end) <$> (found : option (list path)))) e) =
    (Ok (Some (f p)), (matches (quoted_text s) [p] e).2)).
  { rewrite (bind_state _ _ _ _ Hr).
    assert (Hl : base.filter (λ x, Is_true (f x)) [p] = if f p then [p] else []) by (rewrite filter_cons, filter_nil; by destruct (f p)).
    rewrite Hl. by destruct (f p). }
  unfold mbind at 1, M_bind at 1. unfold mbind at 2, M_bind at 2. rewrite Hm. done.
Qed.
End engine.

(** ** Examples on the sample document *)

Definition sample_runs (n : nat) (d : Z) : Z := (d + Z.of_nat n + 1)%Z.
Definition no_native (s : jsstr) (p : path) : outcome (list path) := Ok [].
Definition no_search (s : jsstr) (p : path) : M (engine * Compiler.compiler) (option (list path)) := mret None.
#[local] Instance sample_engine : SelectorEngine (engine * Compiler.compiler) :=
  @compiler_engine ascii_case sample true [0; 0] [] (λ _, false) (λ _, None) (λ _, None) (λ _ _, false) (λ _, None)
    sample_runs no_native [0] no_search.
#[local] Instance sample_laws : SelectorLaws (engine * Compiler.compiler) :=
  @compiler_laws ascii_case sample true [0; 0] [] (λ _, false) (λ _, None) (λ _, None) (λ _ _, false) (λ _, None)
    sample_runs no_native [0] no_search.

Definition li_predicate : Compiler.predicate :=
  match @Compiler.meaning ascii_case sample true [0; 0] [] (λ _, false) (λ _, None) (λ _, None) (λ _ _, false) (λ _, None) no_native
    (trim_ws (js "li")) with
  | Ok (Some p) => p
  | _ => λ _ _ _, mret false
  end.
Definition is_li (e : path) : bool :=
  match (li_predicate OFalse (CNode [0]) e tt).1 with Ok b => b | Throw _ => false end.
Lemma li_total e : ∃ b, (li_predicate OFalse (CNode [0]) e tt).1 = Ok b.
Proof. vm_compute. match goal with |- context [if ?b then _ else _] => destruct b end; eauto. Qed.
Lemma li_means : means (js "li") is_li.
Proof.
  assert (H : (@text_means ascii_case sample true [0; 0] [] (λ _, false) (λ _, None) (λ _, None) (λ _ _, false)
    (λ _, None)) no_native [0] (js "li") is_li).
  { split; [done|]. exists li_predicate. split; [vm_compute; reflexivity|]. intros e. unfold is_li.
    destruct (li_total e) as [b Hb]. by rewrite Hb. }
  split; [exact H|]. exact H.
Qed.

(** A page without scripts of its own, on the three items of the two lists. *)
Definition sample_order : path → path → Z := sortOrder sample [0] [0] None.
Definition repeats (l : list path) : bool := negb (bool_decide (NoDup l)).
Definition no_id (s : jsstr) : option path := None.
Definition no_html (s : jsstr) : M (engine * Compiler.compiler) (list path) := mret [].
Definition no_ready (f : path → nat → M (engine * Compiler.compiler) bool) : M (engine * Compiler.compiler) unit := mret tt.
Definition start : engine * Compiler.compiler := (engine0, Compiler.compiler0).
Definition three_items : Traverse.set := Core.Jq [[0; 1; 0; 0]; [1; 0; 0; 0]; [0; 0; 0; 0]] None.

Lemma sample_document_order : document_order sample 0 sample_order.
Proof. apply sortOrder_document. Qed.
Lemma repeats_met l : repeats l = false → NoDup l.
Proof. unfold repeats. rewrite negb_false_iff. apply bool_decide_eq_true. Qed.
Lemma items_in_tree : Forall (in_tree sample 0) (Traverse.nodes three_items).
Proof. repeat constructor; by eexists. Qed.
Lemma start_ready : ready start.
Proof. apply Compiler.ready_start. Qed.

Definition sample_siblings := Traverse.traverse sample sample_order repeats [0] no_id no_html no_ready (λ _, None)
  Traverse.Siblings three_items (Some (Traverse.QString (js "li"))) None.
Definition sample_closest := Traverse.closest sample sample_order repeats [0] no_id no_html no_ready
  three_items (Traverse.QString (js "li")) None None.

Lemma sample_fine : fine (sample_siblings start).2 ∧ fine (sample_closest start).2.
Proof. split; apply (bool_decide_unpack _); by vm_compute. Qed.

Lemma traverse_spec_witness :
  ∃ R, (sample_siblings start).1 = Ok (Core.pushStack three_items R) ∧
    StronglySorted (λ a b, before a b = true) R ∧ [1; 0; 0; 0] ∈ R.
Proof.
  destruct (TraverseFacts.traverse_spec sample sample_order repeats [0] no_id no_html no_ready (λ _, None) 0
    Traverse.Siblings is_li (TraverseFacts.selected (λ x, is_element sample x && is_li x)) three_items
    (Some (Traverse.QString (js "li"))) None start) as (R & HR & _ & Hel & Hs & _).
  - apply sample_document_order.
  - apply repeats_met.
  - apply items_in_tree.
  - done.
  - split; [constructor; apply li_means|by vm_compute].
  - exists is_li. split; [apply li_means|done].
  - apply start_ready.
  - apply sample_fine.
  - exists R. split; [exact HR|]. split; [by apply Hs; [simpl; lia|]|]. apply Hel.
    apply (bool_decide_unpack _). by vm_compute.
Defined.

Lemma closest_spec_witness :
  ∃ R, (sample_closest start).1 = Ok (Core.pushStack three_items R) ∧ [0; 1; 0; 0] ∈ R.
Proof.
  destruct (TraverseFacts.closest_spec sample sample_order repeats [0] no_id no_html no_ready 0
    (js "li") is_li three_items None None start) as (R & HR & _ & _ & Hel).
  - apply sample_document_order.
  - apply repeats_met.
  - apply items_in_tree.
  - apply li_means.
  - by vm_compute.
  - apply start_ready.
  - apply sample_fine.
  - exists R. split; [exact HR|]. apply Hel. exists [0; 1; 0; 0]. split; [by left|by vm_compute].
Defined.

(** Two nodes of a set have the same next element when one of them is a text: the
    set of next elements, which is taken to be free of repetitions, has it twice. *)
Definition text_page : list tree :=
  [Tree (Info 9 [] [] (λ _, None) None [] [] [] None false false)
     [element "P" []; Tree (Info 3 [] (js "text") (λ _, None) None [] [] [] None false false) []; element "P" []]].
Lemma next_repeats :
  Traverse.guaranteedUnique Traverse.Next = true ∧
  ([[0; 0]; [1; 0]] ≫= TraverseFacts.steps text_page (λ _, None) Traverse.Next (λ _, false)) = [[2; 0]; [2; 0]].
Proof. by vm_compute. Qed.

(** A text node is dropped by [not] with a simple selector and kept with any other. *)
Lemma not_drops_text :
  test Traverse.risSimple (js "li") = true ∧ test Traverse.risSimple (js "li.x") = false ∧
  is_element text_page [1; 0] = false ∧
  TraverseFacts.selected (λ x, is_element text_page x && true) [[1; 0]] = [] ∧
  TraverseFacts.selected (λ x, negb (is_element text_page x && true)) [[1; 0]] = [[1; 0]].
Proof. by vm_compute. Qed.
End Implementation.
